(* ===== verification/_CoqProject ===== *)
-Q . S2P
Prelude.v
GoErrors.v
Utf8.v
CommonErrors.v
RWMutex.v
MemoryCache.v
ListHeap.v
CacheRace.v
Caches.v
SafeMap.v
LockedMap.v
SqlRedact.v
GormLogger.v
MigrateSource.v
MigrateEngine.v
SqliteDriver.v
DbMigrate.v
MigrateTo.v
AppRunner.v
Json.v
GoJson.v
GoDecode.v
GoStrings.v
Strconv.v
Gonfig.v
MqSse.v
LokiHandler.v
SqlPools.v
NatsMq.v
Delivery.v
ClaudeCode.v
HttpApi.v
EchoServer.v
Temporal.v
Configs.v
Float64.v
RateLimit.v
Downloads.v
Base64.v
Certs.v
UrlUtil.v
RandUtil.v
SmallPkgs.v
