(* ===== verification/Prelude.v ===== *)
(** * common-go: a verification library

    The repository (src/, Go) is a toolbox of packages that services share: a
    cache, a concurrent map, database helpers (logging, migrations, connection
    pools), a process runner, a message queue with an event publisher, a log
    shipper, HTTP server and client parts, a rate limiter, helpers for Temporal
    workflows, and utilities for files, URLs and random strings.  The packages are
    loosely coupled; the calls between them that matter are
    - db/sqlite/migrate.go, db/mysql/migrate.go and db/postgresql/migrate.go run
      golang-migrate through the helpers of db/migrate.go, the first one over the
      migration driver of db/sqlite/driver.go;
    - db/mysql and db/postgresql hand GORM the logger of db/gorm_slog_logger.go;
    - llm/mqsse publishes on any queue that implements mq, as mq/nats does;
    - cache.New chooses between cache/memory.go and cache/redis.go behind one
      interface;
    - http/echo/middleware builds on http/oapi-codegen/middleware and the error
      codes of http;
    - the packages that are configured from the environment share the process-wide
      defaults of gonfiguration;
    - every package wraps its errors with ctxerrors.

    ** Conventions

    Go functions are Rocq functions of the same name (a trailing underscore or a
    prefix where Rocq has the name already).  A function with the results
    (T, error) has the type [gores T], an error alone is an [option error], nil
    being [None]; errors are the trees of GoErrors.v, so that errors.Is can be
    computed.  Code with effects is a function from the world to a result and the
    next world ([io W]); what is not in the repository (database/sql, drivers,
    servers, clocks, file systems) is a record of operations with a class of laws,
    or an arbitrary sequence of answers, and the theorems hold for every such
    outside.  int and int64 are Z with [wrap64] where the code does arithmetic on
    them; strings are lists of bytes where their bytes matter and Rocq strings
    where they are only names.  Concurrency is a step relation whose reachable
    states the theorems quantify over; for objects behind a mutex its steps are
    single memory accesses.  Logging calls are left out except where
    logging is what the code is for.

    ** Files

    - Prelude.v: results, the world monad, machine integers, durations, hint
      databases, list lemmas.
    - GoErrors.v: vendor/github.com/psyb0t/ctxerrors with its error map, errors.Is,
      errors.Join.
    - RWMutex.v: sync.RWMutex: goroutines that run method bodies access by access
      under a reader-writer lock, the atomic reference semantics, when the former
      has only the results of the latter, and running a schedule.
    - CommonErrors.v: the shared sentinels and constants (errors, http/errors.go,
      constants).
    - MemoryCache.v: cache/memory.go.  The element store, the key map and the
      container/list of the LRU are explicit; operations and cleanup ticks form
      runs.
    - ListHeap.v: container/list, with the next and prev pointers of its ring.
    - CacheRace.v: cache/memory.go once more, as programs of field accesses over
      ListHeap.v, under the lock.
    - Caches.v: cache/cache.go as a record of operations with the class
      [CacheLaws], cache/memory.go and cache/redis.go as its instances (the latter
      over [RedisLaws], the documented behaviour of a Redis server), and New of
      cache/config.go.
    - SafeMap.v: types/map.go over gmap, range loops in any order; LockedMap.v: its
      methods as programs of map accesses, under the lock.
    - Utf8.v: unicode/utf8, the character classes, strings.TrimSpace and Trim of
      slashes.
    - SqlRedact.v: the scanner of db/gorm_slog_logger.go (summarizeSQL and below),
      with indices, and a reference lexer.
    - GormLogger.v: the logger of the same file.
    - MigrateSource.v: golang-migrate's source index, file name parser and iofs
      scan (vendor/github.com/golang-migrate/migrate/v4/source).
    - MigrateEngine.v: golang-migrate's Up, Steps and Force (migrate.go of the
      same package), over any database driver; the classes [SourceLaws] and
      [DriverLaws] say what it relies on, [Within] that it touches the world
      through the driver only.
    - SqliteDriver.v: db/sqlite/driver.go over database/sql; it discharges
      [DriverLaws].  [MemDB] is a database with an arbitrary schedule of faults.
    - DbMigrate.v: db/migrate.go and db/sqlite/migrate.go.
    - MigrateTo.v: the rest of golang-migrate's engine: Migrate, Down, Run, Drop.
    - AppRunner.v: app-runner/app_runner.go, its goroutines and channels as a step
      relation.
    - Json.v: encoding/json's Marshal for the values the packages build.
    - GoJson.v: encoding/json's reader: the scanner as a recursive descent over bytes
      ([scan], [document], [readValue] on a stream), numbers as strconv reads them.
    - GoDecode.v: json.Unmarshal and Decoder.Decode into Go types: a universe of types
      and values in place of reflection, the struct, map, slice and pointer cases of the
      decoder, the encoder, and records of round trips ([repr]) for Go structs.
    - GoStrings.v: splitting, path.Join and strconv.Quote on byte strings.
    - Strconv.v: strconv.ParseInt, ParseUint and ParseBool, time.ParseDuration.
    - Gonfig.v: vendor/github.com/psyb0t/gonfiguration: defaults and Parse.
    - MqSse.v: mq and llm/mqsse; [MQLaws] is what a queue promises.  The event payloads
      are Go types of GoDecode.v, which Message.Decode reads them into.
    - LokiHandler.v: slogging/loki/loki.go, with the sharing of slices between
      handlers.
    - SqlPools.v: db/mysql and db/postgresql, with a ledger of open pools and
      reserved connections; backoff.Retry.
    - NatsMq.v: mq/nats; [JetStreamLaws] is what the server promises.
    - Delivery.v: llm/mqsse over mq/nats to a subscriber; [JetStreamLog] is what the
      server stores.
    - ClaudeCode.v: ai/claudecode/client.go, with its result types.
    - HttpApi.v: http/error_codes.go and responses.go, http/oapi-codegen and
      http/echo middlewares, with the vendored request validator.
    - EchoServer.v: http/echo/config.go and echo.go; Start as a step relation.
    - Temporal.v: temporal/workflow.go, wait.go, client.go, worker.go; [ServiceLaws] is
      what Temporal documents of retry policies.
    - Configs.v: the configuration structs of cache, http/echo, db/mysql,
      db/postgresql, slogging/loki, temporal and app-runner over Gonfig.v.
    - Float64.v: float64 as rationals with rounding to 53 bits after every operation,
      checked against the IEEE operations of the standard library on samples.
    - RateLimit.v: ratelimit/ratelimit.go over the token bucket of
      golang.org/x/time/rate, with its float64 arithmetic.
    - Downloads.v: utils/httputil; DownloadFiles as a step relation.
    - Base64.v: encoding/base64; Certs.v: utils/fileutil and utils/cryptoutil.
    - UrlUtil.v: utils/urlutil with the query functions of net/url.
    - RandUtil.v: utils/randutil.
    - SmallPkgs.v: heartbeat, db/models, db/sqlite/gorm, utils/ptrutil and
      utils/jsonutil.

    ** What the theorems show

    - Cache (C1 to C5, C7): every sequence of operations and cleanups of the memory
      cache refines a list of entries kept in order of use and cut at the capacity;
      entries stay readable as long as they are recent and not expired; Set
      terminates for a positive capacity, and its value is there exactly until its deadline;
      the caches New builds, memory (with room for an entry) and Redis, never give a stale
      value for times to live of at least a millisecond.  Under concurrency
      the same list is refined, down to the pointers, as long as Gets that overlap
      have nothing to move (C2), and can be broken beyond repair when they have (C5).
    - types.Map (C6): free of data races and linearizable in every interleaving.
    - Redaction and query logs (C8 to C10, C36): the scanner terminates without an
      out-of-range access and refines the lexer; a preview has no quote or digit and
      does not depend on values that GORM renders, unless the text before one ends in E;
      Trace logs a query at most once, at
      the right level.
    - Rate limit (C11): a token bucket lets through at most its burst and what its
      rate earns in the window and a nanosecond, up to an explicit term for the
      rounding of float64, when no call is cancelled while it waits.
    - Migrations (C12 to C15, C22, C23): a dirty database is refused, safety at every crash point, pending
      migrations applied in order, up and down as inverses, the atomic version record,
      the order of versions.
    - HTTP (C16, C40, C28): who reaches a handler behind bearer authentication
      and the status and code every other request is answered with; what the middlewares do not cover; the
      server's life cycle.
    - Runner (C17, C18): every outcome in every interleaving; Run returns once a
      signal is pending or the application has returned, by itself and the deadline.
    - Downloads (C19): bounded concurrency, progress, termination and the files.
    - Configuration (C20, C21): a struct is settled from the environment and the
      defaults by their priority and with the types of its fields; every package
      gets the configuration of its environment whatever happened to the shared
      state before, as long as nobody else sets defaults for its keys.
    - Events (C24 to C26): the block protocol of the text streamer under publish
      failures and on to the subscriber of the queue, and that decoding a message
      respects the type of its target and undoes encoding.
    - Temporal (C27, C39): over any service that keeps the documented retry policy the
      wait makes no more than its attempts, and its result is nil only at a clear one and an
      error otherwise; the visibility query cannot be broken out of.
    - Queue (C29, C30), pools (C31, C32), HTTP client (C33, C34: requests and the
      results that come back), log shipping (C35).
    - Utilities (C37, C38): two ways to load certificates agree, query parameters
      survive.

    Theorems outside this list: memory_bounded, DeleteFunc_spec, map_calls_return,
    migrate_to_version, down_reverts_all, translate_order, composite_sends,
    create_database_quoting, random_strings, join_url_paths, echo_routes,
    event_decodes, sqlite_force_sets_version, echo_New_environment,
    loki_NewClient_environment.

    Further lemmas show where the code does not do what it means to: Set hangs
    without capacity (memory_set_hangs), a preview can exceed its limit
    (summarizeSQL_exceeds_limit), a signal shutdown loses the error of Stop
    (runner_loses_stop_error), derived log handlers break the contract of slog
    (loki_derived_handlers_broken), db/postgresql leaks pools and has an ambiguous DSN
    (postgres_leaks_pools, getDSN_ambiguous), a time to live of zero means two things
    (zero_ttl_differs), a download keeps the tail of a longer file
    (DownloadFile_keeps_tail), the default wait is shorter than documented
    (default_wait_is_30_minutes), BuildURI leaves a user unescaped
    (BuildURI_raw_user), NewHandler of slogging/loki fails in every environment
    (loki_NewHandler_fails), a keyword that ends in E before a quote can make the next
    literal show in a preview (redact_leaks_after_e).

    ** Bounds and fuel

    Loops over bytes take one more than the length of the input as fuel, enough
    because every turn consumes a byte; the theorems state the result for the fuel the
    definitions fix, so they are total.  The migration reader takes fuel from its
    caller: more than the number of versions suffices, which the theorems about
    MigrateUp and MigrateDown ask for and then prove a result.  The eviction loop
    of the cache takes fuel from its caller: more than the number of elements
    suffices, which the theorems ask for, and the diverging cases are proved for
    every fuel.  The JSON
    reader takes one more than the length of its input, which [scan_total] shows to be
    enough, and refuses nesting beyond 10000 as encoding/json does.
    time.ParseDuration takes the length of its input ([duration_loop_fuel]).
    strconv.Quote takes the length of its input and FormatInt sixteen digits, enough
    for an int64.  The other recursions are structural.

    ** Not modelled

    Generated code (the mock of ai/claudecode's Runner); interface values that hold
    pointers, byte slices and embedded structs as targets of JSON decoding, which no
    struct of the repository has; GracefulStop, on which nobody sends, lock timeouts and
    prefetching of golang-migrate; the call sites ctxerrors records, which only show in
    the text of an error; infinities and NaN of float64, which the rate limiter only
    meets for limits that are not numbers; what the Temporal service does beyond its
    documented retry policy; reflect's parsing of struct
    tags and strconv.ParseFloat in gonfiguration; callbacks of types.Map that call the map
    again; values a data race may produce beyond those of some interleaving; single
    accesses behind the mutexes of ratelimit, gonfiguration and ctxerrors, whose read-locked
    sections only read and whose operations are one step here. *)

From stdpp Require Import base option list gmap strings.
From Stdlib Require Import ZArith Lia.

Declare Scope go_scope.
Delimit Scope go_scope with go.

(** ** Results of fallible calls *)

(** A Go function with the results [(T, error)] returns either a value or a
    non-nil error; the callers modelled here never look at the other half. *)
Inductive result (E A : Type) : Type :=
| Ok (a : A)
| Err (e : E).
Arguments Ok {E A} a.
Arguments Err {E A} e.

Definition is_ok {E A} (r : result E A) : bool :=
  match r with Ok _ => true | Err _ => false end.

(** ** Code that talks to the outside: a state monad over the world [W] *)

Definition io (W A : Type) : Type := W -> A * W.

#[export] Instance io_ret {W} : MRet (io W) := fun A a w => (a, w).
#[export] Instance io_bind {W} : MBind (io W) :=
  fun A B f m w => let '(a, w') := m w in f a w'.

Lemma io_bind_ret {W A B} (a : A) (f : A -> io W B) w :
  (mret a ≫= f) w = f a w.
Proof. reflexivity. Qed.

Lemma io_bind_assoc {W A B C} (m : io W A) (f : A -> io W B) (g : B -> io W C) w :
  ((m ≫= f) ≫= g) w = (m ≫= (fun x => f x ≫= g)) w.
Proof. unfold mbind, io_bind. by destruct (m w). Qed.

(** ** Machine integers *)

(** Go's [int] and [int64] on the 64-bit targets the project builds for:
    two's complement with wrap-around. *)
Definition wrap64 (z : Z) : Z := (z + 2 ^ 63) `mod` 2 ^ 64 - 2 ^ 63.

Definition int64_range (z : Z) : Prop := (- 2 ^ 63 <= z < 2 ^ 63)%Z.

Lemma wrap64_range z : int64_range (wrap64 z).
Proof.
  unfold int64_range, wrap64.
  pose proof (Z.mod_pos_bound (z + 2 ^ 63) (2 ^ 64) eq_refl). lia.
Qed.

Lemma wrap64_id z : int64_range z -> wrap64 z = z.
Proof. unfold int64_range, wrap64. intros H. rewrite Z.mod_small; lia. Qed.

(** ** Durations, in nanoseconds *)

Definition Nanosecond : Z := 1.
Definition Millisecond : Z := 1000000 * Nanosecond.
Definition Second : Z := 1000 * Millisecond.
Definition Minute : Z := 60 * Second.
Definition Hour : Z := 60 * Minute.

(** ** Automation *)

Create HintDb go.
#[export] Hint Constants Opaque : go.
#[export] Hint Resolve wrap64_range : go.
Create Rewrite HintDb io.
#[export] Hint Rewrite @io_bind_ret @io_bind_assoc : io.

(** Case analysis on the first [match] or [if] scrutinee of the goal. *)
Ltac case_goal :=
  match goal with
  | |- context [match ?x with _ => _ end] => destruct x eqn:?
  end.

(** Case analysis on the first [match] or [if] scrutinee of a hypothesis. *)
Ltac case_hyp H :=
  match type of H with
  | context [match ?x with _ => _ end] => destruct x eqn:?
  end.

(** Linear arithmetic with division and modulo by constants. *)
Ltac dlia := Z.to_euclidean_division_equations; lia.

(** ** Generic list lemmas *)

(** Removing the (unique) occurrence of [x]. *)
Fixpoint remove_first {A} `{EqDecision A} (x : A) (l : list A) : list A :=
  match l with
  | [] => []
  | y :: l' => if decide (x = y) then l' else y :: remove_first x l'
  end.

Section RemoveFirst.
Context {A : Type} `{EqDecision A}.
Implicit Types l : list A.

Lemma remove_first_not_in x l : x ∉ l -> remove_first x l = l.
Proof.
  induction l as [|y l IH]; simpl; [done|]. intros Hx. apply not_elem_of_cons in Hx as [? ?].
  rewrite decide_False by done. by rewrite IH.
Qed.

Lemma remove_first_sublist x l : remove_first x l `sublist_of` l.
Proof.
  induction l as [|y l IH]; simpl; [done|].
  case_decide; [by constructor|]. by constructor.
Qed.

Lemma remove_first_NoDup x l : NoDup l -> NoDup (remove_first x l).
Proof. intros Hnd. eapply sublist_NoDup; [done|apply remove_first_sublist]. Qed.

Lemma remove_first_elem x l y :
  NoDup l -> y ∈ remove_first x l <-> y ∈ l /\ y <> x.
Proof.
  induction l as [|z l IH]; simpl; intros Hnd; [set_solver|].
  apply NoDup_cons in Hnd as [Hz Hnd]. specialize (IH Hnd).
  case_decide; subst; set_solver.
Qed.

Lemma remove_first_length x l :
  x ∈ l -> length l = S (length (remove_first x l)).
Proof.
  induction l as [|y l IH]; simpl; intros Hx; [set_solver|].
  case_decide; subst; [done|]. simpl. rewrite <- IH; set_solver.
Qed.

Lemma remove_first_last x l : x ∉ l -> remove_first x (l ++ [x]) = l.
Proof.
  induction l as [|y l IH]; simpl; intros Hx; [by rewrite decide_True|].
  rewrite decide_False by set_solver. rewrite IH; set_solver.
Qed.

Lemma remove_first_filter x l :
  NoDup l -> remove_first x l = filter (fun y => y <> x) l.
Proof.
  induction l as [|y l IH]; simpl; intros Hnd; [done|].
  apply NoDup_cons in Hnd as [Hy Hnd]. rewrite filter_cons.
  destruct (decide (x = y)) as [->|Hne].
  - rewrite decide_False by (intros ?; done).
    symmetry. rewrite <- IH by done. by apply remove_first_not_in.
  - rewrite decide_True by done. by rewrite IH.
Qed.
End RemoveFirst.

(** Filtering commutes with a map that respects the predicates. *)
Lemma filter_fmap_in {A B} (f : A -> B) (P : A -> Prop) (Q : B -> Prop)
    `{!forall x, Decision (P x), !forall y, Decision (Q y)} (l : list A) :
  (forall x, x ∈ l -> P x <-> Q (f x)) -> filter Q (f <$> l) = f <$> filter P l.
Proof.
  induction l as [|x l IH]; intros HPQ; [done|].
  rewrite fmap_cons, !filter_cons, IH by (intros; apply HPQ; by constructor).
  pose proof (HPQ x ltac:(by constructor)). destruct (decide (P x)), (decide (Q (f x))); tauto.
Qed.

Lemma filter_in_ext {A} (P Q : A -> Prop)
    `{!forall x, Decision (P x), !forall x, Decision (Q x)} (l : list A) :
  (forall x, x ∈ l -> P x <-> Q x) -> filter P l = filter Q l.
Proof.
  intros HPQ. rewrite <- (list_fmap_id l) at 1.
  rewrite (filter_fmap_in id Q P); [by rewrite list_fmap_id|].
  intros x Hx. symmetry. by apply HPQ.
Qed.

Lemma filter_all {A} (P : A -> Prop) `{!forall x, Decision (P x)} (l : list A) :
  (forall x, x ∈ l -> P x) -> filter P l = l.
Proof.
  induction l as [|x l IH]; intros HP; [done|].
  rewrite filter_cons_True by (apply HP; by constructor).
  by rewrite IH by (intros; apply HP; by constructor).
Qed.

#[export] Hint Resolve remove_first_NoDup remove_first_sublist : go.
