(* ===== verification/GoErrors.v ===== *)
(** * Error values

    Go's [error] interface as the project uses it: package-level sentinels
    (errors.New variables, compared by identity), the call-site wrapper of
    ctxerrors ([CTXError]), the standard library's errors.Join value,
    golang-migrate's [database.Error] (which has no Unwrap method) and its
    struct-valued errors, the two kinds of error encoding/json reports, and
    errors that come out of code outside this repository.  A nil error is
    [None].

    ctxerrors records file, line and function of the call site in a
    [CTXError]; they only appear in the text of [Error()] and are left out. *)

From stdpp Require Import base option list gmap strings pretty.
From Stdlib Require Import ZArith Lia.
From S2P Require Import Prelude.

Inductive error : Type :=
| Sentinel (name : string)
| CTXError (err : option error) (message : string)
| JoinError (errs : list error)
| DatabaseError (OrigErr : error) (Err Query : string)
| ErrDirty (Version : Z)
| ErrShortLimit (Short : Z)
| SyntaxError (msg : string)
| UnmarshalTypeError (Value : string)
| ForeignError (id : Z).

Abbreviation gores := (result error).

Module ctxerrors.

(** ctxerrors.New: an error with a message and nothing wrapped. *)
Definition New (message : string) : error := CTXError None message.

(** errors.Is against a sentinel: the chain of Unwrap is searched, through
    every branch of a joined error; [database.Error] does not unwrap. *)
Fixpoint Is (e : error) (target : string) : bool :=
  match e with
  | Sentinel n => bool_decide (n = target)
  | CTXError (Some e') _ => Is e' target
  | CTXError None _ => false
  | JoinError es => existsb (fun e' => Is e' target) es
  | DatabaseError _ _ _ => false
  | ErrDirty _ | ErrShortLimit _ => false
  | SyntaxError _ | UnmarshalTypeError _ | ForeignError _ => false
  end.

(** errors.Is on a possibly nil error. *)
Definition IsOpt (e : option error) (target : string) : bool :=
  match e with None => false | Some e' => Is e' target end.

(** translate: the global error map is searched for a key the error matches;
    the map is iterated in an order Go leaves open, here the list's. *)
Fixpoint translate (errorMap : list (string * error)) (err : error) : error :=
  match errorMap with
  | [] => err
  | (from, to) :: rest => if Is err from then to else translate rest err
  end.

(** wrap: nil stays nil (and is logged), anything else is translated and
    annotated. *)
Definition wrap (errorMap : list (string * error)) (err : option error) (message : string)
  : option error :=
  match err with
  | None => None
  | Some e => Some (CTXError (Some (translate errorMap e)) message)
  end.

(** The repository itself never registers a translation, so its own calls run
    with the initial, empty map. *)
Definition Wrap (err : option error) (message : string) : option error :=
  wrap [] err message.

(** Wrap of an error already known to be non-nil. *)
Definition WrapE (err : error) (message : string) : error :=
  CTXError (Some (translate [] err)) message.

Lemma Wrap_Some e msg : Wrap (Some e) msg = Some (WrapE e msg).
Proof. reflexivity. Qed.

Lemma Is_WrapE e msg t : Is (WrapE e msg) t = Is e t.
Proof. reflexivity. Qed.

Lemma IsOpt_Wrap e msg t : IsOpt (Wrap e msg) t = IsOpt e t.
Proof. by destruct e. Qed.

End ctxerrors.

(** fmt.Errorf with one %w verb: like a call-site wrapper, a message around an
    error that Unwrap gives back. *)
Definition fmt_Errorf_w (message : string) (err : error) : error := CTXError (Some err) message.

(** errors.Join drops nil errors and is nil when every error is nil. *)
Definition errors_Join (errs : list (option error)) : option error :=
  match omap id errs with
  | [] => None
  | es => Some (JoinError es)
  end.

Lemma Join_None errs : errors_Join errs = None <-> Forall (fun e => e = None) errs.
Proof.
  unfold errors_Join. induction errs as [|[e|] errs IH]; simpl.
  - done.
  - split; [done|]. intros H. by inversion H.
  - rewrite IH. rewrite Forall_cons. tauto.
Qed.

Lemma Join_Is errs t :
  ctxerrors.IsOpt (errors_Join errs) t = existsb (fun e => ctxerrors.IsOpt e t) errs.
Proof.
  assert (Hex : existsb (fun e => ctxerrors.IsOpt e t) errs
                = existsb (fun e => ctxerrors.Is e t) (omap id errs)).
  { induction errs as [|[e|] errs IH]; simpl; [done| |done]. by rewrite IH. }
  rewrite Hex. unfold errors_Join. by destruct (omap id errs).
Qed.

(** *** The global error map

    The keys are sentinels, compared by identity; nil keys and values are
    skipped. *)

Module errormap.

Abbreviation errorMap := (gmap string error).

(** SetErrorMap ranges over its argument, whose entries come as a list. *)
Definition SetErrorMap (m : list (option string * option error)) : errorMap :=
  foldl (fun acc '(from, to) =>
           match from, to with Some f, Some t => <[f := t]> acc | _, _ => acc end) ∅ m.

Definition MapError (from : option string) (to : option error) (m : errorMap) : errorMap :=
  match from, to with Some f, Some t => <[f := t]> m | _, _ => m end.

Definition ClearErrorMap : errorMap := ∅.

(** Wrapf: the text of fmt.Sprintf is the message. *)
Definition Wrapf (order : list (string * error)) (err : option error) (text : string)
  : option error := ctxerrors.wrap order err text.

(** Join: errors.Join with a call site; nil when every error is. *)
Definition Join (errs : list (option error)) : option error :=
  match errors_Join errs with
  | None => None
  | Some joined =>
    Some (CTXError (Some joined) (pretty (length (omap id errs)) +:+ " errors"))
  end.

(** Unwrap of a *CTXError, which may be nil; other values of the type have none. *)
Definition Unwrap (e : option error) : option error :=
  match e with Some (CTXError err _) => err | _ => None end.

Lemma SetErrorMap_lookup (m : list (option string * option error)) f t :
  NoDup m.*1 -> SetErrorMap m !! f = Some t <-> (Some f, Some t) ∈ m.
Proof.
  unfold SetErrorMap. induction m as [|[from to] m IH] using rev_ind; intros Hnd.
  { simpl. rewrite lookup_empty. split; [done|]. by intros ?%not_elem_of_nil. }
  rewrite foldl_app, elem_of_app, list_elem_of_singleton. simpl.
  rewrite fmap_app in Hnd. apply NoDup_app in Hnd as (Hnd & Hout & _). specialize (IH Hnd).
  destruct from as [f'|]; [|naive_solver]. destruct to as [t'|]; [|naive_solver].
  destruct (decide (f' = f)) as [->|Hne].
  - rewrite lookup_insert_eq. split; [intros [= ->]; by right|]. intros [Hin|[= ->]]; [|done].
    exfalso. eapply (Hout (Some f)); [|by left]. apply list_elem_of_fmap. by exists (Some f, Some t).
  - rewrite lookup_insert_ne by done. rewrite IH. naive_solver.
Qed.

Lemma translate_in order err :
  (exists f t, (f, t) ∈ order /\ ctxerrors.Is err f = true /\ ctxerrors.translate order err = t) \/
  ((forall f t, (f, t) ∈ order -> ctxerrors.Is err f = false) /\ ctxerrors.translate order err = err).
Proof.
  induction order as [|[f t] order IH]; simpl.
  - right. split; [|done]. by intros f t ?%not_elem_of_nil.
  - destruct (ctxerrors.Is err f) eqn:E.
    + left. exists f, t. split; [by left|done].
    + destruct IH as [(f' & t' & H1 & H2 & H3)|[H1 H2]].
      * left. exists f', t'. split; [by right|done].
      * right. split; [|done]. intros f' t' [Heq|Hin]%elem_of_cons; [by simplify_eq|eauto].
Qed.

(** The order in which Go ranges over the error map matters only to an error
    that matches several keys. *)
Lemma translate_order (m : errorMap) order1 order2 err :
  order1 ≡ₚ map_to_list m -> order2 ≡ₚ map_to_list m ->
  (forall f f', is_Some (m !! f) -> is_Some (m !! f') ->
     ctxerrors.Is err f = true -> ctxerrors.Is err f' = true -> f = f') ->
  ctxerrors.translate order1 err = ctxerrors.translate order2 err.
Proof.
  intros H1 H2 Huniq.
  assert (Hin : forall order f t, order ≡ₚ map_to_list m -> (f, t) ∈ order <-> m !! f = Some t).
  { intros order f t ->. apply elem_of_map_to_list. }
  destruct (translate_in order1 err) as [(f1 & t1 & I1 & Is1 & ->)|[N1 ->]],
    (translate_in order2 err) as [(f2 & t2 & I2 & Is2 & ->)|[N2 ->]]; [| | |done].
  - apply (Hin _ _ _ H1) in I1. apply (Hin _ _ _ H2) in I2.
    assert (f1 = f2) as -> by eauto. congruence.
  - apply (Hin _ _ _ H1), (Hin _ _ _ H2), N2 in I1. congruence.
  - apply (Hin _ _ _ H2), (Hin _ _ _ H1), N1 in I2. congruence.
Qed.

(** A wrapped error answers errors.Is as what it was translated to; Join as any
    of its errors. *)
Lemma Join_IsOpt errs t :
  ctxerrors.IsOpt (Join errs) t = existsb (fun e => ctxerrors.IsOpt e t) errs.
Proof. rewrite <- Join_Is. unfold Join. by destruct (errors_Join errs). Qed.

Lemma Unwrap_Wrapf order err text :
  Unwrap (Wrapf order err text) = ctxerrors.translate order <$> err.
Proof. by destruct err. Qed.

End errormap.

#[export] Hint Rewrite ctxerrors.Is_WrapE ctxerrors.IsOpt_Wrap Join_Is : io.
