(* ===== verification/Utf8.v ===== *)
(** * Go strings as byte sequences: unicode/utf8, unicode and strings.TrimSpace

    The part of Go's standard library that db/gorm_slog_logger.go and
    db/mysql/config.go rely on: rune decoding and encoding, validity, the
    character classes White_Space and Nd (Unicode 15.0, the tables of the Go
    release in go.mod), and TrimSpace.  A Go string is a list of bytes. *)

From stdpp Require Import countable base option list.
From Stdlib Require Import ZArith Lia.
From Stdlib.Strings Require Byte.
From Stdlib Require String.
Export Stdlib.Strings.String.StringSyntax.
From S2P Require Import Prelude.

Open Scope Z_scope.

Abbreviation bytes := (list Byte.byte).

(** A string literal of the source. *)
Definition lit (s : String.string) : bytes := String.list_byte_of_string s.
Arguments lit s%_string_scope.

#[export] Instance byte_eq_dec : EqDecision Byte.byte := Byte.byte_eq_dec.

#[export] Program Instance byte_countable : Countable Byte.byte :=
  inj_countable Byte.to_N Byte.of_N _.
Next Obligation. intros b. apply Byte.of_to_N. Qed.

(** ** Bytes and their values *)

Definition bz (b : Byte.byte) : Z := Z.of_N (Byte.to_N b).

(** A conversion byte(z): the low eight bits. *)
Definition zb (z : Z) : Byte.byte := default Byte.x00 (Byte.of_N (Z.to_N (z `mod` 256))).

Lemma bz_range b : 0 <= bz b < 256.
Proof. unfold bz. pose proof (Byte.to_N_bounded b). lia. Qed.

Lemma bz_zb z : 0 <= z < 256 -> bz (zb z) = z.
Proof.
  intros Hz. unfold bz, zb. rewrite Z.mod_small by lia.
  destruct (Byte.of_N (Z.to_N z)) as [b|] eqn:E; simpl.
  - apply Byte.to_of_N in E. rewrite E. lia.
  - apply Byte.of_N_None_iff in E. lia.
Qed.

Lemma bz_inj b b' : bz b = bz b' -> b = b'.
Proof.
  unfold bz. intros H. apply N2Z.inj in H.
  pose proof (Byte.of_to_N b) as E. rewrite H, Byte.of_to_N in E. congruence.
Qed.

Lemma zb_bz b : zb (bz b) = b.
Proof. apply bz_inj, bz_zb, bz_range. Qed.

(** ** Runes *)

Definition RuneError : Z := 0xFFFD.
Definition RuneSelf : Z := 0x80.

(** The code points UTF-8 can carry. *)
Definition scalar (r : Z) : Prop := 0 <= r < 0xD800 \/ 0xE000 <= r <= 0x10FFFF.

(** The table first[] for a non-ASCII leading byte: the length of the sequence
    and the range of its second byte; [None] is an illegal leading byte. *)
Definition first (b0 : Z) : option (nat * Z * Z) :=
  if b0 <? 0xC2 then None
  else if b0 <=? 0xDF then Some (2%nat, 0x80, 0xBF)
  else if b0 =? 0xE0 then Some (3%nat, 0xA0, 0xBF)
  else if b0 =? 0xED then Some (3%nat, 0x80, 0x9F)
  else if b0 <=? 0xEF then Some (3%nat, 0x80, 0xBF)
  else if b0 =? 0xF0 then Some (4%nat, 0x90, 0xBF)
  else if b0 <=? 0xF3 then Some (4%nat, 0x80, 0xBF)
  else if b0 =? 0xF4 then Some (4%nat, 0x80, 0x8F)
  else None.

Definition within (lo hi z : Z) : bool := (lo <=? z) && (z <=? hi).

(** A continuation byte. *)
Definition cont (b : Byte.byte) : bool := within 0x80 0xBF (bz b).

(** utf8.DecodeRuneInString. *)
Definition decode (s : bytes) : Z * nat :=
  match s with
  | [] => (RuneError, 0%nat)
  | b0 :: t =>
    if bz b0 <? RuneSelf then (bz b0, 1%nat)
    else
      match first (bz b0), t with
      | Some (2%nat, lo, hi), b1 :: _ =>
        if within lo hi (bz b1)
        then (Z.lor (Z.shiftl (Z.land (bz b0) 0x1F) 6) (Z.land (bz b1) 0x3F), 2%nat)
        else (RuneError, 1%nat)
      | Some (3%nat, lo, hi), b1 :: b2 :: _ =>
        if within lo hi (bz b1) && cont b2
        then (Z.lor (Z.shiftl (Z.land (bz b0) 0x0F) 12)
                    (Z.lor (Z.shiftl (Z.land (bz b1) 0x3F) 6) (Z.land (bz b2) 0x3F)), 3%nat)
        else (RuneError, 1%nat)
      | Some (4%nat, lo, hi), b1 :: b2 :: b3 :: _ =>
        if within lo hi (bz b1) && cont b2 && cont b3
        then (Z.lor (Z.shiftl (Z.land (bz b0) 0x07) 18)
                    (Z.lor (Z.shiftl (Z.land (bz b1) 0x3F) 12)
                           (Z.lor (Z.shiftl (Z.land (bz b2) 0x3F) 6) (Z.land (bz b3) 0x3F))), 4%nat)
        else (RuneError, 1%nat)
      | _, _ => (RuneError, 1%nat)
      end
  end.

(** utf8.AppendRune to the empty string, as strings.Builder.WriteRune writes it. *)
Definition encode (r : Z) : bytes :=
  let r := if within 0xD800 0xDFFF r || (r <? 0) || (0x10FFFF <? r) then RuneError else r in
  if r <=? 0x7F then [zb r]
  else if r <=? 0x7FF then
    [zb (Z.lor 0xC0 (Z.shiftr r 6)); zb (Z.lor 0x80 (Z.land r 0x3F))]
  else if r <=? 0xFFFF then
    [zb (Z.lor 0xE0 (Z.shiftr r 12)); zb (Z.lor 0x80 (Z.land (Z.shiftr r 6) 0x3F));
     zb (Z.lor 0x80 (Z.land r 0x3F))]
  else
    [zb (Z.lor 0xF0 (Z.shiftr r 18)); zb (Z.lor 0x80 (Z.land (Z.shiftr r 12) 0x3F));
     zb (Z.lor 0x80 (Z.land (Z.shiftr r 6) 0x3F)); zb (Z.lor 0x80 (Z.land r 0x3F))].

(** utf8.ValidString: no decoding step reports an invalid byte.  The fuel is
    the length, each step consumes at least one byte. *)
Fixpoint valid_loop (fuel : nat) (s : bytes) : bool :=
  match fuel, s with
  | _, [] => true
  | O, _ => false
  | S fuel', _ =>
    let '(r, size) := decode s in
    if (r =? RuneError) && (size =? 1)%nat then false else valid_loop fuel' (drop size s)
  end.
Definition valid (s : bytes) : bool := valid_loop (length s) s.

(** utf8.DecodeLastRuneInString. *)
Definition rune_start (b : Byte.byte) : bool := negb (Z.land (bz b) 0xC0 =? 0x80).

Fixpoint back_to_start (fuel : nat) (s : bytes) (start : nat) : nat :=
  match fuel with
  | O => start
  | S fuel' =>
    match s !! start with
    | Some b => if rune_start b then start
                else match start with O => O | S start' => back_to_start fuel' s start' end
    | None => start
    end
  end.

Definition decode_last (s : bytes) : Z * nat :=
  match last s with
  | None => (RuneError, 0%nat)
  | Some b =>
    if bz b <? RuneSelf then (bz b, 1%nat)
    else
      let n := length s in
      let start := match n with
                   | O | S O => O
                   | S (S k) => back_to_start (min 3 (S k)) s k
                   end in
      let '(r, size) := decode (drop start s) in
      if (start + size =? n)%nat then (r, size) else (RuneError, 1%nat)
  end.

(** ** Character classes *)

(** unicode.IsSpace. *)
Definition IsSpace (r : Z) : bool :=
  within 0x09 0x0D r || (r =? 0x20) || (r =? 0x85) || (r =? 0xA0) || (r =? 0x1680)
  || within 0x2000 0x200A r || within 0x2028 0x2029 r || (r =? 0x202F) || (r =? 0x205F)
  || (r =? 0x3000).

(** The first code points of the runs of ten decimal digits of category Nd;
    0x1D7CE starts five runs (the mathematical digits). *)
Definition digit_runs : list Z :=
  [0x30; 0x660; 0x6F0; 0x7C0; 0x966; 0x9E6; 0xA66; 0xAE6; 0xB66; 0xBE6; 0xC66; 0xCE6; 0xD66;
   0xDE6; 0xE50; 0xED0; 0xF20; 0x1040; 0x1090; 0x17E0; 0x1810; 0x1946; 0x19D0; 0x1A80; 0x1A90;
   0x1B50; 0x1BB0; 0x1C40; 0x1C50; 0xA620; 0xA8D0; 0xA900; 0xA9D0; 0xA9F0; 0xAA50; 0xABF0;
   0xFF10; 0x104A0; 0x10D30; 0x11066; 0x110F0; 0x11136; 0x111D0; 0x112F0; 0x11450; 0x114D0;
   0x11650; 0x116C0; 0x11730; 0x118E0; 0x11950; 0x11C50; 0x11D50; 0x11DA0; 0x11F50; 0x16A60;
   0x16AC0; 0x16B50; 0x1D7CE; 0x1D7D8; 0x1D7E2; 0x1D7EC; 0x1D7F6; 0x1E140; 0x1E2F0; 0x1E4F0;
   0x1E950; 0x1FBF0].

(** unicode.IsDigit. *)
Definition IsDigit (r : Z) : bool := existsb (fun lo => within lo (lo + 9) r) digit_runs.

(** ** strings.TrimSpace *)

Fixpoint trim_left (fuel : nat) (s : bytes) : bytes :=
  match fuel, s with
  | O, _ | _, [] => s
  | S fuel', _ =>
    let '(r, size) := decode s in
    if IsSpace r then trim_left fuel' (drop size s) else s
  end.

(** TrimRightFunc: the last rune that is not a space ends the result. *)
Fixpoint trim_right (fuel : nat) (s : bytes) : bytes :=
  match fuel, s with
  | O, _ | _, [] => s
  | S fuel', _ =>
    let '(r, size) := decode_last s in
    let i := (length s - size)%nat in
    if IsSpace r then trim_right fuel' (take i s)
    else take (i + (decode (drop i s)).2) s
  end.

Definition TrimSpace (s : bytes) : bytes :=
  let s' := trim_left (length s) s in trim_right (length s') s'.

(** ** Bit arithmetic *)

Lemma testbit_small b n i : 0 <= b < 2 ^ n -> 0 <= n <= i -> Z.testbit b i = false.
Proof.
  intros Hb Hi. rewrite Z.testbit_eqb by lia. rewrite Z.div_small; [done|].
  split; [lia|]. eapply Z.lt_le_trans; [apply Hb|]. apply Z.pow_le_mono_r; lia.
Qed.

Lemma land_shiftl_small a b n : 0 <= n -> 0 <= b < 2 ^ n -> Z.land (a * 2 ^ n) b = 0.
Proof.
  intros Hn Hb. apply Z.bits_inj'. intros i Hi. rewrite Z.land_spec, Z.bits_0.
  destruct (Z.lt_ge_cases i n).
  - by rewrite Z.mul_pow2_bits_low by lia.
  - rewrite (testbit_small b n i) by lia. apply andb_false_r.
Qed.

Lemma lor_shiftl_add a b n : 0 <= n -> 0 <= b < 2 ^ n -> Z.lor (Z.shiftl a n) b = a * 2 ^ n + b.
Proof.
  intros Hn Hb. rewrite Z.shiftl_mul_pow2 by done.
  pose proof (land_shiftl_small a b n Hn Hb) as Hl.
  rewrite <- Z.lxor_lor by done. by rewrite <- Z.add_nocarry_lxor.
Qed.

Lemma land_63 x : Z.land x 0x3F = x `mod` 64.
Proof. apply (Z.land_ones x 6). lia. Qed.
Lemma land_31 x : Z.land x 0x1F = x `mod` 32.
Proof. apply (Z.land_ones x 5). lia. Qed.
Lemma land_15 x : Z.land x 0x0F = x `mod` 16.
Proof. apply (Z.land_ones x 4). lia. Qed.
Lemma land_7 x : Z.land x 0x07 = x `mod` 8.
Proof. apply (Z.land_ones x 3). lia. Qed.

Lemma shiftr_64 x : Z.shiftr x 6 = x `div` 64.
Proof. apply (Z.shiftr_div_pow2 x 6). lia. Qed.
Lemma shiftr_4096 x : Z.shiftr x 12 = x `div` 4096.
Proof. apply (Z.shiftr_div_pow2 x 12). lia. Qed.
Lemma shiftr_262144 x : Z.shiftr x 18 = x `div` 262144.
Proof. apply (Z.shiftr_div_pow2 x 18). lia. Qed.

Lemma lor_80 x : 0 <= x < 64 -> Z.lor 0x80 x = 0x80 + x.
Proof. intros H. apply (lor_shiftl_add 2 x 6); lia. Qed.
Lemma lor_C0 x : 0 <= x < 32 -> Z.lor 0xC0 x = 0xC0 + x.
Proof. intros H. apply (lor_shiftl_add 6 x 5); lia. Qed.
Lemma lor_E0 x : 0 <= x < 16 -> Z.lor 0xE0 x = 0xE0 + x.
Proof. intros H. apply (lor_shiftl_add 14 x 4); lia. Qed.
Lemma lor_F0 x : 0 <= x < 8 -> Z.lor 0xF0 x = 0xF0 + x.
Proof. intros H. apply (lor_shiftl_add 30 x 3); lia. Qed.

Create Rewrite HintDb bits.
#[export] Hint Rewrite land_63 land_31 land_15 land_7 shiftr_64 shiftr_4096 shiftr_262144 : bits.
#[export] Hint Rewrite lor_80 lor_C0 lor_E0 lor_F0 using dlia : bits.

(** The payload bits of two, three and four bytes put together. *)
Lemma lor_6 a b : 0 <= b < 64 -> Z.lor (Z.shiftl a 6) b = a * 64 + b.
Proof. intros H. apply (lor_shiftl_add a b 6); lia. Qed.
Lemma lor_12 a b c : 0 <= b < 64 -> 0 <= c < 64 ->
  Z.lor (Z.shiftl a 12) (Z.lor (Z.shiftl b 6) c) = a * 4096 + b * 64 + c.
Proof. intros Hb Hc. rewrite lor_6 by done. rewrite (lor_shiftl_add a _ 12); lia. Qed.
Lemma lor_18 a b c d : 0 <= b < 64 -> 0 <= c < 64 -> 0 <= d < 64 ->
  Z.lor (Z.shiftl a 18) (Z.lor (Z.shiftl b 12) (Z.lor (Z.shiftl c 6) d))
  = a * 262144 + b * 4096 + c * 64 + d.
Proof. intros Hb Hc Hd. rewrite lor_12 by done. rewrite (lor_shiftl_add a _ 18); lia. Qed.

Lemma within_true lo hi z : within lo hi z = true <-> lo <= z <= hi.
Proof. unfold within. rewrite andb_true_iff, !Z.leb_le. done. Qed.

(** ** The arithmetic of decoding

    What a decoding step found, with the bytes it consumed. *)

Inductive decoded : bytes -> Z -> nat -> Prop :=
| decoded_empty : decoded [] RuneError 0
| decoded_ascii b t : bz b < 0x80 -> decoded (b :: t) (bz b) 1
| decoded_bad b t : 0x80 <= bz b -> decoded (b :: t) RuneError 1
| decoded_2 b0 b1 t r :
    0xC2 <= bz b0 <= 0xDF -> 0x80 <= bz b1 <= 0xBF ->
    r = (bz b0 - 0xC0) * 64 + (bz b1 - 0x80) ->
    decoded (b0 :: b1 :: t) r 2
| decoded_3 b0 b1 b2 t r :
    0xE0 <= bz b0 <= 0xEF -> 0x80 <= bz b1 <= 0xBF -> 0x80 <= bz b2 <= 0xBF ->
    r = (bz b0 - 0xE0) * 4096 + (bz b1 - 0x80) * 64 + (bz b2 - 0x80) ->
    0x800 <= r -> scalar r ->
    decoded (b0 :: b1 :: b2 :: t) r 3
| decoded_4 b0 b1 b2 b3 t r :
    0xF0 <= bz b0 <= 0xF4 -> 0x80 <= bz b1 <= 0xBF ->
    0x80 <= bz b2 <= 0xBF -> 0x80 <= bz b3 <= 0xBF ->
    r = (bz b0 - 0xF0) * 262144 + (bz b1 - 0x80) * 4096 + (bz b2 - 0x80) * 64 + (bz b3 - 0x80) ->
    0x10000 <= r <= 0x10FFFF ->
    decoded (b0 :: b1 :: b2 :: b3 :: t) r 4.

Lemma first_Some b0 n lo hi :
  first b0 = Some (n, lo, hi) ->
  (n = 2%nat /\ 0xC2 <= b0 <= 0xDF /\ lo = 0x80 /\ hi = 0xBF) \/
  (n = 3%nat /\ 0xE0 <= b0 <= 0xEF /\ 0x80 <= lo /\ hi <= 0xBF /\
     (b0 = 0xE0 -> lo = 0xA0) /\ (b0 = 0xED -> hi = 0x9F)) \/
  (n = 4%nat /\ 0xF0 <= b0 <= 0xF4 /\ 0x80 <= lo /\ hi <= 0xBF /\
     (b0 = 0xF0 -> lo = 0x90) /\ (b0 = 0xF4 -> hi = 0x8F)).
Proof.
  unfold first. intros H.
  repeat match type of H with
         | (if ?c then _ else _) = _ => destruct c eqn:?
         end; simplify_eq; lia.
Qed.

Lemma decode_decoded s : decoded s (decode s).1 (decode s).2.
Proof.
  destruct s as [|b0 t]; [constructor|]. simpl. unfold RuneSelf.
  pose proof (bz_range b0).
  destruct (Z.ltb_spec (bz b0) 0x80); [by constructor|].
  destruct (first (bz b0)) as [[[n lo] hi]|] eqn:Hf; [|by constructor].
  apply first_Some in Hf as [(-> & Hb0 & -> & ->)|[(-> & Hb0 & Hlo & Hhi & HE & HD)|(-> & Hb0 & Hlo & Hhi & HE & HD)]].
  - destruct t as [|b1 t]; [by constructor|].
    destruct (within _ _ (bz b1)) eqn:Hw; [|by constructor]. apply within_true in Hw.
    simpl. autorewrite with bits. rewrite lor_6 by dlia. constructor; dlia.
  - destruct t as [|b1 [|b2 t]]; [by constructor..|].
    destruct (within lo hi (bz b1) && cont b2) eqn:Hw; [|by constructor].
    apply andb_true_iff in Hw as [H1%within_true H2%within_true]. simpl.
    autorewrite with bits. rewrite lor_12 by dlia. constructor; unfold scalar; dlia.
  - destruct t as [|b1 [|b2 [|b3 t]]]; [by constructor..|].
    destruct (within lo hi (bz b1) && cont b2 && cont b3) eqn:Hw; [|by constructor].
    apply andb_true_iff in Hw as [[H1%within_true H2%within_true]%andb_true_iff H3%within_true].
    simpl. autorewrite with bits. rewrite lor_18 by dlia. constructor; dlia.
Qed.

Lemma decode_2 b0 b1 t r :
  0xC2 <= bz b0 <= 0xDF -> 0x80 <= bz b1 <= 0xBF ->
  r = (bz b0 - 0xC0) * 64 + (bz b1 - 0x80) -> decode (b0 :: b1 :: t) = (r, 2%nat).
Proof.
  intros H0 H1 ->. simpl. unfold first, RuneSelf.
  repeat match goal with
         | |- context [if ?c then _ else _] => destruct c eqn:?; try (exfalso; lia)
         end.
  - f_equal. autorewrite with bits. rewrite lor_6 by dlia. dlia.
  - exfalso. unfold within in *. lia.
Qed.

Lemma decode_3 b0 b1 b2 t r :
  0xE0 <= bz b0 <= 0xEF -> 0x80 <= bz b1 <= 0xBF -> 0x80 <= bz b2 <= 0xBF ->
  r = (bz b0 - 0xE0) * 4096 + (bz b1 - 0x80) * 64 + (bz b2 - 0x80) ->
  0x800 <= r -> scalar r ->
  decode (b0 :: b1 :: b2 :: t) = (r, 3%nat).
Proof.
  intros H0 H1 H2 Hr Hlo Hs. unfold scalar in Hs. simpl. unfold first, RuneSelf, cont, within.
  repeat match goal with
         | |- context [if ?c then _ else _] => destruct c eqn:?; try (exfalso; lia)
         end; (f_equal; autorewrite with bits; rewrite lor_12 by dlia; dlia).
Qed.

Lemma decode_4 b0 b1 b2 b3 t r :
  0xF0 <= bz b0 <= 0xF4 -> 0x80 <= bz b1 <= 0xBF ->
  0x80 <= bz b2 <= 0xBF -> 0x80 <= bz b3 <= 0xBF ->
  r = (bz b0 - 0xF0) * 262144 + (bz b1 - 0x80) * 4096 + (bz b2 - 0x80) * 64 + (bz b3 - 0x80) ->
  0x10000 <= r <= 0x10FFFF ->
  decode (b0 :: b1 :: b2 :: b3 :: t) = (r, 4%nat).
Proof.
  intros H0 H1 H2 H3 Hr Hlo. simpl. unfold first, RuneSelf, cont, within.
  repeat match goal with
         | |- context [if ?c then _ else _] => destruct c eqn:?; try (exfalso; lia)
         end; (f_equal; autorewrite with bits; rewrite lor_18 by dlia; dlia).
Qed.

(** ** Encoding *)

Inductive encoded : Z -> bytes -> Prop :=
| encoded_1 b : bz b < 0x80 -> encoded (bz b) [b]
| encoded_2 b0 b1 r :
    0xC2 <= bz b0 <= 0xDF -> 0x80 <= bz b1 <= 0xBF ->
    r = (bz b0 - 0xC0) * 64 + (bz b1 - 0x80) -> encoded r [b0; b1]
| encoded_3 b0 b1 b2 r :
    0xE0 <= bz b0 <= 0xEF -> 0x80 <= bz b1 <= 0xBF -> 0x80 <= bz b2 <= 0xBF ->
    r = (bz b0 - 0xE0) * 4096 + (bz b1 - 0x80) * 64 + (bz b2 - 0x80) ->
    0x800 <= r -> scalar r -> encoded r [b0; b1; b2]
| encoded_4 b0 b1 b2 b3 r :
    0xF0 <= bz b0 <= 0xF4 -> 0x80 <= bz b1 <= 0xBF ->
    0x80 <= bz b2 <= 0xBF -> 0x80 <= bz b3 <= 0xBF ->
    r = (bz b0 - 0xF0) * 262144 + (bz b1 - 0x80) * 4096 + (bz b2 - 0x80) * 64 + (bz b3 - 0x80) ->
    0x10000 <= r <= 0x10FFFF -> encoded r [b0; b1; b2; b3].

Lemma encode_encoded r : scalar r -> encoded r (encode r).
Proof.
  intros Hs. unfold encode, within.
  destruct (_ || _ || _) eqn:E; [unfold scalar in Hs; lia|]. clear E.
  destruct (Z.leb_spec r 0x7F).
  - rewrite <- (bz_zb r) at 1 by (unfold scalar in Hs; lia). constructor.
    rewrite bz_zb; unfold scalar in Hs; lia.
  - destruct (Z.leb_spec r 0x7FF); [|destruct (Z.leb_spec r 0xFFFF)]; autorewrite with bits.
    + constructor; rewrite ?bz_zb by dlia; dlia.
    + constructor; rewrite ?bz_zb by dlia; try dlia. done.
    + unfold scalar in Hs. rewrite ?lor_F0 by dlia.
      constructor; rewrite ?bz_zb by dlia; dlia.
Qed.

Lemma decode_encoded r e s : encoded r e -> decode (e ++ s) = (r, length e).
Proof.
  intros H. inv H; simpl app; simpl length.
  - simpl. unfold RuneSelf. by rewrite (proj2 (Z.ltb_lt _ _)) by done.
  - by apply decode_2.
  - by apply decode_3.
  - by apply decode_4.
Qed.

(** Decoding reads back what encoding wrote. *)
Lemma decode_encode r s : scalar r -> decode (encode r ++ s) = (r, length (encode r)).
Proof. intros H. by apply decode_encoded, encode_encoded. Qed.

Lemma encoded_scalar r e : encoded r e -> scalar r.
Proof.
  intros H. unfold scalar. inv H; try (pose proof (bz_range b)); try unfold scalar in *; lia.
Qed.

Lemma encoded_length r e : encoded r e -> (1 <= length e <= 4)%nat.
Proof. intros H. inv H; simpl; lia. Qed.

Lemma encoded_inj r e e' : encoded r e -> encoded r e' -> e = e'.
Proof.
  intros H H'.
  inversion H; subst; inversion H'; subst; unfold scalar in *;
    repeat match goal with b : Byte.byte |- _ => pose proof (bz_range b); revert b end; intros;
    try (exfalso; lia); repeat f_equal; apply bz_inj; lia.
Qed.

Lemma encode_of_encoded r e : encoded r e -> encode r = e.
Proof. intros H. eapply encoded_inj; [|exact H]. by apply encode_encoded, (encoded_scalar _ e). Qed.

(** ** What a decoding step consumes *)

Lemma decode_scalar s : scalar (decode s).1.
Proof.
  destruct (decode_decoded s); unfold scalar, RuneError in *; try lia.
  pose proof (bz_range b). lia.
Qed.

Lemma decode_size s : s <> [] -> (1 <= (decode s).2 <= 4)%nat /\ ((decode s).2 <= length s)%nat.
Proof. destruct (decode_decoded s); simpl; [done|lia..]. Qed.

(** A step that did not fail consumed the encoding of its rune. *)
Lemma decode_take s :
  s <> [] -> (decode s).2 <> 1%nat \/ (decode s).1 <> RuneError ->
  take (decode s).2 s = encode (decode s).1.
Proof.
  intros Hs H. destruct (decode_decoded s); simpl in *; try done.
  - symmetry. apply encode_of_encoded. by constructor.
  - naive_solver.
  - symmetry. apply encode_of_encoded. by constructor.
  - symmetry. apply encode_of_encoded. by constructor.
  - symmetry. apply encode_of_encoded. by constructor.
Qed.

(** Bytes after the first are never ASCII. *)
Lemma decode_tail_high s i b :
  (1 <= i < (decode s).2)%nat -> s !! i = Some b -> 0x80 <= bz b.
Proof.
  destruct (decode_decoded s); intros Hi Hb; try lia;
    (destruct i as [|[|[|[|i]]]]; simpl in *; try lia; simplify_eq; lia).
Qed.

Lemma decode_ascii b t : bz b < 0x80 -> decode (b :: t) = (bz b, 1%nat).
Proof. intros H. simpl. unfold RuneSelf. by rewrite (proj2 (Z.ltb_lt _ _)). Qed.

(** Only a leading byte below 0x80 decodes to a rune below 0x80. *)
Lemma decode_low s : (decode s).1 < 0x80 -> exists b t, s = b :: t /\ bz b = (decode s).1.
Proof.
  destruct (decode_decoded s); unfold RuneError; intros; try (exfalso; lia); eauto.
Qed.

(** ** Valid strings are the encodings of rune sequences *)

Definition encode_all (rs : list Z) : bytes := concat (encode <$> rs).

Lemma encode_all_nil : encode_all [] = [].
Proof. reflexivity. Qed.
Lemma encode_all_cons r rs : encode_all (r :: rs) = encode r ++ encode_all rs.
Proof. reflexivity. Qed.
Lemma encode_all_app rs1 rs2 : encode_all (rs1 ++ rs2) = encode_all rs1 ++ encode_all rs2.
Proof. unfold encode_all. by rewrite fmap_app, concat_app. Qed.

Lemma encode_length r : scalar r -> (1 <= length (encode r) <= 4)%nat.
Proof. intros H. by eapply encoded_length, encode_encoded. Qed.

Lemma encode_nonempty r s : scalar r -> encode r ++ s <> [].
Proof.
  intros H Hn. apply app_eq_nil in Hn as [Hn _]. pose proof (encode_length r H).
  rewrite Hn in *. simpl in *. lia.
Qed.

Lemma valid_loop_S fuel s : s <> [] ->
  valid_loop (S fuel) s =
  if ((decode s).1 =? RuneError) && ((decode s).2 =? 1)%nat then false
  else valid_loop fuel (drop (decode s).2 s).
Proof. intros Hs. destruct s as [|b t]; [done|]. cbn -[decode drop]. by destruct (decode (b :: t)). Qed.

Lemma valid_loop_sound fuel : forall s,
  valid_loop fuel s = true -> exists rs, Forall scalar rs /\ s = encode_all rs.
Proof.
  induction fuel as [|fuel IH]; intros s H.
  - destruct s; [by exists []|done].
  - destruct (decide (s = [])) as [->|Hs]; [by exists []|]. rewrite valid_loop_S in H by done.
    destruct (_ && _) eqn:E; [done|]. destruct (IH _ H) as (rs & Hrs & Hd).
    exists ((decode s).1 :: rs). split; [constructor; [apply decode_scalar|done]|].
    rewrite encode_all_cons, <- decode_take, <- Hd; [by rewrite take_drop|done|].
    apply andb_false_iff in E as [E%Z.eqb_neq|E%Nat.eqb_neq]; auto.
Qed.

Lemma valid_loop_complete rs : forall fuel,
  Forall scalar rs -> (length rs <= fuel)%nat -> valid_loop fuel (encode_all rs) = true.
Proof.
  induction rs as [|r rs IH]; intros [|fuel] Hrs Hf; simpl in Hf; try done; [lia|].
  apply Forall_cons in Hrs as [Hr Hrs].
  rewrite encode_all_cons, valid_loop_S, decode_encode by (done || by apply encode_nonempty). simpl.
  rewrite drop_app_length, IH by (done || lia).
  destruct (Z.eqb_spec r RuneError) as [->|]; reflexivity.
Qed.

Lemma encode_all_length rs : Forall scalar rs -> (length rs <= length (encode_all rs))%nat.
Proof.
  induction 1 as [|r rs Hr _ IH]; [done|]. rewrite encode_all_cons, length_app. simpl.
  pose proof (encode_length r Hr). lia.
Qed.

(** utf8.ValidString accepts exactly the encodings of scalar values. *)
Lemma valid_iff s : valid s = true <-> exists rs, Forall scalar rs /\ s = encode_all rs.
Proof.
  split; [apply valid_loop_sound|]. intros (rs & Hrs & ->).
  apply valid_loop_complete; [done|]. by apply encode_all_length.
Qed.

(** Encodings are read back uniquely: a valid prefix of an encoding is the
    encoding of a prefix. *)
Lemma encode_all_prefix rs : forall rs' s,
  Forall scalar rs -> Forall scalar rs' -> encode_all rs = encode_all rs' ++ s ->
  exists rs2, rs = rs' ++ rs2.
Proof.
  intros rs' s Hrs Hrs'. revert rs Hrs.
  induction Hrs' as [|r rs' Hr _ IH]; intros rs Hrs Heq; [by exists rs|].
  rewrite encode_all_cons, <- app_assoc in Heq.
  destruct Hrs as [|r0 rs Hr0 Hrs].
  - by apply eq_sym, encode_nonempty in Heq.
  - rewrite encode_all_cons in Heq.
    pose proof (decode_encode r0 (encode_all rs) Hr0) as D. rewrite Heq, decode_encode in D by done.
    injection D as -> _. apply app_inv_head in Heq.
    destruct (IH rs Hrs Heq) as [rs2 ->]. by exists rs2.
Qed.

(** ** The last rune *)

Lemma rune_start_cont b : rune_start b = negb (within 0x80 0xBF (bz b)).
Proof. destruct b; reflexivity. Qed.

Lemma rune_start_true b : 0xC2 <= bz b -> rune_start b = true.
Proof. intros H. rewrite rune_start_cont. unfold within. lia. Qed.

Lemma rune_start_false b : 0x80 <= bz b <= 0xBF -> rune_start b = false.
Proof. intros H. rewrite rune_start_cont. unfold within. lia. Qed.

Lemma decode_last_encoded r e s : encoded r e -> decode_last (s ++ e) = (r, length e).
Proof.
  intros He.
  assert (Hfin : forall b start, last (s ++ e) = Some b -> 0x80 <= bz b ->
    start = length s ->
    (let '(r', size) := decode (drop start (s ++ e)) in
     if (start + size =? length (s ++ e))%nat then (r', size) else (RuneError, 1%nat))
    = (r, length e)).
  { intros b start _ _ ->. rewrite drop_app_length.
    pose proof (decode_encoded r e [] He) as D. rewrite app_nil_r in D. rewrite D, length_app.
    by rewrite Nat.eqb_refl. }
  unfold decode_last, RuneSelf. destruct (last (s ++ e)) as [b|] eqn:Hl.
  2: { apply last_None, app_nil in Hl as [_ ->]. inv He. }
  destruct (Z.ltb_spec (bz b) 0x80).
  - inv He; rewrite last_app in Hl; simpl in *; simplify_eq; done || lia.
  - apply (Hfin b); [done..|]. rewrite length_app.
    inv He; rewrite last_app in Hl; simpl in Hl; simplify_eq; [lia|..]; simpl length.
    + replace (length s + 2)%nat with (S (S (length s))) by lia.
      replace (Nat.min 3 (S (length s))) with (S (Nat.min 2 (length s))) by lia. simpl.
      rewrite lookup_app_r, Nat.sub_diag by lia. simpl. by rewrite rune_start_true by lia.
    + replace (length s + 3)%nat with (S (S (S (length s)))) by lia.
      replace (Nat.min 3 (S (S (length s)))) with (S (S (Nat.min 1 (length s)))) by lia. simpl.
      rewrite (lookup_app_r s), Nat.sub_succ_l, Nat.sub_diag by lia. simpl.
      rewrite rune_start_false by lia.
      rewrite lookup_app_r, Nat.sub_diag by lia. simpl. by rewrite rune_start_true by lia.
    + replace (length s + 4)%nat with (S (S (S (S (length s))))) by lia. simpl.
      rewrite (lookup_app_r s _ (S (S _))) by lia.
      replace (S (S (length s)) - length s)%nat with 2%nat by lia. simpl.
      rewrite rune_start_false by lia.
      rewrite (lookup_app_r s _ (S _)) by lia.
      replace (S (length s) - length s)%nat with 1%nat by lia. simpl.
      rewrite rune_start_false by lia.
      rewrite lookup_app_r, Nat.sub_diag by lia. simpl. by rewrite rune_start_true by lia.
Qed.

Lemma encode_decode_last r s : scalar r -> decode_last (s ++ encode r) = (r, length (encode r)).
Proof. intros H. by apply decode_last_encoded, encode_encoded. Qed.

(** ** TrimSpace of a valid string *)

Lemma trim_left_S fuel s : s <> [] ->
  trim_left (S fuel) s = if IsSpace (decode s).1 then trim_left fuel (drop (decode s).2 s) else s.
Proof. intros Hs. destruct s as [|b t]; [done|]. cbn -[decode drop]. by destruct (decode (b :: t)). Qed.

Lemma trim_right_S fuel s : s <> [] ->
  trim_right (S fuel) s =
  let i := (length s - (decode_last s).2)%nat in
  if IsSpace (decode_last s).1 then trim_right fuel (take i s)
  else take (i + (decode (drop i s)).2) s.
Proof.
  intros Hs. destruct s as [|b t]; [done|]. cbn -[decode decode_last drop take].
  by destruct (decode_last (b :: t)).
Qed.

Lemma trim_left_runes rs : forall fuel,
  Forall scalar rs ->
  exists rs1 rs2, rs = rs1 ++ rs2 /\ trim_left fuel (encode_all rs) = encode_all rs2 /\
    Forall (fun r => IsSpace r = true) rs1 /\
    ((length rs <= fuel)%nat -> forall r, head rs2 = Some r -> IsSpace r = false).
Proof.
  induction rs as [|r rs IH]; intros fuel Hrs.
  - exists [], []. repeat split; [by destruct fuel|done|done].
  - apply Forall_cons in Hrs as [Hr Hrs]. destruct fuel as [|fuel].
    { exists [], (r :: rs). repeat split; [done|simpl; lia]. }
    rewrite encode_all_cons, trim_left_S, decode_encode by (done || by apply encode_nonempty).
    simpl. destruct (IsSpace r) eqn:E.
    + rewrite drop_app_length. destruct (IH fuel Hrs) as (rs1 & rs2 & -> & -> & H1 & H2).
      exists (r :: rs1), rs2. repeat split; [by constructor|]. intros Hf. apply H2. lia.
    + exists [], (r :: rs). repeat split; [done|]. intros _ r' [= <-]. done.
Qed.

Lemma trim_right_runes rs : forall fuel,
  Forall scalar rs ->
  exists rs1 rs2, rs = rs1 ++ rs2 /\ trim_right fuel (encode_all rs) = encode_all rs1 /\
    Forall (fun r => IsSpace r = true) rs2 /\
    ((length rs <= fuel)%nat -> forall r, last rs1 = Some r -> IsSpace r = false).
Proof.
  induction rs as [|r rs IH] using rev_ind; intros fuel Hrs.
  - exists [], []. repeat split; [by destruct fuel|done|done].
  - apply Forall_app in Hrs as [Hrs [Hr _]%Forall_cons]. rewrite length_app. simpl.
    destruct fuel as [|fuel].
    { exists (rs ++ [r]), []. rewrite app_nil_r. repeat split; [done|lia]. }
    assert (encode_all (rs ++ [r]) = encode_all rs ++ encode r) as Henc.
    { rewrite encode_all_app. unfold encode_all at 2. simpl. by rewrite app_nil_r. }
    assert (encode_all rs ++ encode r <> []) as Hne.
    { intros [_ Hz]%app_eq_nil. pose proof (encode_length r Hr) as Hl. rewrite Hz in Hl. simpl in Hl. lia. }
    rewrite Henc, trim_right_S, encode_decode_last by done.
    cbn zeta. cbn [fst snd]. rewrite length_app, Nat.add_sub.
    rewrite take_app_length, drop_app_length.
    pose proof (decode_encode r [] Hr) as D. rewrite app_nil_r in D. rewrite D. cbn [snd].
    destruct (IsSpace r) eqn:E.
    + destruct (IH fuel Hrs) as (rs1 & rs2 & -> & -> & H1 & H2).
      exists rs1, (rs2 ++ [r]). rewrite app_assoc. repeat split.
      * apply Forall_app. split; [done|by constructor].
      * intros Hf. apply H2. lia.
    + exists (rs ++ [r]), []. rewrite app_nil_r, <- length_app, firstn_all, Henc.
      repeat split; [done|]. intros _ r'. rewrite last_snoc. by intros [= <-].
Qed.

(** TrimSpace cuts the runes at both ends that are spaces, and all of them. *)
Lemma TrimSpace_runes rs :
  Forall scalar rs ->
  exists rs1 rs2 rs3, rs = rs1 ++ rs2 ++ rs3 /\ TrimSpace (encode_all rs) = encode_all rs2 /\
    Forall (fun r => IsSpace r = true) (rs1 ++ rs3) /\
    (forall r, head rs2 = Some r -> IsSpace r = false) /\
    (forall r, last rs2 = Some r -> IsSpace r = false).
Proof.
  intros Hrs. unfold TrimSpace.
  destruct (trim_left_runes rs (length (encode_all rs)) Hrs) as (rs1 & rs2 & -> & -> & H1 & H2).
  apply Forall_app in Hrs as [Hrs1 Hrs2].
  destruct (trim_right_runes rs2 (length (encode_all rs2)) Hrs2) as (rs3 & rs4 & -> & -> & H3 & H4).
  exists rs1, rs3, rs4. repeat split.
  - by apply Forall_app.
  - intros r Hr. apply H2.
    + apply encode_all_length. by apply Forall_app.
    + destruct rs3; [done|]. exact Hr.
  - apply H4. by apply encode_all_length.
Qed.

(** ** Slashes at the ends *)

Definition SLASH : Byte.byte := Byte.x2f.

(** strings.TrimLeft(s, "/") and strings.TrimRight(s, "/") *)
Fixpoint drop_slashes (s : bytes) : bytes :=
  match s with
  | c :: s' => if bool_decide (c = SLASH) then drop_slashes s' else s
  | [] => []
  end.
Definition TrimRightSlash (s : bytes) : bytes := rev (drop_slashes (rev s)).

Lemma drop_slashes_app a b : Forall (fun c => c = SLASH) a -> drop_slashes (a ++ b) = drop_slashes b.
Proof. induction 1 as [|c a -> _ IH]; [done|]. exact IH. Qed.

Lemma TrimRightSlash_app a b : Forall (fun c => c = SLASH) b -> TrimRightSlash (a ++ b) = TrimRightSlash a.
Proof.
  intros Hb. unfold TrimRightSlash. f_equal. rewrite rev_app_distr. apply drop_slashes_app.
  rewrite Forall_forall in *. intros c Hc. apply Hb. by rewrite list_elem_of_In, <- in_rev, <- list_elem_of_In in Hc.
Qed.
