(* ===== verification/CommonErrors.v ===== *)
(** * Shared errors and constants

    errors/errors.go (package commonerrors, aliases of the sentinels of
    github.com/psyb0t/ctxerrors/commerr), http/errors.go and constants.  A sentinel is a
    variable of its own: two with the same text are different errors, so those of
    http carry their package in the name that identifies them here. *)

From stdpp Require Import base option list strings.
From S2P Require Import Prelude GoErrors Utf8.

(** ** errors/errors.go *)

Definition ErrEnvVarNotSet : error := Sentinel "env var is not set".
Definition ErrRequiredConfigValueNotSet : error := Sentinel "required config value is not set".
Definition ErrEmptyMigrationsPath : error := Sentinel "migrations path is empty".
Definition ErrFileInvalid : error := Sentinel "invalid file".
Definition ErrFileNotFound : error := Sentinel "file not found".
Definition ErrPathIsRequired : error := Sentinel "path is required".
Definition ErrCouldNotDownloadFiles : error := Sentinel "could not download files".
Definition ErrInvalidArgument : error := Sentinel "invalid argument".
Definition ErrInvalidValue : error := Sentinel "invalid value".
Definition ErrTargetNotPointer : error := Sentinel "target is not a pointer".
Definition ErrCouldNotDecode : error := Sentinel "could not decode".
Definition ErrNilOutput : error := Sentinel "output is nil".
Definition ErrNilField : error := Sentinel "field is nil".
Definition ErrRequiredFieldNotSet : error := Sentinel "required field is not set".
Definition ErrRequiredLLMResponseFieldNotSet : error := Sentinel "required llm response field is not set".
Definition ErrAlreadyExists : error := Sentinel "already exists".
Definition ErrJobFailed : error := Sentinel "job failed".
Definition ErrUnexpectedNumberOfResults : error := Sentinel "unexpected number of results".
Definition ErrNotFound : error := Sentinel "not found".
Definition ErrFetchFailed : error := Sentinel "fetch failed".
Definition ErrParseFailed : error := Sentinel "parse failed".
Definition ErrWriteFailed : error := Sentinel "write failed".
Definition ErrPublishFailed : error := Sentinel "publish failed".
Definition ErrSubscribeFailed : error := Sentinel "subscribe failed".
Definition ErrDownloadFailed : error := Sentinel "download failed".
Definition ErrUploadFailed : error := Sentinel "upload failed".
Definition ErrUpsertFailed : error := Sentinel "upsert failed".
Definition ErrDeleteFailed : error := Sentinel "delete failed".
Definition ErrConnectFailed : error := Sentinel "connect failed".
Definition ErrBrowseFailed : error := Sentinel "browse failed".
Definition ErrSeedFailed : error := Sentinel "seed failed".
Definition ErrMigrationFailed : error := Sentinel "migration failed".
Definition ErrUnmarshalFailed : error := Sentinel "unmarshal failed".
Definition ErrMarshalFailed : error := Sentinel "marshal failed".
Definition ErrUnavailable : error := Sentinel "unavailable".
Definition ErrFailed : error := Sentinel "failed".
Definition ErrTimeout : error := Sentinel "timeout".
Definition ErrTerminated : error := Sentinel "terminated".
Definition ErrKilled : error := Sentinel "killed".
Definition ErrClosing : error := Sentinel "closing".
Definition ErrShuttingDown : error := Sentinel "shutting down".
Definition ErrCancelled : error := Sentinel "cancelled".
Definition ErrNotAuthenticated : error := Sentinel "not authenticated".
Definition ErrRateLimited : error := Sentinel "rate limited".

(** ** http/errors.go *)

Module commonhttp.
Definition ErrBadRequest : error := Sentinel "commonhttp: bad request".
Definition ErrUnauthorized : error := Sentinel "commonhttp: unauthorized".
Definition ErrNotAuthenticated : error := Sentinel "commonhttp: not authenticated".
Definition ErrForbidden : error := Sentinel "commonhttp: forbidden".
Definition ErrNotFound : error := Sentinel "commonhttp: not found".
Definition ErrMethodNotAllowed : error := Sentinel "commonhttp: method not allowed".
Definition ErrConflict : error := Sentinel "commonhttp: conflict".
Definition ErrGone : error := Sentinel "commonhttp: gone".
Definition ErrUnprocessableEntity : error := Sentinel "commonhttp: unprocessable entity".
Definition ErrTooManyRequests : error := Sentinel "commonhttp: too many requests".
Definition ErrInternalServer : error := Sentinel "commonhttp: internal server error".
Definition ErrBadGateway : error := Sentinel "commonhttp: bad gateway".
Definition ErrServiceUnavailable : error := Sentinel "commonhttp: service unavailable".
Definition ErrGatewayTimeout : error := Sentinel "commonhttp: gateway timeout".
End commonhttp.

(** ** constants *)

Definition DefaultDirectoryPermissions : Z := 0x1e8.
Definition DefaultFilePermissions : Z := 0x180.

Definition FileExtensionJPG : bytes := lit ".jpg".
Definition FileExtensionJPEG : bytes := lit ".jpeg".
Definition FileExtensionPNG : bytes := lit ".png".
Definition FileExtensionBMP : bytes := lit ".bmp".
Definition FileExtensionGIF : bytes := lit ".gif".
Definition FileExtensionTIFF : bytes := lit ".tiff".
Definition FileExtensionWEBP : bytes := lit ".webp".
Definition FileExtensionMP4 : bytes := lit ".mp4".
Definition FileExtensionMP3 : bytes := lit ".mp3".
Definition FileExtensionM4A : bytes := lit ".m4a".
Definition FileExtensionFlac : bytes := lit ".flac".
Definition FileExtensionOGG : bytes := lit ".ogg".
Definition FileExtensionAAC : bytes := lit ".aac".
Definition FileExtensionWMA : bytes := lit ".wma".
Definition FileExtensionWAV : bytes := lit ".wav".
Definition FileExtensionHTML : bytes := lit ".html".
Definition FileExtensionTXT : bytes := lit ".txt".
Definition FileExtensionJSON : bytes := lit ".json".
Definition FileExtensionGenGo : bytes := lit ".gen.go".

(** ** The sentinels are told apart *)

Definition sentinels : list error :=
  [ErrEnvVarNotSet;
   ErrRequiredConfigValueNotSet;
   ErrEmptyMigrationsPath;
   ErrFileInvalid;
   ErrFileNotFound;
   ErrPathIsRequired;
   ErrCouldNotDownloadFiles;
   ErrInvalidArgument;
   ErrInvalidValue;
   ErrTargetNotPointer;
   ErrCouldNotDecode;
   ErrNilOutput;
   ErrNilField;
   ErrRequiredFieldNotSet;
   ErrRequiredLLMResponseFieldNotSet;
   ErrAlreadyExists;
   ErrJobFailed;
   ErrUnexpectedNumberOfResults;
   ErrNotFound;
   ErrFetchFailed;
   ErrParseFailed;
   ErrWriteFailed;
   ErrPublishFailed;
   ErrSubscribeFailed;
   ErrDownloadFailed;
   ErrUploadFailed;
   ErrUpsertFailed;
   ErrDeleteFailed;
   ErrConnectFailed;
   ErrBrowseFailed;
   ErrSeedFailed;
   ErrMigrationFailed;
   ErrUnmarshalFailed;
   ErrMarshalFailed;
   ErrUnavailable;
   ErrFailed;
   ErrTimeout;
   ErrTerminated;
   ErrKilled;
   ErrClosing;
   ErrShuttingDown;
   ErrCancelled;
   ErrNotAuthenticated;
   ErrRateLimited;
   commonhttp.ErrBadRequest;
   commonhttp.ErrUnauthorized;
   commonhttp.ErrNotAuthenticated;
   commonhttp.ErrForbidden;
   commonhttp.ErrNotFound;
   commonhttp.ErrMethodNotAllowed;
   commonhttp.ErrConflict;
   commonhttp.ErrGone;
   commonhttp.ErrUnprocessableEntity;
   commonhttp.ErrTooManyRequests;
   commonhttp.ErrInternalServer;
   commonhttp.ErrBadGateway;
   commonhttp.ErrServiceUnavailable;
   commonhttp.ErrGatewayTimeout].

Definition sentinel_names : list string :=
  omap (fun e => match e with Sentinel n => Some n | _ => None end) sentinels.

Lemma sentinels_names : sentinels = Sentinel <$> sentinel_names.
Proof. reflexivity. Qed.

Lemma sentinel_names_NoDup : NoDup sentinel_names.
Proof. apply (bool_decide_unpack _). vm_compute. exact I. Qed.

Fixpoint wrap_all (messages : list string) (e : error) : error :=
  match messages with
  | [] => e
  | m :: ms => ctxerrors.WrapE (wrap_all ms e) m
  end.

(** An error wrapped any number of times matches the sentinel it was made from, and
    no other one of the two packages. *)
Lemma wrapped_sentinel_matches messages i j e n :
  sentinels !! i = Some e -> sentinel_names !! j = Some n ->
  ctxerrors.Is (wrap_all messages e) n = bool_decide (i = j).
Proof.
  intros Hi Hj. assert (ctxerrors.Is (wrap_all messages e) n = ctxerrors.Is e n) as ->.
  { induction messages as [|m ms IH]; [done|]. exact IH. }
  rewrite sentinels_names, list_lookup_fmap_Some in Hi. destruct Hi as (m & -> & Hm). cbn [ctxerrors.Is].
  apply bool_decide_ext. split; [|intros ->; congruence]. intros ->.
  eapply NoDup_lookup; [apply sentinel_names_NoDup|done|done].
Qed.
