(* ===== verification/RWMutex.v ===== *)
(** * sync.RWMutex: goroutines, atomic accesses and linearizability

    The objects of the repository that goroutines share (types/map.go,
    cache/memory.go) guard their fields with one sync.RWMutex, taken at the start
    of a method and released when it returns.  Here a method body is a program of
    single memory accesses ([prog]), an execution interleaves the accesses of any
    number of goroutines ([step], [exec]), and the lock is what restricts it:
    Lock waits until nobody is inside, RLock until no writer is.  (Go's lock
    also makes new readers wait behind a waiting writer; that only removes
    schedules, and the theorems hold for all of them.)

    The reference semantics ([astep], [aexec]) runs a whole method in one step
    between its call and its return.  [exec_linearizable] says when every
    interleaved execution has the calls and results of an atomic one:
    whenever two goroutines are inside together, neither has a write left to
    do.  [apart_linearizable] needs that of the readers only, since the lock keeps
    writers apart, and [locked_apart] gives it when the methods that take the read
    lock only read.  [play] runs a schedule. *)

From stdpp Require Import base option list gmap fin_maps.
From S2P Require Import Prelude.

(** ** Programs *)

(** A program with results in [A] on shared memory [S]: return, or make one
    access, which reads the memory and updates it in one indivisible step. *)
Inductive prog (S A : Type) : Type :=
| Ret (a : A)
| Access (g : S -> S) (k : S -> prog S A).
Arguments Ret {S A} a.
Arguments Access {S A} g k.

(** Run alone, from start to end. *)
Fixpoint run {S A : Type} (p : prog S A) (s : S) : A * S :=
  match p with
  | Ret a => (a, s)
  | Access g k => run (k s) (g s)
  end.

Fixpoint pbind {S A B : Type} (p : prog S A) (f : A -> prog S B) : prog S B :=
  match p with
  | Ret a => f a
  | Access g k => Access g (fun s => pbind (k s) f)
  end.

Definition pread {S A : Type} (f : S -> A) : prog S A := Access (fun s => s) (fun s => Ret (f s)).
Definition pwrite {S : Type} (g : S -> S) : prog S unit := Access g (fun _ => Ret tt).

Lemma run_pbind {S A B} (p : prog S A) (f : A -> prog S B) s :
  run (pbind p f) s = run (f (run p s).1) (run p s).2.
Proof. revert s. induction p as [a|g k IH]; intros s; simpl; [done|]. apply IH. Qed.

(** Programs that never change the memory. *)
Fixpoint reads_only {S A : Type} (p : prog S A) : Prop :=
  match p with
  | Ret _ => True
  | Access g k => (forall s, g s = s) /\ (forall s, reads_only (k s))
  end.

Lemma reads_only_pbind {S A B} (p : prog S A) (f : A -> prog S B) :
  reads_only p -> (forall a, reads_only (f a)) -> reads_only (pbind p f).
Proof. induction p as [a|g k IH]; simpl; [done|]. intros [Hg Hk] Hf. split; auto. Qed.

Lemma reads_only_pread {S A} (f : S -> A) : reads_only (pread f).
Proof. simpl. done. Qed.

(** Programs that do not change the memory [s], should they run on it. *)
Fixpoint quiet {S A : Type} (p : prog S A) (s : S) : Prop :=
  match p with
  | Ret _ => True
  | Access g k => g s = s /\ quiet (k s) s
  end.

Lemma quiet_run {S A} (p : prog S A) s : quiet p s -> (run p s).2 = s.
Proof. induction p as [a|g k IH]; simpl; [done|]. intros [-> Hk]. by apply IH. Qed.

Lemma quiet_pbind {S A B} (p : prog S A) (f : A -> prog S B) s :
  quiet p s -> quiet (f (run p s).1) s -> quiet (pbind p f) s.
Proof.
  induction p as [a|g k IH]; simpl; [done|]. intros [Hg Hk]. rewrite Hg. intros Hf.
  split; [done|]. by apply IH.
Qed.

Lemma reads_only_quiet {S A} (p : prog S A) s : reads_only p -> quiet p s.
Proof. induction p as [a|g k IH]; simpl; [done|]. intros [Hg Hk]. auto. Qed.

(** ** What the callers see *)

Inductive label (Op Res : Type) : Type :=
| Invoke (t : nat) (op : Op)
| Result (t : nat) (op : Op) (r : Res).
Arguments Invoke {Op Res} t op.
Arguments Result {Op Res} t op r.

(** ** The reference: between call and return, the whole method at once *)

Inductive athread (Op Res : Type) : Type :=
| Pending (op : Op)
| Answered (op : Op) (r : Res).
Arguments Pending {Op Res} op.
Arguments Answered {Op Res} op r.

Record aconf (A Op Res : Type) : Type :=
  MkAConf { astate : A; athreads : gmap nat (athread Op Res) }.
Arguments MkAConf {A Op Res} _ _.
Arguments astate {A Op Res} _.
Arguments athreads {A Op Res} _.

Section Atomic.
Context {A Op Res : Type} (f : Op -> A -> Res * A).

Inductive astep : aconf A Op Res -> option (label Op Res) -> aconf A Op Res -> Prop :=
| astep_invoke a ts t op :
    ts !! t = None ->
    astep (MkAConf a ts) (Some (Invoke t op)) (MkAConf a (<[t := Pending op]> ts))
| astep_run a ts t op :
    ts !! t = Some (Pending op) ->
    astep (MkAConf a ts) None (MkAConf (f op a).2 (<[t := Answered op (f op a).1]> ts))
| astep_return a ts t op r :
    ts !! t = Some (Answered op r) ->
    astep (MkAConf a ts) (Some (Result t op r)) (MkAConf a (delete t ts)).

Inductive aexec : aconf A Op Res -> list (label Op Res) -> aconf A Op Res -> Prop :=
| aexec_nil c : aexec c [] c
| aexec_cons c1 l c2 tr c3 :
    astep c1 l c2 -> aexec c2 tr c3 -> aexec c1 (option_list l ++ tr) c3.

Lemma aexec_app c1 tr1 c2 tr2 c3 :
  aexec c1 tr1 c2 -> aexec c2 tr2 c3 -> aexec c1 (tr1 ++ tr2) c3.
Proof.
  induction 1 as [c|c1 l c2 tr c3' Hs Hx IH]; intros H2; simpl; [done|].
  rewrite <- app_assoc. eapply aexec_cons; [done|]. by apply IH.
Qed.
End Atomic.

(** An atomic object that simulates another, operation by operation, has its
    executions. *)
Lemma aexec_refines {A B Op Res} (f : Op -> A -> Res * A) (g : Op -> B -> Res * B)
    (R : A -> B -> Prop) a ts tr c :
  (forall op a b, R a b -> (f op a).1 = (g op b).1 /\ R (f op a).2 (g op b).2) ->
  forall b, R a b -> aexec f (MkAConf a ts) tr c ->
  exists b', R (astate c) b' /\ aexec g (MkAConf b ts) tr (MkAConf b' (athreads c)).
Proof.
  intros Hsim b Hab Hx. remember (MkAConf a ts) as c0 eqn:E.
  revert a ts b Hab E. induction Hx as [c|c1 l c2 tr c3 Hs Hx IH]; intros a ts b Hab ->.
  - exists b. split; [done|constructor].
  - inversion Hs; subst; clear Hs.
    + destruct (IH _ _ b Hab eq_refl) as (b' & Hb & Hg).
      exists b'. split; [done|]. eapply aexec_cons; [by constructor|done].
    + destruct (Hsim op a b Hab) as [E1 E2].
      destruct (IH _ _ _ E2 eq_refl) as (b' & Hb & Hg).
      exists b'. split; [done|]. eapply aexec_cons; [by eapply astep_run|]. by rewrite <- E1.
    + destruct (IH _ _ b Hab eq_refl) as (b' & Hb & Hg).
      exists b'. split; [done|]. eapply aexec_cons; [by constructor|done].
Qed.

(** ** Goroutines that share one object *)

Inductive lockMode : Type := RLock | Lock.

(** A goroutine that is not in the table is outside the object. *)
Inductive thread (S Op Res : Type) : Type :=
| Called (op : Op)
| Inside (op : Op) (p : prog S Res)
| Returned (op : Op) (r : Res).
Arguments Called {S Op Res} op.
Arguments Inside {S Op Res} op p.
Arguments Returned {S Op Res} op r.

Record conf (S Op Res : Type) : Type :=
  MkConf { shared : S; threads : gmap nat (thread S Op Res) }.
Arguments MkConf {S Op Res} _ _.
Arguments shared {S Op Res} _.
Arguments threads {S Op Res} _.

Section Machine.
Context {S Op Res : Type}.
Context (mode : Op -> lockMode) (body : Op -> prog S Res).
Implicit Types (s : S) (ts : gmap nat (thread S Op Res)) (c : conf S Op Res).

Definition is_inside (th : thread S Op Res) : Prop :=
  match th with Inside _ _ => True | _ => False end.
Definition writer_inside (th : thread S Op Res) : Prop :=
  match th with Inside op _ => mode op = Lock | _ => False end.

(** When the lock may be taken. *)
Definition may_enter (md : lockMode) ts : Prop :=
  match md with
  | Lock => forall t th, ts !! t = Some th -> ~ is_inside th
  | RLock => forall t th, ts !! t = Some th -> ~ writer_inside th
  end.

Inductive step : conf S Op Res -> option (label Op Res) -> conf S Op Res -> Prop :=
| step_invoke s ts t op :
    ts !! t = None ->
    step (MkConf s ts) (Some (Invoke t op)) (MkConf s (<[t := Called op]> ts))
| step_enter s ts t op :
    ts !! t = Some (Called op) -> may_enter (mode op) ts ->
    step (MkConf s ts) None (MkConf s (<[t := Inside op (body op)]> ts))
| step_access s ts t op g k :
    ts !! t = Some (Inside op (Access g k)) ->
    step (MkConf s ts) None (MkConf (g s) (<[t := Inside op (k s)]> ts))
| step_leave s ts t op r :
    ts !! t = Some (Inside op (Ret r)) ->
    step (MkConf s ts) None (MkConf s (<[t := Returned op r]> ts))
| step_return s ts t op r :
    ts !! t = Some (Returned op r) ->
    step (MkConf s ts) (Some (Result t op r)) (MkConf s (delete t ts)).

(** The five kinds of step. *)
Ltac step_cases Hs :=
  destruct Hs as [s ts t op Ht|s ts t op Ht Hm|s ts t op g k Ht|s ts t op r Ht|s ts t op r Ht].

(** Executions all of whose states satisfy [P], with what the callers see. *)
Inductive exec (P : conf S Op Res -> Prop) :
    conf S Op Res -> list (label Op Res) -> conf S Op Res -> Prop :=
| exec_nil c : P c -> exec P c [] c
| exec_cons c1 l c2 tr c3 :
    P c1 -> step c1 l c2 -> exec P c2 tr c3 -> exec P c1 (option_list l ++ tr) c3.

(** Goroutines inside together have no write left to do, as things are. *)
Definition no_conflict c : Prop :=
  forall t1 t2 op1 op2 p1 p2, t1 <> t2 ->
    threads c !! t1 = Some (Inside op1 p1) -> threads c !! t2 = Some (Inside op2 p2) ->
    quiet p1 (shared c) /\ quiet p2 (shared c).

(** ** Linearizability *)

(** The atomic object is ahead of the interleaved one: a goroutine that is
    inside has its result already. *)
Definition lin_thread s (th : thread S Op Res) : athread Op Res :=
  match th with
  | Called op => Pending op
  | Inside op p => Answered op (run p s).1
  | Returned op r => Answered op r
  end.

Record lin c (a : aconf S Op Res) : Prop := {
  lin_threads : athreads a = lin_thread (shared c) <$> threads c;
  lin_inside : forall t op p,
    threads c !! t = Some (Inside op p) -> (run p (shared c)).2 = astate a;
  lin_free : astate a = shared c \/
    exists t op p, threads c !! t = Some (Inside op p)
}.

Notation atomic := (fun op => run (body op)).

Lemma lin_settled c a t op : lin c a -> threads c !! t = Some (Called op) ->
  no_conflict (MkConf (shared c) (<[t := Inside op (body op)]> (threads c))) ->
  astate a = shared c.
Proof.
  intros HL Ht Hnc. destruct (lin_free _ _ HL) as [|(t2 & op2 & p2 & Ht2)]; [done|].
  rewrite <- (lin_inside _ _ HL _ _ _ Ht2). apply quiet_run.
  assert (t2 <> t) as Hne by congruence.
  apply (Hnc t2 t op2 op p2 (body op)); simpl; [done| |by rewrite lookup_insert_eq].
  by rewrite lookup_insert_ne.
Qed.

(** A step that changes thread [t] and moves the memory from [s] to [s'] with
    nobody else noticing. *)
Lemma lin_threads_insert ts t th s s' :
  (forall t' th', t' <> t -> ts !! t' = Some th' -> lin_thread s' th' = lin_thread s th') ->
  <[t := lin_thread s' th]> (lin_thread s <$> ts) = lin_thread s' <$> <[t := th]> ts.
Proof.
  intros Hts. apply map_eq. intros t'. rewrite lookup_fmap.
  destruct (decide (t' = t)) as [->|Hne]; [by rewrite !lookup_insert_eq|].
  rewrite !lookup_insert_ne, lookup_fmap by done.
  destruct (ts !! t') as [th'|] eqn:E; simpl; [|done]. by rewrite (Hts t' th').
Qed.

Lemma lin_enter s ts a t op :
  lin (MkConf s ts) a -> ts !! t = Some (Called op) ->
  no_conflict (MkConf s (<[t := Inside op (body op)]> ts)) ->
  exists a', aexec atomic a [] a' /\ lin (MkConf s (<[t := Inside op (body op)]> ts)) a'.
Proof.
  intros HL Ht Hnc. pose proof (lin_settled _ _ _ _ HL Ht Hnc) as Ha. simpl in Ha.
  destruct a as [a ats]. simpl in Ha. subst a.
  pose proof (lin_threads _ _ HL) as Hats. simpl in Hats. subst ats.
  eexists. split.
  { eapply (aexec_cons _ _ None _ []); [|constructor].
    eapply (astep_run _ s _ t op). by rewrite lookup_fmap, Ht. }
  constructor; simpl.
  - symmetry. by rewrite fmap_insert.
  - intros t' op' p' Ht'. destruct (decide (t' = t)) as [->|Hne]; [by simplify_map_eq|].
    destruct (Hnc t' t op' op p' (body op) Hne) as [H1 H2]; simpl; [by simplify_map_eq..|].
    by rewrite !quiet_run.
  - right. exists t, op, (body op). by simplify_map_eq.
Qed.

Lemma lin_access s ts a t op g k :
  lin (MkConf s ts) a -> ts !! t = Some (Inside op (Access g k)) -> no_conflict (MkConf s ts) ->
  lin (MkConf (g s) (<[t := Inside op (k s)]> ts)) a.
Proof.
  intros HL Ht Hnc.
  assert (Hg : forall t' op' p', t' <> t -> ts !! t' = Some (Inside op' p') -> g s = s).
  { intros t' op' p' Hne Ht'. destruct (Hnc t t' op op' _ p' (not_eq_sym Hne) Ht Ht') as [H _].
    apply H. }
  pose proof (lin_inside _ _ HL t op _ Ht) as Hin. simpl in Hin.
  constructor; simpl.
  - rewrite (lin_threads _ _ HL). simpl. rewrite <- (lin_threads_insert _ _ _ s).
    + rewrite insert_id; [done|]. by rewrite lookup_fmap, Ht.
    + intros t' [op'|op' p'|op' r'] Hne Ht'; try done. simpl. by rewrite (Hg t' op' p').
  - intros t' op' p' Ht'. destruct (decide (t' = t)) as [->|Hne]; [by simplify_map_eq|].
    rewrite lookup_insert_ne in Ht' by done. rewrite (Hg t' op' p') by done.
    by eapply (lin_inside _ _ HL).
  - right. exists t, op, (k s). by simplify_map_eq.
Qed.

Lemma lin_leave s ts a t op r :
  lin (MkConf s ts) a -> ts !! t = Some (Inside op (Ret r)) ->
  lin (MkConf s (<[t := Returned op r]> ts)) a.
Proof.
  intros HL Ht. pose proof (lin_inside _ _ HL t op _ Ht) as Hin. simpl in Hin. constructor; simpl.
  - rewrite (lin_threads _ _ HL), fmap_insert. simpl.
    rewrite insert_id; [done|]. by rewrite lookup_fmap, Ht.
  - intros t' op' p' Ht'. destruct (decide (t' = t)) as [->|Hne]; [by simplify_map_eq|].
    rewrite lookup_insert_ne in Ht' by done. by eapply (lin_inside _ _ HL).
  - by left.
Qed.

(** Calling and returning do not touch the goroutines inside. *)
Lemma lin_outside s ts ts' a :
  lin (MkConf s ts) a ->
  (forall t op p, ts' !! t = Some (Inside op p) <-> ts !! t = Some (Inside op p)) ->
  lin (MkConf s ts') (MkAConf (astate a) (lin_thread s <$> ts')).
Proof.
  intros HL Hin. constructor; simpl; [done| |].
  - intros t op p Ht. apply Hin in Ht. by eapply (lin_inside _ _ HL).
  - destruct (lin_free _ _ HL) as [|(t & op & p & Ht)]; [by left|]. right.
    exists t, op, p. by apply Hin.
Qed.

Lemma lin_step c a l c' :
  lin c a -> no_conflict c -> no_conflict c' -> step c l c' ->
  exists a', aexec atomic a (option_list l) a' /\ lin c' a'.
Proof.
  intros HL Hnc Hnc' Hs. destruct a as [a ats].
  assert (ats = lin_thread (shared c) <$> threads c) as -> by apply (lin_threads _ _ HL).
  step_cases Hs;
    cbn [shared threads] in *.
  - eexists. split.
    + eapply (aexec_cons _ _ (Some _) _ []); [|constructor]. eapply (astep_invoke _ a _ t op).
      by rewrite lookup_fmap, Ht.
    + simpl. rewrite <- (fmap_insert (lin_thread s) ts t (Called op)).
      apply (lin_outside _ _ _ _ HL). intros t' op' p'.
      rewrite lookup_insert; case_decide; naive_solver.
  - by apply lin_enter.
  - eexists. split; [constructor|]. by eapply lin_access.
  - eexists. split; [constructor|]. by eapply lin_leave.
  - eexists. split.
    + eapply (aexec_cons _ _ (Some _) _ []); [|constructor]. eapply (astep_return _ a _ t op).
      by rewrite lookup_fmap, Ht.
    + simpl. rewrite <- (fmap_delete (lin_thread s) ts t).
      apply (lin_outside _ _ _ _ HL). intros t' op' p'.
      rewrite lookup_delete; case_decide; naive_solver.
Qed.

Lemma lin_exec c tr c' :
  exec no_conflict c tr c' -> forall a, lin c a -> exists a', aexec atomic a tr a' /\ lin c' a'.
Proof.
  induction 1 as [c Hc|c1 l c2 tr c3 Hc1 Hs Hx IH]; intros a HL.
  { exists a. split; [constructor|done]. }
  assert (no_conflict c2) as Hc2 by (by inversion Hx).
  destruct (lin_step _ _ _ _ HL Hc1 Hc2 Hs) as (a2 & Ha2 & HL2).
  destruct (IH a2 HL2) as (a3 & Ha3 & HL3). exists a3. split; [|done].
  by eapply aexec_app.
Qed.

Lemma lin_start s : lin (MkConf s ∅) (MkAConf s ∅).
Proof. constructor; simpl; [by rewrite fmap_empty|done|by left]. Qed.

(** An execution without conflicts, from a state nobody uses, has the calls and
    results of an atomic one, and leaves its memory once everybody is out. *)
Lemma exec_linearizable s tr c :
  exec no_conflict (MkConf s ∅) tr c ->
  exists a, aexec atomic (MkAConf s ∅) tr a /\
    (threads c = ∅ -> a = MkAConf (shared c) ∅).
Proof.
  intros Hx. destruct (lin_exec _ _ _ Hx _ (lin_start s)) as (a & Ha & HL).
  exists a. split; [done|]. intros Hts. destruct a as [a ats].
  pose proof (lin_threads _ _ HL) as H1. simpl in H1. rewrite Hts, fmap_empty in H1. subst ats.
  destruct (lin_free _ _ HL) as [H|(t & op & p & Ht)]; simpl in *; [by subst|].
  by rewrite Hts, lookup_empty in Ht.
Qed.

(** *** The lock rules conflicts out *)

(** A writer is alone inside. *)
Definition writer_alone c : Prop :=
  forall t1 t2 op1 op2 p1 p2,
    threads c !! t1 = Some (Inside op1 p1) -> threads c !! t2 = Some (Inside op2 p2) ->
    mode op1 = Lock -> t1 = t2.

(** Readers that are inside together have no write left to do, as things are. *)
Definition readers_apart c : Prop :=
  forall t1 t2 op1 op2 p1 p2, t1 <> t2 ->
    threads c !! t1 = Some (Inside op1 p1) -> threads c !! t2 = Some (Inside op2 p2) ->
    mode op1 = RLock -> mode op2 = RLock -> quiet p1 (shared c) /\ quiet p2 (shared c).

Lemma writer_alone_no_conflict c : writer_alone c -> readers_apart c -> no_conflict c.
Proof.
  intros Hw Hr t1 t2 op1 op2 p1 p2 Hne H1 H2. eapply (Hr t1 t2); [done..| |].
  - destruct (mode op1) eqn:E; [done|]. exfalso. eauto.
  - destruct (mode op2) eqn:E; [done|]. exfalso. apply Hne. symmetry. eauto.
Qed.

Lemma writer_alone_step c l c' : writer_alone c -> step c l c' -> writer_alone c'.
Proof.
  intros Hw Hs. step_cases Hs;
    unfold writer_alone in *; simpl in *; intros t1 t2 op1 op2 p1 p2;
    rewrite ?lookup_insert, ?lookup_delete.
  2: { intros H1 H2 Hmd. repeat case_decide; simplify_eq; [done|exfalso..|eauto].
       - destruct (mode op2); by eapply Hm.
       - rewrite Hmd in Hm. by eapply Hm. }
  all: repeat case_decide; intros; simplify_eq; eauto.
Qed.

(** The methods that take the read lock only read. *)
Definition readers_read c : Prop :=
  forall t op p, threads c !! t = Some (Inside op p) -> mode op = RLock -> reads_only p.

Lemma readers_read_step c l c' :
  (forall op, mode op = RLock -> reads_only (body op)) ->
  readers_read c -> step c l c' -> readers_read c'.
Proof.
  intros Hro Hr Hs. step_cases Hs;
    unfold readers_read in *; simpl in *; intros t1 op1 p1;
    rewrite ?lookup_insert, ?lookup_delete; case_decide; intros; simplify_eq; eauto.
  destruct (Hr _ _ _ Ht ltac:(done)) as [_ Hk]. apply Hk.
Qed.

(** An invariant of the steps holds all along. *)
Lemma exec_invariant (P Q : conf S Op Res -> Prop) c tr c' :
  (forall c l c', Q c -> step c l c' -> Q c') -> exec P c tr c' -> Q c ->
  exec (fun c => P c /\ Q c) c tr c'.
Proof.
  intros Hstep. induction 1 as [c Hc|c1 l c2 tr c3 Hc1 Hs Hx IH]; intros HQ.
  - by constructor.
  - eapply exec_cons; [done..|]. eauto.
Qed.

Lemma exec_mono (P Q : conf S Op Res -> Prop) c tr c' :
  (forall c, P c -> Q c) -> exec P c tr c' -> exec Q c tr c'.
Proof. intros HPQ. induction 1; econstructor; eauto. Qed.

(** The lock keeps writers apart: no access can race with a write unless two
    readers do it. *)
Lemma apart_no_conflict s tr c :
  exec readers_apart (MkConf s ∅) tr c -> exec no_conflict (MkConf s ∅) tr c.
Proof.
  intros Hx. eapply exec_mono; [|eapply (exec_invariant _ writer_alone); [apply writer_alone_step|done|done]].
  intros c' [Hr Hw]. by apply writer_alone_no_conflict.
Qed.

(** An object is linearizable in the executions in which the readers that are
    inside together have no write left to do. *)
Lemma apart_linearizable s tr c :
  exec readers_apart (MkConf s ∅) tr c ->
  exists a, aexec atomic (MkAConf s ∅) tr a /\
    (threads c = ∅ -> a = MkAConf (shared c) ∅).
Proof. intros Hx. by apply exec_linearizable, apart_no_conflict. Qed.

(** Objects whose read-locked methods only read have no races and are
    linearizable, in every execution. *)
Lemma locked_apart s tr c :
  (forall op, mode op = RLock -> reads_only (body op)) ->
  exec (fun _ => True) (MkConf s ∅) tr c -> exec readers_apart (MkConf s ∅) tr c.
Proof.
  intros Hro Hx. eapply exec_mono; [|eapply (exec_invariant _ readers_read); [|done|done]].
  - intros c' [_ Hr] t1 t2 op1 op2 p1 p2 _ H1 H2 M1 M2. split; apply reads_only_quiet; eauto.
  - intros. by eapply readers_read_step.
Qed.

(** ** Running a schedule *)

(** What the scheduler decides next: that goroutine [t] calls [op], or that
    [t] does its next step. *)
Inductive choice : Type := Call (t : nat) (op : Op) | Go (t : nat).

Definition insideb (th : thread S Op Res) : bool :=
  match th with Inside _ _ => true | _ => false end.
Definition writerb (th : thread S Op Res) : bool :=
  match th with
  | Inside op _ => match mode op with Lock => true | RLock => false end
  | _ => false
  end.
Definition may_enterb (md : lockMode) ts : bool :=
  forallb (fun q => negb (match md with Lock => insideb q.2 | RLock => writerb q.2 end))
    (map_to_list ts).

Definition play1 (ch : choice) c : option (option (label Op Res) * conf S Op Res) :=
  match ch with
  | Call t op =>
    match threads c !! t with
    | None => Some (Some (Invoke t op), MkConf (shared c) (<[t := Called op]> (threads c)))
    | Some _ => None
    end
  | Go t =>
    match threads c !! t with
    | None => None
    | Some (Called op) =>
      if may_enterb (mode op) (threads c)
      then Some (None, MkConf (shared c) (<[t := Inside op (body op)]> (threads c)))
      else None
    | Some (Inside op (Ret r)) =>
      Some (None, MkConf (shared c) (<[t := Returned op r]> (threads c)))
    | Some (Inside op (Access g k)) =>
      Some (None, MkConf (g (shared c)) (<[t := Inside op (k (shared c))]> (threads c)))
    | Some (Returned op r) => Some (Some (Result t op r), MkConf (shared c) (delete t (threads c)))
    end
  end.

(** A schedule, as long as all states are [ok]. *)
Fixpoint play (ok : conf S Op Res -> bool) (chs : list choice) c
  : option (list (label Op Res) * conf S Op Res) :=
  if ok c then
    match chs with
    | [] => Some ([], c)
    | ch :: chs' =>
      match play1 ch c with
      | None => None
      | Some (l, c') =>
        match play ok chs' c' with
        | None => None
        | Some (tr, c'') => Some (option_list l ++ tr, c'')
        end
      end
    end
  else None.

Lemma may_enterb_true md ts : may_enterb md ts = true -> may_enter md ts.
Proof.
  unfold may_enterb. rewrite forallb_forall. intros Hall.
  assert (H : forall t th, ts !! t = Some th ->
    match md with Lock => insideb th | RLock => writerb th end = false).
  { intros t th Ht%elem_of_map_to_list. apply list_elem_of_In in Ht.
    apply Hall in Ht. by apply negb_true_iff in Ht. }
  destruct md; intros t th Ht; specialize (H t th Ht); destruct th as [op|op p|op r];
    simpl in *; try tauto; try discriminate.
  by destruct (mode op).
Qed.

Lemma play1_step ch c l c' : play1 ch c = Some (l, c') -> step c l c'.
Proof.
  destruct c as [s ts]. destruct ch as [t op|t]; simpl; destruct (ts !! t) as [th|] eqn:E; try done.
  - intros [= <- <-]. by constructor.
  - destruct th as [op|op [r|g k]|op r]; intros H.
    + destruct (may_enterb _ _) eqn:Hm; [|done]. injection H as <- <-.
      constructor; [done|]. by apply may_enterb_true.
    + injection H as <- <-. by constructor.
    + injection H as <- <-. by apply (step_access s ts t op g k).
    + injection H as <- <-. by constructor.
Qed.

(** A schedule that runs is an execution. *)
Lemma play_exec (P : conf S Op Res -> Prop) ok chs :
  (forall c, ok c = true -> P c) ->
  forall c tr c', play ok chs c = Some (tr, c') -> exec P c tr c'.
Proof.
  intros Hok. induction chs as [|ch chs IH]; intros c tr c' H; simpl in H;
    destruct (ok c) eqn:E; try done.
  - injection H as <- <-. constructor. auto.
  - destruct (play1 ch c) as [[l c1]|] eqn:E1; [|done].
    destruct (play ok chs c1) as [[tr1 c2]|] eqn:E2; [|done]. injection H as <- <-.
    eapply exec_cons; [auto|by eapply play1_step|by apply IH].
Qed.

(** ** Calls end

    A step that is not a new call brings one goroutine closer to its return,
    and there is one as long as somebody is in a call. *)

Inductive nearer : thread S Op Res -> thread S Op Res -> Prop :=
| nearer_enter op : nearer (Inside op (body op)) (Called op)
| nearer_access op g k s : nearer (Inside op (k s)) (Inside op (Access g k))
| nearer_leave op r : nearer (Returned op r) (Inside op (Ret r)).

Lemma nearer_wf th : Acc nearer th.
Proof.
  assert (Hret : forall op r, Acc nearer (Returned op r)) by (intros; constructor; by inversion 1).
  assert (Hin : forall op p, Acc nearer (Inside op p)).
  { intros op p. induction p as [r|g k IH]; constructor; intros th' H; inversion H; subst; auto. }
  destruct th; [|auto..]. constructor. intros th' H. inversion H; subst. auto.
Qed.

(** One goroutine comes nearer, or returns. *)
Inductive shrinks : gmap nat (thread S Op Res) -> gmap nat (thread S Op Res) -> Prop :=
| shrinks_move ts t th th' : ts !! t = Some th -> nearer th' th -> shrinks (<[t := th']> ts) ts
| shrinks_out ts t th : ts !! t = Some th -> shrinks (delete t ts) ts.

Lemma shrinks_insert ts t :
  Acc shrinks ts -> ts !! t = None -> forall th, Acc nearer th -> Acc shrinks (<[t := th]> ts).
Proof.
  intros Hts. induction Hts as [ts Hts IHts]. intros Ht th Hth.
  induction Hth as [th Hth IHth]. constructor. intros ts' Hs. inversion Hs as [? t' th1 th2 Hl Hn|? t' th1 Hl]; subst.
  - destruct (decide (t' = t)) as [->|Hne].
    + rewrite lookup_insert_eq in Hl. simplify_eq. rewrite insert_insert_eq. auto.
    + rewrite lookup_insert_ne in Hl by done. rewrite insert_insert_ne by done.
      apply IHts; [by econstructor|by rewrite lookup_insert_ne|by constructor].
  - destruct (decide (t' = t)) as [->|Hne].
    + rewrite delete_insert_id by done. by constructor.
    + rewrite lookup_insert_ne in Hl by done. rewrite delete_insert_ne by done.
      apply IHts; [by econstructor|by rewrite lookup_delete_ne|by constructor].
Qed.

Lemma shrinks_wf ts : Acc shrinks ts.
Proof.
  induction ts as [|t th ts Ht IH] using map_ind.
  - constructor. intros ts' H. inversion H; subst; by rewrite lookup_empty in *.
  - by apply shrinks_insert; [| |apply nearer_wf].
Qed.

(** A step, and not a new call. *)
Definition proceeds c' c : Prop :=
  exists l, step c l c' /\ match l with Some (Invoke _ _) => False | _ => True end.

Lemma proceeds_shrinks c' c : proceeds c' c -> shrinks (threads c') (threads c).
Proof.
  intros (l & Hs & Hl). step_cases Hs;
    [done|..]; simpl; by eauto using shrinks, nearer.
Qed.

(** Without new calls every execution ends. *)
Lemma calls_end c : Acc proceeds c.
Proof.
  pose proof (shrinks_wf (threads c)) as Ha. remember (threads c) as ts eqn:E.
  revert c E. induction Ha as [ts _ IH]; intros c ->. constructor. intros c' Hp.
  eapply IH; [by apply proceeds_shrinks|done].
Qed.

(** Somebody in a call can go on. *)
Lemma no_deadlock c : threads c <> ∅ -> exists c', proceeds c' c.
Proof.
  destruct c as [s ts]. simpl. intros Hne.
  destruct (decide (Exists (fun q => insideb q.2 = true) (map_to_list ts))) as [Hin|Hout].
  - apply Exists_exists in Hin as ([t th] & Hin & Hb). apply elem_of_map_to_list in Hin. simpl in Hb.
    destruct th as [op|op [r|g k]|op r]; try done.
    + eexists _, None. split; [by apply (step_leave s ts t op r)|done].
    + eexists _, None. split; [by apply (step_access s ts t op g k)|done].
  - assert (Hfree : forall t th, ts !! t = Some th -> ~ is_inside th).
    { intros t th Ht Hi. apply Hout, Exists_exists. exists (t, th).
      split; [by apply elem_of_map_to_list|]. by destruct th. }
    destruct (map_choose ts Hne) as (t & th & Ht). destruct th as [op|op p|op r].
    + eexists _, None. split; [|done]. apply (step_enter s ts t op); [done|].
      destruct (mode op); simpl; [|done]. intros t' th' Ht' Hw. apply (Hfree t' th' Ht').
      by destruct th'.
    + by destruct (Hfree _ _ Ht).
    + eexists _, (Some _). split; [by apply (step_return s ts t op r)|done].
Qed.

(** At most one goroutine inside. *)
Definition one_inside c : bool :=
  let l := map_to_list (threads c) in
  forallb (fun q1 => forallb (fun q2 =>
    negb (insideb q1.2 && insideb q2.2) || bool_decide (q1.1 = q2.1)) l) l.

Lemma one_inside_apart c : one_inside c = true -> readers_apart c.
Proof.
  unfold one_inside. rewrite forallb_forall. intros H t1 t2 op1 op2 p1 p2 Hne H1 H2 _ _. exfalso.
  apply elem_of_map_to_list, list_elem_of_In in H1, H2.
  specialize (H _ H1). rewrite forallb_forall in H. specialize (H _ H2). simpl in H.
  by rewrite bool_decide_eq_true in H.
Qed.
End Machine.
