(* ===== verification/MemoryCache.v ===== *)
(** * cache/memory.go: the in-memory LRU cache

    [Memory] keeps a map from keys to elements of a container/list, ordered
    from the most to the least recently used entry.  Elements are pointers:
    the model allocates them from a counter ([next]) in a heap [elems] that
    holds each element's [Value] field, and both [items] and [evictList] hold
    element pointers, so the coherence of the two structures is a theorem and
    not a consequence of the representation.

    The stored [[]byte] is never read, copied or written by the cache: the
    model keeps it as an abstract value of type [V] (a slice header).  Times
    are nanoseconds; each call receives the value its time.Now() returns.

    This file takes every exported operation and every cleanup as one step.
    CacheRace.v has the goroutines, the lock and the single field accesses, and
    says in which executions that is what callers see: Get writes to the list
    under the read lock, so not in all of them. *)

From stdpp Require Import base option list gmap strings sorting.
From Stdlib Require Import ZArith Lia.
From S2P Require Import Prelude GoErrors CommonErrors.

Open Scope Z_scope.

(** ** State *)

Record memoryEntry (V : Type) : Type := MkEntry {
  key : string;
  value : V;
  expiresAt : Z
}.
Arguments MkEntry {V} _ _ _.
Arguments key {V} _.
Arguments value {V} _.
Arguments expiresAt {V} _.

(** The dynamic type of a list element's [Value any] field: a [*memoryEntry],
    or anything else. *)
Inductive elementValue (V : Type) : Type :=
| EntryValue (e : memoryEntry V)
| OtherValue.
Arguments EntryValue {V} e.
Arguments OtherValue {V}.

Record Memory (V : Type) : Type := MkMemory {
  items : gmap string nat;
  evictList : list nat;
  elems : gmap nat (elementValue V);
  next : nat;
  maxSize : Z;
  stopClosed : bool
}.
Arguments MkMemory {V} _ _ _ _ _ _.
Arguments items {V} _.
Arguments evictList {V} _.
Arguments elems {V} _.
Arguments next {V} _.
Arguments maxSize {V} _.
Arguments stopClosed {V} _.

Definition ErrCacheMiss : error := Sentinel "cache miss".

Section Ops.
Context {V : Type}.
Implicit Types m : Memory V.

Definition with_items m (x : gmap string nat) : Memory V :=
  MkMemory x (evictList m) (elems m) (next m) (maxSize m) (stopClosed m).
Definition with_evictList m (x : list nat) : Memory V :=
  MkMemory (items m) x (elems m) (next m) (maxSize m) (stopClosed m).
Definition with_elems m (x : gmap nat (elementValue V)) : Memory V :=
  MkMemory (items m) (evictList m) x (next m) (maxSize m) (stopClosed m).

(** ** container/list, as far as the cache uses it *)

(** List.MoveToFront: nothing happens when the element is not of this list. *)
Definition MoveToFront m (elem : nat) : Memory V :=
  if decide (elem ∈ evictList m)
  then with_evictList m (elem :: remove_first elem (evictList m))
  else m.

(** List.Remove. *)
Definition ListRemove m (elem : nat) : Memory V :=
  with_evictList m (remove_first elem (evictList m)).

(** List.PushFront allocates a new element. *)
Definition PushFront m (v : elementValue V) : nat * Memory V :=
  (next m,
   MkMemory (items m) (next m :: evictList m) (<[next m := v]> (elems m))
            (S (next m)) (maxSize m) (stopClosed m)).

(** List.Back: the last element, or nil. *)
Definition Back m : option nat := last (evictList m).

(** ** The operations *)

Definition toMemoryEntry m (elem : nat) : gores (memoryEntry V) :=
  match elems m !! elem with
  | Some (EntryValue e) => Ok e
  | _ => Err (ctxerrors.WrapE ErrInvalidValue "unexpected element type in cache list")
  end.

Definition NewMemory (maxEntries : Z) : Memory V :=
  MkMemory ∅ [] ∅ 0 maxEntries false.

Definition Get (now : Z) (k : string) m : gores V * Memory V :=
  match items m !! k with
  | None => (Err ErrCacheMiss, m)
  | Some elem =>
    match toMemoryEntry m elem with
    | Err e => (Err e, m)
    | Ok entry =>
      if expiresAt entry <? now then (Err ErrCacheMiss, m)
      else (Ok (value entry), MoveToFront m elem)
    end
  end.

Definition removeElement (elem : nat) m : option error * Memory V :=
  let m1 := ListRemove m elem in
  match toMemoryEntry m1 elem with
  | Err e => (Some e, m1)
  | Ok entry => (None, with_items m1 (delete (key entry) (items m1)))
  end.

Definition evictOldest m : option error * Memory V :=
  match Back m with
  | None => (None, m)
  | Some elem => removeElement elem m
  end.

(** The loop of Set that makes room.  [None]: still running when the fuel is
    spent. *)
Fixpoint evictLoop (fuel : nat) m : option (option error * Memory V) :=
  match fuel with
  | O => None
  | S fuel' =>
    if maxSize m <=? Z.of_nat (length (evictList m))
    then match evictOldest m with
         | (Some e, m') => Some (Some e, m')
         | (None, m') => evictLoop fuel' m'
         end
    else Some (None, m)
  end.

Definition Set_ (fuel : nat) (now : Z) (k : string) (val : V) (ttl : Z) m
  : option (option error * Memory V) :=
  match items m !! k with
  | Some elem =>
    let m1 := MoveToFront m elem in
    match toMemoryEntry m1 elem with
    | Err e => Some (Some e, m1)
    | Ok entry =>
      Some (None, with_elems m1
                    (<[elem := EntryValue (MkEntry (key entry) val (now + ttl))]> (elems m1)))
    end
  | None =>
    match evictLoop fuel m with
    | None => None
    | Some (Some e, m1) => Some (Some e, m1)
    | Some (None, m1) =>
      let '(elem, m2) := PushFront m1 (EntryValue (MkEntry k val (now + ttl))) in
      Some (None, with_items m2 (<[k := elem]> (items m2)))
    end
  end.

Definition Delete (k : string) m : option error * Memory V :=
  match items m !! k with
  | None => (None, m)
  | Some elem => removeElement elem m
  end.

(** Closing the stop channel twice panics: [None]. *)
Definition Close m : option (Memory V) :=
  if stopClosed m then None
  else Some (MkMemory (items m) (evictList m) (elems m) (next m) (maxSize m) true).

(** The cleanup loop's body.  Go iterates a map in an unspecified order and
    only the entry just visited is deleted, so the iteration runs over the
    entries the map had at the start, in some order. *)
Fixpoint removeExpired (now : Z) (order : list (string * nat)) m : Memory V :=
  match order with
  | [] => m
  | (_, elem) :: rest =>
    match toMemoryEntry m elem with
    | Err _ => removeExpired now rest m
    | Ok entry =>
      if expiresAt entry <? now
      then removeExpired now rest (snd (removeElement elem m))
      else removeExpired now rest m
    end
  end.
End Ops.

(** ** What the cache promises: an LRU list of entries

    The abstract state is the list of live entries, most recently used first,
    with pairwise different keys. *)

Section Spec.
Context {V : Type}.
Implicit Types l : list (memoryEntry V).

Definition expired (now : Z) (x : memoryEntry V) : bool := expiresAt x <? now.

Definition lru_find (k : string) l : option (memoryEntry V) :=
  head (filter (fun x => key x = k) l).

Definition lru_without (k : string) l : list (memoryEntry V) :=
  filter (fun x => key x <> k) l.

Definition lru_get (now : Z) (k : string) l : gores V * list (memoryEntry V) :=
  match lru_find k l with
  | None => (Err ErrCacheMiss, l)
  | Some x => if expired now x then (Err ErrCacheMiss, l)
              else (Ok (value x), x :: lru_without k l)
  end.

Definition lru_set (cap : nat) (now : Z) (k : string) (v : V) (ttl : Z) l
  : list (memoryEntry V) :=
  match lru_find k l with
  | Some _ => MkEntry k v (now + ttl) :: lru_without k l
  | None => MkEntry k v (now + ttl) :: take (cap - 1) l
  end.

Definition lru_delete (k : string) l : list (memoryEntry V) := lru_without k l.

Definition lru_expire (now : Z) l : list (memoryEntry V) :=
  filter (fun x => expired now x = false) l.

Lemma lru_find_Some k l x : lru_find k l = Some x -> x ∈ l /\ key x = k.
Proof.
  unfold lru_find. intros H. apply head_Some_elem_of in H.
  apply list_elem_of_filter in H as [? ?]. done.
Qed.

Lemma lru_find_None k l : lru_find k l = None <-> forall x, x ∈ l -> key x <> k.
Proof.
  unfold lru_find. rewrite head_None. split.
  - intros H x Hx Hk. assert (x ∈ filter (fun x => key x = k) l) as Hin.
    { apply list_elem_of_filter. done. }
    rewrite H in Hin. by apply not_elem_of_nil in Hin.
  - intros H. destruct (filter _ l) as [|x r] eqn:E; [done|].
    assert (x ∈ filter (fun x => key x = k) l) as Hin by (rewrite E; constructor).
    apply list_elem_of_filter in Hin as [Hk Hx]. exfalso. by eapply H.
Qed.

(** With different keys there is one entry to find. *)
Lemma lru_find_elem k l x :
  NoDup (key <$> l) -> x ∈ l -> key x = k -> lru_find k l = Some x.
Proof.
  intros Hnd Hx Hk. destruct (lru_find k l) as [y|] eqn:E.
  - apply lru_find_Some in E as [Hy Hyk]. f_equal.
    apply list_elem_of_lookup in Hx as [i Hi]. apply list_elem_of_lookup in Hy as [j Hj].
    assert (i = j) as ->; [|congruence].
    eapply (NoDup_lookup (key <$> l)); [done| |].
    + rewrite list_lookup_fmap, Hi. simpl. by rewrite Hk.
    + rewrite list_lookup_fmap, Hj. simpl. by rewrite Hyk.
  - exfalso. pose proof (proj1 (lru_find_None k l) E x Hx). done.
Qed.
End Spec.

(** ** The representation invariant

    [repr m p]: [p] lists the elements of the eviction list with their
    entries, and [items] maps exactly the keys of those entries to them. *)

Section Refinement.
Context {V : Type}.
Implicit Types (m : Memory V) (p : list (nat * memoryEntry V)).

Record repr m p : Prop := {
  repr_list : evictList m = p.*1;
  repr_nodup : NoDup (p.*1);
  repr_elems : forall e x, (e, x) ∈ p -> elems m !! e = Some (EntryValue x) /\ (e < next m)%nat;
  repr_items : forall k e, items m !! k = Some e <-> exists x, (e, x) ∈ p /\ key x = k
}.

Lemma repr_fst_inj p e x y : NoDup (p.*1) -> (e, x) ∈ p -> (e, y) ∈ p -> x = y.
Proof.
  intros Hnd Hx Hy. apply list_elem_of_lookup in Hx as [i Hi].
  apply list_elem_of_lookup in Hy as [j Hj].
  assert (i = j) as ->; [|congruence].
  eapply (NoDup_lookup (p.*1)); [done| |]; by rewrite list_lookup_fmap, ?Hi, ?Hj.
Qed.

Lemma repr_key_inj m p e x e' x' :
  repr m p -> (e, x) ∈ p -> (e', x') ∈ p -> key x = key x' -> e = e'.
Proof.
  intros R H H' Hk.
  assert (items m !! key x = Some e) as E1 by (apply (repr_items _ _ R); eauto).
  assert (items m !! key x = Some e') as E2 by (apply (repr_items _ _ R); eauto).
  congruence.
Qed.

(** Entries of the list have pairwise different keys. *)
Lemma repr_keys m p : repr m p -> NoDup (key <$> p.*2).
Proof.
  intros R. apply NoDup_alt. intros i j k Hi Hj.
  rewrite !list_lookup_fmap in Hi, Hj.
  destruct (p !! i) as [[e x]|] eqn:Ei; [|done].
  destruct (p !! j) as [[e' x']|] eqn:Ej; [|done]. simpl in *. simplify_eq.
  assert (e = e') as <-.
  { eapply (repr_key_inj m p e x e' x'); eauto using list_elem_of_lookup_2. }
  eapply (NoDup_lookup (p.*1)); [apply R| |]; by rewrite list_lookup_fmap, ?Ei, ?Ej.
Qed.

Lemma repr_toMemoryEntry m p e x : repr m p -> (e, x) ∈ p -> toMemoryEntry m e = Ok x.
Proof.
  intros R H. unfold toMemoryEntry. by rewrite (proj1 (repr_elems _ _ R _ _ H)).
Qed.

(** [items] answers exactly when the abstract list has the key. *)
Lemma repr_lookup_None m p k : repr m p -> items m !! k = None -> lru_find k p.*2 = None.
Proof.
  intros R Hk. apply lru_find_None. intros x Hx Hkx.
  apply list_elem_of_fmap in Hx as [[e y] [-> He]]. simpl in *.
  assert (items m !! k = Some e) as E by (apply (repr_items _ _ R); eauto). congruence.
Qed.

Lemma repr_lookup_Some m p k e :
  repr m p -> items m !! k = Some e ->
  exists x, (e, x) ∈ p /\ key x = k /\ lru_find k p.*2 = Some x.
Proof.
  intros R Hk. apply (repr_items _ _ R) in Hk as (x & Hx & Hkx).
  exists x. repeat split; [done..|].
  apply lru_find_elem; [by eapply repr_keys| |done].
  apply list_elem_of_fmap. by exists (e, x).
Qed.

(** Dropping an element of the list is dropping its key. *)
Definition drop_elem (e : nat) p : list (nat * memoryEntry V) := filter (fun q => q.1 <> e) p.

Lemma drop_elem_fst e p : NoDup (p.*1) -> (drop_elem e p).*1 = remove_first e p.*1.
Proof.
  intros Hnd. rewrite remove_first_filter by done. symmetry. by apply filter_fmap_in.
Qed.

Lemma drop_elem_snd m p e x :
  repr m p -> (e, x) ∈ p -> (drop_elem e p).*2 = lru_without (key x) p.*2.
Proof.
  intros R Hx. symmetry. apply filter_fmap_in. intros [e' x'] Hx'. simpl.
  pose proof (repr_key_inj m p e x e' x' R Hx Hx').
  pose proof (repr_fst_inj p e x x' (repr_nodup _ _ R) Hx). naive_solver.
Qed.

Lemma drop_elem_in e p q : q ∈ drop_elem e p <-> q.1 <> e /\ q ∈ p.
Proof. unfold drop_elem. by rewrite list_elem_of_filter. Qed.

Lemma drop_elem_nodup e p : NoDup (p.*1) -> NoDup ((drop_elem e p).*1).
Proof. intros H. rewrite drop_elem_fst by done. auto with go. Qed.

(** *** Each pointer operation on a represented state *)

Lemma repr_MoveToFront m p e x :
  repr m p -> (e, x) ∈ p -> repr (MoveToFront m e) ((e, x) :: drop_elem e p).
Proof.
  intros R Hx.
  assert (e ∈ evictList m) as He.
  { rewrite (repr_list _ _ R). apply list_elem_of_fmap. by exists (e, x). }
  unfold MoveToFront. rewrite decide_True by done.
  assert (Hin : forall q, q ∈ (e, x) :: drop_elem e p <-> q ∈ p).
  { intros [e' x']. rewrite elem_of_cons, drop_elem_in. simpl.
    pose proof (repr_fst_inj p e x x' (repr_nodup _ _ R) Hx).
    destruct (decide (e' = e)); naive_solver. }
  constructor; simpl.
  - by rewrite drop_elem_fst, (repr_list _ _ R) by apply R.
  - constructor; [|by apply drop_elem_nodup, R].
    rewrite list_elem_of_fmap. intros ([? ?] & -> & Hd). by apply drop_elem_in in Hd as [? _].
  - intros e' x' Hq. apply Hin in Hq. by apply R.
  - intros k e'. rewrite (repr_items _ _ R). by setoid_rewrite Hin.
Qed.

Lemma repr_removeElement m p e x :
  repr m p -> (e, x) ∈ p ->
  exists m', removeElement e m = (None, m') /\ repr m' (drop_elem e p) /\
             maxSize m' = maxSize m /\ stopClosed m' = stopClosed m.
Proof.
  intros R Hx. unfold removeElement.
  assert (toMemoryEntry (ListRemove m e) e = Ok x) as ->.
  { pose proof (repr_toMemoryEntry _ _ _ _ R Hx). done. }
  eexists. split; [done|]. split; [|done]. constructor; simpl.
  - by rewrite drop_elem_fst, (repr_list _ _ R) by apply R.
  - by apply drop_elem_nodup, R.
  - intros e' x' Hq. apply drop_elem_in in Hq as [_ Hq]. by apply R.
  - intros k e'. setoid_rewrite drop_elem_in. simpl.
    rewrite lookup_delete. case_decide as Hk.
    + subst. split; [done|]. intros (x' & [Hne Hx'] & Hk').
      exfalso. apply Hne. by eapply repr_key_inj.
    + rewrite (repr_items _ _ R). split; intros (x' & Hx'); exists x'; [|naive_solver].
      destruct Hx' as [Hx' ?]. repeat split; [|done..]. intros ->.
      assert (x' = x) as -> by (eapply repr_fst_inj; [apply R|..]; done). done.
Qed.

Lemma repr_PushFront m p k v t :
  repr m p -> items m !! k = None ->
  let '(e, m2) := PushFront m (EntryValue (MkEntry k v t)) in
  repr (with_items m2 (<[k := e]> (items m2))) ((e, MkEntry k v t) :: p).
Proof.
  intros R Hk. simpl. constructor; simpl.
  - by rewrite (repr_list _ _ R).
  - constructor; [|apply R]. intros Hin. apply list_elem_of_fmap in Hin as ([e x] & Hn & He).
    apply (repr_elems _ _ R) in He as [_ He]. simpl in *. lia.
  - intros e x Hq. apply elem_of_cons in Hq as [Hq|Hq].
    + simplify_eq. rewrite lookup_insert_eq. split; [done|lia].
    + apply (repr_elems _ _ R) in Hq as [Hq Hlt]. rewrite lookup_insert_ne by lia. split; [done|lia].
  - intros k' e. rewrite lookup_insert. setoid_rewrite elem_of_cons. case_decide as Hkk.
    + subst k'. split.
      * intros [= <-]. eexists. split; [by left|done].
      * intros (x & [Hx|Hx] & Hkx); [by simplify_eq|].
        assert (items m !! k = Some e) by (apply (repr_items _ _ R); eauto). congruence.
    + rewrite (repr_items _ _ R). split; intros (x & Hx); exists x; naive_solver.
Qed.

Lemma repr_update m p e x v t :
  repr m ((e, x) :: p) ->
  repr (with_elems m (<[e := EntryValue (MkEntry (key x) v t)]> (elems m)))
       ((e, MkEntry (key x) v t) :: p).
Proof.
  intros R. pose proof (repr_nodup _ _ R) as Hnd. apply NoDup_cons in Hnd as [Hne Hnd].
  constructor; simpl.
  - apply R.
  - by constructor.
  - intros e' x' Hq. apply elem_of_cons in Hq as [Hq|Hq].
    + simplify_eq. rewrite lookup_insert_eq. split; [done|].
      eapply (repr_elems _ _ R). by left.
    + rewrite lookup_insert_ne.
      * apply (repr_elems _ _ R). by right.
      * intros ->. apply Hne, list_elem_of_fmap. by exists (e', x').
  - intros k e'. rewrite (repr_items _ _ R). setoid_rewrite elem_of_cons.
    split; intros (x' & [Hx'|Hx'] & Hk); simplify_eq; eauto.
Qed.

(** *** The eviction loop *)

Lemma drop_elem_last p e x : NoDup ((p ++ [(e, x)]).*1) -> drop_elem e (p ++ [(e, x)]) = p.
Proof.
  rewrite fmap_app. intros Hnd. apply NoDup_app in Hnd as (_ & Hd & _).
  unfold drop_elem. rewrite filter_app, filter_cons_False, app_nil_r by (simpl; tauto).
  apply filter_all. intros [e' x'] Hin. simpl. intros ->. apply (Hd e); [|by left].
  apply list_elem_of_fmap. by exists (e, x').
Qed.

Lemma evictOldest_repr m p e x :
  repr m (p ++ [(e, x)]) ->
  exists m', evictOldest m = (None, m') /\ repr m' p /\
             maxSize m' = maxSize m /\ stopClosed m' = stopClosed m.
Proof.
  intros R. unfold evictOldest, Back.
  rewrite (repr_list _ _ R), fmap_app, last_app. simpl.
  destruct (repr_removeElement m _ e x R ltac:(set_solver)) as (m' & -> & R' & ?).
  rewrite drop_elem_last in R' by apply R. eauto.
Qed.

Lemma evictLoop_repr fuel : forall m p,
  repr m p -> 1 <= maxSize m -> (length p < fuel)%nat ->
  exists m', evictLoop fuel m = Some (None, m') /\
             repr m' (take (Z.to_nat (maxSize m) - 1) p) /\
             maxSize m' = maxSize m /\ stopClosed m' = stopClosed m.
Proof.
  induction fuel as [|fuel IH]; intros m p R Hmax Hfuel; [lia|]. simpl.
  rewrite (repr_list _ _ R), length_fmap.
  destruct (Z.leb_spec (maxSize m) (Z.of_nat (length p))) as [Hle|Hgt].
  - destruct p as [|[e x] p _] using rev_ind; [simpl in *; lia|].
    rewrite length_app in *. simpl in *.
    destruct (evictOldest_repr m p e x R) as (m' & -> & R' & Hm & Hs).
    destruct (IH m' p R' ltac:(lia) ltac:(lia)) as (m'' & E & R'' & ? & ?).
    exists m''. rewrite Hm in *. rewrite take_app_le by lia.
    rewrite <- Hs. done.
  - exists m. rewrite take_ge by lia. done.
Qed.

(** Without room for a single entry the loop never ends. *)
Lemma evictLoop_spins fuel : forall m p,
  repr m p -> maxSize m <= 0 -> evictLoop fuel m = None.
Proof.
  induction fuel as [|fuel IH]; intros m p R Hmax; [done|]. simpl.
  destruct (Z.leb_spec (maxSize m) (Z.of_nat (length (evictList m)))); [|lia].
  destruct p as [|[e x] p _] using rev_ind.
  - unfold evictOldest, Back. rewrite (repr_list _ _ R). simpl. by eapply IH.
  - destruct (evictOldest_repr m p e x R) as (m' & -> & R' & Hm & _).
    eapply IH; [done|lia].
Qed.

(** ** Refinement: every operation implements its LRU counterpart *)

Definition models m (l : list (memoryEntry V)) : Prop := exists p, repr m p /\ l = p.*2.

Lemma models_NewMemory n : models (NewMemory n) [].
Proof.
  exists []. split; [|done]. constructor; simpl; [done|constructor|..].
  - intros e x H. by apply not_elem_of_nil in H.
  - intros k e. rewrite lookup_empty. split; [done|]. intros (x & H & _).
    by apply not_elem_of_nil in H.
Qed.

Lemma models_keys m l : models m l -> NoDup (key <$> l).
Proof. intros (p & R & ->). by eapply repr_keys. Qed.

Lemma MoveToFront_maxSize m e : maxSize (MoveToFront m e) = maxSize m.
Proof. unfold MoveToFront. by case_decide. Qed.

Lemma Get_models m l now k :
  models m l ->
  (Get now k m).1 = (lru_get now k l).1 /\
  models (Get now k m).2 (lru_get now k l).2 /\
  maxSize (Get now k m).2 = maxSize m.
Proof.
  intros (p & R & ->). unfold Get, lru_get.
  destruct (items m !! k) as [e|] eqn:Hk.
  - destruct (repr_lookup_Some _ _ _ _ R Hk) as (x & Hx & Hkx & ->).
    rewrite (repr_toMemoryEntry _ _ _ _ R Hx). unfold expired.
    destruct (expiresAt x <? now); simpl.
    + repeat split. by exists p.
    + rewrite MoveToFront_maxSize. repeat split. eexists.
      split; [by apply repr_MoveToFront|]. simpl. subst k. by erewrite drop_elem_snd.
  - rewrite (repr_lookup_None _ _ _ R Hk). repeat split. by exists p.
Qed.

Lemma Set_models m l fuel now k v ttl :
  models m l -> 1 <= maxSize m -> (length l < fuel)%nat ->
  exists m', Set_ fuel now k v ttl m = Some (None, m') /\
             models m' (lru_set (Z.to_nat (maxSize m)) now k v ttl l) /\
             maxSize m' = maxSize m.
Proof.
  intros (p & R & ->) Hmax Hfuel. rewrite length_fmap in Hfuel. unfold Set_, lru_set.
  destruct (items m !! k) as [e|] eqn:Hk.
  - destruct (repr_lookup_Some _ _ _ _ R Hk) as (x & Hx & Hkx & ->).
    pose proof (repr_MoveToFront _ _ _ _ R Hx) as R1.
    rewrite (repr_toMemoryEntry _ _ e x R1) by by left.
    eexists. split; [done|]. split; [|apply MoveToFront_maxSize].
    eexists. split; [by apply repr_update|]. subst k. simpl. by erewrite drop_elem_snd.
  - rewrite (repr_lookup_None _ _ _ R Hk).
    destruct (evictLoop_repr fuel m p R Hmax Hfuel) as (m1 & -> & R1 & Hm1 & _).
    assert (items m1 !! k = None) as Hk1.
    { destruct (items m1 !! k) as [e|] eqn:E; [|done].
      destruct (repr_lookup_Some _ _ _ _ R1 E) as (x & Hx & Hkx & _).
      exfalso. eapply (proj1 (lru_find_None k p.*2)); [by eapply repr_lookup_None| |done].
      apply list_elem_of_fmap. exists (e, x). split; [done|].
      eapply elem_of_take in Hx as (i & Hi & _). by eapply list_elem_of_lookup_2. }
    pose proof (repr_PushFront m1 _ k v (now + ttl) R1 Hk1) as R2. simpl in *.
    eexists. split; [done|]. split; [|done].
    eexists. split; [exact R2|]. simpl. by rewrite fmap_take.
Qed.

Lemma Delete_models m l k :
  models m l ->
  (Delete k m).1 = None /\ models (Delete k m).2 (lru_delete k l) /\
  maxSize (Delete k m).2 = maxSize m.
Proof.
  intros (p & R & ->). unfold Delete, lru_delete.
  destruct (items m !! k) as [e|] eqn:Hk.
  - destruct (repr_lookup_Some _ _ _ _ R Hk) as (x & Hx & Hkx & _).
    destruct (repr_removeElement _ _ _ _ R Hx) as (m' & -> & R' & ? & ?).
    repeat split; [|done]. exists (drop_elem e p). split; [done|].
    subst k. by erewrite drop_elem_snd.
  - repeat split. exists p. split; [done|]. apply filter_all.
    intros x Hx. by eapply lru_find_None; [eapply repr_lookup_None|].
Qed.

(** The visiting order of the map does not matter: what remains is exactly
    what has not expired. *)
Lemma removeExpired_repr now order : forall m p,
  repr m p -> NoDup order.*2 ->
  (forall e, e ∈ order.*2 -> exists x, (e, x) ∈ p) ->
  repr (removeExpired now order m)
       (filter (fun q => ~ (q.1 ∈ order.*2 /\ expired now q.2 = true)) p) /\
  maxSize (removeExpired now order m) = maxSize m.
Proof.
  induction order as [|[k e] order IH]; intros m p R Hnd Hin; simpl in *.
  - rewrite filter_all; [done|]. intros q _ [H _]. by apply not_elem_of_nil in H.
  - apply NoDup_cons in Hnd as [Hne Hnd].
    destruct (Hin e ltac:(by left)) as [x Hx].
    rewrite (repr_toMemoryEntry _ _ _ _ R Hx).
    destruct (expiresAt x <? now) eqn:Hexp.
    + destruct (repr_removeElement _ _ _ _ R Hx) as (m' & -> & R' & Hm & _). simpl.
      destruct (IH m' _ R' Hnd) as [R2 Hm2].
      { intros e' He'. destruct (Hin e' ltac:(by right)) as [x' Hx'].
        exists x'. apply drop_elem_in. split; [|done]. simpl. by intros ->. }
      split; [|congruence]. unfold drop_elem in R2. rewrite list_filter_filter in R2.
      erewrite filter_in_ext; [exact R2|]. intros [e' x'] Hx'. simpl.
      rewrite elem_of_cons. destruct (decide (e' = e)) as [->|]; [|tauto].
      assert (x' = x) as -> by (eapply repr_fst_inj; [apply R|..]; done).
      unfold expired. rewrite Hexp. tauto.
    + destruct (IH m p R Hnd) as [R2 Hm2]; [intros; apply Hin; by right|].
      split; [|done]. erewrite filter_in_ext; [exact R2|]. intros [e' x'] Hx'. simpl.
      rewrite elem_of_cons. destruct (decide (e' = e)) as [->|]; [|tauto].
      assert (x' = x) as -> by (eapply repr_fst_inj; [apply R|..]; done).
      unfold expired. rewrite Hexp. naive_solver.
Qed.

Lemma removeExpired_models m l now order :
  models m l -> order ≡ₚ map_to_list (items m) ->
  models (removeExpired now order m) (lru_expire now l) /\
  maxSize (removeExpired now order m) = maxSize m.
Proof.
  intros (p & R & ->) Hperm.
  assert (Hin : forall k e, (k, e) ∈ order <-> items m !! k = Some e).
  { intros k e. by rewrite Hperm, elem_of_map_to_list. }
  assert (Hord : forall e, e ∈ order.*2 <-> exists x, (e, x) ∈ p).
  { intros e. rewrite list_elem_of_fmap. split.
    - intros ([k e'] & -> & Hk). apply Hin, (repr_items _ _ R) in Hk as (x & ? & _). eauto.
    - intros [x Hx]. exists (key x, e). split; [done|]. apply Hin, (repr_items _ _ R). eauto. }
  destruct (removeExpired_repr now order m p R) as [R2 Hm].
  - apply NoDup_fmap_2_strong; [|rewrite Hperm; apply NoDup_map_to_list].
    intros [k e] [k' e'] H1 H2 He. simpl in *. subst e'. apply Hin in H1, H2.
    apply (repr_items _ _ R) in H1 as (x & Hx & <-), H2 as (x' & Hx' & <-).
    assert (x = x') as -> by (eapply repr_fst_inj; [apply R|..]; done). done.
  - intros e He. by apply Hord.
  - split; [|done]. eexists. split; [exact R2|]. unfold lru_expire.
    apply filter_fmap_in. intros [e x] Hx. simpl. rewrite Hord.
    destruct (expired now x); [|naive_solver]. split; [|done].
    intros Hn. exfalso. apply Hn. eauto.
Qed.
End Refinement.

(** ** The cache as a transition system

    One step per action on the shared [Memory]: an exported call with
    what it returned, or a tick of the cleanup goroutine. *)

Inductive event (V : Type) : Type :=
| EGet (now : Z) (k : string) (r : gores V)
| ESet (now : Z) (k : string) (v : V) (ttl : Z) (err : option error)
| EDelete (k : string) (err : option error)
| ETick (now : Z)
| EClose.
Arguments EGet {V} _ _ _.
Arguments ESet {V} _ _ _ _ _.
Arguments EDelete {V} _ _.
Arguments ETick {V} _.
Arguments EClose {V}.

Section Runs.
Context {V : Type}.
Implicit Types (m : Memory V) (l : list (memoryEntry V)) (tr : list (event V)).

Inductive step : Memory V -> event V -> Memory V -> Prop :=
| step_get m now k r m' :
    Get now k m = (r, m') -> step m (EGet now k r) m'
| step_set m fuel now k v ttl err m' :
    Set_ fuel now k v ttl m = Some (err, m') -> step m (ESet now k v ttl err) m'
| step_delete m k err m' :
    Delete k m = (err, m') -> step m (EDelete k err) m'
| step_tick m now order :
    order ≡ₚ map_to_list (items m) -> step m (ETick now) (removeExpired now order m)
| step_close m m' :
    Close m = Some m' -> step m EClose m'.

Inductive steps : Memory V -> list (event V) -> Memory V -> Prop :=
| steps_nil m : steps m [] m
| steps_cons m ev m' tr m'' : step m ev m' -> steps m' tr m'' -> steps m (ev :: tr) m''.

(** The same actions on the abstract list, for a capacity [cap]. *)
Definition spec_step (cap : nat) l (ev : event V) : list (memoryEntry V) :=
  match ev with
  | EGet now k _ => (lru_get now k l).2
  | ESet now k v ttl _ => lru_set cap now k v ttl l
  | EDelete k _ => lru_delete k l
  | ETick now => lru_expire now l
  | EClose => l
  end.

(** What an LRU cache lets a client observe. *)
Definition spec_obs l (ev : event V) : Prop :=
  match ev with
  | EGet now k r => r = (lru_get now k l).1
  | ESet _ _ _ _ err => err = None
  | EDelete _ err => err = None
  | ETick _ | EClose => True
  end.

Fixpoint spec_steps (cap : nat) l tr : list (memoryEntry V) :=
  match tr with
  | [] => l
  | ev :: tr' => spec_steps cap (spec_step cap l ev) tr'
  end.

Fixpoint spec_trace (cap : nat) l tr : Prop :=
  match tr with
  | [] => True
  | ev :: tr' => spec_obs l ev /\ spec_trace cap (spec_step cap l ev) tr'
  end.

(** The loop needs no more than one turn per entry and one more. *)
Lemma evictLoop_enough (fuel fuel' : nat) : forall m r,
  evictLoop fuel m = Some r -> (fuel <= fuel')%nat -> evictLoop fuel' m = Some r.
Proof.
  revert fuel'. induction fuel as [|fuel IH]; intros [|fuel'] m r H Hle; try done; [lia|].
  simpl in *. destruct (maxSize m <=? _); [|done].
  destruct (evictOldest m) as [[e|] m']; [done|]. apply IH; [done|lia].
Qed.

Lemma Set_enough (fuel fuel' : nat) now k v ttl m r :
  Set_ fuel now k v ttl m = Some r -> (fuel <= fuel')%nat -> Set_ fuel' now k v ttl m = Some r.
Proof.
  unfold Set_. intros H Hle. destruct (items m !! k); [done|].
  destruct (evictLoop fuel m) as [r'|] eqn:E; [|done].
  by rewrite (evictLoop_enough _ _ _ _ E Hle).
Qed.

Lemma step_models m l ev m' :
  models m l -> 1 <= maxSize m -> step m ev m' ->
  spec_obs l ev /\ models m' (spec_step (Z.to_nat (maxSize m)) l ev) /\ maxSize m' = maxSize m.
Proof.
  intros M Hmax Hs. inv Hs; simpl.
  - destruct (Get_models _ _ now k M) as (Hr & M' & Hx). rewrite H in *. simpl in *. eauto.
  - destruct (Set_models m l (S (length l)) now k v ttl M Hmax ltac:(lia)) as (m2 & E & M' & Hx).
    assert (Some (err, m') = Some (None, m2)) as [= -> ->]; [|done].
    rewrite <- (Set_enough fuel (fuel + S (length l)) _ _ _ _ _ _ H ltac:(lia)).
    by rewrite (Set_enough (S (length l)) (fuel + S (length l)) _ _ _ _ _ _ E ltac:(lia)).
  - destruct (Delete_models _ _ k M) as (Hr & M' & Hx). rewrite H in *. simpl in *. eauto.
  - split; [done|]. by apply removeExpired_models.
  - unfold Close in H. destruct (stopClosed m); simplify_eq. split; [done|]. split; [|done].
    destruct M as (p & R & ->). exists p. split; [|done]. destruct R. by constructor.
Qed.

Lemma steps_models m l tr m' :
  models m l -> 1 <= maxSize m -> steps m tr m' ->
  spec_trace (Z.to_nat (maxSize m)) l tr /\
  models m' (spec_steps (Z.to_nat (maxSize m)) l tr) /\ maxSize m' = maxSize m.
Proof.
  intros M Hmax Hs. revert l M Hmax.
  induction Hs as [m|m ev m1 tr m2 H1 H2 IH]; intros l M Hmax; simpl; [done|].
  destruct (step_models _ _ _ _ M Hmax H1) as (Ho & M1 & Hx).
  destruct (IH _ M1 ltac:(lia)) as (Ht & M2 & Hx2). rewrite Hx in *. done.
Qed.

(** ** Size *)

Lemma lru_without_length k l : (length (lru_without k l) <= length l)%nat.
Proof. apply length_filter. Qed.

Lemma lru_without_find_length k l x :
  lru_find k l = Some x -> (length (lru_without k l) < length l)%nat.
Proof.
  intros [Hx Hk]%lru_find_Some.
  apply list_elem_of_split in Hx as (l1 & l2 & ->). unfold lru_without.
  rewrite filter_app, filter_cons_False, !length_app by (intros ?; done). simpl.
  pose proof (length_filter (fun x => key x <> k) l1).
  pose proof (length_filter (fun x => key x <> k) l2). lia.
Qed.

Lemma spec_step_bounded cap l ev :
  (1 <= cap)%nat -> (length l <= cap)%nat -> (length (spec_step cap l ev) <= cap)%nat.
Proof.
  intros Hc Hl. destruct ev; simpl; [| | | |done].
  - unfold lru_get. destruct (lru_find k l) as [x|] eqn:E; [|done].
    destruct (expired now x); simpl; [done|]. pose proof (lru_without_find_length _ _ _ E). lia.
  - unfold lru_set. destruct (lru_find k l) as [x|] eqn:E; simpl.
    + pose proof (lru_without_find_length _ _ _ E). lia.
    + rewrite length_take. lia.
  - pose proof (lru_without_length k l). unfold lru_delete. lia.
  - unfold lru_expire. pose proof (length_filter (fun x => expired now x = false) l). lia.
Qed.

Lemma spec_steps_bounded cap tr : forall l,
  (1 <= cap)%nat -> (length l <= cap)%nat -> (length (spec_steps cap l tr) <= cap)%nat.
Proof.
  induction tr as [|ev tr IH]; intros l Hc Hl; [done|]. simpl. by apply IH, spec_step_bounded.
Qed.

(** ** Retention

    [k]'s entry [x] stays in the list, preceded only by keys used since. *)

(** Other keys used by a trace: those it gets or sets. *)
Definition used (k : string) (ev : event V) : gset string :=
  match ev with
  | EGet _ k' _ | ESet _ k' _ _ _ => {[k']} ∖ {[k]}
  | _ => ∅
  end.

Fixpoint used_keys (k : string) tr : gset string :=
  match tr with [] => ∅ | ev :: tr' => used k ev ∪ used_keys k tr' end.

(** The event neither overwrites nor deletes [k], and no cleanup runs after
    [deadline]. *)
Definition keeps (k : string) (deadline : Z) (ev : event V) : Prop :=
  match ev with
  | ESet _ k' _ _ _ | EDelete k' _ => k' <> k
  | ETick now => now <= deadline
  | _ => True
  end.

Definition held (x : memoryEntry V) (D : gset string) l : Prop :=
  exists l1 l2, l = l1 ++ x :: l2 /\ (forall y, y ∈ l1 -> key y ∈ D).

Lemma held_without x D l k' :
  held x D l -> key x <> k' -> held x D (lru_without k' l).
Proof.
  intros (l1 & l2 & -> & H1) Hk. unfold lru_without.
  exists (filter (fun y => key y <> k') l1), (filter (fun y => key y <> k') l2).
  rewrite filter_app, filter_cons_True by done. split; [done|].
  intros y Hy. apply list_elem_of_filter in Hy as [_ ?]. auto.
Qed.

Lemma held_weaken x D D' l : held x D l -> D ⊆ D' -> held x D' l.
Proof. intros (l1 & l2 & -> & H1) HD. exists l1, l2. split; [done|]. set_solver. Qed.

Lemma held_cons x D l y : held x D l -> held x ({[key y]} ∪ D) (y :: l).
Proof.
  intros (l1 & l2 & -> & H1). exists (y :: l1), l2. split; [done|].
  intros z Hz. apply elem_of_cons in Hz as [->|Hz]; [set_solver|]. specialize (H1 _ Hz). set_solver.
Qed.

(** Few enough other keys ahead of it: the entry survives a truncation. *)
Lemma held_take x D l n :
  NoDup (key <$> l) -> held x D l -> (size D < n)%nat -> held x D (take n l).
Proof.
  intros Hnd (l1 & l2 & -> & H1) Hn.
  assert (length l1 <= size D)%nat as Hlen.
  { rewrite fmap_app in Hnd. apply NoDup_app in Hnd as (Hnd & _ & _).
    rewrite <- (length_fmap key), <- (size_list_to_set (C:=gset string)) by done.
    apply subseteq_size. intros k. rewrite elem_of_list_to_set, list_elem_of_fmap.
    intros (y & -> & Hy). auto. }
  rewrite take_app_ge by lia. replace (n - length l1)%nat with (S (n - length l1 - 1)) by lia.
  exists l1, (take (n - length l1 - 1) l2). done.
Qed.

Lemma spec_step_keys cap l ev : NoDup (key <$> l) -> NoDup (key <$> spec_step cap l ev).
Proof.
  assert (Hw : forall k, NoDup (key <$> l) -> NoDup (key <$> lru_without k l) /\
            k ∉ key <$> lru_without k l).
  { intros k Hnd. split.
    - eapply sublist_NoDup; [exact Hnd|]. apply fmap_sublist, sublist_filter.
    - rewrite list_elem_of_fmap. intros (y & -> & Hy).
      by apply list_elem_of_filter in Hy as [? _]. }
  intros Hnd. destruct ev; simpl; [| | |..|done].
  - unfold lru_get. destruct (lru_find k l) as [x|] eqn:E; [|done].
    destruct (expired now x); [done|]. simpl. apply lru_find_Some in E as [_ <-].
    constructor; by apply Hw.
  - unfold lru_set. destruct (lru_find k l) as [x|] eqn:E; simpl.
    + constructor; by apply Hw.
    + constructor; [|rewrite fmap_take; eapply sublist_NoDup; [done|apply sublist_take]].
      intros Hin. rewrite list_elem_of_fmap in Hin. destruct Hin as (y & -> & Hy).
      apply elem_of_take in Hy as (i & Hi & _).
      eapply lru_find_None; [exact E| |done]. by eapply list_elem_of_lookup_2.
  - by apply Hw.
  - eapply sublist_NoDup; [exact Hnd|]. apply fmap_sublist, sublist_filter.
Qed.

Lemma held_step cap l ev x D :
  NoDup (key <$> l) -> held x D l -> keeps (key x) (expiresAt x) ev ->
  (size (used (key x) ev ∪ D) < cap)%nat ->
  held x (used (key x) ev ∪ D) (spec_step cap l ev).
Proof.
  intros Hnd Hh Hk Hsz.
  assert (Hw : held x (used (key x) ev ∪ D) l) by (eapply held_weaken; [done|set_solver]).
  destruct ev; simpl in *; [| | | |done].
  - unfold lru_get. destruct (lru_find k l) as [y|] eqn:E; [|done].
    destruct (expired now y); [done|]. simpl. apply lru_find_Some in E as [Hy <-].
    destruct (decide (key y = key x)) as [Hyx|Hyx].
    + assert (y = x) as ->.
      { destruct Hh as (l1 & l2 & -> & _).
        pose proof (lru_find_elem (key x) _ y Hnd Hy Hyx).
        pose proof (lru_find_elem (key x) _ x Hnd ltac:(set_solver) eq_refl). congruence. }
      exists [], (lru_without (key x) l). split; [done|]. intros ? H. by apply not_elem_of_nil in H.
    + eapply held_weaken; [apply (held_cons x D)|set_solver]. by apply held_without.
  - unfold lru_set. destruct (lru_find k l) as [y|] eqn:E.
    + eapply held_weaken; [apply (held_cons x D)|set_solver]. by apply held_without.
    + assert (held x (D ∖ {[k]}) l) as Hh'.
      { destruct Hh as (l1 & l2 & -> & H1). exists l1, l2. split; [done|]. intros y Hy.
        apply elem_of_difference. split; [by apply H1|]. rewrite elem_of_singleton.
        eapply lru_find_None; [exact E|]. set_solver. }
      eapply held_weaken; [apply (held_cons x (D ∖ {[k]}))|set_solver].
      apply held_take; [done..|].
      replace ({[k]} ∖ {[key x]} ∪ D) with ({[k]} ∪ D ∖ {[k]} : gset string) in Hsz.
      { rewrite size_union, size_singleton in Hsz by set_solver. lia. }
      apply set_eq. intros z. destruct (decide (z = k)); set_solver.
  - eapply held_weaken; [by apply held_without|set_solver].
  - destruct Hh as (l1 & l2 & -> & H1). unfold lru_expire.
    eexists (filter _ l1), (filter _ l2). rewrite filter_app, filter_cons_True.
    + split; [done|]. intros y Hy. apply list_elem_of_filter in Hy as [_ Hy].
      apply H1 in Hy. set_solver.
    + unfold expired. by apply Z.ltb_ge.
Qed.

Lemma held_steps cap tr : forall l x D,
  NoDup (key <$> l) -> held x D l -> Forall (keeps (key x) (expiresAt x)) tr ->
  (size (used_keys (key x) tr ∪ D) < cap)%nat ->
  exists D', held x D' (spec_steps cap l tr) /\ NoDup (key <$> spec_steps cap l tr).
Proof.
  induction tr as [|ev tr IH]; intros l x D Hnd Hh Hk Hsz; simpl in *; [eauto|].
  apply Forall_cons in Hk as [Hk Hks].
  assert (Hsub : forall Y : gset string, Y ⊆ used (key x) ev ∪ used_keys (key x) tr ∪ D ->
                 (size Y < cap)%nat).
  { intros Y HY. apply subseteq_size in HY. lia. }
  eapply (IH _ x (used (key x) ev ∪ D)); [by apply spec_step_keys| |done|].
  - apply held_step; [done..|]. apply Hsub. set_solver.
  - apply Hsub. set_solver.
Qed.

Lemma held_get_at x D l now :
  NoDup (key <$> l) -> held x D l ->
  (lru_get now (key x) l).1 = if now <=? expiresAt x then Ok (value x) else Err ErrCacheMiss.
Proof.
  intros Hnd (l1 & l2 & -> & _). unfold lru_get.
  rewrite (lru_find_elem _ _ x Hnd ltac:(set_solver) eq_refl).
  unfold expired. destruct (Z.ltb_spec (expiresAt x) now), (Z.leb_spec now (expiresAt x)); done || lia.
Qed.

Lemma held_get x D l now :
  NoDup (key <$> l) -> held x D l -> now <= expiresAt x ->
  (lru_get now (key x) l).1 = Ok (value x).
Proof. intros Hnd Hh Hnow. erewrite held_get_at by done. by rewrite (proj2 (Z.leb_le _ _) Hnow). Qed.

Lemma lru_set_head cap now k v ttl l :
  held (MkEntry k v (now + ttl)) ∅ (lru_set cap now k v ttl l).
Proof.
  unfold lru_set. destruct (lru_find k l); eexists [], _; (split; [done|]);
    intros y Hy; by apply not_elem_of_nil in Hy.
Qed.

Lemma models_length m l : models m l -> length (evictList m) = length l.
Proof. intros (p & R & ->). by rewrite (repr_list _ _ R), !length_fmap. Qed.

Lemma models_size m l : models m l -> size (items m) = length l.
Proof.
  intros (p & R & ->).
  assert (items m = list_to_map ((fun q => (key q.2, q.1)) <$> p)) as ->.
  { apply map_eq. intros k. apply option_eq. intros e. rewrite (repr_items _ _ R).
    rewrite <- elem_of_list_to_map.
    - rewrite list_elem_of_fmap. split.
      + intros (x & Hx & <-). by exists (e, x).
      + intros ([e' x] & [= -> ->] & Hx). eauto.
    - rewrite <- list_fmap_compose. pose proof (repr_keys _ _ R) as Hk.
      by rewrite <- list_fmap_compose in Hk. }
  rewrite <- length_map_to_list, map_to_list_to_map, !length_fmap; [done|].
  rewrite <- list_fmap_compose. pose proof (repr_keys _ _ R) as Hk.
  by rewrite <- list_fmap_compose in Hk.
Qed.
End Runs.

(** ** Properties of the running cache *)

Section Properties.
Context {V : Type}.
Implicit Types (m : Memory V) (tr : list (event V)).

(** C1. The cache is a correct LRU cache: whatever sequence of Get, Set,
    Delete, cleanup ticks and Close runs from NewMemory(n), n >= 1, one after the
    other, every result the
    callers see is the one the abstract LRU list of capacity n gives, and the
    final pointer structure (key map, list order, stored entries) represents
    that list. In particular no call ever returns an internal error. *)
Theorem memory_refines_lru (n : Z) tr m :
  1 <= n -> steps (NewMemory n) tr m ->
  spec_trace (Z.to_nat n) [] tr /\ models m (spec_steps (Z.to_nat n) [] tr).
Proof.
  intros Hn Hs.
  destruct (steps_models (NewMemory n) [] tr m (models_NewMemory n) Hn Hs) as (? & ? & _). done.
Qed.

(** C3. LRU retention: a value written with Set is returned by a later Get, as
    long as it has not been overwritten or deleted, has not expired, and fewer
    than n distinct other keys have been read or written since. *)
Theorem memory_retains (n : Z) tr0 m0 fuel t0 k v ttl m1 tr m2 now :
  1 <= n -> steps (NewMemory n) tr0 m0 ->
  Set_ fuel t0 k v ttl m0 = Some (None, m1) ->
  steps m1 tr m2 ->
  Forall (keeps k (t0 + ttl)) tr ->
  (size (used_keys k tr) < Z.to_nat n)%nat ->
  now <= t0 + ttl ->
  (Get now k m2).1 = Ok v.
Proof.
  intros Hn H0 Hset Hs Hk Hsz Hnow.
  destruct (steps_models _ _ _ _ (models_NewMemory n) Hn H0) as (_ & M0 & Hx0). simpl in *.
  destruct (step_models m0 _ (ESet t0 k v ttl None) m1 M0 ltac:(lia) (step_set _ _ _ _ _ _ _ _ Hset))
    as (_ & M1 & Hx1).
  rewrite Hx0 in *. simpl in M1.
  destruct (steps_models _ _ _ _ M1 ltac:(lia) Hs) as (_ & M2 & _). rewrite Hx1 in *.
  destruct (held_steps (Z.to_nat n) tr _ (MkEntry k v (t0 + ttl)) ∅ (models_keys _ _ M1)
              (lru_set_head _ _ _ _ _ _) Hk) as (D & Hh & Hnd); [by rewrite union_empty_r_L|].
  rewrite (proj1 (Get_models _ _ now k M2)). by eapply (held_get (MkEntry k v (t0 + ttl))).
Qed.

(** The cache never holds more than its configured number of entries, and
    the key map and the recency list always have the same size. *)
Theorem memory_bounded (n : Z) tr m :
  1 <= n -> steps (NewMemory n) tr m ->
  Z.of_nat (size (items m)) = Z.of_nat (length (evictList m)) /\
  Z.of_nat (length (evictList m)) <= n.
Proof.
  intros Hn Hs.
  destruct (steps_models _ _ _ _ (models_NewMemory n) Hn Hs) as (_ & M & _). simpl in M.
  rewrite (models_length _ _ M). split.
  - f_equal. by apply models_size.
  - pose proof (spec_steps_bounded (V:=V) (Z.to_nat n) tr [] ltac:(lia) ltac:(simpl; lia)). lia.
Qed.

(** C4. With room for at least one entry, Set always returns, without an error,
    after at most one loop turn per cached entry.  Read back next, at whatever time, the
    value is there until its deadline, the time of the Set plus its time to live, and
    a miss after it. *)
Theorem memory_set_returns (n : Z) tr m now k v ttl :
  1 <= n -> steps (NewMemory n) tr m ->
  exists m', Set_ (S (length (evictList m))) now k v ttl m = Some (None, m') /\
             forall t, (Get t k m').1 = if t <=? now + ttl then Ok v else Err ErrCacheMiss.
Proof.
  intros Hn Hs.
  destruct (steps_models _ _ _ _ (models_NewMemory n) Hn Hs) as (_ & M & Hx). simpl in *.
  rewrite (models_length _ _ M).
  destruct (Set_models m _ (S (length (spec_steps (Z.to_nat n) [] tr))) now k v ttl M
              ltac:(lia) ltac:(lia)) as (m' & E & M' & _).
  exists m'. split; [done|]. intros t. rewrite (proj1 (Get_models _ _ t k M')).
  eapply (held_get_at (MkEntry k v (now + ttl))); [by eapply models_keys|apply lru_set_head].
Qed.

(** A cache built with maxEntries <= 0 hangs on the first Set of a key: the
    eviction loop's condition stays true on the empty list and evictOldest has
    nothing to remove, so no number of loop turns ends it (and the mutex is
    held meanwhile). *)
Theorem memory_set_hangs (n : Z) now k (v : V) ttl fuel :
  n <= 0 -> Set_ fuel now k v ttl (NewMemory n) = None.
Proof.
  intros Hn. unfold Set_. simpl. destruct (models_NewMemory (V:=V) n) as (p & R & _).
  by erewrite evictLoop_spins.
Qed.
End Properties.

(** ** Witnesses: a cache of two entries *)

(** One action, executed; for a call that does not return, the state stays. *)
Definition demo_act (ev : event nat) (m : Memory nat) : event nat * Memory nat :=
  match ev with
  | EGet now k _ => let '(r, m') := Get now k m in (EGet now k r, m')
  | ESet now k v ttl _ =>
    match Set_ 10 now k v ttl m with
    | Some (err, m') => (ESet now k v ttl err, m')
    | None => (EClose, m)
    end
  | EDelete k _ => let '(err, m') := Delete k m in (EDelete k err, m')
  | ETick now => (ETick now, removeExpired now (map_to_list (items m)) m)
  | EClose => (EClose, default m (Close m))
  end.

Fixpoint demo_run (evs : list (event nat)) (m : Memory nat) : list (event nat) * Memory nat :=
  match evs with
  | [] => ([], m)
  | ev :: evs' =>
    let '(ev', m') := demo_act ev m in
    let '(tr, m'') := demo_run evs' m' in (ev' :: tr, m'')
  end.

Ltac demo_steps :=
  repeat (eapply steps_cons;
          [first [ eapply step_get; vm_compute; reflexivity
                 | eapply (step_set _ 10%nat); vm_compute; reflexivity
                 | eapply step_delete; vm_compute; reflexivity
                 | eapply step_tick; reflexivity
                 | eapply step_close; vm_compute; reflexivity ]|]);
  apply steps_nil.

Definition demo_script : list (event nat) :=
  [ESet 0 "a" 1%nat 100 None; ESet 1 "b" 2%nat 5 None; EGet 2 "a" (Ok 1%nat);
   ESet 3 "c" 3%nat 100 None; EGet 4 "b" (Err ErrCacheMiss); ETick 50; EDelete "c" None].

Definition demo_end : Memory nat := Eval vm_compute in (demo_run demo_script (NewMemory 2)).2.

(** The script's expected results are the ones the code gives: "b", the least
    recently used key, was evicted by the third Set. *)
Example demo_script_runs : demo_run demo_script (NewMemory 2) = (demo_script, demo_end).
Proof. vm_compute. reflexivity. Qed.

Lemma demo_script_steps : steps (NewMemory 2) demo_script demo_end.
Proof. unfold demo_script. demo_steps. Qed.

Lemma memory_refines_lru_witness :
  spec_trace 2 [] demo_script /\ models demo_end (spec_steps 2 [] demo_script).
Proof. apply (memory_refines_lru 2); [lia|exact demo_script_steps]. Defined.

Lemma memory_retains_witness :
  (Get 60 "a" (demo_run [ESet 20 "b" 7%nat 9 None; ETick 55]
     (demo_run [ESet 10 "a" 1%nat 100 None] (NewMemory 2)).2).2).1 = Ok 1%nat.
Proof.
  eapply (memory_retains 2 [] (NewMemory 2) 10 10 "a" 1%nat 100 _
            [ESet 20 "b" 7%nat 9 None; ETick 55] _ 60).
  - lia.
  - apply steps_nil.
  - vm_compute. reflexivity.
  - demo_steps.
  - repeat constructor; simpl; lia || done.
  - vm_compute. lia.
  - lia.
Defined.

Lemma memory_bounded_witness :
  Z.of_nat (size (items demo_end)) = Z.of_nat (length (evictList demo_end)) /\
  Z.of_nat (length (evictList demo_end)) <= 2.
Proof. apply (memory_bounded 2 demo_script); [lia|exact demo_script_steps]. Defined.

Lemma memory_set_returns_witness :
  exists m', Set_ (S (length (evictList demo_end))) 60 "z" 9%nat 5 demo_end = Some (None, m') /\
             forall t, (Get t "z" m').1 = if t <=? 60 + 5 then Ok 9%nat else Err ErrCacheMiss.
Proof. apply (memory_set_returns 2 demo_script); [lia|exact demo_script_steps]. Defined.

Lemma memory_set_hangs_witness :
  Set_ 1000 0 "k" 1%nat 60 (NewMemory 0) = None.
Proof. apply memory_set_hangs. lia. Defined.
