(* ===== verification/ListHeap.v ===== *)
(** * container/list, pointer by pointer

    The cache orders its entries with the doubly linked ring of Go's
    container/list.  MemoryCache.v uses the list that the ring stands for; this
    file has the ring itself: the next, prev and list fields of every element and
    of the root, as programs of single loads and stores (RWMutex.v) in the order
    of the Go statements, with the nil checks that make a dereference panic.

    [ring d es] says that the fields of [d] form the ring of the elements [es];
    on such a ring every function of the package does what its list counterpart
    does, without a panic. *)

From stdpp Require Import base option list gmap.
From Stdlib Require Import ZArith Lia.
From S2P Require Import Prelude RWMutex.

Open Scope Z_scope.

(** ** Programs that may panic or not return *)

(** [Diverges]: a loop that is still running when its fuel is spent. *)
Inductive outcome (A : Type) : Type :=
| Returns (a : A)
| Panics
| Diverges.
Arguments Returns {A} a.
Arguments Panics {A}.
Arguments Diverges {A}.

Definition pm (S A : Type) : Type := prog S (outcome A).

#[export] Instance pm_ret {S} : MRet (pm S) := fun A a => Ret (Returns a).
#[export] Instance pm_bind {S} : MBind (pm S) := fun A B f p =>
  pbind p (fun o => match o with
                    | Returns a => f a
                    | Panics => Ret Panics
                    | Diverges => Ret Diverges
                    end).

Definition rd {S A} (f : S -> A) : pm S A := pread (fun s => Returns (f s)).
Definition wr {S} (g : S -> S) : pm S unit := Access g (fun _ => Ret (Returns tt)).
Definition panic {S A} : pm S A := Ret Panics.

Lemma run_rd {S A B} (f : S -> A) (k : A -> pm S B) s : run (rd f ≫= k) s = run (k (f s)) s.
Proof. done. Qed.

Lemma run_wr {S B} (g : S -> S) (k : unit -> pm S B) s : run (wr g ≫= k) s = run (k tt) (g s).
Proof. done. Qed.

Lemma run_bind_Returns {S A B} (p : pm S A) (k : A -> pm S B) s a s' :
  run p s = (Returns a, s') -> run (p ≫= k) s = run (k a) s'.
Proof. intros H. unfold mbind, pm_bind. rewrite run_pbind, H. done. Qed.

(** A program on a part of the memory. *)
Fixpoint lift {S T A} (get : S -> T) (set : T -> S -> S) (p : prog T A) : prog S A :=
  match p with
  | Ret a => Ret a
  | Access g k => Access (fun s => set (g (get s)) s) (fun s => lift get set (k (get s)))
  end.

Lemma run_lift {S T A} (get : S -> T) (set : T -> S -> S) (p : prog T A) :
  (forall t s, get (set t s) = t) -> (forall t t' s, set t (set t' s) = set t s) ->
  (forall s, set (get s) s = s) ->
  forall s, run (lift get set p) s = ((run p (get s)).1, set (run p (get s)).2 s).
Proof.
  intros H1 H2 H3. induction p as [a|g k IH]; intros s; simpl; [by rewrite H3|].
  by rewrite IH, H1, H2.
Qed.

Lemma quiet_lift {S T A} (get : S -> T) (set : T -> S -> S) (p : prog T A) s :
  (forall s, set (get s) s = s) -> quiet p (get s) -> quiet (lift get set p) s.
Proof.
  intros Hset. induction p as [a|g k IH]; simpl; [done|]. intros [-> Hk]. split; [apply Hset|auto].
Qed.

Lemma quiet_rd {S A B} (f : S -> A) (k : A -> pm S B) s : quiet (k (f s)) s -> quiet (rd f ≫= k) s.
Proof. done. Qed.

Lemma quiet_bind {S A B} (p : pm S A) (k : A -> pm S B) s a :
  quiet p s -> (run p s).1 = Returns a -> quiet (k a) s -> quiet (p ≫= k) s.
Proof. intros Hp Ha Hk. apply quiet_pbind; [done|]. by rewrite Ha. Qed.

(** ** The elements *)

(** &l.root, or an element. *)
Inductive loc : Type := Root | Elt (e : nat).

#[export] Instance loc_eq_dec : EqDecision loc.
Proof. solve_decision. Defined.

#[export] Instance Elt_inj : Inj (=) (=) Elt.
Proof. by intros ?? [=]. Qed.

(** The fields of the elements and of the list: [nxt] and [prv] (nil is
    [None]), [own] (e.list == l), [vals] (e.Value), and the list's [len].
    Elements are allocated from [fresh]. *)
Record dlist (A : Type) : Type := MkDList {
  nxt : loc -> option loc;
  prv : loc -> option loc;
  own : loc -> bool;
  len : Z;
  vals : gmap nat A;
  fresh : nat
}.
Arguments MkDList {A} _ _ _ _ _ _.
Arguments nxt {A} _ _.
Arguments prv {A} _ _.
Arguments own {A} _ _.
Arguments len {A} _.
Arguments vals {A} _.
Arguments fresh {A} _.

Definition upd {B} (f : loc -> B) (x : loc) (b : B) : loc -> B :=
  fun y => if decide (y = x) then b else f y.

Lemma upd_eq {B} (f : loc -> B) x b : upd f x b x = b.
Proof. unfold upd. by rewrite decide_True. Qed.

Lemma upd_ne {B} (f : loc -> B) x y b : y <> x -> upd f x b y = f y.
Proof. intros H. unfold upd. by rewrite decide_False. Qed.

Section Programs.
Context {A : Type}.
Implicit Types d : dlist A.

Definition set_nxt (x : loc) (v : option loc) d : dlist A :=
  MkDList (upd (nxt d) x v) (prv d) (own d) (len d) (vals d) (fresh d).
Definition set_prv (x : loc) (v : option loc) d : dlist A :=
  MkDList (nxt d) (upd (prv d) x v) (own d) (len d) (vals d) (fresh d).
Definition set_own (x : loc) (b : bool) d : dlist A :=
  MkDList (nxt d) (prv d) (upd (own d) x b) (len d) (vals d) (fresh d).
Definition set_len (n : Z) d : dlist A :=
  MkDList (nxt d) (prv d) (own d) n (vals d) (fresh d).
Definition set_vals (vs : gmap nat A) d : dlist A :=
  MkDList (nxt d) (prv d) (own d) (len d) vs (fresh d).

(** x.next and x.prev, through a pointer that may be nil. *)
Definition load_next (x : option loc) : pm (dlist A) (option loc) :=
  match x with None => panic | Some l => rd (fun d => nxt d l) end.
Definition load_prev (x : option loc) : pm (dlist A) (option loc) :=
  match x with None => panic | Some l => rd (fun d => prv d l) end.
Definition store_next (x : option loc) (v : option loc) : pm (dlist A) unit :=
  match x with None => panic | Some l => wr (set_nxt l v) end.
Definition store_prev (x : option loc) (v : option loc) : pm (dlist A) unit :=
  match x with None => panic | Some l => wr (set_prv l v) end.

(** list.New *)
Definition New : dlist A :=
  MkDList (upd (fun _ => None) Root (Some Root)) (upd (fun _ => None) Root (Some Root))
          (fun _ => false) 0 ∅ 0.

Definition Len : pm (dlist A) Z := rd len.

Definition Back : pm (dlist A) (option loc) :=
  n ← Len;
  if n =? 0 then mret None else load_prev (Some Root).

Definition lazyInit : pm (dlist A) unit :=
  n ← load_next (Some Root);
  match n with
  | Some _ => mret tt
  | None =>
    _ ← store_next (Some Root) (Some Root);
    _ ← store_prev (Some Root) (Some Root);
    wr (set_len 0)
  end.

(** e.prev = at; e.next = at.next; e.prev.next = e; e.next.prev = e *)
Definition link (e at_ : loc) : pm (dlist A) unit :=
  _ ← store_prev (Some e) (Some at_);
  n ← load_next (Some at_);
  _ ← store_next (Some e) n;
  p ← load_prev (Some e);
  _ ← store_next p (Some e);
  n ← load_next (Some e);
  store_prev n (Some e).

(** e.prev.next = e.next; e.next.prev = e.prev *)
Definition unlink (e : loc) : pm (dlist A) unit :=
  p ← load_prev (Some e);
  n ← load_next (Some e);
  _ ← store_next p n;
  n ← load_next (Some e);
  p ← load_prev (Some e);
  store_prev n p.

Definition insert_ (e at_ : loc) : pm (dlist A) loc :=
  _ ← link e at_;
  _ ← wr (set_own e true);
  n ← Len;
  _ ← wr (set_len (n + 1));
  mret e.

(** &Element{Value: v} *)
Definition newElement (v : A) : pm (dlist A) nat :=
  Access (fun d => MkDList (nxt d) (prv d) (own d) (len d) (<[fresh d := v]> (vals d)) (S (fresh d)))
         (fun d => Ret (Returns (fresh d))).

Definition insertValue (v : A) (at_ : loc) : pm (dlist A) nat :=
  e ← newElement v;
  _ ← insert_ (Elt e) at_;
  mret e.

Definition remove_ (e : loc) : pm (dlist A) unit :=
  _ ← unlink e;
  _ ← store_next (Some e) None;
  _ ← store_prev (Some e) None;
  _ ← wr (set_own e false);
  n ← Len;
  wr (set_len (n - 1)).

Definition move (e at_ : loc) : pm (dlist A) unit :=
  if decide (e = at_) then mret tt
  else _ ← unlink e; link e at_.

Definition Remove (e : loc) : pm (dlist A) unit :=
  o ← rd (fun d => own d e);
  if o : bool then remove_ e else mret tt.

Definition PushFront (v : A) : pm (dlist A) nat :=
  _ ← lazyInit;
  insertValue v Root.

(** if e.list != l || l.root.next == e { return } *)
Definition MoveToFront (e : loc) : pm (dlist A) unit :=
  o ← rd (fun d => own d e);
  if negb o then mret tt
  else
    n ← load_next (Some Root);
    if decide (n = Some e) then mret tt else move e Root.
End Programs.

(** ** Linked segments *)

Section Segments.
Implicit Types (nx pv : loc -> option loc) (a b x : loc) (ls : list loc).

(** From [a] through [ls] to [b]. *)
Fixpoint linked nx pv a ls b : Prop :=
  match ls with
  | [] => nx a = Some b /\ pv b = Some a
  | x :: ls' => nx a = Some x /\ pv x = Some a /\ linked nx pv x ls' b
  end.

Lemma linked_frame nx pv nx' pv' ls : forall a b,
  (forall z, z ∈ a :: ls -> nx' z = nx z) -> (forall z, z ∈ ls ++ [b] -> pv' z = pv z) ->
  linked nx pv a ls b -> linked nx' pv' a ls b.
Proof.
  induction ls as [|x ls IH]; intros a b Hn Hp; simpl.
  - rewrite Hn, Hp by set_solver. done.
  - intros (H1 & H2 & H3). rewrite Hn, Hp by set_solver. split; [done|]. split; [done|].
    apply IH; [..|done]; intros z Hz; [apply Hn|apply Hp]; set_solver.
Qed.

(** What [x] points to. *)
Lemma linked_neighbours nx pv l1 x l2 b : forall a,
  linked nx pv a (l1 ++ x :: l2) b ->
  pv x = Some (default a (last l1)) /\ nx x = Some (default b (head l2)).
Proof.
  induction l1 as [|y l1 IH]; intros a; cbn [app linked].
  - intros (H1 & H2 & H3). split; [done|]. destruct l2 as [|z l2]; simpl in *; naive_solver.
  - intros (H1 & H2 & H3). apply IH in H3 as [H3 H4]. split; [|done].
    rewrite H3, last_cons. by destruct (last l1).
Qed.

Lemma default_head_elem b ls : default b (head ls) ∈ ls ++ [b].
Proof. destruct ls; simpl; set_solver. Qed.

Lemma default_last_elem a ls : default a (last ls) ∈ a :: ls.
Proof. destruct (last ls) eqn:E; simpl; [apply last_Some_elem_of in E|]; set_solver. Qed.

(** Taking [x] out. *)
Lemma linked_unlink nx pv l1 x l2 b : forall a,
  linked nx pv a (l1 ++ x :: l2) b ->
  NoDup (a :: l1 ++ x :: l2) -> NoDup ((l1 ++ x :: l2) ++ [b]) ->
  let p := default a (last l1) in let n := default b (head l2) in
  linked (upd nx p (Some n)) (upd pv n (Some p)) a (l1 ++ l2) b.
Proof.
  induction l1 as [|y l1 IH]; intros a; cbn [app linked].
  - intros (H1 & H2 & H3) Hnd1 Hnd2. destruct l2 as [|n l2]; simpl in *.
    + by rewrite !upd_eq.
    + rewrite !upd_eq. split; [done|]. split; [done|].
      destruct H3 as (_ & _ & H3). revert H3.
      rewrite !NoDup_cons in Hnd1, Hnd2.
      apply linked_frame; intros z Hz; apply upd_ne; intros ->; set_solver.
  - intros (H1 & H2 & H3) Hnd1 Hnd2.
    rewrite last_cons. apply NoDup_cons in Hnd1 as [Ha Hnd1].
    apply NoDup_cons in Hnd2 as [Hy Hnd2].
    replace (default a (match last l1 with Some y0 => Some y0 | None => Some y end))
      with (default y (last l1)) by (by destruct (last l1)).
    pose proof (default_last_elem y l1) as Hp. pose proof (default_head_elem b l2) as Hn.
    rewrite (upd_ne nx) by (intros ->; set_solver).
    rewrite (upd_ne pv) by (intros ->; set_solver).
    split; [done|]. split; [done|]. by apply IH.
Qed.

(** Putting [x] in at the front. *)
Lemma linked_push nx pv a x ls b :
  linked nx pv a ls b -> x <> a -> x ∉ ls ++ [b] -> NoDup (a :: ls) -> NoDup (ls ++ [b]) ->
  let n := default b (head ls) in
  linked (upd (upd nx x (Some n)) a (Some x)) (upd (upd pv x (Some a)) n (Some x)) a (x :: ls) b.
Proof.
  intros Hl Hxa Hx Hnd1 Hnd2. simpl. pose proof (default_head_elem b ls) as Hn.
  rewrite upd_eq. split; [done|]. rewrite upd_ne by (intros ->; done). rewrite upd_eq.
  split; [done|]. destruct ls as [|n ls]; simpl in *.
  - rewrite (upd_ne _ a x), !upd_eq by done. done.
  - rewrite (upd_ne _ a x), !upd_eq by done. split; [done|]. split; [done|].
    destruct Hl as (_ & _ & Hl). revert Hl. rewrite !NoDup_cons in Hnd1, Hnd2.
    apply linked_frame; intros z Hz; rewrite !upd_ne; (done || intros ->; set_solver).
Qed.
End Segments.

(** ** The ring *)

Section Ring.
Context {A : Type}.
Implicit Types (d : dlist A) (es : list nat).

Record ring d es : Prop := {
  ring_linked : linked (nxt d) (prv d) Root (Elt <$> es) Root;
  ring_nodup : NoDup es;
  ring_own : forall x, own d x = true <-> exists e, x = Elt e /\ e ∈ es;
  ring_len : len d = Z.of_nat (length es);
  ring_fresh : forall e, e ∈ es -> (e < fresh d)%nat
}.

Lemma Root_not_Elt es : Root ∉ Elt <$> es.
Proof. intros (e & [=] & _)%list_elem_of_fmap. Qed.

Lemma Elts_nodup_l es : NoDup es -> NoDup (Root :: (Elt <$> es)).
Proof. intros H. constructor; [apply Root_not_Elt|]. by rewrite (NoDup_fmap Elt). Qed.

Lemma Elts_nodup_r es : NoDup es -> NoDup ((Elt <$> es) ++ [Root]).
Proof.
  intros H. apply NoDup_app. split; [by rewrite (NoDup_fmap Elt)|]. split; [|apply NoDup_singleton].
  intros x Hx ->%list_elem_of_singleton. by apply Root_not_Elt in Hx.
Qed.

Lemma Elt_elem e es : Elt e ∈ Elt <$> es <-> e ∈ es.
Proof. split; [by intros (? & [= ->] & ?)%list_elem_of_fmap|by apply list_elem_of_fmap_2]. Qed.

Lemma ring_New : ring New [].
Proof.
  constructor; simpl; [by rewrite !upd_eq|constructor| |done|set_solver].
  intros x. split; [done|]. intros (e & _ & H). set_solver.
Qed.

(** *** The two halves of moving an element *)

Lemma run_unlink d x p n :
  prv d x = Some p -> nxt d x = Some n -> x <> p ->
  run (unlink x) d = (Returns tt, set_prv n (Some p) (set_nxt p (Some n) d)).
Proof.
  intros Hp Hn Hne. unfold unlink, load_prev, load_next. rewrite !run_rd, Hp, Hn.
  unfold store_next. rewrite run_wr, !run_rd. simpl. rewrite upd_ne, Hn, Hp by done. done.
Qed.

Lemma run_link d x at_ n :
  nxt d at_ = Some n -> x <> at_ ->
  run (link x at_) d =
  (Returns tt, set_prv n (Some x) (set_nxt at_ (Some x) (set_nxt x (Some n) (set_prv x (Some at_) d)))).
Proof.
  intros Hn Hne. unfold link, store_prev, load_next, store_next, load_prev.
  rewrite run_wr, run_rd. simpl. rewrite Hn, upd_eq. simpl.
  by rewrite upd_ne, upd_eq by done.
Qed.

(** Two states that differ in next and prev fields only. *)
Record same_rest d d' : Prop := {
  sr_own : own d' = own d;
  sr_len : len d' = len d;
  sr_vals : vals d' = vals d;
  sr_fresh : fresh d' = fresh d
}.

Lemma remove_first_split (e : nat) es : e ∈ es -> NoDup es ->
  exists l1 l2, es = l1 ++ e :: l2 /\ remove_first e es = l1 ++ l2.
Proof.
  intros (l1 & l2 & ->)%list_elem_of_split Hnd. exists l1, l2. split; [done|].
  rewrite remove_first_filter by done. rewrite filter_app, filter_cons_False by tauto.
  apply NoDup_app in Hnd as (H1 & H2 & H3). apply NoDup_cons in H3 as [H3 H4].
  rewrite !filter_all; [done|..]; intros y Hy ->; set_solver.
Qed.

Notation linked_es d es := (linked (nxt d) (prv d) Root (Elt <$> es) Root).

Lemma unlink_spec d es e : linked_es d es -> NoDup es -> e ∈ es ->
  exists d', run (unlink (Elt e)) d = (Returns tt, d') /\ linked_es d' (remove_first e es) /\
    same_rest d d'.
Proof.
  intros HL Hnd He. pose proof (Elts_nodup_l _ Hnd) as N1. pose proof (Elts_nodup_r _ Hnd) as N2.
  destruct (remove_first_split e es He Hnd) as (l1 & l2 & -> & ->).
  rewrite fmap_app, fmap_cons in HL, N1, N2.
  destruct (linked_neighbours _ _ _ _ _ _ _ HL) as [Hp Hn].
  assert (Elt e <> default Root (last (Elt <$> l1))) as Hne.
  { intros Heq. pose proof (default_last_elem Root (Elt <$> l1)) as Hin. rewrite <- Heq in Hin.
    apply elem_of_cons in Hin as [|Hin]; [done|]. apply NoDup_cons in N1 as [_ N1].
    apply NoDup_app in N1 as (_ & N1 & _). by apply (N1 _ Hin); left. }
  eexists. split; [by apply run_unlink|]. split; [|done].
  rewrite fmap_app. by apply (linked_unlink _ _ (Elt <$> l1) (Elt e) (Elt <$> l2)).
Qed.

Lemma link_spec d es e : linked_es d es -> NoDup es -> e ∉ es ->
  exists d', run (link (Elt e) Root) d = (Returns tt, d') /\ linked_es d' (e :: es) /\ same_rest d d'.
Proof.
  intros HL Hnd He.
  assert (nxt d Root = Some (default Root (head (Elt <$> es)))) as Hn.
  { destruct es; simpl in *; apply HL. }
  eexists. split; [by apply run_link|]. split; [|done]. rewrite fmap_cons.
  apply (linked_push (nxt d) (prv d) Root (Elt e) (Elt <$> es) Root);
    [done|done| |by apply Elts_nodup_l|by apply Elts_nodup_r].
  rewrite elem_of_app, Elt_elem, list_elem_of_singleton. by intros [|].
Qed.

(** *** The functions of the package *)

Lemma ring_own_in d es e : ring d es -> own d (Elt e) = bool_decide (e ∈ es).
Proof.
  intros R. case_bool_decide as He.
  - apply (ring_own _ _ R). eauto.
  - destruct (own d (Elt e)) eqn:E; [|done]. apply (ring_own _ _ R) in E as (? & [= <-] & ?). done.
Qed.

(** Only the order of the elements matters to [own], [len] and [fresh]. *)
Lemma ring_same_rest d d' es es' :
  ring d es -> same_rest d d' -> es' ≡ₚ es -> linked_es d' es' -> ring d' es'.
Proof.
  intros R [H1 H2 H3 H4] Hp HL. constructor; [done|..].
  - rewrite Hp. apply R.
  - intros x. rewrite H1, (ring_own _ _ R). by setoid_rewrite Hp.
  - by rewrite H2, (ring_len _ _ R), Hp.
  - intros e. rewrite H4, Hp. apply R.
Qed.

Lemma MoveToFront_spec d es e : ring d es ->
  exists d', run (MoveToFront (Elt e)) d = (Returns tt, d') /\
    ring d' (if decide (e ∈ es) then e :: remove_first e es else es) /\
    vals d' = vals d /\ fresh d' = fresh d.
Proof.
  intros R. unfold MoveToFront. rewrite run_rd, (ring_own_in _ _ _ R).
  case_decide as He; [rewrite bool_decide_true by done|rewrite bool_decide_false by done]; [|by exists d].
  unfold negb, load_next. rewrite run_rd. pose proof (ring_linked _ _ R) as HL.
  case_decide as Hf.
  - exists d. split; [done|]. split; [|done].
    destruct es as [|e' es]; [set_solver|]. simpl in HL. destruct HL as (HL & _).
    assert (e' = e) as -> by congruence. simpl. by rewrite decide_True.
  - unfold move. rewrite decide_False by done.
    destruct (unlink_spec d es e HL (ring_nodup _ _ R) He) as (d1 & E1 & HL1 & SR1).
    rewrite (run_bind_Returns _ _ _ _ _ E1).
    pose proof (remove_first_NoDup e es (ring_nodup _ _ R)) as Hnd.
    destruct (link_spec d1 _ e HL1 Hnd) as (d2 & E2 & HL2 & SR2).
    { intros [_ ?]%remove_first_elem; [done|apply R]. }
    exists d2. rewrite E2. split; [done|]. destruct SR1, SR2. split; [|by split; congruence].
    eapply (ring_same_rest d); [done|by constructor; congruence| |done].
    destruct (remove_first_split e es He (ring_nodup _ _ R)) as (l1 & l2 & -> & ->).
    apply Permutation_middle.
Qed.

(** On the first element, and on one that is not in the list, it writes nothing. *)
Lemma MoveToFront_quiet d es e : ring d es -> (head es = Some e \/ e ∉ es) ->
  quiet (MoveToFront (Elt e)) d.
Proof.
  intros R He. split; [done|]. simpl. rewrite (ring_own_in _ _ _ R).
  case_bool_decide as Hin; [|done]. simpl. split; [done|].
  destruct He as [He|]; [|done]. destruct es as [|e' es]; simpl in He; simplify_eq.
  pose proof (ring_linked _ _ R) as HL. simpl in HL. destruct HL as (-> & _).
  by rewrite decide_True.
Qed.

Lemma Remove_spec d es e : ring d es ->
  exists d', run (Remove (Elt e)) d = (Returns tt, d') /\ ring d' (remove_first e es) /\
    vals d' = vals d /\ fresh d' = fresh d.
Proof.
  intros R. unfold Remove. rewrite run_rd, (ring_own_in _ _ _ R).
  case_bool_decide as He; [|by exists d; rewrite remove_first_not_in].
  pose proof (ring_nodup _ _ R) as Hnd.
  destruct (unlink_spec d es e (ring_linked _ _ R) Hnd He) as (d1 & E1 & HL1 & [S1 S2 S3 S4]).
  unfold remove_. rewrite (run_bind_Returns _ _ _ _ _ E1). unfold store_next, store_prev, Len.
  rewrite !run_wr, run_rd. eexists. split; [done|]. split; [|done].
  assert (e ∉ remove_first e es) as Hout by (intros [_ ?]%remove_first_elem; done).
  constructor; simpl.
  - revert HL1. apply linked_frame; intros z Hz; apply upd_ne; intros ->.
    + apply elem_of_cons in Hz as [|Hz]; [done|]. by apply Elt_elem in Hz.
    + apply elem_of_app in Hz as [Hz%Elt_elem|Hz%list_elem_of_singleton]; done.
  - by apply remove_first_NoDup.
  - intros x. rewrite S1. unfold upd. case_decide as Hx.
    + split; [done|]. subst x. intros (e' & [= <-] & ?). done.
    + rewrite (ring_own _ _ R). split; intros (e' & -> & He'); exists e'; (split; [done|]).
      * apply remove_first_elem; [done|]. split; [done|congruence].
      * by apply remove_first_elem in He' as [? _].
  - rewrite S2, (ring_len _ _ R), (remove_first_length e es He). lia.
  - intros e' [He' _]%remove_first_elem; [|done]. rewrite S4. by apply R.
Qed.

Lemma lazyInit_spec d es : ring d es -> run lazyInit d = (Returns tt, d).
Proof.
  intros R. pose proof (ring_linked _ _ R) as HL. unfold lazyInit, load_next. rewrite run_rd.
  by assert (is_Some (nxt d Root)) as [? ->] by (destruct es; naive_solver).
Qed.

Lemma run_newElement {B} (v : A) (k : nat -> pm (dlist A) B) d :
  run (newElement v ≫= k) d =
  run (k (fresh d))
    (MkDList (nxt d) (prv d) (own d) (len d) (<[fresh d := v]> (vals d)) (S (fresh d))).
Proof. done. Qed.

Lemma PushFront_spec d es v : ring d es ->
  exists d', run (PushFront v) d = (Returns (fresh d), d') /\ ring d' (fresh d :: es) /\
    vals d' = <[fresh d := v]> (vals d) /\ fresh d' = S (fresh d).
Proof.
  intros R. pose proof (ring_linked _ _ R) as HL. unfold PushFront.
  rewrite (run_bind_Returns _ _ _ _ _ (lazyInit_spec _ _ R)).
  unfold insertValue. rewrite run_newElement. set (d0 := MkDList _ _ _ _ _ _).
  assert (fresh d ∉ es) as Hf by (intros Hf; apply (ring_fresh _ _ R) in Hf; lia).
  destruct (link_spec d0 es (fresh d) HL (ring_nodup _ _ R) Hf) as (d1 & E1 & HL1 & [S1 S2 S3 S4]).
  eassert (run (insert_ (Elt (fresh d)) Root) d0 = (Returns (Elt (fresh d)), _)) as E2.
  { unfold insert_. rewrite (run_bind_Returns _ _ _ _ _ E1). unfold Len.
    rewrite run_wr, run_rd, run_wr. done. }
  rewrite (run_bind_Returns _ _ _ _ _ E2). eexists. split; [done|]. split; [|done]. constructor; simpl.
  - done.
  - constructor; [done|apply R].
  - intros x. rewrite S1. unfold upd. case_decide as Hx; simpl.
    + split; [|done]. intros _. exists (fresh d). set_solver.
    + rewrite (ring_own _ _ R). split; intros (e' & -> & He'); exists e'; set_solver.
  - rewrite S2. simpl. rewrite (ring_len _ _ R). lia.
  - intros e. rewrite S4. simpl. intros [->|He]%elem_of_cons; [lia|].
    apply (ring_fresh _ _ R) in He. lia.
Qed.

Lemma Back_spec d es : ring d es -> run Back d = (Returns (Elt <$> last es), d).
Proof.
  intros R. unfold Back, Len. rewrite run_rd, (ring_len _ _ R).
  destruct es as [|e es _] using rev_ind; [done|].
  rewrite length_app. simpl. rewrite (proj2 (Z.eqb_neq _ _)) by lia. simpl. rewrite last_snoc. simpl.
  pose proof (ring_linked _ _ R) as HL. rewrite fmap_app in HL. simpl in HL.
  assert (forall a ls x, linked (nxt d) (prv d) a (ls ++ [x]) Root -> prv d Root = Some x) as H.
  { intros a ls. revert a. induction ls as [|y ls IH]; intros a x; simpl; [tauto|].
    intros (_ & _ & H). by eapply IH. }
  by erewrite H.
Qed.
End Ring.
