(* ===== verification/CacheRace.v ===== *)
(** * cache/memory.go under concurrency

    MemoryCache.v says what each operation does when it runs alone.  Here the
    operations are programs of single accesses to the fields of the cache, of
    its list elements (ListHeap.v) and of its entries, with the lock each of
    them takes, and run interleaved (RWMutex.v).

    Get takes the read lock but moves the element it found to the front of the
    list, which writes next and prev fields.  So the lock does not make Get
    atomic.  Two theorems say what that means: as long as Gets that are inside
    together have no element to move ([pGet_quiet] says when), the cache is a
    linearizable LRU cache ([memory_linearizable]); when two of them move one
    element at once the list can break, and then a later Set never returns
    ([memory_overlapping_gets]).

    Go's memory model gives racing accesses of one word the value of some
    write; the interleavings here are among what it allows, and without a race
    they are all it allows. *)

From stdpp Require Import base option list gmap strings sorting.
From Stdlib Require Import ZArith Lia.
From S2P Require Import Prelude GoErrors CommonErrors MemoryCache RWMutex ListHeap.

Open Scope Z_scope.

(** ** Memory *)

Record PMemory (V : Type) : Type := MkPMemory {
  pitems : gmap string nat;
  pevict : dlist (elementValue V);
  pmax : Z
}.
Arguments MkPMemory {V} _ _ _.
Arguments pitems {V} _.
Arguments pevict {V} _.
Arguments pmax {V} _.

Section Programs.
Context {V : Type}.
Notation mem := (PMemory V).

Definition set_pitems (x : gmap string nat) (s : mem) : mem := MkPMemory x (pevict s) (pmax s).
Definition set_pevict (d : dlist (elementValue V)) (s : mem) : mem :=
  MkPMemory (pitems s) d (pmax s).

(** A call on m.evictList. *)
Definition on_list {A} (p : pm (dlist (elementValue V)) A) : pm mem A := lift pevict set_pevict p.

(** elem.Value, which the root does not have. *)
Definition elem_value (elem : loc) (s : mem) : option (elementValue V) :=
  match elem with Root => None | Elt e => vals (pevict s) !! e end.

(** The result is the *memoryEntry of the element, which stands for it. *)
Definition ptoMemoryEntry (elem : loc) : pm mem (gores loc) :=
  v ← rd (elem_value elem);
  match v with
  | Some (EntryValue _) => mret (Ok elem)
  | _ => mret (Err (ctxerrors.WrapE ErrInvalidValue "unexpected element type in cache list"))
  end.

(** Reading and writing a field of an entry. *)
Definition load_field {B} (entry : loc) (f : memoryEntry V -> B) : pm mem B :=
  v ← rd (elem_value entry);
  match v with Some (EntryValue x) => mret (f x) | _ => panic end.

Definition store_field (entry : loc) (g : memoryEntry V -> memoryEntry V) : pm mem unit :=
  match entry with
  | Root => panic
  | Elt e =>
    wr (fun s => match vals (pevict s) !! e with
                 | Some (EntryValue x) =>
                   set_pevict (set_vals (<[e := EntryValue (g x)]> (vals (pevict s))) (pevict s)) s
                 | _ => s
                 end)
  end.

Definition pNewMemory (maxEntries : Z) : mem := MkPMemory ∅ New maxEntries.

Definition pGet (now : Z) (k : string) : pm mem (gores V) :=
  oe ← rd (fun s => pitems s !! k);
  match oe with
  | None => mret (Err ErrCacheMiss)
  | Some e =>
    r ← ptoMemoryEntry (Elt e);
    match r with
    | Err err => mret (Err err)
    | Ok entry =>
      t ← load_field entry expiresAt;
      if t <? now then mret (Err ErrCacheMiss)
      else
        _ ← on_list (ListHeap.MoveToFront (Elt e));
        v ← load_field entry value;
        mret (Ok v)
    end
  end.

Definition premoveElement (elem : loc) : pm mem (option error) :=
  _ ← on_list (ListHeap.Remove elem);
  r ← ptoMemoryEntry elem;
  match r with
  | Err err => mret (Some err)
  | Ok entry =>
    k ← load_field entry key;
    _ ← wr (fun s => set_pitems (delete k (pitems s)) s);
    mret None
  end.

Definition pevictOldest : pm mem (option error) :=
  oe ← on_list ListHeap.Back;
  match oe with
  | None => mret None
  | Some elem => premoveElement elem
  end.

Fixpoint pevictLoop (fuel : nat) : pm mem (option error) :=
  match fuel with
  | O => Ret Diverges
  | S fuel' =>
    n ← on_list ListHeap.Len;
    mx ← rd pmax;
    if mx <=? n
    then
      r ← pevictOldest;
      match r with
      | Some err => mret (Some err)
      | None => pevictLoop fuel'
      end
    else mret None
  end.

Definition pSet (fuel : nat) (now : Z) (k : string) (val : V) (ttl : Z) : pm mem (option error) :=
  oe ← rd (fun s => pitems s !! k);
  match oe with
  | Some e =>
    _ ← on_list (ListHeap.MoveToFront (Elt e));
    r ← ptoMemoryEntry (Elt e);
    match r with
    | Err err => mret (Some err)
    | Ok entry =>
      _ ← store_field entry (fun x => MkEntry (key x) val (expiresAt x));
      _ ← store_field entry (fun x => MkEntry (key x) (value x) (now + ttl));
      mret None
    end
  | None =>
    r ← pevictLoop fuel;
    match r with
    | Some err => mret (Some err)
    | None =>
      e ← on_list (ListHeap.PushFront (EntryValue (MkEntry k val (now + ttl))));
      _ ← wr (fun s => set_pitems (<[k := e]> (pitems s)) s);
      mret None
    end
  end.

Definition pDelete (k : string) : pm mem (option error) :=
  oe ← rd (fun s => pitems s !! k);
  match oe with
  | None => mret None
  | Some e => premoveElement (Elt e)
  end.

(** for _, elem := range m.items: the keys in the order of this iteration; one
    that is gone is not visited. *)
Fixpoint premoveExpired_loop (now : Z) (ks : list string) : pm mem unit :=
  match ks with
  | [] => mret tt
  | k :: ks' =>
    oe ← rd (fun s => pitems s !! k);
    match oe with
    | None => premoveExpired_loop now ks'
    | Some e =>
      r ← ptoMemoryEntry (Elt e);
      match r with
      | Err _ => premoveExpired_loop now ks'
      | Ok entry =>
        t ← load_field entry expiresAt;
        if t <? now
        then _ ← premoveElement (Elt e); premoveExpired_loop now ks'
        else premoveExpired_loop now ks'
      end
    end
  end.

Definition premoveExpired (iter : gmap string nat -> list (string * nat)) (now : Z) : pm mem unit :=
  ks ← rd (fun s => (iter (pitems s)).*1);
  premoveExpired_loop now ks.
End Programs.

(** ** The operations, run alone, are those of MemoryCache.v *)

Section Sequential.
Context {V : Type}.
Implicit Types (s : PMemory V) (m : Memory V).

Record prepr s m : Prop := {
  pr_items : pitems s = items m;
  pr_vals : vals (pevict s) = elems m;
  pr_fresh : fresh (pevict s) = next m;
  pr_max : pmax s = maxSize m;
  pr_ring : ring (pevict s) (evictList m)
}.

Lemma run_on_list {A} (p : pm _ A) s a d :
  run p (pevict s) = (Returns a, d) -> run (on_list p) s = (Returns a, set_pevict d s).
Proof.
  intros H. unfold on_list.
  rewrite run_lift; [|done|done|by intros []]. by rewrite H.
Qed.

Lemma set_pevict_id s : set_pevict (pevict s) s = s.
Proof. by destruct s. Qed.

Lemma prepr_NewMemory n : prepr (pNewMemory n) (NewMemory n).
Proof. constructor; try done. apply ring_New. Qed.

Lemma prepr_MoveToFront s m e : prepr s m ->
  exists s', run (on_list (ListHeap.MoveToFront (Elt e))) s = (Returns tt, s') /\
    prepr s' (MemoryCache.MoveToFront m e).
Proof.
  intros P. destruct (MoveToFront_spec _ _ e (pr_ring _ _ P)) as (d & E & R & Hv & Hf).
  exists (set_pevict d s). split; [by apply run_on_list|]. destruct P.
  unfold MemoryCache.MoveToFront. case_decide; constructor; simpl; congruence || done.
Qed.

Lemma prepr_ListRemove s m e : prepr s m ->
  exists s', run (on_list (ListHeap.Remove (Elt e))) s = (Returns tt, s') /\
    prepr s' (ListRemove m e).
Proof.
  intros P. destruct (Remove_spec _ _ e (pr_ring _ _ P)) as (d & E & R & Hv & Hf).
  exists (set_pevict d s). split; [by apply run_on_list|]. destruct P.
  constructor; simpl; congruence || done.
Qed.

Lemma run_toMemoryEntry {B} s m e (k : gores loc -> pm _ B) : prepr s m ->
  run (ptoMemoryEntry (Elt e) ≫= k) s =
  run (k (match toMemoryEntry m e with Ok _ => Ok (Elt e) | Err err => Err err end)) s.
Proof.
  intros P. erewrite run_bind_Returns; [done|]. unfold ptoMemoryEntry, toMemoryEntry.
  rewrite run_rd. simpl. rewrite (pr_vals _ _ P). by destruct (elems m !! e) as [[]|].
Qed.

Lemma run_load_field {B C} s m e x (f : memoryEntry V -> C) (k : C -> pm _ B) :
  prepr s m -> toMemoryEntry m e = Ok x ->
  run (load_field (Elt e) f ≫= k) s = run (k (f x)) s.
Proof.
  intros P Hx. apply run_bind_Returns. unfold load_field. rewrite run_rd. simpl.
  rewrite (pr_vals _ _ P). unfold toMemoryEntry in Hx.
  destruct (elems m !! e) as [[]|]; by simplify_eq.
Qed.

Lemma run_store_field s m e x (g : memoryEntry V -> memoryEntry V) :
  prepr s m -> toMemoryEntry m e = Ok x ->
  exists s', run (store_field (Elt e) g) s = (Returns tt, s') /\
    prepr s' (with_elems m (<[e := EntryValue (g x)]> (elems m))).
Proof.
  intros P Hx. unfold store_field. eexists. split; [done|].
  rewrite (pr_vals _ _ P). unfold toMemoryEntry in Hx.
  destruct (elems m !! e) as [[]|]; simplify_eq. destruct P.
  constructor; simpl; try done. destruct pr_ring0. by constructor.
Qed.

(** *** Get, Delete and the loop of Set *)

Lemma pGet_spec s m now k : prepr s m ->
  exists s', run (pGet now k) s = (Returns (Get now k m).1, s') /\ prepr s' (Get now k m).2.
Proof.
  intros P. unfold pGet, Get. rewrite run_rd, (pr_items _ _ P).
  destruct (items m !! k) as [e|]; [|by exists s].
  rewrite (run_toMemoryEntry _ _ _ _ P). destruct (toMemoryEntry m e) as [x|err] eqn:Hx; [|by exists s].
  rewrite (run_load_field _ _ _ _ _ _ P Hx). destruct (expiresAt x <? now); [by exists s|].
  destruct (prepr_MoveToFront s m e P) as (s' & E & P'). rewrite (run_bind_Returns _ _ _ _ _ E). clear E. exists s'. split; [|done].
  rewrite (run_load_field _ _ _ x _ _ P'); [done|].
  unfold MemoryCache.MoveToFront. by case_decide.
Qed.

(** A Get that misses, or finds the most recently used entry, writes nothing. *)
Lemma pGet_quiet s m now k : prepr s m ->
  (forall e, items m !! k = Some e -> head (evictList m) = Some e \/
     forall x, toMemoryEntry m e = Ok x -> expiresAt x < now) ->
  quiet (pGet now k) s.
Proof.
  intros P Hk. unfold pGet. apply quiet_rd. rewrite (pr_items _ _ P).
  destruct (items m !! k) as [e|]; [|done]. specialize (Hk e eq_refl).
  assert (Hval : elem_value (Elt e) s = elems m !! e) by (simpl; by rewrite (pr_vals _ _ P)).
  unfold toMemoryEntry in Hk. destruct (elems m !! e) as [[x|]|] eqn:Ex.
  2-3: by apply (quiet_bind (ptoMemoryEntry (Elt e)) _ _ (Err (ctxerrors.WrapE ErrInvalidValue
         "unexpected element type in cache list"))); unfold ptoMemoryEntry; simpl in *;
         rewrite ?Hval.
  assert (Hfield : forall B (f : memoryEntry V -> B), quiet (load_field (Elt e) f) s /\
    (run (load_field (Elt e) f) s).1 = Returns (f x)).
  { intros B f. unfold load_field. rewrite run_rd, Hval. split; [|done].
    apply quiet_rd. by rewrite Hval. }
  apply (quiet_bind (ptoMemoryEntry (Elt e)) _ _ (Ok (Elt e))).
  { unfold ptoMemoryEntry. apply quiet_rd. by rewrite Hval. }
  { unfold ptoMemoryEntry. by rewrite run_rd, Hval. }
  apply (quiet_bind (load_field (Elt e) expiresAt) _ _ (expiresAt x)); [apply Hfield..|].
  destruct (expiresAt x <? now) eqn:Hx; [done|]. apply Z.ltb_ge in Hx.
  destruct Hk as [Hh|Hexp]; [|specialize (Hexp x eq_refl); lia].
  apply (quiet_bind (on_list (ListHeap.MoveToFront (Elt e))) _ _ tt).
  - apply quiet_lift; [by intros []|]. eapply MoveToFront_quiet; [apply P|by left].
  - destruct (prepr_MoveToFront s m e P) as (s' & -> & _). done.
  - by apply (quiet_bind (load_field (Elt e) value) _ _ (value x)); [apply Hfield..|].
Qed.

Lemma premoveElement_spec s m e : prepr s m ->
  exists s', run (premoveElement (Elt e)) s = (Returns (removeElement e m).1, s') /\
    prepr s' (removeElement e m).2.
Proof.
  intros P. unfold premoveElement, removeElement.
  destruct (prepr_ListRemove s m e P) as (s1 & E & P1). rewrite (run_bind_Returns _ _ _ _ _ E). clear E.
  rewrite (run_toMemoryEntry _ _ _ _ P1).
  destruct (toMemoryEntry (ListRemove m e) e) as [x|err] eqn:Hx; [|by exists s1].
  rewrite (run_load_field _ _ _ _ _ _ P1 Hx), run_wr. eexists. split; [done|].
  destruct P1. constructor; simpl in *; congruence || done.
Qed.

Lemma pDelete_spec s m k : prepr s m ->
  exists s', run (pDelete k) s = (Returns (Delete k m).1, s') /\ prepr s' (Delete k m).2.
Proof.
  intros P. unfold pDelete, Delete. rewrite run_rd, (pr_items _ _ P).
  destruct (items m !! k) as [e|]; [by apply premoveElement_spec|by exists s].
Qed.

Lemma pevictOldest_spec s m : prepr s m ->
  exists s', run pevictOldest s = (Returns (evictOldest m).1, s') /\ prepr s' (evictOldest m).2.
Proof.
  intros P. unfold pevictOldest, evictOldest, MemoryCache.Back.
  rewrite (run_bind_Returns _ _ _ _ _ (run_on_list _ _ _ _ (Back_spec _ _ (pr_ring _ _ P)))).
  rewrite set_pevict_id.
  destruct (last (evictList m)) as [e|]; [by apply premoveElement_spec|by exists s].
Qed.

Lemma pevictLoop_spec fuel : forall s m err m', prepr s m ->
  evictLoop fuel m = Some (err, m') ->
  exists s', run (pevictLoop fuel) s = (Returns err, s') /\ prepr s' m'.
Proof.
  induction fuel as [|fuel IH]; intros s m err m' P H; [done|]. simpl in H. cbn [pevictLoop].
  rewrite (run_bind_Returns _ _ _ _ _ (run_on_list ListHeap.Len s _ _ eq_refl)).
  rewrite set_pevict_id.
  rewrite run_rd, (pr_max _ _ P), (ring_len _ _ (pr_ring _ _ P)).
  destruct (maxSize m <=? _); [|simplify_eq; by exists s].
  destruct (pevictOldest_spec s m P) as (s1 & E1 & P1).
  rewrite (run_bind_Returns _ _ _ _ _ E1).
  destruct (evictOldest m) as [[e|] m1]; simpl in *; [simplify_eq; by exists s1|]. by eapply IH.
Qed.

Lemma pSet_spec fuel s m now k v ttl err m' : prepr s m ->
  Set_ fuel now k v ttl m = Some (err, m') ->
  exists s', run (pSet fuel now k v ttl) s = (Returns err, s') /\ prepr s' m'.
Proof.
  intros P. unfold pSet, Set_. rewrite run_rd, (pr_items _ _ P).
  destruct (items m !! k) as [e|].
  - destruct (prepr_MoveToFront s m e P) as (s1 & E & P1). rewrite (run_bind_Returns _ _ _ _ _ E). clear E.
    rewrite (run_toMemoryEntry _ _ _ _ P1).
    destruct (toMemoryEntry (MemoryCache.MoveToFront m e) e) as [x|err'] eqn:Hx;
      intros H; simplify_eq; [|by exists s1].
    destruct (run_store_field s1 _ e x (fun x => MkEntry (key x) v (expiresAt x)) P1 Hx)
      as (s2 & E2 & P2).
    rewrite (run_bind_Returns _ _ _ _ _ E2).
    destruct (run_store_field s2 _ e (MkEntry (key x) v (expiresAt x))
      (fun x => MkEntry (key x) (value x) (now + ttl)) P2) as (s3 & E3 & P3).
    { unfold toMemoryEntry. simpl. by rewrite lookup_insert_eq. }
    rewrite (run_bind_Returns _ _ _ _ _ E3).
    exists s3. split; [done|]. simpl in P3. unfold with_elems in *. simpl in *.
    by rewrite insert_insert_eq in P3.
  - destruct (evictLoop fuel m) as [[[err'|] m1]|] eqn:El; [..|done]; intros H;
      destruct (pevictLoop_spec _ _ _ _ _ P El) as (s1 & E1 & P1);
      rewrite (run_bind_Returns _ _ _ _ _ E1); [simplify_eq; by exists s1|].
    destruct (PushFront_spec _ _ (EntryValue (MkEntry k v (now + ttl))) (pr_ring _ _ P1))
      as (d & E & R & Hv & Hf).
    rewrite (run_bind_Returns _ _ _ _ _ (run_on_list _ _ _ _ E)), run_wr. simpl in H. simplify_eq. eexists. split; [done|].
    destruct P1. constructor; simpl; congruence || done.
Qed.

(** The cleanup visits the entries of the map it started with. *)
Lemma premoveExpired_loop_spec now order : forall s m, prepr s m ->
  NoDup order.*1 ->
  (forall k e, (k, e) ∈ order ->
    items m !! k = Some e /\ forall x, toMemoryEntry m e = Ok x -> key x = k) ->
  exists s', run (premoveExpired_loop now order.*1) s = (Returns tt, s') /\
    prepr s' (removeExpired now order m).
Proof.
  induction order as [|[k e] order IH]; intros s m P Hnd Hin; [by exists s|].
  simpl in Hnd. apply NoDup_cons in Hnd as [Hk Hnd].
  destruct (Hin k e ltac:(by left)) as [He Hkey].
  assert (Hin' : forall k' e', (k', e') ∈ order ->
    items m !! k' = Some e' /\ forall x, toMemoryEntry m e' = Ok x -> key x = k').
  { intros k' e' H'. apply Hin. by right. }
  cbn [fmap list_fmap premoveExpired_loop removeExpired fst]. rewrite run_rd, (pr_items _ _ P), He.
  rewrite (run_toMemoryEntry _ _ _ _ P).
  destruct (toMemoryEntry m e) as [x|err] eqn:Hx; [|by apply IH].
  rewrite (run_load_field _ _ _ _ _ _ P Hx). destruct (expiresAt x <? now); [|by apply IH].
  destruct (premoveElement_spec s m e P) as (s1 & E1 & P1).
  rewrite (run_bind_Returns _ _ _ _ _ E1). apply IH; [done..|].
  intros k' e' H'. destruct (Hin' k' e' H') as [He' Hkey'].
  assert (k' <> k) as Hne.
  { intros ->. apply Hk, list_elem_of_fmap. by exists (k, e'). }
  unfold removeElement. change (toMemoryEntry (ListRemove m e) e) with (toMemoryEntry m e).
  rewrite Hx. simpl. rewrite (Hkey x eq_refl), lookup_delete_ne by done. split; [done|].
  exact Hkey'.
Qed.
End Sequential.

(** ** The operations under the lock *)

Inductive cacheOp (V : Type) : Type :=
| CGet (now : Z) (k : string)
| CSet (now : Z) (k : string) (v : V) (ttl : Z)
| CDelete (k : string)
| CTick (now : Z) (seed : nat).
Arguments CGet {V} _ _.
Arguments CSet {V} _ _ _ _.
Arguments CDelete {V} _.
Arguments CTick {V} _ _.

Inductive cacheRes (V : Type) : Type :=
| CValue (r : outcome (gores V))
| CError (r : outcome (option error))
| CDone (r : outcome unit).
Arguments CValue {V} _.
Arguments CError {V} _.
Arguments CDone {V} _.

Section Concurrent.
Context {V : Type}.

(** The loop of Set has [fuel] turns; the cleanup's map iteration takes any
    order, as in LockedMap.v. *)
Context (fuel : nat) (iter : nat -> gmap string nat -> list (string * nat)).

Definition cacheMode (op : cacheOp V) : lockMode :=
  match op with
  | CGet _ _ => RLock
  | CSet _ _ _ _ | CDelete _ | CTick _ _ => Lock
  end.

Definition cacheBody (op : cacheOp V) : prog (PMemory V) (cacheRes V) :=
  match op with
  | CGet now k => pbind (pGet now k) (fun o => Ret (CValue o))
  | CSet now k v ttl => pbind (pSet fuel now k v ttl) (fun o => Ret (CError o))
  | CDelete k => pbind (pDelete k) (fun o => Ret (CError o))
  | CTick now seed => pbind (premoveExpired (iter seed) now) (fun o => Ret (CDone o))
  end.

(** What an LRU cache of capacity [cap] does in one step. *)
Definition lruSpec (cap : nat) (op : cacheOp V) (l : list (memoryEntry V))
  : cacheRes V * list (memoryEntry V) :=
  match op with
  | CGet now k => (CValue (Returns (lru_get now k l).1), (lru_get now k l).2)
  | CSet now k v ttl => (CError (Returns None), lru_set cap now k v ttl l)
  | CDelete k => (CError (Returns None), lru_delete k l)
  | CTick now _ => (CDone (Returns tt), lru_expire now l)
  end.

(** The fields of [s] hold the LRU list [l]. *)
Definition holds (n : Z) (s : PMemory V) (l : list (memoryEntry V)) : Prop :=
  exists m, prepr s m /\ models m l /\ maxSize m = n /\ (length l <= Z.to_nat n)%nat.

Lemma holds_intro n m s l :
  prepr s m -> models m l -> maxSize m = n -> (length l <= Z.to_nat n)%nat -> holds n s l.
Proof. intros. by exists m. Qed.

Context (iter_order : forall seed m, iter seed m ≡ₚ map_to_list m).

Lemma premoveExpired_spec (s : PMemory V) (m : Memory V) l now seed : prepr s m -> models m l ->
  exists s', run (premoveExpired (iter seed) now) s = (Returns tt, s') /\
    prepr s' (removeExpired now (iter seed (items m)) m).
Proof.
  intros P (p & R & ->). unfold premoveExpired. rewrite run_rd, (pr_items _ _ P).
  apply premoveExpired_loop_spec; [done|rewrite iter_order; apply NoDup_fst_map_to_list|].
  intros k e. rewrite (iter_order seed), elem_of_map_to_list. intros Hk. split; [done|].
  apply (repr_items _ _ R) in Hk as (x & Hx & <-). intros x'.
  rewrite (repr_toMemoryEntry _ _ _ _ R Hx). by intros [= ->].
Qed.

Lemma cacheBody_holds n op s l : 1 <= n -> (Z.to_nat n < fuel)%nat -> holds n s l ->
  (run (cacheBody op) s).1 = (lruSpec (Z.to_nat n) op l).1 /\
  holds n (run (cacheBody op) s).2 (lruSpec (Z.to_nat n) op l).2.
Proof.
  intros Hn Hfuel (m & P & M & Hm & Hl).
  assert (Hlen : forall ev, (length (spec_step (Z.to_nat n) l ev) <= Z.to_nat n)%nat).
  { intros ev. apply spec_step_bounded; [lia|done]. }
  destruct op as [now k|now k v ttl|k|now seed]; unfold cacheBody; rewrite run_pbind.
  - destruct (Get_models m l now k M) as (E & M' & Hm').
    destruct (pGet_spec s m now k P) as (s' & -> & P'). simpl. rewrite E. split; [done|].
    eapply holds_intro; [done|done|congruence|].
    apply (Hlen (EGet now k (Err ErrCacheMiss))).
  - destruct (Set_models m l fuel now k v ttl M ltac:(lia) ltac:(lia)) as (m' & E & M' & Hm').
    destruct (pSet_spec fuel s m now k v ttl None m' P E) as (s' & -> & P'). simpl. split; [done|].
    rewrite Hm in M'. eapply holds_intro; [done|done|congruence|].
    apply (Hlen (ESet now k v ttl None)).
  - destruct (Delete_models m l k M) as (E & M' & Hm').
    destruct (pDelete_spec s m k P) as (s' & -> & P'). simpl. rewrite E. split; [done|].
    eapply holds_intro; [done|done|congruence|]. apply (Hlen (EDelete k None)).
  - destruct (premoveExpired_spec s m l now seed P M) as (s' & -> & P'). simpl. split; [done|].
    destruct (removeExpired_models m l now _ M (iter_order seed (items m))) as (M' & Hm').
    eapply holds_intro; [done|done|congruence|]. apply (Hlen (ETick now)).
Qed.

(** C2. As long as Gets that are inside together have no element to move, which is
    so when they miss or find the most recently used entry, the cache is a
    linearizable LRU cache: however the accesses of any number of
    goroutines interleave, every Get, Set and Delete returns what the LRU list
    of capacity n gives when the calls run one at a time, each at some moment
    between its call and its return; none panics, fails or does not return; and
    in the end the key map, the entries and the next and prev pointers hold that
    list. *)
Theorem memory_linearizable (n : Z) tr c :
  1 <= n -> (Z.to_nat n < fuel)%nat ->
  exec cacheMode cacheBody (readers_apart cacheMode) (MkConf (pNewMemory n) ∅) tr c ->
  exists a, aexec (lruSpec (Z.to_nat n)) (MkAConf [] ∅) tr a /\
    (threads c = ∅ -> athreads a = ∅ /\ holds n (shared c) (astate a)).
Proof.
  intros Hn Hfuel Hx. destruct (apart_linearizable _ _ _ _ _ Hx) as (a & Ha & Hend).
  destruct (aexec_refines (fun op => run (cacheBody op)) (lruSpec (Z.to_nat n)) (holds n)
    (pNewMemory n) ∅ tr a) with (b := [] : list (memoryEntry V)) as (l & Hl & Hlx); [..|done|].
  - intros op s l. by apply cacheBody_holds.
  - apply (holds_intro _ (NewMemory n)); [apply prepr_NewMemory|apply models_NewMemory|done|simpl; lia].
  - eexists. split; [exact Hlx|]. intros Hts. by rewrite (Hend Hts) in *.
Qed.

(** With Lock in place of RLock, Get could not overlap, and the condition of
    [memory_linearizable] would hold of every execution. *)
Lemma lock_keeps_apart s tr c :
  exec (fun _ => Lock) cacheBody (fun _ => True) (MkConf s ∅) tr c ->
  exec (fun _ => Lock) cacheBody (readers_apart (fun _ => Lock)) (MkConf s ∅) tr c.
Proof. by apply locked_apart. Qed.
End Concurrent.

(** ** Two Gets of one key at once *)

Section Race.
Context {V : Type}.
Implicit Types s : PMemory V.

(** The list's last pointer is an element that is not in the list. *)
Record stuck (e : nat) (x : memoryEntry V) s : Prop := {
  stuck_back : prv (pevict s) Root = Some (Elt e);
  stuck_out : own (pevict s) (Elt e) = false;
  stuck_entry : vals (pevict s) !! e = Some (EntryValue x);
  stuck_len : 0 < len (pevict s);
  stuck_full : pmax s <= len (pevict s)
}.

Lemma stuck_evictOldest e x s : stuck e x s ->
  run pevictOldest s = (Returns None, set_pitems (delete (key x) (pitems s)) s).
Proof.
  intros [H1 H2 H3 H4 H5]. destruct s as [its [nx pv ow ln vs fr] mx]. simpl in *.
  unfold pevictOldest, premoveElement. simpl.
  destruct (Z.eqb_spec ln 0) as [|_]; [lia|]. simpl.
  rewrite H1. simpl. rewrite H2. simpl. rewrite H3. simpl. by rewrite H3.
Qed.

Lemma stuck_evictLoop e x fuel : forall s, stuck e x s -> (run (pevictLoop fuel) s).1 = Diverges.
Proof.
  induction fuel as [|fuel IH]; intros s Hs; [done|]. cbn [pevictLoop].
  rewrite (run_bind_Returns _ _ _ _ _ (run_on_list ListHeap.Len s _ _ eq_refl)).
  rewrite set_pevict_id.
  rewrite run_rd, (proj2 (Z.leb_le _ _)) by apply Hs.
  rewrite (run_bind_Returns _ _ _ _ _ (stuck_evictOldest _ _ _ Hs)). apply IH.
  destruct Hs. by constructor.
Qed.

Lemma stuck_Set e x fuel now k v ttl s : stuck e x s -> pitems s !! k = None ->
  (run (pSet fuel now k v ttl) s).1 = Diverges.
Proof.
  intros Hs Hk. unfold pSet. rewrite run_rd, Hk. unfold mbind, pm_bind. rewrite run_pbind.
  by rewrite (stuck_evictLoop e x fuel s Hs).
Qed.

(** A cache of two entries: "a" and "b" are set; goroutines 1 and 2 get "a",
    the least recently used key, both inside at once; then "c" is set. *)
Context (iter : nat -> gmap string nat -> list (string * nat)) (a b c : V).

Definition gos (t n : nat) : list (choice (Op := cacheOp V)) := replicate n (Go t).

Definition race_schedule : list (choice (Op := cacheOp V)) :=
  Call 0 (CSet 0 "a" a 100) :: gos 0 19 ++
  Call 0 (CSet 0 "b" b 100) :: gos 0 19 ++
  [Call 1 (CGet 1 "a"); Call 2 (CGet 1 "a")] ++ gos 1 5 ++ gos 2 5 ++
  gos 1 9 ++ gos 2 13 ++ gos 1 5 ++ gos 2 1 ++ gos 1 3 ++ gos 2 3 ++
  Call 0 (CSet 2 "c" c 100) :: gos 0 38.

Definition race_calls : list (label (cacheOp V) (cacheRes V)) :=
  [Invoke 0 (CSet 0 "a" a 100); Result 0 (CSet 0 "a" a 100) (CError (Returns None));
   Invoke 0 (CSet 0 "b" b 100); Result 0 (CSet 0 "b" b 100) (CError (Returns None));
   Invoke 1 (CGet 1 "a"); Invoke 2 (CGet 1 "a");
   Result 1 (CGet 1 "a") (CValue (Returns (Ok a)));
   Result 2 (CGet 1 "a") (CValue (Returns (Ok a)));
   Invoke 0 (CSet 2 "c" c 100); Result 0 (CSet 2 "c" c 100) (CError (Returns None))].

Definition race_run (fuel : nat)
  : option (list (label (cacheOp V) (cacheRes V)) * conf (PMemory V) (cacheOp V) (cacheRes V)) :=
  play cacheMode (cacheBody (3 + fuel) iter) (fun _ => true) race_schedule
    (MkConf (pNewMemory 2) ∅).

Lemma race_run_calls fuel : fst <$> race_run fuel = Some race_calls.
Proof. vm_compute. reflexivity. Qed.

Lemma race_run_threads fuel : (fun r => threads r.2) <$> race_run fuel = Some ∅.
Proof. vm_compute. reflexivity. Qed.

Definition race_shared (fuel : nat) : PMemory V :=
  from_option (fun r => shared r.2) (pNewMemory 2) (race_run fuel).

Lemma race_shared_stuck fuel : stuck 0 (MkEntry "a" a 100) (race_shared fuel).
Proof. constructor; vm_compute; done. Qed.

Lemma race_shared_items fuel : pitems (race_shared fuel) = {["b" := 1%nat; "c" := 2%nat]}.
Proof. vm_compute. reflexivity. Qed.

(** C5. Overlapping Gets break the cache: a cache of two entries has an execution in
    which two goroutines get the same cached key at once, both with the right
    answer, and after which, with every goroutine out and one more key set, no
    Set of a key that is not cached ever returns: its eviction loop finds an
    element that is no longer in the list and removes nothing, however many
    turns it takes, with the write lock held. *)
Theorem memory_overlapping_gets (fuel : nat) :
  exists cf, exec cacheMode (cacheBody (3 + fuel) iter) (fun _ => True)
               (MkConf (pNewMemory 2) ∅) race_calls cf /\
    threads cf = ∅ /\
    (forall fuel' now k v ttl, k <> "b" -> k <> "c" ->
       (run (pSet fuel' now k v ttl) (shared cf)).1 = Diverges).
Proof.
  pose proof (race_run_calls fuel) as H1. pose proof (race_run_threads fuel) as H2.
  pose proof (race_shared_stuck fuel) as H3. pose proof (race_shared_items fuel) as H4.
  unfold race_shared in *. destruct (race_run fuel) as [[tr cf]|] eqn:E; [|done].
  simpl in *. injection H1 as ->. injection H2 as H2. exists cf. split; [|split; [done|]].
  - by apply (play_exec _ _ _ (fun _ => true) race_schedule).
  - intros fuel' now k v ttl Hb Hc. eapply stuck_Set; [done|]. by rewrite H4, lookup_insert_ne, lookup_singleton_ne by (by apply not_eq_sym).
Qed.
End Race.

(** ** Witnesses *)

Definition demo_order (_ : nat) (m : gmap string nat) : list (string * nat) := map_to_list m.

(** Calls overlap, and a Get that waits for a Set; nobody is inside with
    another. *)
Definition demo_plan : list (choice (Op := cacheOp nat)) :=
  Call 0 (CSet 0 "a" 1%nat 100) :: Call 1 (CGet 1 "a") :: gos 0 18 ++
  gos 1 5 ++ Call 2 (CSet 1 "b" 2%nat 5) :: gos 1 4 ++ Go 0 :: gos 2 19 ++
  Call 0 (CTick 50 0) :: gos 0 25.

Definition demo_seen : list (label (cacheOp nat) (cacheRes nat)) :=
  [Invoke 0 (CSet 0 "a" 1%nat 100); Invoke 1 (CGet 1 "a"); Invoke 2 (CSet 1 "b" 2%nat 5);
   Result 1 (CGet 1 "a") (CValue (Returns (Ok 1%nat)));
   Result 0 (CSet 0 "a" 1%nat 100) (CError (Returns None));
   Result 2 (CSet 1 "b" 2%nat 5) (CError (Returns None));
   Invoke 0 (CTick 50 0); Result 0 (CTick 50 0) (CDone (Returns tt))].

Definition demo_execution
  : option (list (label (cacheOp nat) (cacheRes nat)) * conf (PMemory nat) (cacheOp nat) (cacheRes nat)) :=
  play cacheMode (cacheBody 3 demo_order) one_inside demo_plan (MkConf (pNewMemory 2) ∅).

Lemma demo_execution_seen : fst <$> demo_execution = Some demo_seen.
Proof. vm_compute. reflexivity. Qed.

Lemma memory_linearizable_witness :
  exists a, aexec (lruSpec 2) (MkAConf [] ∅) demo_seen a.
Proof.
  pose proof demo_execution_seen as Hseen.
  destruct demo_execution as [[tr c]|] eqn:E; [|discriminate Hseen].
  injection Hseen as ->.
  destruct (memory_linearizable 3 demo_order ltac:(done) 2 demo_seen c) as (a & Ha & _);
    [lia|lia| |by exists a].
  apply (play_exec _ _ _ one_inside demo_plan); [apply one_inside_apart|exact E].
Defined.

Lemma memory_overlapping_gets_witness :
  exists cf, exec cacheMode (cacheBody 3 demo_order) (fun _ => True)
               (MkConf (pNewMemory 2) ∅) (race_calls 1%nat 2%nat 3%nat) cf /\
    (run (pSet 1000 5 "d" 4%nat 100) (shared cf)).1 = Diverges.
Proof.
  destruct (memory_overlapping_gets demo_order 1%nat 2%nat 3%nat 0) as (cf & Hx & _ & Hs).
  exists cf. split; [exact Hx|]. by apply Hs.
Defined.
