(* ===== verification/Caches.v ===== *)
(** * cache: the Cache interface, its Redis implementation and its configuration

    cache.go's interface is a record of operations ([Cache]) with the class
    [CacheLaws] of what a client may rely on; redis.go and memory.go are two
    instances, and config.go's New picks one.  The Redis server is an argument
    ([UniversalClient]) with the documented behaviour of GET, SET and DEL
    ([RedisLaws]); what go-redis sends for a SET is translated.

    [W] is the state the operations work on: the process's memory and the
    server.  Times are nanoseconds. *)

From stdpp Require Import base option list gmap strings.
From Stdlib Require Import ZArith Lia.
From S2P Require Import Prelude GoErrors MemoryCache.

Open Scope Z_scope.

(** ** cache.go *)

(** The methods of the interface, and what happens to the state between two
    calls ([background]).  [None]: the call does not return. *)
Record Cache (W V : Type) : Type := MkCache {
  cGet : Z -> string -> W -> gores V * W;
  cSet : Z -> string -> V -> Z -> W -> option (option error * W);
  cDelete : string -> W -> option error * W;
  cClose : W -> option (option error * W);
  background : Z -> W -> W -> Prop
}.
Arguments MkCache {W V} _ _ _ _ _.
Arguments cGet {W V} _ _ _ _.
Arguments cSet {W V} _ _ _ _ _ _.
Arguments cDelete {W V} _ _ _.
Arguments cClose {W V} _ _.
Arguments background {W V} _ _ _ _.

Section Interface.
Context {W V : Type}.

(** A value with the time it is kept to ([None]: forever). *)
Abbreviation item := (V * option Z)%type.

Definition alive (now : Z) (d : option Z) : Prop :=
  match d with None => True | Some d => now <= d end.

(** Contents may get lost, never appear. *)
Definition shrinks (h h' : string -> option item) : Prop :=
  forall k, h' k = h k \/ h' k = None.

(** The same, except for one key. *)
Definition shrinks_but (k : string) (h h' : string -> option item) : Prop :=
  forall k', k' <> k -> h' k' = h k' \/ h' k' = None.

(** What a cache promises, for times to live of at least [resolution]. *)
Class CacheLaws (c : Cache W V) : Type := {
  resolution : Z;
  valid : W -> Prop;
  holds : W -> string -> option item;
  get_law : forall now k w, valid w ->
    valid (cGet c now k w).2 /\ shrinks (holds w) (holds (cGet c now k w).2) /\
    match (cGet c now k w).1 with
    | Ok v => exists d, holds w k = Some (v, d) /\ alive now ((fun z => z + resolution) <$> d)
    | Err e => ctxerrors.Is e "cache miss" ->
               forall v d, holds w k = Some (v, d) -> ~ alive now d
    end;
  set_law : forall now k v ttl w, valid w -> Millisecond <= ttl ->
    exists err w', cSet c now k v ttl w = Some (err, w') /\ valid w' /\
      shrinks_but k (holds w) (holds w') /\
      let new := exists d, holds w' k = Some (v, Some d) /\ now + ttl - resolution <= d <= now + ttl in
      match err with
      | None => new
      | Some _ => new \/ holds w' k = holds w k \/ holds w' k = None
      end;
  delete_law : forall k w, valid w ->
    valid (cDelete c k w).2 /\ shrinks_but k (holds w) (holds (cDelete c k w).2) /\
    match (cDelete c k w).1 with
    | None => holds (cDelete c k w).2 k = None
    | Some _ => holds (cDelete c k w).2 k = holds w k \/ holds (cDelete c k w).2 k = None
    end;
  close_law : forall w err w', valid w -> cClose c w = Some (err, w') ->
    valid w' /\ holds w' = holds w;
  background_law : forall now w w', valid w -> background c now w w' ->
    valid w' /\ shrinks (holds w) (holds w')
}.

(** *** Runs of a cache *)

Inductive cstep (c : Cache W V) : W -> event V -> W -> Prop :=
| cstep_get w now k r w' : cGet c now k w = (r, w') -> cstep c w (EGet now k r) w'
| cstep_set w now k v ttl err w' :
    cSet c now k v ttl w = Some (err, w') -> cstep c w (ESet now k v ttl err) w'
| cstep_delete w k err w' : cDelete c k w = (err, w') -> cstep c w (EDelete k err) w'
| cstep_tick w now w' : background c now w w' -> cstep c w (ETick now) w'
| cstep_close w err w' : cClose c w = Some (err, w') -> cstep c w EClose w'.

Inductive csteps (c : Cache W V) : W -> list (event V) -> W -> Prop :=
| csteps_nil w : csteps c w [] w
| csteps_snoc w tr w' ev w'' :
    csteps c w tr w' -> cstep c w' ev w'' -> csteps c w (tr ++ [ev]) w''.

(** The items a key may hold after one more event, given those before. *)
Definition candidates_step (k : string) (before : list item) (ev : event V) : list item :=
  match ev with
  | ESet t k' v ttl err =>
    if decide (k' = k) then (v, Some (t + ttl)) :: match err with None => [] | Some _ => before end
    else before
  | EDelete k' err =>
    if decide (k' = k) then match err with None => [] | Some _ => before end else before
  | _ => before
  end.

(** The writes a read may see: the last successful one and the failed ones
    after it. *)
Definition candidates (k : string) (base : option item) (tr : list (event V)) : list item :=
  foldl (candidates_step k) (option_list base) tr.

(** Every Set of the run asks for at least a millisecond. *)
Definition ttl_ok (ev : event V) : Prop :=
  match ev with ESet _ _ _ ttl _ => Millisecond <= ttl | _ => True end.

(** [x] is one of [l], or a shortening of one. *)
Definition from (x : item) (l : list item) : Prop :=
  exists d', (x.1, d') ∈ l /\ forall now, alive now x.2 -> alive now d'.

Context (c : Cache W V) `{L : !CacheLaws c}.

Definition tracks (k : string) (w : W) (l : list item) : Prop :=
  forall x, holds w k = Some x -> from x l.

Lemma from_cons x y l : from x l -> from x (y :: l).
Proof. intros (d & Hd & H). exists d. split; [by right|done]. Qed.

Lemma tracks_mono k w w' l :
  tracks k w l -> holds w' k = holds w k \/ holds w' k = None -> tracks k w' l.
Proof. intros H [E|E] x Hx; rewrite E in Hx; [by apply H|done]. Qed.

Lemma tracks_new k w v d t ttl l :
  holds w k = Some (v, Some d) -> d <= t + ttl -> tracks k w ((v, Some (t + ttl)) :: l).
Proof.
  intros E Hd x Hx. rewrite E in Hx. simplify_eq.
  exists (Some (t + ttl)). split; [by left|]. simpl. lia.
Qed.

Lemma cstep_tracks k w ev w' l :
  valid w -> ttl_ok ev -> cstep c w ev w' -> tracks k w l ->
  valid w' /\ tracks k w' (candidates_step k l ev).
Proof.
  intros Hv Hok Hs Ht. destruct Hs as [w now k' r w' E|w now k' v ttl err w' E|w k' err w' E|w now w' E|w err w' E];
    simpl in *.
  - destruct (get_law now k' w Hv) as (Hv' & Hsh & _). rewrite E in *. split; [done|].
    eapply tracks_mono; [done|apply Hsh].
  - destruct (set_law now k' v ttl w Hv Hok) as (err' & w2 & E' & Hv' & Hsh & Hk).
    rewrite E in E'. simplify_eq. split; [done|]. case_decide as Hkk.
    + subst k'. simpl in Hk. destruct err'.
      * destruct Hk as [(d & Hd & Hle)|Hk]; [eapply tracks_new; [done|lia]|].
        intros x Hx. apply from_cons. revert x Hx. by eapply tracks_mono.
      * destruct Hk as (d & Hd & Hle). eapply tracks_new; [done|lia].
    + eapply tracks_mono; [done|]. by apply Hsh.
  - destruct (delete_law k' w Hv) as (Hv' & Hsh & Hk). rewrite E in *. simpl in *.
    split; [done|]. case_decide as Hkk.
    + subst k'. destruct err; [by eapply tracks_mono|]. intros x Hx. congruence.
    + eapply tracks_mono; [done|]. by apply Hsh.
  - destruct (background_law now w w' Hv E) as [Hv' Hsh]. split; [done|].
    eapply tracks_mono; [done|apply Hsh].
  - destruct (close_law w err w' Hv E) as [Hv' Hh]. split; [done|].
    eapply tracks_mono; [done|]. left. by rewrite Hh.
Qed.

Lemma csteps_tracks k w tr w' :
  valid w -> Forall ttl_ok tr -> csteps c w tr w' ->
  valid w' /\ tracks k w' (candidates k (holds w k) tr).
Proof.
  intros Hv Hok Hs. induction Hs as [w|w tr w1 ev w2 Hs IH H1].
  - split; [done|]. intros [v d] Hx. exists d. simpl. rewrite Hx. split; [by left|done].
  - apply Forall_app in Hok as [Hok1 Hok2]. rewrite Forall_singleton in Hok2.
    destruct (IH Hv Hok1) as [Hv1 Ht1]. unfold candidates. rewrite foldl_app. simpl.
    apply (cstep_tracks k w1 ev w2 _ Hv1 Hok2 H1 Ht1).
Qed.

(** What every lawful cache gives a client: reads are never stale, and a Set
    that succeeded is read back. *)
Definition coherent (w0 : W) (base : string -> option item) (res : Z) : Prop :=
  forall tr w, csteps c w0 tr w -> Forall ttl_ok tr ->
  (forall now k v w', cGet c now k w = (Ok v, w') ->
     exists d, (v, d) ∈ candidates k (base k) tr /\ alive now ((fun z => z + res) <$> d)) /\
  (forall now k v ttl, Millisecond <= ttl ->
     exists err w1, cSet c now k v ttl w = Some (err, w1) /\
       (err = None -> forall now', now' <= now + ttl - res ->
          match (cGet c now' k w1).1 with
          | Ok v' => v' = v
          | Err e => ctxerrors.Is e "cache miss" = false
          end)).

Lemma coherent_base w0 base base' res :
  (forall k, base k = base' k) -> coherent w0 base res -> coherent w0 base' res.
Proof. intros Hb H tr w Hs Hok. setoid_rewrite <- Hb. by apply H. Qed.

Lemma lawful_coherent w0 : valid w0 -> coherent w0 (holds w0) resolution.
Proof.
  intros Hv0 tr w Hs Hok. split.
  - intros now k v w' E. destruct (csteps_tracks k w0 tr w Hv0 Hok Hs) as [Hv Ht].
    destruct (get_law now k w Hv) as (_ & _ & Hg). rewrite E in Hg. simpl in Hg.
    destruct Hg as (d & Hh & Ha). destruct (Ht _ Hh) as (d' & Hd' & Himp). simpl in *.
    exists d'. split; [done|]. destruct d as [d|]; simpl in *.
    + assert (alive (now - resolution) d') as H by (apply Himp; lia). destruct d'; simpl in *; [lia|done].
    + destruct d' as [d'|]; simpl in *; [|done]. specialize (Himp (d' + 1) I). lia.
  - intros now k v ttl Httl. destruct (csteps_tracks k w0 tr w Hv0 Hok Hs) as [Hv _].
    destruct (set_law now k v ttl w Hv Httl) as (err & w1 & E & Hv1 & _ & Hk).
    exists err, w1. split; [done|]. intros -> now' Hnow. destruct Hk as (d & Hd & Hle).
    destruct (get_law now' k w1 Hv1) as (_ & _ & Hg).
    destruct ((cGet c now' k w1).1) as [v'|e].
    + destruct Hg as (d' & Hd' & _). congruence.
    + destruct (ctxerrors.Is e "cache miss") eqn:Hm; [|done].
      exfalso. eapply (Hg Logic.I v (Some d)); [done|]. simpl. lia.
Qed.
End Interface.

(** ** redis.go *)

Definition Nil : string := "redis: nil".
Definition redisKeyPrefix : string := "cache:".

(** The expiry argument of a SET command. *)
Inductive expiry : Type :=
| NoExpiry
| PX (ms : Z)
| EX (s : Z)
| KEEPTTL.

(** go-redis: usePrecise, formatMs, formatSec.  Durations are int64, whose
    division truncates. *)
Definition usePrecise (dur : Z) : bool := (dur <? Second) || negb (Z.rem dur Second =? 0).

Definition formatMs (dur : Z) : Z :=
  if (0 <? dur) && (dur <? Millisecond) then 1 else Z.quot dur Millisecond.

Definition formatSec (dur : Z) : Z :=
  if (0 <? dur) && (dur <? Second) then 1 else Z.quot dur Second.

(** The expiry cmdable.Set sends for a duration. *)
Definition set_expiry (expiration : Z) : expiry :=
  if 0 <? expiration
  then if usePrecise expiration then PX (formatMs expiration) else EX (formatSec expiration)
  else if expiration =? -1 then KEEPTTL else NoExpiry.

(** A client: the three commands with their replies ([Ok None]: the nil reply),
    and the server's own steps. *)
Record UniversalClient (R V : Type) : Type := MkClient {
  doGet : Z -> string -> R -> gores (option V) * R;
  doSet : Z -> string -> V -> expiry -> R -> option error * R;
  doDel : string -> R -> option error * R;
  evolves : Z -> R -> R -> Prop
}.
Arguments MkClient {R V} _ _ _ _.
Arguments doGet {R V} _ _ _ _.
Arguments doSet {R V} _ _ _ _ _ _.
Arguments doDel {R V} _ _ _.
Arguments evolves {R V} _ _ _ _.

(** StringCmd.Bytes of a GET: the nil reply is the error redis.Nil. *)
Definition Bytes {V} (reply : gores (option V)) : gores V :=
  match reply with
  | Ok (Some v) => Ok v
  | Ok None => Err (Sentinel Nil)
  | Err e => Err e
  end.

Record Redis (R V : Type) : Type := MkRedis {
  client : UniversalClient R V;
  keyPrefix : string
}.
Arguments MkRedis {R V} _ _.
Arguments client {R V} _.
Arguments keyPrefix {R V} _.

Module RedisCache.
Section Ops.
Context {R V : Type}.
Implicit Types r : Redis R V.

Definition NewRedis (c : UniversalClient R V) : Redis R V := MkRedis c EmptyString.

Definition NewRedisWithPrefix (c : UniversalClient R V) (prefix : string) : Redis R V :=
  MkRedis c prefix.

Definition buildKey r (key : string) : string := keyPrefix r +:+ redisKeyPrefix +:+ key.

Definition Get r (now : Z) (key : string) (s : R) : gores V * R :=
  let '(reply, s') := doGet (client r) now (buildKey r key) s in
  (match Bytes reply with
   | Err err => if ctxerrors.Is err Nil then Err ErrCacheMiss
                else Err (ctxerrors.WrapE err "redis get")
   | Ok val => Ok val
   end, s').

Definition Set_ r (now : Z) (key : string) (val : V) (ttl : Z) (s : R) : option error * R :=
  let '(err, s') := doSet (client r) now (buildKey r key) val (set_expiry ttl) s in
  (match err with
   | Some err => Some (ctxerrors.WrapE err "redis set")
   | None => None
   end, s').

Definition Delete r (key : string) (s : R) : option error * R :=
  let '(err, s') := doDel (client r) (buildKey r key) s in
  (match err with
   | Some err => Some (ctxerrors.WrapE err "redis delete")
   | None => None
   end, s').

Definition Close r : option error := None.
End Ops.
End RedisCache.

(** The deadline a SET gives a key that had the deadline [old]. *)
Definition deadline (now : Z) (e : expiry) (old : option Z) : option Z :=
  match e with
  | NoExpiry => None
  | PX ms => Some (now + ms * Millisecond)
  | EX s => Some (now + s * Second)
  | KEEPTTL => old
  end.

(** Redis as documented: a key is kept to its deadline, within a millisecond,
    unless the server evicts it; a command that fails may have been carried out
    or not; the keys are not written by anyone else. *)
Class RedisLaws {R V} (c : UniversalClient R V) : Type := {
  db : R -> string -> option (V * option Z);
  redis_get : forall now k s,
    shrinks (db s) (db (doGet c now k s).2) /\
    match (doGet c now k s).1 with
    | Ok (Some v) => exists d, db s k = Some (v, d) /\ alive now ((fun z => z + Millisecond) <$> d)
    | Ok None => forall v d, db s k = Some (v, d) -> ~ alive now d
    | Err e => ctxerrors.Is e Nil = false /\ ctxerrors.Is e "cache miss" = false
    end;
  redis_set : forall now k v e s,
    shrinks_but k (db s) (db (doSet c now k v e s).2) /\
    let new := exists old, (old = None \/ old = (db s k ≫= snd)) /\
                 db (doSet c now k v e s).2 k = Some (v, deadline now e old) in
    match (doSet c now k v e s).1 with
    | None => new
    | Some _ => new \/ db (doSet c now k v e s).2 k = db s k \/ db (doSet c now k v e s).2 k = None
    end;
  redis_del : forall k s,
    shrinks_but k (db s) (db (doDel c k s).2) /\
    match (doDel c k s).1 with
    | None => db (doDel c k s).2 k = None
    | Some _ => db (doDel c k s).2 k = db s k \/ db (doDel c k s).2 k = None
    end;
  redis_evolves : forall now s s', evolves c now s s' -> shrinks (db s) (db s')
}.

(** ** config.go *)

Record Config : Type := MkConfig {
  Mode : string;
  TTL : Z;
  MaxEntries : Z;
  RedisKeyPrefix : string
}.

Record Options (R V : Type) : Type := MkOptions {
  config : Config;
  RedisClient : option (UniversalClient R V)
}.
Arguments MkOptions {R V} _ _.
Arguments config {R V} _.
Arguments RedisClient {R V} _.

Definition ErrInvalidCacheMode : error := Sentinel "invalid cache mode".

(** ParseConfig; the result of gonfiguration.Parse is an argument, which Configs.v computes. *)
Definition ParseConfig (parsed : gores Config) : gores Config :=
  match parsed with
  | Err err => Err (ctxerrors.WrapE err "parse cache config")
  | Ok cfg => Ok cfg
  end.

Section Build.
Context {R V : Type}.

(** The state the caches work on. *)
Record cworld : Type := MkWorld { memory : Memory V; server : R }.

(** *Memory as a Cache.  Its Set gets one round of fuel per entry and one more. *)
Definition memory_cache : Cache cworld V :=
  MkCache
    (fun now k w => let '(r, m) := Get now k (memory w) in (r, MkWorld m (server w)))
    (fun now k v ttl w =>
       match Set_ (S (length (evictList (memory w)))) now k v ttl (memory w) with
       | None => None
       | Some (err, m) => Some (err, MkWorld m (server w))
       end)
    (fun k w => let '(err, m) := Delete k (memory w) in (err, MkWorld m (server w)))
    (fun w => (fun m => (None, MkWorld m (server w))) <$> Close (memory w))
    (fun now w w' => exists order, order ≡ₚ map_to_list (items (memory w)) /\
                     w' = MkWorld (removeExpired now order (memory w)) (server w)).

(** *Redis as a Cache. *)
Definition redis_cache (r : Redis R V) : Cache cworld V :=
  MkCache
    (fun now k w => let '(x, s) := RedisCache.Get r now k (server w) in (x, MkWorld (memory w) s))
    (fun now k v ttl w =>
       let '(err, s) := RedisCache.Set_ r now k v ttl (server w) in Some (err, MkWorld (memory w) s))
    (fun k w => let '(err, s) := RedisCache.Delete r k (server w) in (err, MkWorld (memory w) s))
    (fun w => Some (RedisCache.Close r, w))
    (fun now w w' => exists s, evolves (client r) now (server w) s /\ w' = MkWorld (memory w) s).

(** The cleanup function New returns. *)
Definition cleanup (c : option (Cache cworld V)) (w : cworld) : option cworld :=
  match c with
  | None => Some w
  | Some c => snd <$> cClose c w
  end.

(** New: the cache (nil: [None]), the argument of its cleanup function and the
    error. *)
Definition New (opts : Options R V) (w : cworld)
  : option (Cache cworld V) * option (Cache cworld V) * option error * cworld :=
  let mode := Mode (config opts) in
  if decide (mode = "memory") then
    let c := memory_cache in
    (Some c, Some c, None, MkWorld (NewMemory (MaxEntries (config opts))) (server w))
  else if decide (mode = "redis") then
    match RedisClient opts with
    | None => (None, None,
               ctxerrors.Wrap (Some ErrInvalidCacheMode) "redis client required for redis cache mode", w)
    | Some client =>
      let c := redis_cache (RedisCache.NewRedisWithPrefix client (RedisKeyPrefix (config opts))) in
      (Some c, Some c, None, w)
    end
  else if decide (mode = "none" \/ mode = EmptyString) then (None, None, None, w)
  else (None, None, ctxerrors.Wrap (Some ErrInvalidCacheMode) ("unknown cache mode: " +:+ mode), w).
End Build.
Arguments cworld : clear implicits.

(** ** The two implementations keep the laws *)

Section MemoryLaws.
Context {R V : Type}.
Implicit Types (m : Memory V) (l : list (memoryEntry V)).

Definition item_of (x : memoryEntry V) : V * option Z := (value x, Some (expiresAt x)).

(** What a Memory holds under a key. *)
Definition mem_holds m (k : string) : option (V * option Z) :=
  match items m !! k with
  | None => None
  | Some e => match toMemoryEntry m e with Ok x => Some (item_of x) | Err _ => None end
  end.

Lemma models_holds m l k : models m l -> mem_holds m k = item_of <$> lru_find k l.
Proof.
  intros (p & HR & ->). unfold mem_holds. destruct (items m !! k) as [e|] eqn:Hk.
  - destruct (repr_lookup_Some _ _ _ _ HR Hk) as (x & Hx & _ & ->).
    by rewrite (repr_toMemoryEntry _ _ _ _ HR Hx).
  - by rewrite (repr_lookup_None _ _ _ HR Hk).
Qed.

(** A list with fewer entries, of different keys, finds no others. *)
Lemma lru_find_subset k l l' x :
  NoDup (key <$> l) -> l' ⊆ l -> lru_find k l' = Some x -> lru_find k l = Some x.
Proof.
  intros Hnd Hsub H. apply lru_find_Some in H as [Hx Hk]. apply lru_find_elem; [done|set_solver|done].
Qed.

Lemma lru_find_without k k' l :
  NoDup (key <$> l) -> lru_find k (lru_without k' l) = if decide (k = k') then None else lru_find k l.
Proof.
  intros Hnd. case_decide as Hk.
  - subst k'. apply lru_find_None. intros x Hx. by apply list_elem_of_filter in Hx as [? _].
  - destruct (lru_find k l) as [x|] eqn:E.
    + apply lru_find_Some in E as [Hx Hkx]. apply lru_find_elem; [|apply list_elem_of_filter; split; [congruence|done]|done].
      eapply sublist_NoDup; [done|]. apply fmap_sublist, sublist_filter.
    + rewrite lru_find_None in E |- *. intros x Hx. apply list_elem_of_filter in Hx as [_ Hx]. by apply E.
Qed.

Lemma lru_find_cons k x l :
  lru_find k (x :: l) = if decide (key x = k) then Some x else lru_find k l.
Proof. unfold lru_find. rewrite filter_cons. by case_decide. Qed.

Lemma shrinks_subset m m' l l' :
  models m l -> models m' l' -> l' ⊆ l -> shrinks (mem_holds m) (mem_holds m').
Proof.
  intros M M' Hsub k. rewrite (models_holds _ _ _ M), (models_holds _ _ _ M').
  destruct (lru_find k l') as [x|] eqn:E; [left|by right].
  by rewrite (lru_find_subset _ _ _ _ (models_keys _ _ M) Hsub E).
Qed.

Lemma lru_get_subset now k l : (lru_get now k l).2 ⊆ l.
Proof.
  unfold lru_get. destruct (lru_find k l) as [x|] eqn:E; [|set_solver].
  apply lru_find_Some in E as [Hx _].
  destruct (expired now x); simpl; [set_solver|]. intros y Hy. apply elem_of_cons in Hy as [->|Hy]; [done|].
  by apply list_elem_of_filter in Hy as [_ ?].
Qed.

Lemma lru_set_find cap now k v ttl l k' :
  NoDup (key <$> l) ->
  (k' <> k -> forall x, lru_find k' (lru_set cap now k v ttl l) = Some x -> lru_find k' l = Some x) /\
  lru_find k (lru_set cap now k v ttl l) = Some (MkEntry k v (now + ttl)).
Proof.
  intros Hnd. unfold lru_set. split.
  - intros Hk x. destruct (lru_find k l); rewrite lru_find_cons; simpl;
      rewrite decide_False by congruence; apply lru_find_subset; try done.
    + intros y Hy. by apply list_elem_of_filter in Hy as [_ ?].
    + apply subseteq_take.
  - by destruct (lru_find k l); rewrite lru_find_cons; simpl; rewrite decide_True.
Qed.

Definition mem_valid m : Prop := (exists l, models m l) /\ 1 <= maxSize m.
End MemoryLaws.

#[export] Instance memory_cache_laws {R V} : CacheLaws (@memory_cache R V).
Proof.
  refine {| resolution := 0; valid := fun w => mem_valid (memory w);
            holds := fun w => mem_holds (memory w) |}.
  - intros now k w [[l M] Hmax]. simpl. destruct (Get_models _ _ now k M) as (Hr & M' & Hx).
    destruct (Get now k (memory w)) as [r m'] eqn:E. simpl in *. split_and!.
    + split; [by eexists|lia].
    + eapply shrinks_subset; [done..|]. apply lru_get_subset.
    + rewrite Hr, (models_holds _ _ _ M). unfold lru_get, expired.
      destruct (lru_find k l) as [x|]; simpl; [|done]. destruct (Z.ltb_spec (expiresAt x) now); simpl.
      * unfold item_of. intros _ v d ?. simplify_eq. simpl. lia.
      * eexists. split; [done|]. simpl. lia.
  - intros now k v ttl w [[l M] Hmax] _. simpl.
    destruct (Set_models _ _ (S (length (evictList (memory w)))) now k v ttl M Hmax) as (m' & E & M' & Hx).
    { rewrite (models_length _ _ M). lia. }
    rewrite E. eexists _, _. split; [done|]. simpl. pose proof (models_keys _ _ M) as Hnd. split_and!.
    + split; [by eexists|lia].
    + intros k' Hk'. rewrite (models_holds _ _ _ M), (models_holds _ _ _ M').
      destruct (lru_find k' (lru_set _ _ _ _ _ _)) as [x|] eqn:Ex; [left|by right].
      by rewrite (proj1 (lru_set_find _ _ _ _ _ _ k' Hnd) Hk' x Ex).
    + rewrite (models_holds _ _ _ M'), (proj2 (lru_set_find _ _ _ _ _ _ k Hnd)).
      exists (now + ttl). split; [done|lia].
  - intros k w [[l M] Hmax]. simpl. destruct (Delete_models _ _ k M) as (Hr & M' & Hx).
    destruct (Delete k (memory w)) as [r m'] eqn:E. simpl in *. subst r.
    pose proof (models_keys _ _ M) as Hnd. split_and!.
    + split; [by eexists|lia].
    + intros k' Hk'. left. rewrite (models_holds _ _ _ M), (models_holds _ _ _ M'). unfold lru_delete.
      by rewrite lru_find_without, decide_False.
    + rewrite (models_holds _ _ _ M'). unfold lru_delete. by rewrite lru_find_without, decide_True.
  - intros w err w' [[l M] Hmax]. simpl. unfold Close. destruct (stopClosed (memory w)); [done|].
    intros [= <- <-]. simpl. split; [|done]. split; [|done].
    destruct M as (p & HR & ->). exists p.*2, p. split; [|done]. destruct HR. by constructor.
  - intros now w w' [[l M] Hmax] (order & Hp & ->). simpl.
    destruct (removeExpired_models _ _ now _ M Hp) as [M' Hx]. split.
    + split; [by eexists|lia].
    + eapply shrinks_subset; [done..|]. intros y Hy. by apply list_elem_of_filter in Hy as [_ ?].
Defined.

(** *** Redis *)

Section RedisCacheLaws.
Context {R V : Type} (r : Redis R V) `{L : !RedisLaws (client r)}.

#[export] Instance buildKey_inj : Inj (=) (=) (RedisCache.buildKey r).
Proof. intros x y H. unfold RedisCache.buildKey in H. by simplify_eq. Qed.

(** The durations of a millisecond and more that are sent as PX or EX lose less
    than a millisecond. *)
Lemma set_expiry_deadline now ttl old :
  Millisecond <= ttl ->
  exists d, deadline now (set_expiry ttl) old = Some d /\ now + ttl - Millisecond <= d <= now + ttl.
Proof.
  unfold set_expiry, usePrecise, formatMs, formatSec, Second, Millisecond, Nanosecond. intros H.
  rewrite (proj2 (Z.ltb_lt 0 ttl)) by lia. simpl.
  destruct (Z.ltb_spec ttl (1000 * (1000000 * 1))); simpl.
  - destruct (Z.ltb_spec ttl (1000000 * 1)); [lia|]. simpl. unfold Millisecond, Nanosecond.
    eexists. split; [done|]. dlia.
  - destruct (Z.eqb_spec (Z.rem ttl (1000 * (1000000 * 1))) 0) as [E|E]; simpl;
      unfold Second, Millisecond, Nanosecond.
    + eexists. split; [done|]. dlia.
    + destruct (Z.ltb_spec ttl (1000000 * 1)); [lia|]. eexists. split; [done|]. dlia.
Qed.

Definition red_holds (s : R) (k : string) : option (V * option Z) := db s (RedisCache.buildKey r k).

Lemma shrinks_but_keys k s s' :
  shrinks_but (RedisCache.buildKey r k) (db s) (db s') -> shrinks_but k (red_holds s) (red_holds s').
Proof. intros H k' Hk'. apply H. intros E. apply Hk'. by apply (inj (RedisCache.buildKey r)). Qed.
End RedisCacheLaws.

#[export] Instance redis_cache_laws {R V} (r : Redis R V) `{L : !RedisLaws (client r)} :
  CacheLaws (redis_cache r).
Proof.
  refine {| resolution := Millisecond; valid := fun _ => True;
            holds := fun w => red_holds r (server w) |}.
  - intros now k w _. split; [done|]. simpl. unfold RedisCache.Get.
    destruct (redis_get now (RedisCache.buildKey r k) (server w)) as [Hsh Hg].
    destruct (doGet (client r) now (RedisCache.buildKey r k) (server w)) as [reply s'] eqn:E.
    simpl in *. split; [intros k'; apply Hsh|].
    destruct reply as [[v|]|e]; simpl in *; [done|by intros _|].
    destruct Hg as [-> Hm]. simpl. by rewrite Hm.
  - intros now k v ttl w _ Httl. simpl. unfold RedisCache.Set_.
    destruct (redis_set now (RedisCache.buildKey r k) v (set_expiry ttl) (server w)) as [Hsh Hg].
    destruct (doSet (client r) now (RedisCache.buildKey r k) v (set_expiry ttl) (server w)) as [err s'] eqn:E.
    simpl in *. eexists _, _. split; [done|]. split; [done|].
    split; [by apply shrinks_but_keys|]. simpl. unfold red_holds.
    assert (Hnew : forall old, db s' (RedisCache.buildKey r k) = Some (v, deadline now (set_expiry ttl) old) ->
      exists d, db s' (RedisCache.buildKey r k) = Some (v, Some d) /\ now + ttl - Millisecond <= d <= now + ttl).
    { intros old Ho. destruct (set_expiry_deadline now ttl old Httl) as (d & Hd & Hle).
      exists d. by rewrite Ho, Hd. }
    destruct err; [destruct Hg as [(old & _ & Ho)|Hg]; [left|right]|destruct Hg as (old & _ & Ho)]; eauto.
  - intros k w _. split; [done|]. simpl. unfold RedisCache.Delete.
    destruct (redis_del (RedisCache.buildKey r k) (server w)) as [Hsh Hg].
    destruct (doDel (client r) (RedisCache.buildKey r k) (server w)) as [err s'] eqn:E.
    simpl in *. split; [by apply shrinks_but_keys|]. by destruct err.
  - intros w err w' _. simpl. intros [= <- <-]. done.
  - intros now w w' _ (s & Hs & ->). split; [done|]. simpl. intros k. by apply (redis_evolves now).
Defined.

(** ** Properties *)


(** A time to live of zero means two things: the memory cache drops the entry
    as soon as time passes, Redis keeps it until it is deleted or evicted. *)
Lemma zero_ttl_differs {R V : Type} (r : Redis R V) `{L : !RedisLaws (client r)} (w : cworld R V)
    (now : Z) (k : string) (v : V) :
  mem_valid (memory w) ->
  (exists w1, cSet memory_cache now k v 0 w = Some (None, w1) /\
     forall now', now < now' -> (cGet memory_cache now' k w1).1 = Err ErrCacheMiss) /\
  (exists err w1, cSet (redis_cache r) now k v 0 w = Some (err, w1) /\
     (err = None -> forall now',
        match (cGet (redis_cache r) now' k w1).1 with
        | Ok v' => v' = v
        | Err e => ctxerrors.Is e "cache miss" = false
        end)).
Proof.
  intros [[l M] Hmax]. split.
  - simpl. destruct (Set_models _ _ (S (length (evictList (memory w)))) now k v 0 M Hmax) as (m' & E & M' & Hx).
    { rewrite (models_length _ _ M). lia. }
    rewrite E. eexists. split; [done|]. intros now' Hnow. simpl.
    destruct (Get_models _ _ now' k M') as (Hr & _). destruct (Get now' k m') as [x m2]. simpl in *.
    rewrite Hr. unfold lru_get. rewrite (proj2 (lru_set_find _ _ _ _ _ _ k (models_keys _ _ M))).
    unfold expired. simpl. by rewrite (proj2 (Z.ltb_lt _ _)) by lia.
  - simpl. unfold RedisCache.Set_.
    destruct (redis_set now (RedisCache.buildKey r k) v (set_expiry 0) (server w)) as [_ Hg].
    destruct (doSet (client r) now (RedisCache.buildKey r k) v (set_expiry 0) (server w)) as [err s'] eqn:E.
    simpl in *. eexists _, _. split; [done|]. destruct err; [done|]. intros _ now'.
    destruct Hg as (old & _ & Hd).
    destruct (@get_law _ _ _ (redis_cache_laws r) now' k (MkWorld (memory w) s') I) as (_ & _ & Hget).
    change (match (cGet (redis_cache r) now' k (MkWorld (memory w) s')).1 with
            | Ok v' => v' = v
            | Err e => ctxerrors.Is e "cache miss" = false
            end).
    destruct ((cGet (redis_cache r) now' k (MkWorld (memory w) s')).1) as [v'|e].
    + destruct Hget as (d & Hh & _). change (db s' (RedisCache.buildKey r k) = Some (v', d)) in Hh.
      rewrite Hd in Hh. by simplify_eq.
    + destruct (ctxerrors.Is e "cache miss") eqn:Hm; [|done]. exfalso.
      by eapply (Hget Logic.I v None).
Qed.

(** *** A server that satisfies the laws, and a run *)

Definition demo_alive (now : Z) (d : option Z) : bool :=
  match d with None => true | Some d => now <=? d end.

Definition demo_client : UniversalClient (gmap string (nat * option Z)) nat :=
  MkClient
    (fun now k s => (Ok (match s !! k with
                         | Some (v, d) => if demo_alive now d then Some v else None
                         | None => None
                         end), s))
    (fun now k v e s => (None, <[k := (v, deadline now e (s !! k ≫= snd))]> s))
    (fun k s => (None, delete k s))
    (fun now s s' => exists k, s' = delete k s).

#[export] Instance demo_client_laws : RedisLaws demo_client.
Proof.
  refine {| db := fun s k => s !! k |}.
  - intros now k s. simpl. split; [by left|]. destruct (s !! k) as [[v d]|]; [|done].
    destruct d as [d|]; simpl; [|eexists; split; [done|done]].
    destruct (Z.leb_spec now d).
    + eexists. split; [done|]. simpl. unfold Millisecond, Nanosecond. lia.
    + intros v' d' [= <- <-]. simpl. lia.
  - intros now k v e s. simpl. split.
    + intros k' Hk. left. by rewrite lookup_insert_ne.
    + exists (s !! k ≫= snd). split; [by right|]. by rewrite lookup_insert_eq.
  - intros k s. simpl. split.
    + intros k' Hk. left. by rewrite lookup_delete_ne.
    + by rewrite lookup_delete_eq.
  - intros now s s' [k ->] k'. destruct (decide (k = k')) as [->|Hk].
    + right. by rewrite lookup_delete_eq.
    + left. by rewrite lookup_delete_ne.
Defined.

Definition demo_world : cworld (gmap string (nat * option Z)) nat := MkWorld (NewMemory 1) ∅.

Definition demo_cfg (mode : string) : Config := MkConfig mode (5 * Minute) 2 "app:".


(** The stored item outlives neither its deletion nor its time. *)
Example redis_demo :
  let c := redis_cache (MkRedis demo_client "app:") in
  match cSet c 0 "k" 7%nat Second demo_world with
  | Some (None, w) =>
    (cGet c 1000 "k" w).1 = Ok 7%nat /\
    (cGet c (2 * Second) "k" w).1 = Err ErrCacheMiss /\
    (cGet c 1000 "k" (cDelete c "k" w).2).1 = Err ErrCacheMiss
  | _ => False
  end.
Proof. vm_compute. auto. Qed.
