(* ===== verification/SafeMap.v ===== *)
(** * types/map.go: the generic locked map

    Every method takes the mutex for its whole body; LockedMap.v shows that this
    makes a method one step on the wrapped Go map, a [gmap].  A Go map is iterated in an
    unspecified order: the methods that range over it take the order of this
    run, and [order_of] says what an order may be.  Callbacks may have effects
    of their own: they thread a state of type [St]. *)

From stdpp Require Import base option list gmap sorting.
From Stdlib Require Import ZArith Lia.
From S2P Require Import Prelude.

Section SafeMap.
Context {K V : Type} `{Countable K}.

Record Map : Type := MkMap { data : gmap K V }.

(** The entries of a map, each once. *)
Definition order_of (m : gmap K V) (order : list (K * V)) : Prop :=
  order ≡ₚ map_to_list m.

Definition NewMap : Map := MkMap ∅.

Definition Set_ (k : K) (v : V) (m : Map) : Map := MkMap (<[k := v]> (data m)).

(** The second result tells whether the key is present; without it the first
    is the zero value, which the model leaves out. *)
Definition Get (k : K) (m : Map) : option V := data m !! k.

Definition Delete (k : K) (m : Map) : option V * Map :=
  match data m !! k with
  | Some v => (Some v, MkMap (delete k (data m)))
  | None => (None, m)
  end.

Definition Clear (m : Map) : gmap K V * Map := (data m, MkMap ∅).

Definition Len (m : Map) : nat := size (data m).

Definition Has (k : K) (m : Map) : bool := bool_decide (is_Some (data m !! k)).

(** keys = append(keys, k) for each entry. *)
Fixpoint Keys_loop (keys : list K) (order : list (K * V)) : list K :=
  match order with [] => keys | (k, _) :: rest => Keys_loop (keys ++ [k]) rest end.
Definition Keys (order : list (K * V)) : list K := Keys_loop [] order.

Fixpoint Values_loop (values : list V) (order : list (K * V)) : list V :=
  match order with [] => values | (_, v) :: rest => Values_loop (values ++ [v]) rest end.
Definition Values (order : list (K * V)) : list V := Values_loop [] order.

(** Range stops at the first entry the callback refuses. *)
Fixpoint Range {St : Type} (fn : St -> K -> V -> St * bool) (order : list (K * V)) (s : St) : St :=
  match order with
  | [] => s
  | (k, v) :: rest =>
    let '(s', continue) := fn s k v in
    if continue then Range fn rest s' else s'
  end.

Fixpoint DeleteFunc_loop {St : Type} (fn : St -> K -> V -> St * bool) (order : list (K * V))
    (s : St) (m : gmap K V) (deleted : nat) : St * gmap K V * nat :=
  match order with
  | [] => (s, m, deleted)
  | (k, v) :: rest =>
    let '(s', del) := fn s k v in
    if del then DeleteFunc_loop fn rest s' (delete k m) (S deleted)
    else DeleteFunc_loop fn rest s' m deleted
  end.
Definition DeleteFunc {St : Type} (fn : St -> K -> V -> St * bool) (order : list (K * V))
    (s : St) (m : Map) : St * Map * nat :=
  let '(s', d, n) := DeleteFunc_loop fn order s (data m) 0 in (s', MkMap d, n).

(** ** Lemmas *)

Lemma Keys_loop_eq order : forall keys, Keys_loop keys order = keys ++ order.*1.
Proof.
  induction order as [|[k v] order IH]; intros keys; simpl; [by rewrite app_nil_r|].
  by rewrite IH, <- app_assoc.
Qed.

Lemma Values_loop_eq order : forall values, Values_loop values order = values ++ order.*2.
Proof.
  induction order as [|[k v] order IH]; intros values; simpl; [by rewrite app_nil_r|].
  by rewrite IH, <- app_assoc.
Qed.

(** A pure callback, as a callback with the trivial state. *)
Definition pure_fn (f : K -> V -> bool) : unit -> K -> V -> unit * bool :=
  fun s k v => (s, f k v).

Lemma DeleteFunc_loop_pure f order : forall m n,
  NoDup order.*1 -> (forall k v, (k, v) ∈ order -> m !! k = Some v) ->
  exists m' n', DeleteFunc_loop (pure_fn f) order tt m n = (tt, m', n') /\
    (forall k, m' !! k = if decide (k ∈ (filter (fun q => f q.1 q.2 = true) order).*1)
                         then None else m !! k) /\
    n' + size m' = n + size m.
Proof.
  induction order as [|[k v] order IH]; intros m n Hnd Hin; simpl.
  - do 2 eexists. split; [done|]. split; [|done]. done.
  - apply NoDup_cons in Hnd as [Hk Hnd]. pose proof (Hin k v ltac:(by left)) as Hkv.
    rewrite filter_cons. simpl. destruct (f k v) eqn:Hf.
    + destruct (IH (delete k m) (S n) Hnd) as (m' & n' & -> & Hm & Hsz).
      { intros k' v' Hin'. rewrite lookup_delete_ne; [apply Hin; by right|].
        intros ->. apply Hk, list_elem_of_fmap. by exists (k', v'). }
      do 2 eexists. split; [done|]. rewrite decide_True by done. split.
      * intros k'. rewrite Hm. rewrite lookup_delete.
        repeat case_decide; try done; set_solver.
      * pose proof (map_size_delete_Some k m ltac:(eauto)).
        assert (size m <> 0) by (intros Hz; apply map_size_empty_inv in Hz; subst; done). lia.
    + destruct (IH m n Hnd) as (m' & n' & -> & Hm & Hsz).
      { intros k' v' Hin'. apply Hin. by right. }
      do 2 eexists. split; [done|]. by rewrite decide_False by done.
Qed.

(** DeleteFunc with a pure predicate: whatever order Go's map iteration
    takes, exactly the entries satisfying the predicate are gone, every other
    entry is untouched, and the returned count is the number of entries
    removed. *)
Theorem DeleteFunc_spec (f : K -> V -> bool) (m : Map) order :
  order_of (data m) order ->
  exists m' n, DeleteFunc (pure_fn f) order tt m = (tt, m', n) /\
    data m' = filter (fun q => f q.1 q.2 = false) (data m) /\
    n = size (filter (fun q => f q.1 q.2 = true) (data m)).
Proof.
  intros Hord. unfold DeleteFunc.
  assert (Hin : forall k v, (k, v) ∈ order <-> data m !! k = Some v).
  { intros k v. by rewrite Hord, elem_of_map_to_list. }
  destruct (DeleteFunc_loop_pure f order (data m) 0) as (m' & n & -> & Hm & Hn).
  - rewrite Hord. apply NoDup_fst_map_to_list.
  - intros k v. apply Hin.
  - assert (m' = filter (fun q => f q.1 q.2 = false) (data m)) as ->.
    { apply map_eq. intros k. apply option_eq. intros v.
      rewrite Hm, map_lookup_filter_Some. simpl. split.
      - case_decide as Hd; [done|]. intros Hkv. split; [done|].
        destruct (f k v) eqn:Hf; [|done]. exfalso. apply Hd, list_elem_of_fmap.
        exists (k, v). split; [done|]. by apply list_elem_of_filter; split; [|apply Hin].
      - intros [Hkv Hf]. rewrite decide_False; [done|].
        intros ([k' v'] & -> & [Hf' Hin']%list_elem_of_filter)%list_elem_of_fmap.
        apply Hin in Hin'. simpl in *. congruence. }
    do 2 eexists. split; [done|]. split; [done|].
    rewrite <- (map_filter_union_complement (fun q => f q.1 q.2 = true) (data m)) in Hn at 2.
    rewrite map_size_disj_union in Hn by apply map_disjoint_filter_complement.
    replace (filter (fun v => ~ f v.1 v.2 = true) (data m))
      with (filter (fun q => f q.1 q.2 = false) (data m)) in Hn; [lia|].
    apply map_filter_ext. intros k v _. simpl. by destruct (f k v).
Qed.

(** The callback that records what it is shown and answers [f]. *)
Definition recorder (f : K -> V -> bool) : list (K * V) -> K -> V -> list (K * V) * bool :=
  fun seen k v => (seen ++ [(k, v)], f k v).

Lemma Range_recorder f order : forall seen,
  exists shown rest, Range (recorder f) order seen = seen ++ shown /\ order = shown ++ rest /\
    (forall q, q ∈ removelast shown -> f q.1 q.2 = true) /\
    (rest <> [] -> exists k v, last shown = Some (k, v) /\ f k v = false).
Proof.
  induction order as [|[k v] order IH]; intros seen; simpl.
  - exists [], []. rewrite app_nil_r. repeat split; [|done]. simpl. set_solver.
  - destruct (f k v) eqn:Hf.
    + destruct (IH (seen ++ [(k, v)])) as (shown & rest & -> & -> & Hall & Hlast).
      exists ((k, v) :: shown), rest. rewrite <- app_assoc. repeat split.
      * intros q Hq. destruct shown as [|q' shown]; simpl in Hq; [set_solver|].
        apply elem_of_cons in Hq as [->|Hq]; [done|]. by apply Hall.
      * intros Hr. destruct (Hlast Hr) as (k' & v' & Hl & Hf').
        exists k', v'. split; [|done]. destruct shown; [done|]. exact Hl.
    + exists [(k, v)], order. repeat split; simpl; [set_solver|]. eauto.
Qed.

(** Range shows the callback each entry of the map at most once, in the
    order of this iteration, stops right after the first entry for which the
    callback answers false, and otherwise shows all of them. *)
Theorem Range_spec (f : K -> V -> bool) (m : Map) order :
  order_of (data m) order ->
  exists shown rest, Range (recorder f) order [] = shown /\ shown ++ rest ≡ₚ map_to_list (data m) /\
    NoDup shown.*1 /\
    (forall q, q ∈ removelast shown -> f q.1 q.2 = true) /\
    (rest <> [] -> exists k v, last shown = Some (k, v) /\ f k v = false).
Proof.
  intros Hord. destruct (Range_recorder f order []) as (shown & rest & -> & -> & Hall & Hlast).
  exists shown, rest. split; [done|]. split; [exact Hord|]. split; [|done].
  assert (NoDup (shown ++ rest).*1) as Hnd by (rewrite Hord; apply NoDup_fst_map_to_list).
  rewrite fmap_app in Hnd. by apply NoDup_app in Hnd as [? _].
Qed.

(** Keys, Values, Len and Has describe the same entries. *)
Lemma Keys_spec (m : Map) order :
  order_of (data m) order ->
  NoDup (Keys order) /\ length (Keys order) = Len m /\
  (forall k, k ∈ Keys order <-> Has k m = true).
Proof.
  intros Hord. unfold Keys. rewrite Keys_loop_eq. simpl. repeat split.
  - rewrite Hord. apply NoDup_fst_map_to_list.
  - rewrite length_fmap, Hord. apply length_map_to_list.
  - unfold Has. rewrite Hord, bool_decide_eq_true, list_elem_of_fmap.
    intros ([k' v] & -> & Hk%elem_of_map_to_list). eauto.
  - unfold Has. rewrite Hord, bool_decide_eq_true, list_elem_of_fmap.
    intros [v Hv]. exists (k, v). by rewrite elem_of_map_to_list.
Qed.

Lemma Values_spec (m : Map) order :
  order_of (data m) order ->
  length (Values order) = Len m /\ (forall v, v ∈ Values order <-> exists k, Get k m = Some v).
Proof.
  intros Hord. unfold Values, Get. rewrite Values_loop_eq. simpl. split.
  - rewrite length_fmap, Hord. apply length_map_to_list.
  - intros v. rewrite Hord, list_elem_of_fmap. split.
    + intros ([k v'] & -> & Hk%elem_of_map_to_list). eauto.
    + intros [k Hk]. exists (k, v). by rewrite elem_of_map_to_list.
Qed.
End SafeMap.

(** ** Witnesses *)

Definition demo_map : Map (K:=nat) (V:=nat) := Set_ 3 30 (Set_ 2 20 (Set_ 1 10 NewMap)).

Definition odd_key (k : nat) (_ : nat) : bool := Nat.odd k.

Lemma DeleteFunc_spec_witness :
  exists m' n, DeleteFunc (pure_fn odd_key) [(2, 20); (3, 30); (1, 10)] tt demo_map = (tt, m', n) /\
    data m' = filter (fun q => odd_key q.1 q.2 = false) (data demo_map) /\
    n = size (filter (fun q => odd_key q.1 q.2 = true) (data demo_map)).
Proof.
  apply (DeleteFunc_spec odd_key demo_map). unfold order_of.
  let l := eval vm_compute in (map_to_list (data demo_map)) in
  change (map_to_list (data demo_map)) with l.
  solve_Permutation.
Defined.

Lemma Range_spec_witness :
  exists shown rest, Range (recorder odd_key) [(3, 30); (2, 20); (1, 10)] [] = shown /\
    shown ++ rest ≡ₚ map_to_list (data demo_map) /\
    NoDup shown.*1 /\
    (forall q, q ∈ removelast shown -> odd_key q.1 q.2 = true) /\
    (rest <> [] -> exists k v, last shown = Some (k, v) /\ odd_key k v = false).
Proof.
  apply (Range_spec odd_key demo_map). unfold order_of.
  let l := eval vm_compute in (map_to_list (data demo_map)) in
  change (map_to_list (data demo_map)) with l.
  solve_Permutation.
Defined.
