(* ===== verification/LockedMap.v ===== *)
(** * types/map.go under concurrency

    SafeMap.v says what each method of the map does when it runs alone.  Here
    the methods are programs of single accesses to the wrapped Go map, with the
    lock each of them takes, and run interleaved (RWMutex.v).  A range loop
    takes its order when it starts and then visits one key after the other,
    skipping a key that is gone, as Go does; so Keys, Values, Range and
    DeleteFunc are many accesses each.  The callbacks of Range and DeleteFunc
    carry a state of their own, of type [St], and do not call the map (one that
    called a method that takes Lock would wait for itself). *)

From stdpp Require Import base option list gmap sorting.
From Stdlib Require Import Lia.
From S2P Require Import Prelude SafeMap RWMutex.

Section LockedMap.
Context {K V St : Type} `{Countable K}.

(** The orders Go's range takes: any order of the entries, call by call.  A
    call's seed stands for what its iteration order depends on. *)
Context (iter : nat -> gmap K V -> list (K * V)).

Notation callback := (St -> K -> V -> St * bool).

Inductive mapOp : Type :=
| OSet (k : K) (v : V)
| OGet (k : K)
| ODelete (k : K)
| OClear
| OLen
| OHas (k : K)
| OKeys (seed : nat)
| OValues (seed : nat)
| ORange (seed : nat) (fn : callback) (st : St)
| ODeleteFunc (seed : nat) (fn : callback) (st : St).

Inductive mapRes : Type :=
| RNone
| RValue (v : option V)
| RMap (m : gmap K V)
| RInt (n : nat)
| RBool (b : bool)
| RKeys (ks : list K)
| RValues (vs : list V)
| RCallback (st : St)
| RDeleted (st : St) (n : nat).

(** Which lock each method takes. *)
Definition mapMode (op : mapOp) : lockMode :=
  match op with
  | OSet _ _ | ODelete _ | OClear | ODeleteFunc _ _ _ => Lock
  | OGet _ | OLen | OHas _ | OKeys _ | OValues _ | ORange _ _ _ => RLock
  end.

(** for k, v := range m.data { visit }: [visit] threads the loop's variables and
    says whether the loop goes on. *)
Fixpoint prange {A : Type} (visit : A -> K -> V -> prog (Map (K:=K) (V:=V)) (A * bool))
    (ks : list K) (a : A) : prog Map A :=
  match ks with
  | [] => Ret a
  | k :: ks' =>
    pbind (pread (fun m => data m !! k)) (fun ov =>
    match ov with
    | None => prange visit ks' a
    | Some v =>
      pbind (visit a k v) (fun '(a', continue) =>
      if continue then prange visit ks' a' else Ret a')
    end)
  end.

Definition pranged {A : Type} (seed : nat)
    (visit : A -> K -> V -> prog (Map (K:=K) (V:=V)) (A * bool)) (a : A) : prog Map A :=
  pbind (pread (fun m => (iter seed (data m)).*1)) (fun ks => prange visit ks a).

(** The loop of DeleteFunc: the callback, and the deletion it asks for. *)
Definition delete_visit (fn : callback) (a : St * nat) (k : K) (v : V)
  : prog (Map (K:=K) (V:=V)) (St * nat * bool) :=
  let '(st, deleted) := a in
  let '(st', del) := fn st k v in
  if del : bool
  then pbind (pwrite (fun m => MkMap (delete k (data m)))) (fun _ => Ret (st', S deleted, true))
  else Ret (st', deleted, true).

(** The methods between their lock and unlock. *)
Definition mapBody (op : mapOp) : prog (Map (K:=K) (V:=V)) mapRes :=
  match op with
  | OSet k v => pbind (pwrite (Set_ k v)) (fun _ => Ret RNone)
  | OGet k => pbind (pread (fun m => data m !! k)) (fun r => Ret (RValue r))
  | ODelete k =>
    pbind (pread (fun m => data m !! k)) (fun r =>
    match r with
    | Some v => pbind (pwrite (fun m => MkMap (delete k (data m)))) (fun _ => Ret (RValue (Some v)))
    | None => Ret (RValue None)
    end)
  | OClear =>
    pbind (pread data) (fun old =>
    pbind (pwrite (fun _ => MkMap ∅)) (fun _ => Ret (RMap old)))
  | OLen => pbind (pread (fun m => size (data m))) (fun n => Ret (RInt n))
  | OHas k =>
    pbind (pread (fun m => data m !! k)) (fun r => Ret (RBool (bool_decide (is_Some r))))
  | OKeys seed =>
    pbind (pranged seed (fun keys k _ => Ret (keys ++ [k], true)) []) (fun keys => Ret (RKeys keys))
  | OValues seed =>
    pbind (pranged seed (fun values _ v => Ret (values ++ [v], true)) [])
      (fun values => Ret (RValues values))
  | ORange seed fn st =>
    pbind (pranged seed (fun s k v => Ret (fn s k v)) st) (fun s => Ret (RCallback s))
  | ODeleteFunc seed fn st =>
    pbind (pranged seed (delete_visit fn) (st, 0)) (fun '(s, n) => Ret (RDeleted s n))
  end.

(** The atomic map: the functions of SafeMap.v. *)
Definition mapSpec (op : mapOp) (m : Map (K:=K) (V:=V)) : mapRes * Map :=
  match op with
  | OSet k v => (RNone, Set_ k v m)
  | OGet k => (RValue (Get k m), m)
  | ODelete k => let '(r, m') := Delete k m in (RValue r, m')
  | OClear => let '(old, m') := Clear m in (RMap old, m')
  | OLen => (RInt (Len m), m)
  | OHas k => (RBool (Has k m), m)
  | OKeys seed => (RKeys (Keys (iter seed (data m))), m)
  | OValues seed => (RValues (Values (iter seed (data m))), m)
  | ORange seed fn st => (RCallback (Range fn (iter seed (data m)) st), m)
  | ODeleteFunc seed fn st =>
    let '(s, m', n) := DeleteFunc fn (iter seed (data m)) st m in (RDeleted s n, m')
  end.

(** ** The loops *)

Context (iter_order : forall seed m, order_of m (iter seed m)).

Lemma iter_lookup seed m k v : (k, v) ∈ iter seed m -> m !! k = Some v.
Proof. rewrite (iter_order seed m). apply elem_of_map_to_list. Qed.

Lemma iter_NoDup seed m : NoDup (iter seed m).*1.
Proof. rewrite (iter_order seed m). apply NoDup_fst_map_to_list. Qed.

(** A loop over entries that are in the map, whose body leaves it alone. *)
Lemma run_prange_pure {A} (f : A -> K -> V -> A * bool) order : forall a m,
  (forall k v, (k, v) ∈ order -> data m !! k = Some v) ->
  run (prange (fun a k v => Ret (f a k v)) order.*1 a) m = (Range f order a, m).
Proof.
  induction order as [|[k v] order IH]; intros a m Hin; [done|].
  simpl. rewrite (Hin k v) by (by left). simpl.
  destruct (f a k v) as [a' []]; [|done]. apply IH. intros k' v' H'. apply Hin. by right.
Qed.

Lemma run_prange_delete fn order : forall st n m,
  NoDup order.*1 -> (forall k v, (k, v) ∈ order -> data m !! k = Some v) ->
  run (prange (delete_visit fn) order.*1 (st, n)) m =
  let '(s, d, n') := DeleteFunc_loop fn order st (data m) n in ((s, n'), MkMap d).
Proof.
  induction order as [|[k v] order IH]; intros st n m Hnd Hin; [by destruct m|].
  simpl in Hnd. apply NoDup_cons in Hnd as [Hk Hnd].
  simpl. rewrite (Hin k v) by (by left). simpl.
  destruct (fn st k v) as [st' []]; simpl.
  - rewrite IH; [done..|]. intros k' v' H'. simpl.
    rewrite lookup_delete_ne; [apply Hin; by right|]. intros ->.
    apply Hk, list_elem_of_fmap. by exists (k', v').
  - apply IH; [done|]. intros k' v' H'. apply Hin. by right.
Qed.

Lemma Range_append {B} (g : K -> V -> B) order : forall l,
  Range (fun l k v => (l ++ [g k v], true)) order l = l ++ ((fun q => g q.1 q.2) <$> order).
Proof.
  induction order as [|[k v] order IH]; intros l; simpl; [by rewrite app_nil_r|].
  by rewrite IH, <- app_assoc.
Qed.

(** Alone, every method does what SafeMap.v says. *)
Lemma mapBody_run op m : run (mapBody op) m = mapSpec op m.
Proof.
  destruct op as [k v|k|k| | |k|seed|seed|seed fn st|seed fn st]; simpl; try done.
  - unfold Delete. by destruct (data m !! k).
  - rewrite run_pbind. simpl.
    rewrite (run_prange_pure (fun l k _ => (l ++ [k], true))) by apply iter_lookup.
    simpl. unfold Keys. by rewrite Keys_loop_eq, (Range_append (fun k _ => k)).
  - rewrite run_pbind. simpl.
    rewrite (run_prange_pure (fun l _ v => (l ++ [v], true))) by apply iter_lookup.
    simpl. unfold Values. by rewrite Values_loop_eq, (Range_append (fun _ v => v)).
  - rewrite run_pbind. simpl. by rewrite run_prange_pure by apply iter_lookup.
  - rewrite run_pbind. simpl.
    rewrite run_prange_delete by (apply iter_NoDup || apply iter_lookup).
    unfold DeleteFunc. by destruct (DeleteFunc_loop _ _ _ _ _) as [[s d] n].
Qed.

Lemma prange_reads_only {A} (f : A -> K -> V -> A * bool) ks : forall a,
  reads_only (prange (fun a k v => Ret (f a k v)) ks a).
Proof.
  induction ks as [|k ks IH]; intros a; simpl; [done|]. split; [done|].
  intros m. destruct (data m !! k) as [v|]; [|apply IH].
  simpl. destruct (f a k v) as [a' []]; [apply IH|done].
Qed.

Lemma pranged_reads_only {A} seed (f : A -> K -> V -> A * bool) a :
  reads_only (pranged seed (fun a k v => Ret (f a k v)) a).
Proof. apply reads_only_pbind; [apply reads_only_pread|]. intros ks. apply prange_reads_only. Qed.

(** The methods that take the read lock only read. *)
Lemma mapBody_reads_only op : mapMode op = RLock -> reads_only (mapBody op).
Proof.
  destruct op; simpl; try done; intros _; apply (reads_only_pbind (pranged _ _ _)); try done.
  - apply (pranged_reads_only _ (fun l k _ => (l ++ [k], true))).
  - apply (pranged_reads_only _ (fun l _ v => (l ++ [v], true))).
  - apply pranged_reads_only.
Qed.

(** C6. The map is linearizable: however the accesses of any number of goroutines
    to one Map interleave, every call returns what it would return if the
    calls had run one at a time, each of them at some moment between its call and
    its return, as the sequential functions of the map say; and when all
    goroutines are done the map is the one that order leaves.  In no state on the
    way can two goroutines both access the map, one of them writing: the code has
    no data race. *)
Theorem map_linearizable tr c :
  exec mapMode mapBody (fun _ => True) (MkConf NewMap ∅) tr c ->
  exec mapMode mapBody no_conflict (MkConf NewMap ∅) tr c /\
  exists a, aexec mapSpec (MkAConf NewMap ∅) tr a /\
    (threads c = ∅ -> a = MkAConf (shared c) ∅).
Proof.
  intros Hx. apply locked_apart in Hx; [|exact mapBody_reads_only].
  split; [by apply apart_no_conflict|].
  destruct (apart_linearizable _ _ _ _ _ Hx) as (a & Ha & Hend).
  destruct (aexec_refines (fun op => run (mapBody op)) mapSpec eq NewMap ∅ tr a)
    with (b := NewMap : Map (K:=K) (V:=V)) as (b & <- & Hb); [|done..|].
  - intros op m ? <-. by rewrite mapBody_run.
  - exists a. by destruct a.
Qed.

(** The calls on a Map return: as long as a goroutine is in one, some goroutine
    can go on, whoever holds or waits for the lock; and without new calls the
    accesses come to an end, so that a run which cannot go on has every call
    returned. *)
Theorem map_calls_return (c : conf Map mapOp mapRes) :
  Acc (proceeds mapMode mapBody) c /\
  ((forall c', ~ proceeds mapMode mapBody c' c) -> threads c = ∅).
Proof.
  split; [apply calls_end|]. intros Hstop.
  destruct (decide (threads c = ∅)) as [|Hne]; [done|].
  destruct (no_deadlock mapMode mapBody c Hne) as (c' & Hc'). by destruct (Hstop c').
Qed.
End LockedMap.

(** ** Witness: a writer, then two readers inside together *)

Definition demo_iter (_ : nat) (m : gmap nat nat) : list (nat * nat) := map_to_list m.

Definition demo_op : Type := mapOp (K:=nat) (V:=nat) (St:=unit).
Definition demo_res : Type := mapRes (K:=nat) (V:=nat) (St:=unit).

Definition demo_schedule : list (choice (Op := demo_op)) :=
  [Call 0 (OSet 1 10); Call 1 (OKeys 0); Go 0; Call 2 (OGet 1); Go 0; Go 0; Go 0;
   Go 1; Go 2; Go 1; Go 2; Go 1; Go 2; Go 2; Call 0 (ODelete 1);
   Go 1; Go 1; Go 0; Go 0; Go 0; Go 0; Go 0].

Definition demo_calls : list (label demo_op demo_res) :=
  [Invoke 0 (OSet 1 10); Invoke 1 (OKeys 0); Invoke 2 (OGet 1); Result 0 (OSet 1 10) RNone;
   Result 2 (OGet 1) (RValue (Some 10)); Invoke 0 (ODelete 1); Result 1 (OKeys 0) (RKeys [1]);
   Result 0 (ODelete 1) (RValue (Some 10))].

Lemma map_linearizable_witness :
  exec mapMode (mapBody demo_iter) no_conflict (MkConf NewMap ∅) demo_calls (MkConf NewMap ∅) /\
  exists a, aexec (mapSpec demo_iter) (MkAConf NewMap ∅) demo_calls a /\
    (∅ = (∅ : gmap nat (thread (Map (K:=nat) (V:=nat)) demo_op demo_res)) ->
     a = MkAConf NewMap ∅).
Proof.
  apply (map_linearizable demo_iter ltac:(intros; unfold order_of; reflexivity) demo_calls (MkConf NewMap ∅)).
  apply (play_exec _ _ _ (fun _ => true) demo_schedule); [done|]. vm_compute. reflexivity.
Defined.
