(* ===== verification/SqlRedact.v ===== *)
(** * db/gorm_slog_logger.go: the redacted SQL preview

    summarizeSQL and the scanner behind it.  Every query GORM logs goes through
    redactSQLValues, which replaces string and numeric literals by '?',
    collapses white space, and bounds the length of the preview.

    Indices are the code's byte indices into the query.  Loops carry fuel; a
    [None] result is a loop that ran out of it, or a slice expression that
    would panic.  The lemma [redact_tokens] shows that neither happens. *)

From stdpp Require Import base option list.
From Stdlib Require Import ZArith Lia.
From Stdlib.Strings Require Byte.
From S2P Require Import Prelude Utf8.

Open Scope Z_scope.

(** ** The scanner, as in the source *)

Definition QUOTE : Byte.byte := Byte.x27.
Definition BACKSLASH : Byte.byte := Byte.x5c.
Definition DOLLAR : Byte.byte := Byte.x24.
Definition QMARK : Byte.byte := Byte.x3f.
Definition SPACE : Byte.byte := Byte.x20.
Definition UNDERSCORE : Byte.byte := Byte.x5f.

(** query[i] == b, for an index in range. *)
Definition at_byte (query : bytes) (i : nat) (b : Byte.byte) : bool :=
  bool_decide (query !! i = Some b).

Definition isEscapeStringStart (query : bytes) (i : nat) : bool :=
  (i + 1 <? length query)%nat &&
  (at_byte query i Byte.x45 || at_byte query i Byte.x65) &&
  at_byte query (i + 1) QUOTE.

Fixpoint skipEscapeQuotedLiteral (fuel : nat) (query : bytes) (i : nat) : option nat :=
  match fuel with
  | O => None
  | S fuel' =>
    if (i <? length query)%nat then
      if at_byte query i BACKSLASH then
        let i := (i + 1)%nat in
        let i := if (i <? length query)%nat then (i + (decode (drop i query)).2)%nat else i in
        skipEscapeQuotedLiteral fuel' query i
      else
        let '(next, size) := decode (drop i query) in
        let i := (i + size)%nat in
        if negb (next =? bz QUOTE) then skipEscapeQuotedLiteral fuel' query i
        else if (i <? length query)%nat && at_byte query i QUOTE
        then skipEscapeQuotedLiteral fuel' query (i + 1)
        else Some i
    else Some i
  end.

(** strings.IndexByte. *)
Definition IndexByte (s : bytes) (b : Byte.byte) : option nat :=
  fst <$> list_find (fun x => x = b) s.

(** strings.Index. *)
Fixpoint Index (s sep : bytes) : option nat :=
  if decide (take (length sep) s = sep) then Some O
  else match s with [] => None | _ :: s' => S <$> Index s' sep end.

Definition validDollarQuoteTagChar (char : Byte.byte) (first : bool) : bool :=
  if decide (char = UNDERSCORE) then true
  else if within 0x30 0x39 (bz char) then negb first
  else within 0x61 0x7A (bz char) || within 0x41 0x5A (bz char).

Fixpoint validDollarQuoteTag_from (i : nat) (tag : bytes) : bool :=
  match tag with
  | [] => true
  | char :: tag' =>
    if negb (validDollarQuoteTagChar char (i =? 0)%nat) then false
    else validDollarQuoteTag_from (S i) tag'
  end.
Definition validDollarQuoteTag (tag : bytes) : bool := validDollarQuoteTag_from 0 tag.

Definition dollarQuoteDelimiter (query : bytes) (i : nat) : option bytes :=
  if (length query <=? i)%nat || negb (at_byte query i DOLLAR) then None
  else
    match IndexByte (drop (i + 1) query) DOLLAR with
    | None => None
    | Some relativeEnd =>
      let end_ := (i + 1 + relativeEnd)%nat in
      if negb (validDollarQuoteTag (take (end_ - (i + 1)) (drop (i + 1) query))) then None
      else Some (take (end_ + 1 - i) (drop i query))
    end.

Definition skipDollarQuotedLiteral (query : bytes) (i : nat) (delimiter : bytes) : nat :=
  match Index (drop i query) delimiter with
  | None => length query
  | Some relativeEnd => (i + relativeEnd + length delimiter)%nat
  end.

Fixpoint skipQuotedLiteral (fuel : nat) (query : bytes) (i : nat) : option nat :=
  match fuel with
  | O => None
  | S fuel' =>
    if (i <? length query)%nat then
      let '(next, size) := decode (drop i query) in
      let i := (i + size)%nat in
      if negb (next =? bz QUOTE) then skipQuotedLiteral fuel' query i
      else if (i <? length query)%nat && at_byte query i QUOTE
      then skipQuotedLiteral fuel' query (i + 1)
      else Some i
    else Some i
  end.

Fixpoint skipNumericLiteral (fuel : nat) (query : bytes) (i : nat) : option nat :=
  match fuel with
  | O => None
  | S fuel' =>
    if (i <? length query)%nat then
      let '(next, size) := decode (drop i query) in
      if negb (IsDigit next) && negb (next =? 0x2E) then Some i
      else skipNumericLiteral fuel' query (i + size)
    else Some i
  end.

(** "…" *)
Definition truncationMarker : bytes := [Byte.xe2; Byte.x80; Byte.xa6].

(** for end > 0 && !utf8.ValidString(value[:end]) { end-- } *)
Fixpoint shrink_to_valid (value : bytes) (end_ : nat) : nat :=
  match end_ with
  | O => O
  | S end' => if valid (take end_ value) then end_ else shrink_to_valid value end'
  end.

Definition truncateUTF8 (value : bytes) (maxBytes : Z) : option (bytes * bool) :=
  if Z.of_nat (length value) <=? maxBytes then Some (value, false)
  else
    let end_ := maxBytes - Z.of_nat (length truncationMarker) in
    if end_ <? 0 then None
    else Some (take (shrink_to_valid value (Z.to_nat end_)) value ++ truncationMarker, true).

(** One turn of the main loop: the index, the builder and lastWasSpace. *)
Definition redact_turn (query : bytes) (i : nat) (out : bytes) (lastWasSpace : bool)
  : option (nat * bytes * bool) :=
  let fuel := S (length query) in
  if isEscapeStringStart query i then
    i' ← skipEscapeQuotedLiteral fuel query (i + 2);
    Some (i', out ++ [QMARK], false)
  else
    match dollarQuoteDelimiter query i with
    | Some delimiter =>
      Some (skipDollarQuotedLiteral query (i + length delimiter) delimiter, out ++ [QMARK], false)
    | None =>
      let '(r, size) := decode (drop i query) in
      if r =? bz QUOTE then
        i' ← skipQuotedLiteral fuel query (i + size);
        Some (i', out ++ [QMARK], false)
      else if IsSpace r then
        Some ((i + size)%nat,
              if negb lastWasSpace && (0 <? length out)%nat then out ++ [SPACE] else out, true)
      else if IsDigit r then
        i' ← skipNumericLiteral fuel query (i + size);
        Some (i', out ++ [QMARK], false)
      else Some ((i + size)%nat, out ++ encode r, false)
    end.

Fixpoint redact_loop (fuel : nat) (query : bytes) (maxBytes : Z) (i : nat) (out : bytes)
    (lastWasSpace : bool) : option (bytes * bool) :=
  match fuel with
  | O => None
  | S fuel' =>
    if (i <? length query)%nat then
      match redact_turn query i out lastWasSpace with
      | None => None
      | Some (i', out', lastWasSpace') =>
        if (maxBytes <=? Z.of_nat (length out')) && (i' <? length query)%nat
        then (fun p => (p.1, true)) <$> truncateUTF8 (TrimSpace out') maxBytes
        else redact_loop fuel' query maxBytes i' out' lastWasSpace'
      end
    else Some (TrimSpace out, false)
  end.

Definition redactSQLValues (query : bytes) (maxBytes : Z) : option (bytes * bool) :=
  redact_loop (S (length query)) query maxBytes 0 [] false.

Definition maxSQLPreviewBytes : Z := 2048.

Record sqlSummary : Type := MkSummary { Preview : bytes; Bytes : nat; Truncated : bool }.

Definition summarizeSQL (query : bytes) : option sqlSummary :=
  p ← redactSQLValues query maxSQLPreviewBytes;
  Some (MkSummary p.1 (length query) p.2).

(** The cases of TestSummarizeSQL with an expected preview. *)
Example redact_values :
  summarizeSQL (lit "SELECT * FROM users WHERE token = 'secret' AND id = 42")
  = Some (MkSummary (lit "SELECT * FROM users WHERE token = ? AND id = ?") 54 false).
Proof. vm_compute. reflexivity. Qed.

Example redact_escape : redactSQLValues (lit "SELECT E'secret\'tail'") 2048 = Some (lit "SELECT ?", false).
Proof. vm_compute. reflexivity. Qed.

Example redact_dollar :
  redactSQLValues (lit "SELECT $payload$secret-value$payload$") 2048 = Some (lit "SELECT ?", false).
Proof. vm_compute. reflexivity. Qed.

(** ** Reference lexer

    The same tokens, byte by byte and on the remaining text: how many bytes a
    literal takes once its opening delimiter is consumed. *)

(** Up to and including the closing quote; a doubled quote is a quote. *)
Fixpoint quoted_len (s : bytes) : nat :=
  match s with
  | [] => 0
  | b :: t =>
    if decide (b = QUOTE)
    then match t with
         | b' :: t' => if decide (b' = QUOTE) then 2 + quoted_len t' else 1
         | [] => 1
         end
    else 1 + quoted_len t
  end.

(** As above, and a backslash hides the byte after it. *)
Fixpoint escaped_len (s : bytes) : nat :=
  match s with
  | [] => 0
  | b :: t =>
    if decide (b = BACKSLASH)
    then match t with [] => 1 | _ :: t' => 2 + escaped_len t' end
    else if decide (b = QUOTE)
    then match t with
         | b' :: t' => if decide (b' = QUOTE) then 2 + escaped_len t' else 1
         | [] => 1
         end
    else 1 + escaped_len t
  end.

(** Digits and dots. *)
Fixpoint number_len (fuel : nat) (s : bytes) : nat :=
  match fuel with
  | O => 0
  | S fuel' =>
    match s with
    | [] => 0
    | _ => let '(r, size) := decode s in
           if IsDigit r || (r =? 0x2E) then size + number_len fuel' (drop size s) else 0
    end
  end.

(** What one token of the query becomes in the preview. *)
Inductive token : Type :=
| TLiteral
| TNumber
| TSpace
| TRune (r : Z).

(** The first token of a non-empty text, and its length. *)
Definition next_token (s : bytes) : token * nat :=
  if isEscapeStringStart s 0 then (TLiteral, (2 + escaped_len (drop 2 s))%nat)
  else
    match dollarQuoteDelimiter s 0 with
    | Some d => (TLiteral, skipDollarQuotedLiteral s (length d) d)
    | None =>
      let '(r, size) := decode s in
      if r =? bz QUOTE then (TLiteral, (size + quoted_len (drop size s))%nat)
      else if IsSpace r then (TSpace, size)
      else if IsDigit r then (TNumber, (size + number_len (length s) (drop size s))%nat)
      else (TRune r, size)
    end.

Fixpoint tokens_fuel (fuel : nat) (s : bytes) : list token :=
  match fuel, s with
  | O, _ | _, [] => []
  | S fuel', _ => let '(tok, n) := next_token s in tok :: tokens_fuel fuel' (drop n s)
  end.
Definition tokens (s : bytes) : list token := tokens_fuel (length s) s.

(** What a token appends, given whether the text so far ends in white space. *)
Definition emit (tok : token) (out : bytes) (lws : bool) : bytes * bool :=
  match tok with
  | TLiteral | TNumber => (out ++ [QMARK], false)
  | TSpace => (if negb lws && (0 <? length out)%nat then out ++ [SPACE] else out, true)
  | TRune r => (out ++ encode r, false)
  end.

(** The preview of a token sequence. *)
Fixpoint render (maxBytes : Z) (toks : list token) (out : bytes) (lws : bool)
  : option (bytes * bool) :=
  match toks with
  | [] => Some (TrimSpace out, false)
  | tok :: toks' =>
    let '(out', lws') := emit tok out lws in
    if (maxBytes <=? Z.of_nat (length out')) && negb (bool_decide (toks' = []))
    then (fun p => (p.1, true)) <$> truncateUTF8 (TrimSpace out') maxBytes
    else render maxBytes toks' out' lws'
  end.

(** ** The scanner follows the reference lexer *)

Lemma decode_avoids s b :
  bz b < 0x80 -> s <> [] -> (decode s).1 <> bz b -> b ∉ take (decode s).2 s.
Proof.
  intros Hb Hs Hr Hin. apply elem_of_take in Hin as (i & Hi & Hlt).
  destruct (decide (i = 0%nat)) as [->|Hi0].
  - destruct s as [|b' t]; simpl in Hi; simplify_eq. rewrite decode_ascii in Hr by done. done.
  - pose proof (decode_tail_high s i b ltac:(lia) Hi). lia.
Qed.

Lemma decode_is_ascii s b :
  bz b < 0x80 -> (decode s).1 = bz b -> exists t, s = b :: t /\ (decode s).2 = 1%nat.
Proof.
  intros Hb Hr. destruct (decode_low s ltac:(lia)) as (b' & t & -> & Hb').
  assert (b' = b) as -> by (apply bz_inj; lia). exists t. by rewrite decode_ascii.
Qed.

Lemma bz_QUOTE : bz QUOTE < 0x80.
Proof. reflexivity. Qed.
Lemma bz_BACKSLASH : bz BACKSLASH < 0x80.
Proof. reflexivity. Qed.
Lemma bz_DOLLAR : bz DOLLAR < 0x80.
Proof. reflexivity. Qed.

Lemma quoted_len_app x s : QUOTE ∉ x -> quoted_len (x ++ s) = (length x + quoted_len s)%nat.
Proof.
  induction x as [|b x IH]; intros Hx; [done|]. apply not_elem_of_cons in Hx as [? ?].
  simpl. rewrite decide_False by done. by rewrite IH.
Qed.

Lemma escaped_len_app x s :
  QUOTE ∉ x -> BACKSLASH ∉ x -> escaped_len (x ++ s) = (length x + escaped_len s)%nat.
Proof.
  induction x as [|b x IH]; intros Hq Hb; [done|].
  apply not_elem_of_cons in Hq as [? ?]. apply not_elem_of_cons in Hb as [? ?].
  simpl. rewrite !decide_False by done. by rewrite IH.
Qed.

(** What a quote does, in the code and in the reference: it closes the literal
    unless another one follows. *)
Lemma quoted_len_quote t :
  quoted_len (QUOTE :: t) = if at_byte t 0 QUOTE then (2 + quoted_len (drop 1 t))%nat else 1%nat.
Proof.
  unfold at_byte. destruct t as [|b t]; [done|]. cbn -[QUOTE quoted_len drop].
  destruct (decide (b = QUOTE)) as [->|Hb].
  - by rewrite bool_decide_eq_true_2.
  - rewrite bool_decide_eq_false_2 by congruence. simpl. by destruct (decide (b = QUOTE)).
Qed.

Lemma escaped_len_quote t :
  escaped_len (QUOTE :: t) = if at_byte t 0 QUOTE then (2 + escaped_len (drop 1 t))%nat else 1%nat.
Proof.
  unfold at_byte. destruct t as [|b t]; [done|]. cbn -[QUOTE escaped_len drop].
  destruct (decide (b = QUOTE)) as [->|Hb].
  - by rewrite bool_decide_eq_true_2.
  - rewrite bool_decide_eq_false_2 by congruence. simpl. by destruct (decide (b = QUOTE)).
Qed.

(** The bytes a step consumes, and those it leaves. *)
Lemma drop_step (query : bytes) i n :
  drop (i + n) query = drop n (drop i query).
Proof. by rewrite drop_drop. Qed.

Lemma at_byte_drop query i j b : at_byte (drop i query) j b = at_byte query (i + j) b.
Proof. unfold at_byte. by rewrite lookup_drop. Qed.

(** The bounds test before an indexing expression is implied by it. *)
Lemma at_byte_range query i b : (i <? length query)%nat && at_byte query i b = at_byte query i b.
Proof.
  unfold at_byte. case_bool_decide as H; [|apply andb_false_r].
  apply lookup_lt_Some in H. by rewrite (proj2 (Nat.ltb_lt _ _) H).
Qed.

Lemma drop_nonempty {A} (l : list A) i : (i < length l)%nat -> drop i l <> [].
Proof. intros Hi H%(f_equal length). rewrite length_drop in H. simpl in H. lia. Qed.

Lemma skipQuotedLiteral_ref fuel : forall query i,
  (length query - i < fuel)%nat ->
  skipQuotedLiteral fuel query i = Some (i + quoted_len (drop i query))%nat.
Proof.
  induction fuel as [|fuel IH]; intros query i Hf; [lia|]. simpl.
  destruct (Nat.ltb_spec i (length query)) as [Hi|Hi].
  2: { rewrite drop_ge by lia. simpl. f_equal. lia. }
  pose proof (drop_nonempty query i Hi) as Hne.
  pose proof (decode_size _ Hne) as [Hsz Hle].
  pose proof (decode_avoids (drop i query) QUOTE bz_QUOTE Hne) as Hav.
  pose proof (decode_is_ascii (drop i query) QUOTE bz_QUOTE) as Hq.
  destruct (decode (drop i query)) as [r n]. simpl in *.
  destruct (Z.eqb_spec r (bz QUOTE)) as [->|Hr]; cbn [negb].
  - destruct (Hq eq_refl) as (t & Ht & ->). rewrite Ht, quoted_len_quote.
    assert (Hdt : drop (i + 1) query = t) by (by rewrite drop_step, Ht).
    rewrite <- Hdt, at_byte_drop, Nat.add_0_r, at_byte_range.
    destruct (at_byte query (i + 1) QUOTE); [|done].
    rewrite IH, <- drop_step by lia. f_equal. lia.
  - rewrite IH by lia. f_equal. rewrite drop_step.
    rewrite <- (take_drop n (drop i query)) at 2. rewrite quoted_len_app by auto.
    rewrite length_take, length_drop in *. lia.
Qed.

Lemma escaped_len_backslash c t : escaped_len (BACKSLASH :: c :: t) = (2 + escaped_len t)%nat.
Proof. reflexivity. Qed.

(** Skipping the rune after a backslash skips its first byte: the others are
    neither quotes nor backslashes. *)
Lemma escaped_len_rune c t :
  escaped_len t = ((decode (c :: t)).2 - 1 + escaped_len (drop (decode (c :: t)).2 (c :: t)))%nat.
Proof.
  pose proof (decode_size (c :: t) ltac:(done)) as [Hsz Hle]. simpl length in Hle.
  pose proof (decode_tail_high (c :: t)) as Hhigh.
  destruct ((decode (c :: t)).2) as [|n]; [lia|]. simpl drop. rewrite Nat.sub_succ, Nat.sub_0_r.
  assert (Hav : forall b, bz b < 0x80 -> b ∉ take n t).
  { intros b Hb (j & Hj & Hlt)%elem_of_take.
    pose proof (Hhigh (S j) b ltac:(lia) Hj). lia. }
  rewrite <- (take_drop n t) at 1. rewrite escaped_len_app by (apply Hav; done).
  rewrite length_take. lia.
Qed.

Lemma skipEscapeQuotedLiteral_ref fuel : forall query i,
  (length query - i < fuel)%nat ->
  skipEscapeQuotedLiteral fuel query i = Some (i + escaped_len (drop i query))%nat.
Proof.
  induction fuel as [|fuel IH]; intros query i Hf; [lia|]. cbn [skipEscapeQuotedLiteral].
  destruct (Nat.ltb_spec i (length query)) as [Hi|Hi].
  2: { rewrite drop_ge by lia. simpl. f_equal. lia. }
  pose proof (drop_nonempty query i Hi) as Hne.
  destruct (at_byte query i BACKSLASH) eqn:Hbs.
  - assert (exists t, drop i query = BACKSLASH :: t /\ drop (i + 1) query = t) as (t & Ht & Hdt).
    { unfold at_byte in Hbs. apply bool_decide_eq_true in Hbs.
      exists (drop (i + 1) query). split; [|done]. rewrite Nat.add_1_r. by apply drop_S. }
    rewrite Ht. destruct (Nat.ltb_spec (i + 1) (length query)) as [Hi1|Hi1].
    + pose proof (drop_nonempty query (i + 1) Hi1) as Hne1. rewrite Hdt in *.
      pose proof (decode_size t Hne1) as [Hsz Hle]. rewrite IH by lia. f_equal.
      rewrite drop_step, Hdt. destruct t as [|c t]; [done|].
      rewrite escaped_len_backslash, (escaped_len_rune c t). simpl length in Hle. lia.
    + rewrite IH by lia. assert (t = []) as -> by (rewrite <- Hdt; apply drop_ge; lia).
      rewrite drop_ge by lia. simpl. f_equal. lia.
  - assert (Hb : (decode (drop i query)).1 <> bz BACKSLASH).
    { intros Hd. apply (decode_is_ascii _ _ bz_BACKSLASH) in Hd as (t & Ht & _).
      rewrite <- (Nat.add_0_r i), <- at_byte_drop, Ht in Hbs. done. }
    pose proof (decode_size _ Hne) as [Hsz Hle].
    pose proof (decode_avoids (drop i query) QUOTE bz_QUOTE Hne) as Hav.
    pose proof (decode_avoids (drop i query) BACKSLASH bz_BACKSLASH Hne Hb) as Hav'.
    pose proof (decode_is_ascii (drop i query) QUOTE bz_QUOTE) as Hq.
    destruct (decode (drop i query)) as [r n]. cbn [fst snd] in *.
    destruct (Z.eqb_spec r (bz QUOTE)) as [->|Hr]; cbn [negb].
    + destruct (Hq eq_refl) as (t & Ht & ->). rewrite Ht, escaped_len_quote.
      assert (Hdt : drop (i + 1) query = t) by (by rewrite drop_step, Ht).
      rewrite <- Hdt, at_byte_drop, Nat.add_0_r, at_byte_range.
      destruct (at_byte query (i + 1) QUOTE); [|done].
      rewrite IH, <- drop_step by lia. f_equal. lia.
    + rewrite IH by lia. f_equal. rewrite drop_step.
      rewrite <- (take_drop n (drop i query)) at 2. rewrite escaped_len_app by auto.
      rewrite length_take, length_drop in *. lia.
Qed.

Lemma number_len_S fuel s : s <> [] ->
  number_len (S fuel) s =
  (if IsDigit (decode s).1 || ((decode s).1 =? 0x2E)%Z
   then (decode s).2 + number_len fuel (drop (decode s).2 s) else 0)%nat.
Proof. intros Hs. destruct s as [|b t]; [done|]. cbn -[decode drop IsDigit]. by destruct (decode _). Qed.

Lemma skipNumericLiteral_ref fuel : forall fuel' query i,
  (length query - i < fuel)%nat -> (length query - i <= fuel')%nat ->
  skipNumericLiteral fuel query i = Some (i + number_len fuel' (drop i query))%nat.
Proof.
  induction fuel as [|fuel IH]; intros fuel' query i Hf Hf'; [lia|]. cbn [skipNumericLiteral].
  destruct (Nat.ltb_spec i (length query)) as [Hi|Hi].
  2: { rewrite drop_ge by lia. f_equal. destruct fuel'; simpl; lia. }
  pose proof (drop_nonempty query i Hi) as Hne. pose proof (decode_size _ Hne) as [Hsz Hle].
  destruct fuel' as [|fuel']; [lia|]. rewrite number_len_S by done.
  destruct (decode (drop i query)) as [r n]. cbn [fst snd] in *.
  rewrite <- negb_orb. destruct (IsDigit r || (r =? 0x2E)); cbn [negb].
  - rewrite (IH fuel') by lia. rewrite <- drop_step. f_equal. lia.
  - f_equal. lia.
Qed.

(** ** Every token has a length *)

Lemma quoted_len_le s : (quoted_len s <= length s)%nat.
Proof.
  induction s as [s IH] using (induction_ltof1 _ length). unfold ltof in IH.
  destruct s as [|b t]; [done|]. simpl. case_decide.
  - destruct t as [|b' t']; simpl; [lia|]. case_decide; [|lia].
    pose proof (IH t' ltac:(simpl; lia)). lia.
  - pose proof (IH t ltac:(simpl; lia)). lia.
Qed.

Lemma escaped_len_le s : (escaped_len s <= length s)%nat.
Proof.
  induction s as [s IH] using (induction_ltof1 _ length). unfold ltof in IH.
  destruct s as [|b t]; [done|]. simpl. case_decide.
  - destruct t as [|b' t']; simpl; [lia|]. pose proof (IH t' ltac:(simpl; lia)). lia.
  - case_decide.
    + destruct t as [|b' t']; simpl; [lia|]. case_decide; [|lia].
      pose proof (IH t' ltac:(simpl; lia)). lia.
    + pose proof (IH t ltac:(simpl; lia)). lia.
Qed.

Lemma number_len_le fuel : forall s, (number_len fuel s <= length s)%nat.
Proof.
  induction fuel as [|fuel IH]; intros s; [simpl; lia|].
  destruct (decide (s = [])) as [->|Hs]; [done|]. rewrite number_len_S by done.
  pose proof (decode_size s Hs) as [? ?]. specialize (IH (drop (decode s).2 s)).
  rewrite length_drop in IH. destruct (_ || _); lia.
Qed.

Lemma take_eq_le {A} (l k : list A) : take (length k) l = k -> (length k <= length l)%nat.
Proof. intros H%(f_equal length). rewrite length_take in H. lia. Qed.

Lemma Index_le s sep : forall n, Index s sep = Some n -> (n + length sep <= length s)%nat.
Proof.
  induction s as [|b s IH]; intros n; cbn [Index]; case_decide as Hd.
  - intros [= <-]. by apply take_eq_le in Hd.
  - done.
  - intros [= <-]. by apply take_eq_le in Hd.
  - intros (m & Hm & ->)%fmap_Some. simpl length. specialize (IH _ Hm). lia.
Qed.

Lemma dollarQuoteDelimiter_len s d :
  dollarQuoteDelimiter s 0 = Some d -> (2 <= length d <= length s)%nat.
Proof.
  unfold dollarQuoteDelimiter. case_goal; [done|]. case_goal; [|done].
  case_goal; [done|]. intros [= <-]. unfold IndexByte in *.
  destruct (list_find _ _) as [[j x]|] eqn:E; simplify_eq/=.
  apply list_find_Some in E as (Hj & _ & _). apply lookup_lt_Some in Hj.
  rewrite length_drop in Hj. rewrite length_take, length_drop. lia.
Qed.

Lemma next_token_len s : s <> [] -> (1 <= (next_token s).2 <= length s)%nat.
Proof.
  intros Hs. unfold next_token.
  destruct (isEscapeStringStart s 0) eqn:He; cbn [snd].
  - pose proof (escaped_len_le (drop 2 s)). rewrite length_drop in *.
    unfold isEscapeStringStart in He.
    apply andb_true_iff in He as [[He%Nat.ltb_lt _]%andb_true_iff _]. lia.
  - destruct (dollarQuoteDelimiter s 0) as [d|] eqn:Hd; cbn [snd].
    + apply dollarQuoteDelimiter_len in Hd. unfold skipDollarQuotedLiteral.
      destruct (Index _ _) as [n|] eqn:E; [|lia]. apply Index_le in E.
      rewrite length_drop in E. lia.
    + pose proof (decode_size s Hs) as [? ?]. destruct (decode s) as [r n]. cbn [fst snd] in *.
      pose proof (quoted_len_le (drop n s)). pose proof (number_len_le (length s) (drop n s)).
      rewrite length_drop in *. repeat case_goal; cbn [snd]; lia.
Qed.

(** ** One turn of the loop is one token *)

Lemma isEscapeStringStart_drop query i :
  isEscapeStringStart query i = isEscapeStringStart (drop i query) 0.
Proof.
  unfold isEscapeStringStart. rewrite !at_byte_drop, length_drop.
  replace (i + (0 + 1))%nat with (i + 1)%nat by lia. rewrite Nat.add_0_r.
  f_equal. f_equal. destruct (Nat.ltb_spec (i + 1) (length query)), (Nat.ltb_spec (0 + 1) (length query - i)); lia.
Qed.

Lemma dollarQuoteDelimiter_drop query i :
  dollarQuoteDelimiter query i = dollarQuoteDelimiter (drop i query) 0.
Proof.
  unfold dollarQuoteDelimiter. rewrite at_byte_drop, length_drop, Nat.add_0_r, drop_drop.
  replace (length query - i <=? 0)%nat with (length query <=? i)%nat
    by (destruct (Nat.leb_spec (length query) i), (Nat.leb_spec (length query - i) 0); lia).
  destruct (_ || _); [done|]. destruct (IndexByte _ _) as [n|]; [|done].
  replace (i + 1 + n - (i + 1))%nat with n by lia. replace (0 + 1 + n - (0 + 1))%nat with n by lia.
  replace (i + 1 + n + 1 - i)%nat with (0 + 1 + n + 1 - 0)%nat by lia. done.
Qed.

Lemma skipDollarQuotedLiteral_drop query i n d :
  (i <= length query)%nat ->
  skipDollarQuotedLiteral query (i + n) d = (i + skipDollarQuotedLiteral (drop i query) n d)%nat.
Proof.
  intros Hi. unfold skipDollarQuotedLiteral. rewrite drop_drop, length_drop.
  destruct (Index _ _); lia.
Qed.

Lemma redact_turn_ref query i out lws :
  (i < length query)%nat ->
  redact_turn query i out lws =
  let '(tok, n) := next_token (drop i query) in
  let '(out', lws') := emit tok out lws in Some ((i + n)%nat, out', lws').
Proof.
  intros Hi. unfold redact_turn, next_token. rewrite isEscapeStringStart_drop, dollarQuoteDelimiter_drop.
  destruct (isEscapeStringStart (drop i query) 0).
  { rewrite skipEscapeQuotedLiteral_ref, <- drop_step by lia. cbn [mbind option_bind emit].
    by rewrite Nat.add_assoc. }
  destruct (dollarQuoteDelimiter (drop i query) 0) as [d|].
  { rewrite skipDollarQuotedLiteral_drop by lia. done. }
  destruct (decode (drop i query)) as [r n]. cbn [fst snd].
  destruct (r =? bz QUOTE).
  { rewrite skipQuotedLiteral_ref, <- drop_step by lia. cbn [mbind option_bind emit].
    by rewrite Nat.add_assoc. }
  destruct (IsSpace r); [done|]. destruct (IsDigit r); [|done].
  rewrite (skipNumericLiteral_ref _ (length (drop i query))) by (rewrite ?length_drop; lia).
  rewrite <- drop_step. cbn [mbind option_bind emit]. by rewrite Nat.add_assoc.
Qed.

Lemma tokens_fuel_S fuel s : s <> [] ->
  tokens_fuel (S fuel) s = (next_token s).1 :: tokens_fuel fuel (drop (next_token s).2 s).
Proof.
  intros Hs. destruct s as [|b t]; [done|]. cbn [tokens_fuel]. by destruct (next_token _).
Qed.

Lemma tokens_fuel_nil fuel s : (length s <= fuel)%nat -> tokens_fuel fuel s = [] <-> s = [].
Proof.
  intros Hf. destruct (decide (s = [])) as [->|Hs]; [by destruct fuel|].
  destruct fuel as [|fuel]; [by destruct s; simpl in *; try lia|].
  rewrite tokens_fuel_S by done. done.
Qed.

Lemma redact_loop_ref fuel : forall fuel' query maxBytes i out lws,
  (length query - i < fuel)%nat -> (length query - i <= fuel')%nat ->
  redact_loop fuel query maxBytes i out lws
  = render maxBytes (tokens_fuel fuel' (drop i query)) out lws.
Proof.
  induction fuel as [|fuel IH]; intros fuel' query maxBytes i out lws Hf Hf'; [lia|].
  cbn [redact_loop]. destruct (Nat.ltb_spec i (length query)) as [Hi|Hi].
  2: { rewrite drop_ge by lia. by destruct fuel'. }
  pose proof (drop_nonempty query i Hi) as Hne.
  pose proof (next_token_len _ Hne) as [H1 H2]. rewrite length_drop in H2.
  destruct fuel' as [|fuel']; [lia|]. rewrite redact_turn_ref, tokens_fuel_S by done.
  destruct (next_token (drop i query)) as [tok n]. cbn [fst snd render] in *.
  rewrite <- drop_step. destruct (emit tok out lws) as [out' lws'].
  replace (negb (bool_decide (tokens_fuel fuel' (drop (i + n) query) = [])))
    with (i + n <? length query)%nat.
  - destruct (_ && _); [done|]. apply IH; lia.
  - destruct (Nat.ltb_spec (i + n) (length query)) as [Hlt|Hge].
    + rewrite bool_decide_eq_false_2; [done|]. rewrite tokens_fuel_nil by (rewrite length_drop; lia).
      by apply drop_nonempty.
    + rewrite drop_ge by lia. rewrite bool_decide_eq_true_2; [done|]. by destruct fuel'.
Qed.

(** The preview is a function of the tokens alone. *)
Lemma redact_tokens query maxBytes :
  redactSQLValues query maxBytes = render maxBytes (tokens query) [] false.
Proof. apply (redact_loop_ref _ (length query) query); lia. Qed.

(** ** What the preview is made of *)

(** A rune that may appear in a preview: no digit, no quote, and no white space
    but the blank. *)
Definition clean (r : Z) : Prop :=
  scalar r /\ IsDigit r = false /\ r <> bz QUOTE /\ (IsSpace r = true -> r = 0x20).

(** No two blanks in a row. *)
Definition collapsed (rs : list Z) : Prop :=
  forall i, ~ (rs !! i = Some 0x20 /\ rs !! S i = Some 0x20).

Definition clean_text (s : bytes) : Prop :=
  exists rs, s = encode_all rs /\ Forall clean rs /\ collapsed rs.

Lemma collapsed_infix rs1 rs2 rs3 : collapsed (rs1 ++ rs2 ++ rs3) -> collapsed rs2.
Proof.
  intros H i [H1 H2]. apply (H (length rs1 + i)%nat). rewrite <- Nat.add_succ_r.
  assert (Hin : forall j, rs2 !! j = Some 0x20 -> (rs1 ++ rs2 ++ rs3) !! (length rs1 + j)%nat = Some 0x20).
  { intros j Hj. rewrite lookup_app_r by lia.
    replace (length rs1 + j - length rs1)%nat with j by lia. by apply lookup_app_l_Some. }
  auto.
Qed.

Lemma collapsed_snoc rs r :
  collapsed rs -> (r = 0x20 -> last rs <> Some 0x20) -> collapsed (rs ++ [r]).
Proof.
  intros H Hr i [H1 H2]. apply lookup_app_Some in H2 as [H2|[Hge H2]].
  - apply (H i). split; [|done]. rewrite lookup_app_l in H1; [done|].
    apply lookup_lt_Some in H2. lia.
  - destruct (S i - length rs)%nat as [|[|]] eqn:E; simplify_eq/=.
    apply Hr; [done|]. rewrite last_lookup. replace (Nat.pred (length rs)) with i by lia.
    rewrite lookup_app_l in H1 by lia. done.
Qed.

Definition token_ok (tok : token) : Prop :=
  match tok with TRune r => clean r /\ IsSpace r = false | _ => True end.

Lemma next_token_ok s : token_ok (next_token s).1.
Proof.
  unfold next_token. destruct (isEscapeStringStart s 0); [done|].
  destruct (dollarQuoteDelimiter s 0); [done|].
  pose proof (decode_scalar s). destruct (decode s) as [r n]. cbn [fst] in *.
  destruct (Z.eqb_spec r (bz QUOTE)); [done|]. destruct (IsSpace r) eqn:Hsp; [done|].
  destruct (IsDigit r) eqn:Hd; [done|]. simpl. unfold clean. rewrite Hsp. done.
Qed.

Lemma tokens_ok fuel : forall s, Forall token_ok (tokens_fuel fuel s).
Proof.
  induction fuel as [|fuel IH]; intros s; [constructor|].
  destruct (decide (s = [])) as [->|Hs]; [constructor|].
  rewrite tokens_fuel_S by done. constructor; [apply next_token_ok|apply IH].
Qed.

(** The builder's contents, with the flag lastWasSpace. *)
Definition text_inv (out : bytes) (lws : bool) : Prop :=
  exists rs, out = encode_all rs /\ Forall clean rs /\ collapsed rs /\
             (last rs = Some 0x20 -> lws = true).

Lemma text_inv_nil : text_inv [] false.
Proof. exists []. repeat split; [constructor|intros i [? _]; done|done]. Qed.

Lemma text_inv_snoc out lws lws' r :
  text_inv out lws -> clean r -> (r = 0x20 -> lws = false) -> (r = 0x20 -> lws' = true) ->
  text_inv (out ++ encode r) lws'.
Proof.
  intros (rs & -> & Hc & Hco & Hl) Hr H1 H2. exists (rs ++ [r]). repeat split.
  - rewrite encode_all_app. unfold encode_all at 3. simpl. by rewrite app_nil_r.
  - apply Forall_app. split; [done|by constructor].
  - apply collapsed_snoc; [done|]. intros Hr20 Hlast. rewrite H1 in Hl by done. naive_solver.
  - rewrite last_snoc. intros [= ->]. auto.
Qed.

Lemma clean_QMARK : clean (bz QMARK).
Proof. unfold clean, scalar. vm_compute. intuition (discriminate || lia). Qed.
Lemma clean_SPACE : clean (bz SPACE).
Proof. unfold clean, scalar. vm_compute. intuition (discriminate || lia). Qed.
Lemma clean_marker : clean 0x2026.
Proof. unfold clean, scalar. vm_compute. intuition (discriminate || lia). Qed.

Lemma emit_inv tok out lws :
  token_ok tok -> text_inv out lws ->
  text_inv (emit tok out lws).1 (emit tok out lws).2 /\
  (length (emit tok out lws).1 <= length out + 4)%nat.
Proof.
  intros Htok Hinv. destruct tok as [| | |r]; simpl.
  - rewrite length_app. split; [|simpl; lia].
    apply (text_inv_snoc out lws false (bz QMARK)); [done|apply clean_QMARK|done..].
  - rewrite length_app. split; [|simpl; lia].
    apply (text_inv_snoc out lws false (bz QMARK)); [done|apply clean_QMARK|done..].
  - destruct (negb lws && (0 <? length out)%nat) eqn:E.
    + rewrite length_app. split; [|simpl; lia].
      apply (text_inv_snoc out lws true (bz SPACE)); [done|apply clean_SPACE| |done].
      intros _. by destruct lws.
    + split; [|lia]. destruct Hinv as (rs & -> & ? & ? & _). by exists rs.
  - destruct Htok as [Hc Hs]. rewrite length_app. split.
    + apply (text_inv_snoc out lws false r); [done|done|..]; intros ->; done.
    + pose proof (encode_length r (proj1 Hc)). lia.
Qed.

Lemma Forall_clean_scalar rs : Forall clean rs -> Forall scalar rs.
Proof. intros H. eapply Forall_impl; [exact H|]. by intros r [? _]. Qed.

Lemma TrimSpace_clean s : clean_text s -> clean_text (TrimSpace s) /\ (length (TrimSpace s) <= length s)%nat.
Proof.
  intros (rs & -> & Hc & Hco).
  destruct (TrimSpace_runes rs (Forall_clean_scalar _ Hc)) as (rs1 & rs2 & rs3 & -> & -> & _).
  split.
  - exists rs2. apply Forall_app in Hc as [_ [Hc _]%Forall_app].
    repeat split; [done|]. by eapply collapsed_infix.
  - rewrite !encode_all_app, !length_app. lia.
Qed.

Lemma shrink_to_valid_spec value n :
  (shrink_to_valid value n <= n)%nat /\ valid (take (shrink_to_valid value n) value) = true.
Proof.
  induction n as [|n [IH1 IH2]]; cbn [shrink_to_valid]; [done|].
  destruct (valid (take (S n) value)) eqn:E; [done|]. split; [lia|done].
Qed.

Lemma truncateUTF8_clean value maxBytes :
  3 <= maxBytes -> clean_text value ->
  exists p, truncateUTF8 value maxBytes = Some p /\ clean_text p.1 /\
            Z.of_nat (length p.1) <= maxBytes.
Proof.
  intros Hmax Hc. unfold truncateUTF8.
  destruct (Z.leb_spec (Z.of_nat (length value)) maxBytes) as [Hle|Hgt].
  - eexists. split; [done|]. done.
  - simpl length. destruct (Z.ltb_spec (maxBytes - Z.of_nat 3) 0); [lia|].
    destruct (shrink_to_valid_spec value (Z.to_nat (maxBytes - Z.of_nat 3))) as [Hn Hv].
    set (n := shrink_to_valid _ _) in *.
    eexists. split; [done|]. cbn [fst]. split.
    + destruct Hc as (rs & -> & Hc & Hco).
      apply valid_iff in Hv as (rs' & Hrs' & Ht).
      destruct (encode_all_prefix rs rs' (drop n (encode_all rs)) (Forall_clean_scalar _ Hc) Hrs')
        as [rs2 ->]; [rewrite <- Ht; by rewrite take_drop|].
      exists (rs' ++ [0x2026]). rewrite Ht, (encode_all_app rs' [0x2026]). repeat split.
      * apply Forall_app in Hc as [Hc _]. apply Forall_app. split; [done|].
        constructor; [apply clean_marker|done].
      * apply collapsed_snoc; [|done]. by apply (collapsed_infix [] rs' rs2).
    + rewrite length_app, length_take. simpl length. lia.
Qed.

Lemma text_inv_clean out lws : text_inv out lws -> clean_text out.
Proof. intros (rs & -> & ? & ? & _). by exists rs. Qed.

Lemma render_spec maxBytes toks : forall out lws,
  3 <= maxBytes -> Forall token_ok toks -> text_inv out lws ->
  Z.of_nat (length out) < maxBytes ->
  exists preview truncated,
    render maxBytes toks out lws = Some (preview, truncated) /\ clean_text preview /\
    Z.of_nat (length preview) <= maxBytes + (if truncated then 0 else 3).
Proof.
  intros out lws Hmax. revert out lws.
  induction toks as [|tok toks IH]; intros out lws Htoks Hinv Hlen; cbn [render].
  - destruct (TrimSpace_clean out (text_inv_clean _ _ Hinv)) as [Hc Hle].
    do 2 eexists. split; [done|]. split; [done|]. lia.
  - apply Forall_cons in Htoks as [Htok Htoks].
    destruct (emit_inv tok out lws Htok Hinv) as [Hinv' Hlen'].
    destruct (emit tok out lws) as [out' lws']. cbn [fst snd] in *.
    destruct (TrimSpace_clean out' (text_inv_clean _ _ Hinv')) as [Hc Hle].
    destruct (Z.leb_spec maxBytes (Z.of_nat (length out'))) as [Hge|Hlt]; cbn [andb].
    + case_bool_decide as Hnil; cbn [negb].
      * subst toks. cbn [render]. do 2 eexists. split; [done|]. split; [done|]. lia.
      * destruct (truncateUTF8_clean _ maxBytes Hmax Hc) as ([pv tr] & -> & Hpc & Hpl).
        do 2 eexists. split; [done|]. split; [done|]. simpl in *. lia.
    + apply IH; [done..|lia].
Qed.

(** ** Values rendered into the query

    GORM renders a bound string value by doubling the quotes in it and putting
    it between quotes. *)

Fixpoint double_quotes (s : bytes) : bytes :=
  match s with
  | [] => []
  | b :: t => if decide (b = QUOTE) then QUOTE :: QUOTE :: double_quotes t else b :: double_quotes t
  end.

Definition sql_quote (s : bytes) : bytes := QUOTE :: double_quotes s ++ [QUOTE].

(** SQL text that is neither inside nor at the start of a literal: without
    quotes and dollar signs, and not ending in the E of an escape string. *)
Definition plain (p : bytes) : Prop :=
  p <> [] /\ QUOTE ∉ p /\ DOLLAR ∉ p /\ last p <> Some Byte.x45 /\ last p <> Some Byte.x65.

#[export] Instance plain_dec p : Decision (plain p).
Proof. unfold plain. apply _. Defined.

Lemma tokens_fuel_irrel fuel : forall fuel' s,
  (length s <= fuel)%nat -> (length s <= fuel')%nat -> tokens_fuel fuel s = tokens_fuel fuel' s.
Proof.
  induction fuel as [|fuel IH]; intros fuel' s Hf Hf';
    (destruct (decide (s = [])) as [->|Hs]; [by destruct fuel'|]);
    pose proof (next_token_len s Hs); [lia|].
  destruct fuel' as [|fuel']; [lia|]. rewrite !tokens_fuel_S by done. f_equal.
  apply IH; rewrite length_drop; lia.
Qed.

Lemma tokens_cons s : s <> [] ->
  tokens s = (next_token s).1 :: tokens (drop (next_token s).2 s).
Proof.
  intros Hs. pose proof (next_token_len s Hs). unfold tokens at 1.
  destruct (length s) as [|n] eqn:Hn; [lia|]. rewrite tokens_fuel_S by done. f_equal.
  apply tokens_fuel_irrel; rewrite ?length_drop; lia.
Qed.

(** A quoted value is one literal, whatever its bytes. *)
Lemma quoted_len_double s t :
  at_byte t 0 QUOTE = false ->
  quoted_len (double_quotes s ++ QUOTE :: t) = S (length (double_quotes s)).
Proof.
  intros Ht. induction s as [|b s IH]; cbn [double_quotes].
  - simpl app. rewrite quoted_len_quote, Ht. done.
  - destruct (decide (b = QUOTE)) as [->|Hb].
    + simpl app. rewrite quoted_len_quote. unfold at_byte. simpl lookup.
      rewrite bool_decide_eq_true_2 by done.
      rewrite (skipn_cons 0), drop_0, IH. simpl length. lia.
    + simpl. rewrite decide_False by done. by rewrite IH.
Qed.

Lemma next_token_quote u : next_token (QUOTE :: u) = (TLiteral, S (quoted_len u)).
Proof.
  unfold next_token. replace (isEscapeStringStart (QUOTE :: u) 0) with false.
  2: { unfold isEscapeStringStart, at_byte. simpl lookup. rewrite !bool_decide_eq_false_2 by done.
       by rewrite andb_false_r. }
  replace (dollarQuoteDelimiter (QUOTE :: u) 0) with (@None bytes).
  2: { unfold dollarQuoteDelimiter, at_byte. simpl lookup. rewrite bool_decide_eq_false_2 by done.
       by rewrite orb_true_r. }
  rewrite decode_ascii by done. rewrite Z.eqb_refl. reflexivity.
Qed.

Lemma tokens_sql_quote s t :
  at_byte t 0 QUOTE = false -> tokens (sql_quote s ++ t) = TLiteral :: tokens t.
Proof.
  intros Ht. unfold sql_quote. rewrite <- app_comm_cons, <- app_assoc. simpl app at 2.
  rewrite tokens_cons by done. rewrite next_token_quote, quoted_len_double by done.
  cbn [fst snd]. f_equal. f_equal. simpl drop.
  rewrite drop_app_ge by lia. by replace (S (length (double_quotes s)) - length (double_quotes s))%nat with 1%nat by lia.
Qed.

(** Decoding never looks past an ASCII byte. *)
Lemma decode_until_ascii p b t :
  p <> [] -> bz b < 0x80 -> decode (p ++ b :: t) = decode (p ++ [b]) /\
  ((decode (p ++ [b])).2 <= length p)%nat.
Proof.
  intros Hp Hb. split.
  - assert (Hw : forall lo hi, 0x80 <= lo -> within lo hi (bz b) = false) by (unfold within; lia).
    destruct p as [|b0 p]; [done|]. simpl. destruct (bz b0 <? RuneSelf); [done|].
    destruct (first (bz b0)) as [[[n lo] hi]|] eqn:Hf; [|done].
    assert (0x80 <= lo) as Hlo by (apply first_Some in Hf; lia).
    unfold cont. destruct p as [|b1 [|b2 [|b3 p]]]; simpl;
      destruct n as [|[|[|[|[|n]]]]]; try done;
      destruct t as [|t0 [|t1 t]]; simpl; rewrite ?Hw, ?andb_false_r by lia; done.
  - destruct (decide ((decode (p ++ [b])).2 <= length p)%nat) as [|Hgt]; [done|]. exfalso.
    assert (1 <= length p)%nat by (destruct p; simpl; [done|lia]).
    pose proof (decode_tail_high (p ++ [b]) (length p) b ltac:(lia)) as H'.
    rewrite lookup_app_r, Nat.sub_diag in H' by lia. specialize (H' eq_refl). lia.
Qed.

Lemma number_len_irrel fuel : forall fuel' s,
  (length s <= fuel)%nat -> (length s <= fuel')%nat -> number_len fuel s = number_len fuel' s.
Proof.
  induction fuel as [|fuel IH]; intros fuel' s Hf Hf';
    (destruct (decide (s = [])) as [->|Hs]; [by destruct fuel'|]);
    pose proof (decode_size s Hs) as [? ?]; [lia|].
  destruct fuel' as [|fuel']; [lia|]. rewrite !number_len_S by done.
  by rewrite (IH fuel') by (rewrite length_drop; lia).
Qed.

Lemma number_len_until_quote fuel : forall p t,
  number_len fuel (p ++ QUOTE :: t) = number_len fuel (p ++ [QUOTE]) /\
  (number_len fuel (p ++ [QUOTE]) <= length p)%nat.
Proof.
  induction fuel as [|fuel IH]; intros p t; [simpl; lia|].
  destruct (decide (p = [])) as [->|Hp]; [done|].
  rewrite !number_len_S by (by intros [? ?]%app_eq_nil).
  destruct (decode_until_ascii p QUOTE t Hp bz_QUOTE) as [-> Hsz].
  destruct (decode (p ++ [QUOTE])) as [r n]. cbn [fst snd] in *.
  destruct (_ || _); [|simpl; lia]. rewrite !drop_app_le by lia.
  destruct (IH (drop n p) t) as [-> Hle]. rewrite length_drop in Hle. split; [done|lia].
Qed.

(** In front of a literal, plain text is read the same whatever the literal. *)
Lemma next_token_plain p t :
  plain p -> next_token (p ++ QUOTE :: t) = next_token (p ++ [QUOTE]) /\
             ((next_token (p ++ [QUOTE])).2 <= length p)%nat.
Proof.
  intros (Hp & Hq & Hd & HE & He).
  destruct p as [|b0 p]; [done|]. apply not_elem_of_cons in Hq as [Hq0 Hq], Hd as [Hd0 Hd].
  assert (Hesc : forall u, isEscapeStringStart ((b0 :: p) ++ QUOTE :: u) 0 = false).
  { intros u. unfold isEscapeStringStart, at_byte. simpl.
    destruct p as [|b1 p]; simpl.
    - simpl in HE, He. rewrite (bool_decide_eq_false_2 (Some b0 = Some Byte.x45)) by congruence.
      by rewrite (bool_decide_eq_false_2 (Some b0 = Some Byte.x65)) by congruence.
    - rewrite (bool_decide_eq_false_2 (Some b1 = Some QUOTE)); [by rewrite andb_false_r|].
      intros [= ->]. apply Hq. by left. }
  assert (Hdol : forall u, dollarQuoteDelimiter ((b0 :: p) ++ QUOTE :: u) 0 = None).
  { intros u. unfold dollarQuoteDelimiter, at_byte. simpl.
    rewrite bool_decide_eq_false_2 by congruence. done. }
  unfold next_token. rewrite !Hesc, !Hdol.
  destruct (decode_until_ascii (b0 :: p) QUOTE t ltac:(done) bz_QUOTE) as [-> Hsz].
  assert (Hr : (decode ((b0 :: p) ++ [QUOTE])).1 <> bz QUOTE).
  { intros H. apply (decode_is_ascii _ _ bz_QUOTE) in H as (u & [= ? _] & _). congruence. }
  destruct (decode ((b0 :: p) ++ [QUOTE])) as [r n]. cbn [fst snd] in *.
  rewrite (proj2 (Z.eqb_neq _ _) Hr). destruct (IsSpace r); [done|]. destruct (IsDigit r); [|done].
  rewrite !drop_app_le by lia.
  set (f := (length ((b0 :: p) ++ QUOTE :: t))). set (f' := length ((b0 :: p) ++ [QUOTE])).
  assert (Hf : (length (drop n (b0 :: p) ++ [QUOTE]) <= f)%nat /\
               (length (drop n (b0 :: p) ++ [QUOTE]) <= f')%nat).
  { unfold f, f'. rewrite !length_app, length_drop. simpl. lia. }
  destruct (number_len_until_quote f (drop n (b0 :: p)) t) as [-> Hle].
  rewrite (number_len_irrel f f') in * by lia. rewrite length_drop in Hle. split; [done|].
  cbn [snd]. lia.
Qed.

Lemma plain_drop p n : plain p -> (n < length p)%nat -> plain (drop n p).
Proof.
  intros (Hp & Hq & Hd & HE & He) Hn.
  assert (Hsub : forall b, b ∈ drop n p -> b ∈ p).
  { intros b Hb. rewrite <- (take_drop n p). apply elem_of_app. by right. }
  assert (Hlast : last (drop n p) = last p).
  { rewrite <- (take_drop n p) at 2. rewrite last_app.
    destruct (last (drop n p)) eqn:E; [done|]. apply last_None, drop_nonempty in E; done. }
  unfold plain. rewrite Hlast. repeat split; auto using drop_nonempty.
Qed.

Lemma tokens_plain p : plain p ->
  exists toks, forall t, tokens (p ++ QUOTE :: t) = toks ++ tokens (QUOTE :: t).
Proof.
  induction p as [p IH] using (induction_ltof1 _ length). unfold ltof in IH. intros Hp.
  assert (Hne : p <> []) by apply Hp.
  assert (Hlen : (1 <= (next_token (p ++ [QUOTE])).2)%nat).
  { apply next_token_len. by intros [? ?]%app_eq_nil. }
  assert (Hstep : forall t, tokens (p ++ QUOTE :: t)
    = (next_token (p ++ [QUOTE])).1 :: tokens (drop (next_token (p ++ [QUOTE])).2 p ++ QUOTE :: t)).
  { intros t. rewrite tokens_cons by (by intros [? ?]%app_eq_nil).
    destruct (next_token_plain p t Hp) as [-> Hle]. by rewrite drop_app_le. }
  destruct (decide (length p <= (next_token (p ++ [QUOTE])).2)%nat) as [Hge|Hlt].
  - exists [(next_token (p ++ [QUOTE])).1]. intros t. rewrite Hstep. by rewrite drop_ge.
  - destruct (IH (drop (next_token (p ++ [QUOTE])).2 p)) as [toks Ht].
    + rewrite length_drop. lia.
    + apply plain_drop; [done|lia].
    + exists ((next_token (p ++ [QUOTE])).1 :: toks). intros t. rewrite Hstep, Ht. done.
Qed.

(** A statement with string values: each value follows some plain text; [tail]
    is the text after the last one. *)
Fixpoint fill (segments : list (bytes * bytes)) (tail : bytes) : bytes :=
  match segments with
  | [] => tail
  | (text, value) :: rest => text ++ sql_quote value ++ fill rest tail
  end.

Lemma fill_head segments tail :
  Forall plain segments.*1 -> at_byte tail 0 QUOTE = false ->
  at_byte (fill segments tail) 0 QUOTE = false.
Proof.
  intros Hp Ht. destruct segments as [|[p v] segs]; [done|]. simpl in *.
  apply Forall_cons in Hp as [(Hne & Hq & _) _]. destruct p as [|b p]; [done|].
  apply bool_decide_eq_false_2. simpl. intros [= ->]. apply Hq. by left.
Qed.

Lemma tokens_fill texts : forall values values' tail,
  Forall plain texts -> at_byte tail 0 QUOTE = false ->
  length values = length texts -> length values' = length texts ->
  tokens (fill (zip texts values) tail) = tokens (fill (zip texts values') tail).
Proof.
  induction texts as [|p texts IH]; intros [|v vs] [|v' vs'] tail Hp Ht Hl Hl';
    try done.
  change (zip (p :: texts) (v :: vs)) with ((p, v) :: zip texts vs).
  change (zip (p :: texts) (v' :: vs')) with ((p, v') :: zip texts vs'). cbn [fill length] in *.
  apply Forall_cons in Hp as [Hp Hps]. destruct (tokens_plain p Hp) as [toks Htoks].
  assert (Hhead : forall ws, length ws = length texts -> at_byte (fill (zip texts ws) tail) 0 QUOTE = false).
  { intros ws Hw. apply fill_head; [|done]. rewrite fst_zip by lia. done. }
  assert (Hone : forall w ws, length ws = length texts ->
    tokens (p ++ sql_quote w ++ fill (zip texts ws) tail)
    = toks ++ TLiteral :: tokens (fill (zip texts ws) tail)).
  { intros w ws Hw. rewrite <- (tokens_sql_quote w) by auto. apply Htoks. }
  rewrite !Hone by lia. by rewrite (IH vs vs') by (done || lia).
Qed.

(** ** Properties *)

(** C8. The scanner always returns (no loop runs away, no slice expression is
    out of range), and its result is the preview of the reference lexer's
    token sequence: the index arithmetic over UTF-8 implements the
    byte-by-byte lexer. *)
Theorem redact_refines_lexer query maxBytes :
  3 <= maxBytes ->
  exists preview truncated,
    redactSQLValues query maxBytes = Some (preview, truncated) /\
    render maxBytes (tokens query) [] false = Some (preview, truncated).
Proof.
  intros Hmax. rewrite redact_tokens.
  destruct (render_spec maxBytes (tokens query) [] false Hmax (tokens_ok _ _) text_inv_nil
              ltac:(simpl; lia)) as (pv & tr & -> & _). eauto.
Qed.

(** C10. Redaction: the preview of any query, valid UTF-8 or not, is valid
    UTF-8, and contains no digit of any script, no single quote, and no white
    space but single blanks. *)
Theorem redact_preview_clean query maxBytes preview truncated :
  3 <= maxBytes -> redactSQLValues query maxBytes = Some (preview, truncated) ->
  valid preview = true /\
  exists rs, preview = encode_all rs /\ Forall clean rs /\ collapsed rs.
Proof.
  intros Hmax Hr. rewrite redact_tokens in Hr.
  destruct (render_spec maxBytes (tokens query) [] false Hmax (tokens_ok _ _) text_inv_nil
              ltac:(simpl; lia)) as (pv & tr & E & (rs & -> & Hc & Hco) & _).
  rewrite E in Hr. simplify_eq. split; [|eauto].
  apply valid_iff. exists rs. split; [by apply Forall_clean_scalar|done].
Qed.

(** Size of the preview: at most maxBytes when it is reported truncated; a
    preview reported complete may exceed maxBytes, by at most three bytes. *)
Theorem redact_preview_bounded query maxBytes preview truncated :
  3 <= maxBytes -> redactSQLValues query maxBytes = Some (preview, truncated) ->
  Z.of_nat (length preview) <= maxBytes + (if truncated then 0 else 3).
Proof.
  intros Hmax Hr. rewrite redact_tokens in Hr.
  destruct (render_spec maxBytes (tokens query) [] false Hmax (tokens_ok _ _) text_inv_nil
              ltac:(simpl; lia)) as (pv & tr & E & _ & Hlen).
  rewrite E in Hr. by simplify_eq.
Qed.

(** C9. No leak of bound values from a statement whose own text has no literals of its
    own kind: the statement is a list of texts, each followed by a string value rendered by
    doubling its quotes, as GORM renders them, and a tail.  When the text before each
    value is not empty, has no single quote and no dollar sign and does not end in E or e,
    and the tail does not begin with a quote, the preview is the same whatever the
    values are, byte for byte, truncation included.  (The tail itself is arbitrary
    otherwise.  That the text may not end in E is a real limit of the code: see
    [redact_leaks_after_e].) *)
Theorem redact_hides_values texts values values' tail maxBytes :
  Forall plain texts -> at_byte tail 0 QUOTE = false ->
  length values = length texts -> length values' = length texts ->
  redactSQLValues (fill (zip texts values) tail) maxBytes
  = redactSQLValues (fill (zip texts values') tail) maxBytes.
Proof. intros. rewrite !redact_tokens. by erewrite tokens_fill. Qed.

(** The escape-string prefix is looked for one byte back, also at the end of a
    keyword.  Directly after LIKE (SQL needs no blank there) a standard literal that
    holds one backslash is read on past its end, and the literal after it is
    then copied to the preview; with another content in the first literal it is not. *)
Theorem redact_leaks_after_e :
  redactSQLValues (lit "SELECT * FROM t WHERE a LIKE'\' AND tok = 'secret'") maxSQLPreviewBytes
  = Some (lit "SELECT * FROM t WHERE a LIK?secret?", false) /\
  redactSQLValues (lit "SELECT * FROM t WHERE a LIKE'x' AND tok = 'secret'") maxSQLPreviewBytes
  = Some (lit "SELECT * FROM t WHERE a LIK? AND tok = ?", false).
Proof. vm_compute. done. Qed.

(** The preview limit of summarizeSQL is exceeded by a query of 2047 ASCII
    letters followed by one three-byte character: the preview has 2050 bytes
    and is not marked truncated. *)
Theorem summarizeSQL_exceeds_limit :
  let query := repeat Byte.x61 2047 ++ encode 0x754C in
  summarizeSQL query = Some (MkSummary query 2050 false) /\
  maxSQLPreviewBytes < 2050.
Proof. split; [vm_compute; reflexivity|reflexivity]. Qed.

(** ** Witnesses *)

Definition demo_text : bytes := lit "SELECT * FROM users WHERE token = ".
Definition demo_tail : bytes := lit " AND id = 42".

Lemma redact_refines_lexer_witness :
  exists preview truncated,
    redactSQLValues (demo_text ++ lit "'a''b'" ++ demo_tail) 2048 = Some (preview, truncated) /\
    render 2048 (tokens (demo_text ++ lit "'a''b'" ++ demo_tail)) [] false = Some (preview, truncated).
Proof. apply redact_refines_lexer. lia. Defined.

Lemma redact_preview_clean_witness :
  valid (lit "a ? ?") = true /\
  exists rs, lit "a ? ?" = encode_all rs /\ Forall clean rs /\ collapsed rs.
Proof. apply (redact_preview_clean (lit " a  'b''c' 1.5 ") 2048 _ false); [lia|]. vm_compute. reflexivity. Defined.

Lemma redact_preview_bounded_witness :
  Z.of_nat (length (lit "abcde")) <= 5 + 0.
Proof.
  apply (redact_preview_bounded (lit "abcdefgh") 5 _ true); [lia|]. vm_compute. reflexivity.
Defined.

Lemma redact_hides_values_witness :
  redactSQLValues (fill (zip [demo_text; lit " OR name = "] [lit "it's"; lit "x' OR '1'='1"]) demo_tail) 2048
  = redactSQLValues (fill (zip [demo_text; lit " OR name = "] [lit ""; lit "??"]) demo_tail) 2048.
Proof.
  apply redact_hides_values; [|reflexivity..].
  repeat constructor; apply (bool_decide_unpack _); vm_compute; exact I.
Defined.
