(* ===== verification/GormLogger.v ===== *)
(** * db/gorm_slog_logger.go: GormSlogLogger

    The logger GORM calls.  ctxscope.GetLogger(ctx) gives a *slog.Logger; what
    the methods use of it is whether a level is enabled ([enabled]) and the
    records it is handed ([logged]).  Trace receives the query text through a
    callback [fc] that renders it; the model counts the calls to it. *)

From stdpp Require Import base option list strings.
From Stdlib Require Import ZArith Lia.
From S2P Require Import Prelude GoErrors Utf8 SqlRedact.

Open Scope Z_scope.

(** gorm.io/gorm/logger.LogLevel. *)
Definition Silent : Z := 1.
Definition Error : Z := 2.
Definition Warn : Z := 3.
Definition Info : Z := 4.

(** slog.Level. *)
Definition LevelDebug : Z := -4.
Definition LevelInfo : Z := 0.
Definition LevelWarn : Z := 4.
Definition LevelError : Z := 8.

Definition gormMessageLog : string := "gorm message".
Definition gormErrorLog : string := "gorm error".
Definition gormSlowQueryLog : string := "SLOW QUERY".
Definition gormQueryLog : string := "SQL EXECUTED".

Definition slowQueryThreshold : Z := 200 * Millisecond.

Record GormSlogLogger : Type := MkLogger {
  LogLevel : Z;
  IgnoreRecordNotFoundError : bool
}.

Definition NewGormSlogLogger : GormSlogLogger := MkLogger Info true.

Definition LogMode (level : Z) (l : GormSlogLogger) : GormSlogLogger :=
  MkLogger level (IgnoreRecordNotFoundError l).

(** Attribute values of the records. *)
Inductive attr : Type :=
| AText (s : string)
| AErr (e : error)
| ADuration (ns : Z)
| AInt (z : Z)
| ABytes (s : bytes)
| ABool (b : bool).

Record logRecord : Type := MkRecord {
  level : Z;
  message : string;
  attrs : list (string * attr)
}.

(** What a call does to the outside. *)
Record traceWorld : Type := MkWorld {
  fcCalls : nat;
  logged : list logRecord
}.

Section Logger.
(** slog's level filter, and fmt.Sprintf on GORM's format and arguments. *)
Context (enabled : Z -> bool).
Context {Arg : Type} (sprintf : string -> list Arg -> string).

Definition emitRecord (r : logRecord) (w : traceWorld) : traceWorld :=
  MkWorld (fcCalls w) (logged w ++ [r]).

(** slog drops a record below the enabled level. *)
Definition slogLog (lvl : Z) (msg : string) (ats : list (string * attr)) (w : traceWorld) : traceWorld :=
  if enabled lvl then emitRecord (MkRecord lvl msg ats) w else w.

Definition InfoMsg (l : GormSlogLogger) (msg : string) (data : list Arg) (w : traceWorld) : traceWorld :=
  if Info <=? LogLevel l
  then slogLog LevelInfo gormMessageLog [("detail"%string, AText (sprintf msg data))] w else w.

Definition WarnMsg (l : GormSlogLogger) (msg : string) (data : list Arg) (w : traceWorld) : traceWorld :=
  if Warn <=? LogLevel l
  then slogLog LevelWarn gormMessageLog [("detail"%string, AText (sprintf msg data))] w else w.

Definition ErrorMsg (l : GormSlogLogger) (msg : string) (data : list Arg) (w : traceWorld) : traceWorld :=
  if Error <=? LogLevel l
  then slogLog LevelError gormMessageLog [("detail"%string, AText (sprintf msg data))] w else w.

Definition ErrRecordNotFound : string := "record not found".

Definition isLoggedError (l : GormSlogLogger) (err : option error) : bool :=
  match err with
  | None => false
  | Some e => negb (IgnoreRecordNotFoundError l) || negb (ctxerrors.Is e ErrRecordNotFound)
  end.

Definition traceSlogLevel (l : GormSlogLogger) (elapsed : Z) (isError : bool) : Z * string * bool :=
  if isError && (Error <=? LogLevel l) then (LevelError, gormErrorLog, true)
  else if (slowQueryThreshold <? elapsed) && (Warn <=? LogLevel l)
  then (LevelWarn, gormSlowQueryLog, true)
  else if Info <=? LogLevel l then (LevelDebug, gormQueryLog, true)
  else (LevelDebug, EmptyString, false).

(** The attributes of a query record. *)
Definition queryAttrs (elapsed rows : Z) (summary : sqlSummary) : list (string * attr) :=
  [("duration"%string, ADuration elapsed); ("rows"%string, AInt rows);
   ("sql_preview"%string, ABytes (Preview summary));
   ("sql_bytes"%string, AInt (Z.of_nat (Bytes summary)));
   ("sql_truncated"%string, ABool (Truncated summary))].

(** [None] would be a preview without a result; [summarizeSQL_total] below
    rules it out. *)
Definition Trace (l : GormSlogLogger) (elapsed : Z) (fc : bytes * Z) (err : option error)
    (w : traceWorld) : option traceWorld :=
  if LogLevel l <=? Silent then Some w
  else
    let isError := isLoggedError l err in
    let '(logLevel, msg, shouldLog) := traceSlogLevel l elapsed isError in
    if negb shouldLog then Some w
    else if negb (enabled logLevel) then Some w
    else
      let '(sql, rows) := fc in
      let w := MkWorld (S (fcCalls w)) (logged w) in
      summary ← summarizeSQL sql;
      let ats := queryAttrs elapsed rows summary in
      let ats := match err with
                 | Some e => if isError then ("error"%string, AErr e) :: ats else ats
                 | None => ats
                 end in
      Some (slogLog logLevel msg ats w).

(** ** Properties *)

(** Which record a query gets, if any: the classes are exclusive and in this
    order. *)
Inductive queryClass : Type := CError | CSlow | CQuery | CNothing.

#[global] Instance queryClass_eq_dec : EqDecision queryClass.
Proof. solve_decision. Defined.

Definition classify (l : GormSlogLogger) (elapsed : Z) (isError : bool) : queryClass :=
  if LogLevel l <=? Silent then CNothing
  else if isError then CError
  else if (slowQueryThreshold <? elapsed) && (Warn <=? LogLevel l) then CSlow
  else if Info <=? LogLevel l then CQuery
  else CNothing.

Definition classLevel (c : queryClass) : Z :=
  match c with CError => LevelError | CSlow => LevelWarn | _ => LevelDebug end.
Definition classMessage (c : queryClass) : string :=
  match c with CError => gormErrorLog | CSlow => gormSlowQueryLog | _ => gormQueryLog end.

Lemma traceSlogLevel_classify l elapsed isError :
  Silent < LogLevel l ->
  match classify l elapsed isError with
  | CNothing => (traceSlogLevel l elapsed isError).2 = false
  | c => traceSlogLevel l elapsed isError = (classLevel c, classMessage c, true)
  end.
Proof.
  unfold classify, traceSlogLevel, Silent, Error. intros Hl.
  destruct (Z.leb_spec (LogLevel l) 1); [lia|]. destruct (Z.leb_spec 2 (LogLevel l)); [|lia].
  destruct isError; simpl; [done|].
  destruct ((slowQueryThreshold <? elapsed) && (Warn <=? LogLevel l)); [done|].
  by destruct (Info <=? LogLevel l).
Qed.

Lemma summarizeSQL_total sql :
  exists preview truncated, summarizeSQL sql = Some (MkSummary preview (length sql) truncated) /\
    redactSQLValues sql maxSQLPreviewBytes = Some (preview, truncated).
Proof.
  unfold summarizeSQL. rewrite redact_tokens.
  destruct (render_spec maxSQLPreviewBytes (tokens sql) [] false) as (pv & tr & -> & _);
    [done|apply tokens_ok|apply text_inv_nil|done|]. simpl. eauto.
Qed.

(** C36. Trace, on every branch: a query is logged as an error, as slow, as an
    ordinary query, or not at all; with nothing to log, or a level slog does not enable,
    the query text is not even rendered; otherwise the callback is called once
    and exactly one record is written, with the redacted preview and size of
    the query, preceded by the error when it counts as one. *)
Theorem Trace_spec l elapsed sql rows err w :
  let c := classify l elapsed (isLoggedError l err) in
  if bool_decide (c = CNothing) || negb (enabled (classLevel c))
  then Trace l elapsed (sql, rows) err w = Some w
  else exists preview truncated,
    redactSQLValues sql maxSQLPreviewBytes = Some (preview, truncated) /\
    Trace l elapsed (sql, rows) err w = Some (MkWorld (S (fcCalls w)) (logged w ++
      [MkRecord (classLevel c) (classMessage c)
         (match err with
          | Some e => if isLoggedError l err then [("error"%string, AErr e)] else []
          | None => []
          end ++ queryAttrs elapsed rows (MkSummary preview (length sql) truncated))])).
Proof.
  cbn zeta. unfold Trace. destruct (Z.leb_spec (LogLevel l) Silent) as [Hs|Hs].
  { unfold classify. by rewrite (proj2 (Z.leb_le _ _) Hs). }
  pose proof (traceSlogLevel_classify l elapsed (isLoggedError l err) Hs) as Hc.
  destruct (summarizeSQL_total sql) as (pv & tr & -> & Hpv).
  destruct (classify l elapsed (isLoggedError l err)) eqn:E; simpl;
    [rewrite Hc..|destruct (traceSlogLevel _ _ _) as [[? ?] ?]; simpl in Hc; by rewrite Hc];
    simpl; destruct (enabled _) eqn:En; simpl; try done;
    exists pv, tr; (split; [done|]); unfold slogLog; rewrite En; unfold emitRecord; simpl;
    by destruct err as [e|]; [destruct (isLoggedError l (Some e))|].
Qed.

(** With IgnoreRecordNotFoundError a query that found no record is logged
    exactly like a successful one, however deeply GORM's sentinel is wrapped
    by ctxerrors. *)
Theorem Trace_ignores_not_found l elapsed fc msgs w :
  IgnoreRecordNotFoundError l = true ->
  Trace l elapsed fc (Some (foldr (fun m e => ctxerrors.WrapE e m) (Sentinel ErrRecordNotFound) msgs)) w
  = Trace l elapsed fc None w.
Proof.
  intros Hi. set (e := foldr _ _ msgs).
  assert (ctxerrors.Is e ErrRecordNotFound = true) as He.
  { unfold e. induction msgs as [|m msgs IH]; [done|]. simpl. by rewrite IH. }
  assert (isLoggedError l (Some e) = false) as Hl by (simpl; by rewrite Hi, He).
  unfold Trace. rewrite Hl. simpl isLoggedError.
  destruct (LogLevel l <=? Silent); [done|].
  destruct (traceSlogLevel l elapsed false) as [[? ?] ?]. done.
Qed.
End Logger.

(** ** Witness *)

Lemma Trace_ignores_not_found_witness :
  Trace (fun _ => true) NewGormSlogLogger 7 (lit "SELECT 1", 0)
    (Some (foldr (fun m e => ctxerrors.WrapE e m) (Sentinel ErrRecordNotFound) ["find thing"%string]))
    (MkWorld 0 [])
  = Trace (fun _ => true) NewGormSlogLogger 7 (lit "SELECT 1", 0) None (MkWorld 0 []).
Proof. apply Trace_ignores_not_found. reflexivity. Defined.
