(* ===== verification/MigrateSource.v ===== *)
(** * golang-migrate: the migration source

    source/migration.go (the in-memory index of the migrations of a source),
    source/parse.go (migration file names) and the lookups of source/iofs, the
    source behind db/migrate.go's embedded and file:// migrations.

    Versions are Go uints, kept as integers in [0, 2^64). *)

From stdpp Require Import base option list gmap strings sorting.
From Stdlib Require Import ZArith Lia Ascii.
From S2P Require Import Prelude GoErrors.

Open Scope Z_scope.

(** type Direction string *)
Definition Down : string := "down".
Definition Up : string := "up".

Record Migration : Type := MkMigration {
  Version : Z;
  Identifier : string;
  Dir : string;
  Raw : string
}.

(** ** File names *)

Definition is_digit (c : ascii) : bool :=
  let n := Z.of_N (N_of_ascii c) in (48 <=? n) && (n <=? 57).
Definition digit_value (c : ascii) : Z := Z.of_N (N_of_ascii c) - 48.
Definition newline : ascii := ascii_of_N 10.

(** [0-9]+, greedy: the digits and what follows them. *)
Fixpoint span_digits (s : string) : string * string :=
  match s with
  | EmptyString => (EmptyString, EmptyString)
  | String c s' =>
    if is_digit c then let '(d, r) := span_digits s' in (String c d, r)
    else (EmptyString, s)
  end.

Fixpoint no_newline (s : string) : bool :=
  match s with
  | EmptyString => true
  | String c s' => negb (bool_decide (c = newline)) && no_newline s'
  end.

Fixpoint strip_prefix (p s : string) : option string :=
  match p, s with
  | EmptyString, _ => Some s
  | String a p', String b s' => if bool_decide (a = b) then strip_prefix p' s' else None
  | String _ _, EmptyString => None
  end.

(** The tail of the pattern, a dot, the direction, a dot and anything up to the
    end, at the start of the text. *)
Definition match_suffix (s : string) : option string :=
  match strip_prefix ".down." s with
  | Some rest => if no_newline rest then Some Down else None
  | None =>
    match strip_prefix ".up." s with
    | Some rest => if no_newline rest then Some Up else None
    | None => None
    end
  end.

(** Any text followed by that tail, the text as long as possible. *)
Fixpoint match_name (s : string) : option (string * string) :=
  let here := (fun d => (EmptyString, d)) <$> match_suffix s in
  match s with
  | EmptyString => here
  | String c s' =>
    if bool_decide (c = newline) then here
    else match match_name s' with
         | Some (id, d) => Some (String c id, d)
         | None => here
         end
  end.

(** strconv.ParseUint(s, 10, 64) on a string of digits: a value that does not
    fit is an error. *)
Fixpoint decimal (acc : Z) (s : string) : Z :=
  match s with
  | EmptyString => acc
  | String c s' => decimal (10 * acc + digit_value c) s'
  end.
Definition ErrRange : error := Sentinel "value out of range".
Definition ParseUint64 (s : string) : gores Z :=
  let v := decimal 0 s in if v <? 2 ^ 64 then Ok v else Err ErrRange.

Definition ErrParse : error := Sentinel "no match".

(** Regex.FindStringSubmatch. *)
Definition Regex_match (raw : string) : option (string * string * string) :=
  match span_digits raw with
  | (EmptyString, _) => None
  | (digits, String c rest) =>
    if bool_decide (c = "_"%char) then (fun '(id, d) => (digits, id, d)) <$> match_name rest
    else None
  | (_, EmptyString) => None
  end.

Definition Parse (raw : string) : gores Migration :=
  match Regex_match raw with
  | Some (digits, id, d) =>
    match ParseUint64 digits with
    | Ok versionUint64 => Ok (MkMigration versionUint64 id d raw)
    | Err err => Err err
    end
  | None => Err ErrParse
  end.

(** ** The index *)

Record Migrations : Type := MkMigrations {
  index : list Z;
  migrations : gmap Z (gmap string Migration)
}.

Definition NewMigrations : Migrations := MkMigrations [] ∅.

(** The versions, sorted; the order in which Go ranges over the map does not
    matter once they are. *)
Definition buildIndex (i : Migrations) : Migrations :=
  MkMigrations (merge_sort Z.le (map_to_list (migrations i)).*1) (migrations i).

Definition Append (i : Migrations) (m : option Migration) : bool * Migrations :=
  match m with
  | None => (false, i)
  | Some m =>
    let i := match migrations i !! Version m with
             | None => MkMigrations (index i) (<[Version m := ∅]> (migrations i))
             | Some _ => i
             end in
    let byDir := default ∅ (migrations i !! Version m) in
    match byDir !! Dir m with
    | Some _ => (false, i)
    | None =>
      (true, buildIndex (MkMigrations (index i)
               (<[Version m := <[Dir m := m]> byDir]> (migrations i))))
    end
  end.

Arguments Append : simpl never.

(** sort.Search: binary search for the first index with [f]. *)
Fixpoint Search_loop (fuel : nat) (f : nat -> bool) (i j : nat) : nat :=
  match fuel with
  | O => i
  | S fuel' =>
    if (i <? j)%nat then
      let h := Nat.div2 (i + j) in
      if negb (f h) then Search_loop fuel' f (h + 1) j else Search_loop fuel' f i h
    else i
  end.
Definition sort_Search (n : nat) (f : nat -> bool) : nat := Search_loop n f 0 n.

(** uintSlice.Search *)
Definition uintSlice_Search (s : list Z) (x : Z) : nat :=
  sort_Search (length s) (fun i => x <=? default 0 (s !! i)).

Definition findPos (i : Migrations) (version : Z) : Z :=
  if (0 <? length (index i))%nat then
    let ix := uintSlice_Search (index i) version in
    if (ix <? length (index i))%nat && bool_decide (index i !! ix = Some version)
    then Z.of_nat ix else -1
  else -1.

(** The second result of Go's lookups (ok) is [Some]. *)
Definition First (i : Migrations) : option Z :=
  match index i with [] => None | v :: _ => Some v end.

Definition Prev (i : Migrations) (version : Z) : option Z :=
  let pos := findPos i version in
  if (1 <=? pos) && (pos - 1 <? Z.of_nat (length (index i)))
  then index i !! Z.to_nat (pos - 1) else None.

Definition Next (i : Migrations) (version : Z) : option Z :=
  let pos := findPos i version in
  if (0 <=? pos) && (pos + 1 <? Z.of_nat (length (index i)))
  then index i !! Z.to_nat (pos + 1) else None.

Definition find_dir (i : Migrations) (d : string) (version : Z) : option Migration :=
  match migrations i !! version with
  | Some byDir => byDir !! d
  | None => None
  end.
Definition UpOf (i : Migrations) (version : Z) : option Migration := find_dir i Up version.
Definition DownOf (i : Migrations) (version : Z) : option Migration := find_dir i Down version.

(** ** source/iofs: PartialDriver *)

(** A directory entry: its name, whether it is a directory, and e.Info(). *)
Record DirEntry : Type := MkDirEntry { Name : string; IsDir : bool; Info : option error }.

Definition ErrDuplicateMigration : error := Sentinel "duplicate migration file".

Fixpoint Init_loop (entries : list DirEntry) (ms : Migrations) : gores Migrations :=
  match entries with
  | [] => Ok ms
  | e :: entries' =>
    if IsDir e then Init_loop entries' ms
    else match Parse (Name e) with
         | Err _ => Init_loop entries' ms
         | Ok m =>
           match Info e with
           | Some err => Err err
           | None =>
             let '(ok, ms) := Append ms (Some m) in
             if negb ok then Err ErrDuplicateMigration else Init_loop entries' ms
           end
         end
  end.

(** Init; fs.ReadDir's result is an argument. *)
Definition Init (entries : gores (list DirEntry)) : gores Migrations :=
  match entries with
  | Err err => Err err
  | Ok es => Init_loop es NewMigrations
  end.

(** ** The index is sorted and lists exactly the versions *)

Definition sorted (l : list Z) : Prop := StronglySorted Z.lt l.

Record wf (i : Migrations) : Prop := {
  wf_sorted : sorted (index i);
  wf_dom : forall v, v ∈ index i <-> is_Some (migrations i !! v)
}.

Lemma sorted_le_lt l : StronglySorted Z.le l -> NoDup l -> sorted l.
Proof.
  induction 1 as [|x l Hs IH Hx]; intros Hnd; [constructor|].
  apply NoDup_cons in Hnd as [Hn Hnd]. constructor; [by apply IH|].
  rewrite Forall_forall in *. intros y Hy. specialize (Hx y Hy).
  assert (x <> y) by (intros ->; done). lia.
Qed.

#[export] Instance Zle_total : Total Z.le.
Proof. intros x y. lia. Qed.

Lemma buildIndex_wf i : wf (buildIndex i).
Proof.
  set (l := (map_to_list (migrations i)).*1).
  assert (Hp : merge_sort Z.le l ≡ₚ l) by apply merge_sort_Permutation.
  constructor; simpl; fold l.
  - apply sorted_le_lt.
    + apply StronglySorted_merge_sort; apply _.
    + rewrite Hp. apply NoDup_fst_map_to_list.
  - intros v. rewrite Hp. unfold l. rewrite list_elem_of_fmap. split.
    + intros ([k m] & -> & Hk). apply elem_of_map_to_list in Hk. simpl. eauto.
    + intros [m Hm]. exists (v, m). split; [done|]. by apply elem_of_map_to_list.
Qed.

Lemma NewMigrations_wf : wf NewMigrations.
Proof.
  constructor; simpl; [constructor|]. intros v. rewrite lookup_empty.
  split; [set_solver|by intros [? [=]]].
Qed.

Lemma Append_wf i m : wf i -> wf (Append i m).2.
Proof.
  intros Hi. unfold Append. destruct m as [m|]; [|done].
  destruct (migrations i !! Version m) as [byDir|] eqn:E; simpl.
  - rewrite E. simpl. destruct (byDir !! Dir m); [done|]. apply buildIndex_wf.
  - rewrite lookup_insert_eq. simpl. rewrite lookup_empty. apply buildIndex_wf.
Qed.

Lemma Init_loop_wf es ms ms' : wf ms -> Init_loop es ms = Ok ms' -> wf ms'.
Proof.
  revert ms. induction es as [|e es IH]; simpl; intros ms Hms H; [by simplify_eq|].
  destruct (IsDir e); [by eapply IH|]. destruct (Parse (Name e)) as [m|]; [|by eapply IH].
  destruct (Info e); [done|]. pose proof (Append_wf ms (Some m) Hms) as Ha.
  destruct (Append ms (Some m)) as [[|] ms1]; simpl in *; [|done]. by eapply IH.
Qed.

(** ** The lookups *)

Lemma Search_loop_spec f n fuel i j :
  (forall a b, a <= b -> (b < n)%nat -> f a = true -> f b = true)%nat ->
  (i <= j <= n)%nat -> (j - i <= fuel)%nat ->
  (forall k, k < i -> f k = false)%nat -> (forall k, j <= k < n -> f k = true)%nat ->
  let r := Search_loop fuel f i j in
  (r <= n)%nat /\ (forall k, k < r -> f k = false)%nat /\ (forall k, r <= k < n -> f k = true)%nat.
Proof.
  intros Hmono. revert i j. induction fuel as [|fuel IH]; simpl; intros i j Hij Hf Hlo Hhi.
  { assert (i = j) as <- by lia. repeat split; [lia|done|done]. }
  destruct (Nat.ltb_spec i j) as [Hlt|Hge].
  2:{ assert (i = j) as <- by lia. repeat split; [lia|done|done]. }
  assert (i <= Nat.div2 (i + j) < j)%nat as Hh.
  { pose proof (Nat.div2_odd (i + j)). destruct (Nat.odd (i + j)); simpl in *; lia. }
  set (h := Nat.div2 (i + j)) in *. destruct (f h) eqn:Efh; simpl.
  - apply IH; [lia|lia|done|]. intros k Hk. apply (Hmono h); [lia|lia|done].
  - apply IH; [lia|lia| |done]. intros k Hk. destruct (f k) eqn:Efk; [|done].
    rewrite (Hmono k h) in Efh; [done|lia|lia|done].
Qed.

Section Lookups.
Context (i : Migrations) (Hwf : wf i).

Lemma sorted_lookup_lt l p q x y :
  sorted l -> l !! p = Some x -> l !! q = Some y -> (p < q)%nat -> x < y.
Proof.
  intros Hs. revert p q. induction Hs as [|a l Hs IH Ha]; intros p q Hp Hq Hlt; [done|].
  destruct q as [|q]; [lia|]. destruct p as [|p]; simpl in *.
  - simplify_eq. rewrite Forall_forall in Ha. apply Ha. by eapply list_elem_of_lookup_2.
  - eapply IH; [done..|lia].
Qed.

Lemma sorted_lookup_inj l p q x :
  sorted l -> l !! p = Some x -> l !! q = Some x -> p = q.
Proof.
  intros Hs Hp Hq. destruct (lt_eq_lt_dec p q) as [[H|H]|H]; [|done|];
    [pose proof (sorted_lookup_lt l p q x x Hs Hp Hq H)|pose proof (sorted_lookup_lt l q p x x Hs Hq Hp H)]; lia.
Qed.

(** Binary search finds the position of a version. *)
Lemma findPos_lookup p v : index i !! p = Some v -> findPos i v = Z.of_nat p.
Proof.
  intros Hp. destruct Hwf as [Hs _]. pose proof (lookup_lt_Some _ _ _ Hp) as Hlt.
  unfold findPos, uintSlice_Search, sort_Search.
  destruct (Nat.ltb_spec 0 (length (index i))); [|lia].
  set (f := fun k => v <=? default 0 (index i !! k)).
  assert (Hf : forall k x, index i !! k = Some x -> f k = (v <=? x)) by (intros k x Hk; unfold f; by rewrite Hk).
  destruct (Search_loop_spec f (length (index i)) (length (index i)) 0 (length (index i)))
    as (Hr & Hlo & Hhi); [|lia..|].
  { intros a b Hab Hb Ha. destruct (lookup_lt_is_Some_2 (index i) b Hb) as [y Hy].
    destruct (lookup_lt_is_Some_2 (index i) a ltac:(lia)) as [x Hx].
    rewrite (Hf _ _ Hx) in Ha. rewrite (Hf _ _ Hy). apply Z.leb_le in Ha. apply Z.leb_le.
    destruct (decide (a = b)) as [->|]; [congruence|].
    pose proof (sorted_lookup_lt _ a b x y Hs Hx Hy ltac:(lia)). lia. }
  set (r := Search_loop _ _ _ _) in *.
  assert (r = p) as Hrp.
  { destruct (lt_eq_lt_dec r p) as [[H0|H0]|H0]; [|done|].
    - destruct (lookup_lt_is_Some_2 (index i) r ltac:(lia)) as [x Hx].
      pose proof (Hhi r ltac:(lia)) as Ht. rewrite (Hf _ _ Hx) in Ht. apply Z.leb_le in Ht.
      pose proof (sorted_lookup_lt _ r p x v Hs Hx Hp H0). lia.
    - pose proof (Hlo p H0) as Ht. rewrite (Hf _ _ Hp) in Ht. apply Z.leb_gt in Ht. lia. }
  rewrite Hrp. destruct (Nat.ltb_spec p (length (index i))); [|lia].
  by rewrite bool_decide_eq_true_2.
Qed.

Lemma findPos_absent v : v ∉ index i -> findPos i v = -1.
Proof.
  intros Hv. unfold findPos. destruct (0 <? length (index i))%nat; [|done].
  case_bool_decide as E; [|by rewrite andb_false_r].
  exfalso. apply Hv. by eapply list_elem_of_lookup_2.
Qed.

Lemma Next_lookup p v : index i !! p = Some v -> Next i v = index i !! S p.
Proof.
  intros Hp. unfold Next. rewrite (findPos_lookup p v Hp).
  destruct (Z.leb_spec 0 (Z.of_nat p)); [|lia]. simpl.
  destruct (Z.ltb_spec (Z.of_nat p + 1) (Z.of_nat (length (index i)))).
  - f_equal. lia.
  - symmetry. apply lookup_ge_None. lia.
Qed.

Lemma Next_absent v : v ∉ index i -> Next i v = None.
Proof. intros Hv. unfold Next. by rewrite findPos_absent. Qed.

Lemma Prev_lookup p v :
  index i !! p = Some v -> Prev i v = match p with O => None | S p' => index i !! p' end.
Proof.
  intros Hp. unfold Prev. rewrite (findPos_lookup p v Hp). pose proof (lookup_lt_Some _ _ _ Hp).
  destruct p as [|p']; [done|].
  destruct (Z.leb_spec 1 (Z.of_nat (S p'))); [|lia].
  destruct (Z.ltb_spec (Z.of_nat (S p') - 1) (Z.of_nat (length (index i)))); [|lia].
  simpl andb. cbv iota. f_equal. lia.
Qed.

Lemma Prev_absent v : v ∉ index i -> Prev i v = None.
Proof. intros Hv. unfold Prev. by rewrite findPos_absent. Qed.

Lemma First_lookup : First i = index i !! 0%nat.
Proof. unfold First. by destruct (index i). Qed.
End Lookups.

(** ** What Init collects *)

Lemma Append_find i m ok i' d v :
  Append i (Some m) = (ok, i') ->
  ok = bool_decide (find_dir i (Dir m) (Version m) = None) /\
  (ok = true -> find_dir i' d v = if bool_decide (v = Version m /\ d = Dir m) then Some m
                                  else find_dir i d v).
Proof.
  unfold Append, find_dir. intros H.
  destruct (migrations i !! Version m) as [byDir|] eqn:E; simpl in H.
  - rewrite E in H. simpl in H. destruct (byDir !! Dir m) eqn:Ed; simplify_eq.
    + by rewrite bool_decide_eq_false_2 by congruence.
    + rewrite bool_decide_eq_true_2 by done. split; [done|]. intros _. simpl.
      destruct (decide (v = Version m)) as [->|Hv].
      * rewrite lookup_insert_eq, E. destruct (decide (d = Dir m)) as [->|Hd].
        -- by rewrite lookup_insert_eq, bool_decide_eq_true_2.
        -- rewrite lookup_insert_ne by congruence. by rewrite bool_decide_eq_false_2 by tauto.
      * rewrite lookup_insert_ne by congruence. by rewrite bool_decide_eq_false_2 by tauto.
  - rewrite lookup_insert_eq in H. simpl in H. rewrite lookup_empty in H. simplify_eq.
    split; [done|]. intros _. simpl. rewrite insert_insert_eq.
    destruct (decide (v = Version m)) as [->|Hv].
    * rewrite lookup_insert_eq, E. destruct (decide (d = Dir m)) as [->|Hd].
      -- by rewrite lookup_insert_eq, bool_decide_eq_true_2.
      -- rewrite lookup_insert_ne, lookup_empty by congruence. by rewrite bool_decide_eq_false_2 by tauto.
    * rewrite lookup_insert_ne by congruence. by rewrite bool_decide_eq_false_2 by tauto.
Qed.

(** The migrations named by a list of directory entries. *)
Definition parsed (es : list DirEntry) (m : Migration) : Prop :=
  exists e, e ∈ es /\ IsDir e = false /\ Parse (Name e) = Ok m.

Lemma parsed_cons e es m :
  parsed (e :: es) m <-> (IsDir e = false /\ Parse (Name e) = Ok m) \/ parsed es m.
Proof.
  unfold parsed. split.
  - intros (e' & [->|He]%elem_of_cons & ?); [by left|right; eauto].
  - intros [?|(e' & ? & ?)]; [exists e|exists e']; split; auto; by constructor.
Qed.

Lemma parsed_skip e es m :
  IsDir e = true \/ (forall m', Parse (Name e) <> Ok m') -> parsed (e :: es) m <-> parsed es m.
Proof.
  intros H. rewrite parsed_cons. split; [|by right].
  intros [[Hd Hm]|]; [|done]. destruct H as [H|H]; [congruence|]. by destruct (H m).
Qed.

Lemma Init_loop_find es : forall ms ms' m,
  Init_loop es ms = Ok ms' ->
  (find_dir ms' (Dir m) (Version m) = Some m
   <-> find_dir ms (Dir m) (Version m) = Some m \/ parsed es m).
Proof.
  induction es as [|e es IH]; simpl; intros ms ms' m H.
  { simplify_eq. split; [by left|]. intros [?|(e & He & _)]; [done|]. by apply elem_of_nil in He. }
  destruct (IsDir e) eqn:Ed.
  { rewrite (IH _ _ _ H), parsed_skip by auto. done. }
  destruct (Parse (Name e)) as [m0|err] eqn:Ep.
  2:{ rewrite (IH _ _ _ H), parsed_skip; [done|]. right. congruence. }
  destruct (Info e); [done|]. destruct (Append ms (Some m0)) as [ok ms1] eqn:Ea.
  destruct (Append_find _ _ _ _ (Dir m) (Version m) Ea) as [Hok Hf].
  destruct ok; [|done]. specialize (Hf eq_refl). symmetry in Hok. apply bool_decide_eq_true in Hok.
  rewrite (IH _ _ _ H), Hf, parsed_cons. case_bool_decide as Hd.
  - destruct Hd as [Hv Hdd]. rewrite Hv, Hdd, Hok. split.
    + intros [?|?]; [simplify_eq; right; left; by split|by do 2 right].
    + intros [?|[[_ ?]|?]]; [done|left; congruence|by right].
  - split; [naive_solver|]. intros [?|[[_ ?]|?]]; [by left|destruct Hd; split; congruence|by right].
Qed.

(** A migration is filed under its own version and direction. *)
Definition keyed (ms : Migrations) : Prop :=
  forall d v m, find_dir ms d v = Some m -> Version m = v /\ Dir m = d.

Lemma Init_loop_keyed es : forall ms ms', keyed ms -> Init_loop es ms = Ok ms' -> keyed ms'.
Proof.
  induction es as [|e es IH]; simpl; intros ms ms' Hk H; [by simplify_eq|].
  destruct (IsDir e); [by eapply IH|]. destruct (Parse (Name e)) as [m0|]; [|by eapply IH].
  destruct (Info e); [done|]. destruct (Append ms (Some m0)) as [ok ms1] eqn:Ea.
  destruct ok; [|done]. eapply IH, H. intros d v m Hf.
  destruct (Append_find _ _ _ _ d v Ea) as [_ Hf']. rewrite (Hf' eq_refl) in Hf.
  case_bool_decide as Hd; [|by apply Hk]. destruct Hd. by simplify_eq.
Qed.

Lemma Init_loop_present es : forall ms ms' v,
  Init_loop es ms = Ok ms' ->
  (is_Some (migrations ms' !! v)
   <-> is_Some (migrations ms !! v) \/ exists m, parsed es m /\ Version m = v).
Proof.
  induction es as [|e es IH]; simpl; intros ms ms' v H.
  { simplify_eq. split; [by left|]. intros [?|(m & (e & He & _) & _)]; [done|]. by apply elem_of_nil in He. }
  destruct (IsDir e) eqn:Ed.
  { rewrite (IH _ _ _ H). setoid_rewrite (fun m => parsed_skip e es m (or_introl Ed)). done. }
  destruct (Parse (Name e)) as [m0|err] eqn:Ep.
  2:{ rewrite (IH _ _ _ H). setoid_rewrite parsed_skip; [done|]. right. congruence. }
  destruct (Info e); [done|]. destruct (Append ms (Some m0)) as [ok ms1] eqn:Ea.
  destruct ok; [|done]. rewrite (IH _ _ _ H). setoid_rewrite parsed_cons.
  assert (is_Some (migrations ms1 !! v) <-> is_Some (migrations ms !! v) \/ Version m0 = v) as ->.
  { unfold Append in Ea. destruct (migrations ms !! Version m0) as [bd|] eqn:Ev; simpl in Ea.
    - rewrite Ev in Ea. simpl in Ea. destruct (bd !! Dir m0); simplify_eq. simpl.
      rewrite lookup_insert_is_Some'. tauto.
    - rewrite lookup_insert_eq in Ea. simpl in Ea. rewrite lookup_empty in Ea. simplify_eq. simpl.
      rewrite insert_insert_eq, lookup_insert_is_Some'. tauto. }
  split.
  - intros [[?|?]|(m & ? & ?)]; [by left|right; exists m0; auto|right; exists m; auto].
  - intros [?|(m & [[_ Hm]|?] & ?)]; [auto| |eauto].
    rewrite Ep in Hm. simplify_eq. by left; right.
Qed.

Definition present (es : list DirEntry) (v : Z) : Prop := exists m, parsed es m /\ Version m = v.

(** ** Neighbours in a strictly increasing list *)

Section Neighbours.
Context (l : list Z) (Hs : sorted l).

Lemma sorted_lookup_iff p q x y :
  l !! p = Some x -> l !! q = Some y -> (p < q)%nat <-> x < y.
Proof.
  intros Hp Hq. split; [by eapply sorted_lookup_lt|]. intros Hxy.
  destruct (lt_eq_lt_dec p q) as [[?|Hpq]|Hpq]; [done| |].
  - subst. rewrite Hp in Hq. simplify_eq. lia.
  - pose proof (sorted_lookup_lt _ _ _ _ _ Hs Hq Hp Hpq). lia.
Qed.

Lemma sorted_next p v w :
  l !! p = Some v ->
  l !! S p = Some w <-> w ∈ l /\ v < w /\ forall u, u ∈ l -> v < u -> w <= u.
Proof.
  intros Hp. split.
  - intros Hw. split; [by eapply list_elem_of_lookup_2|].
    split; [apply (sorted_lookup_iff p (S p)); auto|].
    intros u (q & Hq)%list_elem_of_lookup Hu. apply (sorted_lookup_iff p q) in Hu; [|done..].
    destruct (decide (w <= u)) as [|Hn]; [done|].
    assert (u < w) as Huw by lia. apply (sorted_lookup_iff q (S p)) in Huw; [lia|done..].
  - intros ((q & Hq)%list_elem_of_lookup & Hvw & Hmin).
    apply (sorted_lookup_iff p q) in Hvw; [|done..].
    destruct (lookup_lt_is_Some_2 l (S p)) as [x Hx]; [apply lookup_lt_Some in Hq; lia|].
    assert (v < x) by (apply (sorted_lookup_iff p (S p)); auto).
    pose proof (Hmin x ltac:(by eapply list_elem_of_lookup_2) ltac:(done)) as Hwx.
    destruct (decide (q = S p)) as [->|Hne]; [done|].
    assert (x < w) by (apply (sorted_lookup_iff (S p) q); [done..|lia]). lia.
Qed.

Lemma sorted_prev p v w :
  l !! p = Some v ->
  match p with O => None | S p' => l !! p' end = Some w
  <-> w ∈ l /\ w < v /\ forall u, u ∈ l -> u < v -> u <= w.
Proof.
  intros Hp. destruct p as [|p'].
  { split; [done|]. intros ((q & Hq)%list_elem_of_lookup & Hvw & _).
    apply (sorted_lookup_iff q 0) in Hvw; [lia|done..]. }
  split.
  - intros Hw. split; [by eapply list_elem_of_lookup_2|].
    split; [apply (sorted_lookup_iff p' (S p')); auto|].
    intros u (q & Hq)%list_elem_of_lookup Hu. apply (sorted_lookup_iff q (S p')) in Hu; [|done..].
    destruct (decide (u <= w)) as [|Hn]; [done|].
    assert (w < u) as Huw by lia. apply (sorted_lookup_iff p' q) in Huw; [lia|done..].
  - intros ((q & Hq)%list_elem_of_lookup & Hvw & Hmax).
    apply (sorted_lookup_iff q (S p')) in Hvw; [|done..].
    destruct (lookup_lt_is_Some_2 l p') as [x Hx]; [apply lookup_lt_Some in Hp; lia|].
    assert (x < v) by (apply (sorted_lookup_iff p' (S p')); auto).
    pose proof (Hmax x ltac:(by eapply list_elem_of_lookup_2) ltac:(done)) as Hwx.
    destruct (decide (q = p')) as [->|Hne]; [done|].
    assert (w < x) by (apply (sorted_lookup_iff q p'); [done..|lia]). lia.
Qed.

Lemma sorted_head v : l !! 0%nat = Some v <-> v ∈ l /\ forall u, u ∈ l -> v <= u.
Proof.
  split.
  - intros Hv. split; [by eapply list_elem_of_lookup_2|].
    intros u (q & Hq)%list_elem_of_lookup. destruct q; [rewrite Hv in Hq; simplify_eq; lia|].
    enough (v < u) by lia. apply (sorted_lookup_iff 0 (S q)); [done..|lia].
  - intros ((p & Hp)%list_elem_of_lookup & Hmin). destruct p as [|p]; [done|].
    destruct (lookup_lt_is_Some_2 l 0) as [x Hx]; [apply lookup_lt_Some in Hp; lia|].
    pose proof (Hmin x ltac:(by eapply list_elem_of_lookup_2)).
    assert (x < v) by (apply (sorted_lookup_iff 0 (S p)); [done..|lia]). lia.
Qed.
End Neighbours.

Lemma Init_index es ms :
  Init (Ok es) = Ok ms -> wf ms /\ forall v, v ∈ index ms <-> present es v.
Proof.
  intros H. simpl in H. pose proof (Init_loop_wf _ _ _ NewMigrations_wf H) as Hwf.
  split; [done|]. intros v. rewrite (wf_dom _ Hwf), (Init_loop_present _ _ _ v H). simpl.
  rewrite lookup_empty. split; [by intros [[? [=]]|?]|by right].
Qed.

Lemma Init_keyed es ms : Init (Ok es) = Ok ms -> keyed ms.
Proof.
  apply Init_loop_keyed. intros d v m Hf. unfold find_dir in Hf. simpl in Hf. by rewrite lookup_empty in Hf.
Qed.

Lemma Init_find es ms m :
  Init (Ok es) = Ok ms -> find_dir ms (Dir m) (Version m) = Some m <-> parsed es m.
Proof.
  intros H. rewrite (Init_loop_find _ _ _ m H). split; [|by right].
  intros [Hf|?]; [|done]. unfold find_dir in Hf. simpl in Hf. by rewrite lookup_empty in Hf.
Qed.

(** C23. The index Init builds from a directory: it finds exactly the
    migrations the file names stand for, and its binary searches walk the
    versions in numerical order. First is the least version, Next the least
    one above, Prev the greatest one below the version asked for. *)
Theorem source_order es ms :
  Init (Ok es) = Ok ms ->
  (forall m, find_dir ms (Dir m) (Version m) = Some m <-> parsed es m) /\
  (forall v, First ms = Some v <-> present es v /\ forall u, present es u -> v <= u) /\
  (forall v w, present es v ->
     Next ms v = Some w <-> present es w /\ v < w /\ forall u, present es u -> v < u -> w <= u) /\
  (forall v w, present es v ->
     Prev ms v = Some w <-> present es w /\ w < v /\ forall u, present es u -> u < v -> u <= w).
Proof.
  intros H. destruct (Init_index _ _ H) as [Hwf Hin]. pose proof (wf_sorted _ Hwf) as Hs.
  repeat apply conj.
  - intros m. by apply Init_find.
  - intros v. rewrite First_lookup, (sorted_head _ Hs v). by setoid_rewrite Hin.
  - intros v w (p & Hp)%Hin%list_elem_of_lookup.
    rewrite (Next_lookup _ Hwf p v Hp), (sorted_next _ Hs p v w Hp). by setoid_rewrite Hin.
  - intros v w (p & Hp)%Hin%list_elem_of_lookup.
    rewrite (Prev_lookup _ Hwf p v Hp), (sorted_prev _ Hs p v w Hp). by setoid_rewrite Hin.
Qed.

(** ** File names *)

Fixpoint all_chars (P : ascii -> bool) (s : string) : bool :=
  match s with EmptyString => true | String c s' => P c && all_chars P s' end.
Definition no_dot : string -> bool := all_chars (fun c => negb (bool_decide (c = "."%char))).

Lemma strip_prefix_Some p s r : strip_prefix p s = Some r -> s = p +:+ r.
Proof.
  revert s. induction p as [|a p IH]; intros s H; [by destruct s; simplify_eq/=|]. destruct s as [|b s]; [done|]. simpl in H.
  case_bool_decide; [|done]. subst. change (String.append (String b p) r) with (String b (p +:+ r)).
  f_equal. by apply IH.
Qed.

Lemma all_chars_app P s t : all_chars P (s +:+ t) = all_chars P s && all_chars P t.
Proof. induction s as [|c s IH]; [done|]. simpl. by rewrite <- andb_assoc, <- IH. Qed.

Lemma strip_prefix_no_dot p s : no_dot p = false -> no_dot s = true -> strip_prefix p s = None.
Proof.
  intros Hp Hs. destruct (strip_prefix p s) as [r|] eqn:E; [|done].
  apply strip_prefix_Some in E. unfold no_dot in *. subst. rewrite all_chars_app, Hp in Hs. done.
Qed.

Lemma match_name_cons c s :
  c <> newline ->
  match_name (String c s) = match match_name s with
                            | Some (id, d) => Some (String c id, d)
                            | None => (fun d => (EmptyString, d)) <$> match_suffix (String c s)
                            end.
Proof. intros Hc. change (match_name (String c s)) with
  (let here := (fun d => (EmptyString, d)) <$> match_suffix (String c s) in
   if bool_decide (c = newline) then here
   else match match_name s with Some (id, d) => Some (String c id, d) | None => here end).
  by rewrite bool_decide_eq_false_2. Qed.

Lemma match_suffix_dot ext : no_dot ext = true -> match_suffix (String "." ext) = None.
Proof.
  intros He. unfold match_suffix.
  change (strip_prefix ".down." (String "." ext)) with (strip_prefix "down." ext).
  change (strip_prefix ".up." (String "." ext)) with (strip_prefix "up." ext).
  by rewrite !strip_prefix_no_dot.
Qed.

Lemma match_suffix_no_dot s : no_dot s = true -> match_suffix s = None.
Proof. intros Hs. unfold match_suffix. by rewrite !strip_prefix_no_dot. Qed.

Lemma match_name_no_dot s : no_dot s = true -> match_name s = None.
Proof.
  induction s as [|c s IH]; intros Hs; [done|].
  destruct (decide (c = newline)) as [->|Hc].
  { change (match_name (String newline s)) with
      ((fun d => (EmptyString, d)) <$> match_suffix (String newline s)).
    by rewrite match_suffix_no_dot. }
  rewrite match_name_cons, match_suffix_no_dot by done.
  simpl in Hs. apply andb_prop in Hs as [_ Hs]. by rewrite (IH Hs).
Qed.

Lemma match_name_suffix d ext :
  d = Up \/ d = Down -> no_newline ext = true -> no_dot ext = true ->
  match_name ("." +:+ d +:+ "." +:+ ext) = Some (EmptyString, d).
Proof.
  intros Hd Hn He.
  assert (Hext : match_name (String "." ext) = None).
  { by rewrite match_name_cons, match_name_no_dot, match_suffix_dot. }
  destruct Hd as [-> | ->].
  - change ("." +:+ Up +:+ "." +:+ ext) with
      (String "." (String "u" (String "p" (String "." ext)))).
    do 3 rewrite match_name_cons by done. rewrite Hext. unfold match_suffix.
    change (strip_prefix ".up." (String "." (String "u" (String "p" (String "." ext))))) with (Some ext).
    simpl. by rewrite Hn.
  - change ("." +:+ Down +:+ "." +:+ ext) with
      (String "." (String "d" (String "o" (String "w" (String "n" (String "." ext)))))).
    do 5 rewrite match_name_cons by done. rewrite Hext. unfold match_suffix.
    change (strip_prefix ".down." (String "." (String "d" (String "o" (String "w" (String "n" (String "." ext)))))))
      with (Some ext).
    simpl. by rewrite Hn.
Qed.

Lemma match_name_app id s x :
  no_newline id = true -> match_name s = Some (EmptyString, x) ->
  match_name (id +:+ s) = Some (id, x).
Proof.
  intros Hid Hs. induction id as [|c id IH]; [done|]. simpl in *.
  apply andb_prop in Hid as [Hc Hid]. destruct (bool_decide (c = newline)); [done|].
  change (String.append id s) with (id +:+ s). by rewrite (IH Hid).
Qed.

Lemma span_digits_app ds s :
  all_chars is_digit ds = true -> span_digits (ds +:+ String "_" s) = (ds, String "_" s).
Proof.
  induction ds as [|c ds IH]; intros Hd; [done|]. simpl in *. apply andb_prop in Hd as [-> Hd].
  change (String.append ds (String "_" s)) with (ds +:+ String "_" s). by rewrite (IH Hd).
Qed.

(** A migration file name is read back: digits (leading zeros allowed), an
    underscore, any title without a newline, the direction and an extension
    give the migration of that version, title and direction, even when the
    title itself contains ".up." or ".down.". *)
Theorem Parse_file_name ds title d ext :
  ds <> EmptyString -> all_chars is_digit ds = true -> decimal 0 ds < 2 ^ 64 ->
  no_newline title = true -> d = Up \/ d = Down ->
  no_newline ext = true -> no_dot ext = true ->
  let raw := ds +:+ "_" +:+ title +:+ "." +:+ d +:+ "." +:+ ext in
  Parse raw = Ok (MkMigration (decimal 0 ds) title d raw).
Proof.
  intros Hne Hds Hv Ht Hd Hn He raw. unfold Parse, Regex_match, raw.
  change ("_" +:+ title +:+ "." +:+ d +:+ "." +:+ ext)
    with (String "_" (title +:+ "." +:+ d +:+ "." +:+ ext)).
  rewrite (span_digits_app _ _ Hds). destruct ds as [|c ds]; [done|].
  rewrite bool_decide_eq_true_2 by done. rewrite (match_name_app _ _ d Ht (match_name_suffix d ext Hd Hn He)). simpl fmap. cbv iota beta.
  unfold ParseUint64. by rewrite (proj2 (Z.ltb_lt _ _) Hv).
Qed.

(** ** Witnesses *)

Definition demo_entries : list DirEntry :=
  [MkDirEntry "10_drop.up.sql" false None; MkDirEntry "README.md" false None;
   MkDirEntry "2_add.up.sql" false None; MkDirEntry "2_add.down.sql" false None;
   MkDirEntry "1_init.up.sql" false None].
Definition demo_index : Migrations :=
  Eval vm_compute in match Init (Ok demo_entries) with Ok ms => ms | Err _ => NewMigrations end.

Lemma source_order_witness :
  index demo_index = [1; 2; 10] /\
  (forall v, First demo_index = Some v <->
     present demo_entries v /\ forall u, present demo_entries u -> v <= u).
Proof.
  split; [reflexivity|]. apply (source_order demo_entries demo_index). vm_compute. reflexivity.
Defined.

Lemma Parse_file_name_witness :
  Parse "0007_add.up.column.down.sql"
  = Ok (MkMigration 7 "add.up.column" "down" "0007_add.up.column.down.sql").
Proof.
  apply (Parse_file_name "0007" "add.up.column" Down "sql");
    first [done | by right | vm_compute; reflexivity].
Defined.
