(* ===== verification/MigrateEngine.v ===== *)
(** * golang-migrate: the engine

    migrate.go as db/migrate.go drives it: Up, Steps and Force over a source of
    migrations and a database driver, with the locking around them.

    The reader goroutine (readUp, readDown) only talks to the source, and the
    runner (runMigrations) only to the database; nobody sends on GracefulStop,
    since the Migrate value never leaves db/migrate.go, so stop() is always
    false.  The channel between them is therefore modelled by the list of what
    is sent on it.  The reader's loops carry fuel; [None] is a loop that ran
    out of it or the panic of suint on a negative number, and the theorems
    show that neither occurs.

    The lock timeout of 15 seconds is not modelled: the lock is taken by a call
    that returns at once. *)

From stdpp Require Import base option list gmap strings sorting.
From Stdlib Require Import ZArith Lia.
From S2P Require Import Prelude GoErrors MigrateSource.

Open Scope Z_scope.

Definition NilVersion : Z := -1.

Definition ErrNotExist : string := "file does not exist".
Definition ErrNoChange : string := "no change".
Definition ErrInvalidVersion : string := "version must be >= -1".
Definition ErrLocked : string := "database locked".

(** ** The two interfaces *)

(** What io.ReadCloser gives of a migration: the text that arrives through the
    buffering pipe, and the result of Close. *)
Record reader : Type := MkReader { Content : string; CloseErr : option error }.

(** source.Driver, reduced to the methods the engine calls. *)
Record Source : Type := MkSource {
  SFirst : gores Z;
  SNext : Z -> gores Z;
  SPrev : Z -> gores Z;
  ReadUp : Z -> gores (reader * string);
  ReadDown : Z -> gores (reader * string)
}.

(** database.Driver: the methods the engine calls.  Run takes what reading the
    migration gives. *)
Record Driver (W : Type) : Type := MkDriver {
  Lock : io W (option error);
  Unlock : io W (option error);
  Run : gores string -> io W (option error);
  SetVersion : Z -> bool -> io W (option error);
  DVersion : io W (gores (Z * bool))
}.
Arguments Lock {W} d.
Arguments Unlock {W} d.
Arguments Run {W} d m.
Arguments SetVersion {W} d v b.
Arguments DVersion {W} d.

(** source/iofs: PartialDriver over an index and the file system's Open. *)
Definition PathError (op : string) : error := fmt_Errorf_w op (Sentinel ErrNotExist).

Definition ioerr {A} (op : string) (x : option A) : gores A :=
  match x with Some a => Ok a | None => Err (PathError op) end.

Definition iofs_read (open : string -> gores reader) (op : string) (m : option Migration)
  : gores (reader * string) :=
  match m with
  | Some m => match open (Raw m) with
              | Ok body => Ok (body, Identifier m)
              | Err err => Err err
              end
  | None => Err (PathError op)
  end.

Definition iofs (open : string -> gores reader) (ms : Migrations) : Source :=
  MkSource (ioerr "first" (First ms))
           (fun v => ioerr "next for version" (Next ms v))
           (fun v => ioerr "prev for version" (Prev ms v))
           (fun v => iofs_read open "read up for version" (UpOf ms v))
           (fun v => iofs_read open "read down for version" (DownOf ms v)).

(** ** Scheduling migrations *)

(** migrate.Migration: the version it belongs to, the version the database has
    after it, and the text to run, if any. *)
Record migration : Type := MkMigr {
  MVersion : Z;
  TargetVersion : Z;
  Body : option string;
  MIdentifier : string
}.

Definition NewMigration (body : option reader) (identifier : string) (version targetVersion : Z)
  : migration :=
  match body with
  | None => MkMigr version targetVersion None
              (if bool_decide (identifier = EmptyString) then "<empty>" else identifier)
  | Some r => MkMigr version targetVersion (Some (Content r)) identifier
  end.

(** suint panics on a negative number. *)
Definition suint (n : Z) : option Z := if n <? 0 then None else Some n.

Section Reader.
Context (src : Source).

Definition newMigration (version targetVersion : Z) : gores migration :=
  match (if wrap64 version <=? targetVersion then ReadUp src version else ReadDown src version) with
  | Err err =>
    if ctxerrors.Is err ErrNotExist then Ok (NewMigration None EmptyString version targetVersion)
    else Err err
  | Ok (r, identifier) => Ok (NewMigration (Some r) identifier version targetVersion)
  end.

(** versionExists; os.ErrExist never comes from a successful read, so the
    deferred Close is the only thing that can turn success into an error. *)
Definition versionExists (version : Z) : option error :=
  match ReadUp src version with
  | Ok (up, _) => errors_Join [None; CloseErr up]
  | Err err =>
    if ctxerrors.Is err "file already exists" then None
    else if negb (ctxerrors.Is err ErrNotExist) then Some err
    else match ReadDown src version with
         | Ok (down, _) => errors_Join [None; CloseErr down]
         | Err err =>
           if ctxerrors.Is err "file already exists" then None
           else if negb (ctxerrors.Is err ErrNotExist) then Some err
           else Some (fmt_Errorf_w "no migration found for version" err)
         end
  end.

(** What is sent on the channel. *)
Abbreviation item := (error + migration)%type.

Definition schedule (version targetVersion : Z) (rest : option (list item)) : option (list item) :=
  match newMigration version targetVersion with
  | Err err => Some [inl err]
  | Ok migr => (fun l => inr migr :: l) <$> rest
  end.

Fixpoint readUp_loop (fuel : nat) (from limit count : Z) : option (list item) :=
  match fuel with
  | O => None
  | S fuel' =>
    if (count <? limit) || (limit =? -1) then
      if from =? -1 then
        match SFirst src with
        | Err err => Some [inl err]
        | Ok firstVersion =>
          schedule firstVersion (wrap64 firstVersion)
            (readUp_loop fuel' (wrap64 firstVersion) limit (count + 1))
        end
      else
        uv ← suint from;
        match SNext src uv with
        | Err err =>
          if ctxerrors.Is err ErrNotExist then
            if (limit =? -1) && (count =? 0) then Some [inl (Sentinel ErrNoChange)]
            else if limit =? -1 then Some []
            else if (0 <? limit) && (count =? 0) then Some [inl (Sentinel ErrNotExist)]
            else if count <? limit then Some [inl (ErrShortLimit (limit - count))]
            else Some [inl err]
          else Some [inl err]
        | Ok next =>
          schedule next (wrap64 next) (readUp_loop fuel' (wrap64 next) limit (count + 1))
        end
    else Some []
  end.

(** The common start: the current version must exist in the source. *)
Definition checked (from : Z) (k : option (list item)) : option (list item) :=
  if 0 <=? from then
    uv ← suint from;
    match versionExists uv with
    | Some err => Some [inl err]
    | None => k
    end
  else k.

Definition readUp (fuel : nat) (from limit : Z) : option (list item) :=
  checked from (if limit =? 0 then Some [inl (Sentinel ErrNoChange)]
                else readUp_loop fuel from limit 0).

Fixpoint readDown_loop (fuel : nat) (from limit count : Z) : option (list item) :=
  match fuel with
  | O => None
  | S fuel' =>
    if (count <? limit) || (limit =? -1) then
      uv ← suint from;
      match SPrev src uv with
      | Err err =>
        if ctxerrors.Is err ErrNotExist then
          let short (count : Z) : list item :=
            if count <? limit then [inl (ErrShortLimit (limit - count))] else [] in
          if (limit =? -1) || (0 <? limit - count) then
            match SFirst src with
            | Err err => Some [inl err]
            | Ok firstVersion => schedule firstVersion (-1) (Some (short (count + 1)))
            end
          else Some (short count)
        else Some [inl err]
      | Ok prev =>
        schedule uv (wrap64 prev) (readDown_loop fuel' (wrap64 prev) limit (count + 1))
      end
    else Some []
  end.

Definition readDown (fuel : nat) (from limit : Z) : option (list item) :=
  checked from (if limit =? 0 then Some [inl (Sentinel ErrNoChange)]
                else if (from =? -1) && (limit =? -1) then Some [inl (Sentinel ErrNoChange)]
                else if (from =? -1) && (0 <? limit) then Some [inl (Sentinel ErrNotExist)]
                else readDown_loop fuel from limit 0).
End Reader.

(** ** Running them *)

(** The Migrate value: the driver's world and its own isLocked flag. *)
Record Migrate (W : Type) : Type := MkMigrate { world : W; isLocked : bool }.
Arguments MkMigrate {W} world isLocked.
Arguments world {W} m.
Arguments isLocked {W} m.

Section Engine.
Context {W : Type} (src : Source) (drv : Driver W).
Implicit Types (m : Migrate W).

Definition on_world {A} (op : io W A) : io (Migrate W) A :=
  fun m => let '(a, w) := op (world m) in (a, MkMigrate w (isLocked m)).

Fixpoint runMigrations (ret : list (error + migration)) : io W (option error) :=
  match ret with
  | [] => mret None
  | inl err :: _ => mret (Some err)
  | inr migr :: ret' =>
    e ← SetVersion drv (TargetVersion migr) true;
    match e with
    | Some err => mret (Some err)
    | None =>
      e ← match Body migr with
          | Some body => Run drv (Ok body)
          | None => mret None
          end;
      match e with
      | Some err => mret (Some err)
      | None =>
        e ← SetVersion drv (TargetVersion migr) false;
        match e with
        | Some err => mret (Some err)
        | None => runMigrations ret'
        end
      end
    end
  end.

Definition lock : io (Migrate W) (option error) := fun m =>
  if isLocked m then (Some (Sentinel ErrLocked), m)
  else let '(err, w) := Lock drv (world m) in
       match err with
       | None => (None, MkMigrate w true)
       | Some e => (Some e, MkMigrate w false)
       end.

Definition unlock : io (Migrate W) (option error) := fun m =>
  let '(err, w) := Unlock drv (world m) in
  match err with
  | Some e => (Some e, MkMigrate w (isLocked m))
  | None => (None, MkMigrate w false)
  end.

Definition unlockErr (prevErr : option error) : io (Migrate W) (option error) :=
  err ← unlock;
  mret (match err with
        | Some e => errors_Join [prevErr; Some e]
        | None => prevErr
        end).

(** Up and Steps share everything but what is read. *)
Definition withMigrations (read : Z -> option (list (error + migration))) (m : Migrate W)
  : option (option error * Migrate W) :=
  let '(err, m) := lock m in
  match err with
  | Some e => Some (Some e, m)
  | None =>
    let '(r, m) := on_world (DVersion drv) m in
    match r with
    | Err e => Some (unlockErr (Some e) m)
    | Ok (curVersion, dirty) =>
      if (dirty : bool) then Some (unlockErr (Some (ErrDirty curVersion)) m)
      else
        ret ← read curVersion;
        let '(e, m) := on_world (runMigrations ret) m in
        Some (unlockErr e m)
    end
  end.

Definition Up (fuel : nat) : Migrate W -> option (option error * Migrate W) :=
  withMigrations (fun curVersion => readUp src fuel curVersion (-1)).

Definition Steps (fuel : nat) (n : Z) (m : Migrate W) : option (option error * Migrate W) :=
  if n =? 0 then Some (Some (Sentinel ErrNoChange), m)
  else withMigrations (fun curVersion =>
         if 0 <? n then readUp src fuel curVersion n
         else readDown src fuel curVersion (wrap64 (- n))) m.

Definition Force (version : Z) (m : Migrate W) : option error * Migrate W :=
  if version <? -1 then (Some (Sentinel ErrInvalidVersion), m)
  else let '(err, m) := lock m in
       match err with
       | Some e => (Some e, m)
       | None =>
         let '(err, m) := on_world (SetVersion drv version false) m in
         match err with
         | Some e => unlockErr (Some e) m
         | None => unlock m
         end
       end.
End Engine.

(** ** What the engine relies on: the laws of the two interfaces *)

(** Reading a migration that exists gives its text, and the absence of one is
    reported as os.ErrNotExist. *)
Definition reads (r : gores (reader * string)) (text : option string) : Prop :=
  match text with
  | Some body => exists id, r = Ok (MkReader body None, id)
  | None => exists e, r = Err e /\ ctxerrors.Is e ErrNotExist = true
  end.

Definition finds (r : gores Z) (v : option Z) : Prop :=
  match v with
  | Some v => r = Ok v
  | None => exists e, r = Err e /\ ctxerrors.Is e ErrNotExist = true
  end.

(** A source of the versions [vs] with their up and down texts.  The versions
    fit an int: the engine converts them. *)
Class SourceLaws (src : Source) (vs : list Z) (ups downs : Z -> option string) : Prop := {
  src_sorted : sorted vs;
  src_range : Forall (fun v => 0 <= v < 2 ^ 63) vs;
  src_first : finds (SFirst src) (vs !! 0%nat);
  src_next p v : vs !! p = Some v -> finds (SNext src v) (vs !! S p);
  src_prev p v :
    vs !! p = Some v -> finds (SPrev src v) (match p with O => None | S p' => vs !! p' end);
  src_up v : v ∈ vs -> reads (ReadUp src v) (ups v);
  src_down v : v ∈ vs -> reads (ReadDown src v) (downs v);
  src_some v : v ∈ vs -> is_Some (ups v) \/ is_Some (downs v)
}.

(** The errors a driver can report. *)
Definition reports {W} (drv : Driver W) (e : error) : Prop :=
  exists w w', Lock drv w = (Some e, w') \/ Unlock drv w = (Some e, w') \/
    DVersion drv w = (Err e, w') \/ (exists v b, SetVersion drv v b w = (Some e, w')) \/
    (exists text, Run drv (Ok text) w = (Some e, w')).

(** A database driver over a world with user data [D].  [apply] is what running
    a migration's text does to the user data, [None] when the text fails;
    texts of [usertext] keep off the driver's own bookkeeping.
    [healthy] worlds have no faults left: every call there succeeds if it can.
    A failing SetVersion or Run may nevertheless have taken effect, as when the
    answer to a COMMIT is lost. *)
Class DriverLaws {W D : Type} (drv : Driver W) (usertext : string -> Prop)
    (apply : string -> D -> option D) : Type := {
  ready : W -> Prop;
  healthy : W -> Prop;
  locked : W -> bool;
  ver : W -> Z * bool;
  data : W -> D;
  Lock_law w e w' : ready w -> Lock drv w = (e, w') ->
    ready w' /\ (healthy w -> healthy w') /\ ver w' = ver w /\ data w' = data w /\
    match e with
    | None => locked w = false /\ locked w' = true
    | Some _ => locked w' = locked w
    end /\ (healthy w -> locked w = false -> e = None);
  Unlock_law w e w' : ready w -> Unlock drv w = (e, w') ->
    ready w' /\ (healthy w -> healthy w') /\ ver w' = ver w /\ data w' = data w /\
    (locked w = true -> e = None /\ locked w' = false);
  Version_law w r w' : ready w -> DVersion drv w = (r, w') ->
    ready w' /\ (healthy w -> healthy w') /\ ver w' = ver w /\ data w' = data w /\
    locked w' = locked w /\
    match r with Ok x => x = ver w | Err _ => True end /\
    (healthy w -> is_ok r = true);
  SetVersion_law w v dirty e w' : ready w -> -1 <= v -> SetVersion drv v dirty w = (e, w') ->
    ready w' /\ (healthy w -> healthy w') /\ data w' = data w /\ locked w' = locked w /\
    match e with
    | None => ver w' = (v, dirty)
    | Some _ => ver w' = ver w \/ ver w' = (v, dirty)
    end /\ (healthy w -> e = None);
  Run_law w text e w' : ready w -> usertext text -> Run drv (Ok text) w = (e, w') ->
    ready w' /\ (healthy w -> healthy w') /\ ver w' = ver w /\ locked w' = locked w /\
    match e with
    | None => apply text (data w) = Some (data w')
    | Some _ => data w' = data w \/ apply text (data w) = Some (data w')
    end /\ (healthy w -> is_Some (apply text (data w)) -> e = None);
  reports_law e : reports drv e -> ctxerrors.Is e ErrNoChange = false
}.

(** ** Abstract specification: plans *)

(** A step of a plan: the version it leads to and the text it runs. *)
Definition pstep : Type := Z * option string.

Section Plans.
Context {D : Type} (apply : string -> D -> option D).

Definition exec_step (s : pstep) (d : D) : option D :=
  match s.2 with Some text => apply text d | None => Some d end.

Fixpoint exec (plan : list pstep) (d : D) : option D :=
  match plan with
  | [] => Some d
  | s :: plan' => d' ← exec_step s d; exec plan' d'
  end.

Lemma exec_app p1 p2 d : exec (p1 ++ p2) d = d' ← exec p1 d; exec p2 d'.
Proof.
  revert d. induction p1 as [|s p1 IH]; intros d; simpl; [done|].
  destruct (exec_step s d); simpl; [apply IH|done].
Qed.
End Plans.

Definition last_target (v : Z) (plan : list pstep) : Z :=
  match last plan with Some s => s.1 | None => v end.

Lemma last_target_cons v s plan : last_target v (s :: plan) = last_target s.1 plan.
Proof. unfold last_target. destruct plan; [done|]. rewrite !last_cons. by destruct (last plan). Qed.

Definition up_plan (ups : Z -> option string) (vs : list Z) : list pstep := (fun v => (v, ups v)) <$> vs.

(** Reverting [n] migrations, the last one applied being at position [p]. *)
Fixpoint down_plan (downs : Z -> option string) (vs : list Z) (p n : nat) {struct n}
  : list pstep :=
  match n, vs !! p with
  | S n', Some v =>
    match p with
    | O => [(NilVersion, downs v)]
    | S p' => (default NilVersion (vs !! p'), downs v) :: down_plan downs vs p' n'
    end
  | _, _ => []
  end.

(** What the reader sends carries out a plan. *)
Definition carries (m : migration) (s : pstep) : Prop := TargetVersion m = s.1 /\ Body m = s.2.

(** A step with a version the database can record and a text of the user's. *)
Definition okstep (usertext : string -> Prop) (s : pstep) : Prop :=
  -1 <= s.1 /\ match s.2 with Some text => usertext text | None => True end.

(** ** The reader produces the plans *)

Section ReaderProofs.
Context (src : Source) (vs : list Z) (ups downs : Z -> option string).
Context {SL : SourceLaws src vs ups downs}.

Lemma src_in_range p v : vs !! p = Some v -> 0 <= v < 2 ^ 63.
Proof. intros Hp. pose proof src_range as Hr. rewrite Forall_lookup in Hr. eauto. Qed.

Lemma wrap64_version p v : vs !! p = Some v -> wrap64 v = v.
Proof. intros Hp. apply wrap64_id. pose proof (src_in_range p v Hp). unfold int64_range. lia. Qed.

Lemma suint_version p v : vs !! p = Some v -> suint v = Some v.
Proof.
  intros Hp. pose proof (src_in_range p v Hp). unfold suint. by rewrite (proj2 (Z.ltb_ge _ _)) by lia.
Qed.

Lemma schedule_reads version target rest text :
  reads (if wrap64 version <=? target then ReadUp src version else ReadDown src version) text ->
  exists m, carries m (target, text) /\
    schedule src version target rest = (fun l => inr m :: l) <$> rest.
Proof.
  unfold schedule, newMigration. destruct text as [body|]; simpl.
  - intros (id & ->). eexists. split; [|done]. by split.
  - intros (e & -> & ->). eexists. split; [|done]. by split.
Qed.

Lemma schedule_up p v rest :
  vs !! p = Some v ->
  exists m, carries m (v, ups v) /\ schedule src v (wrap64 v) rest = (fun l => inr m :: l) <$> rest.
Proof.
  intros Hp. rewrite (wrap64_version p v Hp). apply schedule_reads.
  rewrite (wrap64_version p v Hp), Z.leb_refl. apply src_up. by eapply list_elem_of_lookup_2.
Qed.

Lemma schedule_down p v target rest :
  vs !! p = Some v -> target < v ->
  exists m, carries m (target, downs v) /\
    schedule src v target rest = (fun l => inr m :: l) <$> rest.
Proof.
  intros Hp Ht. apply schedule_reads. rewrite (wrap64_version p v Hp).
  rewrite (proj2 (Z.leb_gt _ _)) by lia. apply src_down. by eapply list_elem_of_lookup_2.
Qed.

Lemma versionExists_in v : v ∈ vs -> versionExists src v = None.
Proof.
  intros Hv. pose proof (src_up v Hv) as Hu. pose proof (src_down v Hv) as Hd.
  pose proof (src_some v Hv) as Hs. unfold versionExists.
  destruct (ups v) as [body|]; simpl in Hu.
  - destruct Hu as (id & ->). done.
  - destruct Hu as (e & -> & He). rewrite He. simpl.
    destruct (ctxerrors.Is e "file already exists"); [done|].
    destruct (downs v) as [body|]; simpl in Hd.
    + destruct Hd as (id & ->). done.
    + destruct Hs as [[? [=]]|[? [=]]].
Qed.

(** [pos] migrations have been applied and the recorded version is [v]. *)
Definition at_pos (v : Z) (pos : nat) : Prop :=
  match pos with O => v = NilVersion | S p => vs !! p = Some v end.

Lemma at_pos_range v pos : at_pos v pos -> -1 <= v.
Proof. destruct pos; simpl; [intros ->; done|]. intros Hp. pose proof (src_in_range _ _ Hp). lia. Qed.

Lemma checked_at v pos k : at_pos v pos -> checked src v k = k.
Proof.
  unfold checked. destruct pos as [|p]; simpl.
  - intros ->. done.
  - intros Hp. destruct (0 <=? v); [|done]. rewrite (suint_version p v Hp). simpl.
    rewrite versionExists_in; [done|]. by eapply list_elem_of_lookup_2.
Qed.

(** The up reader with no limit, from any point of its loop. *)
Lemma readUp_loop_spec fuel v pos count :
  at_pos v pos -> (length vs - pos < fuel)%nat -> 0 <= count -> (pos = 0%nat -> vs <> []) ->
  exists migs, Forall2 carries migs (up_plan ups (drop pos vs)) /\
    readUp_loop src fuel v (-1) count
    = Some ((inr <$> migs) ++
            (if decide (drop pos vs = [] /\ count = 0) then [inl (Sentinel ErrNoChange)] else [])).
Proof.
  revert v pos count. induction fuel as [|fuel IH]; intros v pos count Hat Hf Hc Hne; [lia|].
  cbn [readUp_loop]. rewrite orb_true_r.
  assert (Hstep : forall w, vs !! pos = Some w ->
    exists migs, Forall2 carries migs (up_plan ups (drop pos vs)) /\
      schedule src w (wrap64 w) (readUp_loop src fuel (wrap64 w) (-1) (count + 1))
      = Some ((inr <$> migs) ++
              (if decide (drop pos vs = [] /\ count = 0) then [inl (Sentinel ErrNoChange)] else []))).
  { intros w Hw. pose proof (lookup_lt_Some _ _ _ Hw).
    destruct (schedule_up pos w (readUp_loop src fuel (wrap64 w) (-1) (count + 1)) Hw) as (mg & Hmg & ->).
    rewrite (wrap64_version pos w Hw).
    destruct (IH w (S pos) (count + 1)) as (migs & Hm & ->); [done|lia|lia|done|].
    rewrite (drop_S _ _ _ Hw). exists (mg :: migs). split; [by constructor|].
    rewrite !decide_False by (intros [? ?]; done || lia). done. }
  destruct pos as [|p]; simpl in Hat.
  - subst v. change (NilVersion =? -1) with true. cbv iota.
    pose proof src_first as Hfst. destruct vs as [|w vs'] eqn:Evs; [by destruct Hne|].
    simpl in Hfst. rewrite Hfst. by apply Hstep.
  - pose proof (src_in_range p v Hat). rewrite (proj2 (Z.eqb_neq v (-1))) by lia.
    rewrite (suint_version p v Hat). simpl mbind. pose proof (src_next p v Hat) as Hn.
    destruct (vs !! S p) as [w|] eqn:Ew; simpl in Hn.
    + rewrite Hn. by apply Hstep.
    + destruct Hn as (e & -> & ->). exists []. apply lookup_ge_None in Ew.
      rewrite (drop_ge vs (S p)) by done. split; [constructor|]. simpl.
      destruct (Z.eqb_spec count 0); [by rewrite decide_True|by rewrite decide_False by tauto].
Qed.

Lemma readUp_spec fuel v pos :
  at_pos v pos -> (S (length vs) <= fuel)%nat -> vs <> [] ->
  exists migs, Forall2 carries migs (up_plan ups (drop pos vs)) /\
    readUp src fuel v (-1)
    = Some ((inr <$> migs) ++
            (if decide (drop pos vs = []) then [inl (Sentinel ErrNoChange)] else [])).
Proof.
  intros Hat Hf Hne. unfold readUp. rewrite (checked_at v pos) by done. simpl.
  destruct (readUp_loop_spec fuel v pos 0) as (migs & Hm & ->); [done|lia|lia|done|].
  exists migs. split; [done|]. do 3 f_equal.
  destruct (decide (drop pos vs = [])); [by rewrite decide_True|by rewrite decide_False by tauto].
Qed.

(** The down reader with a limit: [n] reverts are left to schedule, the next
    one at position [p]. *)
Lemma readDown_loop_spec fuel v p limit (n : nat) :
  vs !! p = Some v -> (p + 1 < fuel)%nat -> (1 <= n)%nat -> Z.of_nat n <= limit ->
  exists migs, Forall2 carries migs (down_plan downs vs p n) /\
    readDown_loop src fuel v limit (limit - Z.of_nat n)
    = Some ((inr <$> migs) ++
            (if decide (n <= S p)%nat then [] else [inl (ErrShortLimit (Z.of_nat n - Z.of_nat (S p)))])).
Proof.
  revert v p n. induction fuel as [|fuel IH]; intros v p n Hp Hf Hn Hl; [lia|].
  cbn [readDown_loop]. rewrite (proj2 (Z.ltb_lt (limit - Z.of_nat n) limit)) by lia. simpl orb. cbv iota.
  rewrite (suint_version p v Hp). simpl mbind. pose proof (src_in_range p v Hp).
  pose proof (src_prev p v Hp) as Hpr. destruct n as [|n]; [lia|]. destruct p as [|p]; simpl in Hpr.
  - destruct Hpr as (e & -> & ->). rewrite (proj2 (Z.ltb_lt 0 _)), orb_true_r by lia.
    pose proof src_first as Hfst. rewrite Hp in Hfst. simpl in Hfst. rewrite Hfst.
    set (short := if _ <? _ then _ else _).
    destruct (schedule_down 0 v (-1) (Some short) Hp ltac:(lia)) as (mg & Hmg & ->).
    exists [mg]. simpl down_plan. rewrite Hp. split; [by apply Forall2_cons; split; [|constructor]|].
    unfold short. simpl. destruct (decide (S n <= 1)%nat).
    + by rewrite (proj2 (Z.ltb_ge _ _)) by lia.
    + rewrite (proj2 (Z.ltb_lt _ _)) by lia. replace (limit - (limit - Z.of_nat (S n) + 1)) with (Z.of_nat (S n) - Z.of_nat 1) by lia. done.
  - destruct (lookup_lt_is_Some_2 vs p) as [u Hu]; [apply lookup_lt_Some in Hp; lia|].
    rewrite Hu in Hpr. simpl in Hpr. rewrite Hpr, (wrap64_version p u Hu).
    assert (u < v) as Huv by (eapply (sorted_lookup_lt vs p (S p)); [apply src_sorted|done..|lia]).
    destruct (schedule_down (S p) v u (readDown_loop src fuel u limit (limit - Z.of_nat (S n) + 1)) Hp Huv)
      as (mg & Hmg & ->).
    cbn [down_plan]. rewrite Hp, Hu. simpl default. destruct n as [|n].
    + exists [mg]. split; [by apply Forall2_cons; split; [|constructor]|]. destruct fuel as [|fuel]; [lia|]. cbn [readDown_loop].
      rewrite (proj2 (Z.ltb_ge _ _)), (proj2 (Z.eqb_neq _ _)) by lia. simpl.
      done.
    + destruct (IH u p (S n) Hu) as (migs & Hm & Hr); [lia..|].
      replace (limit - Z.of_nat (S (S n)) + 1) with (limit - Z.of_nat (S n)) by lia. rewrite Hr.
      exists (mg :: migs). split; [by constructor|]. simpl. do 3 f_equal.
      destruct (decide (S n <= S p)%nat); [by rewrite decide_True by lia|].
      rewrite decide_False by lia. do 3 f_equal. lia.
Qed.

Lemma readDown_spec fuel v p (n : nat) :
  vs !! p = Some v -> (length vs < fuel)%nat -> (1 <= n)%nat ->
  exists migs, Forall2 carries migs (down_plan downs vs p n) /\
    readDown src fuel v (Z.of_nat n)
    = Some ((inr <$> migs) ++
            (if decide (n <= S p)%nat then [] else [inl (ErrShortLimit (Z.of_nat n - Z.of_nat (S p)))])).
Proof.
  intros Hp Hf Hn. unfold readDown. rewrite (checked_at v (S p)) by done.
  pose proof (src_in_range p v Hp). pose proof (lookup_lt_Some _ _ _ Hp).
  rewrite (proj2 (Z.eqb_neq (Z.of_nat n) 0)), (proj2 (Z.eqb_neq v (-1))) by lia. simpl.
  destruct (readDown_loop_spec fuel v p (Z.of_nat n) n Hp) as (migs & Hm & Hr); [lia..|].
  rewrite Z.sub_diag in Hr. eauto.
Qed.
End ReaderProofs.

(** ** The runner carries plans out *)

Section RunnerProofs.
Context {W D : Type} (drv : Driver W) (usertext : string -> Prop).
Context (apply : string -> D -> option D) {DL : DriverLaws drv usertext apply}.
Implicit Types (w : W) (plan : list pstep).

(** Where a run of a plan can leave the database: clean after some of its
    steps, or marked dirty with the version of the step that was being run,
    whose text may or may not have taken effect. *)
Definition outcome (v0 : Z) (d0 : D) plan (e : option error) w : Prop :=
  exists done rest d, plan = done ++ rest /\ exec apply done d0 = Some d /\
    ((ver w = (last_target v0 done, false) /\ data w = d /\ (e = None -> rest = [])) \/
     (exists s rest', rest = s :: rest' /\ ver w = (s.1, true) /\
        (data w = d \/ exec_step apply s d = Some (data w)) /\ e <> None)).

Lemma outcome_stuck v0 d0 plan e w :
  ver w = (v0, false) -> data w = d0 -> (e = None -> plan = []) -> outcome v0 d0 plan e w.
Proof. intros Hv Hd He. exists [], plan, d0. split; [done|]. split; [done|]. left. done. Qed.

Lemma outcome_dirty v0 d0 s plan e w :
  ver w = (s.1, true) -> (data w = d0 \/ exec_step apply s d0 = Some (data w)) -> e <> None ->
  outcome v0 d0 (s :: plan) e w.
Proof. intros Hv Hd He. exists [], (s :: plan), d0. split; [done|]. split; [done|]. right. eauto 10. Qed.

Lemma outcome_step v0 d0 s d1 plan e w :
  exec_step apply s d0 = Some d1 -> outcome s.1 d1 plan e w -> outcome v0 d0 (s :: plan) e w.
Proof.
  intros Hs (dn & rest & d & -> & Hd & H). exists (s :: dn), rest, d.
  split; [done|]. simpl. rewrite Hs. split; [done|]. by rewrite last_target_cons.
Qed.

(** What a runner's item leaves behind, for every fault. *)
Lemma run_item_cases m s w ret e w' :
  carries m s -> okstep usertext s -> ready w -> runMigrations drv (inr m :: ret) w = (e, w') ->
  (exists w1 d1, ready w1 /\ locked w1 = locked w /\ (healthy w -> healthy w1) /\
     ver w1 = (s.1, false) /\ data w1 = d1 /\ exec_step apply s (data w) = Some d1 /\
     runMigrations drv ret w1 = (e, w')) \/
  (ready w' /\ locked w' = locked w /\ (healthy w -> healthy w') /\ e <> None /\
   (healthy w -> exec_step apply s (data w) = None) /\
   ((ver w' = ver w /\ data w' = data w) \/
    (ver w' = (s.1, true) /\ (data w' = data w \/ exec_step apply s (data w) = Some (data w'))) \/
    (ver w' = (s.1, false) /\ exec_step apply s (data w) = Some (data w')))).
Proof.
  intros [Ht Hb] [Hr Hu] Hw H. cbn [runMigrations] in H. unfold mbind, io_bind in H. rewrite Ht, Hb in H.
  destruct (SetVersion drv s.1 true w) as [e1 w1] eqn:E1.
  destruct (SetVersion_law w s.1 true e1 w1 Hw Hr E1) as (R1 & H1 & D1 & L1 & V1 & K1).
  destruct e1 as [e1|].
  { unfold mret, io_ret in H. simplify_eq. right. repeat split; auto.
    - intros Hh. by specialize (K1 Hh).
    - destruct V1; [left|right; left]; auto. }
  set (run := match s.2 with Some body => Run drv (Ok body) | None => mret None end) in H.
  destruct (run w1) as [e2 w2] eqn:E2.
  assert (ready w2 /\ locked w2 = locked w1 /\ (healthy w1 -> healthy w2) /\ ver w2 = ver w1 /\
    match e2 with
    | None => exec_step apply s (data w1) = Some (data w2)
    | Some _ => data w2 = data w1 \/ exec_step apply s (data w1) = Some (data w2)
    end /\ (healthy w1 -> is_Some (exec_step apply s (data w1)) -> e2 = None)) as (R2 & L2 & H2 & V2 & D2 & K2).
  { unfold run, exec_step in *. destruct (s.2) as [text|].
    - destruct (Run_law w1 text e2 w2 R1 Hu E2) as (?&?&?&?&?&?). auto 10.
    - unfold mret, io_ret in E2. simplify_eq. auto 10. }
  destruct e2 as [e2|].
  { unfold mret, io_ret in H. simplify_eq. right. rewrite D1 in *.
    split; [done|]. split; [congruence|]. split; [auto|]. split; [done|]. split.
    - intros Hh. destruct (exec_step apply s (data w)); [|done].
      discriminate (K2 (H1 Hh) (mk_is_Some _ _ eq_refl)).
    - right; left. split; [congruence|]. destruct D2; auto. }
  destruct (SetVersion drv s.1 false w2) as [e3 w3] eqn:E3.
  destruct (SetVersion_law w2 s.1 false e3 w3 R2 Hr E3) as (R3 & H3 & D3 & L3 & V3 & K3).
  rewrite D1 in D2.
  destruct e3 as [e3|].
  { unfold mret, io_ret in H. simplify_eq. right.
    split; [done|]. split; [congruence|]. split; [auto|]. split; [done|]. split.
    - intros Hh. discriminate (K3 (H2 (H1 Hh))).
    - rewrite <- D3 in D2. destruct V3 as [V3|V3]; [right; left; split; [congruence|by right]|by right; right]. }
  left. exists w3, (data w3). rewrite <- D3 in D2. repeat split; auto. congruence.
Qed.

Definition tail_error (tail : list (error + migration)) : option error :=
  match tail with inl err :: _ => Some err | _ => None end.

Definition is_tail (tail : list (error + migration)) : Prop :=
  tail = [] \/ exists err, tail = [inl err].

Lemma runMigrations_tail tail w : is_tail tail -> runMigrations drv tail w = (tail_error tail, w).
Proof. intros [->|[err ->]]; done. Qed.

Lemma runMigrations_safe migs plan tail : forall w e w' v0,
  Forall2 carries migs plan -> Forall (okstep usertext) plan -> is_tail tail ->
  ready w -> ver w = (v0, false) ->
  runMigrations drv ((inr <$> migs) ++ tail) w = (e, w') ->
  ready w' /\ locked w' = locked w /\ outcome v0 (data w) plan e w'.
Proof.
  induction migs as [|m migs IH] in plan |- *; intros w e w' v0 Hm Hp Ht Hw Hv H.
  - apply Forall2_nil_inv_l in Hm as ->. simpl in H. rewrite (runMigrations_tail _ _ Ht) in H. simplify_eq.
    split; [done|]. split; [done|]. by apply outcome_stuck.
  - destruct plan as [|s plan]; [by inversion Hm|]. apply Forall2_cons in Hm as [Hs Hm].
    apply Forall_cons in Hp as [Hr Hp].
    destruct (run_item_cases m s w _ e w' Hs Hr Hw H)
      as [(w1 & d1 & R1 & L1 & _ & V1 & D1 & X1 & H1)|(R1 & L1 & _ & He & _ & Hc)].
    + destruct (IH plan w1 e w' s.1) as (R & L & O); [done..|].
      split; [done|]. split; [congruence|]. eapply outcome_step; [done|]. by rewrite <- D1.
    + split; [done|]. split; [done|]. destruct Hc as [[Hv' Hd]|[[Hv' Hd]|[Hv' Hd]]].
      * apply outcome_stuck; [congruence|done|done].
      * by apply outcome_dirty.
      * eapply outcome_step; [done|]. by apply outcome_stuck.
Qed.

(** Only the reader can say that there is nothing to do. *)
Lemma runMigrations_no_change migs tail : forall w x w',
  is_tail tail -> runMigrations drv ((inr <$> migs) ++ tail) w = (Some x, w') ->
  ctxerrors.Is x ErrNoChange = true -> tail_error tail = Some x.
Proof.
  induction migs as [|m migs IH]; intros w x w' Ht H Hx.
  { simpl in H. rewrite (runMigrations_tail _ _ Ht) in H. by simplify_eq. }
  assert (forall e, reports drv e -> Some e = Some x -> tail_error tail = Some x) as Hrep.
  { intros e He%reports_law [= ->]. congruence. }
  cbn in H. unfold mbind, io_bind, mret, io_ret in H.
  destruct (SetVersion drv (TargetVersion m) true w) as [[e1|] w1] eqn:E1.
  { simplify_eq. eapply Hrep; [|done]. do 2 eexists. eauto 10. }
  destruct (Body m) as [body|].
  - destruct (Run drv (Ok body) w1) as [[e2|] w2] eqn:E2.
    { simplify_eq. eapply Hrep; [|done]. do 2 eexists. eauto 10. }
    destruct (SetVersion drv (TargetVersion m) false w2) as [[e3|] w3] eqn:E3; [|by eapply IH].
    simplify_eq. eapply Hrep; [|done]. do 2 eexists. eauto 10.
  - destruct (SetVersion drv (TargetVersion m) false w1) as [[e3|] w3] eqn:E3; [|by eapply IH].
    simplify_eq. eapply Hrep; [|done]. do 2 eexists. eauto 10.
Qed.

(** With no faults left, a plan whose texts all apply is carried out. *)
Lemma runMigrations_healthy migs plan tail : forall w v0 d,
  Forall2 carries migs plan -> Forall (okstep usertext) plan -> is_tail tail ->
  ready w -> healthy w -> ver w = (v0, false) -> exec apply plan (data w) = Some d ->
  exists w', runMigrations drv ((inr <$> migs) ++ tail) w = (tail_error tail, w') /\
    ready w' /\ healthy w' /\ locked w' = locked w /\
    ver w' = (last_target v0 plan, false) /\ data w' = d.
Proof.
  induction migs as [|m migs IH] in plan |- *; intros w v0 d Hm Hp Ht Hw Hh Hv Hx.
  - apply Forall2_nil_inv_l in Hm as ->. simpl in *. simplify_eq.
    exists w. by rewrite (runMigrations_tail _ _ Ht).
  - destruct plan as [|s plan]; [by inversion Hm|]. apply Forall2_cons in Hm as [Hs Hm].
    apply Forall_cons in Hp as [Hr Hp]. simpl in Hx.
    destruct (runMigrations drv ((inr <$> m :: migs) ++ tail) w) as [e w'] eqn:E.
    destruct (run_item_cases m s w _ e w' Hs Hr Hw E)
      as [(w1 & d1 & R1 & L1 & Hh1 & V1 & D1 & X1 & H1)|(_ & _ & _ & _ & Hno & _)].
    + rewrite X1 in Hx. simpl in Hx. rewrite last_target_cons.
      destruct (IH plan w1 s.1 d) as (w2 & E2 & ? & ? & ? & ? & ?); [auto..|by rewrite D1|].
      assert ((tail_error tail, w2) = (e, w')) as [= <- <-] by (etrans; [symmetry; exact E2|exact H1]). exists w2. repeat split; auto. congruence.
    + by rewrite (Hno Hh) in Hx.
Qed.
End RunnerProofs.

(** ** The locked operations *)

Section EngineProofs.
Context {W D : Type} (drv : Driver W) (usertext : string -> Prop).
Context (apply : string -> D -> option D) {DL : DriverLaws drv usertext apply}.
Implicit Types (m : Migrate W) (plan : list pstep).

(** Nobody holds the lock. *)
Definition free m : Prop :=
  ready (world m) /\ isLocked m = false /\ locked (world m) = false.

(** The database is as before. *)
Definition untouched m m' : Prop :=
  ver (world m') = ver (world m) /\ data (world m') = data (world m) /\
  (healthy (world m) -> healthy (world m')).

Lemma untouched_trans m1 m2 m3 : untouched m1 m2 -> untouched m2 m3 -> untouched m1 m3.
Proof. intros (V1 & D1 & H1) (V2 & D2 & H2). repeat split; [congruence|congruence|auto]. Qed.

Lemma lock_cases m e m1 :
  free m -> lock drv m = (e, m1) ->
  untouched m m1 /\ ready (world m1) /\
  match e with
  | None => isLocked m1 = true /\ locked (world m1) = true
  | Some _ => free m1
  end /\ (healthy (world m) -> e = None).
Proof.
  intros (Hr & Hi & Hl) H. unfold lock in H. rewrite Hi in H.
  destruct (Lock drv (world m)) as [e1 w1] eqn:E.
  destruct (Lock_law _ _ _ Hr E) as (R & Hh & V & Dd & L & K).
  destruct e1 as [e1|]; simplify_eq; (split; [done|]); (split; [done|]); (split; [|by auto]).
  - repeat split; [done|]. simpl. congruence.
  - simpl. by destruct L.
Qed.

Lemma unlockErr_held m e :
  ready (world m) -> locked (world m) = true ->
  exists m', unlockErr drv e m = (e, m') /\ free m' /\ untouched m m'.
Proof.
  intros Hr Hl. unfold unlockErr, unlock, mbind, io_bind.
  destruct (Unlock drv (world m)) as [e1 w1] eqn:E.
  destruct (Unlock_law _ _ _ Hr E) as (R & Hh & V & Dd & K). destruct (K Hl) as [-> L].
  exists (MkMigrate w1 false). by repeat split.
Qed.

Lemma on_world_Version m r m1 :
  ready (world m) -> on_world (DVersion drv) m = (r, m1) ->
  untouched m m1 /\ ready (world m1) /\ isLocked m1 = isLocked m /\
  locked (world m1) = locked (world m) /\
  match r with Ok x => x = ver (world m) | Err _ => True end /\
  (healthy (world m) -> is_ok r = true).
Proof.
  intros Hr H. unfold on_world in H. destruct (DVersion drv (world m)) as [r1 w1] eqn:E.
  destruct (Version_law _ _ _ Hr E) as (R & Hh & V & Dd & L & X & K). simplify_eq. by repeat split.
Qed.

Lemma lock_reports m e m1 :
  free m -> lock drv m = (Some e, m1) -> ctxerrors.Is e ErrNoChange = false.
Proof.
  intros (_ & Hi & _) H. unfold lock in H. rewrite Hi in H. apply reports_law.
  destruct (Lock drv (world m)) as [[e1|] w'] eqn:E; simplify_eq. do 2 eexists. eauto.
Qed.

Lemma version_reports m e m1 :
  on_world (DVersion drv) m = (Err e, m1) -> ctxerrors.Is e ErrNoChange = false.
Proof.
  intros H. unfold on_world in H. apply reports_law.
  destruct (DVersion drv (world m)) as [r w'] eqn:E; simplify_eq. do 2 eexists. eauto.
Qed.

(** Whatever the operation meets, it releases the lock, and it refuses a dirty
    database without touching it. *)
Lemma withMigrations_dirty read m v :
  free m -> ver (world m) = (v, true) ->
  exists e m', withMigrations drv read m = Some (Some e, m') /\ free m' /\ untouched m m' /\
    ctxerrors.Is e ErrNoChange = false /\ (healthy (world m) -> e = ErrDirty v).
Proof.
  intros Hf Hv. unfold withMigrations. destruct (lock drv m) as [e1 m1] eqn:E1.
  destruct (lock_cases _ _ _ Hf E1) as (U1 & R1 & L1 & K1). destruct e1 as [e1|].
  { exists e1, m1. split; [done|]. split; [done|]. split; [done|]. split; [exact (lock_reports _ _ _ Hf E1)|].
    intros Hh. discriminate (K1 Hh). }
  destruct L1 as [I1 L1]. destruct (on_world (DVersion drv) m1) as [r m2] eqn:E2.
  destruct (on_world_Version _ _ _ R1 E2) as (U2 & R2 & I2 & L2 & X2 & K2).
  pose proof (untouched_trans _ _ _ U1 U2) as U12.
  destruct r as [[cur dirty]|e2].
  - assert ((cur, dirty) = (v, true)) as [= -> ->].
    { rewrite X2, <- Hv. apply U1. }
    destruct (unlockErr_held m2 (Some (ErrDirty v)) R2) as (m3 & -> & F3 & U3); [congruence|].
    exists (ErrDirty v), m3. split; [done|]. split; [done|]. split; [exact (untouched_trans _ _ _ U12 U3)|done].
  - destruct (unlockErr_held m2 (Some e2) R2) as (m3 & -> & F3 & U3); [congruence|].
    exists e2, m3. split; [done|]. split; [done|]. split; [exact (untouched_trans _ _ _ U12 U3)|].
    split; [exact (version_reports _ _ _ E2)|].
    intros Hh. destruct U1 as (_ & _ & Hh1). by specialize (K2 (Hh1 Hh)).
Qed.

(** A clean database, any faults: the lock is released and the database is in
    one of the places a run of the plan can leave it. *)
Lemma withMigrations_safe read m v migs plan tail :
  free m -> ver (world m) = (v, false) ->
  read v = Some ((inr <$> migs) ++ tail) ->
  Forall2 carries migs plan -> Forall (okstep usertext) plan -> is_tail tail ->
  exists e m', withMigrations drv read m = Some (e, m') /\ free m' /\
    outcome drv usertext apply v (data (world m)) plan e (world m') /\
    (forall x, e = Some x -> ctxerrors.Is x ErrNoChange = true -> tail_error tail = Some x).
Proof.
  intros Hf Hv Hread Hm Hp Ht. unfold withMigrations. destruct (lock drv m) as [e1 m1] eqn:E1.
  destruct (lock_cases _ _ _ Hf E1) as (U1 & R1 & L1 & K1). destruct e1 as [e1|].
  { exists (Some e1), m1. split; [done|]. split; [done|]. destruct U1 as (V1 & D1 & _).
    split; [apply outcome_stuck; [congruence|done|done]|]. intros x [= <-] Hx.
    by rewrite (lock_reports _ _ _ Hf E1) in Hx. }
  destruct L1 as [I1 L1]. destruct (on_world (DVersion drv) m1) as [r m2] eqn:E2.
  destruct (on_world_Version _ _ _ R1 E2) as (U2 & R2 & I2 & L2 & X2 & K2).
  destruct (untouched_trans _ _ _ U1 U2) as (V12 & D12 & _).
  destruct r as [[cur dirty]|e2].
  - assert ((cur, dirty) = (v, false)) as [= -> ->].
    { rewrite X2, <- Hv. apply U1. }
    rewrite Hread. simpl. unfold on_world.
    destruct (runMigrations drv ((inr <$> migs) ++ tail) (world m2)) as [e3 w3] eqn:E3.
    destruct (runMigrations_safe drv usertext apply migs plan tail (world m2) e3 w3 v) as (R3 & L3 & O3);
      [done|done|done|done|congruence|done|].
    destruct (unlockErr_held (MkMigrate w3 (isLocked m2)) e3 R3) as (m4 & -> & F4 & (V4 & D4 & _));
      [simpl; congruence|]. simpl in *.
    exists e3, m4. split; [done|]. split; [done|]. split.
    + unfold outcome in *. by rewrite V4, D4, <- D12.
    + intros x -> Hx. by eapply runMigrations_no_change.
  - destruct (unlockErr_held m2 (Some e2) R2) as (m3 & -> & F3 & (V3 & D3 & _)); [congruence|].
    exists (Some e2), m3. split; [done|]. split; [done|]. split; [apply outcome_stuck; congruence|].
    intros x [= <-] Hx. by rewrite (version_reports _ _ _ E2) in Hx.
Qed.

(** A clean database without faults: the plan is carried out. *)
Lemma withMigrations_healthy read m v migs plan tail d :
  free m -> healthy (world m) -> ver (world m) = (v, false) ->
  read v = Some ((inr <$> migs) ++ tail) ->
  Forall2 carries migs plan -> Forall (okstep usertext) plan -> is_tail tail ->
  exec apply plan (data (world m)) = Some d ->
  exists m', withMigrations drv read m = Some (tail_error tail, m') /\ free m' /\
    healthy (world m') /\ ver (world m') = (last_target v plan, false) /\ data (world m') = d.
Proof.
  intros Hf Hh Hv Hread Hm Hp Ht Hx. unfold withMigrations. destruct (lock drv m) as [e1 m1] eqn:E1.
  destruct (lock_cases _ _ _ Hf E1) as (U1 & R1 & L1 & K1). rewrite (K1 Hh) in *.
  destruct L1 as [I1 L1]. destruct (on_world (DVersion drv) m1) as [r m2] eqn:E2.
  destruct (on_world_Version _ _ _ R1 E2) as (U2 & R2 & I2 & L2 & X2 & K2).
  destruct (untouched_trans _ _ _ U1 U2) as (V12 & D12 & H12).
  destruct U1 as (V1 & D1 & H1). destruct r as [[cur dirty]|e2]; [|by specialize (K2 (H1 Hh))].
  assert ((cur, dirty) = (v, false)) as [= -> ->] by congruence.
  rewrite Hread. simpl. unfold on_world.
  destruct (runMigrations_healthy drv usertext apply migs plan tail (world m2) v d) as (w3 & -> & R3 & Hh3 & L3 & V3 & D3);
    [done|done|done|done|auto|congruence|by rewrite D12|].
  destruct (unlockErr_held (MkMigrate w3 (isLocked m2)) (tail_error tail) R3) as (m4 & -> & F4 & (V4 & D4 & H4));
    [simpl; congruence|]. simpl in *.
  exists m4. repeat split; try apply F4; [auto|congruence|congruence].
Qed.

(** Force: the version is recorded as clean, the data is not touched, the lock
    is released; a failure may leave either version. *)
Lemma Force_cases m v :
  free m -> -1 <= v ->
  exists e m', Force drv v m = (e, m') /\ free m' /\ data (world m') = data (world m) /\
    match e with
    | None => ver (world m') = (v, false)
    | Some _ => ver (world m') = ver (world m) \/ ver (world m') = (v, false)
    end /\ (healthy (world m) -> e = None /\ healthy (world m')).
Proof.
  intros Hf Hv. unfold Force. rewrite (proj2 (Z.ltb_ge v (-1))) by lia.
  destruct (lock drv m) as [e1 m1] eqn:E1.
  destruct (lock_cases _ _ _ Hf E1) as ((V1 & D1 & H1) & R1 & L1 & K1). destruct e1 as [e1|].
  { exists (Some e1), m1. split; [done|]. split; [done|]. split; [done|]. split; [by left|].
    intros Hh. discriminate (K1 Hh). }
  destruct L1 as [I1 L1]. unfold on_world. destruct (SetVersion drv v false (world m1)) as [e2 w2] eqn:E2.
  destruct (SetVersion_law _ _ _ _ _ R1 Hv E2) as (R2 & H2 & D2 & L2 & V2 & K2).
  destruct e2 as [e2|].
  - destruct (unlockErr_held (MkMigrate w2 (isLocked m1)) (Some e2) R2) as (m3 & -> & F3 & (V3 & D3 & _));
      [simpl; congruence|]. simpl in *.
    exists (Some e2), m3. split; [done|]. split; [done|]. split; [congruence|].
    split; [rewrite V3, <- V1; exact V2|]. intros Hh. discriminate (K2 (H1 Hh)).
  - unfold unlock. simpl. destruct (Unlock drv w2) as [e3 w3] eqn:E3.
    destruct (Unlock_law _ _ _ R2 E3) as (R3 & H3 & V3 & D3 & K3).
    destruct K3 as [-> L3]; [congruence|]. exists None, (MkMigrate w3 false).
    split; [done|]. split; [done|]. simpl. split; [congruence|]. split; [congruence|]. auto.
Qed.
End EngineProofs.

(** ** source/iofs keeps the source's laws *)

Lemma decimal_nonneg s acc : all_chars is_digit s = true -> 0 <= acc -> 0 <= decimal acc s.
Proof.
  revert acc. induction s as [|c s IH]; simpl; intros acc Hs Hacc; [done|].
  apply andb_prop in Hs as [Hc Hs]. apply IH; [done|]. unfold is_digit, digit_value in *.
  apply andb_prop in Hc as [Hc _]. apply Z.leb_le in Hc. lia.
Qed.

Lemma span_digits_digits s : all_chars is_digit (span_digits s).1 = true.
Proof.
  induction s as [|c s IH]; simpl; [done|]. destruct (is_digit c) eqn:E; [|done].
  destruct (span_digits s). simpl in *. by rewrite E.
Qed.

Lemma match_suffix_dir s d : match_suffix s = Some d -> d = MigrateSource.Up \/ d = MigrateSource.Down.
Proof. unfold match_suffix. repeat case_match; intros; simplify_eq; auto. Qed.

Lemma match_name_dir s id d : match_name s = Some (id, d) -> d = MigrateSource.Up \/ d = MigrateSource.Down.
Proof.
  revert id. induction s as [|c s IH]; intros id H.
  - done.
  - cbn [match_name] in H.
    assert (Hh : ((fun d => (EmptyString, d)) <$> match_suffix (String c s)) = Some (id, d) ->
                 d = MigrateSource.Up \/ d = MigrateSource.Down).
    { intros Hx. destruct (match_suffix (String c s)) eqn:E; [|done]. simpl in Hx. simplify_eq.
      by eapply match_suffix_dir. }
    destruct (bool_decide (c = newline)); [by apply Hh|].
    destruct (match_name s) as [[id' d']|]; [|by apply Hh]. simplify_eq. by eapply IH.
Qed.

Lemma Parse_Ok raw m :
  Parse raw = Ok m -> 0 <= MigrateSource.Version m /\ (Dir m = MigrateSource.Up \/ Dir m = MigrateSource.Down).
Proof.
  unfold Parse, Regex_match. pose proof (span_digits_digits raw) as Hd.
  destruct (span_digits raw) as [ds rest]. simpl in Hd. intros H.
  destruct ds as [|c ds]; [done|]. destruct rest as [|c' rest]; [done|].
  destruct (bool_decide _); [|done].
  destruct (match_name rest) as [[id d]|] eqn:Hn; [|done]. simpl in H.
  unfold ParseUint64 in H. destruct (decimal 0 (String c ds) <? 2 ^ 64); [|done]. simplify_eq. simpl.
  split; [|by eapply match_name_dir].
  simpl in Hd. apply andb_prop in Hd as [Hc Hd]. apply decimal_nonneg; [done|].
  unfold is_digit, digit_value in *. apply andb_prop in Hc as [Hc _]. apply Z.leb_le in Hc. lia.
Qed.

Definition texts (text : string -> string) (m : option Migration) : option string :=
  (fun m => text (Raw m)) <$> m.

Lemma ioerr_finds op v : finds (ioerr op v) v.
Proof. destruct v; simpl; [done|]. eexists. split; [done|]. reflexivity. Qed.

Lemma iofs_read_reads open text op m :
  (forall m', m = Some m' -> open (Raw m') = Ok (MkReader (text (Raw m')) None)) ->
  reads (iofs_read open op m) (texts text m).
Proof.
  intros Ho. destruct m as [m'|]; simpl.
  - rewrite (Ho m' eq_refl). eauto.
  - eexists. split; [done|]. reflexivity.
Qed.

(** An embedded directory whose migration files can be read, with versions
    that fit an int, is a lawful source. *)
Lemma iofs_laws es ms open text :
  Init (Ok es) = Ok ms ->
  (forall m, parsed es m -> MigrateSource.Version m < 2 ^ 63) ->
  (forall m, parsed es m -> open (Raw m) = Ok (MkReader (text (Raw m)) None)) ->
  SourceLaws (iofs open ms) (index ms)
    (fun v => texts text (UpOf ms v)) (fun v => texts text (DownOf ms v)).
Proof.
  intros Hi Hv Ho. destruct (Init_index _ _ Hi) as [Hwf Hin].
  assert (Hread : forall op d v, reads (iofs_read open op (find_dir ms d v)) (texts text (find_dir ms d v))).
  { intros op d v. apply iofs_read_reads. intros m Hf.
    destruct (Init_keyed _ _ Hi _ _ _ Hf) as [<- <-]. by apply Ho, (Init_find _ _ _ Hi). }
  constructor.
  - apply Hwf.
  - apply Forall_forall. intros v (m & Hm & <-)%Hin. split; [|by apply Hv].
    destruct Hm as (e & _ & _ & He). by apply (Parse_Ok _ _ He).
  - rewrite <- First_lookup. apply ioerr_finds.
  - intros p v Hp. rewrite <- (Next_lookup _ Hwf p v Hp). apply ioerr_finds.
  - intros p v Hp. rewrite <- (Prev_lookup _ Hwf p v Hp). apply ioerr_finds.
  - intros v _. apply Hread.
  - intros v _. apply Hread.
  - intros v (m & Hm & <-)%Hin. pose proof (proj2 (Init_find _ _ m Hi) Hm) as Hf.
    destruct Hm as (e & _ & _ & [_ Hd]%Parse_Ok). unfold UpOf, DownOf.
    destruct Hd as [Hd|Hd]; rewrite Hd in Hf; rewrite Hf; simpl; eauto.
Qed.

(** ** The engine touches the world only through its driver *)

(** Every call of the driver moves the world along [R]. *)
Class Within {W : Type} (drv : Driver W) (R : W -> W -> Prop) : Prop := {
  Lock_within w : R w (Lock drv w).2;
  Unlock_within w : R w (Unlock drv w).2;
  Run_within t w : R w (Run drv t w).2;
  SetVersion_within v dirty w : R w (SetVersion drv v dirty w).2;
  DVersion_within w : R w (DVersion drv w).2
}.

Section Within.
Context {W : Type} (src : Source) (drv : Driver W) (R : W -> W -> Prop).
Context {PO : PreOrder R} {WI : Within drv R}.
Implicit Types (m : Migrate W).

Lemma bind_within {A B} (op : io W A) (f : A -> io W B) w :
  R w (op w).2 -> (forall a w, R w (f a w).2) -> R w ((op ≫= f) w).2.
Proof.
  intros H Hf. unfold mbind, io_bind. destruct (op w) as [a w'].
  etransitivity; [exact H|apply Hf].
Qed.

Lemma runMigrations_within ret w : R w (runMigrations drv ret w).2.
Proof.
  revert w. induction ret as [|[err|migr] ret IH]; intros w; simpl; try reflexivity.
  apply bind_within; [apply SetVersion_within|]. clear w. intros [e|] w; [reflexivity|].
  apply bind_within.
  { destruct (Body migr); [apply Run_within|reflexivity]. }
  clear w. intros [e|] w; [reflexivity|].
  apply bind_within; [apply SetVersion_within|]. clear w. intros [e|] w; [reflexivity|apply IH].
Qed.

Lemma lock_within m : R (world m) (world (lock drv m).2).
Proof.
  unfold lock. destruct (isLocked m); [reflexivity|].
  pose proof (Lock_within (world m)) as H. by destruct (Lock drv (world m)) as [[e|] w].
Qed.

Lemma unlock_within m : R (world m) (world (unlock drv m).2).
Proof.
  unfold unlock. pose proof (Unlock_within (world m)) as H.
  by destruct (Unlock drv (world m)) as [[e|] w].
Qed.

Lemma unlockErr_within e m : R (world m) (world (unlockErr drv e m).2).
Proof.
  unfold unlockErr, mbind, io_bind. pose proof (unlock_within m) as H.
  by destruct (unlock drv m) as [e' m'].
Qed.

Lemma on_world_within {A} (op : io W A) m :
  R (world m) (op (world m)).2 -> R (world m) (world (on_world op m).2).
Proof. unfold on_world. by destruct (op (world m)). Qed.

Lemma withMigrations_within read m e m' :
  withMigrations drv read m = Some (e, m') -> R (world m) (world m').
Proof.
  unfold withMigrations. pose proof (lock_within m) as H1.
  destruct (lock drv m) as [[err|] m1]; [by intros [= <- <-]|].
  pose proof (on_world_within (DVersion drv) m1 ltac:(apply DVersion_within)) as H2.
  destruct (on_world (DVersion drv) m1) as [[[cur []]|err] m2].
  - intros [= H]. pose proof (unlockErr_within (Some (ErrDirty cur)) m2) as H3. rewrite H in H3.
    etransitivity; [exact H1|]. by etransitivity.
  - destruct (read cur) as [ret|]; [|done]. simpl.
    pose proof (on_world_within (runMigrations drv ret) m2 ltac:(apply runMigrations_within)) as H3.
    destruct (on_world (runMigrations drv ret) m2) as [e' m3]. intros [= H].
    pose proof (unlockErr_within e' m3) as H4. rewrite H in H4.
    etransitivity; [exact H1|]. etransitivity; [exact H2|]. by etransitivity.
  - intros [= H]. pose proof (unlockErr_within (Some err) m2) as H3. rewrite H in H3.
    etransitivity; [exact H1|]. by etransitivity.
Qed.

Lemma Up_within fuel m e m' : Up src drv fuel m = Some (e, m') -> R (world m) (world m').
Proof. apply withMigrations_within. Qed.

Lemma Steps_within fuel n m e m' : Steps src drv fuel n m = Some (e, m') -> R (world m) (world m').
Proof. unfold Steps. case_match; [by intros [= <- <-]|]. apply withMigrations_within. Qed.

Lemma Force_within version m : R (world m) (world (Force drv version m).2).
Proof.
  unfold Force. case_match; [reflexivity|]. pose proof (lock_within m) as H1.
  destruct (lock drv m) as [[err|] m1]; [done|].
  pose proof (on_world_within (SetVersion drv version false) m1 ltac:(apply SetVersion_within)) as H2.
  destruct (on_world (SetVersion drv version false) m1) as [[err|] m2].
  - etransitivity; [exact H1|]. etransitivity; [exact H2|apply unlockErr_within].
  - etransitivity; [exact H1|]. etransitivity; [exact H2|apply unlock_within].
Qed.
End Within.
