(* ===== verification/SqliteDriver.v ===== *)
(** * db/sqlite/driver.go: the SQLite migration driver

    The driver adapts a caller-owned *sql.DB for golang-migrate.  database/sql
    and SQLite are not part of the repository: their calls are the fields of
    [SqlDB], over a world [W], and what the driver relies on are the laws
    [SqlDBLaws].  Every call may fail; a transaction whose Commit fails may
    have been committed all the same.  [MemDB] below is a database with an
    arbitrary fault schedule that keeps the laws. *)

From stdpp Require Import base option list strings.
From Stdlib Require Import ZArith Lia Ascii.
From S2P Require Import Prelude GoErrors MigrateEngine.

Open Scope Z_scope.

Definition createMigrationTableStatement : string :=
"
CREATE TABLE IF NOT EXISTS schema_migrations (version uint64, dirty bool);
CREATE UNIQUE INDEX IF NOT EXISTS version_unique ON schema_migrations (version);
".
Definition deleteMigrationVersionStatement : string := "DELETE FROM schema_migrations".
Definition selectMigrationVersionStatement : string :=
  "SELECT version, dirty FROM schema_migrations LIMIT 1".
Definition insertMigrationVersionStatement : string :=
"
INSERT INTO schema_migrations (version, dirty)
VALUES (?, ?)".

Definition ErrNoRows : string := "sql: no rows in result set".
Definition database_ErrLocked : string := "can't acquire lock".
Definition ErrNotLocked : string := "can't unlock, as not currently locked".
Definition ErrUnsupported : string := "unsupported".

(** ** database/sql *)

(** An argument of a statement. *)
Inductive sqlarg : Type := IntArg (z : Z) | BoolArg (b : bool).

(** The calls the driver makes.  [QueryRow] is QueryRowContext(...).Scan into
    an int and a bool. *)
Record SqlDB (W Tx : Type) : Type := MkSqlDB {
  PingContext : io W (option error);
  ExecContext : string -> io W (option error);
  QueryRow : string -> io W (gores (Z * bool));
  BeginTx : io W (gores Tx);
  TxExec : Tx -> string -> list sqlarg -> io W (option error);
  Rollback : Tx -> io W (option error);
  Commit : Tx -> io W (option error)
}.
Arguments PingContext {W Tx} s.
Arguments ExecContext {W Tx} s q.
Arguments QueryRow {W Tx} s q.
Arguments BeginTx {W Tx} s.
Arguments TxExec {W Tx} s tx q args.
Arguments Rollback {W Tx} s tx.
Arguments Commit {W Tx} s tx.

(** ** The driver *)

(** The driver's state: the database and the atomic flag. *)
Record driver (W : Type) : Type := MkDrv { sqlDB : W; flag : bool }.
Arguments MkDrv {W} sqlDB flag.
Arguments sqlDB {W} d.
Arguments flag {W} d.

Section Driver.
Context {W Tx : Type} (db : SqlDB W Tx).

Definition on_db {A} (op : io W A) : io (driver W) A :=
  fun d => let '(a, w) := op (sqlDB d) in (a, MkDrv w (flag d)).

(** atomic.Bool.CompareAndSwap *)
Definition CompareAndSwap (old new : bool) : io (driver W) bool :=
  fun d => if bool_decide (flag d = old) then (true, MkDrv (sqlDB d) new) else (false, d).

Definition sqlite_Lock : io (driver W) (option error) :=
  ok ← CompareAndSwap false true;
  mret (if (ok : bool) then None else Some (Sentinel database_ErrLocked)).

Definition sqlite_Unlock : io (driver W) (option error) :=
  ok ← CompareAndSwap true false;
  mret (if (ok : bool) then None else Some (Sentinel ErrNotLocked)).

Definition rollbackWithError (transaction : Tx) (originalErr : error) (query : string)
  : io W (option error) :=
  err ← Rollback db transaction;
  mret (Some (DatabaseError (match err with
                             | Some e => JoinError [originalErr; e]
                             | None => originalErr
                             end) EmptyString query)).

Definition execute (query : string) : io W (option error) :=
  tx ← BeginTx db;
  match tx with
  | Err err => mret (Some (DatabaseError err "start migration transaction" EmptyString))
  | Ok transaction =>
    err ← TxExec db transaction query [];
    match err with
    | Some e => rollbackWithError transaction e query
    | None =>
      err ← Commit db transaction;
      match err with
      | Some e => mret (Some (DatabaseError e "commit migration transaction" EmptyString))
      | None => mret None
      end
    end
  end.

(** Run; the argument is what io.ReadAll gives on the migration. *)
Definition sqlite_Run (contents : gores string) : io (driver W) (option error) :=
  match contents with
  | Err err => mret (Some (ctxerrors.WrapE err "read migration"))
  | Ok query => on_db (execute query)
  end.

Definition setVersion (version : Z) (dirty : bool) : io W (option error) :=
  tx ← BeginTx db;
  match tx with
  | Err err => mret (Some (DatabaseError err "start migration version transaction" EmptyString))
  | Ok transaction =>
    err ← TxExec db transaction deleteMigrationVersionStatement [];
    match err with
    | Some e => rollbackWithError transaction e deleteMigrationVersionStatement
    | None =>
      err ← (if (0 <=? version) || ((version =? NilVersion) && dirty)
             then TxExec db transaction insertMigrationVersionStatement [IntArg version; BoolArg dirty]
             else mret None);
      match err with
      | Some e => rollbackWithError transaction e insertMigrationVersionStatement
      | None =>
        err ← Commit db transaction;
        match err with
        | Some e => mret (Some (DatabaseError e "commit migration version transaction" EmptyString))
        | None => mret None
        end
      end
    end
  end.

Definition sqlite_SetVersion (version : Z) (dirty : bool) : io (driver W) (option error) :=
  on_db (setVersion version dirty).

Definition version_ : io W (gores (Z * bool)) :=
  r ← QueryRow db selectMigrationVersionStatement;
  mret (match r with
        | Ok x => Ok x
        | Err err => if ctxerrors.Is err ErrNoRows then Ok (NilVersion, false)
                     else Err (DatabaseError err EmptyString selectMigrationVersionStatement)
        end).

Definition sqlite_Version : io (driver W) (gores (Z * bool)) := on_db version_.

(** Open and Drop are refused, Close does nothing. *)
Definition sqlite_Open : gores unit :=
  Err (ctxerrors.WrapE (Sentinel ErrUnsupported) "open SQLite migration database").
Definition sqlite_Drop : option error :=
  ctxerrors.Wrap (Some (Sentinel ErrUnsupported)) "drop SQLite database".
Definition sqlite_Close : option error := None.

Definition ensureMigrationTable : io (driver W) (option error) :=
  err ← sqlite_Lock;
  match err with
  | Some e => mret (ctxerrors.Wrap (Some e) "lock migration driver")
  | None =>
    executionErr ← on_db (ExecContext db createMigrationTableStatement);
    unlockErr ← sqlite_Unlock;
    mret (match executionErr with
          | Some e =>
            Some (DatabaseError (match unlockErr with
                                 | Some u => JoinError [e; u]
                                 | None => e
                                 end) EmptyString createMigrationTableStatement)
          | None =>
            match unlockErr with
            | Some u => ctxerrors.Wrap (Some u) "unlock migration driver"
            | None => None
            end
          end)
  end.

(** newDriver over the caller's database. *)
Definition newDriver (w : W) : gores unit * driver W :=
  let '(err, d) := ensureMigrationTable (MkDrv w false) in
  match err with
  | Some e => (Err (ctxerrors.WrapE e "ensure migration table"), d)
  | None => (Ok tt, d)
  end.

(** The driver as golang-migrate sees it. *)
Definition sqlite_driver : Driver (driver W) :=
  MkDriver _ sqlite_Lock sqlite_Unlock sqlite_Run sqlite_SetVersion sqlite_Version.
End Driver.

(** ** What the driver relies on *)

(** A SQLite database: the rows of schema_migrations, if the table exists, and
    everything else. *)
Record dbstate (D : Type) : Type := MkDB { vtable : option (list (Z * bool)); udata : D }.
Arguments MkDB {D} vtable udata.
Arguments vtable {D} d.
Arguments udata {D} d.

Section Laws.
Context {W Tx D : Type}.

(** [sql_exec] is the effect of a statement on a database, [None] an SQL
    error.  The driver's own statements do what they say; a [usertext] works on
    the user's tables and leaves schema_migrations alone. *)
Class SqlSemantics (sql_exec : string -> list sqlarg -> dbstate D -> option (dbstate D))
    (usertext : string -> Prop) (apply : string -> D -> option D) : Prop := {
  exec_create st :
    sql_exec createMigrationTableStatement [] st = Some (MkDB (Some (default [] (vtable st))) (udata st));
  exec_delete rows d :
    sql_exec deleteMigrationVersionStatement [] (MkDB (Some rows) d) = Some (MkDB (Some []) d);
  exec_insert v b d :
    sql_exec insertMigrationVersionStatement [IntArg v; BoolArg b] (MkDB (Some []) d)
    = Some (MkDB (Some [(v, b)]) d);
  exec_text text rows d : usertext text ->
    sql_exec text [] (MkDB (Some rows) d) = MkDB (Some rows) <$> apply text d
}.

(** database/sql over SQLite.  [committed] is the database other connections
    see, [pending] the one inside a transaction. *)
Class SqlDBLaws (db : SqlDB W Tx)
    (sql_exec : string -> list sqlarg -> dbstate D -> option (dbstate D)) : Type := {
  committed : W -> dbstate D;
  pending : Tx -> W -> dbstate D;
  sound : W -> Prop;
  Ping_law w e w' : PingContext db w = (e, w') ->
    committed w' = committed w /\ (sound w -> sound w' /\ e = None);
  Exec_law q w e w' : ExecContext db q w = (e, w') ->
    match e with
    | None => sql_exec q [] (committed w) = Some (committed w')
    | Some _ => committed w' = committed w \/ sql_exec q [] (committed w) = Some (committed w')
    end /\ (sound w -> sound w' /\ (is_Some (sql_exec q [] (committed w)) -> e = None));
  Query_law w r w' : QueryRow db selectMigrationVersionStatement w = (r, w') ->
    committed w' = committed w /\ (sound w -> sound w') /\
    match r with
    | Ok x => exists rows, vtable (committed w) = Some rows /\ x ∈ rows
    | Err e => ctxerrors.Is e ErrNoRows = true -> vtable (committed w) = Some []
    end /\
    (sound w -> forall rows, vtable (committed w) = Some rows ->
       match r with Ok _ => True | Err e => ctxerrors.Is e ErrNoRows = true end);
  Begin_law w r w' : BeginTx db w = (r, w') ->
    committed w' = committed w /\
    match r with Ok tx => pending tx w' = committed w | Err _ => True end /\
    (sound w -> sound w' /\ is_ok r = true);
  TxExec_law tx q args w e w' : TxExec db tx q args w = (e, w') ->
    committed w' = committed w /\
    (e = None -> sql_exec q args (pending tx w) = Some (pending tx w')) /\
    (sound w -> sound w' /\ (is_Some (sql_exec q args (pending tx w)) -> e = None));
  Rollback_law tx w e w' : Rollback db tx w = (e, w') ->
    committed w' = committed w /\ (sound w -> sound w');
  Commit_law tx w e w' : Commit db tx w = (e, w') ->
    match e with
    | None => committed w' = pending tx w
    | Some _ => committed w' = committed w \/ committed w' = pending tx w
    end /\ (sound w -> sound w' /\ e = None)
}.
End Laws.

(** ** Transactions are atomic *)

Section DriverProofs.
Context {W Tx D : Type} (db : SqlDB W Tx).
Context (sql_exec : string -> list sqlarg -> dbstate D -> option (dbstate D)).
Context (usertext : string -> Prop) (apply : string -> D -> option D).
Context {SS : SqlSemantics sql_exec usertext apply} {SL : SqlDBLaws db sql_exec}.
Implicit Types (w : W).

(** A statement run in a transaction of its own: what committed becomes. *)
Definition atomically (new : option (dbstate D)) w (e : option error) w' : Prop :=
  match e with
  | None => new = Some (committed w')
  | Some _ => committed w' = committed w \/ new = Some (committed w')
  end /\ (sound w -> sound w' /\ (is_Some new -> e = None)).

Lemma rollback_atomically new tx oe q w0 w e w' :
  committed w = committed w0 -> (sound w0 -> sound w) -> (sound w0 -> new = None) ->
  rollbackWithError db tx oe q w = (e, w') -> atomically new w0 e w'.
Proof.
  intros Hc Hs Hn H. unfold rollbackWithError, mbind, io_bind in H.
  destruct (Rollback db tx w) as [e1 w1] eqn:E. destruct (Rollback_law _ _ _ _ E) as [Hc1 Hs1].
  unfold mret, io_ret in H. simplify_eq. split; [left; congruence|].
  intros Hh. split; [auto|]. rewrite (Hn Hh). by intros [? [=]].
Qed.

Lemma commit_atomically new tx msg w0 w e w' :
  committed w = committed w0 -> (sound w0 -> sound w) -> new = Some (pending tx w) ->
  (e1 ← Commit db tx;
   match e1 with
   | Some x => mret (Some (DatabaseError x msg EmptyString))
   | None => mret None
   end) w = (e, w') ->
  atomically new w0 e w'.
Proof.
  intros Hc Hs -> H. unfold mbind, io_bind in H.
  destruct (Commit db tx w) as [e1 w1] eqn:E. destruct (Commit_law _ _ _ _ E) as [Hc1 Hs1].
  unfold mret, io_ret in H. destruct e1; simplify_eq.
  - split; [destruct Hc1 as [Hc1|Hc1]; [left|right]; congruence|]. intros Hh.
    destruct (Hs1 (Hs Hh)). done.
  - split; [congruence|]. intros Hh. by destruct (Hs1 (Hs Hh)).
Qed.

Lemma begin_failed new err w x w' :
  BeginTx db w = (Err err, w') -> atomically new w (Some x) w'.
Proof.
  intros E. destruct (Begin_law _ _ _ E) as (Hc & _ & Hs).
  split; [by left|]. intros Hh. by destruct (Hs Hh).
Qed.

Lemma execute_atomic q w e w' :
  execute db q w = (e, w') -> atomically (sql_exec q [] (committed w)) w e w'.
Proof.
  intros H. unfold execute in H. unfold mbind at 1, io_bind at 1 in H.
  destruct (BeginTx db w) as [r w1] eqn:E1. destruct r as [tx|err].
  2:{ unfold mret, io_ret in H. simplify_eq. by eapply begin_failed. }
  destruct (Begin_law _ _ _ E1) as (C1 & P1 & S1).
  unfold mbind at 1, io_bind at 1 in H. destruct (TxExec db tx q [] w1) as [e2 w2] eqn:E2.
  destruct (TxExec_law _ _ _ _ _ _ E2) as (C2 & P2 & S2). rewrite <- P1 in *.
  destruct e2 as [e2|].
  - eapply rollback_atomically, H; [congruence| |]; intros Hh; destruct (S1 Hh) as [Hh1 _];
      destruct (S2 Hh1) as [? K2]; [done|].
    destruct (sql_exec q [] (pending tx w1)); [|done]. discriminate (K2 (mk_is_Some _ _ eq_refl)).
  - eapply commit_atomically, H; [congruence| |by apply P2].
    intros Hh. destruct (S1 Hh) as [Hh1 _]. by destruct (S2 Hh1).
Qed.

(** What SetVersion records. *)
Definition recorded (version : Z) (dirty : bool) : list (Z * bool) :=
  if (0 <=? version) || ((version =? NilVersion) && dirty) then [(version, dirty)] else [].

Lemma setVersion_atomic v dirty rows d w e w' :
  committed w = MkDB (Some rows) d -> setVersion db v dirty w = (e, w') ->
  atomically (Some (MkDB (Some (recorded v dirty)) d)) w e w'.
Proof.
  intros Hw H. unfold setVersion in H. unfold mbind at 1, io_bind at 1 in H.
  destruct (BeginTx db w) as [r w1] eqn:E1. destruct r as [tx|err].
  2:{ unfold mret, io_ret in H. simplify_eq. by eapply begin_failed. }
  destruct (Begin_law _ _ _ E1) as (C1 & P1 & S1). rewrite Hw in P1.
  unfold mbind at 1, io_bind at 1 in H.
  destruct (TxExec db tx deleteMigrationVersionStatement [] w1) as [e2 w2] eqn:E2.
  destruct (TxExec_law _ _ _ _ _ _ E2) as (C2 & P2 & S2). rewrite P1, exec_delete in *.
  assert (Hdel : sound w -> sound w2 /\ e2 = None).
  { intros Hh. destruct (S1 Hh) as [Hh1 _]. destruct (S2 Hh1) as [? K]. eauto. }
  destruct e2 as [e2|].
  { eapply rollback_atomically, H; [congruence|intros Hh; by destruct (Hdel Hh)..]. }
  specialize (P2 eq_refl). simplify_eq P2. intros P2'.
  unfold mbind at 1, io_bind at 1 in H.
  set (ins := if _ || _ then TxExec _ _ _ _ else _) in H.
  destruct (ins w2) as [e3 w3] eqn:E3.
  assert (committed w3 = committed w2 /\
    (e3 = None -> pending tx w3 = MkDB (Some (recorded v dirty)) d) /\
    (sound w2 -> sound w3 /\ e3 = None)) as (C3 & P3 & S3).
  { unfold ins, recorded in *. destruct ((0 <=? v) || ((v =? NilVersion) && dirty)).
    - destruct (TxExec_law _ _ _ _ _ _ E3) as (C3 & P3 & S3). rewrite <- P2', exec_insert in *.
      split; [done|]. split; [intros He; specialize (P3 He); congruence|].
      intros Hh. destruct (S3 Hh) as [? K]. eauto.
    - unfold mret, io_ret in E3. simplify_eq. auto. }
  destruct e3 as [e3|].
  - eapply rollback_atomically, H; [congruence|..]; intros Hh; destruct (Hdel Hh) as [Hh2 _];
      by destruct (S3 Hh2).
  - eapply commit_atomically, H; [congruence| |by rewrite P3].
    intros Hh. destruct (Hdel Hh) as [Hh2 _]. by destruct (S3 Hh2).
Qed.

(** ** The driver keeps the laws golang-migrate relies on *)

(** The version table exists and has at most one row. *)
Definition table_ok w : Prop :=
  exists rows, vtable (committed w) = Some rows /\ (length rows <= 1)%nat.

Definition row_of (rows : option (list (Z * bool))) : Z * bool :=
  match rows with Some (x :: _) => x | _ => (NilVersion, false) end.

(** The version a database records. *)
Definition ver_of w : Z * bool := row_of (vtable (committed w)).

Lemma recorded_row v dirty :
  -1 <= v -> row_of (Some (recorded v dirty)) = (v, dirty).
Proof.
  intros Hv. unfold recorded, NilVersion. destruct (Z.leb_spec 0 v); [done|].
  assert (v = -1) as -> by lia. by destruct dirty.
Qed.

Lemma recorded_length v dirty : (length (recorded v dirty) <= 1)%nat.
Proof. unfold recorded. by destruct (_ || _); simpl; lia. Qed.

Lemma setVersion_spec v dirty w e w' :
  table_ok w -> setVersion db v dirty w = (e, w') ->
  table_ok w' /\ udata (committed w') = udata (committed w) /\
  match e with
  | None => ver_of w' = row_of (Some (recorded v dirty))
  | Some _ => ver_of w' = ver_of w \/ ver_of w' = row_of (Some (recorded v dirty))
  end /\ (sound w -> sound w' /\ e = None).
Proof.
  intros (rows & Hr & Hl) H. destruct (committed w) as [vt d] eqn:Ew. simpl in Hr. subst vt.
  destruct (setVersion_atomic v dirty rows d w e w' Ew H) as [Hc Hs].
  assert (committed w' = committed w \/ committed w' = MkDB (Some (recorded v dirty)) d) as Hor.
  { destruct e; [|by right; congruence]. destruct Hc; [by left|right; congruence]. }
  unfold table_ok, ver_of. split; [|split; [|split]].
  - destruct Hor as [-> | ->]; [rewrite Ew; eauto|]. simpl. eauto using recorded_length.
  - destruct Hor as [-> | ->]; [by rewrite Ew|done].
  - destruct e; [destruct Hc as [Hc|[= Hc]]; [left; congruence|right; by rewrite <- Hc]|].
    injection Hc as <-. done.
  - intros Hh. destruct (Hs Hh) as [? K]. eauto.
Qed.

Lemma version_spec w r w' :
  table_ok w -> version_ db w = (r, w') ->
  committed w' = committed w /\ (sound w -> sound w' /\ is_ok r = true) /\
  match r with Ok x => x = ver_of w | Err _ => True end.
Proof.
  intros (rows & Hr & Hl) H. unfold version_, mbind, io_bind, mret, io_ret in H.
  destruct (QueryRow db selectMigrationVersionStatement w) as [r1 w1] eqn:E.
  destruct (Query_law _ _ _ E) as (Hc & Hs & Hx & Hk). simplify_eq. unfold ver_of. rewrite Hr in *.
  split; [done|]. split.
  - intros Hh. split; [auto|]. specialize (Hk Hh rows eq_refl). destruct r1 as [x|err]; [done|].
    by rewrite Hk.
  - destruct r1 as [x|err].
    + destruct Hx as (rows' & [= <-] & Hin). destruct rows as [|y [|]]; simpl in *; [by apply not_elem_of_nil in Hin| |lia].
      by apply list_elem_of_singleton in Hin.
    + destruct (ctxerrors.Is err ErrNoRows); [|done]. specialize (Hx eq_refl). by simplify_eq.
Qed.

(** Every error the driver reports is a lock error or a database.Error. *)
Lemma sqlite_reports e :
  reports (sqlite_driver db) e -> ctxerrors.Is e ErrNoChange = false.
Proof.
  intros (dr & dr' & H). cbn [Lock Unlock DVersion SetVersion Run sqlite_driver] in H.
  unfold sqlite_Lock, sqlite_Unlock, sqlite_Version, sqlite_SetVersion, sqlite_Run, on_db, version_,
    setVersion, execute, rollbackWithError, CompareAndSwap, mbind, io_bind, mret, io_ret in H.
  destruct H as [H|[H|[H|[(v & b & H)|(text & H)]]]]; repeat case_match; simplify_eq; done.
Qed.

#[export] Program Instance sqlite_driver_laws : DriverLaws (sqlite_driver db) usertext apply := {
  ready d := table_ok (sqlDB d);
  healthy d := sound (sqlDB d);
  locked d := flag d;
  ver d := ver_of (sqlDB d);
  data d := udata (committed (sqlDB d))
}.
Next Obligation.
  intros [w f] e d' Hr H. simpl in *. unfold sqlite_Lock, CompareAndSwap, mbind, io_bind, mret, io_ret in H.
  simpl in H. destruct f; simpl in H; simplify_eq; simpl; by repeat split.
Qed.
Next Obligation.
  intros [w f] e d' Hr H. simpl in *. unfold sqlite_Unlock, CompareAndSwap, mbind, io_bind, mret, io_ret in H.
  simpl in H. destruct f; simpl in H; simplify_eq; simpl; by repeat split.
Qed.
Next Obligation.
  intros [w f] r d' Hr H. simpl in *. unfold sqlite_Version, on_db in H. simpl in H.
  destruct (version_ db w) as [r1 w1] eqn:E. simplify_eq. simpl.
  destruct (version_spec _ _ _ Hr E) as (Hc & Hs & Hx). unfold table_ok, ver_of in *. rewrite Hc.
  repeat split; auto; intros Hh; by destruct (Hs Hh).
Qed.
Next Obligation.
  intros [w f] v dirty e d' Hr Hv H. simpl in *. unfold sqlite_SetVersion, on_db in H. simpl in H.
  destruct (setVersion db v dirty w) as [e1 w1] eqn:E. simplify_eq. simpl.
  destruct (setVersion_spec _ _ _ _ _ Hr E) as (Ht & Hd & Hx & Hs). rewrite (recorded_row v dirty Hv) in Hx.
  repeat split; auto; intros Hh; by destruct (Hs Hh).
Qed.
Next Obligation.
  intros [w f] text e d' Hr Hu H. simpl in *. unfold on_db in H. simpl in H.
  destruct (execute db text w) as [e1 w1] eqn:E. simplify_eq. simpl.
  destruct (execute_atomic _ _ _ _ E) as [Hc Hs]. destruct Hr as (rows & Hr & Hl).
  destruct (committed w) as [vt d] eqn:Ew. simpl in Hr. subst vt. rewrite (exec_text text rows d Hu) in *.
  assert (committed w1 = MkDB (Some rows) d \/ exists d', apply text d = Some d' /\ committed w1 = MkDB (Some rows) d')
    as Hor.
  { assert (committed w1 = MkDB (Some rows) d \/ MkDB (Some rows) <$> apply text d = Some (committed w1)) as [?|Hx]
      by (destruct e; auto).
    - by left.
    - right. destruct (apply text d) as [d'|]; simpl in Hx; simplify_eq. eauto. }
  unfold table_ok, ver_of. rewrite Ew. simpl. split; [|split; [|split; [|split; [|split]]]].
  - destruct Hor as [-> | (d' & _ & ->)]; simpl; eauto.
  - intros Hh. by destruct (Hs Hh).
  - by destruct Hor as [-> | (d' & _ & ->)].
  - done.
  - destruct e.
    + destruct Hor as [-> | (d' & -> & ->)]; simpl; auto.
    + destruct (apply text d) as [d'|]; simpl in Hc; simplify_eq. by rewrite <- Hc.
  - intros Hh [d' Hd]. destruct (Hs Hh) as [_ K]. apply K. rewrite Hd. simpl. eauto.
Qed.
Next Obligation. exact sqlite_reports. Qed.

(** ** Properties *)

(** C22. SetVersion and Version are a round trip, atomically: after a
    successful SetVersion, Version reads back the pair, except that a clean
    nil version and a version below -1 are stored as no row and read back as a
    clean -1; after a failed one it reads the old or the new pair and nothing
    else; the user's tables and the lock are never touched, and on a database
    without faults both succeed. *)
Theorem sqlite_version_roundtrip v dirty dr e dr1 r dr2 :
  table_ok (sqlDB dr) ->
  sqlite_SetVersion db v dirty dr = (e, dr1) -> sqlite_Version db dr1 = (r, dr2) ->
  let stored := if (0 <=? v) || ((v =? -1) && dirty) then (v, dirty) else (-1, false) in
  match r with
  | Ok x => x = stored \/ (e <> None /\ x = ver_of (sqlDB dr))
  | Err _ => ~ sound (sqlDB dr)
  end /\
  (sound (sqlDB dr) -> e = None) /\
  udata (committed (sqlDB dr2)) = udata (committed (sqlDB dr)) /\ flag dr2 = flag dr /\
  table_ok (sqlDB dr2).
Proof.
  intros Ht H1 H2 stored. unfold sqlite_SetVersion, sqlite_Version, on_db in *.
  destruct (setVersion db v dirty (sqlDB dr)) as [e' w1] eqn:E1. simplify_eq. simpl in H2.
  destruct (version_ db w1) as [r' w2] eqn:E2. simplify_eq. simpl.
  destruct (setVersion_spec _ _ _ _ _ Ht E1) as (T1 & D1 & V1 & S1).
  destruct (version_spec _ _ _ T1 E2) as (C2 & S2 & V2).
  assert (row_of (Some (recorded v dirty)) = stored) as Hst.
  { unfold stored, recorded, NilVersion. by destruct (_ || _). }
  rewrite Hst in V1. split; [|split; [|split; [|split]]].
  - destruct r as [x|err].
    + subst x. destruct e; [destruct V1 as [V1|V1]|]; auto.
    + intros Hh. destruct (S1 Hh) as [Hh1 _]. by destruct (S2 Hh1).
  - intros Hh. by destruct (S1 Hh).
  - by rewrite C2.
  - done.
  - unfold table_ok in *. by rewrite C2.
Qed.

Lemma newDriver_cases w r dr :
  newDriver db w = (r, dr) ->
  flag dr = false /\ udata (committed (sqlDB dr)) = udata (committed w) /\
  match r with
  | Ok _ => vtable (committed (sqlDB dr)) = Some (default [] (vtable (committed w)))
  | Err _ => vtable (committed (sqlDB dr)) = vtable (committed w) \/
             vtable (committed (sqlDB dr)) = Some (default [] (vtable (committed w)))
  end /\
  (sound w -> sound (sqlDB dr) /\ r = Ok tt).
Proof.
  unfold newDriver, ensureMigrationTable, sqlite_Lock, sqlite_Unlock, CompareAndSwap, mbind, io_bind,
    mret, io_ret, on_db. simpl.
  destruct (ExecContext db createMigrationTableStatement w) as [e w1] eqn:E.
  destruct (Exec_law _ _ _ _ E) as [Hc Hs]. rewrite exec_create in *. simpl. intros H.
  destruct e as [e|]; simplify_eq; simpl; (split; [done|]).
  - destruct Hc as [-> | [= <-]]; simpl; (split; [done|]); (split; [by auto|]);
      intros Hh; destruct (Hs Hh) as [_ K]; discriminate (K (mk_is_Some _ _ eq_refl)).
  - rewrite <- Hc. simpl. split; [done|]. split; [done|]. intros Hh. by destruct (Hs Hh).
Qed.

(** Creating a driver releases its lock on every path, never touches the
    user's tables or the recorded version, and, when it succeeds, the version
    table exists; on a database without faults it succeeds, so it can be
    repeated any number of times. *)
Theorem newDriver_spec w r dr :
  newDriver db w = (r, dr) ->
  flag dr = false /\ udata (committed (sqlDB dr)) = udata (committed w) /\
  ver_of (sqlDB dr) = ver_of w /\
  (r = Ok tt -> is_Some (vtable (committed (sqlDB dr)))) /\
  (sound w -> sound (sqlDB dr) /\ r = Ok tt).
Proof.
  intros H. destruct (newDriver_cases _ _ _ H) as (F & U & V & S). repeat split; try done; try by apply S.
  - unfold ver_of. destruct (vtable (committed w)) as [rows|]; destruct r; simpl in V;
      [rewrite V|destruct V as [-> | ->]|rewrite V|destruct V as [-> | ->]]; done.
  - intros ->. simpl in V. rewrite V. eauto.
Qed.
End DriverProofs.

(** ** A database that keeps the laws, with any schedule of faults *)

(** A call works, fails without effect, or takes effect but reports failure. *)
Inductive fault : Type := Works | Fails | FailsAfter.

Module MemDB.
Section MemDB.
Context {D : Type} (sql_exec : string -> list sqlarg -> dbstate D -> option (dbstate D)).

Record mem : Type := MkMem {
  cdb : dbstate D;
  pdb : option (dbstate D);
  faults : list fault
}.

Definition diskError : error := ForeignError 5.
Definition sqlError : error := ForeignError 1.

(** The next fault of the schedule; none is left when it is empty. *)
Definition next (w : mem) : fault * mem :=
  match faults w with
  | [] => (Works, w)
  | f :: fs => (f, MkMem (cdb w) (pdb w) fs)
  end.

Definition ping : io mem (option error) := fun w =>
  let '(f, w) := next w in (match f with Works => None | _ => Some diskError end, w).

Definition exec_ (q : string) : io mem (option error) := fun w =>
  let '(f, w) := next w in
  match f with
  | Fails => (Some diskError, w)
  | _ => match sql_exec q [] (cdb w) with
         | Some st => (match f with Works => None | _ => Some diskError end, MkMem st (pdb w) (faults w))
         | None => (Some sqlError, w)
         end
  end.

Definition query (q : string) : io mem (gores (Z * bool)) := fun w =>
  let '(f, w) := next w in
  match f with
  | Works => match vtable (cdb w) with
             | Some (x :: _) => (Ok x, w)
             | Some [] => (Err (Sentinel ErrNoRows), w)
             | None => (Err sqlError, w)
             end
  | _ => (Err diskError, w)
  end.

Definition begin : io mem (gores unit) := fun w =>
  let '(f, w) := next w in
  match f with
  | Works => (Ok tt, MkMem (cdb w) (Some (cdb w)) (faults w))
  | _ => (Err diskError, w)
  end.

Definition pendingOf (w : mem) : dbstate D := default (cdb w) (pdb w).

Definition txexec (_ : unit) (q : string) (args : list sqlarg) : io mem (option error) := fun w =>
  let '(f, w) := next w in
  match f with
  | Works => match sql_exec q args (pendingOf w) with
             | Some st => (None, MkMem (cdb w) (Some st) (faults w))
             | None => (Some sqlError, w)
             end
  | _ => (Some diskError, w)
  end.

Definition rollback (_ : unit) : io mem (option error) := fun w =>
  let '(f, w) := next w in
  (match f with Works => None | _ => Some diskError end, MkMem (cdb w) None (faults w)).

Definition commit (_ : unit) : io mem (option error) := fun w =>
  let '(f, w) := next w in
  match f with
  | Works => (None, MkMem (pendingOf w) None (faults w))
  | Fails => (Some diskError, MkMem (cdb w) None (faults w))
  | FailsAfter => (Some diskError, MkMem (pendingOf w) None (faults w))
  end.

Definition memdb : SqlDB mem unit := MkSqlDB _ _ ping exec_ query begin txexec rollback commit.

Definition working (w : mem) : Prop := Forall (fun f => f = Works) (faults w).

Lemma next_spec w f w1 :
  next w = (f, w1) -> cdb w1 = cdb w /\ pdb w1 = pdb w /\ (working w -> working w1 /\ f = Works).
Proof.
  unfold next, working. destruct (faults w) as [|f' fs] eqn:E; intros H; simplify_eq; simpl.
  - split; [done|]. split; [done|]. intros Hw. split; [by rewrite E|done].
  - split; [done|]. split; [done|]. intros Hw. by apply Forall_cons in Hw as [? ?].
Qed.

Lemma is_Some_None {A} : ~ is_Some (None : option A).
Proof. by intros [? [=]]. Qed.

(** Runs a call of the database against its first fault, and closes what is
    left of its law. *)
Ltac mem_call H :=
  match type of H with
  | context [next ?w] =>
    let f := fresh "f" in let w1 := fresh "w1" in let E := fresh "E" in
    let Hc := fresh "Hc" in let Hp := fresh "Hp" in let Hw := fresh "Hw" in
    destruct (next w) as [f w1] eqn:E; apply next_spec in E as (Hc & Hp & Hw);
    unfold pendingOf in *; rewrite ?Hc, ?Hp in H; destruct f; repeat case_match; simplify_eq/=;
    unfold pendingOf in *; simpl; rewrite ?Hc, ?Hp
  end.
Ltac mem_done :=
  repeat split; intros;
  repeat match goal with
         | H : working ?w -> _, H' : working ?w |- _ =>
           let X := fresh in pose proof (H H') as X; destruct X; clear H
         end; simplify_eq/=;
  try done; eauto;
  try match goal with
      | H : ?x = None, H' : is_Some ?x |- _ => rewrite H in H'; by apply is_Some_None in H'
      end.

#[export] Program Instance memdb_laws : SqlDBLaws memdb sql_exec := {
  committed w := cdb w; pending _ w := pendingOf w; sound w := working w
}.
Next Obligation. intros w e w' H. unfold memdb, ping in H. simpl in H. mem_call H; mem_done. Qed.
Next Obligation. intros q w e w' H. unfold memdb, exec_ in H. simpl in H. mem_call H; mem_done. Qed.
Next Obligation.
  intros w r w' H. unfold memdb, query in H. simpl in H. mem_call H; mem_done.
  eexists. split; [done|]. by left.
Qed.
Next Obligation. intros w r w' H. unfold memdb, begin in H. simpl in H. mem_call H; mem_done. Qed.
Next Obligation. intros tx q args w e w' H. unfold memdb, txexec in H. simpl in H. mem_call H; mem_done. Qed.
Next Obligation. intros tx w e w' H. unfold memdb, rollback in H. simpl in H. mem_call H; mem_done. Qed.
Next Obligation. intros tx w e w' H. unfold memdb, commit in H. simpl in H. mem_call H; mem_done. Qed.
End MemDB.

(** Statements over a stack of names: a text pushes a name with "+" or pops it
    with "-". *)
Definition stack_apply (text : string) (d : list string) : option (list string) :=
  match text with
  | String c x =>
    if bool_decide (c = "+"%char) then Some (x :: d)
    else if bool_decide (c = "-"%char) then
      match d with y :: d' => if bool_decide (x = y) then Some d' else None | [] => None end
    else None
  | EmptyString => None
  end.

Definition stack_text (text : string) : Prop :=
  match text with
  | String c _ => c = "+"%char \/ c = "-"%char
  | EmptyString => False
  end.

Definition stack_exec (q : string) (args : list sqlarg) (st : dbstate (list string))
  : option (dbstate (list string)) :=
  if bool_decide (q = createMigrationTableStatement)
  then Some (MkDB (Some (default [] (vtable st))) (udata st))
  else match vtable st with
       | None => None
       | Some rows =>
         if bool_decide (q = deleteMigrationVersionStatement) then Some (MkDB (Some []) (udata st))
         else if bool_decide (q = insertMigrationVersionStatement) then
           match args with
           | [IntArg v; BoolArg b] =>
             if bool_decide (v ∈ rows.*1) then None else Some (MkDB (Some (rows ++ [(v, b)])) (udata st))
           | _ => None
           end
         else MkDB (Some rows) <$> stack_apply q (udata st)
       end.

#[export] Instance stack_semantics : SqlSemantics stack_exec stack_text stack_apply.
Proof.
  constructor.
  - intros st. done.
  - intros rows d. done.
  - intros v b d. done.
  - intros text rows d Ht. unfold stack_exec. simpl. destruct text as [|c x]; [done|].
    destruct Ht as [-> | ->]; done.
Qed.
End MemDB.

(** ** Witnesses: a table at version 7 and a disk that fails in the middle *)

Definition demo_db : dbstate (list string) := MkDB (Some [(7, false)]) ["users"%string].
Definition demo_world (fs : list fault) : MemDB.mem := MemDB.MkMem demo_db None fs.
Abbreviation demo_sql := (MemDB.memdb MemDB.stack_exec).
#[export] Existing Instance MemDB.memdb_laws.
#[export] Existing Instance MemDB.stack_semantics.

Lemma demo_table_ok fs : table_ok demo_sql MemDB.stack_exec (demo_world fs).
Proof. exists [(7, false)]. split; [reflexivity|simpl; lia]. Defined.

Lemma sqlite_version_roundtrip_witness :
  let dr := MkDrv (demo_world [Works; Works; Works; FailsAfter]) false in
  let dr1 := (sqlite_SetVersion demo_sql 8 true dr).2 in
  (sqlite_SetVersion demo_sql 8 true dr).1 <> None /\
  sqlite_Version demo_sql dr1 = (Ok (8, true), dr1) /\
  udata (MemDB.cdb (sqlDB dr1)) = ["users"%string].
Proof.
  split; [vm_compute; discriminate|]. split; [vm_compute; reflexivity|].
  set (dr := MkDrv _ _). destruct (sqlite_version_roundtrip demo_sql MemDB.stack_exec MemDB.stack_text
    MemDB.stack_apply 8 true dr _ _ (Ok (8, true)) (sqlite_SetVersion demo_sql 8 true dr).2
    (demo_table_ok _) (surjective_pairing _)) as (_ & _ & U & _).
  - vm_compute. reflexivity.
  - exact U.
Defined.

Lemma newDriver_spec_witness :
  let w := demo_world [FailsAfter] in
  flag (newDriver demo_sql w).2 = false /\ ver_of demo_sql MemDB.stack_exec (sqlDB (newDriver demo_sql w).2) = (7, false).
Proof.
  destruct (newDriver_spec demo_sql MemDB.stack_exec MemDB.stack_text MemDB.stack_apply (demo_world [FailsAfter])
    _ _ (surjective_pairing _)) as (F & _ & V & _).
  split; [exact F|]. rewrite V. reflexivity.
Defined.
