(* ===== verification/DbMigrate.v ===== *)
(** * db/migrate.go and db/sqlite/migrate.go: the migration helpers

    MigrateUp, MigrateDown and MigrateForce over any database.Driver, and their
    SQLite versions over a caller-owned *sql.DB.

    The file system is an argument: an embedded one ([EmbedFS]) or the host's
    (os.Stat and source.Open on the file:// URL of the path). *)

From stdpp Require Import base option list strings sorting sets.
From Stdlib Require Import ZArith Lia Ascii.
From S2P Require Import Prelude GoErrors MigrateSource MigrateEngine SqliteDriver.

Open Scope Z_scope.

Definition ErrRequiredFieldNotSet : string := "required field is not set".
Definition ErrEmptyMigrationsPath : string := "migrations path is empty".
Definition ErrInvalidArgument : string := "invalid argument".

(** *embed.FS: fs.ReadDir and Open under a directory. *)
Record EmbedFS : Type := MkFS {
  ReadDir : string -> gores (list DirEntry);
  OpenAt : string -> string -> gores reader
}.

Record HostFS : Type := MkHost {
  Stat : string -> option error;
  OpenURL : string -> gores Source
}.

(** iofs.New *)
Definition iofs_New (fsys : EmbedFS) (path : string) : gores Source :=
  match Init (ReadDir fsys path) with
  | Err err => Err (fmt_Errorf_w "failed to init driver with path" err)
  | Ok ms => Ok (iofs (OpenAt fsys path) ms)
  end.

Section Common.
Context (host : HostFS).
Context {W : Type}.

(** newMigrator: the source and the driver of the Migrate value, whose own
    lock flag starts out false. *)
Definition newMigrator (migrationDriver : option (Driver W)) (path : string)
    (migrationFS : option EmbedFS) : gores (Source * Driver W) :=
  match migrationDriver with
  | None => Err (ctxerrors.WrapE (Sentinel ErrRequiredFieldNotSet) "migration database driver")
  | Some drv =>
    match migrationFS with
    | Some fsys =>
      match iofs_New fsys path with
      | Err err => Err (ctxerrors.WrapE err "create embedded migration source")
      | Ok src => Ok (src, drv)
      end
    | None =>
      if bool_decide (path = EmptyString)
      then Err (ctxerrors.WrapE (Sentinel ErrEmptyMigrationsPath) "migration filesystem path")
      else match Stat host path with
           | Some err => Err (ctxerrors.WrapE err "validate migration filesystem path")
           | None =>
             match OpenURL host path with
             | Err err => Err (ctxerrors.WrapE err "create migration instance")
             | Ok src => Ok (src, drv)
             end
           end
    end
  end.

(** [None] is the engine's [None]: a reader that has no result. *)
Definition MigrateUp (fuel : nat) (migrationDriver : option (Driver W)) (path : string)
    (migrationFS : option EmbedFS) (w : W) : option (option error * W) :=
  match newMigrator migrationDriver path migrationFS with
  | Err err => Some (ctxerrors.Wrap (Some err) "create migrator", w)
  | Ok (src, drv) =>
    '(err, m) ← Up src drv fuel (MkMigrate w false);
    match err with
    | Some e => if ctxerrors.Is e ErrNoChange then Some (None, world m)
                else Some (ctxerrors.Wrap (Some e) "migrate up", world m)
    | None => Some (None, world m)
    end
  end.

Definition MigrateDown (fuel : nat) (migrationDriver : option (Driver W)) (path : string)
    (migrationFS : option EmbedFS) (steps : Z) (w : W) : option (option error * W) :=
  if steps <=? 0
  then Some (ctxerrors.Wrap (Some (Sentinel ErrInvalidArgument)) "migration steps must be greater than zero", w)
  else match newMigrator migrationDriver path migrationFS with
       | Err err => Some (ctxerrors.Wrap (Some err) "create migrator", w)
       | Ok (src, drv) =>
         '(err, m) ← Steps src drv fuel (- steps) (MkMigrate w false);
         match err with
         | Some e => Some (ctxerrors.Wrap (Some e) "migrate down", world m)
         | None => Some (None, world m)
         end
       end.

Definition MigrateForce (migrationDriver : option (Driver W)) (path : string)
    (migrationFS : option EmbedFS) (version : Z) (w : W) : option error * W :=
  match newMigrator migrationDriver path migrationFS with
  | Err err => (ctxerrors.Wrap (Some err) "create migrator", w)
  | Ok (src, drv) =>
    let '(err, m) := Force drv version (MkMigrate w false) in
    match err with
    | Some e => (ctxerrors.Wrap (Some e) "force migration version", world m)
    | None => (None, world m)
    end
  end.
End Common.

(** The helpers, too, touch the world only through the driver. *)
Section HelpersWithin.
Context (host : HostFS) {W : Type} (drv : Driver W) (R : W -> W -> Prop).
Context {PO : PreOrder R} {WI : Within drv R}.

Lemma newMigrator_driver d path fs src drv' :
  newMigrator (W := W) host (Some d) path fs = Ok (src, drv') -> drv' = d.
Proof. unfold newMigrator. repeat case_match; by intros [= _ ->]. Qed.

Lemma MigrateUp_within fuel path fs w e w' :
  MigrateUp host fuel (Some drv) path fs w = Some (e, w') -> R w w'.
Proof.
  unfold MigrateUp. destruct (newMigrator _ _ _ _) as [[src d]|] eqn:Hn; [|by intros [= <- <-]].
  apply newMigrator_driver in Hn as ->.
  destruct (Up src drv fuel _) as [[err m]|] eqn:Hu; [|done]. simpl.
  apply (Up_within src drv R) in Hu. simpl in Hu. repeat case_match; by intros [= <- <-].
Qed.

Lemma MigrateDown_within fuel path fs steps w e w' :
  MigrateDown host fuel (Some drv) path fs steps w = Some (e, w') -> R w w'.
Proof.
  unfold MigrateDown. case_match; [by intros [= <- <-]|].
  destruct (newMigrator _ _ _ _) as [[src d]|] eqn:Hn; [|by intros [= <- <-]].
  apply newMigrator_driver in Hn as ->.
  destruct (Steps src drv fuel _ _) as [[err m]|] eqn:Hu; [|done]. simpl.
  apply (Steps_within src drv R) in Hu. simpl in Hu. case_match; by intros [= <- <-].
Qed.

Lemma MigrateForce_within path fs version w :
  R w (MigrateForce host (Some drv) path fs version w).2.
Proof.
  unfold MigrateForce. destruct (newMigrator _ _ _ _) as [[src d]|] eqn:Hn; [|reflexivity].
  apply newMigrator_driver in Hn as ->.
  pose proof (Force_within drv R version (MkMigrate w false)) as H. simpl in H.
  destruct (Force drv version _) as [[err|] m]; done.
Qed.
End HelpersWithin.

(** ** SQLite *)

Section Sqlite.
Context (host : HostFS) {W Tx : Type}.
Implicit Types (w : W).

(** migrationDriver; a nil *sql.DB is [None].  The world comes back with it:
    the database has been pinged and may have got its version table. *)
Definition migrationDriver (db : option (SqlDB W Tx)) w : gores (SqlDB W Tx) * driver W :=
  match db with
  | None => (Err (ctxerrors.WrapE (Sentinel ErrRequiredFieldNotSet) "SQLite database"), MkDrv w false)
  | Some db =>
    let '(err, w) := PingContext db w in
    match err with
    | Some e => (Err (ctxerrors.WrapE e "ping SQLite database"), MkDrv w false)
    | None =>
      let '(r, d) := newDriver db w in
      match r with
      | Err e => (Err (ctxerrors.WrapE e "create SQLite migration driver"), d)
      | Ok _ => (Ok db, d)
      end
    end
  end.

(** Runs one of the common helpers with a new driver. *)
Definition withDriver (db : option (SqlDB W Tx)) (msg : string)
    (op : Driver (driver W) -> driver W -> option (option error * driver W)) w
  : option (option error * W) :=
  let '(r, d) := migrationDriver db w in
  match r with
  | Err e => Some (ctxerrors.Wrap (Some e) "create SQLite migration driver", sqlDB d)
  | Ok db =>
    '(err, d) ← op (sqlite_driver db) d;
    match err with
    | Some e => Some (ctxerrors.Wrap (Some e) msg, sqlDB d)
    | None => Some (None, sqlDB d)
    end
  end.

Definition sqlite_MigrateUp (fuel : nat) (db : option (SqlDB W Tx)) (path : string)
    (migrationFS : option EmbedFS) : W -> option (option error * W) :=
  withDriver db "migrate SQLite up" (fun drv => MigrateUp host fuel (Some drv) path migrationFS).

Definition sqlite_MigrateDown (fuel : nat) (db : option (SqlDB W Tx)) (path : string)
    (steps : Z) (migrationFS : option EmbedFS) : W -> option (option error * W) :=
  withDriver db "migrate SQLite down" (fun drv => MigrateDown host fuel (Some drv) path migrationFS steps).

Definition sqlite_MigrateForce (db : option (SqlDB W Tx)) (path : string)
    (version : Z) (migrationFS : option EmbedFS) : W -> option (option error * W) :=
  withDriver db "force SQLite migration version"
    (fun drv d => Some (MigrateForce host (Some drv) path migrationFS version d)).
End Sqlite.

(** ** Over any driver *)

(** An embedded directory [path] with the files [es]: they index as [ms], their
    texts are [text], user texts all, and their versions fit an int. *)
Record embeds (usertext : string -> Prop) (fsys : EmbedFS) (path : string) (es : list DirEntry)
    (ms : Migrations) (text : string -> string) : Prop := {
  emb_dir : ReadDir fsys path = Ok es;
  emb_index : Init (Ok es) = Ok ms;
  emb_fit m : parsed es m -> MigrateSource.Version m < 2 ^ 63;
  emb_open m : parsed es m -> OpenAt fsys path (Raw m) = Ok (MkReader (text (Raw m)) None);
  emb_user m : parsed es m -> usertext (text (Raw m))
}.

Definition up_text (ms : Migrations) (text : string -> string) (v : Z) : option string :=
  texts text (UpOf ms v).
Definition down_text (ms : Migrations) (text : string -> string) (v : Z) : option string :=
  texts text (DownOf ms v).

Section Generic.
Context {W D : Type} (drv : Driver W) (usertext : string -> Prop).
Context (apply : string -> D -> option D) {DL : DriverLaws drv usertext apply}.
Context (host : HostFS) (fsys : EmbedFS) (path : string) (es : list DirEntry).
Context (ms : Migrations) (text : string -> string) (E : embeds usertext fsys path es ms text).
Implicit Types (w : W).

Let vs : list Z := index ms.
Let src : Source := iofs (OpenAt fsys path) ms.

#[local] Instance emb_laws : SourceLaws src vs (up_text ms text) (down_text ms text).
Proof. destruct E. by eapply iofs_laws. Qed.

Lemma newMigrator_embedded : newMigrator host (Some drv) path (Some fsys) = Ok (src, drv).
Proof. unfold newMigrator, iofs_New. rewrite (emb_dir _ _ _ _ _ _ E), (emb_index _ _ _ _ _ _ E). done. Qed.

Lemma find_user d v m : find_dir ms d v = Some m -> usertext (text (Raw m)).
Proof.
  intros Hf. destruct E. destruct (Init_keyed _ _ emb_index0 _ _ _ Hf) as [<- <-].
  apply emb_user0. by apply (Init_find _ _ _ emb_index0).
Qed.

Lemma up_plan_ok l : Forall (fun v => -1 <= v) l -> Forall (okstep usertext) (up_plan (up_text ms text) l).
Proof.
  intros Hl. apply Forall_fmap. eapply Forall_impl; [done|]. intros v Hv. split; [done|]. simpl.
  unfold up_text, texts. destruct (UpOf ms v) as [m|] eqn:Hm; [|done]. by eapply find_user.
Qed.

Lemma versions_range : Forall (fun v => -1 <= v) vs.
Proof. eapply Forall_impl; [apply (src_range (SourceLaws := emb_laws))|]. simpl. lia. Qed.

Lemma down_plan_ok p n : Forall (okstep usertext) (down_plan (down_text ms text) vs p n).
Proof.
  revert p. induction n as [|n IH]; intros p; simpl; [done|].
  destruct (vs !! p) as [v|] eqn:Hv; [|done].
  assert (match down_text ms text v with Some t => usertext t | None => True end) as Hu.
  { unfold down_text, texts. destruct (DownOf ms v) as [m|] eqn:Hm; [|done]. by eapply find_user. }
  destruct p as [|p]; (apply Forall_cons; split; [split; [|done]|done]) || (apply Forall_cons; split; [split; [|done]|by apply IH]).
  - done.
  - simpl. destruct (vs !! p) as [u|] eqn:Hp; [|done]. simpl.
    pose proof versions_range as Hr. rewrite Forall_lookup in Hr. eauto.
Qed.

Lemma up_range pos : Forall (fun v => -1 <= v) (drop pos vs).
Proof. apply Forall_drop, versions_range. Qed.

Definition up_rest (pos : nat) : list pstep := up_plan (up_text ms text) (drop pos vs).

Lemma fresh_free w : ready w -> locked w = false -> free drv usertext apply (MkMigrate w false).
Proof. by repeat split. Qed.

(** A clean database without faults: MigrateUp applies what is pending. *)
Lemma MigrateUp_healthy fuel w v pos d :
  ready w -> locked w = false -> healthy w -> ver w = (v, false) -> at_pos vs v pos -> vs <> [] ->
  (length vs < fuel)%nat -> exec apply (up_rest pos) (data w) = Some d ->
  exists w', MigrateUp host fuel (Some drv) path (Some fsys) w = Some (None, w') /\
    ready w' /\ locked w' = false /\ healthy w' /\
    ver w' = (last_target v (up_rest pos), false) /\ data w' = d.
Proof.
  intros Hr Hl Hh Hv Hat Hne Hf Hx. unfold MigrateUp. rewrite newMigrator_embedded.
  destruct (readUp_spec src vs _ _ fuel v pos Hat) as (migs & Hm & Hread); [lia|done|].
  set (tail := if decide (drop pos vs = []) then [inl (Sentinel ErrNoChange)] else []) in *.
  assert (is_tail tail) as Ht by (unfold tail; destruct (decide _); [right|left]; eauto).
  destruct (withMigrations_healthy drv usertext apply (fun cur => readUp src fuel cur (-1))
    (MkMigrate w false) v migs (up_rest pos) tail d)
    as (m' & Hw & (R' & I' & L') & Hh' & V' & D'); try done.
  { apply up_plan_ok, up_range. }
  unfold Up. rewrite Hw. simpl. exists (world m'). split; [|done].
  unfold tail. by destruct (decide _).
Qed.

(** A clean database, any faults. *)
Lemma MigrateUp_safe fuel w v pos :
  ready w -> locked w = false -> ver w = (v, false) -> at_pos vs v pos -> vs <> [] ->
  (length vs < fuel)%nat ->
  exists e w', MigrateUp host fuel (Some drv) path (Some fsys) w = Some (e, w') /\
    ready w' /\ locked w' = false /\
    outcome drv usertext apply v (data w) (up_rest pos) e w'.
Proof.
  intros Hr Hl Hv Hat Hne Hf. unfold MigrateUp. rewrite newMigrator_embedded.
  destruct (readUp_spec src vs _ _ fuel v pos Hat) as (migs & Hm & Hread); [lia|done|].
  set (tail := if decide (drop pos vs = []) then [inl (Sentinel ErrNoChange)] else []) in *.
  assert (is_tail tail) as Ht by (unfold tail; destruct (decide _); [right|left]; eauto).
  destruct (withMigrations_safe drv usertext apply (fun cur => readUp src fuel cur (-1))
    (MkMigrate w false) v migs (up_rest pos) tail)
    as (e & m' & Hw & (R' & I' & L') & O & Hno); try done.
  { apply up_plan_ok, up_range. }
  unfold Up. rewrite Hw. simpl. destruct e as [e|]; [|by exists None, (world m')].
  destruct (ctxerrors.Is e ErrNoChange) eqn:Ee.
  - exists None, (world m'). split; [done|]. split; [done|]. split; [done|].
    specialize (Hno e eq_refl Ee). unfold tail in Hno.
    destruct (decide (drop pos vs = [])) as [Hd|]; [|done].
    unfold outcome, up_rest in *. rewrite Hd in *. simpl in *.
    destruct O as (dn & rest & d & Heq & Hx & O). symmetry in Heq. apply app_nil in Heq as [-> ->].
    exists [], [], d. split; [done|]. split; [done|].
    destruct O as [(? & ? & _)|(s & rest' & ? & _)]; [by left|done].
  - exists (Some (ctxerrors.WrapE e "migrate up")), (world m'). split; [done|]. split; [done|]. split; [done|].
    unfold outcome in *. destruct O as (dn & rest & d & ? & ? & [(? & ? & _)|(s & rest' & ? & ? & ? & _)]);
      exists dn, rest, d; (split; [done|]); (split; [done|]); [by left|].
    right. exists s, rest'. by repeat split.
Qed.

(** A dirty database is refused, up and down. *)
Lemma MigrateUp_dirty fuel w v :
  ready w -> locked w = false -> ver w = (v, true) ->
  exists e w', MigrateUp host fuel (Some drv) path (Some fsys) w
               = Some (Some (ctxerrors.WrapE e "migrate up"), w') /\
    ready w' /\ locked w' = false /\ ver w' = ver w /\ data w' = data w /\
    (healthy w -> healthy w' /\ e = ErrDirty v).
Proof.
  intros Hr Hl Hv. unfold MigrateUp. rewrite newMigrator_embedded.
  destruct (withMigrations_dirty drv usertext apply (fun cur => readUp src fuel cur (-1))
    (MkMigrate w false) v) as (e & m' & Hw & (R' & I' & L') & (V' & D' & H') & Hn & K);
    [by apply fresh_free|done|].
  unfold Up. rewrite Hw. simpl. rewrite Hn. exists e, (world m'). split; [done|]. auto 10.
Qed.

Lemma Steps_down fuel steps m :
  0 < steps < 2 ^ 63 ->
  Steps src drv fuel (- steps) m = withMigrations drv (fun cur => readDown src fuel cur steps) m.
Proof.
  intros Hs. unfold Steps. rewrite (proj2 (Z.eqb_neq (- steps) 0)) by lia.
  rewrite (proj2 (Z.ltb_ge 0 (- steps))) by lia.
  rewrite Z.opp_involutive, wrap64_id by (unfold int64_range; lia). done.
Qed.

Lemma MigrateDown_dirty fuel w v steps :
  0 < steps < 2 ^ 63 -> ready w -> locked w = false -> ver w = (v, true) ->
  exists e w', MigrateDown host fuel (Some drv) path (Some fsys) steps w
               = Some (Some (ctxerrors.WrapE e "migrate down"), w') /\
    ready w' /\ locked w' = false /\ ver w' = ver w /\ data w' = data w /\
    (healthy w -> healthy w' /\ e = ErrDirty v).
Proof.
  intros Hs Hr Hl Hv. unfold MigrateDown. rewrite (proj2 (Z.leb_gt steps 0)) by lia.
  rewrite newMigrator_embedded, Steps_down by done.
  destruct (withMigrations_dirty drv usertext apply (fun cur => readDown src fuel cur steps)
    (MkMigrate w false) v) as (e & m' & Hw & (R' & I' & L') & (V' & D' & H') & Hn & K);
    [by apply fresh_free|done|].
  rewrite Hw. simpl. exists e, (world m'). split; [done|]. auto 10.
Qed.

(** A clean database without faults, [n] steps down from position [S p]. *)
Lemma MigrateDown_healthy fuel w v p (n : nat) d :
  (1 <= n)%nat -> Z.of_nat n < 2 ^ 63 ->
  ready w -> locked w = false -> healthy w -> ver w = (v, false) -> vs !! p = Some v ->
  (length vs < fuel)%nat -> exec apply (down_plan (down_text ms text) vs p n) (data w) = Some d ->
  exists w', MigrateDown host fuel (Some drv) path (Some fsys) (Z.of_nat n) w
             = Some (if decide (n <= S p)%nat then None
                     else Some (ctxerrors.WrapE (ErrShortLimit (Z.of_nat n - Z.of_nat (S p))) "migrate down"), w') /\
    ready w' /\ locked w' = false /\ healthy w' /\
    ver w' = (last_target v (down_plan (down_text ms text) vs p n), false) /\ data w' = d.
Proof.
  intros Hn Hn' Hr Hl Hh Hv Hp Hf Hx. unfold MigrateDown. rewrite (proj2 (Z.leb_gt (Z.of_nat n) 0)) by lia.
  rewrite newMigrator_embedded, Steps_down by lia.
  destruct (readDown_spec src vs _ _ fuel v p n Hp) as (migs & Hm & Hread); [lia|lia|].
  set (tail := if decide (n <= S p)%nat then [] else _) in *.
  assert (is_tail tail) as Ht by (unfold tail; destruct (decide _); [left|right]; eauto).
  destruct (withMigrations_healthy drv usertext apply (fun cur => readDown src fuel cur (Z.of_nat n))
    (MkMigrate w false) v migs (down_plan (down_text ms text) vs p n) tail d)
    as (m' & Hw & (R' & I' & L') & Hh' & V' & D'); try done.
  { apply down_plan_ok. }
  rewrite Hw. simpl. exists (world m'). unfold tail. destruct (decide _); done.
Qed.

Lemma MigrateForce_cases w v :
  -1 <= v -> ready w -> locked w = false ->
  exists e w', MigrateForce host (Some drv) path (Some fsys) v w = (e, w') /\
    ready w' /\ locked w' = false /\ data w' = data w /\
    match e with
    | None => ver w' = (v, false)
    | Some _ => ver w' = ver w \/ ver w' = (v, false)
    end /\ (healthy w -> e = None /\ healthy w').
Proof.
  intros Hv Hr Hl. unfold MigrateForce. rewrite newMigrator_embedded.
  destruct (Force_cases drv usertext apply (MkMigrate w false) v (fresh_free w Hr Hl) Hv)
    as (e & m' & -> & (R' & I' & L') & D' & V' & K).
  destruct e as [e|]; eexists _, (world m'); do 5 (split; [done|]); intros Hh; by destruct (K Hh).
Qed.
End Generic.

(** ** Positions and plans *)

Section Positions.
Context (vs : list Z) (ups downs : Z -> option string).

Lemma at_pos_up v pos k :
  at_pos vs v pos -> (k <= length (drop pos vs))%nat ->
  at_pos vs (last_target v (up_plan ups (take k (drop pos vs)))) (pos + k).
Proof.
  intros Hat Hk. destruct k as [|k]; [by rewrite Nat.add_0_r|].
  destruct (lookup_lt_is_Some_2 (drop pos vs) k) as [x Hx]; [lia|].
  rewrite (take_S_r _ _ _ Hx). unfold last_target, up_plan. rewrite fmap_app, fmap_cons, fmap_nil, last_snoc.
  rewrite Nat.add_succ_r. simpl. by rewrite lookup_drop in Hx.
Qed.

Lemma at_pos_down v p n :
  vs !! p = Some v -> (1 <= n)%nat ->
  at_pos vs (last_target v (down_plan downs vs p n)) (S p - n).
Proof.
  revert v p. induction n as [|n IH]; intros v p Hp Hn; [lia|].
  cbn [down_plan]. rewrite Hp. destruct p as [|p]; [done|].
  destruct (lookup_lt_is_Some_2 vs p) as [u Hu]; [apply lookup_lt_Some in Hp; lia|].
  rewrite Hu, last_target_cons. simpl default. destruct n as [|n].
  - simpl. exact Hu.
  - replace (S (S p) - S (S n))%nat with (S p - S n)%nat by lia. apply IH; [done|lia].
Qed.

Context {D : Type} (apply : string -> D -> option D).

(** Each migration's down text undoes its up text. *)
Definition undoes : Prop := forall v t t' d d',
  v ∈ vs -> exec_step apply (t, ups v) d = Some d' -> exec_step apply (t', downs v) d' = Some d.

Lemma exec_down_up pos p k d d' :
  undoes -> (pos + k = S p)%nat -> (k <= length (drop pos vs))%nat ->
  exec apply (up_plan ups (take k (drop pos vs))) d = Some d' ->
  exec apply (down_plan downs vs p k) d' = Some d.
Proof.
  intros Hu. revert p d'. induction k as [|k IH]; intros p d' Hp Hk Hx.
  { simpl in *. congruence. }
  destruct (lookup_lt_is_Some_2 (drop pos vs) k) as [x Hlx]; [lia|].
  rewrite (take_S_r _ _ _ Hlx) in Hx. unfold up_plan in Hx. rewrite fmap_app, exec_app in Hx.
  destruct (exec apply _ d) as [d1|] eqn:E1; [|done]. simpl in Hx.
  destruct (exec_step apply (x, ups x) d1) as [d2|] eqn:E2; simpl in Hx; simplify_eq.
  rewrite lookup_drop in Hlx. assert (p = pos + k)%nat as -> by lia.
  assert (x ∈ vs) as Hin by by eapply list_elem_of_lookup_2.
  cbn [down_plan]. rewrite Hlx. destruct (pos + k)%nat as [|p'] eqn:Epk.
  - assert (k = 0)%nat as -> by lia. simpl in *. simplify_eq. by rewrite (Hu x x NilVersion _ _ Hin E2).
  - cbn [exec]. rewrite (Hu x x _ _ _ Hin E2). simpl. destruct k as [|k].
    + simpl in *. congruence.
    + apply IH; [lia|lia|done].
Qed.
End Positions.

(** ** SQLite, end to end *)

Section SqliteProofs.
Context {W Tx D : Type} (db : SqlDB W Tx).
Context (sql_exec : string -> list sqlarg -> dbstate D -> option (dbstate D)).
Context (usertext : string -> Prop) (apply : string -> D -> option D).
Context {SS : SqlSemantics sql_exec usertext apply} {SL : SqlDBLaws db sql_exec}.
Context (host : HostFS) (fsys : EmbedFS) (path : string) (es : list DirEntry).
Context (ms : Migrations) (text : string -> string) (E : embeds usertext fsys path es ms text).
Implicit Types (w : W).

Let vs : list Z := index ms.

Abbreviation recorded_version w := (ver_of db sql_exec w).
Abbreviation user_data w := (udata (committed w)).

(** The version table, if there is one, has at most one row. *)
Definition db_ok w : Prop := (length (default [] (vtable (committed w))) <= 1)%nat.

Lemma migrationDriver_cases w r dr :
  db_ok w -> migrationDriver (Some db) w = (r, dr) ->
  recorded_version (sqlDB dr) = recorded_version w /\ user_data (sqlDB dr) = user_data w /\
  flag dr = false /\
  match r with Ok db' => db' = db /\ table_ok db sql_exec (sqlDB dr) | Err _ => True end /\
  (sound w -> sound (sqlDB dr) /\ is_ok r = true).
Proof.
  intros Hok H. unfold migrationDriver in H. destruct (PingContext db w) as [e w1] eqn:E1.
  destruct (Ping_law _ _ _ E1) as [C1 S1]. unfold ver_of, db_ok, table_ok in *.
  destruct e as [e|].
  { simplify_eq. simpl. rewrite C1. do 4 (split; [done|]). intros Hh. by destruct (S1 Hh). }
  destruct (newDriver db w1) as [r1 d1] eqn:E2.
  destruct (newDriver_cases db sql_exec usertext apply _ _ _ E2) as (F2 & U2 & V2 & S2).
  rewrite C1 in *. destruct r1 as [[]|e]; simplify_eq.
  - rewrite V2. split; [by destruct (vtable (committed w))|]. split; [done|]. split; [done|].
    split; [eauto|]. intros Hh. destruct (S1 Hh) as [Hh1 _]. by destruct (S2 Hh1).
  - split; [destruct V2 as [-> | ->]; by destruct (vtable (committed w))|]. split; [done|]. split; [done|].
    split; [done|]. intros Hh. destruct (S1 Hh) as [Hh1 _]. by destruct (S2 Hh1).
Qed.

(** MigrateUp on a database without faults. *)
Lemma sqlite_up_ends fuel w v pos d :
  vs <> [] -> (length vs < fuel)%nat -> db_ok w -> sound w ->
  recorded_version w = (v, false) -> at_pos vs v pos ->
  exec apply (up_plan (up_text ms text) (drop pos vs)) (user_data w) = Some d ->
  exists w', sqlite_MigrateUp host fuel (Some db) path (Some fsys) w = Some (None, w') /\
    user_data w' = d /\ (exists v', last vs = Some v' /\ recorded_version w' = (v', false)) /\
    sound w' /\ db_ok w'.
Proof.
  intros Hne Hf Hok Hs Hv Hat Hx. unfold sqlite_MigrateUp, withDriver.
  destruct (migrationDriver (Some db) w) as [r dr] eqn:E0.
  destruct (migrationDriver_cases _ _ _ Hok E0) as (V0 & U0 & F0 & R0 & S0).
  destruct (S0 Hs) as [Hs0 Hr]. destruct r as [db'|]; [|done]. destruct R0 as [-> T0].
  destruct (MigrateUp_healthy (sqlite_driver db) usertext apply host fsys path es ms text E fuel dr v pos d)
    as (d1 & -> & R1 & L1 & H1 & V1 & D1); simpl in *; [done|done|done|congruence|done|done|done| |].
  { unfold up_rest. by rewrite U0. }
  exists (sqlDB d1). split; [done|]. split; [done|]. split; [|split; [done|]].
  - unfold up_rest in V1. rewrite <- (firstn_all (drop pos (index ms))) in V1.
    pose proof (at_pos_up vs (up_text ms text) v pos (length (drop pos vs)) Hat ltac:(lia)) as Hl.
    rewrite length_drop in Hl. unfold vs in *. rewrite length_drop in V1.
    set (v' := last_target _ _) in *. exists v'. split; [|done].
    rewrite last_lookup. assert (pos <= length (index ms))%nat.
    { destruct pos; [lia|]. simpl in Hat. apply lookup_lt_Some in Hat. lia. }
    replace (pos + (length (index ms) - pos))%nat with (length (index ms)) in Hl by lia.
    destruct (length (index ms)) eqn:El; [by apply nil_length_inv in El|]. exact Hl.
  - destruct R1 as (rows & Hrows & Hlen). unfold db_ok. by rewrite Hrows.
Qed.

(** C14. MigrateUp applies exactly what is pending: on a database without
    faults, at a clean version of the source (or fresh, with or without a
    version table), it returns nil and leaves the latest version recorded as
    clean and the user's data as the pending up texts, run in version order,
    make it. With nothing pending it returns nil and changes nothing. *)
Theorem sqlite_up_applies_pending fuel w v pos d :
  vs <> [] -> (length vs < fuel)%nat -> db_ok w -> sound w ->
  recorded_version w = (v, false) -> at_pos vs v pos ->
  exec apply (up_plan (up_text ms text) (drop pos vs)) (user_data w) = Some d ->
  exists w', sqlite_MigrateUp host fuel (Some db) path (Some fsys) w = Some (None, w') /\
    user_data w' = d /\ (exists v', last vs = Some v' /\ recorded_version w' = (v', false)) /\
    sound w' /\ db_ok w'.
Proof. apply sqlite_up_ends. Qed.

(** C13. A recorded clean version never lies, whatever fails: MigrateUp on a
    clean database always returns, and then, whichever statements, commits or
    lock operations failed and whether or not a failed commit took effect,
    some number of the pending migrations is fully applied and either the
    version recorded is the clean version of exactly those (all of them if nil
    was returned), or an error was returned and the database is marked dirty
    with the version of the next migration, whose text is applied or not. *)
Theorem sqlite_up_crash_safe fuel w v pos :
  vs <> [] -> (length vs < fuel)%nat -> db_ok w ->
  recorded_version w = (v, false) -> at_pos vs v pos ->
  exists e w', sqlite_MigrateUp host fuel (Some db) path (Some fsys) w = Some (e, w') /\
    exists pos' d, (pos <= pos' <= length vs)%nat /\
      exec apply (up_plan (up_text ms text) (take (pos' - pos) (drop pos vs))) (user_data w) = Some d /\
      ((exists v', recorded_version w' = (v', false) /\ at_pos vs v' pos' /\ user_data w' = d /\
          (e = None -> pos' = length vs)) \/
       (exists v', recorded_version w' = (v', true) /\ vs !! pos' = Some v' /\ e <> None /\
          (user_data w' = d \/ exec_step apply (v', up_text ms text v') d = Some (user_data w')))).
Proof.
  intros Hne Hf Hok Hv Hat. unfold sqlite_MigrateUp, withDriver.
  assert (pos <= length vs)%nat as Hpos.
  { destruct pos; [lia|]. simpl in Hat. apply lookup_lt_Some in Hat. lia. }
  destruct (migrationDriver (Some db) w) as [r dr] eqn:E0.
  destruct (migrationDriver_cases _ _ _ Hok E0) as (V0 & U0 & F0 & R0 & _).
  destruct r as [db'|e0].
  2:{ eexists _, _. split; [done|]. exists pos, (user_data w). split; [lia|].
      rewrite Nat.sub_diag. split; [done|]. left. exists v. rewrite V0, U0. done. }
  destruct R0 as [-> T0].
  destruct (MigrateUp_safe (sqlite_driver db) usertext apply host fsys path es ms text E fuel dr v pos)
    as (e & d1 & -> & R1 & L1 & (dn & rest & d & Hplan & Hx & O)); simpl in *;
    [done|done|congruence|done|done|done|].
  assert (exists e', match e with
                     | Some e => Some (ctxerrors.Wrap (Some e) "migrate SQLite up", sqlDB d1)
                     | None => Some (None, sqlDB d1)
                     end = Some (e', sqlDB d1) /\ (e' = None <-> e = None)) as (e' & He & Hee).
  { destruct e; (eexists; split; [done|done]). }
  exists e', (sqlDB d1). split; [exact He|]. rewrite U0 in Hx.
  set (k := length dn). assert (dn = up_plan (up_text ms text) (take k (drop pos vs))) as Hdn.
  { unfold up_plan. rewrite fmap_take. unfold up_rest, up_plan in Hplan. unfold vs, k.
    rewrite Hplan. by rewrite take_app_length. }
  assert (k + length rest = length vs - pos)%nat as Hk.
  { rewrite <- length_drop. unfold k. rewrite <- length_app, <- Hplan. unfold up_rest, up_plan.
    by rewrite length_fmap. }
  exists (pos + k)%nat, d. split; [lia|]. replace (pos + k - pos)%nat with k by lia.
  rewrite <- Hdn. split; [done|].
  destruct O as [(V1 & D1 & Hn)|(s & rest' & -> & V1 & D1 & Hn)]; [left|right].
  - exists (last_target v dn). split; [done|]. split.
    + rewrite Hdn. apply at_pos_up; [done|]. rewrite length_drop. lia.
    + split; [done|]. intros He'. rewrite (Hn (proj1 Hee He')) in Hk. simpl in Hk. lia.
  - assert (up_rest ms text pos !! k = Some s) as Hs.
    { rewrite Hplan, lookup_app_r by lia. by rewrite Nat.sub_diag. }
    unfold up_rest, up_plan in Hs. rewrite list_lookup_fmap, lookup_drop in Hs.
    destruct (index ms !! (pos + k)%nat) as [v'|] eqn:Ev; [|done]. simpl in Hs. simplify_eq.
    exists v'. split; [done|]. split; [done|]. split; [tauto|done].
Qed.

(** C12. A database marked dirty is refused: MigrateUp and MigrateDown return
    an error and change neither the recorded version nor the user's data; on a
    database without faults the error is golang-migrate's ErrDirty with that
    version, wrapped. *)
Theorem sqlite_dirty_refused fuel steps w v :
  0 < steps < 2 ^ 63 -> db_ok w -> recorded_version w = (v, true) ->
  (exists e w', sqlite_MigrateUp host fuel (Some db) path (Some fsys) w = Some (Some e, w') /\
     recorded_version w' = (v, true) /\ user_data w' = user_data w /\
     (sound w -> e = ctxerrors.WrapE (ctxerrors.WrapE (ErrDirty v) "migrate up") "migrate SQLite up")) /\
  (exists e w', sqlite_MigrateDown host fuel (Some db) path steps (Some fsys) w = Some (Some e, w') /\
     recorded_version w' = (v, true) /\ user_data w' = user_data w /\
     (sound w -> e = ctxerrors.WrapE (ctxerrors.WrapE (ErrDirty v) "migrate down") "migrate SQLite down")).
Proof.
  intros Hst Hok Hv. unfold sqlite_MigrateUp, sqlite_MigrateDown, withDriver.
  destruct (migrationDriver (Some db) w) as [r dr] eqn:E0.
  destruct (migrationDriver_cases _ _ _ Hok E0) as (V0 & U0 & F0 & R0 & S0).
  destruct r as [db'|e0].
  2:{ split; eexists _, _; (split; [done|]); (split; [congruence|]); (split; [done|]); intros Hh;
        by destruct (S0 Hh). }
  destruct R0 as [-> T0]. rewrite Hv in V0. split.
  - destruct (MigrateUp_dirty (sqlite_driver db) usertext apply host fsys path es ms text E fuel dr v)
      as (e & d1 & -> & R1 & L1 & V1 & D1 & K1); [done..|]. simpl in *.
    eexists _, (sqlDB d1). split; [done|]. split; [congruence|]. split; [congruence|].
    intros Hh. destruct (S0 Hh) as [Hh0 _]. by destruct (K1 Hh0) as [_ ->].
  - destruct (MigrateDown_dirty (sqlite_driver db) usertext apply host fsys path es ms text E fuel dr v steps)
      as (e & d1 & -> & R1 & L1 & V1 & D1 & K1); [done..|]. simpl in *.
    eexists _, (sqlDB d1). split; [done|]. split; [congruence|]. split; [congruence|].
    intros Hh. destruct (S0 Hh) as [Hh0 _]. by destruct (K1 Hh0) as [_ ->].
Qed.

(** MigrateDown on a database without faults: [n] down texts in reverse order,
    or all of them and an error that says how many were missing. *)
Lemma sqlite_down_reverts fuel w v p (n : nat) d :
  (length vs < fuel)%nat -> db_ok w -> sound w -> (1 <= n)%nat -> Z.of_nat n < 2 ^ 63 ->
  recorded_version w = (v, false) -> vs !! p = Some v ->
  exec apply (down_plan (down_text ms text) vs p n) (user_data w) = Some d ->
  exists e w', sqlite_MigrateDown host fuel (Some db) path (Z.of_nat n) (Some fsys) w = Some (e, w') /\
    user_data w' = d /\ (exists v', recorded_version w' = (v', false) /\ at_pos vs v' (S p - n)) /\
    (e = if decide (n <= S p)%nat then None
         else Some (ctxerrors.WrapE (ctxerrors.WrapE (ErrShortLimit (Z.of_nat n - Z.of_nat (S p)))
                      "migrate down") "migrate SQLite down")) /\
    sound w' /\ db_ok w'.
Proof.
  intros Hf Hok Hs Hn Hn' Hv Hp Hx. unfold sqlite_MigrateDown, withDriver.
  destruct (migrationDriver (Some db) w) as [r dr] eqn:E0.
  destruct (migrationDriver_cases _ _ _ Hok E0) as (V0 & U0 & F0 & R0 & S0).
  destruct (S0 Hs) as [Hs0 Hr]. destruct r as [db'|]; [|done]. destruct R0 as [-> T0].
  destruct (MigrateDown_healthy (sqlite_driver db) usertext apply host fsys path es ms text E fuel dr v p n d)
    as (d1 & -> & R1 & L1 & H1 & V1 & D1); simpl in *; [done|done|done|done|done|congruence|done|done| |].
  { by rewrite U0. }
  exists (if decide (n <= S p)%nat then None
          else Some (ctxerrors.WrapE (ctxerrors.WrapE (ErrShortLimit (Z.of_nat n - Z.of_nat (S p)))
                       "migrate down") "migrate SQLite down")), (sqlDB d1).
  split; [by destruct (decide _)|]. split; [done|]. split; [|split; [done|split; [done|]]].
  - eexists. split; [done|]. by apply at_pos_down.
  - destruct R1 as (rows & Hrows & Hlen). unfold db_ok. by rewrite Hrows.
Qed.

(** C15. Up and down are a round trip: when every down text undoes its up
    text, MigrateUp from a clean position with something pending, followed by
    MigrateDown by the number of migrations it applied, both return nil and
    restore the recorded version and the user's data. *)
Theorem sqlite_up_down_roundtrip fuel w v pos d :
  (length vs < fuel)%nat -> db_ok w -> sound w -> Z.of_nat (length vs) < 2 ^ 63 ->
  recorded_version w = (v, false) -> at_pos vs v pos -> (pos < length vs)%nat ->
  exec apply (up_plan (up_text ms text) (drop pos vs)) (user_data w) = Some d ->
  undoes vs (up_text ms text) (down_text ms text) apply ->
  exists w1 w2, sqlite_MigrateUp host fuel (Some db) path (Some fsys) w = Some (None, w1) /\
    user_data w1 = d /\
    sqlite_MigrateDown host fuel (Some db) path (Z.of_nat (length vs - pos)) (Some fsys) w1
    = Some (None, w2) /\
    user_data w2 = user_data w /\ recorded_version w2 = recorded_version w.
Proof.
  intros Hf Hok Hs Hl Hv Hat Hpos Hx Hu.
  assert (vs <> []) as Hne by (intros ->; simpl in *; lia).
  destruct (sqlite_up_ends fuel w v pos d) as (w1 & H1 & D1 & (v' & Hlast & V1) & S1 & O1); [done..|].
  rewrite last_lookup in Hlast. set (p := pred (length vs)) in *.
  assert (exec apply (down_plan (down_text ms text) vs p (length vs - pos)) (user_data w1) = Some (user_data w))
    as Hdn.
  { rewrite D1. eapply exec_down_up with (pos := pos); [done|unfold p; lia|rewrite length_drop; lia|].
    rewrite take_ge by (rewrite length_drop; lia). done. }
  destruct (sqlite_down_reverts fuel w1 v' p (length vs - pos) (user_data w))
    as (e & w2 & H2 & D2 & (v2 & V2 & At2) & He & _ & _); [done|done|done|lia|lia|done|done|done|].
  rewrite decide_True in He by (unfold p; lia). subst e.
  exists w1, w2. split; [done|]. split; [done|]. split; [done|]. split; [done|].
  rewrite V2, Hv. f_equal. replace (S p - (length vs - pos))%nat with pos in At2 by (unfold p; lia).
  destruct pos as [|pos]; simpl in *; congruence.
Qed.

(** MigrateForce sets the version: to v >= -1 it returns nil on a database
    without faults, and the version is then recorded as clean whatever it was
    before, dirty included; it never touches the user's data, a failure
    leaves the old or the new version, and v < -1 is rejected without any
    change. *)
Theorem sqlite_force_sets_version w v :
  db_ok w ->
  exists e w', sqlite_MigrateForce host (Some db) path v (Some fsys) w = Some (e, w') /\
    user_data w' = user_data w /\
    (recorded_version w' = recorded_version w \/ recorded_version w' = (v, false)) /\
    (e = None -> recorded_version w' = (v, false)) /\
    (sound w -> -1 <= v -> e = None) /\
    (v < -1 -> e <> None /\ recorded_version w' = recorded_version w).
Proof.
  intros Hok. unfold sqlite_MigrateForce, withDriver.
  destruct (migrationDriver (Some db) w) as [r dr] eqn:E0.
  destruct (migrationDriver_cases _ _ _ Hok E0) as (V0 & U0 & F0 & R0 & S0).
  destruct r as [db'|e0].
  2:{ eexists _, _. split; [done|]. split; [done|]. split; [by left|]. split; [done|].
      split; [intros Hh; by destruct (S0 Hh)|done]. }
  destruct R0 as [-> T0]. destruct (Z.ltb_spec v (-1)) as [Hlt|Hge].
  - unfold MigrateForce. rewrite (newMigrator_embedded (sqlite_driver db) usertext host fsys path es ms text E).
    unfold Force. rewrite (proj2 (Z.ltb_lt _ _) Hlt). simpl.
    eexists _, _. split; [done|]. simpl. split; [done|]. split; [by left|]. split; [done|].
    split; [lia|done].
  - destruct (MigrateForce_cases (sqlite_driver db) usertext apply host fsys path es ms text E dr v)
      as (e & d1 & -> & R1 & L1 & D1 & V1 & K1); [done..|]. simpl in *.
    rewrite U0 in D1. rewrite V0 in V1.
    destruct e as [e|]; simpl; eexists _, _; (split; [done|]); (split; [done|]).
    + split; [done|]. split; [done|]. split; [|lia]. intros Hh _. destruct (S0 Hh) as [Hh0 _].
      by destruct (K1 Hh0).
    + split; [by right|]. split; [done|]. split; [done|lia].
Qed.
End SqliteProofs.

(** ** Witnesses: two migrations over a stack of table names *)

Definition demo_files : list DirEntry :=
  [MkDirEntry "1_init.down.sql" false None; MkDirEntry "1_init.up.sql" false None;
   MkDirEntry "2_add.down.sql" false None; MkDirEntry "2_add.up.sql" false None].

Definition demo_text (raw : string) : string :=
  if bool_decide (raw = "1_init.up.sql") then "+users"
  else if bool_decide (raw = "1_init.down.sql") then "-users"
  else if bool_decide (raw = "2_add.up.sql") then "+orders" else "-orders".

Definition demo_fs : EmbedFS :=
  MkFS (fun _ => Ok demo_files) (fun _ raw => Ok (MkReader (demo_text raw) None)).
Definition demo_host : HostFS := MkHost (fun _ => Some (Sentinel ErrNotExist)) (fun _ => Err (Sentinel ErrNotExist)).
Definition demo_ms : Migrations :=
  Eval vm_compute in match Init (Ok demo_files) with Ok ms => ms | Err _ => NewMigrations end.

Lemma demo_embeds : embeds MemDB.stack_text demo_fs "migrations" demo_files demo_ms demo_text.
Proof.
  assert (Hall : forall m, parsed demo_files m ->
    MigrateSource.Version m <= 2 /\ MemDB.stack_text (demo_text (Raw m))).
  { intros m (e & He & _ & Hp). unfold demo_files in He.
    repeat (apply elem_of_cons in He as [-> | He]; [vm_compute in Hp; injection Hp as <-; split; [vm_compute; discriminate|vm_compute; tauto]|]).
    by apply not_elem_of_nil in He. }
  constructor; [reflexivity|vm_compute; reflexivity|intros m Hm; destruct (Hall m Hm); lia|done|].
  intros m Hm. by destruct (Hall m Hm).
Qed.

(** A database at the given version row, with the given tables and faults. *)
Definition demo_at (rows : option (list (Z * bool))) (tables : list string) (fs : list fault) : MemDB.mem :=
  MemDB.MkMem (MkDB rows tables) None fs.

Lemma sqlite_up_applies_pending_witness :
  exists w', sqlite_MigrateUp demo_host 3 (Some demo_sql) "migrations" (Some demo_fs)
               (demo_at (Some [(1, false)]) ["users"%string] []) = Some (None, w') /\
    udata (MemDB.cdb w') = ["orders"%string; "users"%string].
Proof.
  destruct (sqlite_up_applies_pending demo_sql MemDB.stack_exec MemDB.stack_text MemDB.stack_apply
    demo_host demo_fs "migrations" demo_files demo_ms demo_text demo_embeds 3
    (demo_at (Some [(1, false)]) ["users"%string] []) 1 1 ["orders"%string; "users"%string])
    as (w' & H & U & _); [discriminate|simpl; lia|unfold db_ok; simpl; lia|constructor|reflexivity|reflexivity
                         |vm_compute; reflexivity|].
  exists w'. split; [exact H|exact U].
Defined.

Lemma sqlite_up_crash_safe_witness :
  exists e w', sqlite_MigrateUp demo_host 3 (Some demo_sql) "migrations" (Some demo_fs)
                 (demo_at None [] [Works; Works; Works; Works; Works; Works; FailsAfter])
               = Some (e, w') /\
    exists pos' d, (0 <= pos' <= 2)%nat /\
      exec MemDB.stack_apply (up_plan (up_text demo_ms demo_text) (take (pos' - 0) (drop 0 (index demo_ms)))) []
      = Some d.
Proof.
  destruct (sqlite_up_crash_safe demo_sql MemDB.stack_exec MemDB.stack_text MemDB.stack_apply
    demo_host demo_fs "migrations" demo_files demo_ms demo_text demo_embeds 3
    (demo_at None [] [Works; Works; Works; Works; Works; Works; FailsAfter]) (-1) 0)
    as (e & w' & H & pos' & d & Hp & Hx & _);
    [discriminate|simpl; lia|unfold db_ok; simpl; lia|reflexivity|reflexivity|].
  exists e, w'. split; [exact H|]. exists pos', d. split; [exact Hp|exact Hx].
Defined.

Lemma sqlite_dirty_refused_witness :
  exists e w', sqlite_MigrateUp demo_host 3 (Some demo_sql) "migrations" (Some demo_fs)
                 (demo_at (Some [(2, true)]) ["users"%string] []) = Some (Some e, w') /\
    udata (MemDB.cdb w') = ["users"%string].
Proof.
  destruct (sqlite_dirty_refused demo_sql MemDB.stack_exec MemDB.stack_text MemDB.stack_apply
    demo_host demo_fs "migrations" demo_files demo_ms demo_text demo_embeds 3 1
    (demo_at (Some [(2, true)]) ["users"%string] []) 2)
    as [(e & w' & H & _ & U & _) _]; [lia|unfold db_ok; simpl; lia|reflexivity|].
  exists e, w'. split; [exact H|exact U].
Defined.

Lemma demo_undoes :
  undoes (index demo_ms) (up_text demo_ms demo_text) (down_text demo_ms demo_text) MemDB.stack_apply.
Proof.
  intros v t t' d d' Hv H. change (index demo_ms) with [1; 2] in Hv.
  assert (v = 1 \/ v = 2) as [-> | ->] by set_solver; vm_compute in H; injection H as <-; vm_compute; reflexivity.
Qed.

Lemma sqlite_up_down_roundtrip_witness :
  exists w1 w2, sqlite_MigrateUp demo_host 3 (Some demo_sql) "migrations" (Some demo_fs)
                  (demo_at None [] []) = Some (None, w1) /\
    sqlite_MigrateDown demo_host 3 (Some demo_sql) "migrations" 2 (Some demo_fs) w1 = Some (None, w2) /\
    udata (MemDB.cdb w2) = [].
Proof.
  destruct (sqlite_up_down_roundtrip demo_sql MemDB.stack_exec MemDB.stack_text MemDB.stack_apply
    demo_host demo_fs "migrations" demo_files demo_ms demo_text demo_embeds 3
    (demo_at None [] []) (-1) 0 ["orders"%string; "users"%string])
    as (w1 & w2 & H1 & _ & H2 & U & _);
    [simpl; lia|unfold db_ok; simpl; lia|constructor|reflexivity|reflexivity|reflexivity|simpl; lia
    |vm_compute; reflexivity|exact demo_undoes|].
  exists w1, w2. split; [exact H1|]. split; [exact H2|exact U].
Defined.

Lemma sqlite_force_sets_version_witness :
  exists e w', sqlite_MigrateForce demo_host (Some demo_sql) "migrations" 1 (Some demo_fs)
                 (demo_at (Some [(2, true)]) ["users"%string] [Fails]) = Some (e, w') /\
    udata (MemDB.cdb w') = ["users"%string].
Proof.
  destruct (sqlite_force_sets_version demo_sql MemDB.stack_exec MemDB.stack_text MemDB.stack_apply
    demo_host demo_fs "migrations" demo_files demo_ms demo_text demo_embeds
    (demo_at (Some [(2, true)]) ["users"%string] [Fails]) 1) as (e & w' & H & U & _);
    [unfold db_ok; simpl; lia|].
  exists e, w'. split; [exact H|exact U].
Defined.
