(* ===== verification/MigrateTo.v ===== *)
(** * golang-migrate: the rest of the engine

    The operations of migrate.go that db/migrate.go does not call: Migrate to a
    chosen version, Down, Run, Drop and Version, over the reader, the runner
    and the locking of MigrateEngine.v. *)

From stdpp Require Import base option list gmap strings sorting.
From Stdlib Require Import ZArith Lia.
From S2P Require Import Prelude GoErrors MigrateSource MigrateEngine SqliteDriver DbMigrate.

Open Scope Z_scope.

Definition ErrNilVersion : string := "no migration".

Section ReaderTo.
Context (src : Source).

(** The two loops of read. *)
Fixpoint read_up_loop (fuel : nat) (from to : Z) : option (list (error + migration)) :=
  match fuel with
  | O => None
  | S fuel' =>
    if from <? to then
      uv ← suint from;
      match SNext src uv with
      | Err err => Some [inl err]
      | Ok next => schedule src next (wrap64 next) (read_up_loop fuel' (wrap64 next) to)
      end
    else Some []
  end.

Fixpoint read_down_loop (fuel : nat) (from to : Z) : option (list (error + migration)) :=
  match fuel with
  | O => None
  | S fuel' =>
    if (to <? from) && (0 <=? from) then
      uv ← suint from;
      match SPrev src uv with
      | Err err =>
        if ctxerrors.Is err ErrNotExist && (to =? -1)
        then schedule src uv (-1) (Some [])
        else Some [inl err]
      | Ok prev => schedule src uv (wrap64 prev) (read_down_loop fuel' (wrap64 prev) to)
      end
    else Some []
  end.

Definition read (fuel : nat) (from to : Z) : option (list (error + migration)) :=
  checked src from (checked src to (
    if from =? to then Some [inl (Sentinel ErrNoChange)]
    else if from <? to then
      if from =? -1 then
        match SFirst src with
        | Err err => Some [inl err]
        | Ok firstVersion =>
          schedule src firstVersion (wrap64 firstVersion)
            (read_up_loop fuel (wrap64 firstVersion) to)
        end
      else read_up_loop fuel from to
    else read_down_loop fuel from to)).
End ReaderTo.

Section EngineTo.
Context {W : Type} (src : Source) (drv : Driver W).

(** Migrate: the uint argument becomes an int. *)
Definition MigrateTo (fuel : nat) (version : Z) : Migrate W -> option (option error * Migrate W) :=
  withMigrations drv (fun curVersion => read src fuel curVersion (wrap64 version)).

Definition Down (fuel : nat) : Migrate W -> option (option error * Migrate W) :=
  withMigrations drv (fun curVersion => readDown src fuel curVersion (-1)).

(** Run takes the migrations from its caller. *)
Definition RunAll (migrations : list migration) (m : Migrate W) : option (option error * Migrate W) :=
  match migrations with
  | [] => Some (Some (Sentinel ErrNoChange), m)
  | _ => withMigrations drv (fun _ => Some (inr <$> migrations)) m
  end.

(** Drop, for the driver's Drop. *)
Definition DropAll (drop : io W (option error)) (m : Migrate W) : option error * Migrate W :=
  let '(err, m) := lock drv m in
  match err with
  | Some e => (Some e, m)
  | None =>
    let '(err, m) := on_world drop m in
    match err with
    | Some e => unlockErr drv (Some e) m
    | None => unlock drv m
    end
  end.

(** Version; [None] is the panic of suint. *)
Definition Version (m : Migrate W) : option (gores (Z * bool)) * Migrate W :=
  let '(r, m) := on_world (DVersion drv) m in
  (match r with
   | Err e => Some (Err e)
   | Ok (v, d) =>
     if v =? NilVersion then Some (Err (Sentinel ErrNilVersion))
     else uv ← suint v; Some (Ok (uv, d))
   end, m).
End EngineTo.

(** ** What is read *)

Section ReaderToProofs.
Context (src : Source) (vs : list Z) (ups downs : Z -> option string).
Context {SL : SourceLaws src vs ups downs}.

Lemma versions_lt p q u w : vs !! p = Some u -> vs !! q = Some w -> (p < q)%nat -> u < w.
Proof. intros Hp Hq Hlt. eapply (sorted_lookup_lt vs p q); [apply src_sorted|done..]. Qed.

(** From version [v] at position [p] up to version [t] at position [q]. *)
Lemma read_up_loop_spec fuel q t : forall p v,
  vs !! p = Some v -> vs !! q = Some t -> (p <= q)%nat -> (q - p < fuel)%nat ->
  exists migs, Forall2 carries migs (up_plan ups (take (q - p) (drop (S p) vs))) /\
    read_up_loop src fuel v t = Some (inr <$> migs).
Proof.
  induction fuel as [|fuel IH]; intros p v Hp Hq Hle Hf; [lia|]. cbn [read_up_loop].
  destruct (decide (p = q)) as [->|Hne].
  - assert (v = t) as -> by congruence. rewrite Z.ltb_irrefl. exists [].
    rewrite Nat.sub_diag. split; [constructor|done].
  - rewrite (proj2 (Z.ltb_lt v t)) by (eapply (versions_lt p q); [done..|lia]).
    rewrite (suint_version src vs ups downs p v Hp). simpl mbind.
    destruct (lookup_lt_is_Some_2 vs (S p)) as [w Hw]; [apply lookup_lt_Some in Hq; lia|].
    pose proof (src_next p v Hp) as Hn. rewrite Hw in Hn. simpl in Hn. rewrite Hn.
    destruct (schedule_up src vs ups downs (S p) w (read_up_loop src fuel (wrap64 w) t) Hw)
      as (mg & Hmg & ->).
    rewrite (wrap64_version src vs ups downs (S p) w Hw).
    destruct (IH (S p) w Hw Hq) as (migs & Hm & ->); [lia|lia|].
    exists (mg :: migs). split; [|done]. rewrite (drop_S _ _ _ Hw).
    replace (q - p)%nat with (S (q - S p)) by lia. simpl. by constructor.
Qed.

(** From version [v] at position [p] down to version [t] at position [q]. *)
Lemma read_down_loop_spec fuel q t : forall p v,
  vs !! p = Some v -> vs !! q = Some t -> (q <= p)%nat -> (p - q < fuel)%nat ->
  exists migs, Forall2 carries migs (down_plan downs vs p (p - q)) /\
    read_down_loop src fuel v t = Some (inr <$> migs).
Proof.
  induction fuel as [|fuel IH]; intros p v Hp Hq Hle Hf; [lia|]. cbn [read_down_loop].
  pose proof (src_in_range src vs ups downs p v Hp).
  destruct (decide (p = q)) as [->|Hne].
  - assert (v = t) as -> by congruence. rewrite Z.ltb_irrefl. exists [].
    rewrite Nat.sub_diag. split; [|done]. by destruct q; constructor.
  - assert (t < v) as Htv by (eapply (versions_lt q p); [done..|lia]).
    rewrite (proj2 (Z.ltb_lt t v) Htv), (proj2 (Z.leb_le 0 v)) by lia. simpl andb. cbv iota.
    rewrite (suint_version src vs ups downs p v Hp). simpl mbind.
    destruct p as [|p]; [lia|].
    destruct (lookup_lt_is_Some_2 vs p) as [u Hu]; [apply lookup_lt_Some in Hp; lia|].
    pose proof (src_prev (S p) v Hp) as Hpr. simpl in Hpr. rewrite Hu in Hpr. simpl in Hpr.
    rewrite Hpr, (wrap64_version src vs ups downs p u Hu).
    assert (u < v) as Huv by (eapply (versions_lt p (S p)); [done..|lia]).
    destruct (schedule_down src vs ups downs (S p) v u (read_down_loop src fuel u t) Hp Huv)
      as (mg & Hmg & ->).
    destruct (IH p u Hu Hq) as (migs & Hm & ->); [lia|lia|].
    exists (mg :: migs). split; [|done].
    replace (S p - q)%nat with (S (p - q)) by lia. cbn [down_plan]. rewrite Hp, Hu. by constructor.
Qed.

(** The plan from [pos] applied migrations to the version at position [q]. *)
Definition plan_to (pos q : nat) : list pstep :=
  if decide (pos <= S q)%nat then up_plan ups (take (S q - pos) (drop pos vs))
  else down_plan downs vs (pos - 1) (pos - S q).

Lemma read_spec fuel v pos q t :
  at_pos vs v pos -> vs !! q = Some t -> (length vs < fuel)%nat ->
  exists migs, Forall2 carries migs (plan_to pos q) /\
    read src fuel v t = Some ((inr <$> migs) ++
      (if decide (pos = S q) then [inl (Sentinel ErrNoChange)] else [])).
Proof.
  intros Hat Hq Hf. pose proof (src_in_range src vs ups downs q t Hq) as Ht.
  pose proof (lookup_lt_Some _ _ _ Hq). unfold read, plan_to.
  rewrite (checked_at src vs ups downs v pos) by done.
  rewrite (checked_at src vs ups downs t (S q)) by done.
  destruct pos as [|p]; simpl in Hat.
  - subst v. change (NilVersion) with (-1). rewrite (proj2 (Z.eqb_neq _ _)) by lia.
    rewrite (proj2 (Z.ltb_lt _ _)) by lia. simpl Z.eqb. cbv iota.
    rewrite decide_True, (decide_False (P := 0%nat = S q)) by lia.
    pose proof (src_first : finds (SFirst src) (vs !! 0%nat)) as Hfst.
    destruct (vs !! 0%nat) as [u|] eqn:Hu; [|apply lookup_ge_None in Hu; lia].
    simpl in Hfst. rewrite Hfst.
    destruct (schedule_up src vs ups downs 0 u (read_up_loop src fuel (wrap64 u) t) Hu) as (mg & Hmg & ->).
    rewrite (wrap64_version src vs ups downs 0 u Hu).
    destruct (read_up_loop_spec fuel q t 0 u Hu Hq) as (migs & Hm & ->); [lia|lia|].
    exists (mg :: migs). rewrite app_nil_r. split; [|done]. rewrite (drop_S _ _ _ Hu). simpl.
    rewrite Nat.sub_0_r in Hm. by constructor.
  - pose proof (src_in_range src vs ups downs p v Hat) as Hv.
    pose proof (lookup_lt_Some _ _ _ Hat). destruct (decide (S p = S q)) as [[= ->]|Hne].
    + assert (v = t) as -> by congruence. rewrite Z.eqb_refl, decide_True by lia.
      exists []. rewrite Nat.sub_diag. split; [constructor|done].
    + rewrite (proj2 (Z.eqb_neq v t)).
      2: { intros ->. apply Hne. f_equal. destruct (Nat.lt_trichotomy p q) as [Hl|[|Hl]]; [|done|].
           - pose proof (versions_lt _ _ _ _ Hat Hq Hl). lia.
           - pose proof (versions_lt _ _ _ _ Hq Hat Hl). lia. }
      setoid_rewrite app_nil_r. case_decide as Hle.
      * assert (v < t) by (eapply (versions_lt p q); [done..|lia]).
        rewrite (proj2 (Z.ltb_lt v t)), (proj2 (Z.eqb_neq v (-1))) by lia.
        apply (read_up_loop_spec fuel q t p v Hat Hq); lia.
      * rewrite (proj2 (Z.ltb_ge v t)) by (apply Z.lt_le_incl; eapply (versions_lt q p); [done..|lia]).
        simpl. rewrite Nat.sub_0_r. apply (read_down_loop_spec fuel q t p v Hat Hq); lia.
Qed.

(** Everything from position [p] down. *)
Lemma readDown_loop_all fuel : forall p v count,
  vs !! p = Some v -> (p < fuel)%nat -> 0 <= count ->
  exists migs, Forall2 carries migs (down_plan downs vs p (S p)) /\
    readDown_loop src fuel v (-1) count = Some (inr <$> migs).
Proof.
  induction fuel as [|fuel IH]; intros p v count Hp Hf Hc; [lia|]. cbn [readDown_loop].
  rewrite orb_true_r, (suint_version src vs ups downs p v Hp). simpl mbind.
  pose proof (src_in_range src vs ups downs p v Hp). pose proof (src_prev p v Hp) as Hpr.
  destruct p as [|p]; simpl in Hpr.
  - destruct Hpr as (e & -> & ->). simpl orb. cbv iota.
    pose proof (src_first : finds (SFirst src) (vs !! 0%nat)) as Hfst.
    rewrite Hp in Hfst. simpl in Hfst. rewrite Hfst.
    rewrite (proj2 (Z.ltb_ge (count + 1) (-1))) by lia.
    destruct (schedule_down src vs ups downs 0 v (-1) (Some []) Hp ltac:(lia)) as (mg & Hmg & ->).
    exists [mg]. simpl. rewrite Hp. split; [|done]. by repeat constructor; apply Hmg.
  - destruct (lookup_lt_is_Some_2 vs p) as [u Hu]; [apply lookup_lt_Some in Hp; lia|].
    rewrite Hu in Hpr. simpl in Hpr. rewrite Hpr, (wrap64_version src vs ups downs p u Hu).
    assert (u < v) as Huv by (eapply (versions_lt p (S p)); [done..|lia]).
    destruct (schedule_down src vs ups downs (S p) v u (readDown_loop src fuel u (-1) (count + 1)) Hp Huv)
      as (mg & Hmg & ->).
    destruct (IH p u (count + 1) Hu) as (migs & Hm & ->); [lia|lia|].
    exists (mg :: migs). split; [|done]. cbn [down_plan] in *. rewrite Hp, Hu in *. by constructor.
Qed.

Lemma readDown_all_spec fuel v p :
  vs !! p = Some v -> (length vs < fuel)%nat ->
  exists migs, Forall2 carries migs (down_plan downs vs p (S p)) /\
    readDown src fuel v (-1) = Some (inr <$> migs).
Proof.
  intros Hp Hf. unfold readDown. rewrite (checked_at src vs ups downs v (S p)) by done.
  pose proof (src_in_range src vs ups downs p v Hp). pose proof (lookup_lt_Some _ _ _ Hp).
  rewrite (proj2 (Z.eqb_neq v (-1))) by lia. simpl.
  apply readDown_loop_all; [done|lia|lia].
Qed.

Lemma plan_to_end v pos q t : at_pos vs v pos -> vs !! q = Some t ->
  last_target v (plan_to pos q) = t.
Proof.
  intros Hat Hq. pose proof (lookup_lt_Some _ _ _ Hq). unfold plan_to. case_decide as Hle.
  - pose proof (at_pos_up vs ups v pos (S q - pos) Hat) as H'.
    rewrite length_drop in H'. specialize (H' ltac:(lia)).
    replace (pos + (S q - pos))%nat with (S q) in H' by lia. unfold at_pos in H'. congruence.
  - destruct pos as [|p]; [lia|]. simpl in Hat. rewrite Nat.sub_succ, Nat.sub_0_r.
    pose proof (at_pos_down vs downs v p (S p - S q) Hat ltac:(lia)) as H'.
    replace (S p - (S p - S q))%nat with (S q) in H' by lia. unfold at_pos in H'. congruence.
Qed.
End ReaderToProofs.

(** ** What the operations do *)

Section EngineToProofs.
Context {W D : Type} (src : Source) (drv : Driver W) (usertext : string -> Prop).
Context (apply : string -> D -> option D) {DL : DriverLaws drv usertext apply}.
Context (vs : list Z) (ups downs : Z -> option string) {SL : SourceLaws src vs ups downs}.
Context (user_texts : forall v text, ups v = Some text \/ downs v = Some text -> usertext text).
Implicit Types m : Migrate W.

Lemma up_steps_ok l : Forall (fun v => 0 <= v < 2 ^ 63) l -> Forall (okstep usertext) (up_plan ups l).
Proof.
  intros Hl. apply Forall_fmap. eapply Forall_impl; [done|]. intros v [Hv _]. split; [simpl; lia|]. simpl.
  destruct (ups v) eqn:E; [|done]. eauto.
Qed.

Lemma down_steps_ok n : forall p, Forall (okstep usertext) (down_plan downs vs p n).
Proof.
  induction n as [|n IH]; intros p; [done|]. cbn [down_plan].
  destruct (vs !! p) as [v|] eqn:Hp; [|done].
  assert (match downs v with Some t => usertext t | None => True end) as Hu.
  { destruct (downs v) eqn:E; [|done]. eauto. }
  destruct p as [|p]; [by repeat constructor|]. constructor; [|apply IH]. split; [|done]. simpl.
  destruct (vs !! p) as [u|] eqn:Hpu; [|done]. simpl. pose proof (src_in_range src vs ups downs p u Hpu). lia.
Qed.

Lemma plan_to_ok pos q : Forall (okstep usertext) (plan_to vs ups downs pos q).
Proof.
  unfold plan_to. case_decide; [|apply down_steps_ok]. apply up_steps_ok, Forall_take, Forall_drop, src_range.
Qed.

(** Migrate goes to the version it is given: from a clean database at any
    version of the source to any other, up or down, through the versions in
    between in order.  Under faults it releases the lock and leaves the database at
    a step of that way, clean, or dirty with the version whose text failed; a
    database without faults whose texts apply arrives. *)
Theorem migrate_to_version fuel m v pos q t :
  free drv usertext apply m -> ver (world m) = (v, false) -> at_pos vs v pos -> vs !! q = Some t ->
  (length vs < fuel)%nat ->
  exists e m', MigrateTo src drv fuel t m = Some (e, m') /\ free drv usertext apply m' /\
    outcome drv usertext apply v (data (world m)) (plan_to vs ups downs pos q) e (world m') /\
    (forall d, healthy (world m) -> exec apply (plan_to vs ups downs pos q) (data (world m)) = Some d ->
       e = (if decide (pos = S q) then Some (Sentinel ErrNoChange) else None) /\
       ver (world m') = (t, false) /\ data (world m') = d).
Proof.
  intros Hf Hv Hat Hq Hfuel.
  destruct (read_spec src vs ups downs fuel v pos q t Hat Hq Hfuel) as (migs & Hm & Hr).
  rewrite <- (wrap64_version src vs ups downs q t Hq) in Hr at 1.
  set (tail := if decide (pos = S q) then [inl (Sentinel ErrNoChange)] else []) in Hr.
  assert (is_tail tail) as Ht by (unfold tail, is_tail; case_decide; eauto).
  destruct (withMigrations_safe drv usertext apply
    (fun cur => read src fuel cur (wrap64 t)) m v migs _ tail Hf Hv Hr Hm (plan_to_ok pos q) Ht)
    as (e & m' & E & F & O & _).
  exists e, m'. split; [exact E|]. split; [done|]. split; [done|]. intros d Hh Hx.
  destruct (withMigrations_healthy drv usertext apply
    (fun cur => read src fuel cur (wrap64 t)) m v migs _ tail d Hf Hh Hv Hr Hm (plan_to_ok pos q) Ht Hx)
    as (m2 & E2 & _ & _ & V2 & D2).
  rewrite E in E2. injection E2 as -> ->. rewrite (plan_to_end vs ups downs v pos q t Hat Hq) in V2.
  split; [|done]. unfold tail. by case_decide.
Qed.

(** Down takes a clean database back to before the first migration. *)
Theorem down_reverts_all fuel m v p d :
  free drv usertext apply m -> healthy (world m) -> ver (world m) = (v, false) -> vs !! p = Some v ->
  (length vs < fuel)%nat ->
  exec apply (down_plan downs vs p (S p)) (data (world m)) = Some d ->
  exists m', Down src drv fuel m = Some (None, m') /\ free drv usertext apply m' /\
    ver (world m') = (NilVersion, false) /\ data (world m') = d.
Proof.
  intros Hf Hh Hv Hp Hfuel Hx.
  destruct (readDown_all_spec src vs ups downs fuel v p Hp Hfuel) as (migs & Hm & Hr).
  rewrite <- (app_nil_r (inr <$> migs)) in Hr.
  destruct (withMigrations_healthy drv usertext apply
    (fun cur => readDown src fuel cur (-1)) m v migs _ [] d Hf Hh Hv Hr Hm (down_steps_ok _ p)
    (or_introl eq_refl) Hx) as (m' & E & F & _ & V & Dd).
  exists m'. split; [exact E|]. split; [done|]. split; [|done]. rewrite V.
  pose proof (at_pos_down vs downs v p (S p) Hp ltac:(lia)) as H'. rewrite Nat.sub_diag in H'.
  unfold at_pos in H'. by rewrite H'.
Qed.
End EngineToProofs.

(** ** Witness: back from the second migration to the first *)

Definition demo_source : Source := iofs (OpenAt demo_fs "migrations") demo_ms.

#[local] Instance demo_source_laws :
  SourceLaws demo_source (index demo_ms) (up_text demo_ms demo_text) (down_text demo_ms demo_text).
Proof. exact (emb_laws _ _ _ _ _ _ demo_embeds). Qed.

Lemma demo_user_texts v text :
  up_text demo_ms demo_text v = Some text \/ down_text demo_ms demo_text v = Some text ->
  MemDB.stack_text text.
Proof.
  unfold up_text, down_text, texts. pose proof (find_user _ _ _ _ _ _ demo_embeds) as Hu.
  intros [H|H]; [destruct (UpOf demo_ms v) eqn:E|destruct (DownOf demo_ms v) eqn:E];
    simpl in H; try discriminate H; injection H as <-; by eapply Hu.
Qed.

Lemma migrate_to_version_witness :
  exists m', MigrateTo demo_source (sqlite_driver demo_sql) 3 1
      (MkMigrate (MkDrv (demo_at (Some [(2, false)]) ["orders"%string; "users"%string] []) false) false)
    = Some (None, m') /\ udata (MemDB.cdb (sqlDB (world m'))) = ["users"%string].
Proof.
  destruct (migrate_to_version demo_source (sqlite_driver demo_sql) MemDB.stack_text MemDB.stack_apply
    (index demo_ms) (up_text demo_ms demo_text) (down_text demo_ms demo_text) demo_user_texts 3
    (MkMigrate (MkDrv (demo_at (Some [(2, false)]) ["orders"%string; "users"%string] []) false) false)
    2 2 0 1) as (e & m' & E & _ & _ & Hh).
  - split; [|done]. exists [(2, false)]. split; [reflexivity|simpl; lia].
  - reflexivity.
  - reflexivity.
  - reflexivity.
  - simpl. lia.
  - destruct (Hh ["users"%string]) as (-> & _ & Hd); [constructor|vm_compute; reflexivity|].
    exists m'. split; [exact E|exact Hd].
Defined.
