(* ===== verification/AppRunner.v ===== *)
(** * app-runner/app_runner.go: running and stopping an application

    Run starts the application in a goroutine, waits for a signal or for the
    application to return, calls Stop in a second goroutine and waits for both
    under a deadline, while a third goroutine turns the wait group into a
    channel.  The model is the step relation of these goroutines and of their
    channels: one rule per blocking point of the code, in any interleaving.
    What the application's Run and Stop return, whether and when they return,
    when signals arrive and when the deadline passes is left open.  The steps of
    the program itself and of the clock are told apart from those of its environment
    ([own]), so that nothing is said to happen because a signal might come. *)

From stdpp Require Import base option list strings relations.
From Stdlib Require Import ZArith Lia.
From S2P Require Import Prelude GoErrors.

Definition ErrShutdownTimeout : error := Sentinel "shutdown timeout".
Definition Canceled : error := Sentinel "context canceled".
Definition DeadlineExceeded : string := "context deadline exceeded".

(** The goroutine of runApp: in runnable.Run, after sending its result, after
    closing the channel, after wg.Done. *)
Inductive runState : Type := RRunning | RSent | RClosed | RDone.

#[export] Instance runState_eq_dec : EqDecision runState.
Proof. solve_decision. Defined.

(** The goroutine that calls Stop: not started, in runnable.Stop, after it has
    reported its error, after wg.Done. *)
Inductive stopState : Type := SNone | SRunning | SSent | SDone.

(** The calling goroutine: in waitForShutdown, in the select of
    performGracefulShutdown, returned. *)
Inductive mainState : Type :=
| MWaiting
| MShutdown (shutdownErr : option error)
| MReturned (shutdownErr : option error) (result : option error).

(** The goroutine that closes doneCh: not started, in wg.Wait, after close. *)
Inductive waitState : Type := WNone | WWaiting | WClosed.

Record state : Type := MkState {
  mainG : mainState;
  runG : runState;
  stopG : stopState;
  waitG : waitState;
  wg : nat;
  sigCh : bool;
  errCh : list (option error);
  errChClosed : bool;
  stopErrCh : list error;
  ctxErr : option error;
  runResult : option (option error);
  stopResult : option (option error)
}.

(** run: the channels are made, the application is started. *)
Definition init : state :=
  MkState MWaiting RRunning SNone WNone 1 false [] false [] None None None.

Section Runner.
(** error.Error() *)
Context (text : error -> string).

(** waitForShutdown is done: performGracefulShutdown makes the context, adds to
    the wait group and starts its two goroutines. *)
Definition shutdown (s : state) (shutdownErr : option error) (sig : bool) (ch : list (option error)) : state :=
  MkState (MShutdown shutdownErr) (runG s) SRunning WWaiting (S (wg s)) sig ch (errChClosed s)
          [] None (runResult s) None.

(** What performGracefulShutdown returns when the context is done first. *)
Definition ctxResult (shutdownErr : option error) (err : error) : option error :=
  if ctxerrors.Is err DeadlineExceeded then Some ErrShutdownTimeout
  else match shutdownErr with
       | Some _ => ctxerrors.Wrap shutdownErr (text err)
       | None => ctxerrors.Wrap (Some err) "shutdown error"
       end.

Definition return_ (s : state) (shutdownErr result : option error) : state :=
  MkState (MReturned shutdownErr result) (runG s) (stopG s) (waitG s) (wg s) (sigCh s) (errCh s)
          (errChClosed s) (stopErrCh s) (ctxErr s) (runResult s) (stopResult s).

Inductive step : state -> state -> Prop :=
(* the operating system delivers a signal into the channel's one slot *)
| step_signal s :
    sigCh s = false ->
    step s (MkState (mainG s) (runG s) (stopG s) (waitG s) (wg s) true (errCh s) (errChClosed s)
              (stopErrCh s) (ctxErr s) (runResult s) (stopResult s))
(* runApp *)
| step_run_returns s err :
    runG s = RRunning -> errCh s = [] ->
    step s (MkState (mainG s) RSent (stopG s) (waitG s) (wg s) (sigCh s) [err] (errChClosed s)
              (stopErrCh s) (ctxErr s) (Some err) (stopResult s))
| step_run_close s :
    runG s = RSent ->
    step s (MkState (mainG s) RClosed (stopG s) (waitG s) (wg s) (sigCh s) (errCh s) true
              (stopErrCh s) (ctxErr s) (runResult s) (stopResult s))
| step_run_done s :
    runG s = RClosed ->
    step s (MkState (mainG s) RDone (stopG s) (waitG s) (pred (wg s)) (sigCh s) (errCh s) (errChClosed s)
              (stopErrCh s) (ctxErr s) (runResult s) (stopResult s))
(* waitForShutdown *)
| step_main_signal s :
    mainG s = MWaiting -> sigCh s = true -> step s (shutdown s None false (errCh s))
| step_main_err s err rest :
    mainG s = MWaiting -> errCh s = err :: rest -> step s (shutdown s err (sigCh s) rest)
| step_main_closed s :
    mainG s = MWaiting -> errCh s = [] -> errChClosed s = true -> step s (shutdown s None (sigCh s) [])
(* the goroutine that calls Stop *)
| step_stop_ok s :
    stopG s = SRunning ->
    step s (MkState (mainG s) (runG s) SSent (waitG s) (wg s) (sigCh s) (errCh s) (errChClosed s)
              (stopErrCh s) (ctxErr s) (runResult s) (Some None))
| step_stop_err s err :
    stopG s = SRunning -> stopErrCh s = [] ->
    step s (MkState (mainG s) (runG s) SSent (waitG s) (wg s) (sigCh s) (errCh s) (errChClosed s)
              [err] (ctxErr s) (runResult s) (Some (Some err)))
| step_stop_done s :
    stopG s = SSent ->
    step s (MkState (mainG s) (runG s) SDone (waitG s) (pred (wg s)) (sigCh s) (errCh s) (errChClosed s)
              (stopErrCh s) (ctxErr s) (runResult s) (stopResult s))
(* the goroutine that waits for the group *)
| step_wait s :
    waitG s = WWaiting -> wg s = 0 ->
    step s (MkState (mainG s) (runG s) (stopG s) WClosed (wg s) (sigCh s) (errCh s) (errChClosed s)
              (stopErrCh s) (ctxErr s) (runResult s) (stopResult s))
(* the deadline; the parent context is only cancelled after Run has returned *)
| step_deadline s e :
    mainG s = MShutdown e -> ctxErr s = None ->
    step s (MkState (mainG s) (runG s) (stopG s) (waitG s) (wg s) (sigCh s) (errCh s) (errChClosed s)
              (stopErrCh s) (Some (Sentinel DeadlineExceeded)) (runResult s) (stopResult s))
(* the select of performGracefulShutdown: any ready case *)
| step_return_stop_err s e err rest :
    mainG s = MShutdown e -> stopErrCh s = err :: rest ->
    step s (return_ s e (ctxerrors.Wrap e (text err)))
| step_return_ctx s e err :
    mainG s = MShutdown e -> ctxErr s = Some err -> step s (return_ s e (ctxResult e err))
| step_return_done s e :
    mainG s = MShutdown e -> waitG s = WClosed -> step s (return_ s e e).

Definition reachable (s : state) : Prop := rtc step init s.

(** ** Run *)

(** getConfig; the result of gonfiguration.Parse is an argument, which Configs.v computes. *)
Definition getConfig (parsed : gores Z) : gores Z :=
  match parsed with
  | Err err => Err (ctxerrors.WrapE err "could not configparser.Parse")
  | Ok t => Ok t
  end.

(** Run can return [result]. *)
Definition Run (parsed : gores Z) (result : option error) : Prop :=
  match getConfig parsed with
  | Err err => result = Some err
  | Ok _ => exists s e, reachable s /\ mainG s = MReturned e result
  end.

(** ** Invariant *)

Definition running (b : runState) : nat := match b with RDone => 0 | _ => 1 end.
Definition stopping (b : stopState) : nat := match b with SRunning | SSent => 1 | _ => 0 end.

(** What a result of performGracefulShutdown can be. *)
Inductive explained (s : state) (e : option error) : option error -> Prop :=
| ex_timeout : ctxErr s = Some (Sentinel DeadlineExceeded) -> explained s e (Some ErrShutdownTimeout)
| ex_stop err : stopResult s = Some (Some err) -> explained s e (ctxerrors.Wrap e (text err))
| ex_done : runG s = RDone -> stopG s = SDone -> explained s e e.

Definition main_ok (s : state) : Prop :=
  match mainG s with
  | MWaiting =>
    stopG s = SNone /\ waitG s = WNone /\ (runG s <> RRunning -> errCh s <> [])
  | MShutdown e => stopG s <> SNone /\ waitG s <> WNone /\ (e = None \/ runResult s = Some e)
  | MReturned e res =>
    stopG s <> SNone /\ waitG s <> WNone /\ (e = None \/ runResult s = Some e) /\ explained s e res
  end.

Record inv (s : state) : Prop := {
  inv_run : match runG s with
            | RRunning => runResult s = None /\ errCh s = [] /\ errChClosed s = false
            | _ => is_Some (runResult s)
            end;
  inv_errCh : forall err, err ∈ errCh s -> runResult s = Some err;
  inv_stop : match stopG s with
             | SNone | SRunning => stopErrCh s = [] /\ stopResult s = None
             | _ => is_Some (stopResult s)
             end;
  inv_stopErrCh : forall err, err ∈ stopErrCh s -> stopResult s = Some (Some err);
  inv_ctx : forall err, ctxErr s = Some err -> err = Sentinel DeadlineExceeded;
  inv_wg : wg s = running (runG s) + stopping (stopG s);
  inv_wait : waitG s = WClosed -> runG s = RDone /\ stopG s = SDone;
  inv_main : main_ok s
}.

Lemma inv_init : inv init.
Proof.
  constructor; simpl; try done; intros ? H; by apply not_elem_of_nil in H.
Qed.

Lemma explained_mono s s' e r :
  explained s e r ->
  (forall x, ctxErr s = Some x -> ctxErr s' = Some x) ->
  (forall x, stopResult s = Some x -> stopResult s' = Some x) ->
  (runG s = RDone -> runG s' = RDone) -> (stopG s = SDone -> stopG s' = SDone) ->
  explained s' e r.
Proof. intros [] Hc Hs Hr Hst; [apply ex_timeout|eapply ex_stop|apply ex_done]; auto. Qed.

(** A step of another goroutine leaves what the main one knows. *)
Lemma main_ok_mono s s' :
  main_ok s -> mainG s' = mainG s ->
  (stopG s = SNone <-> stopG s' = SNone) -> (waitG s = WNone <-> waitG s' = WNone) ->
  (forall x, runResult s = Some x -> runResult s' = Some x) ->
  (forall x, ctxErr s = Some x -> ctxErr s' = Some x) ->
  (forall x, stopResult s = Some x -> stopResult s' = Some x) ->
  (runG s = RDone -> runG s' = RDone) -> (stopG s = SDone -> stopG s' = SDone) ->
  (mainG s = MWaiting -> runG s' <> RRunning -> errCh s' <> []) ->
  main_ok s'.
Proof.
  unfold main_ok. intros Hm HM Hs Hw Hr Hc Hst Hrd Hsd He. rewrite HM.
  destruct (mainG s) as [|e|e r].
  - destruct Hm as (? & ? & ?). split; [tauto|]. split; [tauto|]. auto.
  - destruct Hm as (? & ? & Hor). split; [tauto|]. split; [tauto|]. destruct Hor; auto.
  - destruct Hm as (? & ? & Hor & Hx). split; [tauto|]. split; [tauto|].
    split; [destruct Hor; auto|]. by eapply explained_mono.
Qed.

Lemma inv_shutdown s e sig ch :
  inv s -> mainG s = MWaiting -> (e = None \/ runResult s = Some e) ->
  (forall err, err ∈ ch -> err ∈ errCh s) -> (errCh s = [] -> ch = []) ->
  inv (shutdown s e sig ch).
Proof.
  intros [Hrun HerrCh Hstop Hsch Hctx Hwg Hwait Hmain] HM He Hch Hnil.
  unfold main_ok in Hmain. rewrite HM in Hmain. destruct Hmain as (Hst & Hw & _).
  rewrite Hst in *. constructor; simpl; try done.
  - destruct (runG s); try done. destruct Hrun as (? & ? & ?). auto.
  - intros err Herr. auto.
  - intros err Herr. by apply not_elem_of_nil in Herr.
  - rewrite Hwg. simpl. lia.
Qed.

Lemma inv_return s e r :
  inv s -> mainG s = MShutdown e -> explained s e r -> inv (return_ s e r).
Proof.
  intros [Hrun HerrCh Hstop Hsch Hctx Hwg Hwait Hmain] HM Hx.
  constructor; try done. unfold main_ok in *. rewrite HM in Hmain. simpl.
  destruct Hmain as (? & ? & ?). split; [done|]. split; [done|]. split; [done|].
  by eapply explained_mono.
Qed.

(** A step of a goroutine other than the main one. *)
Ltac inv_other :=
  match goal with
  | Hi : inv ?s |- inv _ =>
    let Hm := fresh "Hm" in
    destruct Hi as [Hrun HerrCh Hstop Hsch Hctx Hwg Hwait Hm];
    constructor;
    [..|eapply (main_ok_mono s); [exact Hm|reflexivity|..]; unfold main_ok in Hm];
    destruct s; simpl in *; subst; simpl in *;
    try done; try lia; try (by intros ? ->%list_elem_of_singleton);
    try (by intros ?; congruence); naive_solver
  end.

Lemma waiting s :
  main_ok s -> mainG s = MWaiting ->
  stopG s = SNone /\ waitG s = WNone /\ (runG s <> RRunning -> errCh s <> []).
Proof. intros Hm H. unfold main_ok in Hm. by rewrite H in Hm. Qed.

Lemma wait_done s : inv s -> waitG s = WWaiting -> wg s = 0 -> runG s = RDone /\ stopG s = SDone.
Proof.
  intros Hi Hw H0. rewrite (inv_wg _ Hi) in H0. pose proof (inv_main _ Hi) as Hm. unfold main_ok in Hm.
  assert (stopG s <> SNone) as Hn.
  { destruct (mainG s); destruct Hm as (? & ? & ?); congruence. }
  destruct (runG s), (stopG s); simpl in H0; try lia; done.
Qed.

Lemma inv_step s s' : inv s -> step s s' -> inv s'.
Proof.
  intros Hi Hst. destruct Hst.
  - inv_other.
  - inv_other.
  - inv_other.
  - inv_other.
  - apply inv_shutdown; auto.
  - apply inv_shutdown; auto; [right; apply Hi; rewrite H0; by left|rewrite H0; by right|by rewrite H0].
  - apply inv_shutdown; auto. intros err Herr. by apply not_elem_of_nil in Herr.
  - inv_other.
  - inv_other.
  - inv_other.
  - pose proof (wait_done s Hi H H0). inv_other.
  - inv_other.
  - apply inv_return; [done..|]. eapply ex_stop, Hi. rewrite H0. by left.
  - apply inv_return; [done..|]. pose proof (inv_ctx _ Hi err H0) as ->. exact (ex_timeout s e H0).
  - apply inv_return; [done..|]. destruct (inv_wait _ Hi H0). by apply ex_done.
Qed.

Lemma reachable_inv s : reachable s -> inv s.
Proof.
  intros H. unfold reachable in H. pose proof inv_init as Hi. induction H as [|x y z Hxy _ IH]; [done|].
  apply IH. by eapply inv_step.
Qed.

(** ** Termination *)

(** Every step uses up some of this. *)
Definition fuel_left (s : state) : nat :=
  match mainG s with MWaiting => 12 | MShutdown _ => 1 | MReturned _ _ => 0 end +
  match runG s with RRunning => 3 | RSent => 2 | RClosed => 1 | RDone => 0 end +
  match stopG s with SRunning => 2 | SSent => 1 | _ => 0 end +
  match waitG s with WWaiting => 1 | _ => 0 end +
  (if sigCh s then 0 else 1) +
  match ctxErr s with None => 1 | Some _ => 0 end.

Lemma step_fuel s s' : inv s -> step s s' -> fuel_left s' < fuel_left s.
Proof.
  intros Hi Hst. destruct Hst; unfold fuel_left, shutdown, return_; simpl;
    repeat match goal with H : ?x s = _ |- _ => rewrite H end; try lia;
    destruct (waiting s (inv_main _ Hi) ltac:(done)) as (-> & -> & _); simpl;
    destruct (ctxErr s); try lia; destruct (sigCh s); lia.
Qed.

Lemma nsteps_fuel n s s' : inv s -> nsteps step n s s' -> n + fuel_left s' <= fuel_left s.
Proof.
  intros Hi H. revert Hi. induction H as [|n x y z Hxy _ IH]; intros Hi; [lia|].
  pose proof (step_fuel _ _ Hi Hxy). pose proof (IH (inv_step _ _ Hi Hxy)). lia.
Qed.

(** A step of the program or of the clock: no signal arrives in it, and neither
    the application's Run nor its Stop returns in it. *)
Definition own (s s' : state) : Prop :=
  step s s' /\ (sigCh s = false -> sigCh s' = false) /\
  (runG s = RRunning -> runG s' = RRunning) /\ (stopG s = SRunning -> stopG s' = SRunning).

(** The same without the clock. *)
Definition prompt (s s' : state) : Prop := own s s' /\ (ctxErr s = None -> ctxErr s' = None).

Definition returned (s : state) : Prop := exists e r, mainG s = MReturned e r.

(** waitForShutdown has something to wait for no longer. *)
Definition awake (s : state) : Prop := sigCh s = true \/ runG s <> RRunning \/ mainG s <> MWaiting.

(** The application's Run has returned and so has its Stop. *)
Definition finished (s : state) : Prop := runG s <> RRunning /\ stopG s <> SNone /\ stopG s <> SRunning.

Lemma own_awake s s' : inv s -> awake s -> own s s' -> awake s'.
Proof.
  unfold awake. intros _ Ha (Hst & _). destruct Hst; simpl in *; try tauto; try (by right; right);
    right; left; congruence.
Qed.

Lemma own_finished s s' : inv s -> finished s -> own s s' -> finished s'.
Proof.
  unfold finished. intros Hi Ha (Hst & _). destruct Hst; simpl in *; try tauto; try (by intuition congruence);
    destruct (waiting s (inv_main _ Hi) ltac:(done)) as (? & _); tauto.
Qed.

Lemma rtc_own_reachable s s' : reachable s -> rtc own s s' -> reachable s'.
Proof.
  intros Hr H. induction H as [|x y z [Hxy _] _ IH]; [done|]. apply IH. by eapply rtc_r.
Qed.

Lemma rtc_prompt_own s s' : rtc prompt s s' -> rtc own s s'.
Proof. apply rtc_subrel. by intros x y [H _]. Qed.

Lemma rtc_own_keeps (P : state -> Prop) :
  (forall s s', inv s -> P s -> own s s' -> P s') -> forall s s', inv s -> P s -> rtc own s s' -> P s'.
Proof.
  intros Hk s s' Hi Hs H. induction H as [|x y z Hxy _ IH]; [done|].
  apply IH; [by eapply inv_step, Hxy|by eapply Hk].
Qed.

Ltac stays := repeat split; simpl; try done; try congruence.

(** waitForShutdown goes on by itself as soon as it can. *)
Lemma waiting_goes_on s : inv s -> mainG s = MWaiting -> sigCh s = true \/ runG s <> RRunning ->
  exists s', prompt s s' /\ mainG s' <> MWaiting.
Proof.
  intros Hi HM Hor. destruct (waiting s (inv_main _ Hi) HM) as (Hs & Hw & He).
  destruct Hor as [Hsig|Hrun].
  - exists (shutdown s None false (errCh s)). split; [split; [split; [by apply step_main_signal|]|]|]; by stays.
  - destruct (errCh s) as [|err rest] eqn:Ee; [by destruct (He Hrun)|].
    exists (shutdown s err (sigCh s) rest). split; [split; [split; [by apply step_main_err|]|]|]; by stays.
Qed.

(** The select returns once the deadline has passed. *)
Lemma shutdown_goes_on s e : mainG s = MShutdown e ->
  exists s', own s s' /\ (returned s' \/ mainG s' = MShutdown e /\ ctxErr s = None /\ is_Some (ctxErr s')).
Proof.
  intros HM. destruct (ctxErr s) as [err|] eqn:Ec.
  - exists (return_ s e (ctxResult e err)). split; [split; [by eapply step_return_ctx|]; by stays|]. left. by do 2 eexists.
  - eexists. split; [split; [by eapply step_deadline|]; stays|]. right. by simpl.
Qed.

(** In the select the deadline alone is enough to return. *)
Lemma shutdown_returns s e : mainG s = MShutdown e -> exists s', rtc own s s' /\ returned s'.
Proof.
  intros HM. destruct (shutdown_goes_on s e HM) as (s1 & H1 & [Hr|(HM1 & _ & Hc)]); [eauto using rtc_once|].
  destruct (shutdown_goes_on s1 e HM1) as (s2 & H2 & [Hr|(_ & Hn & _)]).
  - exists s2. split; [|done]. eapply rtc_l; [done|]. by apply rtc_once.
  - rewrite Hn in Hc. by destruct Hc.
Qed.

(** And without it, when the application and Stop have returned: some goroutine
    can go on until the select is left. *)
Lemma finished_goes_on s e : inv s -> mainG s = MShutdown e -> finished s -> exists s', prompt s s'.
Proof.
  intros Hi HM (Hr & Hn & Hs). pose proof (inv_wg _ Hi) as Hwg.
  pose proof (inv_main _ Hi) as Hm. unfold main_ok in Hm. rewrite HM in Hm. destruct Hm as (_ & Hw & _).
  destruct (runG s) eqn:Er; [done|eexists; split; [split; [by apply step_run_close|]|]; by stays
                            |eexists; split; [split; [by apply step_run_done|]|]; by stays|].
  destruct (stopG s) eqn:Es; [done..|eexists; split; [split; [by apply step_stop_done|]|]; by stays|].
  destruct (waitG s) eqn:Ew; [done|eexists; split; [split; [by apply step_wait|]|]; by stays|].
  eexists. split; [split; [by eapply step_return_done|]|]; by stays.
Qed.

(** ** Properties *)

(** C17. What Run can return, in every interleaving: the configuration error; or,
    with e the error the application returned (nil if a signal came first):
    ErrShutdownTimeout, and then the deadline had passed; e annotated with
    the text of an error Stop returned; or e itself, and then both the
    application and Stop have returned. *)
Theorem runner_outcomes parsed result :
  Run parsed result ->
  (exists err, parsed = Err err /\
     result = Some (ctxerrors.WrapE err "could not configparser.Parse")) \/
  (exists s e, reachable s /\ mainG s = MReturned e result /\
     (e = None \/ runResult s = Some e) /\
     ((result = Some ErrShutdownTimeout /\ ctxErr s = Some (Sentinel DeadlineExceeded)) \/
      (exists err, stopResult s = Some (Some err) /\ result = ctxerrors.Wrap e (text err)) \/
      (result = e /\ is_Some (runResult s) /\ is_Some (stopResult s)))).
Proof.
  unfold Run, getConfig. intros H. destruct parsed as [t|err]; [right|left; eauto].
  destruct H as (s & e & Hr & HM). exists s, e. split; [done|]. split; [done|].
  pose proof (reachable_inv s Hr) as Hi. pose proof (inv_main _ Hi) as Hm. unfold main_ok in Hm.
  rewrite HM in Hm. destruct Hm as (_ & _ & He & Hx). split; [done|].
  destruct Hx as [Hc|err Hs|Hrd Hsd]; [left; done|right; left; eauto|right; right].
  pose proof (inv_run _ Hi) as H1. pose proof (inv_stop _ Hi) as H2. rewrite Hrd in H1. rewrite Hsd in H2. done.
Qed.

(** C18. When Run returns.  No execution has more than 17 steps.  Taking only
    steps of the program and of the clock into account (no signal arrives, the
    application's Run and its Stop do not return): an execution that cannot go on
    has returned, or it waits in waitForShutdown with no signal pending and the
    application still running; once a signal is pending, or the application has returned, or the
    shutdown has begun, Run can return and every execution that cannot go on has returned,
    so neither the application nor Stop can hang it past the deadline; and once both the
    application and Stop have returned, this is so without the deadline. *)
Theorem runner_terminates :
  (forall n s, nsteps step n init s -> n <= 17) /\
  (forall s, reachable s -> (forall s', ~ own s s') ->
     returned s \/ mainG s = MWaiting /\ sigCh s = false /\ runG s = RRunning) /\
  (forall s, reachable s -> awake s ->
     (exists s', rtc own s s' /\ returned s') /\
     (forall s', rtc own s s' -> (forall s'', ~ own s' s'') -> returned s')) /\
  (forall s s', reachable s -> finished s -> rtc prompt s s' -> (forall s'', ~ prompt s' s'') -> returned s').
Proof.
  assert (Hstuck : forall s, reachable s -> (forall s', ~ own s s') ->
    returned s \/ mainG s = MWaiting /\ sigCh s = false /\ runG s = RRunning).
  { intros s Hr Hno. pose proof (reachable_inv s Hr) as Hi. destruct (mainG s) as [|e|e r] eqn:HM.
    - right. split; [done|]. destruct (decide (sigCh s = true \/ runG s <> RRunning)) as [Hor|Hor].
      + destruct (waiting_goes_on s Hi HM Hor) as (s' & [H _] & _). by destruct (Hno s').
      + destruct (sigCh s), (runG s); naive_solver.
    - destruct (shutdown_goes_on s e HM) as (s' & H & _). by destruct (Hno s').
    - left. by exists e, r. }
  split; [|split; [done|split]].
  - intros n s H. pose proof (nsteps_fuel _ _ _ inv_init H). unfold fuel_left in H0. simpl in H0. lia.
  - intros s Hr Ha. split.
    + destruct (mainG s) as [|e|e r] eqn:HM.
      * destruct (waiting_goes_on s (reachable_inv s Hr) HM) as (s1 & [H1 _] & HM1).
        { destruct Ha as [?|[?|?]]; auto. }
        destruct (mainG s1) as [|e|e r] eqn:E1; [done| |exists s1; split; [by apply rtc_once|by exists e, r]].
        destruct (shutdown_returns s1 e E1) as (s2 & H2 & Hret). exists s2. split; [by eapply rtc_l|done].
      * exact (shutdown_returns s e HM).
      * exists s. split; [apply rtc_refl|by exists e, r].
    + intros s' Hs Hno. destruct (Hstuck s' (rtc_own_reachable s s' Hr Hs) Hno) as [H|(HM & Hsig & Hg)]; [done|].
      destruct (rtc_own_keeps awake own_awake s s' (reachable_inv s Hr) Ha Hs) as [?|[?|?]]; congruence.
  - intros s s' Hr Hf Hs%rtc_prompt_own Hno. pose proof (reachable_inv s' (rtc_own_reachable s s' Hr Hs)) as Hi.
    pose proof (rtc_own_keeps finished own_finished s s' (reachable_inv s Hr) Hf Hs) as Hf'.
    destruct (mainG s') as [|e|e r] eqn:HM; [..|by exists e, r].
    + destruct (waiting s' (inv_main _ Hi) HM) as (Hsn & _). by destruct Hf' as (_ & ? & _).
    + destruct (finished_goes_on s' e Hi HM Hf') as (s2 & H2). by destruct (Hno s2).
Qed.

(** After a shutdown by signal Run reports nil or ErrShutdownTimeout and
    nothing else: an error of Stop is always lost, since it is attached to the
    nil shutdown error and wrapping nil gives nil. Both the application and
    Stop may have failed while Run returns nil. *)
Theorem runner_loses_stop_error :
  (forall s result, reachable s -> mainG s = MReturned None result ->
     result = None \/ result = Some ErrShutdownTimeout) /\
  (forall stopErr runErr, exists s, reachable s /\ mainG s = MReturned None None /\
     stopResult s = Some (Some stopErr) /\ runResult s = Some (Some runErr)).
Proof.
  split.
  - intros s result Hr HM. pose proof (inv_main _ (reachable_inv s Hr)) as Hm. unfold main_ok in Hm.
    rewrite HM in Hm. destruct Hm as (_ & _ & _ & []); auto.
  - intros stopErr runErr. eexists. split.
    + eapply rtc_l; [by apply step_signal|].
      eapply rtc_l; [by apply step_main_signal|].
      eapply rtc_l; [by apply (step_stop_err _ stopErr)|].
      eapply rtc_l; [by apply (step_run_returns _ (Some runErr))|].
      eapply rtc_once. eapply (step_return_stop_err _ None stopErr []); done.
    + done.
Qed.
End Runner.

(** ** Witnesses *)

Lemma runner_outcomes_witness :
  Run (fun _ => EmptyString) (Ok 10%Z) (Some ErrShutdownTimeout) /\
  exists s e, reachable (fun _ => EmptyString) s /\ mainG s = MReturned e (Some ErrShutdownTimeout).
Proof.
  assert (Run (fun _ => EmptyString) (Ok 10%Z) (Some ErrShutdownTimeout)) as H.
  { eexists _, _. split.
    - eapply rtc_l; [by apply step_signal|].
      eapply rtc_l; [by apply step_main_signal|].
      eapply rtc_l; [by eapply step_deadline|].
      eapply rtc_once. eapply (step_return_ctx _ _ None (Sentinel DeadlineExceeded)); reflexivity.
    - reflexivity. }
  split; [exact H|]. destruct (runner_outcomes _ _ _ H) as [(err & Hp & _)|(s & e & Hr & HM & _)].
  - discriminate Hp.
  - exists s, e. split; [exact Hr|exact HM].
Defined.
