(* ===== verification/Json.v ===== *)
(** * encoding/json, as the repository uses it

    json.Marshal of structs, slices, strings, integers and nil: compact output,
    fields in declaration order, strings escaped the way encoding/json does by
    default (control characters, quotes, backslashes, the three HTML
    characters, U+2028 and U+2029; a byte that is not UTF-8 becomes U+FFFD).

    GoJson.v and GoDecode.v hold the other direction. *)

From stdpp Require Import base option list.
From Stdlib Require Import ZArith Lia.
From Stdlib.Strings Require Byte.
From S2P Require Import Prelude Utf8.

Open Scope Z_scope.

Inductive json : Type :=
| JNull
| JBool (b : bool)
| JInt (z : Z)
| JStr (s : bytes)
| JArr (l : list json)
| JObj (fields : list (bytes * json)).

(** Induction over the nested values. *)
Section JsonInd.
Context (P : json -> Prop).
Context (Pnull : P JNull) (Pbool : forall b, P (JBool b)) (Pint : forall z, P (JInt z)).
Context (Pstr : forall s, P (JStr s)) (Parr : forall l, Forall P l -> P (JArr l)).
Context (Pobj : forall fs, Forall (fun f => P f.2) fs -> P (JObj fs)).

Fixpoint json_nested_ind (v : json) : P v :=
  match v with
  | JNull => Pnull
  | JBool b => Pbool b
  | JInt z => Pint z
  | JStr s => Pstr s
  | JArr l => Parr l ((fix go l : Forall P l :=
      match l with
      | [] => Forall_nil_2 _
      | x :: l' => Forall_cons_2 _ _ _ (json_nested_ind x) (go l')
      end) l)
  | JObj fs => Pobj fs ((fix go fs : Forall (fun f => P f.2) fs :=
      match fs with
      | [] => Forall_nil_2 _
      | (k, x) :: fs' => Forall_cons_2 (fun f => P f.2) (k, x) _ (json_nested_ind x) (go fs')
      end) fs)
  end.
End JsonInd.

(** ** Strings *)

Definition DQUOTE : Byte.byte := Byte.x22.
Definition BSLASH : Byte.byte := Byte.x5c.
Definition LETTER_U : Byte.byte := Byte.x75.

Definition hex_digit (z : Z) : Byte.byte := zb (if z <? 10 then 48 + z else 87 + z).

Definition hex_value (b : Byte.byte) : option Z :=
  if within 48 57 (bz b) then Some (bz b - 48)
  else if within 97 102 (bz b) then Some (bz b - 87)
  else None.

(** \uXXXX *)
Definition unicode_escape (r : Z) : bytes :=
  [BSLASH; LETTER_U; hex_digit (r / 4096 mod 16); hex_digit (r / 256 mod 16);
   hex_digit (r / 16 mod 16); hex_digit (r mod 16)].

(** The letter of a two-character escape. *)
Definition short_escape (r : Z) : option Byte.byte :=
  if r =? 0x22 then Some DQUOTE
  else if r =? 0x5C then Some BSLASH
  else if r =? 0x08 then Some Byte.x62
  else if r =? 0x0C then Some Byte.x66
  else if r =? 0x0A then Some Byte.x6e
  else if r =? 0x0D then Some Byte.x72
  else if r =? 0x09 then Some Byte.x74
  else None.

(** appendString on one rune. *)
Definition escape_rune (r : Z) : bytes :=
  match short_escape r with
  | Some c => [BSLASH; c]
  | None =>
    if (r <? 0x20) || (r =? 0x3C) || (r =? 0x3E) || (r =? 0x26) || (r =? 0x2028) || (r =? 0x2029)
    then unicode_escape r else encode r
  end.

Fixpoint escape_loop (fuel : nat) (s : bytes) : bytes :=
  match fuel, s with
  | S fuel', _ :: _ =>
    let '(r, size) := decode s in
    (if (r =? RuneError) && (size =? 1)%nat then unicode_escape RuneError else escape_rune r)
    ++ escape_loop fuel' (drop size s)
  | _, _ => []
  end.

Definition marshal_string (s : bytes) : bytes := DQUOTE :: escape_loop (length s) s ++ [DQUOTE].

(** ** Numbers: strconv.AppendInt in base ten *)

Fixpoint digits (fuel : nat) (n : Z) (acc : bytes) : bytes :=
  match fuel with
  | O => acc
  | S fuel' =>
    let acc := zb (48 + n mod 10) :: acc in
    if n <? 10 then acc else digits fuel' (n / 10) acc
  end.

Definition marshal_int (z : Z) : bytes :=
  if z <? 0 then Byte.x2d :: digits (S (Z.to_nat (- z))) (- z) [] else digits (S (Z.to_nat z)) z [].

(** ** Values *)

Definition COMMA : Byte.byte := Byte.x2c.
Definition COLON : Byte.byte := Byte.x3a.
Definition LBRACE : Byte.byte := Byte.x7b.
Definition RBRACE : Byte.byte := Byte.x7d.
Definition LBRACKET : Byte.byte := Byte.x5b.
Definition RBRACKET : Byte.byte := Byte.x5d.

Fixpoint join (sep : Byte.byte) (parts : list bytes) : bytes :=
  match parts with
  | [] => []
  | [p] => p
  | p :: ps => p ++ sep :: join sep ps
  end.

Fixpoint Marshal (v : json) : bytes :=
  match v with
  | JNull => lit "null"
  | JBool true => lit "true"
  | JBool false => lit "false"
  | JInt z => marshal_int z
  | JStr s => marshal_string s
  | JArr l => LBRACKET :: join COMMA (Marshal <$> l) ++ [RBRACKET]
  | JObj fs =>
    LBRACE :: join COMMA ((fun '(k, x) => marshal_string k ++ COLON :: Marshal x) <$> fs) ++ [RBRACE]
  end.

(** ** Reading digits and escapes, for the reader of GoJson.v *)

Definition short_unescape (c : Byte.byte) : option Byte.byte :=
  if bool_decide (c = DQUOTE) then Some DQUOTE
  else if bool_decide (c = BSLASH) then Some BSLASH
  else if bool_decide (c = Byte.x62) then Some Byte.x08
  else if bool_decide (c = Byte.x66) then Some Byte.x0c
  else if bool_decide (c = Byte.x6e) then Some Byte.x0a
  else if bool_decide (c = Byte.x72) then Some Byte.x0d
  else if bool_decide (c = Byte.x74) then Some Byte.x09
  else None.

Definition is_digit (b : Byte.byte) : bool := within 48 57 (bz b).

Fixpoint parse_digits (acc : Z) (s : bytes) : Z * bytes :=
  match s with
  | b :: s' => if is_digit b then parse_digits (10 * acc + (bz b - 48)) s' else (acc, s)
  | [] => (acc, [])
  end.

(** ** Strings *)

Lemma hex_value_digit d : 0 <= d < 16 -> hex_value (hex_digit d) = Some d.
Proof.
  intros Hd. unfold hex_value, hex_digit, within.
  destruct (Z.ltb_spec d 10); rewrite bz_zb by lia.
  - rewrite (proj2 (Z.leb_le 48 _)), (proj2 (Z.leb_le _ 57)) by lia. simpl. f_equal. lia.
  - rewrite (proj2 (Z.leb_gt _ 57)) by lia. rewrite andb_false_r.
    rewrite (proj2 (Z.leb_le 97 _)), (proj2 (Z.leb_le _ 102)) by lia. simpl. f_equal. lia.
Qed.

Definition raw (b : Byte.byte) : Prop := 0x20 <= bz b /\ b <> DQUOTE /\ b <> BSLASH.

Lemma raw_high b : 0x80 <= bz b -> raw b.
Proof.
  intros Hb. split; [lia|]. split; intros ->; by vm_compute in Hb.
Qed.

Lemma encode_raw r :
  scalar r -> 0x20 <= r -> r <> 0x22 -> r <> 0x5C -> Forall raw (encode r).
Proof.
  intros Hs Hr Hq Hb. pose proof (encode_encoded r Hs) as He. inv He.
  - apply Forall_singleton. split; [done|]. split; intros ->; by vm_compute in *.
  - repeat constructor; apply raw_high; lia.
  - repeat constructor; apply raw_high; lia.
  - repeat constructor; apply raw_high; lia.
Qed.

Lemma escape_loop_valid rs : forall fuel,
  Forall scalar rs -> (length rs <= fuel)%nat ->
  escape_loop fuel (encode_all rs) = concat (escape_rune <$> rs).
Proof.
  induction rs as [|r rs IH]; intros fuel Hrs Hf; [by destruct fuel|].
  apply Forall_cons in Hrs as [Hr Hrs]. destruct fuel as [|fuel]; simpl in Hf; [lia|].
  rewrite encode_all_cons. pose proof (encode_nonempty r (encode_all rs) Hr) as Hne.
  pose proof (decode_encode r (encode_all rs) Hr) as Hd. pose proof (encode_length r Hr) as Hl.
  destruct (encode r ++ encode_all rs) as [|b t] eqn:E; [done|].
  cbn [escape_loop]. rewrite Hd. rewrite <- E, drop_app_length, IH by (done || lia).
  simpl. f_equal. destruct (Z.eqb_spec r RuneError) as [->|]; [|done]. done.
Qed.

(** ** Digits are read back *)

Lemma digits_app fuel n acc t : digits fuel n acc ++ t = digits fuel n (acc ++ t).
Proof.
  revert n acc. induction fuel as [|fuel IH]; intros n acc; [done|]. simpl.
  destruct (n <? 10); [done|]. apply IH.
Qed.

Lemma is_digit_zb d : 0 <= d < 10 -> is_digit (zb (48 + d)) = true.
Proof. intros Hd. unfold is_digit, within. rewrite bz_zb by lia. lia. Qed.

Lemma parse_digits_digits fuel n t :
  0 <= n < Z.of_nat fuel -> parse_digits 0 (digits fuel n t) = parse_digits n t.
Proof.
  revert n t. induction fuel as [|fuel IH]; intros n t Hn; [lia|]. cbn [digits].
  destruct (Z.ltb_spec n 10).
  - cbn [parse_digits]. rewrite (Z.mod_small n 10) by lia. rewrite is_digit_zb, bz_zb by lia.
    f_equal. lia.
  - rewrite IH by dlia. cbn [parse_digits]. rewrite is_digit_zb, bz_zb by dlia. f_equal. dlia.
Qed.

Lemma digits_head fuel n t :
  0 <= n < Z.of_nat fuel -> exists d r, digits fuel n t = zb (48 + d) :: r /\ 0 <= d < 10.
Proof.
  revert n t. induction fuel as [|fuel IH]; intros n t Hn; [lia|]. cbn [digits].
  destruct (Z.ltb_spec n 10); [|apply IH; dlia]. eexists (n mod 10), _. split; [done|]. dlia.
Qed.

(** ** Values in UTF-8 *)

(** Every string in it is valid UTF-8. *)
Fixpoint utf8_json (v : json) : bool :=
  match v with
  | JStr s => valid s
  | JArr l => forallb utf8_json l
  | JObj fs => forallb (fun '(k, x) => valid k && utf8_json x) fs
  | _ => true
  end.

(** Bytes a sequence may meet after an element. *)
Definition delimiter (close : Byte.byte) (t : bytes) : Prop :=
  exists c t', t = c :: t' /\ (c = COMMA \/ c = close).

(** ** The output is valid UTF-8 *)

Lemma valid_app s t : valid s = true -> valid t = true -> valid (s ++ t) = true.
Proof.
  intros (r1 & H1 & ->)%valid_iff (r2 & H2 & ->)%valid_iff. apply valid_iff.
  exists (r1 ++ r2). split; [by apply Forall_app|]. by rewrite encode_all_app.
Qed.

Lemma valid_ascii s : Forall (fun b => bz b < 0x80) s -> valid s = true.
Proof.
  intros Hs. apply valid_iff. exists (bz <$> s). split.
  - apply Forall_fmap. eapply Forall_impl; [done|]. intros b Hb. pose proof (bz_range b). unfold scalar. simpl in *. lia.
  - induction Hs as [|b s Hb _ IH]; [done|]. rewrite fmap_cons, encode_all_cons, <- IH.
    pose proof (bz_range b). unfold encode, within.
    destruct (_ || _ || _) eqn:E; [lia|]. rewrite (proj2 (Z.leb_le _ _)) by lia. by rewrite zb_bz.
Qed.

Lemma valid_cons b s : bz b < 0x80 -> valid s = true -> valid (b :: s) = true.
Proof. intros Hb Hs. apply (valid_app [b]); [|done]. apply valid_ascii. by apply Forall_singleton. Qed.

Lemma hex_digit_ascii d : 0 <= d < 16 -> bz (hex_digit d) < 0x80.
Proof. intros Hd. unfold hex_digit. destruct (Z.ltb_spec d 10); rewrite bz_zb by lia; lia. Qed.

Lemma escape_rune_valid r : scalar r -> valid (escape_rune r) = true.
Proof.
  intros Hr. unfold escape_rune. destruct (short_escape r) as [c|] eqn:E.
  - apply valid_ascii. apply Forall_cons. split; [by vm_compute|]. apply Forall_singleton.
    unfold short_escape in E. repeat case_match; simplify_eq; by vm_compute.
  - destruct (_ || _).
    + apply valid_ascii. unfold unicode_escape.
      repeat (apply Forall_cons; split; [first [by vm_compute|apply hex_digit_ascii; dlia]|]). constructor.
    + apply valid_iff. exists [r]. split; [by apply Forall_singleton|]. simpl. unfold encode_all. simpl.
      by rewrite app_nil_r.
Qed.

Lemma marshal_string_valid s : valid s = true -> valid (marshal_string s) = true.
Proof.
  intros (rs & Hrs & ->)%valid_iff. unfold marshal_string.
  rewrite escape_loop_valid by (done || by apply encode_all_length).
  apply valid_cons; [by vm_compute|]. apply valid_app; [|reflexivity].
  induction Hrs as [|r rs Hr _ IH]; [done|]. simpl. apply valid_app; [by apply escape_rune_valid|done].
Qed.

Lemma digits_valid fuel n acc : valid acc = true -> 0 <= n -> valid (digits fuel n acc) = true.
Proof.
  revert n acc. induction fuel as [|fuel IH]; intros n acc Ha Hn; [done|]. cbn [digits].
  assert (valid (zb (48 + n mod 10) :: acc) = true).
  { apply valid_cons; [rewrite bz_zb by dlia; dlia|done]. }
  destruct (n <? 10); [done|]. apply IH; [done|dlia].
Qed.

Lemma join_valid parts : Forall (fun p => valid p = true) parts -> valid (join COMMA parts) = true.
Proof.
  induction 1 as [|p ps Hp Hps IH]; [done|]. destruct ps as [|q ps]; [done|].
  change (join COMMA (p :: q :: ps)) with (p ++ COMMA :: join COMMA (q :: ps)).
  apply valid_app; [done|]. by apply valid_cons; [by vm_compute|].
Qed.

Lemma Marshal_valid v : utf8_json v = true -> valid (Marshal v) = true.
Proof.
  induction v as [|b|z|s|l IH|fs IH] using json_nested_ind; intros Hu.
  - reflexivity.
  - by destruct b.
  - simpl. unfold marshal_int. destruct (Z.ltb_spec z 0); [apply valid_cons; [by vm_compute|]|];
      apply digits_valid; by (reflexivity || lia).
  - by apply marshal_string_valid.
  - simpl in *. apply valid_cons; [by vm_compute|]. apply valid_app; [|reflexivity].
    apply join_valid, Forall_fmap. rewrite Forall_forall in *. intros x Hx. apply IH; [done|].
    rewrite forallb_forall in Hu. apply Hu. by apply list_elem_of_In.
  - simpl in *. apply valid_cons; [by vm_compute|]. apply valid_app; [|reflexivity].
    apply join_valid, Forall_fmap. rewrite Forall_forall in *. intros [k x] Hx.
    rewrite forallb_forall in Hu. specialize (Hu (k, x) ltac:(by apply list_elem_of_In)). simpl in Hu.
    apply andb_prop in Hu as [Hk Hv]. simpl. apply valid_app; [by apply marshal_string_valid|].
    apply valid_cons; [by vm_compute|]. by apply (IH (k, x)).
Qed.
