(* ===== verification/GoJson.v ===== *)
(** * encoding/json: reading

    The grammar encoding/json's scanner accepts, its unquoting of strings, the
    two ways to read a text (json.Unmarshal, which wants exactly one value, and
    json.NewDecoder(r).Decode, which takes the first value of a stream), and
    strconv's ParseInt and ParseFloat on JSON numbers.

    The scanner is written as a recursive-descent reader: [value] gives the tree
    of the first value of a text and what follows it.  A tree keeps the source
    text of its parts, which json.RawMessage needs.  The end of the input inside
    a value ([PEnd]) and a byte that cannot stand where it stands ([PBad]) are
    told apart, as the Decoder does. *)

From stdpp Require Import base option list.
From Stdlib Require Import ZArith Lia SpecFloat.
From Stdlib.Strings Require Byte.
From S2P Require Import Prelude GoErrors Utf8 Json.

Open Scope Z_scope.

(** ** Trees *)

(** A number: sign, integer digits, fraction digits, exponent. *)
Record numlit : Type := MkNum {
  n_neg : bool;
  n_int : bytes;
  n_frac : option bytes;
  n_exp : option (bool * bytes)
}.

Inductive jtree : Type :=
| TNull
| TBool (b : bool)
| TNum (raw : bytes) (n : numlit)
| TStr (raw : bytes) (s : bytes)
| TArr (raw : bytes) (l : list jtree)
| TObj (raw : bytes) (fields : list (bytes * jtree)).

(** Induction over the nested trees. *)
Section TreeInd.
Context (P : jtree -> Prop).
Context (Pnull : P TNull) (Pbool : forall b, P (TBool b)) (Pnum : forall raw n, P (TNum raw n)).
Context (Pstr : forall raw s, P (TStr raw s)) (Parr : forall raw l, Forall P l -> P (TArr raw l)).
Context (Pobj : forall raw fs, Forall (fun f => P f.2) fs -> P (TObj raw fs)).

Fixpoint jtree_nested_ind (t : jtree) : P t :=
  match t with
  | TNull => Pnull
  | TBool b => Pbool b
  | TNum raw n => Pnum raw n
  | TStr raw s => Pstr raw s
  | TArr raw l => Parr raw l ((fix go l : Forall P l :=
      match l with
      | [] => Forall_nil_2 _
      | x :: l' => Forall_cons_2 _ _ _ (jtree_nested_ind x) (go l')
      end) l)
  | TObj raw fs => Pobj raw fs ((fix go fs : Forall (fun f => P f.2) fs :=
      match fs with
      | [] => Forall_nil_2 _
      | (k, x) :: fs' => Forall_cons_2 (fun f => P f.2) (k, x) _ (jtree_nested_ind x) (go fs')
      end) fs)
  end.
End TreeInd.

Definition raw_of (t : jtree) : bytes :=
  match t with
  | TNull => lit "null"
  | TBool true => lit "true"
  | TBool false => lit "false"
  | TNum raw _ | TStr raw _ | TArr raw _ | TObj raw _ => raw
  end.

(** ** The reader's results *)

Inductive pres (A : Type) : Type :=
| POk (a : A) (rest : bytes)
| PEnd
| PBad
| PFuel.
Arguments POk {A} _ _.
Arguments PEnd {A}.
Arguments PBad {A}.
Arguments PFuel {A}.

Definition pbind {A B} (m : pres A) (f : A -> bytes -> pres B) : pres B :=
  match m with
  | POk a rest => f a rest
  | PEnd => PEnd
  | PBad => PBad
  | PFuel => PFuel
  end.

(** ** Blanks, literals, strings, numbers *)

Definition isSpace (c : Byte.byte) : bool :=
  (bz c =? 32) || (bz c =? 9) || (bz c =? 13) || (bz c =? 10).

Fixpoint skip (s : bytes) : bytes :=
  match s with
  | c :: s' => if isSpace c then skip s' else s
  | [] => []
  end.

(** What was read of [s] when [rest] is left. *)
Definition upto (s rest : bytes) : bytes := take (length s - length rest) s.

(** The rest of true, false or null. *)
Fixpoint expect {A} (p : bytes) (a : A) (s : bytes) : pres A :=
  match p, s with
  | [], _ => POk a s
  | _ :: _, [] => PEnd
  | c :: p', d :: s' => if bool_decide (c = d) then expect p' a s' else PBad
  end.

(** A hexadecimal digit of either case, as the scanner and getu4 take it. *)
Definition hexval (b : Byte.byte) : option Z :=
  if within 48 57 (bz b) then Some (bz b - 48)
  else if within 97 102 (bz b) then Some (bz b - 87)
  else if within 65 70 (bz b) then Some (bz b - 55)
  else None.

Definition is_hex (b : Byte.byte) : bool := bool_decide (is_Some (hexval b)).

(** stateInString to the closing quote; [n] hexadecimal digits of an escape are
    still due. *)
Fixpoint in_string (n : nat) (s : bytes) : pres unit :=
  match s with
  | [] => PEnd
  | c :: s1 =>
    match n with
    | S n' => if is_hex c then in_string n' s1 else PBad
    | O =>
      if bool_decide (c = DQUOTE) then POk tt s1
      else if bool_decide (c = BSLASH) then
        match s1 with
        | [] => PEnd
        | e :: s2 =>
          if bool_decide (e = LETTER_U) then in_string 4 s2
          else if bool_decide (e = Byte.x2f) || bool_decide (is_Some (short_unescape e)) then in_string 0 s2
          else PBad
        end
      else if bz c <? 0x20 then PBad
      else in_string 0 s1
    end
  end.

(** getu4: the rune of \uXXXX at the head of [s]. *)
Definition getu4 (s : bytes) : option Z :=
  match s with
  | b :: u :: h1 :: h2 :: h3 :: h4 :: _ =>
    if bool_decide (b = BSLASH) && bool_decide (u = LETTER_U) then
      x1 ← hexval h1; x2 ← hexval h2; x3 ← hexval h3; x4 ← hexval h4;
      Some (x1 * 4096 + x2 * 256 + x3 * 16 + x4)
    else None
  | _ => None
  end.

(** utf16.DecodeRune *)
Definition utf16_pair (r1 r2 : Z) : option Z :=
  if within 0xD800 0xDBFF r1 && within 0xDC00 0xDFFF r2
  then Some ((r1 - 0xD800) * 1024 + (r2 - 0xDC00) + 0x10000) else None.

(** unquoteBytes on the text between the quotes, which the scanner has
    accepted. *)
Fixpoint unquote (fuel : nat) (s : bytes) : bytes :=
  match fuel, s with
  | S fuel', c :: s1 =>
    if bool_decide (c = BSLASH) then
      match getu4 s with
      | Some rr =>
        if within 0xD800 0xDFFF rr then
          match getu4 (drop 6 s) ≫= utf16_pair rr with
          | Some dec => encode dec ++ unquote fuel' (drop 12 s)
          | None => encode RuneError ++ unquote fuel' (drop 6 s)
          end
        else encode rr ++ unquote fuel' (drop 6 s)
      | None =>
        match s1 with
        | e :: s2 => default e (short_unescape e) :: unquote fuel' s2
        | [] => []
        end
      end
    else
      let '(r, size) := decode s in encode r ++ unquote fuel' (drop size s)
  | _, _ => []
  end.

(** A string after its opening quote; [s] starts with the quote. *)
Definition string_lit (s : bytes) : pres (bytes * bytes) :=
  pbind (in_string 0 (drop 1 s)) (fun _ rest =>
    let raw := upto s rest in
    let inner := take (length raw - 2) (drop 1 raw) in
    POk (raw, unquote (length inner) inner) rest).

Fixpoint take_digits (s : bytes) : bytes * bytes :=
  match s with
  | c :: s' => if is_digit c then let '(ds, r) := take_digits s' in (c :: ds, r) else ([], s)
  | [] => ([], [])
  end.

(** At least one digit. *)
Definition digits1 (s : bytes) : pres bytes :=
  match take_digits s with
  | ([], []) => PEnd
  | ([], _ :: _) => PBad
  | (ds, r) => POk ds r
  end.

Definition num_int (s : bytes) : pres bytes :=
  match s with
  | c :: s' => if bool_decide (c = Byte.x30) then POk [c] s' else digits1 s
  | [] => PEnd
  end.

Definition num_frac (s : bytes) : pres (option bytes) :=
  match s with
  | c :: s' => if bool_decide (c = Byte.x2e) then pbind (digits1 s') (fun ds r => POk (Some ds) r) else POk None s
  | [] => POk None s
  end.

Definition num_exp (s : bytes) : pres (option (bool * bytes)) :=
  match s with
  | c :: s' =>
    if bool_decide (c = Byte.x65) || bool_decide (c = Byte.x45) then
      match s' with
      | d :: s'' =>
        if bool_decide (d = Byte.x2d) then pbind (digits1 s'') (fun ds r => POk (Some (true, ds)) r)
        else if bool_decide (d = Byte.x2b) then pbind (digits1 s'') (fun ds r => POk (Some (false, ds)) r)
        else pbind (digits1 s') (fun ds r => POk (Some (false, ds)) r)
      | [] => PEnd
      end
    else POk None s
  | [] => POk None s
  end.

Definition number (s : bytes) : pres numlit :=
  let '(neg, s1) := match s with
                    | c :: s' => if bool_decide (c = Byte.x2d) then (true, s') else (false, s)
                    | [] => (false, s)
                    end in
  pbind (num_int s1) (fun i s2 =>
  pbind (num_frac s2) (fun f s3 =>
  pbind (num_exp s3) (fun e rest => POk (MkNum neg i f e) rest))).

(** ** Values *)

(** maxNestingDepth *)
Definition maxNestingDepth : Z := 10000.

(** Elements up to the closing byte, with commas between. *)
Fixpoint elements {A} (elem : bytes -> pres A) (close : Byte.byte) (n : nat) (s : bytes) : pres (list A) :=
  match n with
  | O => PFuel
  | S n' =>
    pbind (elem s) (fun x s1 =>
    match skip s1 with
    | [] => PEnd
    | c :: s2 =>
      if bool_decide (c = close) then POk [x] s2
      else if bool_decide (c = COMMA) then pbind (elements elem close n' s2) (fun xs s3 => POk (x :: xs) s3)
      else PBad
    end)
  end.

(** A key, a colon and a value. *)
Definition member (value : bytes -> pres jtree) (s : bytes) : pres (bytes * jtree) :=
  match skip s with
  | [] => PEnd
  | (q :: _) as s0 =>
    if bool_decide (q = DQUOTE) then
      pbind (string_lit s0) (fun k s1 =>
      match skip s1 with
      | [] => PEnd
      | c :: s2 =>
        if bool_decide (c = COLON) then pbind (value s2) (fun v s3 => POk (k.2, v) s3) else PBad
      end)
    else PBad
  end.

(** A bracketed sequence, after its opening bracket. *)
Definition bracketed {A} (elem : bytes -> pres A) (close : Byte.byte) (n : nat) (depth : Z) (s : bytes)
  : pres (list A) :=
  if maxNestingDepth <=? depth then PBad
  else match skip s with
       | [] => PEnd
       | d :: s1 => if bool_decide (d = close) then POk [] s1 else elements elem close n s
       end.

Fixpoint value (fuel : nat) (depth : Z) (s : bytes) : pres jtree :=
  match fuel with
  | O => PFuel
  | S fuel' =>
    match skip s with
    | [] => PEnd
    | (c :: s1) as s0 =>
      if bool_decide (c = DQUOTE) then pbind (string_lit s0) (fun x rest => POk (TStr x.1 x.2) rest)
      else if bool_decide (c = LBRACKET) then
        pbind (bracketed (value fuel' (depth + 1)) RBRACKET fuel' depth s1)
          (fun l rest => POk (TArr (upto s0 rest) l) rest)
      else if bool_decide (c = LBRACE) then
        pbind (bracketed (member (value fuel' (depth + 1))) RBRACE fuel' depth s1)
          (fun l rest => POk (TObj (upto s0 rest) l) rest)
      else if bool_decide (c = Byte.x2d) || is_digit c then
        pbind (number s0) (fun n rest => POk (TNum (upto s0 rest) n) rest)
      else if bool_decide (c = Byte.x6e) then expect (lit "ull") TNull s1
      else if bool_decide (c = Byte.x74) then expect (lit "rue") (TBool true) s1
      else if bool_decide (c = Byte.x66) then expect (lit "alse") (TBool false) s1
      else PBad
    end
  end.

(** The first value of a text. *)
Definition scan (s : bytes) : pres jtree := value (S (length s)) 0 s.

(** checkValid: one value and nothing after it. *)
Definition document (s : bytes) : gores jtree :=
  match scan s with
  | POk t rest =>
    match skip rest with
    | [] => Ok t
    | _ :: _ => Err (SyntaxError "invalid character after top-level value")
    end
  | PEnd | PFuel => Err (SyntaxError "unexpected end of JSON input")
  | PBad => Err (SyntaxError "invalid character")
  end.

(** What a reader delivers: bytes, then the end of the stream or an error. *)
Record reader : Type := MkReader { delivered_bytes : bytes; read_error : option error }.

Definition EOF : error := Sentinel "EOF".
Definition ErrUnexpectedEOF : error := Sentinel "unexpected EOF".

(** io.ReadAll: what was read, and the error. *)
Definition ReadAll (r : reader) : bytes * option error := (delivered_bytes r, read_error r).

(** A value whose end shows only in what follows it. *)
Definition open_ended (t : jtree) : bool :=
  match t with TArr _ _ | TObj _ _ => false | _ => true end.

(** Decoder.readValue on a fresh decoder: the first value of the stream.  An
    error of the reader counts only when the value is not complete before it. *)
Definition readValue (r : reader) : gores jtree :=
  match scan (delivered_bytes r) with
  | POk t rest =>
    match read_error r, rest with
    | Some err, [] => if open_ended t then Err err else Ok t
    | _, _ => Ok t
    end
  | PEnd | PFuel =>
    Err (match read_error r with
         | Some err => err
         | None => match skip (delivered_bytes r) with [] => EOF | _ :: _ => ErrUnexpectedEOF end
         end)
  | PBad => Err (SyntaxError "invalid character")
  end.

(** ** Numbers *)

Definition digits_value (ds : bytes) : Z := (parse_digits 0 ds).1.

(** strconv.ParseInt(s, 10, 64) on a JSON number. *)
Definition ParseInt (n : numlit) : option Z :=
  match n_frac n, n_exp n with
  | None, None =>
    let z := digits_value (n_int n) in
    let z := if n_neg n then - z else z in
    if (- 2 ^ 63 <=? z) && (z <? 2 ^ 63) then Some z else None
  | _, _ => None
  end.

Fixpoint drop_zeros (ds : bytes) : bytes :=
  match ds with
  | c :: ds' => if bool_decide (c = Byte.x30) then drop_zeros ds' else ds
  | [] => []
  end.

Definition prec : Z := 53.
Definition emax : Z := 1024.

(** The float64 nearest to m * 10^e, ties to even; m is positive. *)
Definition round_decimal (neg : bool) (m : positive) (e : Z) : spec_float :=
  if 0 <=? e then binary_round prec emax neg (m * Z.to_pos (10 ^ e)) 0
  else
    let '(q, e', l) := SFdiv_core_binary prec emax (Zpos m) 0 (10 ^ (- e)) 0 in
    binary_round_aux prec emax neg q e' l.

(** strconv.ParseFloat(s, 64) on a JSON number; [None] when it is out of range.
    Decimal points beyond 310 overflow and before -330 underflow without
    further computation. *)
Definition ParseFloat (n : numlit) : option spec_float :=
  let frac := default [] (n_frac n) in
  let e10 := match n_exp n with
             | Some (true, ds) => - digits_value ds
             | Some (false, ds) => digits_value ds
             | None => 0
             end - Z.of_nat (length frac) in
  match digits_value (n_int n ++ frac) with
  | Zpos m =>
    let dp := Z.of_nat (length (drop_zeros (n_int n ++ frac))) + e10 in
    if 310 <? dp then None
    else if dp <? -330 then Some (S754_zero (n_neg n))
    else match round_decimal (n_neg n) m e10 with
         | S754_infinity _ => None
         | f => Some f
         end
  | _ => Some (S754_zero (n_neg n))
  end.

Definition num (s : String.string) : option numlit :=
  match number (lit s) with POk n [] => Some n | _ => None end.
Arguments num s%_string_scope.

Example float_half : num "0.5e0" ≫= ParseFloat = Some (S754_finite false (2 ^ 52) (-53)).
Proof. vm_compute. reflexivity. Qed.

Example float_tenth : num "0.1" ≫= ParseFloat = Some (S754_finite false 7205759403792794 (-56)).
Proof. vm_compute. reflexivity. Qed.

(** Halfway cases round to even: 2^53 + 1 and 2^53 + 3. *)
Example float_ties :
  num "9007199254740993" ≫= ParseFloat = Some (S754_finite false (2 ^ 52) 1) /\
  num "9007199254740995" ≫= ParseFloat = Some (S754_finite false (2 ^ 52 + 2) 1).
Proof. vm_compute. split; reflexivity. Qed.

Example float_range : num "1e309" ≫= ParseFloat = None /\ num "-1E-999" ≫= ParseFloat = Some (S754_zero true) /\
  num "5e-324" ≫= ParseFloat = Some (S754_finite false 1 (-1074)).
Proof. vm_compute. repeat split; reflexivity. Qed.

(** ** The reader is total *)

(** Reading something consumes input and does not run out of fuel. *)
Definition consumes {A} (m : pres A) (s : bytes) : Prop :=
  match m with
  | POk _ rest => (length rest < length s)%nat
  | PFuel => False
  | PEnd | PBad => True
  end.

Lemma consumes_bind {A B} (m : pres A) (f : A -> bytes -> pres B) s :
  consumes m s ->
  (forall a rest, m = POk a rest -> (length rest < length s)%nat ->
     match f a rest with POk _ rest' => (length rest' <= length rest)%nat | PFuel => False | _ => True end) ->
  consumes (pbind m f) s.
Proof.
  destruct m as [a rest| | |]; simpl; try done. intros Hm Hf. specialize (Hf a rest eq_refl Hm).
  destruct (f a rest); simpl in *; try done. lia.
Qed.

Lemma consumes_mono {A} (m : pres A) s s' : consumes m s -> (length s <= length s')%nat -> consumes m s'.
Proof. destruct m; simpl; try done. lia. Qed.

Lemma consumes_loose {A} (m : pres A) s :
  consumes m s -> match m with POk _ rest' => (length rest' <= length s)%nat | PFuel => False | _ => True end.
Proof. destruct m; simpl; try done. lia. Qed.

Lemma skip_length s : (length (skip s) <= length s)%nat.
Proof. induction s as [|c s IH]; simpl; [done|]. destruct (isSpace c); simpl; lia. Qed.

Lemma expect_consumes {A} p (a : A) s :
  match expect p a s with POk _ rest' => (length rest' <= length s)%nat | PFuel => False | _ => True end.
Proof.
  revert s. induction p as [|c p IH]; intros [|d s]; simpl; try done; try lia.
  case_bool_decide; [|done]. specialize (IH s). destruct (expect p a s); simpl in *; try done. lia.
Qed.

Lemma in_string_consumes s : forall n, consumes (in_string n s) s.
Proof.
  induction s as [s IH] using (induction_ltof1 _ (@length Byte.byte)). unfold ltof in IH.
  assert (H : forall n' s', (length s' < length s)%nat -> consumes (in_string n' s') s).
  { intros n' s' Hs. eapply consumes_mono; [by apply IH|lia]. }
  intros n. destruct s as [|c s]; [done|]. cbn [in_string].
  destruct n as [|n]; [|destruct (is_hex c); [apply H; simpl; lia|done]].
  destruct (bool_decide (c = DQUOTE)); [simpl; lia|].
  destruct (bool_decide (c = BSLASH)).
  - destruct s as [|e s]; [done|]. destruct (bool_decide (e = LETTER_U)); [apply H; simpl; lia|].
    destruct (_ || _); [apply H; simpl; lia|done].
  - destruct (bz c <? 32); [done|]. apply H. simpl. lia.
Qed.

Lemma string_lit_consumes c s : consumes (string_lit (c :: s)) (c :: s).
Proof.
  unfold string_lit. apply consumes_bind.
  - change (drop 1 (c :: s)) with s. eapply consumes_mono; [apply in_string_consumes|]. simpl. lia.
  - intros a rest _ _. done.
Qed.

Lemma take_digits_length s : length s = (length (take_digits s).1 + length (take_digits s).2)%nat.
Proof.
  induction s as [|c s IH]; simpl; [done|]. destruct (is_digit c); [|done].
  destruct (take_digits s) as [ds r]. simpl in *. lia.
Qed.

Lemma digits1_consumes s : consumes (digits1 s) s.
Proof.
  unfold digits1. pose proof (take_digits_length s) as H. destruct (take_digits s) as [[|d ds] [|x r]]; simpl in *;
    try done; lia.
Qed.

Lemma number_consumes s : consumes (number s) s.
Proof.
  unfold number.
  assert (Hi : forall s1, consumes (num_int s1) s1).
  { intros [|c s1]; [done|]. simpl. destruct (bool_decide _); [simpl; lia|apply digits1_consumes]. }
  assert (Hf : forall s1, match num_frac s1 with POk _ r => (length r <= length s1)%nat | PFuel => False | _ => True end).
  { intros [|c s1]; [simpl; lia|]. simpl. destruct (bool_decide _); [|simpl; lia].
    pose proof (digits1_consumes s1) as H. destruct (digits1 s1); simpl in *; try done. lia. }
  assert (He : forall s1, match num_exp s1 with POk _ r => (length r <= length s1)%nat | PFuel => False | _ => True end).
  { intros [|c s1]; [simpl; lia|]. cbn [num_exp]. destruct (_ || _); [|simpl; lia]. destruct s1 as [|d s1]; [done|].
    destruct (bool_decide _); [|destruct (bool_decide _)].
    - pose proof (digits1_consumes s1) as H. destruct (digits1 s1); simpl in *; try done. lia.
    - pose proof (digits1_consumes s1) as H. destruct (digits1 s1); simpl in *; try done. lia.
    - pose proof (digits1_consumes (d :: s1)) as H. destruct (digits1 (d :: s1)); simpl in *; try done. lia. }
  assert (Hs : forall s1 neg, consumes (pbind (num_int s1) (fun i s2 => pbind (num_frac s2) (fun f s3 =>
    pbind (num_exp s3) (fun e rest => POk (MkNum neg i f e) rest)))) s1).
  { intros s1 neg. apply consumes_bind; [apply Hi|]. intros i s2 _ _. specialize (Hf s2).
    destruct (num_frac s2) as [f s3| | |]; simpl; try done. specialize (He s3).
    destruct (num_exp s3); simpl; try done. lia. }
  destruct s as [|c s]; [apply Hs|]. destruct (bool_decide _); [|apply Hs].
  eapply consumes_mono; [apply Hs|]. simpl. lia.
Qed.

Lemma elements_consumes {A} (elem : bytes -> pres A) close n : forall s,
  (length s < n)%nat -> (forall s', (length s' <= length s)%nat -> consumes (elem s') s') ->
  consumes (elements elem close n s) s.
Proof.
  induction n as [|n IH]; intros s Hn He; [lia|]. cbn [elements].
  apply consumes_bind; [by apply He|]. intros x s1 _ Hs1.
  pose proof (skip_length s1) as Hk. destruct (skip s1) as [|c s2]; [done|]. simpl in Hk.
  destruct (bool_decide _); [lia|]. destruct (bool_decide _); [|done].
  assert (consumes (elements elem close n s2) s2) as H.
  { apply IH; [lia|]. intros s' Hs'. apply He. lia. }
  destruct (elements elem close n s2); simpl in *; try done. lia.
Qed.

Lemma bracketed_consumes {A} (elem : bytes -> pres A) close n depth s :
  (length s < n)%nat -> (forall s', (length s' <= length s)%nat -> consumes (elem s') s') ->
  consumes (bracketed elem close n depth s) s.
Proof.
  intros Hn He. unfold bracketed. destruct (_ <=? _); [done|].
  pose proof (skip_length s) as Hk. destruct (skip s) as [|d s1]; [done|]. simpl in Hk.
  destruct (bool_decide _); [simpl; lia|]. by apply elements_consumes.
Qed.

Lemma member_consumes v s :
  (forall s', (length s' <= length s)%nat -> consumes (v s') s') -> consumes (member v s) s.
Proof.
  intros Hv. unfold member. pose proof (skip_length s) as Hk. destruct (skip s) as [|q s0]; [done|].
  destruct (bool_decide _); [|done]. apply consumes_bind.
  - eapply consumes_mono; [apply string_lit_consumes|done].
  - intros k s1 _ Hs1. pose proof (skip_length s1) as Hk1. destruct (skip s1) as [|c s2]; [done|]. simpl in *.
    destruct (bool_decide _); [|done]. specialize (Hv s2 ltac:(lia)). destruct (v s2); simpl in *; try done. lia.
Qed.

(** Fuel beyond the length of the text suffices. *)
Lemma value_consumes fuel : forall depth s, (length s < fuel)%nat -> consumes (value fuel depth s) s.
Proof.
  induction fuel as [|fuel IH]; intros depth s Hf; [lia|]. cbn [value].
  pose proof (skip_length s) as Hk. destruct (skip s) as [|c s1] eqn:Es; [done|]. simpl in Hk.
  assert (Hm : forall (m : pres jtree), consumes m (c :: s1) -> consumes m s).
  { intros m Hm. eapply consumes_mono; [exact Hm|done]. }
  assert (Hc : forall (m : pres jtree),
    match m with POk _ rest' => (length rest' <= length s1)%nat | PFuel => False | _ => True end -> consumes m s).
  { intros m Hx. destruct m; simpl in *; try done. lia. }
  apply Hm. destruct (bool_decide _).
  { apply consumes_bind; [apply string_lit_consumes|]. by intros ? ? _ _. }
  destruct (bool_decide _).
  { apply consumes_bind; [|by intros ? ? _ _]. eapply consumes_mono; [apply bracketed_consumes; [lia|]|simpl; lia].
    intros s' Hs'. apply IH. lia. }
  destruct (bool_decide _).
  { apply consumes_bind; [|by intros ? ? _ _]. eapply consumes_mono; [apply bracketed_consumes; [lia|]|simpl; lia].
    intros s' Hs'. apply member_consumes. intros s'' Hs''. apply IH. lia. }
  destruct (_ || _).
  { apply consumes_bind; [apply number_consumes|]. by intros ? ? _ _. }
  repeat (destruct (bool_decide _);
    [match goal with |- consumes (expect ?p ?a s1) _ =>
       pose proof (expect_consumes p a s1) as H; destruct (expect p a s1); simpl in *; try done; lia end|]).
  done.
Qed.

Lemma scan_total s : scan s <> PFuel.
Proof.
  intros H. pose proof (value_consumes (S (length s)) 0 s ltac:(lia)) as Hc. unfold scan in H. by rewrite H in Hc.
Qed.

(** ** Texts without blanks are read back *)

Lemma upto_app a rest : upto (a ++ rest) rest = a.
Proof.
  unfold upto. rewrite length_app, Nat.add_sub. by rewrite take_app_length.
Qed.

Lemma hexval_digit d : 0 <= d < 16 -> hexval (hex_digit d) = Some d.
Proof.
  intros Hd. pose proof (hex_value_digit d Hd) as H. unfold hexval, hex_value in *.
  destruct (within 48 57 _); [done|]. by destruct (within 97 102 _).
Qed.

Lemma is_hex_digit d : 0 <= d < 16 -> is_hex (hex_digit d) = true.
Proof. intros Hd. unfold is_hex. rewrite hexval_digit by done. by apply bool_decide_eq_true. Qed.

Lemma getu4_escape r t : 0 <= r < 0x10000 -> getu4 (unicode_escape r ++ t) = Some r.
Proof.
  intros Hr. unfold unicode_escape, getu4. cbn [app]. rewrite !bool_decide_eq_true_2 by done. cbn [andb].
  rewrite !hexval_digit by dlia. simpl. f_equal. dlia.
Qed.

(** Text that stays inside a string and stands for the rune [r]. *)
Definition spells (p : bytes) (r : Z) : Prop :=
  (forall t, in_string 0 (p ++ t) = in_string 0 t) /\
  (forall fuel t, unquote (S fuel) (p ++ t) = encode r ++ unquote fuel t) /\
  (1 <= length p)%nat.

Lemma spells_unicode r : scalar r -> r < 0x10000 -> spells (unicode_escape r) r.
Proof.
  intros Hs Hr. assert (0 <= r) by (unfold scalar in Hs; lia). split; [|split; [|simpl; lia]].
  - intros t. unfold unicode_escape. cbn [app in_string].
    rewrite bool_decide_eq_false_2 by done. rewrite !bool_decide_eq_true_2 by done.
    by rewrite !is_hex_digit by dlia.
  - intros fuel t. pose proof (getu4_escape r t ltac:(lia)) as Hg. unfold unicode_escape in *. cbn [app] in *.
    cbn [unquote]. rewrite bool_decide_eq_true_2 by done. rewrite Hg.
    assert (within 0xD800 0xDFFF r = false) as ->; [|done].
    unfold scalar, within in *. lia.
Qed.

Lemma spells_short r c : short_escape r = Some c -> spells [BSLASH; c] r.
Proof.
  intros H. unfold short_escape in H.
  assert (Hg : forall x t, x <> LETTER_U -> getu4 (BSLASH :: x :: t) = None).
  { intros x t Hx. unfold getu4. rewrite (bool_decide_eq_false_2 (x = LETTER_U)), andb_false_r by done.
    by destruct t as [|? [|? [|? [|? ?]]]]. }
  repeat match type of H with
  | (if ?x =? ?k then _ else _) = _ =>
    destruct (Z.eqb_spec x k) as [->|];
      [injection H as <-; split; [done|split; [|simpl; lia]];
       intros fuel t; cbn [app unquote]; rewrite bool_decide_eq_true_2, Hg by done; reflexivity|]
  end. done.
Qed.

Lemma in_string_raw e t : Forall raw e -> in_string 0 (e ++ t) = in_string 0 t.
Proof.
  induction 1 as [|b e (Hb & Hq & Hs) _ IH]; [done|]. cbn [app in_string].
  rewrite !bool_decide_eq_false_2 by done. rewrite (proj2 (Z.ltb_ge _ _)) by done. exact IH.
Qed.

Lemma spells_raw r : scalar r -> 0x20 <= r -> r <> 0x22 -> r <> 0x5C -> spells (encode r) r.
Proof.
  intros Hs Hr Hq Hb. pose proof (encode_raw r Hs Hr Hq Hb) as Hraw.
  pose proof (encode_length r Hs) as Hl. split; [|split; [|lia]].
  - intros t. by apply in_string_raw.
  - intros fuel t. pose proof (decode_encode r t Hs) as Hd.
    destruct (encode r) as [|b e] eqn:E; [simpl in Hl; lia|].
    apply Forall_cons in Hraw as [(_ & _ & Hb') _]. cbn [app unquote].
    rewrite bool_decide_eq_false_2 by done. rewrite app_comm_cons, Hd, drop_app_length, E. done.
Qed.

Lemma spells_rune r : scalar r -> spells (escape_rune r) r.
Proof.
  intros Hs. unfold escape_rune. destruct (short_escape r) as [c|] eqn:Ec; [by apply spells_short|].
  assert (r <> 0x22 /\ r <> 0x5C) as [Hq Hb] by (split; intros ->; by vm_compute in Ec).
  destruct (_ || _) eqn:E.
  - apply spells_unicode; [done|]. unfold scalar in Hs. lia.
  - apply spells_raw; [done|lia|done|done].
Qed.

Lemma in_string_runes rs t : Forall scalar rs -> in_string 0 (concat (escape_rune <$> rs) ++ t) = in_string 0 t.
Proof.
  induction 1 as [|r rs Hr _ IH]; [done|]. rewrite fmap_cons. cbn [concat]. rewrite <- app_assoc.
  by rewrite (proj1 (spells_rune r Hr)).
Qed.

Lemma unquote_runes rs : forall fuel, Forall scalar rs -> (length rs <= fuel)%nat ->
  unquote fuel (concat (escape_rune <$> rs)) = encode_all rs.
Proof.
  induction rs as [|r rs IH]; intros fuel Hrs Hf; [by destruct fuel|].
  apply Forall_cons in Hrs as [Hr Hrs]. destruct fuel as [|fuel]; simpl in Hf; [lia|].
  rewrite fmap_cons, encode_all_cons. cbn [concat].
  rewrite (proj1 (proj2 (spells_rune r Hr))). by rewrite IH by (done || lia).
Qed.

Lemma escaped_length rs : Forall scalar rs -> (length rs <= length (concat (escape_rune <$> rs)))%nat.
Proof.
  induction 1 as [|r rs Hr _ IH]; [done|]. rewrite fmap_cons. cbn [concat length]. rewrite length_app.
  pose proof (proj2 (proj2 (spells_rune r Hr))). lia.
Qed.

Lemma string_lit_marshal s rest :
  valid s = true -> string_lit (marshal_string s ++ rest) = POk (marshal_string s, s) rest.
Proof.
  intros (rs & Hrs & ->)%valid_iff. unfold string_lit, marshal_string.
  rewrite escape_loop_valid by (done || by apply encode_all_length).
  set (x := concat (escape_rune <$> rs)). rewrite <- app_comm_cons, <- app_assoc. cbn [app].
  change (drop 1 (DQUOTE :: x ++ DQUOTE :: rest)) with (x ++ DQUOTE :: rest).
  unfold x at 1. rewrite in_string_runes by done. cbn [in_string]. rewrite bool_decide_eq_true_2 by done. cbn [pbind].
  assert (upto (DQUOTE :: x ++ DQUOTE :: rest) rest = DQUOTE :: x ++ [DQUOTE]) as ->.
  { rewrite <- (upto_app (DQUOTE :: x ++ [DQUOTE]) rest) at 1. by rewrite <- app_comm_cons, <- app_assoc. }
  assert (take (length (DQUOTE :: x ++ [DQUOTE]) - 2) (drop 1 (DQUOTE :: x ++ [DQUOTE])) = x) as ->.
  { change (drop 1 (DQUOTE :: x ++ [DQUOTE])) with (x ++ [DQUOTE]). cbn [length]. rewrite length_app.
    replace (S (length x + length [DQUOTE]) - 2)%nat with (length x) by (simpl; lia). apply take_app_length. }
  unfold x. by rewrite unquote_runes by (done || by apply escaped_length).
Qed.

(** What may follow a number. *)
Definition stops (t : bytes) : Prop :=
  match t with
  | c :: _ => is_digit c = false /\ c <> Byte.x2e /\ c <> Byte.x65 /\ c <> Byte.x45
  | [] => True
  end.

Definition number_start (c : Byte.byte) : bool := bool_decide (c = Byte.x2d) || is_digit c.

(** The text of a number. *)
Definition num_text (raw : bytes) (n : numlit) : Prop :=
  (forall rest, stops rest -> number (raw ++ rest) = POk n rest) /\
  exists c r, raw = c :: r /\ number_start c = true.

Definition member_text (f : bytes * jtree) : bytes := marshal_string f.1 ++ COLON :: raw_of f.2.

Definition arr_text (l : list jtree) : bytes := LBRACKET :: join COMMA (raw_of <$> l) ++ [RBRACKET].
Definition obj_text (fs : list (bytes * jtree)) : bytes := LBRACE :: join COMMA (member_text <$> fs) ++ [RBRACE].

(** Trees of texts without blanks, with strings as Marshal writes them. *)
Inductive compact : jtree -> Prop :=
| compact_null : compact TNull
| compact_bool b : compact (TBool b)
| compact_num raw n : num_text raw n -> compact (TNum raw n)
| compact_str s : valid s = true -> compact (TStr (marshal_string s) s)
| compact_arr l : Forall compact l -> compact (TArr (arr_text l) l)
| compact_obj fs : Forall (fun f => valid f.1 = true) fs -> Forall (fun f => compact f.2) fs ->
    compact (TObj (obj_text fs) fs).

Fixpoint height (t : jtree) : Z :=
  match t with
  | TArr _ l => 1 + foldr Z.max 0 (height <$> l)
  | TObj _ fs => 1 + foldr Z.max 0 ((fun f => height f.2) <$> fs)
  | _ => 0
  end.

Lemma compact_head t : compact t -> exists c r,
  raw_of t = c :: r /\ isSpace c = false /\ c <> RBRACKET /\ c <> RBRACE.
Proof.
  intros Ht. destruct Ht as [|[]|raw n (_ & c & r & -> & Hc)|s _|l _|fs _ _];
    try by (eexists _, _; split; [reflexivity|by vm_compute]).
  exists c, r. split; [done|]. unfold number_start in Hc. apply orb_prop in Hc as [Hc|Hc].
  - apply bool_decide_eq_true in Hc as ->. by vm_compute.
  - unfold is_digit, within in Hc. unfold isSpace. split; [lia|].
    split; intros ->; by vm_compute in Hc.
Qed.

Lemma skip_stop c s : isSpace c = false -> skip (c :: s) = c :: s.
Proof. simpl. by intros ->. Qed.

Lemma elements_join {A} (elem : bytes -> pres A) close (f : A -> bytes) l : forall n t,
  l <> [] -> (length l <= n)%nat -> close <> COMMA -> isSpace close = false ->
  (forall x t', x ∈ l -> delimiter close t' -> elem (f x ++ t') = POk x t') ->
  elements elem close n (join COMMA (f <$> l) ++ close :: t) = POk l t.
Proof.
  induction l as [|x l IH]; intros n t Hne Hn Hc Hsp He; [done|].
  destruct n as [|n]; simpl in Hn; [lia|]. destruct l as [|y l].
  - cbn [elements fmap list_fmap join]. rewrite He; [|by left|eexists _, _; split; [done|by right]].
    cbn [pbind]. rewrite skip_stop by done. by rewrite bool_decide_eq_true_2.
  - cbn [elements]. change (join COMMA (f <$> x :: y :: l)) with (f x ++ COMMA :: join COMMA (f <$> y :: l)).
    rewrite <- app_assoc. rewrite He; [|by left|eexists _, _; split; [done|by left]].
    cbn [pbind app]. rewrite skip_stop by done. rewrite bool_decide_eq_false_2, bool_decide_eq_true_2 by congruence.
    rewrite IH; [done|done|simpl in *; lia|done|done|]. intros z t' Hz. apply He. by right.
Qed.

Lemma join_length (l : list bytes) : Forall (fun x => (1 <= length x)%nat) l ->
  (length l <= length (join COMMA l))%nat /\ forall x, x ∈ l -> (length x <= length (join COMMA l))%nat.
Proof.
  induction 1 as [|x l Hx _ [IH1 IH2]]; [split; [done|by intros x ?%elem_of_nil]|].
  destruct l as [|y l].
  - simpl. split; [lia|]. intros z ->%list_elem_of_singleton. done.
  - change (join COMMA (x :: y :: l)) with (x ++ COMMA :: join COMMA (y :: l)). rewrite length_app. simpl in *.
    split; [lia|]. intros z [->|Hz]%elem_of_cons; [lia|]. specialize (IH2 z Hz). lia.
Qed.

Lemma foldr_max_in (l : list Z) x : x ∈ l -> x <= foldr Z.max 0 l.
Proof. induction 1; simpl; lia. Qed.

Lemma foldr_max_nonneg (l : list Z) : 0 <= foldr Z.max 0 l.
Proof. induction l; simpl; lia. Qed.

Lemma bracketed_join {A} (elem : bytes -> pres A) close (f : A -> bytes) l n depth t :
  (length l <= n)%nat -> depth < maxNestingDepth -> close <> COMMA -> isSpace close = false ->
  (forall x, x ∈ l -> exists c r, f x = c :: r /\ isSpace c = false /\ c <> close) ->
  (forall x t', x ∈ l -> delimiter close t' -> elem (f x ++ t') = POk x t') ->
  bracketed elem close n depth (join COMMA (f <$> l) ++ close :: t) = POk l t.
Proof.
  intros Hn Hd Hc Hsp Hh He. unfold bracketed. rewrite (proj2 (Z.leb_gt _ _)) by done.
  destruct l as [|x l].
  - cbn [fmap list_fmap join app]. rewrite skip_stop by done. by rewrite bool_decide_eq_true_2.
  - destruct (Hh x ltac:(by left)) as (c & r & Ex & Hcs & Hcc).
    assert (exists r', join COMMA (f <$> x :: l) ++ close :: t = c :: r') as (r' & Er).
    { destruct l as [|y l]; simpl; rewrite Ex; eauto. }
    rewrite Er, skip_stop by done. rewrite bool_decide_eq_false_2 by done. rewrite <- Er.
    by apply elements_join.
Qed.

Lemma delimiter_stops close t : close = RBRACKET \/ close = RBRACE -> delimiter close t -> stops t.
Proof. intros [-> | ->] (c & t' & -> & [-> | ->]); by vm_compute. Qed.

Lemma value_bool fuel depth b rest : value (S fuel) depth (raw_of (TBool b) ++ rest) = POk (TBool b) rest.
Proof. by destruct b. Qed.

Lemma value_num fuel depth raw n rest :
  num_text raw n -> stops rest -> value (S fuel) depth (raw ++ rest) = POk (TNum raw n) rest.
Proof.
  intros (Hn & c & r & -> & Hc) Hr. specialize (Hn rest Hr). cbn [value app] in *.
  assert (Hs : isSpace c = false /\ c <> DQUOTE /\ c <> LBRACKET /\ c <> LBRACE).
  { unfold number_start in Hc. apply orb_prop in Hc as [Hc|Hc].
    - apply bool_decide_eq_true in Hc as ->. by vm_compute.
    - unfold is_digit, within in Hc. unfold isSpace. split; [lia|]. split_and!; intros ->; by vm_compute in Hc. }
  destruct Hs as (Hs & H1 & H2 & H3). rewrite skip_stop by done. rewrite !bool_decide_eq_false_2 by done.
  unfold number_start in Hc. rewrite Hc, Hn. cbn [pbind]. by rewrite app_comm_cons, upto_app.
Qed.

(** The reader gives a tree of that kind back, whatever follows it. *)
Lemma value_compact t : forall fuel depth rest,
  compact t -> height t + depth <= maxNestingDepth -> (length (raw_of t) <= fuel)%nat -> stops rest ->
  value fuel depth (raw_of t ++ rest) = POk t rest.
Proof.
  induction t as [|b|raw n|raw s|raw l IH|raw fs IH] using jtree_nested_ind; intros fuel depth rest Hc Hh Hf Hr;
    (destruct fuel as [|fuel]; [destruct (compact_head _ Hc) as (c & r & E & _); rewrite E in Hf; simpl in Hf; lia|]).
  - reflexivity.
  - apply value_bool.
  - inv Hc. by apply value_num.
  - inv Hc. cbn [raw_of value]. unfold marshal_string at 1. rewrite <- app_comm_cons, skip_stop by done.
    rewrite app_comm_cons. fold (marshal_string s). rewrite bool_decide_eq_true_2 by done.
    rewrite string_lit_marshal by done. reflexivity.
  - inv Hc. rename select (Forall compact l) into Hl. rewrite Forall_forall in IH, Hl. cbn [raw_of] in *.
    unfold arr_text at 1. cbn [value]. rewrite <- app_comm_cons, skip_stop by done.
    rewrite bool_decide_eq_false_2 by done. rewrite bool_decide_eq_true_2 by done.
    destruct (join_length (raw_of <$> l)) as [Hj1 Hj2].
    { apply Forall_fmap, Forall_forall. intros x Hx. destruct (compact_head x (Hl x Hx)) as (c & r & E & _).
      simpl. rewrite E. simpl. lia. }
    rewrite length_fmap in Hj1. unfold arr_text in Hf. cbn [length] in Hf. rewrite length_app in Hf. cbn [length] in Hf.
    rewrite <- app_assoc. cbn [app height] in *.
    rewrite bracketed_join; [|lia| |done|done| |].
    + cbn [pbind]. do 2 f_equal. unfold arr_text. rewrite <- (upto_app (LBRACKET :: join COMMA (raw_of <$> l) ++ [RBRACKET]) rest).
      by rewrite <- app_comm_cons, <- app_assoc.
    + pose proof (foldr_max_nonneg (height <$> l)). lia.
    + intros x Hx. destruct (compact_head x (Hl x Hx)) as (c & r & E & H1 & H2 & _). eauto.
    + intros x t' Hx Hd. apply IH; [done|by apply Hl| | |by eapply delimiter_stops; [left|]].
      * pose proof (foldr_max_in (height <$> l) (height x) ltac:(by apply list_elem_of_fmap_2)). lia.
      * specialize (Hj2 (raw_of x) ltac:(by apply list_elem_of_fmap_2)). lia.
  - inv Hc. rename select (Forall (fun f => valid f.1 = true) fs) into Hk.
    rename select (Forall (fun f => compact f.2) fs) into Hl. rewrite Forall_forall in IH, Hl, Hk. cbn [raw_of] in *.
    unfold obj_text at 1. cbn [value]. rewrite <- app_comm_cons, skip_stop by done.
    rewrite !bool_decide_eq_false_2 by done. rewrite bool_decide_eq_true_2 by done.
    destruct (join_length (member_text <$> fs)) as [Hj1 Hj2].
    { apply Forall_fmap, Forall_forall. intros x Hx. unfold member_text, marshal_string. simpl. lia. }
    rewrite length_fmap in Hj1. unfold obj_text in Hf. cbn [length] in Hf. rewrite length_app in Hf. cbn [length] in Hf.
    rewrite <- app_assoc. cbn [app height] in *.
    rewrite bracketed_join; [|lia| |done|done| |].
    + cbn [pbind]. do 2 f_equal. unfold obj_text. rewrite <- (upto_app (LBRACE :: join COMMA (member_text <$> fs) ++ [RBRACE]) rest).
      by rewrite <- app_comm_cons, <- app_assoc.
    + pose proof (foldr_max_nonneg ((fun f => height f.2) <$> fs)). lia.
    + intros [k x] Hx. eexists _, _. split; [reflexivity|done].
    + intros [k x] t' Hx Hd. unfold member, member_text. cbn [fst snd].
      rewrite <- app_assoc. unfold marshal_string at 1. rewrite <- app_comm_cons, skip_stop by done.
      rewrite app_comm_cons. fold (marshal_string k). rewrite bool_decide_eq_true_2 by done.
      rewrite string_lit_marshal by (by apply (Hk (k, x))). cbn [pbind app]. rewrite skip_stop by done.
      rewrite bool_decide_eq_true_2 by done.
      rewrite (IH (k, x) Hx); [done|by apply (Hl (k, x))| | |by eapply delimiter_stops; [right|]].
      * pose proof (foldr_max_in ((fun f : bytes * jtree => height f.2) <$> fs) (height x)
          ltac:(apply list_elem_of_fmap; by exists (k, x))). simpl. lia.
      * specialize (Hj2 (member_text (k, x)) ltac:(by apply list_elem_of_fmap_2)).
        assert (length (member_text (k, x)) = length (marshal_string k) + S (length (raw_of x)))%nat
          by (unfold member_text; by rewrite length_app). cbn [snd]. lia.
Qed.

Lemma scan_compact t rest :
  compact t -> height t <= maxNestingDepth -> stops rest -> scan (raw_of t ++ rest) = POk t rest.
Proof.
  intros Ht Hh Hr. unfold scan. apply value_compact; [done|lia| |done]. rewrite length_app. lia.
Qed.

(** ** What Marshal writes *)

Definition abs_digits (z : Z) : bytes := digits (S (Z.to_nat (Z.abs z))) (Z.abs z) [].
Definition int_lit (z : Z) : numlit := MkNum (z <? 0) (abs_digits z) None None.

Lemma marshal_int_abs z : marshal_int z = (if z <? 0 then [Byte.x2d] else []) ++ abs_digits z.
Proof.
  unfold marshal_int, abs_digits. destruct (Z.ltb_spec z 0).
  - by rewrite Z.abs_neq by lia.
  - by rewrite Z.abs_eq by lia.
Qed.

Lemma digits_all fuel n acc : 0 <= n ->
  Forall (fun b => is_digit b = true) acc -> Forall (fun b => is_digit b = true) (digits fuel n acc).
Proof.
  revert n acc. induction fuel as [|fuel IH]; intros n acc Hn Ha; [done|]. cbn [digits].
  assert (Forall (fun b => is_digit b = true) (zb (48 + n mod 10) :: acc)).
  { constructor; [apply is_digit_zb; dlia|done]. }
  destruct (n <? 10); [done|]. apply IH; [dlia|done].
Qed.

(** No leading zero. *)
Lemma digits_lead fuel n acc : 0 < n < Z.of_nat fuel -> exists d r,
  digits fuel n acc = d :: r /\ d <> Byte.x30.
Proof.
  revert n acc. induction fuel as [|fuel IH]; intros n acc Hn; [lia|]. cbn [digits].
  destruct (Z.ltb_spec n 10); [|apply IH; dlia]. eexists _, _. split; [done|].
  rewrite Z.mod_small by lia. intros E. apply (f_equal bz) in E. rewrite bz_zb in E by lia. change (bz Byte.x30) with 48 in E. lia.
Qed.

Lemma take_digits_app ds t : Forall (fun b => is_digit b = true) ds ->
  match t with c :: _ => is_digit c = false | [] => True end -> take_digits (ds ++ t) = (ds, t).
Proof.
  intros Hd Ht. induction Hd as [|d ds Hd _ IH]; simpl.
  - destruct t as [|c t]; [done|]. simpl. by rewrite Ht.
  - by rewrite Hd, IH.
Qed.

Lemma stops_no_digit t : stops t -> match t with c :: _ => is_digit c = false | [] => True end.
Proof. destruct t; [done|]. by intros [? _]. Qed.

Lemma num_int_abs z t : stops t -> num_int (abs_digits z ++ t) = POk (abs_digits z) t.
Proof.
  intros Ht. destruct (Z.eq_dec z 0) as [->|Hz]; [reflexivity|].
  pose proof (digits_all (S (Z.to_nat (Z.abs z))) (Z.abs z) [] ltac:(lia) ltac:(constructor)) as Hall.
  destruct (digits_lead (S (Z.to_nat (Z.abs z))) (Z.abs z) [] ltac:(lia)) as (d & r & E & Hd).
  unfold abs_digits. rewrite E in *. cbn [app num_int]. rewrite bool_decide_eq_false_2 by done.
  unfold digits1. rewrite app_comm_cons, take_digits_app by (done || by apply stops_no_digit). done.
Qed.

Lemma num_tail_none t : stops t -> num_frac t = POk None t /\ num_exp t = POk None t.
Proof.
  destruct t as [|c t]; [done|]. intros (_ & H1 & H2 & H3). cbn [num_frac num_exp].
  by rewrite !bool_decide_eq_false_2 by done.
Qed.

Lemma abs_digits_head z : exists c r, abs_digits z = c :: r /\ is_digit c = true.
Proof.
  destruct (digits_head (S (Z.to_nat (Z.abs z))) (Z.abs z) [] ltac:(lia)) as (d & r & E & Hd).
  eexists _, _. split; [exact E|]. by apply is_digit_zb.
Qed.

Lemma num_text_int z : num_text (marshal_int z) (int_lit z).
Proof.
  rewrite marshal_int_abs. destruct (abs_digits_head z) as (c & r & E & Hc). split.
  - intros rest Hr. destruct (num_tail_none rest Hr) as [Hf He]. unfold number, int_lit.
    destruct (z <? 0).
    + cbn [app]. rewrite bool_decide_eq_true_2 by done. rewrite num_int_abs by done. cbn [pbind].
      rewrite Hf. cbn [pbind]. by rewrite He.
    + cbn [app]. pose proof (num_int_abs z rest Hr) as Hi. rewrite E in *. cbn [app] in *.
      rewrite bool_decide_eq_false_2 by (intros ->; by vm_compute in Hc). rewrite Hi. cbn [pbind].
      rewrite Hf. cbn [pbind]. by rewrite He.
  - destruct (z <? 0); [by eexists _, _|]. exists c, r. split; [exact E|]. unfold number_start. rewrite Hc.
    apply orb_true_r.
Qed.

Lemma ParseInt_int z : int64_range z -> ParseInt (int_lit z) = Some z.
Proof.
  intros Hz. unfold ParseInt, int_lit, digits_value, abs_digits. cbn [n_frac n_exp n_int n_neg].
  rewrite parse_digits_digits by lia. cbn [parse_digits fst]. unfold int64_range in Hz.
  assert ((if z <? 0 then - Z.abs z else Z.abs z) = z) as -> by (destruct (Z.ltb_spec z 0); lia).
  rewrite (proj2 (Z.leb_le _ _)), (proj2 (Z.ltb_lt _ _)) by lia. done.
Qed.

(** The tree of a marshalled value. *)
Fixpoint tree_of (v : json) : jtree :=
  match v with
  | JNull => TNull
  | JBool b => TBool b
  | JInt z => TNum (marshal_int z) (int_lit z)
  | JStr s => TStr (marshal_string s) s
  | JArr l => let l' := tree_of <$> l in TArr (arr_text l') l'
  | JObj fs => let fs' := (fun '(k, x) => (k, tree_of x)) <$> fs in TObj (obj_text fs') fs'
  end.

Lemma raw_tree_of v : raw_of (tree_of v) = Marshal v.
Proof.
  induction v as [|[]|z|s|l IH|fs IH] using json_nested_ind; try done.
  - cbn [tree_of raw_of Marshal]. unfold arr_text. do 3 f_equal. rewrite <- list_fmap_compose.
    apply list_fmap_ext. intros i x Hx%list_elem_of_lookup_2. rewrite Forall_forall in IH. by apply IH.
  - cbn [tree_of raw_of Marshal]. unfold obj_text. do 3 f_equal. rewrite <- list_fmap_compose.
    apply list_fmap_ext. intros i [k x] Hx%list_elem_of_lookup_2. rewrite Forall_forall in IH.
    specialize (IH _ Hx). cbn [snd] in IH. unfold member_text. simpl. by rewrite IH.
Qed.

Lemma compact_tree_of v : utf8_json v = true -> compact (tree_of v).
Proof.
  induction v as [|b|z|s|l IH|fs IH] using json_nested_ind; intros Hu; try constructor.
  - apply num_text_int.
  - done.
  - rewrite Forall_forall in IH. apply Forall_fmap, Forall_forall. intros x Hx. apply IH; [done|].
    cbn [utf8_json] in Hu. rewrite forallb_forall in Hu. apply Hu. by apply list_elem_of_In.
  - apply Forall_fmap, Forall_forall. intros [k x] Hx. cbn [utf8_json] in Hu. rewrite forallb_forall in Hu.
    specialize (Hu (k, x) ltac:(by apply list_elem_of_In)). simpl in *. by apply andb_prop in Hu as [? ?].
  - rewrite Forall_forall in IH. apply Forall_fmap, Forall_forall. intros [k x] Hx. cbn [utf8_json] in Hu.
    rewrite forallb_forall in Hu. specialize (Hu (k, x) ltac:(by apply list_elem_of_In)). simpl in *.
    apply andb_prop in Hu as [? ?]. by apply (IH (k, x)).
Qed.

(** A marshalled value is a document, and its tree is read. *)
Lemma document_Marshal v :
  utf8_json v = true -> height (tree_of v) <= maxNestingDepth -> document (Marshal v) = Ok (tree_of v).
Proof.
  intros Hu Hh. unfold document. rewrite <- raw_tree_of. rewrite <- (app_nil_r (raw_of _)).
  by rewrite scan_compact by (done || by apply compact_tree_of).
Qed.

(** A number that is read whole is the text of a number. *)
Lemma take_digits_more s rest : stops rest ->
  take_digits (s ++ rest) = ((take_digits s).1, (take_digits s).2 ++ rest).
Proof.
  intros Hr. induction s as [|c s IH]; simpl.
  - by apply (take_digits_app [] rest); [|apply stops_no_digit].
  - destruct (is_digit c); [|done]. rewrite IH. by destruct (take_digits s).
Qed.

Lemma digits1_more s ds r rest : stops rest -> digits1 s = POk ds r -> digits1 (s ++ rest) = POk ds (r ++ rest).
Proof.
  intros Hr. unfold digits1. rewrite take_digits_more by done.
  destruct (take_digits s) as [[|d ds'] [|x r']]; simpl; try done; by intros [= <- <-].
Qed.

Lemma num_int_more s i r rest : stops rest -> num_int s = POk i r -> num_int (s ++ rest) = POk i (r ++ rest).
Proof.
  intros Hr. destruct s as [|c s]; [done|]. cbn [num_int app]. case_bool_decide; [by intros [= <- <-]|].
  by apply (digits1_more (c :: s)).
Qed.

Lemma num_frac_more s f r rest : stops rest -> num_frac s = POk f r -> num_frac (s ++ rest) = POk f (r ++ rest).
Proof.
  intros Hr. destruct s as [|c s]; [intros [= <- <-]; by apply num_tail_none|]. cbn [num_frac app].
  case_bool_decide; [|by intros [= <- <-]]. destruct (digits1 s) as [ds r'| | |] eqn:E; try done. intros [= <- <-].
  by rewrite (digits1_more s ds r' rest Hr E).
Qed.

Lemma num_exp_more s e r rest : stops rest -> num_exp s = POk e r -> num_exp (s ++ rest) = POk e (r ++ rest).
Proof.
  intros Hr. destruct s as [|c s]; [intros [= <- <-]; by apply num_tail_none|]. cbn [num_exp app].
  destruct (_ || _); [|by intros [= <- <-]]. destruct s as [|d s]; [done|]. cbn [app].
  case_bool_decide; [|case_bool_decide].
  - destruct (digits1 s) as [ds r'| | |] eqn:E; try done. intros [= <- <-]. by rewrite (digits1_more s ds r' rest Hr E).
  - destruct (digits1 s) as [ds r'| | |] eqn:E; try done. intros [= <- <-]. by rewrite (digits1_more s ds r' rest Hr E).
  - destruct (digits1 (d :: s)) as [ds r'| | |] eqn:E; try done. intros [= <- <-].
    apply (digits1_more _ _ _ rest Hr) in E. cbn [app] in E. by rewrite E.
Qed.

Lemma number_more s n r rest : stops rest -> s <> [] -> number s = POk n r -> number (s ++ rest) = POk n (r ++ rest).
Proof.
  intros Hr Hne. unfold number. destruct s as [|c s]; [done|]. cbn [app].
  set (sg := if bool_decide (c = Byte.x2d) then (true, s) else (false, c :: s)).
  assert (Hsg : (if bool_decide (c = Byte.x2d) then (true, s ++ rest) else (false, c :: s ++ rest)) = (sg.1, sg.2 ++ rest)).
  { unfold sg. by destruct (bool_decide _). }
  rewrite Hsg. clearbody sg. destruct sg as [neg s1]. cbn [fst snd].
  destruct (num_int s1) as [i s2| | |] eqn:Ei; try done. rewrite (num_int_more s1 i s2 rest Hr Ei). cbn [pbind].
  destruct (num_frac s2) as [f s3| | |] eqn:Ef; try done. rewrite (num_frac_more s2 f s3 rest Hr Ef). cbn [pbind].
  destruct (num_exp s3) as [e s4| | |] eqn:Ee; try done. rewrite (num_exp_more s3 e s4 rest Hr Ee). cbn [pbind].
  by intros [= <- <-].
Qed.

Lemma num_text_of raw n : number raw = POk n [] -> num_text raw n.
Proof.
  intros H. destruct raw as [|c r]; [done|]. split.
  - intros rest Hr. exact (number_more (c :: r) n [] rest Hr ltac:(done) H).
  - exists c, r. split; [done|]. unfold number_start. unfold number in H. case_bool_decide; [done|]. simpl.
    cbn [num_int] in H. case_bool_decide as Hc; [by subst c|]. unfold digits1 in H. cbn [take_digits] in H.
    by destruct (is_digit c).
Qed.
