(* ===== verification/GoDecode.v ===== *)
(** * encoding/json: Go values

    json.Unmarshal and Decoder.Decode into Go values, by the type of the target,
    and json.Marshal of such values.  A type is one of [gotype]: the kinds the
    repository's structs are made of, with the names and the omitempty options of
    struct tags.  A value of a type is a [goval]; decoding takes the value the
    target holds before and gives the one it holds after, with the first error,
    the way decode.go saves a type error and goes on.

    A slice keeps the elements between its length and its capacity: decoding into a
    slice reuses them.  A map is a list of entries sorted by key.  An interface
    value holds what decoding puts there, never a pointer. *)

From stdpp Require Import base option list sets sorting.
From Stdlib Require Import ZArith Lia SpecFloat.
From Stdlib.Strings Require Byte.
From S2P Require Import Prelude GoErrors Utf8 Json GoJson.

Open Scope Z_scope.

(** ** Types and values *)

Inductive gotype : Type :=
| GBool
| GInt
| GFloat64
| GString
| GRaw
| GAny
| GPtr (t : gotype)
| GSlice (t : gotype)
| GMap (t : gotype)
| GStruct (fields : list (bytes * bool * gotype)).

(** A field with its JSON name, and one with omitempty. *)
Definition field (name : String.string) (t : gotype) : bytes * bool * gotype := (lit name, false, t).
Definition field_omitempty (name : String.string) (t : gotype) : bytes * bool * gotype := (lit name, true, t).
Arguments field name%_string_scope t.
Arguments field_omitempty name%_string_scope t.

Section TypeInd.
Context (P : gotype -> Prop).
Context (Pbool : P GBool) (Pint : P GInt) (Pfloat : P GFloat64) (Pstring : P GString) (Praw : P GRaw) (Pany : P GAny).
Context (Pptr : forall t, P t -> P (GPtr t)) (Pslice : forall t, P t -> P (GSlice t)) (Pmap : forall t, P t -> P (GMap t)).
Context (Pstruct : forall fs, Forall (fun f => P f.2) fs -> P (GStruct fs)).

Fixpoint gotype_nested_ind (t : gotype) : P t :=
  match t with
  | GBool => Pbool
  | GInt => Pint
  | GFloat64 => Pfloat
  | GString => Pstring
  | GRaw => Praw
  | GAny => Pany
  | GPtr t => Pptr t (gotype_nested_ind t)
  | GSlice t => Pslice t (gotype_nested_ind t)
  | GMap t => Pmap t (gotype_nested_ind t)
  | GStruct fs => Pstruct fs ((fix go fs : Forall (fun f => P f.2) fs :=
      match fs with
      | [] => Forall_nil_2 _
      | (x, t) :: fs' => Forall_cons_2 (fun f => P f.2) (x, t) _ (gotype_nested_ind t) (go fs')
      end) fs)
  end.
End TypeInd.

Inductive goval : Type :=
| VBool (b : bool)
| VInt (z : Z)
| VFloat (f : spec_float)
| VString (s : bytes)
| VRaw (s : bytes)
| VNil
| VPtr (v : goval)
| VSlice (xs spare : list goval)
| VMap (kvs : list (bytes * goval))
| VStruct (vs : list goval).

Section ValInd.
Context (P : goval -> Prop).
Context (Pbool : forall b, P (VBool b)) (Pint : forall z, P (VInt z)) (Pfloat : forall f, P (VFloat f)).
Context (Pstring : forall s, P (VString s)) (Praw : forall s, P (VRaw s)) (Pnil : P VNil).
Context (Pptr : forall v, P v -> P (VPtr v)) (Pslice : forall xs spare, Forall P xs -> P (VSlice xs spare)).
Context (Pmap : forall kvs, Forall (fun kv => P kv.2) kvs -> P (VMap kvs)) (Pstruct : forall vs, P (VStruct vs)).

Fixpoint goval_nested_ind (v : goval) : P v :=
  match v with
  | VBool b => Pbool b
  | VInt z => Pint z
  | VFloat f => Pfloat f
  | VString s => Pstring s
  | VRaw s => Praw s
  | VNil => Pnil
  | VPtr v => Pptr v (goval_nested_ind v)
  | VSlice xs spare => Pslice xs spare ((fix go l : Forall P l :=
      match l with
      | [] => Forall_nil_2 _
      | x :: l' => Forall_cons_2 _ _ _ (goval_nested_ind x) (go l')
      end) xs)
  | VMap kvs => Pmap kvs ((fix go fs : Forall (fun f => P f.2) fs :=
      match fs with
      | [] => Forall_nil_2 _
      | (k, x) :: fs' => Forall_cons_2 (fun f => P f.2) (k, x) _ (goval_nested_ind x) (go fs')
      end) kvs)
  | VStruct vs => Pstruct vs
  end.
End ValInd.

Fixpoint zero (t : gotype) : goval :=
  match t with
  | GBool => VBool false
  | GInt => VInt 0
  | GFloat64 => VFloat (S754_zero false)
  | GString => VString []
  | GRaw | GAny | GPtr _ | GSlice _ | GMap _ => VNil
  | GStruct fs => VStruct ((fun '(_, t) => zero t) <$> fs)
  end.

(** ** Maps *)

(** Go orders the keys of a marshalled map by their bytes. *)
Fixpoint blt (a b : bytes) : bool :=
  match a, b with
  | [], [] => false
  | [], _ :: _ => true
  | _ :: _, [] => false
  | x :: a', y :: b' => if bz x =? bz y then blt a' b' else bz x <? bz y
  end.

Fixpoint map_insert {V} (k : bytes) (v : V) (kvs : list (bytes * V)) : list (bytes * V) :=
  match kvs with
  | [] => [(k, v)]
  | (k', v') :: rest =>
    if decide (k = k') then (k, v) :: rest
    else if blt k k' then (k, v) :: kvs else (k', v') :: map_insert k v rest
  end.

(** ** Decoding *)

(** The first error is kept. *)
Definition orelse (e1 e2 : option error) : option error := match e1 with Some _ => e1 | None => e2 end.

Definition mismatch (what : bytes) : option error := Some (UnmarshalTypeError (String.string_of_list_byte what)).
Definition bad_number (raw : bytes) : option error := mismatch (lit "number " ++ raw).

(** foldRune, where it matters to names in ASCII: the two other runes that fold
    to ASCII letters. *)
Definition foldRune (r : Z) : Z :=
  if within 97 122 r then r - 32 else if r =? 0x17F then 83 else if r =? 0x212A then 75 else r.

Fixpoint foldName (fuel : nat) (s : bytes) : bytes :=
  match fuel, s with
  | S fuel', _ :: _ => let '(r, size) := decode s in encode (foldRune r) ++ foldName fuel' (drop size s)
  | _, _ => []
  end.

Definition folded (s : bytes) : bytes := foldName (length s) s.

Fixpoint index_of {A} (p : A -> bool) (l : list A) : option nat :=
  match l with
  | [] => None
  | x :: l' => if p x then Some O else S <$> index_of p l'
  end.

(** The field a key names: exactly, or up to case. *)
Definition find_field (fs : list (bytes * bool * gotype)) (k : bytes) : option nat :=
  match index_of (fun f => bool_decide (f.1.1 = k)) fs with
  | Some i => Some i
  | None => index_of (fun f => bool_decide (folded f.1.1 = folded k)) fs
  end.

(** valueInterface: a value for an interface. *)
Fixpoint valueInterface (t : jtree) : goval * option error :=
  match t with
  | TNull => (VNil, None)
  | TBool b => (VBool b, None)
  | TNum raw n => match ParseFloat n with Some f => (VFloat f, None) | None => (VNil, bad_number raw) end
  | TStr _ s => (VString s, None)
  | TArr _ l =>
    let rs := valueInterface <$> l in (VSlice rs.*1 [], foldr orelse None rs.*2)
  | TObj _ fs =>
    let rs := (fun '(k, t) => (k, valueInterface t)) <$> fs in
    (VMap (foldl (fun m r => map_insert r.1 r.2.1 m) [] rs), foldr (fun r e => orelse r.2.2 e) None rs)
  end.

(** null *)
Definition store_null (ty : gotype) (v : goval) : goval :=
  match ty with
  | GRaw => VRaw (lit "null")
  | GAny | GPtr _ | GSlice _ | GMap _ => VNil
  | _ => v
  end.

(** indirect: through the pointers of the target, allocating where one is nil. *)
Fixpoint peel (ty : gotype) : nat * gotype :=
  match ty with
  | GPtr t => let '(n, base) := peel t in (S n, base)
  | _ => (O, ty)
  end.

Fixpoint deref (n : nat) (base : gotype) (v : goval) : goval :=
  match n with
  | O => v
  | S n' => match v with VPtr v' => deref n' base v' | _ => zero base end
  end.

(** literalStore, for what is not null. *)
Definition store_bool (b : bool) (base : gotype) (cur : goval) : goval * option error :=
  match base with GBool => (VBool b, None) | _ => (cur, mismatch (lit "bool")) end.

Definition store_string (s : bytes) (base : gotype) (cur : goval) : goval * option error :=
  match base with GString => (VString s, None) | _ => (cur, mismatch (lit "string")) end.

Definition store_number (raw : bytes) (n : numlit) (base : gotype) (cur : goval) : goval * option error :=
  match base with
  | GInt => match ParseInt n with Some z => (VInt z, None) | None => (cur, bad_number raw) end
  | GFloat64 => match ParseFloat n with Some f => (VFloat f, None) | None => (cur, bad_number raw) end
  | _ => (cur, mismatch (lit "number"))
  end.

Section Loops.
Context (dvalue : jtree -> gotype -> goval -> goval * option error).

(** The loop of array over a slice: an element is decoded into the one that is
    there, or into a new one. *)
Definition array_loop (el : gotype) :=
  fix go (l : list jtree) (old : list goval) : list goval * list goval * option error :=
    match l with
    | [] => ([], old, None)
    | t :: l' =>
      let '(r, e1) := dvalue t el (default (zero el) (head old)) in
      let '(rs, rest, e2) := go l' (tail old) in
      (r :: rs, rest, orelse e1 e2)
    end.

(** The loop of object over a struct; unknown keys are skipped. *)
Definition struct_loop (fs : list (bytes * bool * gotype)) :=
  fix go (ms : list (bytes * jtree)) (vs : list goval) : list goval * option error :=
    match ms with
    | [] => (vs, None)
    | (k, t) :: ms' =>
      match find_field fs k with
      | None => go ms' vs
      | Some i =>
        match fs !! i, vs !! i with
        | Some f, Some v =>
          let '(r, e1) := dvalue t f.2 v in
          let '(vs', e2) := go ms' (<[i := r]> vs) in
          (vs', orelse e1 e2)
        | _, _ => go ms' vs
        end
      end
    end.

(** The loop of object over a map: every element is decoded into a zero value. *)
Definition map_loop (el : gotype) :=
  fix go (ms : list (bytes * jtree)) (kvs : list (bytes * goval)) : list (bytes * goval) * option error :=
    match ms with
    | [] => (kvs, None)
    | (k, t) :: ms' =>
      let '(r, e1) := dvalue t el (zero el) in
      let '(kvs', e2) := go ms' (map_insert k r kvs) in
      (kvs', orelse e1 e2)
    end.
End Loops.

(** value *)
Fixpoint dvalue (t : jtree) (ty : gotype) (v : goval) {struct t} : goval * option error :=
  match t with
  | TNull => (store_null ty v, None)
  | _ =>
    let '(n, base) := peel ty in
    let cur := deref n base v in
    let '(r, e) :=
      match base with
      | GRaw => (VRaw (raw_of t), None)
      | GAny =>
        match t with
        | TNum raw m => match ParseFloat m with Some f => (VFloat f, None) | None => (cur, bad_number raw) end
        | _ => valueInterface t
        end
      | _ =>
        match t with
        | TNull => (cur, None)
        | TBool b => store_bool b base cur
        | TStr _ s => store_string s base cur
        | TNum raw m => store_number raw m base cur
        | TArr _ l =>
          match base with
          | GSlice el =>
            let old := match cur with VSlice xs spare => xs ++ spare | _ => [] end in
            let '(rs, rest, e) := array_loop dvalue el l old in
            (VSlice rs (match rs with [] => [] | _ => rest end), e)
          | _ => (cur, mismatch (lit "array"))
          end
        | TObj _ ms =>
          match base, cur with
          | GStruct fs, VStruct vs => let '(vs', e) := struct_loop dvalue fs ms vs in (VStruct vs', e)
          | GMap el, _ =>
            let old := match cur with VMap kvs => kvs | _ => [] end in
            let '(kvs, e) := map_loop dvalue el ms old in (VMap kvs, e)
          | _, _ => (cur, mismatch (lit "object"))
          end
        end
      end in
    (Nat.iter n VPtr r, e)
  end.

(** What is handed to Unmarshal: a pointer to a value, or something that is not
    a usable pointer. *)
Inductive target : Type :=
| Pointer (ty : gotype) (v : goval)
| NotPointer.

Definition InvalidUnmarshalError : error := ForeignError 30.

Definition Unmarshal (data : bytes) (dst : target) : option error * target :=
  match document data with
  | Err err => (Some err, dst)
  | Ok t =>
    match dst with
    | NotPointer => (Some InvalidUnmarshalError, dst)
    | Pointer ty v => let '(v', e) := dvalue t ty v in (e, Pointer ty v')
    end
  end.

(** json.NewDecoder(r).Decode(&v) with v a new value of the type; the value when
    there is no error. *)
Definition Decode (r : reader) (ty : gotype) : gores goval :=
  match readValue r with
  | Err err => Err err
  | Ok t =>
    match dvalue t ty (zero ty) with
    | (v, None) => Ok v
    | (_, Some err) => Err err
    end
  end.

(** JSON text with single quotes for double ones, for examples. *)
Definition quoted (s : String.string) : bytes := (fun c => if bool_decide (c = Byte.x27) then DQUOTE else c) <$> lit s.
Arguments quoted s%_string_scope.

Definition demo_type : gotype :=
  GStruct [field "n" GInt; field_omitempty "xs" (GSlice (GStruct [field "a" GInt; field "b" GString]))].

(** Keys match up to case, unknown keys and what follows the value are ignored, and
    an element is decoded into the one the slice held: the second list finds the b
    of the first. *)
Example demo_reuse :
  Decode (MkReader (quoted "{'N': 1, 'xs': [{'a':1,'b':'x'}], 'y': null, 'xs':[{'a':2}]} and more") None) demo_type
  = Ok (VStruct [VInt 1; VSlice [VStruct [VInt 2; VString (lit "x")]] []]).
Proof. vm_compute. reflexivity. Qed.

(** A number that is not an integer does not fit, and the other fields are set. *)
Example demo_mismatch :
  Unmarshal (quoted "{'n': 1.0, 'xs': []}") (Pointer demo_type (VStruct [VInt 7; VNil]))
  = (Some (UnmarshalTypeError "number 1.0"), Pointer demo_type (VStruct [VInt 7; VSlice [] []])).
Proof. vm_compute. reflexivity. Qed.

(** ** Maps stay sorted *)

Lemma blt_irrefl a : blt a a = false.
Proof. induction a as [|x a IH]; simpl; [done|]. by rewrite Z.eqb_refl. Qed.

Lemma blt_trans a b c : blt a b = true -> blt b c = true -> blt a c = true.
Proof.
  revert b c. induction a as [|x a IH]; intros [|y b] [|z c]; simpl; try done.
  destruct (Z.eqb_spec (bz x) (bz y)), (Z.eqb_spec (bz y) (bz z)), (Z.eqb_spec (bz x) (bz z)); try lia.
  by apply IH.
Qed.

Lemma blt_total a b : a <> b -> blt a b = false -> blt b a = true.
Proof.
  revert b. induction a as [|x a IH]; intros [|y b]; simpl; try done.
  destruct (Z.eqb_spec (bz x) (bz y)) as [E|]; destruct (Z.eqb_spec (bz y) (bz x)); try lia.
  apply bz_inj in E as ->. intros Hn. apply IH. congruence.
Qed.

Definition sorted_keys {V} (kvs : list (bytes * V)) : Prop :=
  StronglySorted (fun a b => blt a.1 b.1 = true) kvs.

Lemma map_insert_in {V} k (v : V) kvs x : x ∈ map_insert k v kvs -> x = (k, v) \/ x ∈ kvs.
Proof.
  induction kvs as [|[k' v'] kvs IH]; simpl; [set_solver|].
  case_decide; [set_solver|]. destruct (blt k k'); set_solver.
Qed.

Lemma map_insert_sorted {V} k (v : V) kvs : sorted_keys kvs -> sorted_keys (map_insert k v kvs).
Proof.
  unfold sorted_keys. induction kvs as [|[k' v'] kvs IH]; intros Hs; simpl.
  { repeat constructor. }
  apply StronglySorted_inv in Hs as [Hs Hall]. rewrite Forall_forall in Hall.
  destruct (decide (k = k')) as [->|Hne].
  { constructor; [done|]. by apply Forall_forall. }
  destruct (blt k k') eqn:E.
  - constructor; [constructor; [done|by apply Forall_forall]|]. apply Forall_forall.
    intros x [->|Hx]%elem_of_cons; [done|]. eapply blt_trans; [exact E|]. by apply Hall.
  - constructor; [by apply IH|]. apply Forall_forall. intros x [->|Hx]%map_insert_in; [by apply blt_total|by apply Hall].
Qed.

(** Keys in order are appended. *)
Lemma map_insert_last {V} k (v : V) kvs :
  Forall (fun x => blt x.1 k = true) kvs -> map_insert k v kvs = kvs ++ [(k, v)].
Proof.
  induction 1 as [|[k' v'] kvs Hk _ IH]; simpl in *; [done|].
  rewrite decide_False by (intros ->; by rewrite blt_irrefl in Hk).
  destruct (blt k k') eqn:E; [|by rewrite IH].
  pose proof (blt_trans _ _ _ Hk E) as H. by rewrite blt_irrefl in H.
Qed.

(** ** Decoding respects types *)

Definition is_finite (f : spec_float) : bool :=
  match f with S754_zero _ | S754_finite _ _ _ => true | _ => false end.

(** What an interface holds. *)
Fixpoint any_typed (v : goval) : Prop :=
  match v with
  | VNil | VBool _ | VString _ => True
  | VFloat f => is_finite f = true
  | VSlice xs spare =>
    spare = [] /\ (fix all (xs : list goval) : Prop := match xs with [] => True | x :: xs' => any_typed x /\ all xs' end) xs
  | VMap kvs => sorted_keys kvs /\
    (fix all (kvs : list (bytes * goval)) : Prop :=
       match kvs with [] => True | (_, x) :: kvs' => any_typed x /\ all kvs' end) kvs
  | _ => False
  end.

(** The values of a type: integers within their width, finite floats, sorted
    maps, one value per field. *)
Fixpoint has_type (ty : gotype) (v : goval) : Prop :=
  match ty, v with
  | GBool, VBool _ => True
  | GInt, VInt z => int64_range z
  | GFloat64, VFloat f => is_finite f = true
  | GString, VString _ => True
  | GRaw, (VNil | VRaw _) => True
  | GAny, _ => any_typed v
  | GPtr t, VPtr v' => has_type t v'
  | (GPtr _ | GSlice _ | GMap _), VNil => True
  | GSlice t, VSlice xs spare => Forall (has_type t) xs /\ Forall (has_type t) spare
  | GMap t, VMap kvs => sorted_keys kvs /\ Forall (fun kv => has_type t kv.2) kvs
  | GStruct fs, VStruct vs =>
    (fix all (fs : list (bytes * bool * gotype)) (vs : list goval) : Prop :=
       match fs, vs with
       | [], [] => True
       | (_, t) :: fs', v :: vs' => has_type t v /\ all fs' vs'
       | _, _ => False
       end) fs vs
  | _, _ => False
  end.

Lemma any_typed_slice xs : any_typed (VSlice xs []) <-> Forall any_typed xs.
Proof.
  split.
  - intros [_ H]. induction xs as [|x xs IH]; constructor; [by apply H|]. apply IH. by apply H.
  - intros H. split; [done|]. induction H; simpl; [done|]. by split.
Qed.

Lemma any_typed_map kvs : any_typed (VMap kvs) <-> sorted_keys kvs /\ Forall (fun kv => any_typed kv.2) kvs.
Proof.
  cbn [any_typed]. apply and_iff_compat_l. split.
  - induction kvs as [|[k x] kvs IH]; intros H; constructor; [by apply H|]. apply IH. by apply H.
  - intros H. induction H as [|[k x] kvs Hx _ IH]; [done|]. by split.
Qed.

Lemma has_type_struct fs vs :
  has_type (GStruct fs) (VStruct vs) <-> Forall2 (fun f v => has_type f.2 v) fs vs.
Proof.
  revert vs. induction fs as [|[x t] fs IH]; intros [|v vs].
  - split; [constructor|done].
  - split; [done|]. intros H. inv H.
  - split; [done|]. intros H. inv H.
  - rewrite Forall2_cons. simpl. apply and_iff_compat_l. apply IH.
Qed.

Lemma zero_typed ty : has_type ty (zero ty).
Proof.
  induction ty using gotype_nested_ind; try done.
  cbn [zero]. apply has_type_struct. apply Forall2_fmap_r, Forall_Forall2_diag.
  eapply Forall_impl; [exact H|]. by intros [x t].
Qed.

Lemma map_insert_all {V} (P : V -> Prop) k v kvs :
  P v -> Forall (fun kv => P kv.2) kvs -> Forall (fun kv => P kv.2) (map_insert k v kvs).
Proof.
  rewrite !Forall_forall. intros Hv Hkvs x [->|Hx]%map_insert_in; [done|]. by apply Hkvs.
Qed.

(** Rounding gives a number. *)
Lemma shr_1_nonneg r : 0 <= shr_m r -> 0 <= shr_m (shr_1 r).
Proof. destruct r as [m r s]. destruct m as [|[]|[]]; simpl; lia. Qed.

Lemma iter_shr_nonneg p : forall r, 0 <= shr_m r -> 0 <= shr_m (SpecFloat.iter_pos shr_1 p r).
Proof. induction p as [p IH|p IH|]; intros r Hr; simpl; [apply IH, IH|apply IH, IH|]; by try apply shr_1_nonneg. Qed.

Lemma shr_fexp_nonneg m e l : 0 <= m -> 0 <= shr_m (shr_fexp prec emax m e l).1.
Proof.
  intros Hm. unfold shr_fexp, shr. assert (0 <= shr_m (shr_record_of_loc m l)) by (by destruct l as [|[]]).
  destruct (_ - _); simpl; [done|by apply iter_shr_nonneg|done].
Qed.

Lemma binary_round_aux_number neg m e l :
  0 <= m -> match binary_round_aux prec emax neg m e l with S754_nan => False | _ => True end.
Proof.
  intros Hm. unfold binary_round_aux. pose proof (shr_fexp_nonneg m e l Hm) as H1.
  destruct (shr_fexp prec emax m e l) as [r1 e1]. simpl in H1.
  assert (0 <= round_nearest_even (shr_m r1) (loc_of_shr_record r1)) as H2.
  { unfold round_nearest_even. destruct (loc_of_shr_record r1) as [|[]]; try destruct (Z.even _); lia. }
  pose proof (shr_fexp_nonneg _ e1 loc_Exact H2) as H3. destruct (shr_fexp prec emax _ e1 loc_Exact) as [r2 e2].
  simpl in H3. destruct (shr_m r2); [done|by destruct (_ <=? _)|lia].
Qed.

Lemma round_decimal_number neg m e : match round_decimal neg m e with S754_nan => False | _ => True end.
Proof.
  unfold round_decimal. destruct (Z.leb_spec 0 e).
  - unfold binary_round. destruct (shl_align _ _ _) as [mz ez]. by apply binary_round_aux_number.
  - unfold SFdiv_core_binary. set (s := _ - _ - _).
    assert (0 <= match s with 0 => Zpos m | Zpos _ => Z.shiftl (Zpos m) s | Zneg _ => 0 end) as Hn.
    { destruct s; [lia| |lia]. by apply Z.shiftl_nonneg. }
    pose proof (Z.div_pos _ (10 ^ (- e)) Hn) as Hq. unfold Z.div in Hq.
    destruct (Z.div_eucl _ _) as [q r]. apply binary_round_aux_number. apply Hq.
    apply Z.pow_pos_nonneg; lia.
Qed.

Lemma ParseFloat_finite n f : ParseFloat n = Some f -> is_finite f = true.
Proof.
  unfold ParseFloat. intros H. destruct (digits_value _) as [|m|m]; [by simplify_eq| |by simplify_eq].
  destruct (310 <? _); [done|]. destruct (_ <? -330); [by simplify_eq|].
  match type of H with context [round_decimal ?a ?b ?c] =>
    pose proof (round_decimal_number a b c) as Hn; destruct (round_decimal a b c) end; by simplify_eq.
Qed.

Lemma ParseInt_range n z : ParseInt n = Some z -> int64_range z.
Proof.
  unfold ParseInt. destruct (n_frac n); [done|]. destruct (n_exp n); [done|].
  destruct (_ && _) eqn:E; [|done]. intros [= <-]. unfold int64_range. lia.
Qed.

Lemma valueInterface_typed t : any_typed (valueInterface t).1.
Proof.
  induction t as [|b|raw n|raw s|raw l IH|raw fs IH] using jtree_nested_ind; try done.
  - simpl. destruct (ParseFloat n) eqn:E; [|done]. by eapply ParseFloat_finite.
  - cbn [valueInterface fst]. apply any_typed_slice. rewrite <- list_fmap_compose. by apply Forall_fmap.
  - cbn [valueInterface fst]. apply any_typed_map.
    set (rs := (fun '(k, t) => (k, valueInterface t)) <$> fs).
    assert (Hrs : Forall (fun r : bytes * (goval * option error) => any_typed r.2.1) rs).
    { apply Forall_fmap. eapply Forall_impl; [exact IH|]. by intros [k x]. }
    clearbody rs. clear IH.
    assert (H : forall m, sorted_keys m /\ Forall (fun kv => any_typed kv.2) m ->
      sorted_keys (foldl (fun m r => map_insert r.1 r.2.1 m) m rs) /\
      Forall (fun kv => any_typed kv.2) (foldl (fun m r => map_insert r.1 r.2.1 m) m rs)).
    { induction Hrs as [|r rs Hr _ IH]; intros m [Hm1 Hm2]; [done|]. apply IH.
      split; [by apply map_insert_sorted|by apply map_insert_all]. }
    apply H. split; constructor.
Qed.

(** Pointers. *)
Lemma deref_typed ty : forall v, has_type ty v ->
  has_type (peel ty).2 (deref (peel ty).1 (peel ty).2 v).
Proof.
  induction ty using gotype_nested_ind; try done. intros v Hv. cbn [peel].
  destruct (peel ty) as [n base] eqn:E. cbn [fst snd deref] in *.
  destruct v; try apply zero_typed. by apply IHty.
Qed.

Lemma wrap_typed ty r : has_type (peel ty).2 r -> has_type ty (Nat.iter (peel ty).1 VPtr r).
Proof.
  induction ty using gotype_nested_ind; try done. cbn [peel]. destruct (peel ty) as [n base] eqn:E.
  cbn [fst snd Nat.iter] in *. apply IHty.
Qed.

Lemma store_null_typed ty v : has_type ty v -> has_type ty (store_null ty v).
Proof. by destruct ty. Qed.

Lemma array_loop_typed dv el l : forall old,
  Forall (fun t => forall v, has_type el v -> has_type el (dv t el v).1) l -> Forall (has_type el) old ->
  let '(rs, rest, _) := array_loop dv el l old in Forall (has_type el) rs /\ Forall (has_type el) rest.
Proof.
  induction l as [|t l IH]; intros old Hl Hold; [done|]. apply Forall_cons in Hl as [Ht Hl].
  cbn [array_loop]. specialize (Ht (default (zero el) (head old))).
  assert (has_type el (default (zero el) (head old)) /\ Forall (has_type el) (tail old)) as [Hd Htl].
  { destruct Hold; simpl; [split; [apply zero_typed|constructor]|done]. }
  specialize (Ht Hd). specialize (IH (tail old) Hl Htl).
  destruct (dv t el _) as [r e1]. destruct (array_loop dv el l (tail old)) as [[rs rest] e2].
  destruct IH. split; [|done]. by constructor.
Qed.

Lemma struct_loop_typed dv fs ms : forall vs,
  Forall (fun m => forall ty v, has_type ty v -> has_type ty (dv m.2 ty v).1) ms ->
  Forall2 (fun f v => has_type f.2 v) fs vs ->
  Forall2 (fun f v => has_type f.2 v) fs (struct_loop dv fs ms vs).1.
Proof.
  induction ms as [|[k t] ms IH]; intros vs Hms Hvs; [done|]. apply Forall_cons in Hms as [Ht Hms].
  cbn [struct_loop]. destruct (find_field fs k) as [i|]; [|by apply IH].
  destruct (fs !! i) as [f|] eqn:Ef; [|by apply IH]. destruct (vs !! i) as [v|] eqn:Ev; [|by apply IH].
  pose proof (Forall2_lookup_lr _ _ _ _ _ _ Hvs Ef Ev) as Hv. simpl in Hv. specialize (Ht f.2 v Hv). simpl in Ht.
  destruct (dv t f.2 v) as [r e1]. specialize (IH (<[i:=r]> vs) Hms).
  assert (Forall2 (fun f v => has_type f.2 v) fs (<[i:=r]> vs)) as H2.
  { rewrite <- (list_insert_id fs i f Ef). by apply Forall2_insert. }
  specialize (IH H2). destruct (struct_loop dv fs ms (<[i:=r]> vs)). done.
Qed.

Lemma map_loop_typed dv el ms : forall kvs,
  Forall (fun m => forall v, has_type el v -> has_type el (dv m.2 el v).1) ms ->
  sorted_keys kvs /\ Forall (fun kv => has_type el kv.2) kvs ->
  sorted_keys (map_loop dv el ms kvs).1 /\ Forall (fun kv => has_type el kv.2) (map_loop dv el ms kvs).1.
Proof.
  induction ms as [|[k t] ms IH]; intros kvs Hms [Hs Hk]; [done|]. apply Forall_cons in Hms as [Ht Hms].
  cbn [map_loop]. specialize (Ht (zero el) (zero_typed el)). simpl in Ht. destruct (dv t el (zero el)) as [r e1].
  specialize (IH (map_insert k r kvs) Hms). destruct (map_loop dv el ms (map_insert k r kvs)). apply IH.
  split; [by apply map_insert_sorted|]. by apply (map_insert_all (has_type el)).
Qed.

(** Whatever the text, decoding leaves a value of the target's type. *)
Lemma dvalue_typed t : forall ty v, has_type ty v -> has_type ty (dvalue t ty v).1.
Proof.
  induction t as [|b|raw n|raw s|raw l IH|raw ms IH] using jtree_nested_ind; intros ty v Hv.
  { by apply store_null_typed. }
  all: pose proof (deref_typed ty v Hv) as Hd; pose proof (wrap_typed ty) as Hw; cbn [dvalue];
    destruct (peel ty) as [k base]; cbn [fst snd] in *; set (cur := deref k base v) in *.
  - destruct base; try by apply Hw.
  - destruct base; simpl; try by apply Hw.
    + destruct (ParseInt n) eqn:E; apply Hw; [by eapply ParseInt_range|done].
    + destruct (ParseFloat n) eqn:E; apply Hw; [by eapply ParseFloat_finite|done].
    + destruct (ParseFloat n) eqn:E; apply Hw; [by eapply ParseFloat_finite|done].
  - destruct base; try by apply Hw.
  - destruct base as [| | | | | |t|el|el|fs]; try by apply Hw.
    + pose proof (valueInterface_typed (TArr raw l)) as Ha. destruct (valueInterface _) as [r e]. by apply Hw.
    + pose proof (array_loop_typed dvalue el l (match cur with VSlice xs spare => xs ++ spare | _ => [] end)) as Hl.
      destruct (array_loop dvalue el l _) as [[rs rest] e]. apply Hw. destruct Hl as [Hl1 Hl2].
      { eapply Forall_impl; [exact IH|]. intros t Ht u Hu. by apply Ht. }
      { destruct cur; try constructor. destruct Hd. by apply Forall_app. }
      split; [done|]. by destruct rs.
  - destruct base as [| | | | | |t|el|el|fs]; try by apply Hw.
    + pose proof (valueInterface_typed (TObj raw ms)) as Ha. destruct (valueInterface _) as [r e]. by apply Hw.
    + pose proof (map_loop_typed dvalue el ms (match cur with VMap kvs => kvs | _ => [] end)) as Hl.
      destruct (map_loop dvalue el ms _) as [kvs e]. apply Hw, Hl.
      * eapply Forall_impl; [exact IH|]. intros [x t] Ht u Hu. by apply Ht.
      * destruct cur; try (split; constructor). done.
    + destruct cur as [| | | | | | | | |vs]; try by apply Hw.
      pose proof (struct_loop_typed dvalue fs ms vs) as Hl. destruct (struct_loop dvalue fs ms vs) as [vs' e].
      apply Hw. apply has_type_struct. apply has_type_struct in Hd. apply Hl; [|done].
      eapply Forall_impl; [exact IH|]. intros [x t] Ht ty' u Hu. by apply Ht.
Qed.

(** ** Encoding *)

(** isEmptyValue, for omitempty. *)
Definition isEmptyValue (v : goval) : bool :=
  match v with
  | VBool false | VInt 0 | VFloat (S754_zero false) | VString [] | VRaw [] | VNil | VSlice [] _ | VMap [] => true
  | _ => false
  end.

Definition arr (l : list jtree) : jtree := TArr (arr_text l) l.
Definition obj (fs : list (bytes * jtree)) : jtree := TObj (obj_text fs) fs.
Definition str (s : bytes) : jtree := TStr (marshal_string s) s.

(** Struct types whose fields have different names, in UTF-8. *)
Fixpoint wf_type (ty : gotype) : bool :=
  match ty with
  | GPtr t | GSlice t | GMap t => wf_type t
  | GStruct fs => bool_decide (NoDup fs.*1.*1) && forallb (fun '(x, t) => valid x.1 && wf_type t) fs
  | _ => true
  end.

Section Encode.
(** strconv's shortest text of a float64. *)
Context (formatFloat : spec_float -> bytes).

Definition float_tree (f : spec_float) : jtree :=
  TNum (formatFloat f) (match number (formatFloat f) with POk n _ => n | _ => MkNum false [] None None end).

(** json.Marshal of a value of a type, as the tree of the text it writes.  Bytes
    that are not UTF-8 are out of scope here, [canon] excludes them. *)
Fixpoint encode_any (v : goval) : jtree :=
  match v with
  | VBool b => TBool b
  | VFloat f => float_tree f
  | VString s => str s
  | VSlice xs _ => arr (encode_any <$> xs)
  | VMap kvs => obj ((fun '(k, x) => (k, encode_any x)) <$> kvs)
  | _ => TNull
  end.

Fixpoint encode_val (ty : gotype) (v : goval) : jtree :=
  match ty, v with
  | GBool, VBool b => TBool b
  | GInt, VInt z => TNum (marshal_int z) (int_lit z)
  | GFloat64, VFloat f => float_tree f
  | GString, VString s => str s
  | GRaw, VRaw s => match scan s with POk t _ => t | _ => TNull end
  | GAny, _ => encode_any v
  | GPtr t, VPtr v' => encode_val t v'
  | GSlice t, VSlice xs _ => arr (encode_val t <$> xs)
  | GMap t, VMap kvs => obj ((fun '(k, x) => (k, encode_val t x)) <$> kvs)
  | GStruct fs, VStruct vs =>
    obj ((fix members (fs : list (bytes * bool * gotype)) (vs : list goval) : list (bytes * jtree) :=
       match fs, vs with
       | (name, omitempty, t) :: fs', v :: vs' =>
         if omitempty && isEmptyValue v then members fs' vs' else (name, encode_val t v) :: members fs' vs'
       | _, _ => []
       end) fs vs)
  | _, _ => TNull
  end.

Definition Encode (ty : gotype) (v : goval) : bytes := raw_of (encode_val ty v).

Definition member_of (f : bytes * bool * gotype) (v : goval) : list (bytes * jtree) :=
  if f.1.2 && isEmptyValue v then [] else [(f.1.1, encode_val f.2 v)].

Lemma encode_struct fs vs :
  encode_val (GStruct fs) (VStruct vs) = obj (concat (zip_with member_of fs vs)).
Proof.
  cbn [encode_val]. f_equal. revert vs. induction fs as [|[[x o] t] fs IH]; intros [|v vs]; try done.
  cbn [zip_with concat]. unfold member_of at 1. cbn [fst snd]. rewrite IH.
  by destruct (o && isEmptyValue v).
Qed.

(** The text of a float reads back as the float: what strconv documents. *)
Definition float_ok (f : spec_float) : Prop :=
  exists n, num_text (formatFloat f) n /\ ParseFloat n = Some f.

Lemma float_ok_tree f n : num_text (formatFloat f) n -> float_tree f = TNum (formatFloat f) n.
Proof.
  intros [H _]. specialize (H [] I). rewrite app_nil_r in H. unfold float_tree. by rewrite H.
Qed.

(** Raw text as Marshal leaves it: without blanks. *)
Definition raw_ok (s : bytes) : Prop := exists t, compact t /\ height t <= maxNestingDepth /\ raw_of t = s.

(** Values that encoding and decoding keep: strings in UTF-8, floats that
    strconv gives back, raw messages without blanks, no spare elements, no pointers to
    nil, and nothing but zero values where omitempty drops a field. *)
Fixpoint canon_any (v : goval) : Prop :=
  match v with
  | VNil | VBool _ => True
  | VString s => valid s = true
  | VFloat f => float_ok f
  | VSlice xs spare =>
    spare = [] /\ (fix all (xs : list goval) : Prop := match xs with [] => True | x :: xs' => canon_any x /\ all xs' end) xs
  | VMap kvs => sorted_keys kvs /\
    (fix all (kvs : list (bytes * goval)) : Prop :=
       match kvs with [] => True | (k, x) :: kvs' => valid k = true /\ canon_any x /\ all kvs' end) kvs
  | _ => False
  end.

Fixpoint canon (ty : gotype) (v : goval) : Prop :=
  match ty, v with
  | GBool, VBool _ => True
  | GInt, VInt z => int64_range z
  | GFloat64, VFloat f => float_ok f
  | GString, VString s => valid s = true
  | GRaw, VRaw s => raw_ok s
  | GAny, _ => canon_any v
  | GPtr t, VPtr v' => canon t v' /\ encode_val t v' <> TNull
  | (GPtr _ | GSlice _ | GMap _), VNil => True
  | GSlice t, VSlice xs spare => Forall (canon t) xs /\ spare = []
  | GMap t, VMap kvs => sorted_keys kvs /\ Forall (fun kv => valid kv.1 = true /\ canon t kv.2) kvs
  | GStruct fs, VStruct vs =>
    (fix all (fs : list (bytes * bool * gotype)) (vs : list goval) : Prop :=
       match fs, vs with
       | [], [] => True
       | (_, omitempty, t) :: fs', v :: vs' =>
         (canon t v /\ (omitempty && isEmptyValue v = true -> v = zero t)) /\ all fs' vs'
       | _, _ => False
       end) fs vs
  | _, _ => False
  end.

Definition canon_field (f : bytes * bool * gotype) (v : goval) : Prop :=
  canon f.2 v /\ (f.1.2 && isEmptyValue v = true -> v = zero f.2).

Lemma canon_struct fs vs : canon (GStruct fs) (VStruct vs) <-> Forall2 canon_field fs vs.
Proof.
  revert vs. induction fs as [|[[x o] t] fs IH]; intros [|v vs].
  - split; [constructor|done].
  - split; [done|]. intros H. inv H.
  - split; [done|]. intros H. inv H.
  - rewrite Forall2_cons. simpl. apply and_iff_compat_l. apply IH.
Qed.

(** ** What was encoded is decoded *)

Lemma canon_any_slice xs spare : canon_any (VSlice xs spare) <-> spare = [] /\ Forall canon_any xs.
Proof.
  cbn [canon_any]. apply and_iff_compat_l. split.
  - induction xs as [|x xs IH]; intros H; constructor; [by apply H|]. apply IH. by apply H.
  - intros H. induction H; simpl; [done|]. by split.
Qed.

Lemma canon_any_map kvs :
  canon_any (VMap kvs) <-> sorted_keys kvs /\ Forall (fun kv => valid kv.1 = true /\ canon_any kv.2) kvs.
Proof.
  cbn [canon_any]. apply and_iff_compat_l. split.
  - induction kvs as [|[k x] kvs IH]; intros H; constructor; [split; by apply H|]. apply IH. by apply H.
  - intros H. induction H as [|[k x] kvs [Hk Hx] _ IH]; [done|]. by split.
Qed.

(** Inserting sorted entries in order rebuilds the map. *)
Lemma sorted_prefix {V} pre k (v : V) suf :
  sorted_keys (pre ++ (k, v) :: suf) -> map_insert k v pre = pre ++ [(k, v)].
Proof.
  intros Hs. apply map_insert_last. apply Forall_forall. intros x Hx.
  unfold sorted_keys in Hs. induction pre as [|y pre IH]; [set_solver|]. simpl in Hs.
  apply StronglySorted_inv in Hs as [Hs Hall]. apply elem_of_cons in Hx as [->|Hx]; [|by apply IH].
  rewrite Forall_forall in Hall. apply (Hall (k, v)). set_solver.
Qed.

Lemma valueInterface_encode v : canon_any v -> valueInterface (encode_any v) = (v, None).
Proof.
  induction v as [b|z|f|s|s| |v _|xs spare IH|kvs IH|vs] using goval_nested_ind; intros Hv; try done.
  - destruct Hv as (n & Hn & Hp). cbn [encode_any]. rewrite (float_ok_tree f n Hn). simpl. by rewrite Hp.
  - apply canon_any_slice in Hv as [-> Hxs]. cbn [encode_any valueInterface arr].
    assert (valueInterface <$> (encode_any <$> xs) = (fun x => (x, None)) <$> xs) as ->.
    { rewrite <- list_fmap_compose. apply list_fmap_ext. intros i x Hx%list_elem_of_lookup_2.
      rewrite Forall_forall in IH, Hxs. simpl. apply IH; [done|by apply Hxs]. }
    f_equal.
    + f_equal. rewrite <- list_fmap_compose. apply list_fmap_id.
    + clear. by induction xs.
  - apply canon_any_map in Hv as [Hs Hkvs]. cbn [encode_any valueInterface obj].
    assert ((fun '(k, t) => (k, valueInterface t)) <$> ((fun '(k, x) => (k, encode_any x)) <$> kvs)
            = (fun '(k, x) => (k, (x, None))) <$> kvs) as ->.
    { rewrite <- list_fmap_compose. apply list_fmap_ext. intros i [k x] Hx%list_elem_of_lookup_2.
      rewrite Forall_forall in IH, Hkvs. simpl. f_equal. apply (IH (k, x)); [done|by apply (Hkvs (k, x))]. }
    clear IH Hkvs. f_equal.
    + f_equal. assert (H : forall suf pre : list (bytes * goval), sorted_keys (pre ++ suf) ->
        foldl (fun m r => map_insert r.1 r.2.1 m) pre ((fun '(k, x) => (k, (x, @None error))) <$> suf) = pre ++ suf).
      { induction suf as [|[k x] suf IH]; intros pre Hp; [by rewrite app_nil_r|].
        cbn [fmap list_fmap foldl fst snd]. rewrite (sorted_prefix pre k x suf Hp).
        change ((k, x) :: suf) with ([(k, x)] ++ suf). rewrite app_assoc. apply IH. by rewrite <- app_assoc. }
      by apply (H kvs []).
    + clear. induction kvs as [|[k x] kvs IH]; [done|]. simpl. apply IH.
Qed.

Lemma deref_zero ty : deref (peel ty).1 (peel ty).2 (zero ty) = zero (peel ty).2.
Proof. destruct ty; try done. cbn [peel]. by destruct (peel ty). Qed.

Lemma dvalue_ptr t ty v : t <> TNull ->
  dvalue t (GPtr ty) v =
  let '(r, e) := dvalue t ty (match v with VPtr v' => v' | _ => zero ty end) in (VPtr r, e).
Proof.
  intros Ht.
  assert (Hd : deref (S (peel ty).1) (peel ty).2 v
    = deref (peel ty).1 (peel ty).2 (match v with VPtr v' => v' | _ => zero ty end)).
  { cbn [deref]. destruct v; try done; by rewrite deref_zero. }
  destruct t; [done|..]; cbn [dvalue peel]; destruct (peel ty) as [k base]; cbn [fst snd] in Hd; rewrite Hd;
    match goal with |- (let '(r, e) := ?x in _) = _ => by destruct x end.
Qed.

Lemma array_loop_encode el xs :
  Forall (fun x => dvalue (encode_val el x) el (zero el) = (x, None)) xs ->
  array_loop dvalue el (encode_val el <$> xs) [] = (xs, [], None).
Proof.
  induction 1 as [|x xs Hx _ IH]; [done|]. cbn [fmap list_fmap array_loop head default tail].
  simpl. rewrite Hx. fold (array_loop dvalue el). by rewrite IH.
Qed.

Lemma map_loop_encode el suf : forall pre,
  sorted_keys (pre ++ suf) ->
  Forall (fun kv => dvalue (encode_val el kv.2) el (zero el) = (kv.2, None)) suf ->
  map_loop dvalue el ((fun '(k, x) => (k, encode_val el x)) <$> suf) pre = (pre ++ suf, None).
Proof.
  induction suf as [|[k x] suf IH]; intros pre Hs Hx; [by rewrite app_nil_r|].
  apply Forall_cons in Hx as [Hx Hxs]. simpl in Hx. cbn [fmap list_fmap map_loop]. rewrite Hx.
  fold (map_loop dvalue el). rewrite (sorted_prefix pre k x suf Hs).
  change ((k, x) :: suf) with ([(k, x)] ++ suf) in *. rewrite app_assoc in *. by rewrite IH.
Qed.

Lemma index_of_app {A} (p : A -> bool) pre x suf :
  Forall (fun y => p y = false) pre -> p x = true -> index_of p (pre ++ x :: suf) = Some (length pre).
Proof. induction 1 as [|y pre Hy _ IH]; intros Hx; simpl; [by rewrite Hx|]. by rewrite Hy, IH. Qed.

Lemma find_field_at pre f suf :
  NoDup (pre ++ f :: suf).*1.*1 -> find_field (pre ++ f :: suf) f.1.1 = Some (length pre).
Proof.
  intros Hn. unfold find_field. rewrite index_of_app; [done| |by apply bool_decide_eq_true].
  apply Forall_forall. intros y Hy. apply bool_decide_eq_false. intros E.
  rewrite !fmap_app, !fmap_cons in Hn. apply NoDup_app in Hn as (_ & Hn & _).
  apply (Hn f.1.1); [|by left]. rewrite <- E. by do 2 apply list_elem_of_fmap_2.
Qed.

Lemma struct_loop_encode suf : forall vsuf pre vpre,
  length pre = length vpre -> NoDup (pre ++ suf).*1.*1 -> Forall2 canon_field suf vsuf ->
  Forall (fun f => forall v, canon f.2 v -> dvalue (encode_val f.2 v) f.2 (zero f.2) = (v, None)) suf ->
  struct_loop dvalue (pre ++ suf) (concat (zip_with member_of suf vsuf)) (vpre ++ ((fun '(_, t) => zero t) <$> suf))
  = (vpre ++ vsuf, None).
Proof.
  induction suf as [|f suf IH]; intros vsuf pre vpre Hl Hn Hc Hd.
  { apply Forall2_nil_inv_l in Hc as ->. done. }
  apply Forall2_cons_inv_l in Hc as (v & vs & [Hf Hz] & Hvs & ->). apply Forall_cons in Hd as [Hd Hds]. cbn [zip_with concat fmap list_fmap].
  assert (Happ : pre ++ f :: suf = (pre ++ [f]) ++ suf) by by rewrite <- app_assoc.
  assert (Hstep : struct_loop dvalue (pre ++ f :: suf) (concat (zip_with member_of suf vs))
                    (vpre ++ v :: ((fun '(_, t) => zero t) <$> suf)) = (vpre ++ v :: vs, None)).
  { rewrite Happ in *. change (v :: ((fun '(_, t) => zero t) <$> suf)) with ([v] ++ ((fun '(_, t) => zero t) <$> suf)).
    change (v :: vs) with ([v] ++ vs). rewrite !(app_assoc vpre [v]). apply IH; try done.
    rewrite !length_app. simpl. lia. }
  unfold member_of at 1. destruct (f.1.2 && isEmptyValue v) eqn:Eo.
  - rewrite (Hz eq_refl) in *. cbn [app]. destruct f as [nm t]. exact Hstep.
  - cbn [app struct_loop]. rewrite find_field_at by done.
    rewrite list_lookup_middle by done. rewrite list_lookup_middle by done.
    destruct f as [nm t]. cbn [snd]. cbn [snd] in Hd. rewrite (Hd v Hf).
    fold (struct_loop dvalue (pre ++ (nm, t) :: suf)). rewrite Hl, insert_app_r_alt, Nat.sub_diag by lia.
    cbn [insert list_insert]. by rewrite Hstep.
Qed.

Lemma raw_ok_scan s : raw_ok s -> exists t, scan s = POk t [] /\ compact t /\ raw_of t = s.
Proof.
  intros (t & Hc & Hh & <-). exists t. split; [|done]. rewrite <- (app_nil_r (raw_of t)). by apply scan_compact.
Qed.

Lemma wf_struct fs : wf_type (GStruct fs) = true ->
  NoDup fs.*1.*1 /\ Forall (fun f => valid f.1.1 = true /\ wf_type f.2 = true) fs.
Proof.
  cbn [wf_type]. intros [H1 H2]%andb_prop. split; [by apply bool_decide_eq_true in H1|].
  apply Forall_forall. intros [x t] Hx. rewrite forallb_forall in H2.
  specialize (H2 (x, t) ltac:(by apply list_elem_of_In)). simpl in *. by apply andb_prop in H2.
Qed.

(** A canonical value decodes from its encoding. *)
Lemma dvalue_encode ty : wf_type ty = true -> forall v, canon ty v ->
  dvalue (encode_val ty v) ty (zero ty) = (v, None).
Proof.
  induction ty as [| | | | | |t IH|t IH|t IH|fs IH] using gotype_nested_ind; intros Hw v Hv.
  - by destruct v.
  - destruct v; try done. cbn [encode_val]. simpl. by rewrite ParseInt_int.
  - destruct v; try done. destruct Hv as (n & Hn & Hp). cbn [encode_val]. rewrite (float_ok_tree _ n Hn). simpl. by rewrite Hp.
  - by destruct v.
  - destruct v; try done. destruct (raw_ok_scan _ Hv) as (t & Hs & Hc & Hr). cbn [encode_val]. rewrite Hs.
    rewrite <- Hr. by destruct t.
  - pose proof (valueInterface_encode v Hv) as H. cbn [encode_val]. destruct v; try done; try by (simpl in *; rewrite H).
  - destruct v as [| | | | | |v| | |]; try done. destruct Hv as [Hv Hnn]. cbn [encode_val].
    rewrite dvalue_ptr by done. cbn [zero]. by rewrite IH.
  - destruct v as [| | | | | | |xs spare| |]; try done. destruct Hv as [Hxs ->].
    cbn [encode_val dvalue arr peel zero deref]. rewrite array_loop_encode.
    + by destruct xs.
    + eapply Forall_impl; [exact Hxs|]. intros x Hx. by apply IH.
  - destruct v as [| | | | | | | |kvs|]; try done. destruct Hv as [Hs Hkvs].
    cbn [encode_val dvalue obj peel zero deref]. rewrite map_loop_encode; [done|done|].
    eapply Forall_impl; [exact Hkvs|]. intros x [_ Hx]. by apply IH.
  - destruct v as [| | | | | | | | |vs]; try done. apply canon_struct in Hv. apply wf_struct in Hw as [Hnd Hwf].
    rewrite encode_struct. cbn [dvalue obj peel zero deref].
    assert (Hd : Forall (fun f => forall v, canon f.2 v -> dvalue (encode_val f.2 v) f.2 (zero f.2) = (v, None)) fs).
    { rewrite Forall_forall in *. intros f Hf v Hv'. apply IH; [done|by apply Hwf|done]. }
    pose proof (struct_loop_encode fs vs [] [] eq_refl Hnd Hv Hd) as H. cbn [app] in H. by rewrite H.
Qed.

Lemma compact_float f : float_ok f -> compact (float_tree f).
Proof. intros (n & Hn & _). rewrite (float_ok_tree f n Hn). by constructor. Qed.

Lemma compact_any v : canon_any v -> compact (encode_any v).
Proof.
  induction v as [b|z|f|s|s| |v _|xs spare IH|kvs IH|vs] using goval_nested_ind; intros Hv; try done;
    try by constructor.
  - by apply compact_float.
  - apply canon_any_slice in Hv as [-> Hxs]. constructor. apply Forall_fmap. rewrite Forall_forall in *.
    intros x Hx. apply IH; [done|by apply Hxs].
  - apply canon_any_map in Hv as [_ Hkvs]. rewrite Forall_forall in *.
    constructor; apply Forall_fmap, Forall_forall; intros [k x] Hx; destruct (Hkvs _ Hx) as [Hk Hv]; simpl in *; [done|].
    by apply (IH (k, x)).
Qed.

Lemma compact_encode ty : wf_type ty = true -> forall v, canon ty v -> compact (encode_val ty v).
Proof.
  induction ty as [| | | | | |t IH|t IH|t IH|fs IH] using gotype_nested_ind; intros Hw v Hv.
  - destruct v; try done. constructor.
  - destruct v; try done. constructor. apply num_text_int.
  - destruct v; try done. by apply compact_float.
  - destruct v; try done. by constructor.
  - destruct v; try done. destruct (raw_ok_scan _ Hv) as (t & Hs & Hc & Hr). cbn [encode_val]. by rewrite Hs.
  - by apply compact_any.
  - destruct v; try done; [constructor|]. destruct Hv as [Hv _]. by apply IH.
  - destruct v as [| | | | | | |xs spare| |]; try done; [constructor|]. destruct Hv as [Hxs ->]. constructor.
    apply Forall_fmap. eapply Forall_impl; [exact Hxs|]. intros x Hx. by apply IH.
  - destruct v as [| | | | | | | |kvs|]; try done; [constructor|]. destruct Hv as [_ Hkvs].
    constructor; apply Forall_fmap; (eapply Forall_impl; [exact Hkvs|]); intros [k x] [Hk Hx]; simpl in *; [done|].
    by apply IH.
  - destruct v as [| | | | | | | | |vs]; try done. apply canon_struct in Hv. apply wf_struct in Hw as [_ Hwf].
    rewrite encode_struct.
    assert (Forall (fun m => valid m.1 = true /\ compact m.2) (concat (zip_with member_of fs vs))) as H.
    { clear -IH Hv Hwf. induction Hv as [|f v fs vs [Hf _] _ IHv]; [constructor|].
      apply Forall_cons in IH as [IH IHs]. apply Forall_cons in Hwf as [[Hn Hw] Hwf]. cbn [zip_with concat].
      apply Forall_app. split; [|by apply IHv]. unfold member_of. destruct (_ && _); constructor; [|constructor].
      simpl. split; [done|]. by apply IH. }
    constructor; (eapply Forall_impl; [exact H|]); by intros m [? ?].
Qed.

(** Encode and Decode are inverse on canonical values, whatever follows in the
    stream. *)
Lemma Decode_Encode ty v rest err :
  wf_type ty = true -> canon ty v -> height (encode_val ty v) <= maxNestingDepth -> stops rest ->
  (open_ended (encode_val ty v) = true -> rest = [] -> err = None) ->
  Decode (MkReader (Encode ty v ++ rest) err) ty = Ok v.
Proof.
  intros Hw Hv Hh Hr He. unfold Decode, readValue, Encode. cbn [delivered_bytes read_error].
  rewrite scan_compact by (done || by apply compact_encode).
  assert (match err, rest with
          | Some err, [] => if open_ended (encode_val ty v) then Err err else Ok (encode_val ty v)
          | _, _ => Ok (encode_val ty v) end = Ok (encode_val ty v)) as ->.
  { destruct err as [e|]; [|done]. destruct rest; [|done]. destruct (open_ended _); [|done]. by specialize (He eq_refl eq_refl). }
  by rewrite dvalue_encode.
Qed.

Lemma Unmarshal_Encode ty v :
  wf_type ty = true -> canon ty v -> height (encode_val ty v) <= maxNestingDepth ->
  Unmarshal (Encode ty v) (Pointer ty (zero ty)) = (None, Pointer ty v).
Proof.
  intros Hw Hv Hh. unfold Unmarshal, document, Encode. rewrite <- (app_nil_r (raw_of _)).
  rewrite scan_compact by (done || by apply compact_encode). cbn [skip]. by rewrite dvalue_encode.
Qed.
End Encode.

(** No floats in a type: their format does not matter. *)
Definition no_floats (f : spec_float) : bytes := [].

(** Marshalled text whose tree is that of a canonical value decodes to the value. *)
Lemma Unmarshal_tree j ty v :
  tree_of j = encode_val no_floats ty v -> wf_type ty = true -> canon no_floats ty v ->
  height (tree_of j) <= maxNestingDepth ->
  Unmarshal (Marshal j) (Pointer ty (zero ty)) = (None, Pointer ty v).
Proof.
  intros Et Hw Hc Hh. rewrite <- raw_tree_of, Et. rewrite Et in Hh. by apply Unmarshal_Encode.
Qed.

(** ** Rocq types for Go types *)

(** A Rocq type that stands for a Go type: its values as Go values and back.  Every
    value of the Go type stands for one of the Rocq type; spare elements of slices
    are forgotten. *)
Record repr (A : Type) : Type := MkRepr {
  r_type : gotype;
  r_val : A -> goval;
  r_of : goval -> option A;
  r_back : forall a, r_of (r_val a) = Some a;
  r_total : forall v, has_type r_type v -> is_Some (r_of v)
}.
Arguments r_type {A} _.
Arguments r_val {A} _ _.
Arguments r_of {A} _ _.
Arguments r_back {A} _ _.
Arguments r_total {A} _ _ _.

Definition of_bool (v : goval) : option bool := match v with VBool b => Some b | _ => None end.
Definition of_int (v : goval) : option Z := match v with VInt z => Some z | _ => None end.
Definition of_float (v : goval) : option spec_float := match v with VFloat f => Some f | _ => None end.
Definition of_string (v : goval) : option bytes := match v with VString s => Some s | _ => None end.
Definition raw_val (r : option bytes) : goval := match r with Some s => VRaw s | None => VNil end.
Definition of_raw (v : goval) : option (option bytes) :=
  match v with VRaw s => Some (Some s) | VNil => Some None | _ => None end.

Program Definition repr_bool : repr bool := MkRepr _ GBool VBool of_bool _ _.
Next Obligation. done. Qed.
Next Obligation. intros v Hv. destruct v; try done; by eexists. Qed.

Program Definition repr_int : repr Z := MkRepr _ GInt VInt of_int _ _.
Next Obligation. done. Qed.
Next Obligation. intros v Hv. destruct v; try done; by eexists. Qed.

Program Definition repr_float : repr spec_float := MkRepr _ GFloat64 VFloat of_float _ _.
Next Obligation. done. Qed.
Next Obligation. intros v Hv. destruct v; try done; by eexists. Qed.

Program Definition repr_string : repr bytes := MkRepr _ GString VString of_string _ _.
Next Obligation. done. Qed.
Next Obligation. intros v Hv. destruct v; try done; by eexists. Qed.

(** json.RawMessage, nil or not. *)
Program Definition repr_raw : repr (option bytes) := MkRepr _ GRaw raw_val of_raw _ _.
Next Obligation. by intros [s|]. Qed.
Next Obligation. intros v Hv. destruct v; try done; by eexists. Qed.

Definition ref_val {A} (R : repr A) (a : option A) : goval :=
  match a with Some a => VPtr (r_val R a) | None => VNil end.
Definition of_ref {A} (R : repr A) (v : goval) : option (option A) :=
  match v with VPtr v => Some <$> r_of R v | VNil => Some None | _ => None end.

Program Definition repr_ptr {A} (R : repr A) : repr (option A) :=
  MkRepr _ (GPtr (r_type R)) (ref_val R) (of_ref R) _ _.
Next Obligation. intros A R [a|]; simpl; [|done]. by rewrite r_back. Qed.
Next Obligation.
  intros A R v Hv. destruct v; try done. destruct (r_total R v Hv) as [a Ha]. simpl. rewrite Ha. by eexists.
Qed.

Lemma mapM_r_of {A} (R : repr A) xs : mapM (r_of R) (r_val R <$> xs) = Some xs.
Proof. induction xs as [|x xs IH]; [done|]. cbn. rewrite r_back. simpl. by rewrite IH. Qed.

Definition slice_val {A} (R : repr A) (l : option (list A)) : goval :=
  match l with Some l => VSlice (r_val R <$> l) [] | None => VNil end.
Definition of_slice {A} (R : repr A) (v : goval) : option (option (list A)) :=
  match v with VSlice xs _ => Some <$> mapM (r_of R) xs | VNil => Some None | _ => None end.

Program Definition repr_slice {A} (R : repr A) : repr (option (list A)) :=
  MkRepr _ (GSlice (r_type R)) (slice_val R) (of_slice R) _ _.
Next Obligation. intros A R [l|]; [|done]. cbn [slice_val of_slice]. by rewrite mapM_r_of. Qed.
Next Obligation.
  intros A R v Hv. destruct v as [| | | | | | |xs spare| |]; try done. destruct Hv as [Hxs _].
  assert (is_Some (mapM (r_of R) xs)) as [l Hl]; [|simpl; rewrite Hl; by eexists].
  apply mapM_is_Some. eapply Forall_impl; [exact Hxs|]. intros x. apply r_total.
Qed.

(** map[string]T *)
Definition map_val {A} (R : repr A) (m : option (list (bytes * A))) : goval :=
  match m with Some m => VMap ((fun kv => (kv.1, r_val R kv.2)) <$> m) | None => VNil end.
Definition of_map {A} (R : repr A) (v : goval) : option (option (list (bytes * A))) :=
  match v with
  | VMap kvs => Some <$> mapM (fun kv => pair kv.1 <$> r_of R kv.2) kvs
  | VNil => Some None
  | _ => None
  end.

Program Definition repr_map {A} (R : repr A) : repr (option (list (bytes * A))) :=
  MkRepr _ (GMap (r_type R)) (map_val R) (of_map R) _ _.
Next Obligation.
  intros A R [m|]; [|done]. simpl.
  assert (mapM (fun kv => pair kv.1 <$> r_of R kv.2) ((fun kv => (kv.1, r_val R kv.2)) <$> m) = Some m) as ->; [|done].
  induction m as [|[k a] m IH]; [done|]. cbn. rewrite r_back. simpl. by rewrite IH.
Qed.
Next Obligation.
  intros A R v Hv. destruct v as [| | | | | | | |kvs|]; try done. destruct Hv as [_ Hkvs].
  assert (is_Some (mapM (fun kv => pair kv.1 <$> r_of R kv.2) kvs)) as [l Hl]; [|simpl; rewrite Hl; by eexists].
  apply mapM_is_Some. eapply Forall_impl; [exact Hkvs|]. intros [k x] Hx. simpl in *.
  destruct (r_total R x Hx) as [a ->]. by eexists.
Qed.

(** The fields of a struct, as nested pairs. *)
Record rfields (A : Type) : Type := MkFields {
  f_types : list (bytes * bool * gotype);
  f_vals : A -> list goval;
  f_of : list goval -> option A;
  f_back : forall a, f_of (f_vals a) = Some a;
  f_total : forall vs, Forall2 (fun f v => has_type f.2 v) f_types vs -> is_Some (f_of vs)
}.
Arguments f_types {A} _.
Arguments f_vals {A} _ _.
Arguments f_of {A} _ _.
Arguments f_back {A} _ _.
Arguments f_total {A} _ _ _.

Definition of_nil (vs : list goval) : option unit := match vs with [] => Some tt | _ => None end.

Program Definition fnil : rfields unit := MkFields _ [] (fun _ => []) of_nil _ _.
Next Obligation. by intros []. Qed.
Next Obligation. intros vs ->%Forall2_nil_inv_l. by eexists. Qed.

Definition of_cons {A B} (R : repr A) (F : rfields B) (vs : list goval) : option (A * B) :=
  match vs with
  | v :: vs' => a ← r_of R v; b ← f_of F vs'; Some (a, b)
  | [] => None
  end.

Program Definition fcons {A B} (name : bytes) (omitempty : bool) (R : repr A) (F : rfields B) : rfields (A * B) :=
  MkFields _ ((name, omitempty, r_type R) :: f_types F) (fun ab => r_val R ab.1 :: f_vals F ab.2)
    (of_cons R F) _ _.
Next Obligation. intros A B name o R F [a b]. simpl. by rewrite r_back; simpl; rewrite f_back. Qed.
Next Obligation.
  intros A B name o R F vs (v & vs' & Hv & Hvs & ->)%Forall2_cons_inv_l. simpl in Hv.
  destruct (r_total R v Hv) as [a Ha]. destruct (f_total F vs' Hvs) as [b Hb].
  exists (a, b). simpl. rewrite Ha. simpl. by rewrite Hb.
Qed.

Definition of_struct {A B} (F : rfields B) (build : B -> A) (v : goval) : option A :=
  match v with VStruct vs => build <$> f_of F vs | _ => None end.

Program Definition repr_struct {A B} (F : rfields B) (out : A -> B) (build : B -> A)
    (inverse : forall a, build (out a) = a) : repr A :=
  MkRepr _ (GStruct (f_types F)) (fun a => VStruct (f_vals F (out a)))
    (of_struct F build) _ _.
Next Obligation. intros A B F out build Hinv a. simpl. rewrite f_back. simpl. by rewrite Hinv. Qed.
Next Obligation.
  intros A B F out build Hinv v Hv. destruct v as [| | | | | | | | |vs]; try done.
  apply has_type_struct in Hv. destruct (f_total F vs Hv) as [b Hb]. exists (build b). simpl. by rewrite Hb.
Qed.

(** Decode into a new value of a Rocq type. *)
Definition DecodeNew {A} (R : repr A) (r : reader) : gores (option A) :=
  match Decode r (r_type R) with
  | Err err => Err err
  | Ok v => Ok (r_of R v)
  end.

Lemma DecodeNew_total {A} (R : repr A) r :
  match DecodeNew R r with Ok a => is_Some a | Err _ => True end.
Proof.
  unfold DecodeNew, Decode. destruct (readValue r) as [t|]; [|done].
  pose proof (dvalue_typed t (r_type R) _ (zero_typed (r_type R))) as Ht.
  destruct (dvalue t (r_type R) (zero (r_type R))) as [v [e|]]; [done|]. by apply r_total.
Qed.

Lemma DecodeNew_Encode {A} formatFloat (R : repr A) a rest err :
  wf_type (r_type R) = true -> canon formatFloat (r_type R) (r_val R a) ->
  height (encode_val formatFloat (r_type R) (r_val R a)) <= maxNestingDepth -> stops rest ->
  (open_ended (encode_val formatFloat (r_type R) (r_val R a)) = true -> rest = [] -> err = None) ->
  DecodeNew R (MkReader (Encode formatFloat (r_type R) (r_val R a) ++ rest) err) = Ok (Some a).
Proof.
  intros Hw Hc Hh Hr He. unfold DecodeNew. rewrite Decode_Encode by done. by rewrite r_back.
Qed.

(** A float whose text reads back, by computation. *)
Lemma float_ok_of formatFloat f n :
  number (formatFloat f) = POk n [] -> ParseFloat n = Some f -> float_ok formatFloat f.
Proof. intros Hn Hp. exists n. split; [by apply num_text_of|done]. Qed.

(** A struct is written as an object, which does not wait for what follows it. *)
Lemma struct_closed {A B} formatFloat (F : rfields B) (out : A -> B) build inv (a : A) :
  open_ended (encode_val formatFloat (r_type (repr_struct F out build inv)) (r_val (repr_struct F out build inv) a)) = false.
Proof. done. Qed.

Lemma raw_ok_Marshal v :
  utf8_json v = true -> height (tree_of v) <= maxNestingDepth -> raw_ok (Marshal v).
Proof. intros Hu Hh. exists (tree_of v). split; [by apply compact_tree_of|]. split; [done|apply raw_tree_of]. Qed.
