(* ===== verification/GoStrings.v ===== *)
(** * Go's strings and path packages, as far as the helpers use them

    strings.Split on one byte with its inverse, cutting at a byte, prefixes, and
    path.Clean and path.Join. *)

From stdpp Require Import base option list.
From Stdlib Require Import ZArith Lia.
From Stdlib.Strings Require Byte.
From S2P Require Import Prelude Utf8 Json.

(** ** Splitting and joining *)

(** strings.Split(s, sep): never empty. *)
Fixpoint split (sep : Byte.byte) (s : bytes) : list bytes :=
  match s with
  | [] => [[]]
  | c :: s' =>
    if bool_decide (c = sep) then [] :: split sep s'
    else match split sep s' with t :: ts => (c :: t) :: ts | [] => [[c]] end
  end.

Lemma split_nonempty sep s : split sep s <> [].
Proof. destruct s as [|c s]; simpl; repeat case_match; done. Qed.

Lemma split_app sep a b : split sep (a ++ sep :: b) = split sep a ++ split sep b.
Proof.
  induction a as [|c a IH]; cbn [app split].
  - by rewrite bool_decide_true.
  - rewrite IH. case_bool_decide; [done|]. pose proof (split_nonempty sep a). by destruct (split sep a).
Qed.

Lemma split_plain sep s : sep ∉ s -> split sep s = [s].
Proof.
  induction s as [|c s IH]; [done|]. intros Hs. apply not_elem_of_cons in Hs as [Hc Hs].
  simpl. rewrite bool_decide_false by done. by rewrite IH.
Qed.

Lemma split_join sep parts :
  parts <> [] -> Forall (fun p => sep ∉ p) parts -> split sep (join sep parts) = parts.
Proof.
  induction parts as [|p parts IH]; [done|]. intros _ [Hp Hps]%Forall_cons.
  destruct parts as [|q parts]; [by apply split_plain|].
  change (join sep (p :: q :: parts)) with (p ++ sep :: join sep (q :: parts)).
  rewrite split_app, split_plain by done. by rewrite IH.
Qed.

(** strings.Cut(s, sep) for one byte: what is before and after the first one. *)
Fixpoint cut (sep : Byte.byte) (s : bytes) : bytes * bytes * bool :=
  match s with
  | [] => ([], [], false)
  | c :: s' =>
    if bool_decide (c = sep) then ([], s', true)
    else let '(a, b, f) := cut sep s' in (c :: a, b, f)
  end.

Lemma cut_app sep a b : sep ∉ a -> cut sep (a ++ sep :: b) = (a, b, true).
Proof.
  induction a as [|c a IH]; intros Ha; simpl; [by rewrite bool_decide_true|].
  apply not_elem_of_cons in Ha as [Hc Ha]. rewrite bool_decide_false by done. by rewrite IH.
Qed.

(** strings.HasPrefix and TrimPrefix *)
Fixpoint trim_prefix (p s : bytes) : option bytes :=
  match p, s with
  | [], _ => Some s
  | x :: p', y :: s' => if bool_decide (x = y) then trim_prefix p' s' else None
  | _ :: _, [] => None
  end.

Lemma trim_prefix_app p s : trim_prefix p (p ++ s) = Some s.
Proof. induction p as [|x p IH]; [done|]. simpl. by rewrite bool_decide_true. Qed.

Lemma trim_prefix_Some p : forall s t, trim_prefix p s = Some t -> s = p ++ t.
Proof.
  induction p as [|x p IH]; intros s t H; simpl in H; [by simplify_eq|].
  destruct s as [|y s]; [done|]. case_bool_decide; [|done]. subst. simpl. by rewrite (IH _ _ H).
Qed.

(** ** path.Clean and path.Join *)

(** One element of the path: empty and dot are dropped, dot-dot removes the last
    element if there is one to remove. *)
Definition clean_step (rooted : bool) (out : list bytes) (e : bytes) : list bytes :=
  if bool_decide (e = []) || bool_decide (e = lit ".") then out
  else if bool_decide (e = lit "..") then
    match last out with
    | Some l => if bool_decide (l = lit "..") then out ++ [e] else removelast out
    | None => if rooted then [] else [e]
    end
  else out ++ [e].

Definition Clean (p : bytes) : bytes :=
  match p with
  | [] => lit "."
  | c :: _ =>
    let rooted := bool_decide (c = SLASH) in
    let out := foldl (clean_step rooted) [] (split SLASH p) in
    if rooted then SLASH :: join SLASH out
    else match out with [] => lit "." | _ => join SLASH out end
  end.

(** path.Join(a, b) *)
Definition Join2 (a b : bytes) : bytes :=
  match a, b with
  | [], [] => []
  | [], _ => Clean b
  | _, _ => Clean (a ++ SLASH :: b)
  end.

(** An element that Clean leaves alone. *)
Definition segment (e : bytes) : Prop :=
  e <> [] /\ e <> lit "." /\ e <> lit ".." /\ SLASH ∉ e.

(** An absolute path of segments: /a/b/c, the empty one for no segment. *)
Definition abs (segs : list bytes) : bytes := concat ((fun e => SLASH :: e) <$> segs).

Lemma abs_app xs ys : abs (xs ++ ys) = abs xs ++ abs ys.
Proof. unfold abs. by rewrite fmap_app, concat_app. Qed.

Lemma abs_join s segs : abs (s :: segs) = SLASH :: join SLASH (s :: segs).
Proof.
  revert s. induction segs as [|t segs IH]; intros s; unfold abs in *; simpl in *; [by rewrite app_nil_r|].
  f_equal. f_equal. exact (IH t).
Qed.

Lemma clean_segments rooted segs : Forall segment segs -> forall out,
  foldl (clean_step rooted) out segs = out ++ segs.
Proof.
  induction 1 as [|e segs (H1 & H2 & H3 & _) _ IH]; intros out; simpl; [by rewrite app_nil_r|].
  unfold clean_step at 2. rewrite !bool_decide_false by done. simpl. by rewrite IH, <- app_assoc.
Qed.

Lemma Clean_abs segs : segs <> [] -> Forall segment segs -> Clean (abs segs) = abs segs.
Proof.
  intros Hne HF. destruct segs as [|s segs]; [done|]. rewrite abs_join. unfold Clean.
  rewrite bool_decide_true by done. f_equal.
  change (SLASH :: join SLASH (s :: segs)) with ([] ++ SLASH :: join SLASH (s :: segs)).
  rewrite split_app, split_join; [|done|eapply Forall_impl; [exact HF|by intros ? (_ & _ & _ & ?)]].
  rewrite foldl_app. change (foldl (clean_step true) [] (split SLASH [])) with (@nil bytes). by rewrite (clean_segments _ (s :: segs) HF []).
Qed.

(** Joining two such paths concatenates them: the doubled slash goes away. *)
Lemma Join2_abs xs ys : ys <> [] -> Forall segment xs -> Forall segment ys ->
  Join2 (abs xs) (abs ys) = abs xs ++ abs ys.
Proof.
  intros Hy Hxs Hys. destruct ys as [|y ys]; [done|]. destruct xs as [|x xs].
  - rewrite <- (Clean_abs (y :: ys)) at 2 by done. by rewrite abs_join.
  - rewrite <- abs_app. transitivity (Clean (abs (x :: xs) ++ SLASH :: abs (y :: ys))).
    { rewrite !abs_join. done. }
    rewrite !abs_join. cbn [app]. rewrite abs_join. unfold Clean. rewrite bool_decide_true by done. f_equal.
    change (SLASH :: join SLASH (x :: xs) ++ SLASH :: SLASH :: join SLASH (y :: ys))
      with ([] ++ SLASH :: (join SLASH (x :: xs) ++ SLASH :: ([] ++ SLASH :: join SLASH (y :: ys)))).
    assert (forall l, Forall segment l -> Forall (fun p => SLASH ∉ p) l) as Hseg
      by (intros l Hl; eapply Forall_impl; [exact Hl|by intros ? (_ & _ & _ & ?)]).
    rewrite !split_app, !split_join by (done || by apply Hseg).
    rewrite !foldl_app. change (foldl (clean_step true) [] (split SLASH [])) with (@nil bytes).
    rewrite (clean_segments _ (x :: xs) Hxs []).
    change (foldl (clean_step true) ([] ++ x :: xs) (split SLASH [])) with (x :: xs).
    by rewrite (clean_segments _ (y :: ys) Hys).
Qed.

(** ** strconv.Quote (the verb %q) *)

Section Quote.
(** strconv.IsPrint above U+00FF, a Unicode table. *)
Variable printable : Z -> bool.

Definition IsPrint (r : Z) : bool :=
  if r <=? 0xFF then within 0x20 0x7E r || (within 0xA1 0xFF r && negb (r =? 0xAD)) else printable r.

Definition hex_nibbles (ns : list Z) : bytes := hex_digit <$> ns.

(** appendEscapedRune for the quote character and no ASCII restriction. *)
Definition quote_rune (r : Z) : bytes :=
  if (r =? 34) || (r =? 92) then [BSLASH; zb r]
  else if IsPrint r then encode r
  else if r =? 7 then lit "\a"
  else if r =? 8 then lit "\b"
  else if r =? 12 then lit "\f"
  else if r =? 10 then lit "\n"
  else if r =? 13 then lit "\r"
  else if r =? 9 then lit "\t"
  else if r =? 11 then lit "\v"
  else if (r <? 0x20) || (r =? 0x7F) then lit "\x" ++ hex_nibbles [r `div` 16; r `mod` 16]
  else if r <? 0x10000
  then lit "\u" ++ hex_nibbles [r `div` 4096; r `div` 256 `mod` 16; r `div` 16 `mod` 16; r `mod` 16]
  else lit "\U" ++ hex_nibbles [0; 0; r `div` 1048576 `mod` 16; r `div` 65536 `mod` 16; r `div` 4096 `mod` 16;
                                r `div` 256 `mod` 16; r `div` 16 `mod` 16; r `mod` 16].

(** One round of appendQuotedWith: a byte that is not UTF-8 is written in
    hexadecimal. *)
Definition quote_head (b : Byte.byte) (t : bytes) : bytes :=
  let '(r, width) := decode (b :: t) in
  if (width =? 1)%nat && (r =? RuneError)
  then lit "\x" ++ hex_nibbles [bz b `div` 16; bz b `mod` 16]
  else quote_rune r.

Fixpoint quote_loop (fuel : nat) (s : bytes) : bytes :=
  match fuel, s with
  | S fuel', b :: t => quote_head b t ++ quote_loop fuel' (drop (decode s).2 s)
  | _, _ => []
  end.

Definition Quote (s : bytes) : bytes := DQUOTE :: quote_loop (length s) s ++ [DQUOTE].

(** A reader of double-quoted literals that knows the backslash: the literal's
    text up to the closing quote, and what follows. *)
Fixpoint scan_quoted (s : bytes) : option (bytes * bytes) :=
  match s with
  | [] => None
  | c :: t =>
    if decide (c = DQUOTE) then Some ([], t)
    else if decide (c = BSLASH) then
      match t with
      | [] => None
      | c' :: t' => match scan_quoted t' with
                    | Some (x, rest) => Some (c :: c' :: x, rest)
                    | None => None
                    end
      end
    else match scan_quoted t with
         | Some (x, rest) => Some (c :: x, rest)
         | None => None
         end
  end.

(** A piece of a literal the reader passes over whole. *)
Definition inside (p : bytes) : Prop :=
  forall s, scan_quoted (p ++ s) =
            match scan_quoted s with Some (x, rest) => Some (p ++ x, rest) | None => None end.

Lemma inside_nil : inside [].
Proof. intros s. simpl. by destruct (scan_quoted s) as [[]|]. Qed.

Lemma inside_app p q : inside p -> inside q -> inside (p ++ q).
Proof.
  intros Hp Hq s. rewrite <- app_assoc, Hp, Hq. destruct (scan_quoted s) as [[x r]|]; [|done].
  by rewrite app_assoc.
Qed.

Lemma inside_plain p : Forall (fun b => b <> DQUOTE /\ b <> BSLASH) p -> inside p.
Proof.
  induction 1 as [|b p [Hq Hb] _ IH]; [apply inside_nil|]. intros s. simpl.
  rewrite !decide_False by done. rewrite IH. by destruct (scan_quoted s) as [[x r]|].
Qed.

Lemma inside_escape c : inside [BSLASH; c].
Proof. intros s. simpl. by destruct (scan_quoted s) as [[]|]. Qed.

Lemma hex_digit_plain d : 0 <= d < 16 -> hex_digit d <> DQUOTE /\ hex_digit d <> BSLASH.
Proof.
  intros Hd. split; intros E; apply (f_equal bz) in E; unfold hex_digit in E;
    (rewrite bz_zb in E by (destruct (d <? 10) eqn:?; lia));
    change (bz DQUOTE) with 34 in E; change (bz BSLASH) with 92 in E; destruct (d <? 10) eqn:?; lia.
Qed.

Lemma inside_hex c ns : Forall (fun d => 0 <= d < 16) ns -> inside ([BSLASH; c] ++ hex_nibbles ns).
Proof.
  intros H. apply inside_app; [apply inside_escape|]. apply inside_plain. unfold hex_nibbles.
  apply Forall_fmap. eapply Forall_impl; [exact H|]. apply hex_digit_plain.
Qed.

Lemma quote_rune_inside r : scalar r -> inside (quote_rune r).
Proof.
  intros Hr. unfold quote_rune.
  destruct ((r =? 34) || (r =? 92)) eqn:E; [apply inside_escape|].
  apply orb_false_iff in E as [E1 E2]. apply Z.eqb_neq in E1, E2.
  destruct (IsPrint r) eqn:Ep.
  { apply inside_plain. eapply Forall_impl; [apply encode_raw; [done| |done|done]|by intros b (_ & ? & ?)].
    unfold IsPrint in Ep. destruct (r <=? 0xFF) eqn:?; [|lia].
    apply orb_true_iff in Ep as [Ep|Ep]; [|apply andb_true_iff in Ep as [Ep _]]; apply within_true in Ep; lia. }
  do 7 (case_match; [apply inside_escape|]).
  assert (0 <= r <= 0x10FFFF) by (destruct Hr; lia).
  repeat case_match; apply (inside_hex _ _); repeat (constructor; [dlia|]); constructor.
Qed.

Lemma quote_head_inside b t : inside (quote_head b t).
Proof.
  unfold quote_head. pose proof (decode_scalar (b :: t)) as Hs.
  destruct (decode (b :: t)) as [r n]. destruct (_ && _); [|by apply quote_rune_inside].
  pose proof (bz_range b). apply (inside_hex _ _). repeat (constructor; [dlia|]). constructor.
Qed.

Lemma quote_loop_inside fuel : forall s, inside (quote_loop fuel s).
Proof.
  induction fuel as [|fuel IH]; intros [|b t]; try apply inside_nil.
  apply inside_app; [apply quote_head_inside|apply IH].
Qed.

(** Whatever is quoted, the literal ends where it was closed. *)
Lemma Quote_scan s rest : exists x, Quote s ++ rest = DQUOTE :: x ++ DQUOTE :: rest /\
  scan_quoted (x ++ DQUOTE :: rest) = Some (x, rest).
Proof.
  exists (quote_loop (length s) s). unfold Quote. simpl. rewrite <- app_assoc. split; [done|].
  rewrite quote_loop_inside. simpl. by rewrite app_nil_r.
Qed.

(** Printable ASCII without quotes and backslashes is copied. *)
Definition plain (s : bytes) : Prop :=
  Forall (fun b => 0x20 <= bz b <= 0x7E /\ b <> DQUOTE /\ b <> BSLASH) s.

Lemma encode_byte b : bz b < 0x80 -> encode (bz b) = [b].
Proof. intros H. apply encode_of_encoded. by constructor. Qed.

Lemma quote_loop_plain s : plain s -> forall fuel, (length s <= fuel)%nat -> quote_loop fuel s = s.
Proof.
  induction 1 as [|b s (Hb & Hq & Hs) _ IH]; intros [|fuel] Hf; try done; [simpl in Hf; lia|].
  simpl in Hf. cbn [quote_loop]. unfold quote_head. rewrite !decode_ascii by lia. simpl.
  rewrite (proj2 (Z.eqb_neq (bz b) RuneError)) by (unfold RuneError; lia).
  rewrite ?drop_0, IH by lia. unfold quote_rune.
  rewrite (proj2 (Z.eqb_neq (bz b) 34)) by (intros E; apply Hq, bz_inj; done).
  rewrite (proj2 (Z.eqb_neq (bz b) 92)) by (intros E; apply Hs, bz_inj; done).
  simpl. unfold IsPrint. rewrite (proj2 (Z.leb_le (bz b) 0xFF)) by lia.
  rewrite (proj2 (within_true 0x20 0x7E (bz b))) by lia. simpl. by rewrite encode_byte by lia.
Qed.

Lemma Quote_plain s : plain s -> Quote s = DQUOTE :: s ++ [DQUOTE].
Proof. intros H. unfold Quote. by rewrite quote_loop_plain. Qed.
End Quote.
