(* ===== verification/Strconv.v ===== *)
(** * Numbers, booleans and durations from texts

    strconv.ParseUint, ParseInt and ParseBool, and time.ParseDuration, as they read
    the values of environment variables.  The fraction of a duration goes through
    float64, which is IEEE binary64 here ([spec_float]); uint64 sums wrap around. *)

From stdpp Require Import base option list gmap strings.
From Stdlib Require Import ZArith Lia SpecFloat.
From Stdlib.Strings Require Byte.
From S2P Require Import Prelude GoErrors Utf8 Json GoJson.

Open Scope Z_scope.

(** ** strconv *)

Definition ErrSyntax : error := Sentinel "invalid syntax".
Definition ErrRange : error := Sentinel "value out of range".

(** *strconv.NumError, whose Unwrap gives back its reason. *)
Definition NumError (Func : string) (err : error) : error := fmt_Errorf_w Func err.

(** The loop of ParseUint in base ten, for 64 bits. *)
Fixpoint uint_loop (n : Z) (s : bytes) : gores Z :=
  match s with
  | [] => Ok n
  | c :: s' =>
    if negb (is_digit c) then Err ErrSyntax
    else if (2 ^ 64 - 1) / 10 + 1 <=? n then Err ErrRange
    else
      let n := n * 10 + (bz c - 48) in
      if 2 ^ 64 - 1 <? n then Err ErrRange else uint_loop n s'
  end.

Definition uint_digits (s : bytes) : gores Z :=
  match s with [] => Err ErrSyntax | _ => uint_loop 0 s end.

Definition ParseUint (s : bytes) : gores Z :=
  match uint_digits s with
  | Err err => Err (NumError "ParseUint" err)
  | Ok un => Ok un
  end.

Definition PLUS : Byte.byte := Byte.x2b.
Definition MINUS : Byte.byte := Byte.x2d.

(** An optional sign. *)
Definition take_sign (s : bytes) : bool * bytes :=
  match s with
  | c :: s' => if bool_decide (c = PLUS) then (false, s')
               else if bool_decide (c = MINUS) then (true, s') else (false, s)
  | [] => (false, [])
  end.

Definition ParseInt (s : bytes) : gores Z :=
  let '(neg, s') := take_sign s in
  match uint_digits s' with
  | Err err => Err (NumError "ParseInt" err)
  | Ok un =>
    if negb neg && (2 ^ 63 <=? un) then Err (NumError "ParseInt" ErrRange)
    else if neg && (2 ^ 63 <? un) then Err (NumError "ParseInt" ErrRange)
    else Ok (if neg then - un else un)
  end.

Definition trues : list bytes := lit <$> ["1"; "t"; "T"; "TRUE"; "true"; "True"]%string.
Definition falses : list bytes := lit <$> ["0"; "f"; "F"; "FALSE"; "false"; "False"]%string.

Definition ParseBool (s : bytes) : gores bool :=
  if bool_decide (s ∈ trues) then Ok true
  else if bool_decide (s ∈ falses) then Ok false
  else Err (NumError "ParseBool" ErrSyntax).

(** ** time.ParseDuration *)

(** leadingInt: the digits in front, [None] when they overflow. *)
Fixpoint leadingInt (x : Z) (s : bytes) : option (Z * bytes) :=
  match s with
  | c :: s' =>
    if is_digit c then
      if 2 ^ 63 / 10 <? x then None
      else
        let x := x * 10 + (bz c - 48) in
        if 2 ^ 63 <? x then None else leadingInt x s'
    else Some (x, s)
  | [] => Some (x, [])
  end.

Definition float_of (z : Z) : spec_float := binary_normalize prec emax z 0 false.
Definition fmul : spec_float -> spec_float -> spec_float := SFmul prec emax.
Definition fdiv : spec_float -> spec_float -> spec_float := SFdiv prec emax.

(** uint64(f) of a float64 in range. *)
Definition uint64_of (f : spec_float) : Z :=
  match f with
  | S754_finite false m e => if 0 <=? e then Zpos m * 2 ^ e else Zpos m / 2 ^ (- e)
  | _ => 0
  end.

(** leadingFraction: digits past the precision are skipped. *)
Fixpoint leadingFraction (x : Z) (scale : spec_float) (overflow : bool) (s : bytes) : Z * spec_float * bytes :=
  match s with
  | c :: s' =>
    if is_digit c then
      if overflow then leadingFraction x scale true s'
      else if (2 ^ 63 - 1) / 10 <? x then leadingFraction x scale true s'
      else
        let y := x * 10 + (bz c - 48) in
        if 2 ^ 63 <? y then leadingFraction x scale true s'
        else leadingFraction y (fmul scale (float_of 10)) false s'
    else (x, scale, s)
  | [] => (x, scale, [])
  end.

Definition PERIOD : Byte.byte := Byte.x2e.

(** Whether a byte is of a unit. *)
Definition unit_byte (c : Byte.byte) : bool := negb (bool_decide (c = PERIOD) || is_digit c).

Fixpoint take_unit (s : bytes) : bytes * bytes :=
  match s with
  | c :: s' => if unit_byte c then let '(u, r) := take_unit s' in (c :: u, r) else ([], s)
  | [] => ([], [])
  end.

(** Both signs of micro are accepted. *)
Definition unitMap : gmap bytes Z := list_to_map
  [(lit "ns", Nanosecond); (lit "us", 1000 * Nanosecond);
   (Byte.xc2 :: Byte.xb5 :: lit "s", 1000 * Nanosecond); (Byte.xce :: Byte.xbc :: lit "s", 1000 * Nanosecond);
   (lit "ms", Millisecond); (lit "s", Second); (lit "m", Minute); (lit "h", Hour)].

Definition invalid_duration : error := Sentinel "time: invalid duration".

(** The body of the loop: one number with its unit, in nanoseconds. *)
Definition duration_part (s : bytes) : gores (Z * bytes) :=
  match s with
  | [] => Err invalid_duration
  | c :: _ =>
    if negb (bool_decide (c = PERIOD) || is_digit c) then Err invalid_duration
    else
      match leadingInt 0 s with
      | None => Err invalid_duration
      | Some (v, s1) =>
        let pre := negb (length s1 =? length s)%nat in
        let '(f, scale, s2, post) :=
          match s1 with
          | c1 :: t =>
            if bool_decide (c1 = PERIOD) then
              let '(f, scale, s2) := leadingFraction 0 (float_of 1) false t in
              (f, scale, s2, negb (length s2 =? length t)%nat)
            else (0, float_of 1, s1, false)
          | [] => (0, float_of 1, s1, false)
          end in
        if negb pre && negb post then Err invalid_duration
        else
          match take_unit s2 with
          | ([], _) => Err (Sentinel "time: missing unit in duration")
          | (u, s3) =>
            match unitMap !! u with
            | None => Err (Sentinel "time: unknown unit in duration")
            | Some unit =>
              if 2 ^ 63 / unit <? v then Err invalid_duration
              else
                let v := v * unit in
                if 0 <? f then
                  let v := v + uint64_of (fmul (float_of f) (fdiv (float_of unit) scale)) in
                  if 2 ^ 63 <? v then Err invalid_duration else Ok (v, s3)
                else Ok (v, s3)
            end
          end
      end
  end.

(** The loop; every round takes something off, so as much fuel as bytes is
    enough ([duration_loop_fuel]). *)
Fixpoint duration_loop (fuel : nat) (d : Z) (s : bytes) : gores Z :=
  match s, fuel with
  | [], _ => Ok d
  | _ :: _, O => Err (Sentinel "out of fuel")
  | _ :: _, S fuel' =>
    match duration_part s with
    | Err err => Err err
    | Ok (v, s') =>
      let d := (d + v) mod 2 ^ 64 in
      if 2 ^ 63 <? d then Err invalid_duration else duration_loop fuel' d s'
    end
  end.

Definition ParseDuration (orig : bytes) : gores Z :=
  let '(neg, s) := take_sign orig in
  if bool_decide (s = lit "0") then Ok 0
  else if bool_decide (s = []) then Err invalid_duration
  else
    match duration_loop (length s) 0 s with
    | Err err => Err err
    | Ok d =>
      if neg then Ok (wrap64 (- wrap64 d))
      else if 2 ^ 63 - 1 <? d then Err invalid_duration else Ok d
    end.

Example durations :
  ParseDuration (lit "5m") = Ok (5 * Minute) /\ ParseDuration (lit "1h15m30.918s") = Ok (4530918 * Millisecond) /\
  ParseDuration (lit "-1.5h") = Ok (- 90 * Minute) /\ ParseDuration (lit "+.5s") = Ok (500 * Millisecond) /\
  ParseDuration (lit "0") = Ok 0 /\ is_ok (ParseDuration (lit "")) = false /\ is_ok (ParseDuration (lit "3")) = false /\
  is_ok (ParseDuration (lit ".s")) = false /\ is_ok (ParseDuration (lit "1d")) = false /\
  is_ok (ParseDuration (lit "9223372036854775808ns")) = false /\
  ParseDuration (lit "-9223372036854775808ns") = Ok (- 2 ^ 63).
Proof. vm_compute. repeat split. Qed.

(** The sum of uint64 wraps around unseen when both halves are at their limit. *)
Example durations_wrap :
  ParseDuration (lit "9223372036854775808ns9223372036854775808ns") = Ok 0.
Proof. vm_compute. reflexivity. Qed.

(** ** Integers are read back *)

Lemma is_digit_range c : is_digit c = true -> 0 <= bz c - 48 <= 9.
Proof. unfold is_digit. rewrite within_true. lia. Qed.

Lemma parse_digits_ge s : forall n, 0 <= n -> n <= (parse_digits n s).1.
Proof.
  induction s as [|c s IH]; intros n Hn; [done|]. cbn [parse_digits]. destruct (is_digit c) eqn:E; [|done].
  apply is_digit_range in E. specialize (IH (10 * n + (bz c - 48)) ltac:(lia)). lia.
Qed.

Lemma uint_loop_digits s : forall n, Forall (fun c => is_digit c = true) s -> 0 <= n ->
  (parse_digits n s).1 < 2 ^ 64 -> uint_loop n s = Ok (parse_digits n s).1.
Proof.
  induction s as [|c s IH]; intros n Hs Hn Hlt; [done|]. apply Forall_cons in Hs as [Hc Hs].
  cbn [parse_digits uint_loop] in *. rewrite Hc in *. cbn [negb]. pose proof (is_digit_range c Hc).
  pose proof (parse_digits_ge s (10 * n + (bz c - 48)) ltac:(lia)) as Hge.
  rewrite (proj2 (Z.leb_gt _ _)) by dlia. replace (n * 10 + (bz c - 48)) with (10 * n + (bz c - 48)) by lia.
  rewrite (proj2 (Z.ltb_ge _ _)) by lia. by apply IH; [|lia|].
Qed.

Lemma uint_loop_range s : forall n un, 0 <= n < 2 ^ 64 -> uint_loop n s = Ok un -> 0 <= un < 2 ^ 64.
Proof.
  induction s as [|c s IH]; intros n un Hn; cbn [uint_loop]; [by intros [= <-]|].
  destruct (is_digit c) eqn:Hc; cbn [negb]; [|done]. apply is_digit_range in Hc. destruct (_ <=? n); [done|].
  destruct (Z.ltb_spec (2 ^ 64 - 1) (n * 10 + (bz c - 48))); [done|]. apply IH. lia.
Qed.

Lemma uint_digits_range s un : uint_digits s = Ok un -> 0 <= un < 2 ^ 64.
Proof. destruct s; [done|]. by apply uint_loop_range. Qed.

Lemma ParseInt_int64 s z : ParseInt s = Ok z -> int64_range z.
Proof.
  unfold ParseInt, int64_range. destruct (take_sign s) as [neg s']. destruct (uint_digits s') as [un|] eqn:E; [|done].
  apply uint_digits_range in E. destruct neg; cbn [negb andb].
  - destruct (Z.ltb_spec (2 ^ 63) un); [done|]. intros [= <-]. lia.
  - destruct (Z.leb_spec (2 ^ 63) un); [done|]. intros [= <-]. lia.
Qed.

Lemma ParseUint_range s z : ParseUint s = Ok z -> 0 <= z < 2 ^ 64.
Proof. unfold ParseUint. destruct (uint_digits s) eqn:E; [|done]. intros [= <-]. by eapply uint_digits_range. Qed.

Lemma abs_digits_all z : Forall (fun c => is_digit c = true) (abs_digits z).
Proof. apply digits_all; [lia|constructor]. Qed.

Lemma abs_digits_value z t : (forall c r, t = c :: r -> is_digit c = false) ->
  parse_digits 0 (abs_digits z ++ t) = (Z.abs z, t).
Proof.
  intros Ht. unfold abs_digits. rewrite digits_app, parse_digits_digits by lia. cbn [app].
  destruct t as [|c r]; [done|]. cbn [parse_digits]. by rewrite (Ht c r).
Qed.

Lemma uint_digits_abs z : Z.abs z < 2 ^ 64 -> uint_digits (abs_digits z) = Ok (Z.abs z).
Proof.
  intros Hz. pose proof (abs_digits_value z [] ltac:(done)) as Hv. rewrite app_nil_r in Hv.
  pose proof (uint_loop_digits (abs_digits z) 0 (abs_digits_all z) ltac:(lia)) as Hu. rewrite Hv in Hu.
  specialize (Hu Hz). destruct (abs_digits_head z) as (c & r & E & _). by rewrite E in *.
Qed.

(** strconv.ParseInt undoes strconv.FormatInt. *)
Lemma ParseInt_marshal z : int64_range z -> ParseInt (marshal_int z) = Ok z.
Proof.
  intros Hz. unfold int64_range in Hz. rewrite marshal_int_abs. unfold ParseInt.
  assert (take_sign ((if z <? 0 then [Byte.x2d] else []) ++ abs_digits z) = (z <? 0, abs_digits z)) as ->.
  { destruct (z <? 0); cbn [app take_sign]; [done|]. destruct (abs_digits_head z) as (c & r & E & Hc). rewrite E.
    cbn [take_sign]. rewrite !bool_decide_eq_false_2; [done| |]; intros ->; by vm_compute in Hc. }
  rewrite uint_digits_abs by lia. destruct (Z.ltb_spec z 0); cbn [negb andb].
  - rewrite (proj2 (Z.ltb_ge _ _)) by lia. f_equal. lia.
  - rewrite (proj2 (Z.leb_gt _ _)) by lia. f_equal. lia.
Qed.

(** ** Durations *)

Lemma leadingInt_rest s : forall x v t, leadingInt x s = Some (v, t) -> 0 <= x -> x <= v /\ (length t <= length s)%nat.
Proof.
  induction s as [|c s IH]; intros x v t; cbn [leadingInt]; [intros [= <- <-]; lia|].
  destruct (is_digit c) eqn:Hc; [|intros [= <- <-]; lia]. apply is_digit_range in Hc.
  destruct (_ <? x); [done|]. destruct (_ <? _); [done|]. intros H Hx. destruct (IH _ _ _ H ltac:(lia)).
  cbn [length]. lia.
Qed.

Lemma leadingFraction_rest s : forall x scale o, 0 <= x ->
  0 <= (leadingFraction x scale o s).1.1 /\ (length (leadingFraction x scale o s).2 <= length s)%nat.
Proof.
  induction s as [|c s IH]; intros x scale o Hx; cbn [leadingFraction]; [done|].
  destruct (is_digit c) eqn:Hc; [|cbn; lia]. apply is_digit_range in Hc.
  cbn [length]. destruct o; [|destruct (_ <? x); [|destruct (_ <? _)]].
  all: match goal with H : forall x scale o, _ |- context [leadingFraction ?a ?b ?d _] => destruct (H a b d ltac:(lia)); lia end.
Qed.

Lemma take_unit_rest s u t : take_unit s = (u, t) -> s = u ++ t.
Proof.
  revert u t. induction s as [|c s IH]; intros u t; cbn [take_unit]; [by intros [= <- <-]|].
  destruct (unit_byte c); [|by intros [= <- <-]]. destruct (take_unit s) as [u' r]. intros [= <- <-].
  cbn [app]. f_equal. by apply IH.
Qed.

Lemma uint64_of_nonneg f : 0 <= uint64_of f.
Proof.
  unfold uint64_of. destruct f as [| | |[] m e]; try done. destruct (Z.leb_spec 0 e); [lia|]. apply Z.div_pos; lia.
Qed.

Lemma unitMap_pos u unit : unitMap !! u = Some unit -> 0 < unit.
Proof.
  intros H. assert (map_Forall (fun _ x => 0 < x) unitMap) as Hall; [|by apply (Hall u)].
  apply map_Forall_to_list. vm_compute. repeat constructor.
Qed.

Lemma duration_part_rest s v t : duration_part s = Ok (v, t) -> 0 <= v <= 2 ^ 63 /\ (length t < length s)%nat.
Proof.
  unfold duration_part. destruct s as [|c s]; [done|]. destruct (negb _); [done|].
  destruct (leadingInt 0 (c :: s)) as [[v1 s1]|] eqn:E1; [|done].
  destruct (leadingInt_rest _ _ _ _ E1 ltac:(lia)) as [Hv Hl1].
  set (r := match s1 with c1 :: t0 => _ | [] => _ end).
  assert (Hr : 0 <= r.1.1.1 /\ (length r.1.2 <= length (c :: s))%nat).
  { unfold r. destruct s1 as [|c1 s1]; [cbn in *; lia|]. case_bool_decide; [|cbn in *; lia].
    pose proof (leadingFraction_rest s1 0 (float_of 1) false ltac:(lia)) as Hf.
    destruct (leadingFraction _ _ _ s1) as [[f scale] s2]. cbn in *. lia. }
  destruct r as [[[f scale] s2] post]. cbn [fst snd] in Hr. destruct (_ && _); [done|].
  destruct (take_unit s2) as [u s3] eqn:Eu. apply take_unit_rest in Eu. destruct u as [|u0 u]; [done|].
  assert (Hl : (length s3 < length (c :: s))%nat) by (rewrite Eu, length_app in Hr; cbn [length] in *; lia).
  destruct (unitMap !! (u0 :: u)) as [unit|] eqn:Em; [|done]. apply unitMap_pos in Em.
  destruct (Z.ltb_spec (2 ^ 63 / unit) v1); [done|].
  assert (v1 * unit <= 2 ^ 63) by (pose proof (Z.mul_div_le (2 ^ 63) unit Em); nia).
  set (frac := uint64_of _). pose proof (uint64_of_nonneg (fmul (float_of f) (fdiv (float_of unit) scale))) as Hf.
  fold frac in Hf. destruct (0 <? f); [|intros [= <- <-]; split; [nia|done]].
  destruct (Z.ltb_spec (2 ^ 63) (v1 * unit + frac)); [done|]. intros [= <- <-]. split; [nia|done].
Qed.

Lemma duration_loop_range fuel : forall d s d', 0 <= d <= 2 ^ 63 -> duration_loop fuel d s = Ok d' -> 0 <= d' <= 2 ^ 63.
Proof.
  induction fuel as [|fuel IH]; intros d [|c s] d' Hd; cbn [duration_loop]; try done; try (by intros [= <-]).
  destruct (duration_part (c :: s)) as [[v s']|]; [|done].
  pose proof (Z.mod_pos_bound (d + v) (2 ^ 64) ltac:(lia)).
  destruct (Z.ltb_spec (2 ^ 63) ((d + v) mod 2 ^ 64)); [done|]. apply IH. lia.
Qed.

(** More fuel than bytes makes no difference. *)
Lemma duration_loop_fuel fuel : forall fuel' d s, (length s <= fuel)%nat -> (length s <= fuel')%nat ->
  duration_loop fuel d s = duration_loop fuel' d s.
Proof.
  induction fuel as [|fuel IH]; intros [|fuel'] d [|c s] H1 H2; try done; cbn [length] in *; try lia.
  cbn [duration_loop]. destruct (duration_part (c :: s)) as [[v s']|] eqn:E; [|done].
  destruct (duration_part_rest _ _ _ E) as [_ Hl]. cbn [length] in Hl. destruct (_ <? _); [done|]. apply IH; lia.
Qed.

Lemma ParseDuration_range s d : ParseDuration s = Ok d -> int64_range d.
Proof.
  unfold ParseDuration. destruct (take_sign s) as [neg s']. case_bool_decide; [by intros [= <-]|].
  case_bool_decide; [done|]. destruct (duration_loop _ 0 s') as [d'|] eqn:E; [|done].
  apply duration_loop_range in E; [|done]. destruct neg; [intros [= <-]; apply wrap64_range|].
  destruct (Z.ltb_spec (2 ^ 63 - 1) d'); [done|]. intros [= <-]. unfold int64_range. lia.
Qed.

(** *** Whole numbers with units are read back *)

Lemma leadingInt_digits s : forall x t, Forall (fun c => is_digit c = true) s ->
  (forall c r, t = c :: r -> is_digit c = false) -> 0 <= x -> (parse_digits x s).1 <= 2 ^ 63 ->
  leadingInt x (s ++ t) = Some ((parse_digits x s).1, t).
Proof.
  induction s as [|c s IH]; intros x t Hs Ht Hx Hle.
  - cbn [app parse_digits fst] in *. destruct t as [|c r]; [done|]. cbn [leadingInt]. by rewrite (Ht c r).
  - apply Forall_cons in Hs as [Hc Hs]. cbn [app leadingInt parse_digits] in *. rewrite Hc in *.
    pose proof (is_digit_range c Hc). pose proof (parse_digits_ge s (10 * x + (bz c - 48)) ltac:(lia)).
    rewrite (proj2 (Z.ltb_ge _ _)) by dlia. replace (x * 10 + (bz c - 48)) with (10 * x + (bz c - 48)) by lia.
    rewrite (proj2 (Z.ltb_ge _ _)) by lia. apply IH; try done. lia.
Qed.

Lemma leadingInt_abs n t : 0 <= n <= 2 ^ 63 -> (forall c r, t = c :: r -> is_digit c = false) ->
  leadingInt 0 (abs_digits n ++ t) = Some (n, t).
Proof.
  intros Hn Ht. pose proof (abs_digits_value n [] ltac:(done)) as Hv. rewrite app_nil_r in Hv.
  rewrite leadingInt_digits; try done; rewrite ?Hv; cbn [fst]; [by rewrite Z.abs_eq by lia|apply abs_digits_all|lia].
Qed.

Lemma unitMap_bytes u unit : unitMap !! u = Some unit -> u <> [] /\ Forall (fun c => unit_byte c = true) u.
Proof.
  intros H. assert (map_Forall (fun u (_ : Z) => u <> [] /\ forallb unit_byte u = true) unitMap) as Hall.
  { apply map_Forall_to_list. vm_compute. repeat constructor; done. }
  destruct (Hall u unit H) as [Hne Hb]. split; [done|]. apply Forall_forall. intros c Hc.
  rewrite forallb_forall in Hb. apply Hb. by apply list_elem_of_In.
Qed.

Lemma take_unit_app u t : Forall (fun c => unit_byte c = true) u ->
  (forall c r, t = c :: r -> unit_byte c = false) -> take_unit (u ++ t) = (u, t).
Proof.
  intros Hu Ht. induction Hu as [|c u Hc _ IH]; cbn [app take_unit].
  - destruct t as [|c r]; [done|]. cbn [take_unit]. by rewrite (Ht c r).
  - by rewrite Hc, IH.
Qed.

Lemma unit_byte_spec c : unit_byte c = true -> c <> PERIOD /\ is_digit c = false.
Proof. unfold unit_byte. rewrite negb_true_iff, orb_false_iff, bool_decide_eq_false. done. Qed.

Lemma digit_not_unit c : is_digit c = true -> unit_byte c = false.
Proof. intros H. unfold unit_byte. by rewrite H, orb_true_r. Qed.

(** A number and its unit. *)
Definition part_text (p : Z * bytes) : bytes := abs_digits p.1 ++ p.2.
Definition part_value (p : Z * bytes) : Z := p.1 * default 0 (unitMap !! p.2).
Definition part_ok (p : Z * bytes) : Prop := 0 <= p.1 /\ is_Some (unitMap !! p.2).

Lemma duration_part_text p t : part_ok p -> part_value p <= 2 ^ 63 ->
  (forall c r, t = c :: r -> is_digit c = true) -> duration_part (part_text p ++ t) = Ok (part_value p, t).
Proof.
  destruct p as [n u]. unfold part_ok, part_value, part_text. cbn [fst snd]. intros [Hn [unit Hu]] Hle Ht.
  change (default 0 (unitMap !! u)) with (from_option id 0 (unitMap !! u)) in *.
  rewrite Hu in *. cbn [from_option id] in *. destruct (unitMap_bytes u unit Hu) as [Hne Hb]. pose proof (unitMap_pos u unit Hu).
  rewrite <- app_assoc. destruct (abs_digits_head n) as (c & r & E & Hc).
  unfold duration_part. rewrite E at 1. cbn [app]. rewrite Hc, orb_true_r. cbn [negb].
  destruct u as [|u0 u]; [done|]. pose proof Hb as [Hu0 _]%Forall_cons. apply unit_byte_spec in Hu0 as [Hp Hd].
  assert (Hlead : leadingInt 0 (abs_digits n ++ (u0 :: u) ++ t) = Some (n, (u0 :: u) ++ t)).
  { apply leadingInt_abs; [split; [done|nia]|]. by intros c' r' [= <- _]. }
  assert (Hlen : (length ((u0 :: u) ++ t) =? length (abs_digits n ++ (u0 :: u) ++ t))%nat = false).
  { apply Nat.eqb_neq. rewrite (length_app (abs_digits n)), E. cbn [length]. lia. }
  rewrite E in Hlead, Hlen. cbn [app] in Hlead, Hlen. rewrite E. cbn [app]. rewrite Hlead, Hlen. cbn [negb andb].
  rewrite bool_decide_eq_false_2 by done. change (u0 :: u ++ t) with ((u0 :: u) ++ t).
  rewrite take_unit_app by (done || by intros; apply digit_not_unit; eapply Ht). rewrite Hu.
  rewrite (proj2 (Z.ltb_ge _ _)) by (apply Z.div_le_lower_bound; lia). done.
Qed.

Definition parts_text (ps : list (Z * bytes)) : bytes := concat (part_text <$> ps).
Definition parts_value (ps : list (Z * bytes)) : Z := foldr (fun p d => part_value p + d) 0 ps.

Lemma parts_text_head ps c r : parts_text ps = c :: r -> is_digit c = true.
Proof.
  destruct ps as [|[n u] ps]; [done|]. unfold parts_text, part_text. cbn [fmap list_fmap concat fst snd].
  destruct (abs_digits_head n) as (c' & r' & E & Hc). rewrite E. by intros [= <- _].
Qed.

Lemma part_value_nonneg p : part_ok p -> 0 <= part_value p.
Proof. intros [Hn [unit Hu]]. unfold part_value. rewrite Hu. cbn [from_option id]. apply unitMap_pos in Hu. nia. Qed.

Lemma parts_value_nonneg ps : Forall part_ok ps -> 0 <= parts_value ps.
Proof.
  induction 1 as [|p ps Hp _ IH]; [done|]. apply part_value_nonneg in Hp. unfold parts_value in *. cbn. lia.
Qed.

Lemma duration_loop_parts ps : forall fuel d, Forall part_ok ps -> 0 <= d -> d + parts_value ps < 2 ^ 63 ->
  (length (parts_text ps) <= fuel)%nat -> duration_loop fuel d (parts_text ps) = Ok (d + parts_value ps).
Proof.
  induction ps as [|p ps IH]; intros fuel d Hok Hd Hlt Hf.
  - destruct fuel; cbn; by rewrite Z.add_0_r.
  - apply Forall_cons in Hok as [Hp Hok]. pose proof (part_value_nonneg p Hp). pose proof (parts_value_nonneg ps Hok).
    cbn [parts_value foldr] in *. fold (parts_value ps) in *.
    assert (E : parts_text (p :: ps) = part_text p ++ parts_text ps) by done.
    pose proof (duration_part_text p (parts_text ps) Hp ltac:(lia) (parts_text_head ps)) as Hpart.
    rewrite E in *. destruct (part_text p ++ parts_text ps) as [|c s]; [by vm_compute in Hpart|].
    destruct (duration_part_rest _ _ _ Hpart) as [_ Hl]. destruct fuel as [|fuel]; [cbn in *; lia|].
    cbn [duration_loop]. rewrite Hpart. rewrite Z.mod_small by lia. rewrite (proj2 (Z.ltb_ge _ _)) by lia.
    rewrite IH; [f_equal; lia|done|lia|lia|cbn [length] in *; lia].
Qed.

(** A text of numbers with their units is their sum. *)
Lemma ParseDuration_parts ps : ps <> [] -> Forall part_ok ps -> parts_value ps < 2 ^ 63 ->
  ParseDuration (parts_text ps) = Ok (parts_value ps).
Proof.
  intros Hne Hok Hlt. pose proof (duration_loop_parts ps (length (parts_text ps)) 0 Hok ltac:(lia) ltac:(lia) ltac:(lia)) as Hl.
  unfold ParseDuration. destruct (parts_text ps) as [|c s] eqn:E.
  { destruct ps as [|[n u] ps]; [done|]. destruct (abs_digits_head n) as (c & r & Ed & _).
    unfold parts_text, part_text in E. cbn [fmap list_fmap concat fst snd] in E. by rewrite Ed in E. }
  pose proof (parts_text_head ps c s E) as Hc.
  assert (take_sign (c :: s) = (false, c :: s)) as ->.
  { cbn [take_sign]. rewrite !bool_decide_eq_false_2; [done| |]; intros ->; by vm_compute in Hc. }
  rewrite bool_decide_eq_false_2.
  2: { intros E0. rewrite E0 in Hl. by vm_compute in Hl. }
  rewrite bool_decide_eq_false_2 by done. rewrite Hl, Z.add_0_l. by rewrite (proj2 (Z.ltb_ge _ _)) by lia.
Qed.
