(* ===== verification/Gonfig.v ===== *)
(** * gonfiguration: configuration structs from the environment

    The package psyb0t/gonfiguration (vendored), through which every package of the
    repository gets its configuration: the process-wide defaults and Parse, which
    fills the fields of a struct from environment variables, from defaults set by
    the program and from defaults in the struct tags.

    A struct is the list of its fields, each with its Go type (kind and name, as
    reflect tells types apart) and the two tags Parse looks up; reflect's parsing of the tag text is left out.  strconv.ParseFloat
    is an argument: no field of the repository is a float.  The mutex around the defaults
    and the copies of the maps do not matter to sequential calls. *)

From stdpp Require Import base option list gmap strings.
From Stdlib Require Import ZArith Lia SpecFloat.
From Stdlib.Strings Require Byte.
From S2P Require Import Prelude GoErrors Utf8 Json GoStrings Strconv.

Open Scope Z_scope.

(** ** Types and values of fields *)

(** reflect.Kind; [KOther] are the kinds without a case. *)
Inductive kind : Type :=
| KString | KInt | KInt8 | KInt16 | KInt32 | KInt64 | KUint | KUint8 | KUint16 | KUint32 | KUint64
| KFloat32 | KFloat64 | KBool | KSlice | KOther.

#[export] Instance kind_eq_dec : EqDecision kind.
Proof. solve_decision. Defined.

(** reflect.Type: what it is made of and its name, by which types of the same kind differ
    (int and int64, int64 and time.Duration, string and a named string). *)
Record ftype : Type := MkType { Kind : kind; TypeName : string }.

#[export] Instance ftype_eq_dec : EqDecision ftype.
Proof. solve_decision. Defined.

Definition TString : ftype := MkType KString "string".
Definition TInt : ftype := MkType KInt "int".
Definition TInt64 : ftype := MkType KInt64 "int64".
Definition TBool : ftype := MkType KBool "bool".
Definition TDuration : ftype := MkType KInt64 "time.Duration".
Definition TStrings : ftype := MkType KSlice "[]string".

(** The widths of the integer kinds; int and uint have 64 bits. *)
Definition int_bits (k : kind) : option Z :=
  match k with
  | KInt | KInt64 => Some 64 | KInt8 => Some 8 | KInt16 => Some 16 | KInt32 => Some 32
  | _ => None
  end.

Definition uint_bits (k : kind) : option Z :=
  match k with
  | KUint | KUint64 => Some 64 | KUint8 => Some 8 | KUint16 => Some 16 | KUint32 => Some 32
  | _ => None
  end.

Inductive fval : Type :=
| FString (s : bytes)
| FNum (z : Z)
| FFloat (f : spec_float)
| FBool (b : bool)
| FStrings (l : option (list bytes))
| FOther.

Definition zero_val (ty : ftype) : fval :=
  match Kind ty with
  | KString => FString []
  | KFloat32 | KFloat64 => FFloat (S754_zero false)
  | KBool => FBool false
  | KSlice => if decide (ty = TStrings) then FStrings None else FOther
  | KOther => FOther
  | _ => FNum 0
  end.

Definition has_ftype (ty : ftype) (v : fval) : Prop :=
  match Kind ty, v with
  | KString, FString _ | KFloat32, FFloat _ | KFloat64, FFloat _ | KBool, FBool _ | KOther, FOther => True
  | KSlice, FStrings _ => ty = TStrings
  | KSlice, FOther => ty <> TStrings
  | k, FNum z =>
    match int_bits k, uint_bits k with
    | Some w, _ => - 2 ^ (w - 1) <= z < 2 ^ (w - 1)
    | _, Some w => 0 <= z < 2 ^ w
    | None, None => False
    end
  | _, _ => False
  end.

(** A field: its tags env and default, its type. *)
Record sfield : Type := MkField { env_tag : option bytes; default_tag : option bytes; field_type : ftype }.

(** ** The process-wide state *)

(** A value of type any: nil, or a value with its type. *)
Definition any : Type := option (ftype * fval).

Record gonfiguration : Type := MkGonfig { defaults : gmap bytes any; envVars : gmap bytes bytes }.

Definition init : gonfiguration := MkGonfig ∅ ∅.

Definition SetDefault (key : bytes) (val : any) (g : gonfiguration) : gonfiguration :=
  MkGonfig (<[key := val]> (defaults g)) (envVars g).

(** SetDefaults ranges over a map: the order does not matter to different keys. *)
Definition SetDefaults (vals : list (bytes * any)) (g : gonfiguration) : gonfiguration :=
  foldl (fun g '(key, val) => SetDefault key val g) g vals.

Definition getDefault (key : bytes) (g : gonfiguration) : any :=
  match defaults g !! key with None => None | Some val => val end.

Definition setEnvVars (vars : gmap bytes bytes) (g : gonfiguration) : gonfiguration :=
  MkGonfig (defaults g) (vars ∪ envVars g).

(** GetAllValues: the environment over the defaults. *)
Definition GetAllValues (g : gonfiguration) : gmap bytes any :=
  ((fun s => Some (TString, FString s)) <$> envVars g) ∪ defaults g.

Definition ErrNilDestination : error := Sentinel "destination is nil".
Definition ErrInvalidEnvVar : error := Sentinel "invalid environment variable".
Definition ErrTargetNotPointer : error := Sentinel "destination must be a pointer".
Definition ErrDestinationNotStruct : error := Sentinel "destination must be a struct".
Definition ErrUnsupportedFieldType : error := Sentinel "unsupported field type".
Definition ErrRequiredFieldNotSet : error := Sentinel "gonfiguration: required field not set".
Definition ErrDefaultTypeMismatch : error := Sentinel "default value type mismatch".

(** ** The environment *)

Definition EQUALS : Byte.byte := Byte.x3d.

(** getEnvVars: os.Environ() split at the first equals sign; a later entry of the same
    name replaces an earlier one. *)
Fixpoint split_env (raw : list bytes) (vars : gmap bytes bytes) : gores (gmap bytes bytes) :=
  match raw with
  | [] => Ok vars
  | rawVar :: raw' =>
    match cut EQUALS rawVar with
    | (key, val, true) => split_env raw' (<[key := val]> vars)
    | (_, _, false) => Err (fmt_Errorf_w "invalid" ErrInvalidEnvVar)
    end
  end.

Definition getEnvVars (environ : list bytes) : gores (gmap bytes bytes) := split_env environ ∅.

(** The variables of an environment whose entries all have an equals sign. *)
Definition env_of (environ : list bytes) : gmap bytes bytes :=
  match getEnvVars environ with Ok vars => vars | Err _ => ∅ end.

Lemma env_of_ok environ : is_ok (getEnvVars environ) = true -> getEnvVars environ = Ok (env_of environ).
Proof. unfold env_of. by destruct (getEnvVars environ). Qed.

(** ** Fields *)

Definition parseTag (tag : bytes) : bytes * bool :=
  match split COMMA tag with
  | [] => ([], false)
  | key :: parts => (TrimSpace key, existsb (fun part => bool_decide (TrimSpace part = lit "required")) parts)
  end.

Definition isSupportedType (ty : ftype) : bool :=
  if decide (ty = TDuration) then true
  else if decide (ty = TStrings) then true
  else match Kind ty with KSlice | KOther => false | _ => true end.

(** What reflect's SetInt and SetUint keep of a number. *)
Definition truncS (w z : Z) : Z := (z + 2 ^ (w - 1)) `mod` 2 ^ w - 2 ^ (w - 1).
Definition truncU (w z : Z) : Z := z `mod` 2 ^ w.

Section Parse.
(** strconv.ParseFloat(s, bits) *)
Context (ParseFloat : Z -> bytes -> gores spec_float).

Definition setStringSlice (s : bytes) : fval :=
  match s with
  | [] => FStrings (Some [])
  | _ => FStrings (Some (TrimSpace <$> split COMMA s))
  end.

Definition set_parsed {A} (what : string) (r : gores A) (set : A -> fval) : gores fval :=
  match r with
  | Err err => Err (fmt_Errorf_w what err)
  | Ok a => Ok (set a)
  end.

Definition setInt (w : Z) (s : bytes) : gores fval :=
  set_parsed "failed to parse int" (ParseInt s) (fun z => FNum (truncS w z)).

Definition setUint (w : Z) (s : bytes) : gores fval :=
  set_parsed "failed to parse uint" (ParseUint s) (fun z => FNum (truncU w z)).

Definition setFloat (w : Z) (s : bytes) : gores fval :=
  set_parsed "failed to parse float" (ParseFloat w s) FFloat.

Definition setBool (s : bytes) : gores fval := set_parsed "failed to parse bool" (ParseBool s) FBool.

Definition setDuration (s : bytes) : gores fval := set_parsed "failed to parse duration" (ParseDuration s) FNum.

(** setEnvVarValue, with the new value of the field as its result. *)
Definition setEnvVarValue (ty : ftype) (s : bytes) : gores fval :=
  if decide (ty = TDuration) then setDuration s
  else if decide (ty = TStrings) then Ok (setStringSlice s)
  else
    match Kind ty with
    | KString => Ok (FString s)
    | KInt | KInt64 => setInt 64 s
    | KInt8 => setInt 8 s
    | KInt16 => setInt 16 s
    | KInt32 => setInt 32 s
    | KUint | KUint64 => setUint 64 s
    | KUint8 => setUint 8 s
    | KUint16 => setUint 16 s
    | KUint32 => setUint 32 s
    | KFloat32 => setFloat 32 s
    | KFloat64 => setFloat 64 s
    | KBool => setBool s
    | KSlice | KOther => Err (fmt_Errorf_w "FieldName" ErrUnsupportedFieldType)
    end.

(** setDefaultValue: the value to set, if there is one. *)
Definition setDefaultValue (g : gonfiguration) (ty : ftype) (key : bytes) : gores (option fval) :=
  match getDefault key g with
  | None => Ok None
  | Some (ty', v) => if bool_decide (ty' = ty) then Ok (Some v) else Err ErrDefaultTypeMismatch
  end.

(** fillFieldValue, with the value it leaves in the field. *)
Definition fillFieldValue (g : gonfiguration) (ty : ftype) (v : fval) (key : bytes) (required : bool)
    (vars : gmap bytes bytes) (tagDefault : option bytes) : option error * fval :=
  let r := match tagDefault with
           | Some s => setEnvVarValue ty s
           | None => Ok v
           end in
  match r with
  | Err err => (Some (fmt_Errorf_w "invalid default tag value" err), v)
  | Ok v =>
    match setDefaultValue g ty key with
    | Err err => (Some err, v)
    | Ok d =>
      let v := default v d in
      let hasDefault := bool_decide (is_Some d) || bool_decide (is_Some tagDefault) in
      match vars !! key with
      | None => if required && negb hasDefault then (Some (fmt_Errorf_w "field" ErrRequiredFieldNotSet), v) else (None, v)
      | Some s =>
        match setEnvVarValue ty s with
        | Err err => (Some err, v)
        | Ok v => (None, v)
        end
      end
    end
  end.

(** parseDstFields: the fields before the one that fails are set. *)
Fixpoint parseDstFields (g : gonfiguration) (vars : gmap bytes bytes) (fs : list sfield) (vs : list fval)
  : option error * list fval :=
  match fs, vs with
  | f :: fs', v :: vs' =>
    match env_tag f with
    | None => let '(e, r) := parseDstFields g vars fs' vs' in (e, v :: r)
    | Some tag =>
      let '(key, required) := parseTag tag in
      if negb (isSupportedType (field_type f)) then (Some ErrUnsupportedFieldType, vs)
      else
        match fillFieldValue g (field_type f) v key required vars (default_tag f) with
        | (Some err, v') => (Some (fmt_Errorf_w "failed to set field value" err), v' :: vs')
        | (None, v') => let '(e, r) := parseDstFields g vars fs' vs' in (e, v' :: r)
        end
    end
  | _, _ => (None, vs)
  end.

(** What is passed to Parse. *)
Inductive dest : Type :=
| NilDst
| NotPointer
| PtrToOther
| PtrToStruct (fs : list sfield) (vs : list fval).

Definition Parse (environ : list bytes) (dst : dest) : io gonfiguration (option error * dest) := fun g =>
  match getEnvVars environ with
  | Err err => ((Some (fmt_Errorf_w "failed to get env vars" err), dst), g)
  | Ok vars =>
    let g := setEnvVars vars g in
    match dst with
    | NilDst => ((Some (fmt_Errorf_w "invalid destination" ErrNilDestination), dst), g)
    | NotPointer => ((Some (fmt_Errorf_w "invalid destination" ErrTargetNotPointer), dst), g)
    | PtrToOther => ((Some (fmt_Errorf_w "invalid destination" ErrDestinationNotStruct), dst), g)
    | PtrToStruct fs vs =>
      let '(e, vs') := parseDstFields g vars fs vs in
      ((fmt_Errorf_w "failed to parse fields" <$> e, PtrToStruct fs vs'), g)
    end
  end.

(** ** What Parse computes *)

(** The value of a text, if there is one. *)
Definition read_text (ty : ftype) (o : option bytes) : gores (option fval) :=
  match o with
  | None => Ok None
  | Some s => match setEnvVarValue ty s with Ok v => Ok (Some v) | Err err => Err err end
  end.

(** A field with an env tag ends as the value of its environment variable, else of the
    program's default, else of its default tag, else as it was; all three
    have to be readable, and one of them present when the field is required. *)
Definition settles (g : gonfiguration) (vars : gmap bytes bytes) (f : sfield) (v v' : fval) : Prop :=
  match env_tag f with
  | None => v' = v
  | Some tag =>
    let '(key, required) := parseTag tag in
    let ty := field_type f in
    isSupportedType ty = true /\
    exists t d e, read_text ty (default_tag f) = Ok t /\ setDefaultValue g ty key = Ok d /\
      read_text ty (vars !! key) = Ok e /\ (required = true -> is_Some e \/ is_Some d \/ is_Some t) /\
      v' = default (default (default v t) d) e
  end.

Lemma fill_settles g ty v key required vars tagd v' :
  fillFieldValue g ty v key required vars tagd = (None, v') <->
  exists t d e, read_text ty tagd = Ok t /\ setDefaultValue g ty key = Ok d /\
    read_text ty (vars !! key) = Ok e /\ (required = true -> is_Some e \/ is_Some d \/ is_Some t) /\
    v' = default (default (default v t) d) e.
Proof.
  unfold fillFieldValue, read_text. split.
  - destruct (match tagd with Some s => setEnvVarValue ty s | None => Ok v end) as [v1|] eqn:Et; [|done].
    destruct (setDefaultValue g ty key) as [d|] eqn:Ed; [|done]. intros H.
    exists (match tagd with Some _ => Some v1 | None => None end), d.
    assert (Ht : read_text ty tagd = Ok (match tagd with Some _ => Some v1 | None => None end)).
    { unfold read_text. destruct tagd; [by rewrite Et|done]. }
    assert (Hv : default v (match tagd with Some _ => Some v1 | None => None end) = v1).
    { destruct tagd; [done|]. by injection Et. }
    unfold read_text in Ht. destruct (vars !! key) as [s|].
    + destruct (setEnvVarValue ty s) as [v2|]; [|done]. injection H as <-. exists (Some v2). repeat split; try done. by left.
    + exists None. destruct required; cbn [andb] in H; [|injection H as <-; repeat split; try done; by rewrite Hv].
      destruct d as [d|]; cbn in H; [injection H as <-; repeat split; try done; by right; left|].
      destruct tagd as [s|]; cbn in H; [|done]. injection H as <-. repeat split; try done. intros _. right. by right.
  - intros (t & d & e & Ht & -> & He & Hreq & ->).
    assert ((match tagd with Some s => setEnvVarValue ty s | None => Ok v end) = Ok (default v t)
            /\ bool_decide (is_Some tagd) = bool_decide (is_Some t)) as [-> Hd].
    { destruct tagd as [s|]; [|by simplify_eq]. destruct (setEnvVarValue ty s); by simplify_eq. }
    destruct (vars !! key) as [s|].
    + destruct (setEnvVarValue ty s); by simplify_eq.
    + simplify_eq. rewrite Hd. destruct required; cbn [andb]; [|done]. destruct (Hreq eq_refl) as [[? [=]]|[Hs|Hs]].
      * by rewrite (bool_decide_eq_true_2 _ Hs).
      * by rewrite (bool_decide_eq_true_2 _ Hs), orb_true_r.
Qed.

Lemma settles_fun g vars f v v1 v2 : settles g vars f v v1 -> settles g vars f v v2 -> v1 = v2.
Proof.
  unfold settles. destruct (env_tag f) as [tag|]; [|congruence]. destruct (parseTag tag) as [key required].
  intros (_ & t & d & e & H1 & H2 & H3 & _ & ->) (_ & t' & d' & e' & H1' & H2' & H3' & _ & ->). congruence.
Qed.

(** One field of parseDstFields. *)
Lemma field_settles g vars f fs v vs :
  (exists v', settles g vars f v v' /\
     parseDstFields g vars (f :: fs) (v :: vs)
     = ((parseDstFields g vars fs vs).1, v' :: (parseDstFields g vars fs vs).2)) \/
  ((forall v', ~ settles g vars f v v') /\ exists err v',
     parseDstFields g vars (f :: fs) (v :: vs) = (Some err, v' :: vs)).
Proof.
  unfold settles. cbn [parseDstFields]. destruct (env_tag f) as [tag|].
  2: { left. exists v. split; [done|]. by destruct (parseDstFields g vars fs vs). }
  destruct (parseTag tag) as [key required]. destruct (isSupportedType (field_type f)); cbn [negb].
  2: { right. split; [by intros v' [? _]|]. by exists ErrUnsupportedFieldType, v. }
  destruct (fillFieldValue _ _ _ _ _ _ _) as [[err|] v'] eqn:E.
  - right. split; [|by eexists _, _]. intros v1 [_ H]. apply fill_settles in H. congruence.
  - left. exists v'. split; [split; [done|by apply fill_settles]|]. by destruct (parseDstFields g vars fs vs).
Qed.

Lemma parse_settles g vars fs : forall vs vs', length vs = length fs ->
  parseDstFields g vars fs vs = (None, vs') <-> Forall3 (settles g vars) fs vs vs'.
Proof.
  induction fs as [|f fs IH]; intros [|v vs] vs' Hl; try done.
  - cbn [parseDstFields]. split; [intros [= <-]; constructor|]. intros H. by inversion H.
  - injection Hl as Hl. specialize (IH vs). destruct (field_settles g vars f fs v vs) as [(v1 & Hs & ->)|(Hn & err & v1 & ->)].
    + destruct (parseDstFields g vars fs vs) as [e r]. cbn [fst snd]. split.
      * intros [= -> <-]. constructor; [done|]. by apply IH.
      * intros H. inversion H as [|???? v2 vs2 Hs2 Hr]; subst. rewrite (settles_fun _ _ _ _ _ _ Hs Hs2).
        apply IH in Hr; [|done]. by simplify_eq.
    + split; [done|]. intros H. inversion H; subst. exfalso. by eapply Hn.
Qed.

(** When it fails, the fields before the first that cannot be settled are, and those after
    it are as they were. *)
Lemma parse_fails g vars fs : forall vs err vs', length vs = length fs ->
  parseDstFields g vars fs vs = (Some err, vs') ->
  exists i f v, fs !! i = Some f /\ vs !! i = Some v /\ (forall v', ~ settles g vars f v v') /\
    Forall3 (settles g vars) (take i fs) (take i vs) (take i vs') /\ drop (S i) vs' = drop (S i) vs.
Proof.
  induction fs as [|f fs IH]; intros [|v vs] err vs' Hl; try done. injection Hl as Hl. specialize (IH vs).
  destruct (field_settles g vars f fs v vs) as [(v1 & Hs & ->)|(Hn & err1 & v1 & ->)].
  - destruct (parseDstFields g vars fs vs) as [e r]. cbn [fst snd]. intros [= -> <-].
    destruct (IH err r Hl eq_refl) as (i & f' & v' & Hf & Hv & Hns & Hbefore & Hafter).
    exists (S i), f', v'. repeat split; try done. by constructor.
  - intros [= <- <-]. exists O, f, v. repeat split; try done. constructor.
Qed.

(** *** Types *)

Definition defaults_typed (g : gonfiguration) : Prop :=
  map_Forall (fun _ d => match d with Some (ty, v) => has_ftype ty v | None => True end) (defaults g).

Lemma truncS_range w z : 1 <= w -> - 2 ^ (w - 1) <= truncS w z < 2 ^ (w - 1).
Proof.
  intros Hw. unfold truncS. assert (0 < 2 ^ (w - 1)) by (apply Z.pow_pos_nonneg; lia).
  assert (2 ^ w = 2 * 2 ^ (w - 1)) as E by (rewrite <- Z.pow_succ_r by lia; f_equal; lia).
  pose proof (Z.mod_pos_bound (z + 2 ^ (w - 1)) (2 ^ w) ltac:(lia)). lia.
Qed.

Lemma set_parsed_typed {A} what (r : gores A) f ty v :
  (forall a, r = Ok a -> has_ftype ty (f a)) -> set_parsed what r f = Ok v -> has_ftype ty v.
Proof. unfold set_parsed. destruct r; [|done]. intros H [= <-]. by apply H. Qed.

Lemma truncU_range w z : 0 <= w -> 0 <= truncU w z < 2 ^ w.
Proof. intros Hw. apply Z.mod_pos_bound, Z.pow_pos_nonneg; lia. Qed.

Lemma setEnvVarValue_typed ty s v : setEnvVarValue ty s = Ok v -> has_ftype ty v.
Proof.
  unfold setEnvVarValue. case_decide as Hd; [|case_decide as Hs].
  - apply set_parsed_typed. intros z E%ParseDuration_range. subst ty. exact E.
  - unfold setStringSlice. subst ty. destruct s; by intros [= <-].
  - unfold has_ftype. destruct (Kind ty) eqn:Hk; try (by intros [= <-]); cbn [int_bits uint_bits].
    all: unfold setInt, setUint, setFloat, setBool, set_parsed.
    all: repeat case_match; try done; intros [= <-]; try done; first [by apply truncS_range|by apply truncU_range].
Qed.

Lemma read_text_typed ty o v : read_text ty o = Ok (Some v) -> has_ftype ty v.
Proof.
  unfold read_text. destruct o as [s|]; [|done].
  destruct (setEnvVarValue ty s) as [v1|] eqn:E; [|done]. intros [= <-]. by eapply setEnvVarValue_typed.
Qed.

Lemma setDefaultValue_typed g ty key v : defaults_typed g -> setDefaultValue g ty key = Ok (Some v) -> has_ftype ty v.
Proof.
  intros Hg. unfold setDefaultValue, getDefault. destruct (defaults g !! key) as [[[ty' v']|]|] eqn:E; try done.
  case_bool_decide; [subst|done]. intros [= <-]. by apply (Hg key) in E.
Qed.

Lemma zero_val_typed ty : has_ftype ty (zero_val ty).
Proof. unfold has_ftype, zero_val. destruct (Kind ty); cbn; try done; by case_decide. Qed.

(** A settled field has its type. *)
Lemma settles_typed g vars f v v' : defaults_typed g ->
  has_ftype (field_type f) v -> settles g vars f v v' -> has_ftype (field_type f) v'.
Proof.
  intros Hg Hv. unfold settles. destruct (env_tag f) as [tag|]; [|by intros ->].
  destruct (parseTag tag) as [key required]. intros (_ & t & d & e & Ht & Hd & He & _ & ->).
  destruct e as [e|]; [by eapply read_text_typed|]. destruct d as [d|]; [by eapply setDefaultValue_typed|].
  destruct t as [t|]; [by eapply read_text_typed|done].
Qed.

Lemma settled_typed g vars fs vs vs' : defaults_typed g ->
  Forall2 (fun f v => has_ftype (field_type f) v) fs vs -> Forall3 (settles g vars) fs vs vs' ->
  Forall2 (fun f v => has_ftype (field_type f) v) fs vs'.
Proof.
  intros Hg Hv H. induction H as [|f v v' fs vs vs' Hs _ IH]; [done|].
  apply Forall2_cons in Hv as [Hv1 Hv].
  constructor; [by eapply settles_typed|by apply IH].
Qed.

(** *** Parse looks only at the defaults of its own keys *)

Definition key_of (f : sfield) : option bytes := fst ∘ parseTag <$> env_tag f.

Lemma setDefaultValue_frame g g' ty key :
  getDefault key g = getDefault key g' -> setDefaultValue g ty key = setDefaultValue g' ty key.
Proof. unfold setDefaultValue. by intros ->. Qed.

Lemma parseDstFields_frame g g' vars fs : (forall key, key ∈ omap key_of fs -> getDefault key g = getDefault key g') ->
  forall vs, parseDstFields g vars fs vs = parseDstFields g' vars fs vs.
Proof.
  induction fs as [|f fs IH]; intros Hk [|v vs]; try done. cbn [parseDstFields].
  assert (Hrest : parseDstFields g vars fs vs = parseDstFields g' vars fs vs).
  { apply IH. intros key Hin. apply Hk. cbn [omap list_omap]. destruct (key_of f); [by apply list_elem_of_further|done]. }
  rewrite Hrest. destruct (env_tag f) as [tag|] eqn:Et; [|done]. destruct (parseTag tag) as [key required] eqn:Ep.
  destruct (negb _); [done|]. unfold fillFieldValue. rewrite (setDefaultValue_frame g g'); [done|].
  apply Hk. cbn [omap list_omap]. unfold key_of at 1. rewrite Et. cbn. rewrite Ep. apply list_elem_of_here.
Qed.

Lemma Parse_frame g g' environ fs vs : (forall key, key ∈ omap key_of fs -> getDefault key g = getDefault key g') ->
  (Parse environ (PtrToStruct fs vs) g).1 = (Parse environ (PtrToStruct fs vs) g').1.
Proof.
  intros Hk. unfold Parse. destruct (getEnvVars environ) as [vars|]; [|done].
  rewrite (parseDstFields_frame (setEnvVars vars g) (setEnvVars vars g')); [|exact Hk].
  by destruct (parseDstFields _ _ _ _).
Qed.

(** Parse leaves the defaults alone. *)
Lemma Parse_defaults environ dst g : defaults (Parse environ dst g).2 = defaults g.
Proof.
  unfold Parse. destruct (getEnvVars environ); [|done]. destruct dst; try done. by destruct (parseDstFields _ _ _ _).
Qed.

(** C21. Parse settles a struct.  When every entry of the environment has an equals sign,
    Parse returns nil exactly when every field can be settled, and then every
    field has the value its environment variable, else the program's default, else its
    default tag, else its old value gives it, and that value has the field's type.
    Otherwise the fields before the first that cannot be settled are settled and those
    after it untouched.  The defaults are not changed, and only those of the struct's own
    keys matter. *)
Theorem gonfig_parse (environ : list bytes) (vars : gmap bytes bytes) (fs : list sfield) (vs : list fval)
    (g g' : gonfiguration) (e : option error) (dst' : dest) :
  getEnvVars environ = Ok vars -> Forall2 (fun f v => has_ftype (field_type f) v) fs vs ->
  Parse environ (PtrToStruct fs vs) g = ((e, dst'), g') ->
  defaults g' = defaults g /\
  (forall h, (forall key, key ∈ omap key_of fs -> getDefault key g = getDefault key h) ->
     (Parse environ (PtrToStruct fs vs) h).1 = (e, dst')) /\
  exists vs', dst' = PtrToStruct fs vs' /\
    match e with
    | None =>
      Forall3 (settles g vars) fs vs vs' /\
      (defaults_typed g -> Forall2 (fun f v => has_ftype (field_type f) v) fs vs')
    | Some _ =>
      ~ (exists vs1, Forall3 (settles g vars) fs vs vs1) /\
      exists i, Forall3 (settles g vars) (take i fs) (take i vs) (take i vs') /\ drop (S i) vs' = drop (S i) vs
    end.
Proof.
  intros Henv Hty HP. pose proof (Forall2_length _ _ _ Hty) as Hl. symmetry in Hl.
  split; [by rewrite <- (Parse_defaults environ (PtrToStruct fs vs) g), HP|].
  split; [intros h Hk; by rewrite <- (Parse_frame g h), HP|].
  unfold Parse in HP. rewrite Henv in HP.
  rewrite (parseDstFields_frame _ g) in HP by done.
  destruct (parseDstFields g vars fs vs) as [e1 vs'] eqn:E. injection HP as <- <- <-. exists vs'. split; [done|].
  destruct e1 as [err|]; cbn.
  - split.
    + intros [vs1 H]. apply parse_settles in H; congruence.
    + destruct (parse_fails g vars fs vs err vs' Hl E) as (i & _ & _ & _ & _ & _ & Hb & Ha). eauto.
  - apply parse_settles in E; [|done]. split; [done|]. intros Hg. by eapply settled_typed.
Qed.
End Parse.

(** A default of type int does not fit a field of type int64, nor one of type int64
    a time.Duration, though their values would. *)
Lemma default_type_matters key v :
  setDefaultValue (SetDefault key (Some (TInt, v)) init) TInt64 key = Err ErrDefaultTypeMismatch /\
  setDefaultValue (SetDefault key (Some (TInt64, v)) init) TDuration key = Err ErrDefaultTypeMismatch /\
  setDefaultValue (SetDefault key (Some (TInt64, v)) init) TInt64 key = Ok (Some v).
Proof.
  unfold setDefaultValue, getDefault, SetDefault. cbn [defaults]. rewrite !lookup_insert_eq. done.
Qed.

(** ** A struct for the witness *)

Definition no_float (bits : Z) (s : bytes) : gores spec_float := Err ErrSyntax.

Definition demo_struct : list sfield :=
  [MkField (Some (lit "PORT, required")) None TInt; MkField None None (MkType KOther "map[string]bool");
   MkField (Some (lit "TTL")) (Some (lit "5m")) TDuration; MkField (Some (lit "HOSTS")) (Some (lit "a")) TStrings;
   MkField (Some (lit "NAME")) (Some (lit "x")) TString].

Definition demo_defaults : gonfiguration := SetDefault (lit "NAME") (Some (TString, FString (lit "y"))) init.
Definition demo_environ : list bytes := [lit "PORT=-1"; lit "HOSTS= b , c"; lit "PORT=8080"; lit "X=="].
Definition demo_zero : list fval := zero_val ∘ field_type <$> demo_struct.
Definition demo_settled : list fval :=
  [FNum 8080; FOther; FNum (5 * Minute); FStrings (Some [lit "b"; lit "c"]); FString (lit "y")].

Lemma demo_parse :
  Parse no_float demo_environ (PtrToStruct demo_struct demo_zero) demo_defaults
  = ((None, PtrToStruct demo_struct demo_settled),
     (Parse no_float demo_environ (PtrToStruct demo_struct demo_zero) demo_defaults).2).
Proof.
  assert ((Parse no_float demo_environ (PtrToStruct demo_struct demo_zero) demo_defaults).1
          = (None, PtrToStruct demo_struct demo_settled)) as H by (vm_compute; reflexivity).
  destruct (Parse _ _ _ _) as [r g]. cbn [fst snd] in *. by rewrite H.
Qed.

Lemma gonfig_parse_witness :
  Forall3 (settles no_float demo_defaults (env_of demo_environ)) demo_struct demo_zero demo_settled.
Proof.
  destruct (gonfig_parse no_float demo_environ (env_of demo_environ) demo_struct demo_zero demo_defaults
    (Parse no_float demo_environ (PtrToStruct demo_struct demo_zero) demo_defaults).2
    None (PtrToStruct demo_struct demo_settled)) as (_ & _ & vs' & E & H & _).
  - apply env_of_ok. vm_compute. reflexivity.
  - repeat (apply List.Forall2_cons; [apply zero_val_typed|]). apply List.Forall2_nil.
  - apply demo_parse.
  - injection E as <-. exact H.
Defined.
