(* ===== verification/MqSse.v ===== *)
(** * mq and llm/mqsse: publishing a streamed answer

    mq is a thin interface to a message queue; mqsse publishes the events of a
    streamed answer on one topic, in the order of the SSE protocol it mirrors:
    a message start, content blocks (start, deltas, stop, with increasing
    indices), a message delta and a message stop.

    A queue is the record of operations [MQ] over a world [W] with the law
    [MQLaws]: what it has acknowledged ([delivered]) grows by the value when a
    publish reports success and stays when it reports an error.  [Broker] is a queue with an
    arbitrary schedule of refusals that keeps the law.  Values travel as their
    JSON form. *)

From stdpp Require Import base option list.
From Stdlib Require Import ZArith Lia SpecFloat.
From Stdlib.Strings Require Byte.
From S2P Require Import Prelude GoErrors Utf8 Json GoJson GoDecode.

Open Scope Z_scope.

(** ** mq *)

(** mq.Publisher *)
Record MQ (W : Type) : Type := MkMQ { mq_Publish : bytes -> json -> io W (option error) }.
Arguments mq_Publish {W} m topic v.

(** [delivered] is what was acknowledged: a queue that keeps a message and loses its
    acknowledgement reports an error, and such a message is not counted here (Delivery.v
    looks at what is stored). *)
Class MQLaws {W} (q : MQ W) : Type := {
  delivered : W -> list (bytes * json);
  Publish_law topic v w e w' : mq_Publish q topic v w = (e, w') ->
    delivered w' = match e with
                   | None => delivered w ++ [(topic, v)]
                   | Some _ => delivered w
                   end
}.

(** TopicPublisher *)
Record TopicPublisher (W : Type) : Type := MkTopicPublisher { tp_publisher : MQ W; tp_topic : bytes }.
Arguments MkTopicPublisher {W} _ _.
Arguments tp_publisher {W} _.
Arguments tp_topic {W} _.

Definition NewTopicPublisher {W} (p : MQ W) (topic : bytes) : TopicPublisher W :=
  MkTopicPublisher p topic.

Definition TopicPublisher_Publish {W} (tp : TopicPublisher W) (v : json) : io W (option error) :=
  err ← mq_Publish (tp_publisher tp) (tp_topic tp) v;
  mret (match err with
        | Some e => ctxerrors.Wrap (Some e) "topic publisher publish"
        | None => None
        end).

(** Message: the data and the acknowledgement of the queue it came from. *)
Record Message (W : Type) : Type := MkMessage { MData : bytes; ack : io W (option error) }.
Arguments MkMessage {W} _ _.
Arguments MData {W} _.
Arguments ack {W} _.

Definition NewMessage {W} (data : bytes) (a : io W (option error)) : Message W := MkMessage data a.
Definition Ack {W} (m : Message W) : io W (option error) := ack m.

(** Decode into what [dst] points to. *)
Definition Message_Decode {W} (m : Message W) (dst : target) : option error * target :=
  let '(e, dst') := Unmarshal (MData m) dst in
  (match e with
   | Some err => ctxerrors.Wrap (Some err) "decode message"
   | None => None
   end, dst').

(** Handler, HandlerFunc: a function from messages to an error. *)
Definition Handler (W : Type) : Type := Message W -> io W (option error).

(** mq.Client: Subscribe on top of a publisher. *)
Record Client (W : Type) : Type := MkClient {
  c_publisher : MQ W;
  c_Subscribe : bytes -> Handler W -> io W (option error);
  c_Close : io W (option error)
}.
Arguments c_Subscribe {W} _ _ _.

Record TopicSubscriber (W : Type) : Type := MkTopicSubscriber { ts_client : Client W; ts_topic : bytes }.
Arguments ts_client {W} _.
Arguments ts_topic {W} _.

Definition NewTopicSubscriber {W} (c : Client W) (topic : bytes) : TopicSubscriber W :=
  MkTopicSubscriber W c topic.

Definition TopicSubscriber_Subscribe {W} (ts : TopicSubscriber W) (h : Handler W) : io W (option error) :=
  err ← c_Subscribe (ts_client ts) (ts_topic ts) h;
  mret (match err with
        | Some e => ctxerrors.Wrap (Some e) "topic subscriber subscribe"
        | None => None
        end).

(** ** llm/mqsse/types.go *)

Definition EventTypeMessageStart : bytes := lit "message_start".
Definition EventTypeContentBlockStart : bytes := lit "content_block_start".
Definition EventTypePing : bytes := lit "ping".
Definition EventTypeContentBlockDelta : bytes := lit "content_block_delta".
Definition EventTypeContentBlockStop : bytes := lit "content_block_stop".
Definition EventTypeMessageDelta : bytes := lit "message_delta".
Definition EventTypeMessageStop : bytes := lit "message_stop".

Definition ContentBlockTypeMessage : bytes := lit "message".
Definition ContentBlockTypeText : bytes := lit "text".
Definition ContentBlockTypeTextDelta : bytes := lit "text_delta".
Definition ContentBlockTypeToolUse : bytes := lit "tool_use".
Definition ContentBlockTypeToolResult : bytes := lit "tool_result".
Definition ContentBlockTypeInputJSON : bytes := lit "input_json_delta".
Definition ContentBlockTypeJSONPartial : bytes := lit "json_partial".

Definition StopReasonEndTurn : bytes := lit "end_turn".
Definition RoleAssistant : bytes := lit "assistant".

Record UsageStart : Type := { InputTokens : Z; OutputTokens : Z }.
Record MessageMeta : Type := {
  ID : bytes; ConversationID : bytes; MType : bytes; Role : bytes; Content : list json;
  Model : bytes; StopReason : option bytes; StopSequence : option bytes; Usage : UsageStart
}.
Record ContentBlock : Type := { CBType : bytes; CBText : bytes }.
Record TextDelta : Type := { TDType : bytes; TDText : bytes }.
Record MessageDeltaInfo : Type := { DStopReason : bytes; DStopSequence : option bytes }.
Record ToolUseBlock : Type := { TUType : bytes; TUID : bytes; TUName : bytes; TUInput : json }.
Record ToolResultBlock : Type := { TRType : bytes; TRToolUseID : bytes; TRContent : bytes }.
Record InputJSONDelta : Type := { IJType : bytes; PartialJSON : bytes }.

(** The data of the events, one constructor per struct; the type field of each
    is its event type. *)
Inductive payload : Type :=
| MessageStartData (Type_ : bytes) (Message : MessageMeta)
| ContentBlockStartData (Type_ : bytes) (Index : Z) (b : ContentBlock)
| PingData (Type_ : bytes)
| ContentBlockDeltaData (Type_ : bytes) (Index : Z) (Delta : TextDelta)
| ContentBlockStopData (Type_ : bytes) (Index : Z)
| MessageDeltaData (Type_ : bytes) (Delta : MessageDeltaInfo) (outputTokens : Z)
| MessageStopData (Type_ : bytes)
| ContentBlockStartToolUseData (Type_ : bytes) (Index : Z) (b : ToolUseBlock)
| ContentBlockStartToolResultData (Type_ : bytes) (Index : Z) (b : ToolResultBlock)
| ContentBlockDeltaToolInputData (Type_ : bytes) (Index : Z) (Delta : InputJSONDelta)
| ContentBlockDeltaToolResultData (Type_ : bytes) (Index : Z) (Delta : TextDelta).

Definition jfield (name : String.string) (v : json) : bytes * json := (lit name, v).
Arguments jfield name%_string_scope v.
(** omitempty on a string *)
Definition omitempty (name : String.string) (s : bytes) : list (bytes * json) :=
  match s with [] => [] | _ => [jfield name (JStr s)] end.
Arguments omitempty name%_string_scope s.
Definition jptr (s : option bytes) : json := match s with Some s => JStr s | None => JNull end.

Definition meta_json (m : MessageMeta) : json := JObj
  [jfield "id" (JStr (ID m)); jfield "conversation_id" (JStr (ConversationID m));
   jfield "type" (JStr (MType m)); jfield "role" (JStr (Role m)); jfield "content" (JArr (Content m));
   jfield "model" (JStr (Model m)); jfield "stop_reason" (jptr (StopReason m));
   jfield "stop_sequence" (jptr (StopSequence m));
   jfield "usage" (JObj [jfield "input_tokens" (JInt (InputTokens (Usage m)));
                         jfield "output_tokens" (JInt (OutputTokens (Usage m)))])].

(** The JSON form of the data, by the struct tags. *)
Definition payload_json (p : payload) : json :=
  match p with
  | MessageStartData t m => JObj [jfield "type" (JStr t); jfield "message" (meta_json m)]
  | ContentBlockStartData t i b => JObj
      [jfield "type" (JStr t); jfield "index" (JInt i);
       jfield "content_block" (JObj (jfield "type" (JStr (CBType b)) :: omitempty "text" (CBText b)))]
  | PingData t | MessageStopData t => JObj [jfield "type" (JStr t)]
  | ContentBlockDeltaData t i d | ContentBlockDeltaToolResultData t i d => JObj
      [jfield "type" (JStr t); jfield "index" (JInt i);
       jfield "delta" (JObj [jfield "type" (JStr (TDType d)); jfield "text" (JStr (TDText d))])]
  | ContentBlockStopData t i => JObj [jfield "type" (JStr t); jfield "index" (JInt i)]
  | MessageDeltaData t d n => JObj
      [jfield "type" (JStr t);
       jfield "delta" (JObj [jfield "stop_reason" (JStr (DStopReason d));
                             jfield "stop_sequence" (jptr (DStopSequence d))]);
       jfield "usage" (JObj [jfield "output_tokens" (JInt n)])]
  | ContentBlockStartToolUseData t i b => JObj
      [jfield "type" (JStr t); jfield "index" (JInt i);
       jfield "content_block" (JObj [jfield "type" (JStr (TUType b)); jfield "id" (JStr (TUID b));
                                     jfield "name" (JStr (TUName b)); jfield "input" (TUInput b)])]
  | ContentBlockStartToolResultData t i b => JObj
      [jfield "type" (JStr t); jfield "index" (JInt i);
       jfield "content_block" (JObj (jfield "type" (JStr (TRType b)) ::
                                     jfield "tool_use_id" (JStr (TRToolUseID b)) ::
                                     omitempty "content" (TRContent b)))]
  | ContentBlockDeltaToolInputData t i d => JObj
      [jfield "type" (JStr t); jfield "index" (JInt i);
       jfield "delta" (JObj [jfield "type" (JStr (IJType d)); jfield "partial_json" (JStr (PartialJSON d))])]
  end.

(** Event, as it travels. *)
Definition event_json (eventType data : bytes) : json :=
  JObj [jfield "event" (JStr eventType); jfield "data" (JStr data)].

(** The Go types of the structs. *)
Definition Event_type : gotype := GStruct [field "event" GString; field "data" GString].
Definition Event_val (event data : bytes) : goval := VStruct [VString event; VString data].

Definition UsageStart_type : gotype := GStruct [field "input_tokens" GInt; field "output_tokens" GInt].
Definition MessageMeta_type : gotype := GStruct
  [field "id" GString; field "conversation_id" GString; field "type" GString; field "role" GString;
   field "content" (GSlice GAny); field "model" GString; field "stop_reason" (GPtr GString);
   field "stop_sequence" (GPtr GString); field "usage" UsageStart_type].
Definition ContentBlock_type : gotype := GStruct [field "type" GString; field_omitempty "text" GString].
Definition TextDelta_type : gotype := GStruct [field "type" GString; field "text" GString].
Definition MessageDeltaInfo_type : gotype :=
  GStruct [field "stop_reason" GString; field "stop_sequence" (GPtr GString)].
Definition UsageEnd_type : gotype := GStruct [field "output_tokens" GInt].
Definition ToolUseBlock_type : gotype :=
  GStruct [field "type" GString; field "id" GString; field "name" GString; field "input" GAny].
Definition ToolResultBlock_type : gotype :=
  GStruct [field "type" GString; field "tool_use_id" GString; field_omitempty "content" GString].
Definition InputJSONDelta_type : gotype := GStruct [field "type" GString; field "partial_json" GString].

(** The Go type of the data of an event. *)
Definition payload_gotype (p : payload) : gotype :=
  match p with
  | MessageStartData _ _ => GStruct [field "type" GString; field "message" MessageMeta_type]
  | ContentBlockStartData _ _ _ =>
    GStruct [field "type" GString; field "index" GInt; field "content_block" ContentBlock_type]
  | PingData _ | MessageStopData _ => GStruct [field "type" GString]
  | ContentBlockDeltaData _ _ _ | ContentBlockDeltaToolResultData _ _ _ =>
    GStruct [field "type" GString; field "index" GInt; field "delta" TextDelta_type]
  | ContentBlockStopData _ _ => GStruct [field "type" GString; field "index" GInt]
  | MessageDeltaData _ _ _ =>
    GStruct [field "type" GString; field "delta" MessageDeltaInfo_type; field "usage" UsageEnd_type]
  | ContentBlockStartToolUseData _ _ _ =>
    GStruct [field "type" GString; field "index" GInt; field "content_block" ToolUseBlock_type]
  | ContentBlockStartToolResultData _ _ _ =>
    GStruct [field "type" GString; field "index" GInt; field "content_block" ToolResultBlock_type]
  | ContentBlockDeltaToolInputData _ _ _ =>
    GStruct [field "type" GString; field "index" GInt; field "delta" InputJSONDelta_type]
  end.

Definition ptr_val (s : option bytes) : goval := match s with Some s => VPtr (VString s) | None => VNil end.

(** The data as a value of that type, for the messages the package sends: no
    content and no input in the start of a message and of a tool call. *)
Definition payload_val (p : payload) : goval :=
  match p with
  | MessageStartData t m => VStruct [VString t; VStruct
      [VString (ID m); VString (ConversationID m); VString (MType m); VString (Role m); VSlice [] [];
       VString (Model m); ptr_val (StopReason m); ptr_val (StopSequence m);
       VStruct [VInt (InputTokens (Usage m)); VInt (OutputTokens (Usage m))]]]
  | ContentBlockStartData t i b => VStruct [VString t; VInt i; VStruct [VString (CBType b); VString (CBText b)]]
  | PingData t | MessageStopData t => VStruct [VString t]
  | ContentBlockDeltaData t i d | ContentBlockDeltaToolResultData t i d =>
    VStruct [VString t; VInt i; VStruct [VString (TDType d); VString (TDText d)]]
  | ContentBlockStopData t i => VStruct [VString t; VInt i]
  | MessageDeltaData t d n =>
    VStruct [VString t; VStruct [VString (DStopReason d); ptr_val (DStopSequence d)]; VStruct [VInt n]]
  | ContentBlockStartToolUseData t i b =>
    VStruct [VString t; VInt i; VStruct [VString (TUType b); VString (TUID b); VString (TUName b); VMap []]]
  | ContentBlockStartToolResultData t i b =>
    VStruct [VString t; VInt i; VStruct [VString (TRType b); VString (TRToolUseID b); VString (TRContent b)]]
  | ContentBlockDeltaToolInputData t i d =>
    VStruct [VString t; VInt i; VStruct [VString (IJType d); VString (PartialJSON d)]]
  end.

(** ** llm/mqsse/publisher.go *)

Section Publisher.
Context {W : Type} (q : MQ W).

(** Publisher: the queue and the topic. *)
Record Publisher : Type := NewPublisher { topic : bytes }.

(** Publish; [data] is what json.Marshal gives: the JSON form, or an error. *)
Definition Publish (p : Publisher) (eventType : bytes) (data : gores json) : io W (option error) :=
  match data with
  | Err err => mret (ctxerrors.Wrap (Some err) "marshal SSE data")
  | Ok v =>
    err ← mq_Publish q (topic p) (event_json eventType (Marshal v));
    mret (match err with
          | Some e => ctxerrors.Wrap (Some e) "publish event"
          | None => None
          end)
  end.

Definition publish_payload (p : Publisher) (eventType : bytes) (d : payload) : io W (option error) :=
  Publish p eventType (Ok (payload_json d)).

Definition SendMessageStart (p : Publisher) (msgID conversationID model : bytes) : io W (option error) :=
  publish_payload p EventTypeMessageStart (MessageStartData EventTypeMessageStart
    {| ID := msgID; ConversationID := conversationID; MType := ContentBlockTypeMessage;
       Role := RoleAssistant; Content := []; Model := model; StopReason := None;
       StopSequence := None; Usage := {| InputTokens := 0; OutputTokens := 0 |} |}).

Definition SendPing (p : Publisher) : io W (option error) :=
  publish_payload p EventTypePing (PingData EventTypePing).

Definition SendContentBlockStartText (p : Publisher) (index : Z) : io W (option error) :=
  publish_payload p EventTypeContentBlockStart (ContentBlockStartData EventTypeContentBlockStart index
    {| CBType := ContentBlockTypeText; CBText := [] |}).

Definition SendContentBlockDeltaText (p : Publisher) (index : Z) (text : bytes) : io W (option error) :=
  publish_payload p EventTypeContentBlockDelta (ContentBlockDeltaData EventTypeContentBlockDelta index
    {| TDType := ContentBlockTypeTextDelta; TDText := text |}).

Definition SendContentBlockStop (p : Publisher) (index : Z) : io W (option error) :=
  publish_payload p EventTypeContentBlockStop (ContentBlockStopData EventTypeContentBlockStop index).

Definition SendMessageDelta (p : Publisher) (stopReason : bytes) (outputTokens : Z) : io W (option error) :=
  publish_payload p EventTypeMessageDelta (MessageDeltaData EventTypeMessageDelta
    {| DStopReason := stopReason; DStopSequence := None |} outputTokens).

Definition SendMessageStop (p : Publisher) : io W (option error) :=
  publish_payload p EventTypeMessageStop (MessageStopData EventTypeMessageStop).

Definition SendToolUseStart (p : Publisher) (index : Z) (toolUseID name : bytes) : io W (option error) :=
  publish_payload p EventTypeContentBlockStart (ContentBlockStartToolUseData EventTypeContentBlockStart index
    {| TUType := ContentBlockTypeToolUse; TUID := toolUseID; TUName := name; TUInput := JObj [] |}).

Definition SendToolInputDelta (p : Publisher) (index : Z) (inputJSON : bytes) : io W (option error) :=
  publish_payload p EventTypeContentBlockDelta (ContentBlockDeltaToolInputData EventTypeContentBlockDelta index
    {| IJType := ContentBlockTypeInputJSON; PartialJSON := inputJSON |}).

Definition SendToolResultStart (p : Publisher) (index : Z) (toolUseID : bytes) : io W (option error) :=
  publish_payload p EventTypeContentBlockStart (ContentBlockStartToolResultData EventTypeContentBlockStart index
    {| TRType := ContentBlockTypeToolResult; TRToolUseID := toolUseID; TRContent := [] |}).

Definition SendToolResultDelta (p : Publisher) (index : Z) (text : bytes) : io W (option error) :=
  publish_payload p EventTypeContentBlockDelta (ContentBlockDeltaToolResultData EventTypeContentBlockDelta index
    {| TDType := ContentBlockTypeJSONPartial; TDText := text |}).

(** if err := first; err != nil { return err } *)
Definition and_then (first second : io W (option error)) : io W (option error) :=
  err ← first;
  match err with
  | Some e => mret (Some e)
  | None => second
  end.

Definition SendStreamPreamble (p : Publisher) (msgID conversationID model : bytes) : io W (option error) :=
  and_then (SendMessageStart p msgID conversationID model) (SendPing p).

Definition SendStreamEpilogue (p : Publisher) (outputTokens : Z) : io W (option error) :=
  and_then (SendMessageDelta p StopReasonEndTurn outputTokens) (SendMessageStop p).

Definition SendToolUseBlock (p : Publisher) (index : Z) (toolUseID name inputJSON : bytes)
  : io W (option error) :=
  and_then (SendToolUseStart p index toolUseID name)
    (and_then (SendToolInputDelta p index inputJSON) (SendContentBlockStop p index)).

Definition SendToolResultBlock (p : Publisher) (index : Z) (toolUseID resultText : bytes)
  : io W (option error) :=
  and_then (SendToolResultStart p index toolUseID)
    (and_then (SendToolResultDelta p index resultText) (SendContentBlockStop p index)).

(** ** llm/mqsse/text_streamer.go *)

Record TextStreamer : Type := MkStreamer {
  publisher : option Publisher;
  messageBuilder : bytes;
  BlockIndex : Z;
  blockStarted : bool
}.

Definition NewTextStreamer (p : option Publisher) (startIndex : Z) : TextStreamer :=
  MkStreamer p [] startIndex false.

Definition Text (s : TextStreamer) : bytes := messageBuilder s.
Definition BlockStarted (s : TextStreamer) : bool := blockStarted s.

(** The streamer and the queue's world. *)
Abbreviation streaming := (io (TextStreamer * W)).

Definition lift {A} (op : io W A) : streaming A :=
  fun '(s, w) => let '(a, w') := op w in (a, (s, w')).

Definition set_started (b : bool) : streaming unit :=
  fun '(s, w) => (tt, (MkStreamer (publisher s) (messageBuilder s) (BlockIndex s) b, w)).

Definition WriteChunk (text : bytes) : streaming (option error) := fun '(s, w) =>
  match text with
  | [] => (None, (s, w))
  | _ =>
    let s := MkStreamer (publisher s) (messageBuilder s ++ text) (BlockIndex s) (blockStarted s) in
    match publisher s with
    | None => (None, (s, w))
    | Some p =>
      let delta : streaming (option error) :=
        err ← lift (SendContentBlockDeltaText p (BlockIndex s) text);
        mret (match err with
              | Some e => ctxerrors.Wrap (Some e) "send content block delta"
              | None => None
              end) in
      if negb (blockStarted s) then
        (err ← lift (SendContentBlockStartText p (BlockIndex s));
         match err with
         | Some e => mret (ctxerrors.Wrap (Some e) "send content block start")
         | None => _ ← set_started true; delta
         end) (s, w)
      else delta (s, w)
    end
  end.

Definition CloseBlock : streaming (option error) := fun '(s, w) =>
  if negb (blockStarted s) then (None, (s, w))
  else
    let closed := MkStreamer (publisher s) (messageBuilder s) (wrap64 (BlockIndex s + 1)) false in
    match publisher s with
    | None => (None, (closed, w))
    | Some p =>
      let '(err, w') := SendContentBlockStop p (BlockIndex s) w in
      match err with
      | Some e => (ctxerrors.Wrap (Some e) "send content block stop", (s, w'))
      | None => (None, (closed, w'))
      end
    end.

(** ** What is delivered *)

Context {QL : MQLaws q}.
Implicit Types (p : Publisher) (w : W).

(** The envelope of a payload: its event type is its type field. *)
Definition payload_type (d : payload) : bytes :=
  match d with
  | MessageStartData t _ | ContentBlockStartData t _ _ | PingData t | ContentBlockDeltaData t _ _
  | ContentBlockStopData t _ | MessageDeltaData t _ _ | MessageStopData t
  | ContentBlockStartToolUseData t _ _ | ContentBlockStartToolResultData t _ _
  | ContentBlockDeltaToolInputData t _ _ | ContentBlockDeltaToolResultData t _ _ => t
  end.

Definition event_of p (d : payload) : bytes * json :=
  (topic p, event_json (payload_type d) (Marshal (payload_json d))).

Definition events p (ds : list payload) : list (bytes * json) := event_of p <$> ds.

(** [op] publishes the payloads [ds] in order: all of them when it returns nil,
    those before the first failure when it does not. *)
Definition sends p (ds : list payload) (op : io W (option error)) : Prop :=
  forall w e w', op w = (e, w') ->
    exists n, delivered w' = delivered w ++ events p (take n ds) /\
      match e with None => (length ds <= n)%nat | Some _ => (n < length ds)%nat end.

Lemma sends_one p d :
  sends p [d] (publish_payload p (payload_type d) d).
Proof.
  intros w e w' H. unfold publish_payload, Publish, mbind, io_bind, mret, io_ret in H.
  destruct (mq_Publish q (topic p) _ w) as [e1 w1] eqn:E. pose proof (Publish_law _ _ _ _ _ E) as Hd.
  destruct e1 as [e1|]; simplify_eq; rewrite Hd.
  - exists 0%nat. simpl. rewrite app_nil_r. split; [done|lia].
  - exists 1%nat. split; [done|simpl; lia].
Qed.

Lemma sends_then p ds1 ds2 op1 op2 :
  sends p ds1 op1 -> sends p ds2 op2 -> ds2 <> [] -> sends p (ds1 ++ ds2) (and_then op1 op2).
Proof.
  intros H1 H2 Hne w e w' H. unfold and_then, mbind, io_bind in H.
  destruct (op1 w) as [e1 w1] eqn:E1. destruct (H1 _ _ _ E1) as (n1 & D1 & C1). destruct e1 as [e1|].
  - unfold mret, io_ret in H. simplify_eq. exists n1. rewrite take_app_le by lia.
    split; [done|]. rewrite length_app. lia.
  - destruct (H2 _ _ _ H) as (n2 & D2 & C2). exists (length ds1 + n2)%nat.
    rewrite take_ge in D1 by lia. rewrite take_app_add, D2, D1, <- app_assoc.
    unfold events. rewrite fmap_app. split; [done|]. rewrite length_app. destruct e; lia.
Qed.

(** ** The text streamer keeps the block protocol *)

Inductive sop : Type := OWrite (text : bytes) | OClose.

Definition run_op (o : sop) : streaming (option error) :=
  match o with OWrite t => WriteChunk t | OClose => CloseBlock end.

(** A sequence of calls; the caller goes on after an error. *)
Fixpoint run_ops (ops : list sop) (st : TextStreamer * W) : list (option error) * (TextStreamer * W) :=
  match ops with
  | [] => ([], st)
  | o :: ops' =>
    let '(e, st) := run_op o st in
    let '(es, st) := run_ops ops' st in (e :: es, st)
  end.

Definition chunk (o : sop) : bytes := match o with OWrite t => t | OClose => [] end.

Definition text_start (i : Z) : payload :=
  ContentBlockStartData EventTypeContentBlockStart i {| CBType := ContentBlockTypeText; CBText := [] |}.
Definition text_delta (i : Z) (t : bytes) : payload :=
  ContentBlockDeltaData EventTypeContentBlockDelta i {| TDType := ContentBlockTypeTextDelta; TDText := t |}.
Definition block_stop (i : Z) : payload := ContentBlockStopData EventTypeContentBlockStop i.

(** A text block with its deltas, still open. *)
Definition open_block (i : Z) (ts : list bytes) : list payload := text_start i :: (text_delta i <$> ts).

(** Blocks with consecutive indices, all closed. *)
Fixpoint closed_blocks (i : Z) (blocks : list (list bytes)) : list payload :=
  match blocks with
  | [] => []
  | ts :: bs => open_block i ts ++ [block_stop i] ++ closed_blocks (i + 1) bs
  end.

Lemma closed_blocks_snoc i blocks ts :
  closed_blocks i (blocks ++ [ts])
  = closed_blocks i blocks ++ open_block (i + Z.of_nat (length blocks)) ts
    ++ [block_stop (i + Z.of_nat (length blocks))].
Proof.
  revert i. induction blocks as [|b bs IH]; intros i.
  - simpl length. rewrite Z.add_0_r. simpl. by rewrite ?app_nil_r.
  - cbn [closed_blocks app length]. rewrite IH. rewrite <- !app_assoc. simpl.
    by replace (i + 1 + Z.of_nat (length bs)) with (i + Z.of_nat (S (length bs))) by lia.
Qed.

Definition stream (start : Z) (blocks : list (list bytes)) (open : option (list bytes)) : list payload :=
  closed_blocks start blocks ++
  match open with Some ts => open_block (start + Z.of_nat (length blocks)) ts | None => [] end.

(** The streamer's state after publishing [stream start blocks open] on top of
    what [w0] had. *)
Record streamed p (start : Z) (w0 : W) (blocks : list (list bytes)) (open : option (list bytes))
    (s : TextStreamer) w : Prop := {
  st_pub : publisher s = Some p;
  st_index : BlockIndex s = start + Z.of_nat (length blocks);
  st_started : blockStarted s = bool_decide (is_Some open);
  st_log : delivered w = delivered w0 ++ events p (stream start blocks open)
}.

Lemma lift_spec {A} (op : io W A) s w : lift op (s, w) = let '(a, w') := op w in (a, (s, w')).
Proof. reflexivity. Qed.

Lemma send_one_cases p d w e w' :
  publish_payload p (payload_type d) d w = (e, w') ->
  delivered w' = delivered w ++ match e with None => events p [d] | Some _ => [] end.
Proof.
  intros H. destruct (sends_one p d w e w' H) as (n & Hd & Hn). rewrite Hd. f_equal.
  destruct e; simpl in Hn; [by replace n with 0%nat by lia|]. by rewrite take_ge by (simpl; lia).
Qed.

Lemma stream_delta start blocks ts t :
  stream start blocks (Some (ts ++ [t]))
  = stream start blocks (Some ts) ++ [text_delta (start + Z.of_nat (length blocks)) t].
Proof.
  unfold stream, open_block. rewrite fmap_app, <- app_assoc. done.
Qed.

Lemma events_app p ds1 ds2 : events p (ds1 ++ ds2) = events p ds1 ++ events p ds2.
Proof. apply fmap_app. Qed.

Lemma streamed_delta p start w0 blocks ts t s w e w' :
  streamed p start w0 blocks (Some ts) s w ->
  SendContentBlockDeltaText p (BlockIndex s) t w = (e, w') ->
  streamed p start w0 blocks (Some (ts ++ match e with None => [t] | Some _ => [] end)) s w'.
Proof.
  intros [Hp Hi Hs Hl] H. apply (send_one_cases p (text_delta (BlockIndex s) t)) in H.
  destruct e; split; try done.
  - by rewrite app_nil_r, H, app_nil_r.
  - by rewrite stream_delta, events_app, H, Hl, <- app_assoc, Hi.
Qed.

(** A chunk that is not empty. *)
Lemma WriteChunk_streamed p start w0 blocks open t s w e s' w' :
  t <> [] -> streamed p start w0 blocks open s w ->
  WriteChunk t (s, w) = (e, (s', w')) ->
  exists open', streamed p start w0 blocks open' s' w' /\
    messageBuilder s' = messageBuilder s ++ t /\
    (e = None -> open' = Some (default [] open ++ [t])).
Proof.
  intros Ht Hst H. unfold WriteChunk in H. destruct t as [|b t']; [done|]. set (t := b :: t') in *.
  destruct Hst as [Hp Hi Hs Hl]. cbn [publisher blockStarted] in H. rewrite Hp in H.
  set (s1 := MkStreamer (Some p) (messageBuilder s ++ t) (BlockIndex s) (blockStarted s)) in *.
  change (BlockIndex s1) with (BlockIndex s) in H.
  destruct open as [ts|].
  - rewrite bool_decide_eq_true_2 in Hs by eauto. rewrite Hs in H. simpl negb in H. cbv iota in H.
    unfold mbind, io_bind, mret, io_ret in H. rewrite lift_spec in H.
    destruct (SendContentBlockDeltaText p (BlockIndex s) t w) as [e1 w1] eqn:E1.
    assert (streamed p start w0 blocks (Some ts) s1 w) as Hst1 by (split; try done; by rewrite <- Hs).
    pose proof (streamed_delta _ _ _ _ _ _ s1 _ _ _ Hst1 E1) as Hst2.
    simplify_eq. eexists. split; [exact Hst2|]. split; [done|]. by destruct e1.
  - rewrite bool_decide_eq_false_2 in Hs by (by intros [? [=]]). rewrite Hs in H. simpl negb in H. cbv iota in H.
    unfold mbind, io_bind, mret, io_ret in H. rewrite lift_spec in H.
    destruct (SendContentBlockStartText p (BlockIndex s) w) as [e1 w1] eqn:E1.
    pose proof (send_one_cases p (text_start (BlockIndex s)) w e1 w1 E1) as D1.
    destruct e1 as [e1|].
    + simplify_eq. exists None. split; [|done]. split; try done.
      by rewrite D1, app_nil_r.
    + unfold set_started in H. simpl in H.
      set (s2 := MkStreamer (Some p) (messageBuilder s ++ t) (BlockIndex s) true) in *.
      destruct (SendContentBlockDeltaText p (BlockIndex s) t w1) as [e2 w2] eqn:E2.
      assert (streamed p start w0 blocks (Some []) s2 w1) as Hst1.
      { split; try done. rewrite D1, Hl. unfold stream. rewrite app_nil_r, events_app, <- app_assoc, Hi. done. }
      pose proof (streamed_delta _ _ _ _ _ _ s2 _ _ _ Hst1 E2) as Hst2.
      simplify_eq. eexists. split; [exact Hst2|]. split; [done|]. by destruct e2.
Qed.

Lemma CloseBlock_streamed p start w0 blocks open s w e s' w' :
  int64_range start -> start + Z.of_nat (length blocks) + 1 < 2 ^ 63 ->
  streamed p start w0 blocks open s w ->
  CloseBlock (s, w) = (e, (s', w')) ->
  exists blocks' open', streamed p start w0 blocks' open' s' w' /\
    messageBuilder s' = messageBuilder s /\
    (length blocks' <= S (length blocks))%nat /\
    concat (concat blocks' ++ default [] open') = concat (concat blocks ++ default [] open).
Proof.
  intros Hr Hb Hst H. unfold CloseBlock in H. pose proof Hst as [Hp Hi Hs Hl].
  destruct open as [ts|].
  - rewrite bool_decide_eq_true_2 in Hs by eauto. rewrite Hs in H. simpl negb in H. cbv iota in H.
    rewrite Hp in H. destruct (SendContentBlockStop p (BlockIndex s) w) as [e1 w1] eqn:E1.
    pose proof (send_one_cases p (block_stop (BlockIndex s)) w e1 w1 E1) as D1.
    destruct e1 as [e1|]; simplify_eq.
    + exists blocks, (Some ts). split; [|split; [done|split; [lia|done]]].
      split; try done. by rewrite D1, app_nil_r.
    + exists (blocks ++ [ts]), None. split; [|split; [done|]].
      * split; simpl; try done.
        -- rewrite Hi, wrap64_id by (unfold int64_range in *; lia). rewrite length_app. simpl. lia.
        -- rewrite D1, Hl. unfold stream. rewrite closed_blocks_snoc, app_nil_r, Hi, <- app_assoc.
           by rewrite <- events_app, <- app_assoc.
      * split; [rewrite length_app; simpl; lia|]. simpl default. rewrite app_nil_r, (concat_app blocks [ts]). simpl. by rewrite app_nil_r.
  - rewrite bool_decide_eq_false_2 in Hs by (by intros [? [=]]). rewrite Hs in H. simpl in H. simplify_eq.
    exists blocks, None. split; [done|]. split; [done|]. split; [lia|done].
Qed.

Lemma run_ops_streamed p start w0 ops : forall blocks open s w es s' w',
  int64_range start -> start + Z.of_nat (length blocks) + Z.of_nat (length ops) < 2 ^ 63 ->
  streamed p start w0 blocks open s w -> run_ops ops (s, w) = (es, (s', w')) ->
  exists blocks' open', streamed p start w0 blocks' open' s' w' /\
    messageBuilder s' = messageBuilder s ++ concat (chunk <$> ops) /\
    (Forall (fun e => e = None) es ->
     concat (concat blocks' ++ default [] open')
     = concat (concat blocks ++ default [] open) ++ concat (chunk <$> ops)).
Proof.
  induction ops as [|o ops IH]; intros blocks open s w es s' w' Hr Hb Hst H.
  { simpl in H. simplify_eq. exists blocks, open. simpl. rewrite !app_nil_r. done. }
  cbn [run_ops] in H. destruct (run_op o (s, w)) as [e [s1 w1]] eqn:E1.
  destruct (run_ops ops (s1, w1)) as [es' [s2 w2]] eqn:E2. simplify_eq. simpl length in Hb.
  assert (exists blocks1 open1, streamed p start w0 blocks1 open1 s1 w1 /\
    messageBuilder s1 = messageBuilder s ++ chunk o /\ (length blocks1 <= S (length blocks))%nat /\
    (e = None -> concat (concat blocks1 ++ default [] open1)
                 = concat (concat blocks ++ default [] open) ++ chunk o)) as (bs1 & o1 & Hst1 & M1 & L1 & C1).
  { destruct o as [t|]; simpl in E1.
    - destruct t as [|b t'].
      { simpl in E1. simplify_eq. exists blocks, open. simpl. rewrite !app_nil_r. split; [done|]. split; [done|].
        split; [lia|done]. }
      destruct (WriteChunk_streamed _ _ _ _ _ (b :: t') _ _ _ _ _ ltac:(done) Hst E1) as (o1 & Hst1 & M1 & C1).
      exists blocks, o1. split; [done|]. split; [done|]. split; [lia|]. intros He. rewrite (C1 He).
      simpl. rewrite !concat_app. simpl. by rewrite app_nil_r, <- app_assoc.
    - destruct (CloseBlock_streamed p start w0 blocks open s w e s1 w1 Hr) as (bs1 & o1 & Hst1 & M1 & L1 & C1);
        [lia|done|done|].
      exists bs1, o1. simpl. rewrite !app_nil_r. split; [done|]. split; [done|]. split; [lia|]. done. }
  destruct (IH bs1 o1 s1 w1 es' s' w' Hr) as (bs & op & Hst2 & M2 & C2); [lia|done|done|].
  exists bs, op. split; [done|]. simpl. split; [by rewrite M2, M1, <- app_assoc|].
  intros [He Hes]%Forall_cons. by rewrite (C2 Hes), (C1 He), <- app_assoc.
Qed.

(** ** Properties *)

(** The composite sends are transactions of events: SendStreamPreamble,
    SendStreamEpilogue, SendToolUseBlock and SendToolResultBlock publish their
    events in protocol order on the publisher's topic and on no other, all of
    them when they return nil, and exactly the ones before the first failure
    when they return an error. *)
Theorem composite_sends p msgID conv model tokens i id name input result :
  sends p [MessageStartData EventTypeMessageStart
             {| ID := msgID; ConversationID := conv; MType := ContentBlockTypeMessage;
                Role := RoleAssistant; Content := []; Model := model; StopReason := None;
                StopSequence := None; Usage := {| InputTokens := 0; OutputTokens := 0 |} |};
           PingData EventTypePing] (SendStreamPreamble p msgID conv model) /\
  sends p [MessageDeltaData EventTypeMessageDelta
             {| DStopReason := StopReasonEndTurn; DStopSequence := None |} tokens;
           MessageStopData EventTypeMessageStop] (SendStreamEpilogue p tokens) /\
  sends p [ContentBlockStartToolUseData EventTypeContentBlockStart i
             {| TUType := ContentBlockTypeToolUse; TUID := id; TUName := name; TUInput := JObj [] |};
           ContentBlockDeltaToolInputData EventTypeContentBlockDelta i
             {| IJType := ContentBlockTypeInputJSON; PartialJSON := input |};
           block_stop i] (SendToolUseBlock p i id name input) /\
  sends p [ContentBlockStartToolResultData EventTypeContentBlockStart i
             {| TRType := ContentBlockTypeToolResult; TRToolUseID := id; TRContent := [] |};
           ContentBlockDeltaToolResultData EventTypeContentBlockDelta i
             {| TDType := ContentBlockTypeJSONPartial; TDText := result |};
           block_stop i] (SendToolResultBlock p i id result).
Proof.
  split; [|split; [|split]].
  - apply (sends_then p [_] [_]); [apply (sends_one p (MessageStartData _ _))|apply (sends_one p (PingData _))|done].
  - apply (sends_then p [_] [_]); [apply (sends_one p (MessageDeltaData _ _ _))|apply (sends_one p (MessageStopData _))|done].
  - apply (sends_then p [_] [_; _]); [apply (sends_one p (ContentBlockStartToolUseData _ _ _))| |done].
    apply (sends_then p [_] [_]); [apply (sends_one p (ContentBlockDeltaToolInputData _ _ _))|apply (sends_one p (block_stop i))|done].
  - apply (sends_then p [_] [_; _]); [apply (sends_one p (ContentBlockStartToolResultData _ _ _))| |done].
    apply (sends_then p [_] [_]); [apply (sends_one p (ContentBlockDeltaToolResultData _ _ _))|apply (sends_one p (block_stop i))|done].
Qed.

(** C24. The block protocol of TextStreamer, for any sequence of WriteChunk and
    CloseBlock calls and any publish failures in between: what is delivered (the
    publishes the queue acknowledged) is a sequence of complete text blocks with consecutive indices from the
    start index, followed by an open block exactly when BlockStarted is true;
    BlockIndex is the next index; Text is everything that was written, and
    when no call failed it is the concatenation of the delivered deltas. *)
Theorem streamer_protocol p start ops w es s w' :
  int64_range start -> start + Z.of_nat (length ops) < 2 ^ 63 ->
  run_ops ops (NewTextStreamer (Some p) start, w) = (es, (s, w')) ->
  exists blocks open,
    delivered w' = delivered w ++ events p (stream start blocks open) /\
    BlockStarted s = bool_decide (is_Some open) /\
    BlockIndex s = start + Z.of_nat (length blocks) /\
    Text s = concat (chunk <$> ops) /\
    (Forall (fun e => e = None) es -> concat (concat blocks ++ default [] open) = Text s).
Proof.
  intros Hr Hb H. destruct (run_ops_streamed p start w ops [] None (NewTextStreamer (Some p) start) w es s w' Hr)
    as (blocks & open & Hst & M & C); [simpl; lia| |done|].
  { split; try done; simpl; [lia|by rewrite app_nil_r]. }
  simpl in M. exists blocks, open. destruct Hst. split; [done|]. split; [done|]. split; [done|].
  split; [done|]. intros He. rewrite (C He). unfold Text. by rewrite M.
Qed.

Lemma run_ops_nil start w ops : forall txt es s w',
  run_ops ops (MkStreamer None txt start false, w) = (es, (s, w')) ->
  w' = w /\ s = MkStreamer None (txt ++ concat (chunk <$> ops)) start false.
Proof.
  induction ops as [|o ops IH]; intros txt es s w' H; simpl in H.
  { simplify_eq. by rewrite app_nil_r. }
  destruct (run_op o _) as [e [s1 w1]] eqn:E1. destruct (run_ops ops (s1, w1)) as [es' [s2 w2]] eqn:E2.
  simplify_eq. destruct o as [[|b t]|]; simpl in E1; simplify_eq; apply IH in E2 as [-> ->]; simpl;
    by rewrite <- ?app_assoc.
Qed.

(** Without a publisher the streamer only accumulates: nothing is
    published, BlockStarted stays false and BlockIndex never moves, whatever
    is written and however often CloseBlock is called, so the branch of
    CloseBlock that would advance the index without a publisher is dead. *)
Theorem streamer_without_publisher start ops w es s w' :
  run_ops ops (NewTextStreamer None start, w) = (es, (s, w')) ->
  w' = w /\ Text s = concat (chunk <$> ops) /\ BlockStarted s = false /\ BlockIndex s = start.
Proof. intros H. apply run_ops_nil in H as [-> ->]. done. Qed.
End Publisher.

(** ** What a subscriber decodes *)

(** Payloads the package sends: integers in range, nothing in the two fields of
    type any. *)
Definition sendable (d : payload) : Prop :=
  match d with
  | MessageStartData _ m =>
    Content m = [] /\ int64_range (InputTokens (Usage m)) /\ int64_range (OutputTokens (Usage m))
  | ContentBlockStartToolUseData _ i b => int64_range i /\ TUInput b = JObj []
  | MessageDeltaData _ _ n => int64_range n
  | PingData _ | MessageStopData _ => True
  | ContentBlockStartData _ i _ | ContentBlockDeltaData _ i _ | ContentBlockStopData _ i
  | ContentBlockStartToolResultData _ i _ | ContentBlockDeltaToolInputData _ i _
  | ContentBlockDeltaToolResultData _ i _ => int64_range i
  end.

Lemma payload_tree d : sendable d ->
  tree_of (payload_json d) = encode_val no_floats (payload_gotype d) (payload_val d).
Proof.
  destruct d as [t [id cv ty rl ct md sr sq [it ot]]|t i [ty tx]|t|t i d|t i|t [sr sq] n|t|t i [ty id nm inp]|t i [ty id ct]|t i d|t i d];
    intros H; try done.
  - destruct H as [Hc _]. simpl in Hc. subst ct. by destruct sr, sq.
  - by destruct tx.
  - by destruct sq.
  - destruct H as [_ Hi]. simpl in Hi. by subst inp.
  - by destruct ct.
Qed.

Lemma payload_canon d : sendable d -> utf8_json (payload_json d) = true ->
  canon no_floats (payload_gotype d) (payload_val d).
Proof.
  destruct d as [t [id cv ty rl ct md sr sq [it ot]]|t i [ty tx]|t|t i [ty tx]|t i|t [sr sq] n|t|t i [ty id nm inp]|t i [ty id ct]|t i [ty pj]|t i [ty tx]];
    try (destruct sr, sq); try (destruct sq); try (destruct tx); try (destruct ct);
    intros H Hu; cbn in H, Hu; rewrite ?andb_true_r in Hu; repeat setoid_rewrite andb_true_iff in Hu; cbn;
    destruct_and?; simplify_eq; split_and!; done || constructor.
Qed.

Lemma payload_wf d : wf_type (payload_gotype d) = true.
Proof. by destruct d. Qed.
Lemma payload_height d : sendable d -> height (tree_of (payload_json d)) <= maxNestingDepth.
Proof.
  intros H. unfold maxNestingDepth.
  destruct d as [t [id cv ty rl ct md sr sq [it ot]]|t i [ty tx]|t|t i d|t i|t [sr sq] n|t|t i [ty id nm inp]|t i [ty id ct]|t i d|t i d];
    cbn in H; destruct_and?; subst; try (destruct sr, sq); try (destruct sq); try (destruct tx); try (destruct ct);
    cbn; lia.
Qed.

Lemma payload_type_valid d : utf8_json (payload_json d) = true -> valid (payload_type d) = true.
Proof. destruct d; cbn; intros H; by repeat (apply andb_prop in H as [? H]). Qed.

Lemma Unmarshal_event t data :
  valid t = true -> valid data = true ->
  Unmarshal (Marshal (event_json t data)) (Pointer Event_type (zero Event_type))
  = (None, Pointer Event_type (Event_val t data)).
Proof. intros Ht Hd. apply Unmarshal_tree; [done|done|done|]. cbn. unfold maxNestingDepth. lia. Qed.

Lemma Unmarshal_payload d :
  sendable d -> utf8_json (payload_json d) = true ->
  Unmarshal (Marshal (payload_json d)) (Pointer (payload_gotype d) (zero (payload_gotype d)))
  = (None, Pointer (payload_gotype d) (payload_val d)).
Proof.
  intros Hs Hu. apply Unmarshal_tree;
    [by apply payload_tree|apply payload_wf|by apply payload_canon|by apply payload_height].
Qed.

(** Every event a subscriber gets can be decoded: for a payload with text in
    UTF-8 and integers of 64 bits, Message.Decode of the message on the queue into an
    Event gives the payload's own type as event name, and json.Unmarshal of
    the event's data into the Go struct of that type gives the payload back, field by
    field. *)
Theorem event_decodes {W} p d (a : io W (option error)) :
  sendable d -> utf8_json (payload_json d) = true ->
  let message := NewMessage (Marshal (event_of p d).2) a in
  exists data,
    Message_Decode message (Pointer Event_type (zero Event_type))
    = (None, Pointer Event_type (Event_val (payload_type d) data)) /\
    Unmarshal data (Pointer (payload_gotype d) (zero (payload_gotype d)))
    = (None, Pointer (payload_gotype d) (payload_val d)).
Proof.
  intros Hs Hu. exists (Marshal (payload_json d)). split; [|by apply Unmarshal_payload].
  unfold Message_Decode. cbn [NewMessage MData event_of snd].
  by rewrite Unmarshal_event by (by apply payload_type_valid || by apply Marshal_valid).
Qed.

(** C26. Message.Decode respects the type of its target: whatever bytes a message
    holds, a target of a Go type is left as a value of that type, with every
    integer in 64 bits and every float finite; a message that is not one JSON value is
    an error that leaves the target as it was; what is not a pointer is refused.  And it
    undoes Marshal: a canonical value of a type comes back as it was, with no
    error. *)
Theorem message_decode {W} (m : Message W) (dst : target) :
  (let '(e, dst') := Message_Decode m dst in
   match document (MData m), dst with
   | Ok _, Pointer ty v => exists v', dst' = Pointer ty v' /\ (has_type ty v -> has_type ty v')
   | _, _ => is_Some e /\ dst' = dst
   end) /\
  (forall formatFloat ty v,
     wf_type ty = true -> canon formatFloat ty v -> height (encode_val formatFloat ty v) <= maxNestingDepth ->
     MData m = Encode formatFloat ty v ->
     Message_Decode m (Pointer ty (zero ty)) = (None, Pointer ty v)).
Proof.
  split.
  - unfold Message_Decode, Unmarshal. destruct (document (MData m)) as [t|err]; [|simpl; eauto].
    destruct dst as [ty v|]; [|simpl; eauto]. pose proof (dvalue_typed t ty v) as Ht.
    destruct (dvalue t ty v) as [v' e]. eauto.
  - intros formatFloat ty v Hw Hc Hh Hm. unfold Message_Decode. rewrite Hm. by rewrite Unmarshal_Encode.
Qed.

(** ** A queue with any schedule of refusals *)

Module Broker.
Record broker : Type := MkBroker { log : list (bytes * json); refusals : list bool }.

Definition publish (topic : bytes) (v : json) : io broker (option error) := fun w =>
  match refusals w with
  | true :: rs => (Some (ForeignError 11), MkBroker (log w) rs)
  | false :: rs => (None, MkBroker (log w ++ [(topic, v)]) rs)
  | [] => (None, MkBroker (log w ++ [(topic, v)]) [])
  end.

Definition queue : MQ broker := MkMQ _ publish.

#[export] Program Instance queue_laws : MQLaws queue := { delivered w := log w }.
Next Obligation.
  intros topic v w e w' H. simpl in H. unfold publish in H.
  destruct (refusals w) as [|[] rs]; by simplify_eq.
Qed.
End Broker.
#[export] Existing Instance Broker.queue_laws.

(** ** Witnesses *)

Definition demo_ops : list sop := [OWrite (lit "he"); OWrite (lit "y"); OClose; OWrite (lit "!")].

Lemma streamer_protocol_witness :
  exists blocks open,
    Broker.log (run_ops Broker.queue demo_ops
      (NewTextStreamer (Some (NewPublisher (lit "t"))) 3, Broker.MkBroker [] [false; true])).2.2
    = [] ++ events (NewPublisher (lit "t")) (stream 3 blocks open).
Proof.
  destruct (streamer_protocol Broker.queue (NewPublisher (lit "t")) 3 demo_ops (Broker.MkBroker [] [false; true])
    _ _ _ ltac:(unfold int64_range; lia) ltac:(simpl; lia)
    (eq_trans (surjective_pairing _) (f_equal (pair _) (surjective_pairing _))))
    as (blocks & open & H & _).
  exists blocks, open. exact H.
Defined.

Lemma streamer_without_publisher_witness :
  BlockIndex (run_ops Broker.queue demo_ops (NewTextStreamer None 3, Broker.MkBroker [] [])).2.1 = 3.
Proof.
  destruct (streamer_without_publisher Broker.queue 3 demo_ops (Broker.MkBroker [] [])
    _ _ _ (eq_trans (surjective_pairing _) (f_equal (pair _) (surjective_pairing _)))) as (_ & _ & _ & H).
  exact H.
Defined.

Lemma event_decodes_witness :
  exists data,
    Message_Decode (NewMessage (Marshal (event_of (NewPublisher (lit "t")) (text_delta 0 (lit "a<b>"))).2)
                      (fun w : unit => (None, w)))
      (Pointer Event_type (zero Event_type))
    = (None, Pointer Event_type (Event_val (lit "content_block_delta") data)) /\
    Unmarshal data (Pointer (payload_gotype (text_delta 0 (lit "a<b>"))) (zero (payload_gotype (text_delta 0 (lit "a<b>")))))
    = (None, Pointer (payload_gotype (text_delta 0 (lit "a<b>")))
        (VStruct [VString (lit "content_block_delta"); VInt 0; VStruct [VString (lit "text_delta"); VString (lit "a<b>")]])).
Proof.
  apply (event_decodes (NewPublisher (lit "t")) (text_delta 0 (lit "a<b>")) (fun w : unit => (None, w))).
  - unfold sendable, text_delta, int64_range. lia.
  - vm_compute. reflexivity.
Defined.
