(* ===== verification/LokiHandler.v ===== *)
(** * slogging/loki/loki.go: pushing log records to Loki

    Client.Push builds one HTTP request per line; Handler is a slog.Handler
    that turns a record into labels and a line.

    A Handler's attrs and groups are Go slices that derived handlers extend
    with append, so handlers share backing arrays.  The model keeps the arrays
    in a store, [arrays], and a slice is an array with a length: append writes
    into the array when its capacity allows and copies otherwise.  [grow], the
    capacity of a new array, is an argument; Go leaves it open.

    The HTTP client and the clock are arguments; what is sent is recorded. *)

From stdpp Require Import base option list gmap countable sorting.
From Stdlib Require Import ZArith Lia.
From Stdlib.Strings Require Byte.
From S2P Require Import Prelude GoErrors Utf8 Json GoJson.

Open Scope Z_scope.

Abbreviation smap := (gmap bytes bytes).

(** Backing arrays, by address. *)
Abbreviation arrays A := (gmap nat (list A)).

(** ** Client *)

Record ClientConfig : Type := MkClientConfig { URL : bytes }.

Definition validate_client (c : ClientConfig) : option error :=
  match URL c with
  | [] => Some (ctxerrors.New "loki URL is required")
  | _ => None
  end.

Record Client : Type := MkClient { url : bytes }.

Definition NewClientWithConfig (cfg : ClientConfig) : gores Client :=
  match validate_client cfg with
  | Some err => Err (ctxerrors.WrapE err "could not validate client config")
  | None => Ok (MkClient (TrimRightSlash (URL cfg)))
  end.

(** NewClient; the result of gonfiguration.Parse is an argument, which Configs.v computes. *)
Definition NewClient (parsed : gores ClientConfig) : gores Client :=
  match parsed with
  | Err err => Err (ctxerrors.WrapE (ctxerrors.WrapE err "could not parse config")
                      "could not parse client config")
  | Ok cfg => NewClientWithConfig cfg
  end.

Record request : Type := MkRequest {
  method : bytes; reqURL : bytes; contentType : bytes; body : bytes
}.

(** A map of strings as JSON: the keys in byte order. *)
Fixpoint bytes_le (a b : bytes) : bool :=
  match a, b with
  | [], _ => true
  | _ :: _, [] => false
  | x :: a', y :: b' => (bz x <? bz y) || ((bz x =? bz y) && bytes_le a' b')
  end.

Definition sorted_fields (m : smap) : list (bytes * bytes) :=
  merge_sort (fun p q => Is_true (bytes_le p.1 q.1)) (map_to_list m).

Definition labels_json (m : smap) : json := JObj ((fun p => (p.1, JStr p.2)) <$> sorted_fields m).

(** pushPayload with one stream of one value. *)
Definition payload (ts : Z) (labels : smap) (line : bytes) : json :=
  JObj [(lit "streams",
         JArr [JObj [(lit "stream", labels_json labels);
                     (lit "values", JArr [JArr [JStr (marshal_int ts); JStr line]])]])].

Section Pushing.
(** http.NewRequestWithContext fails on a URL it cannot parse. *)
Context (validURL : bytes -> bool).

Definition pushRequest (c : Client) (now : Z) (labels : smap) (line : bytes) : option request :=
  let pushURL := url c ++ lit "/loki/api/v1/push" in
  if validURL pushURL
  then Some (MkRequest (lit "POST") pushURL (lit "application/json") (Marshal (payload now labels line)))
  else None.

(** Push: the request is handed to the HTTP client; every failure is dropped. *)
Definition Push (c : Client) (now : Z) (labels : smap) (line : bytes) (sent : list request) : list request :=
  match pushRequest c now labels line with
  | Some r => sent ++ [r]
  | None => sent
  end.

(** strings.ToLower on ASCII letters. *)
Definition lower (b : Byte.byte) : Byte.byte := if within 65 90 (bz b) then zb (bz b + 32) else b.
Definition ToLower (s : bytes) : bytes := lower <$> s.

(** PushLog; [data] lists the map in the order it is ranged over, with the
    values as %v prints them. *)
Definition PushLog (c : Client) (now : Z) (appName source level msg : bytes)
    (data : list (bytes * bytes)) (sent : list request) : list request :=
  let labels : smap := <[lit "level" := ToLower level]> (<[lit "source" := source]>
                         (<[lit "app" := appName]> ∅)) in
  let line := foldl (fun l '(k, v) => l ++ lit " " ++ k ++ lit "=" ++ v) msg data in
  Push c now labels line sent.

(** ** Slices *)


(** A slice: the address and the length in use; the capacity is the array's. *)
Record slice : Type := MkSlice { base : option nat; len : nat }.
Definition nil_slice : slice := MkSlice None 0.

Section Slices.
Context {A : Type} (grow : nat -> nat -> nat) (zero : A).
Implicit Types (st : arrays A) (s : slice) (xs : list A).

Definition backing st s : list A := match base s with Some a => default [] (st !! a) | None => [] end.
Definition elems st s : list A := take (len s) (backing st s).

(** append(s, xs...): in place when the capacity allows, else into a new array
    of at least the needed size. *)
Definition append st s xs : slice * arrays A :=
  let n := (len s + length xs)%nat in
  match base s with
  | Some a =>
    if (n <=? length (backing st s))%nat
    then (MkSlice (Some a) n, <[a := take (len s) (backing st s) ++ xs ++ drop n (backing st s)]> st)
    else let a' := fresh (dom st) in
         (MkSlice (Some a') n, <[a' := elems st s ++ xs ++ replicate (grow (len s) n - n) zero]> st)
  | None =>
    match xs with
    | [] => (nil_slice, st)
    | _ => let a' := fresh (dom st) in
           (MkSlice (Some a') n, <[a' := xs ++ replicate (grow 0 n - n) zero]> st)
    end
  end.
End Slices.

(** ** Handler *)

(** slog.Attr: the key and what Value.String() gives. *)
Record attr : Type := MkAttr { Key : bytes; Value : bytes }.

Record Handler : Type := MkHandler {
  client : Client;
  appName : bytes;
  labelKeys : bytes -> bool;
  hlevel : Z;
  attrs : slice;
  groups : slice
}.

(** The stores the handlers' slices live in. *)
Record heap : Type := MkHeap { attrArrays : arrays attr; groupArrays : arrays bytes }.

Definition NewHandlerWithConfig (c : Client) (app : bytes) (keys : bytes -> bool) (lvl : Z) : gores Handler :=
  match app with
  | [] => Err (ctxerrors.WrapE (ctxerrors.New "loki app name is required") "could not validate handler config")
  | _ => Ok (MkHandler c app keys lvl nil_slice nil_slice)
  end.

Definition NewHandler (c : Client) (lvl : Z) (keys : bytes -> bool) (parsed : gores bytes) : gores Handler :=
  match parsed with
  | Err err => Err (ctxerrors.WrapE (ctxerrors.WrapE err "could not parse config")
                      "could not parse handler config")
  | Ok app => NewHandlerWithConfig c app keys lvl
  end.

Definition Enabled (h : Handler) (lvl : Z) : bool := hlevel h <=? lvl.

(** slog.Level.String() *)
Definition level_str (b : bytes) (d : Z) : bytes :=
  if d =? 0 then b else b ++ (if 0 <=? d then lit "+" else []) ++ marshal_int d.
Definition Level_String (l : Z) : bytes :=
  if l <? 0 then level_str (lit "DEBUG") (l + 4)
  else if l <? 4 then level_str (lit "INFO") l
  else if l <? 8 then level_str (lit "WARN") (l - 4)
  else level_str (lit "ERROR") (l - 8).

(** A record: level, message, attributes, and the frame of its PC, if any. *)
Record Record_ : Type := MkRecord {
  Level : Z; Msg : bytes; RAttrs : list attr; frame : option (bytes * bytes)
}.

(** The key of an attribute under the handler's groups. *)
Definition qualify (gs : list bytes) (key : bytes) : bytes :=
  foldl (fun key g => g ++ lit "." ++ key) key gs.

Definition processAttr (h : Handler) (gs : list bytes) (a : attr) (acc : smap * bytes) : smap * bytes :=
  let '(labels, line) := acc in
  let key := qualify gs (Key a) in
  if labelKeys h key then (<[key := Value a]> labels, line)
  else (labels, line ++ lit " " ++ key ++ lit "=" ++ Value a).

Definition set_unless_empty (k v : bytes) (m : smap) : smap := match v with [] => m | _ => <[k := v]> m end.

Definition defaultServiceLabel : bytes := lit "system".

(** Handle: the labels and the line. *)
Definition render (h : Handler) (st : heap) (r : Record_) : smap * bytes :=
  let labels : smap := <[lit "level" := ToLower (Level_String (Level r))]> (<[lit "app" := appName h]> ∅) in
  let labels := match frame r with
                | Some (file, func) =>
                  set_unless_empty (lit "source_func") func (set_unless_empty (lit "source_file") file labels)
                | None => labels
                end in
  let gs := elems (groupArrays st) (groups h) in
  let acc := foldl (fun acc a => processAttr h gs a acc) (labels, Msg r) (elems (attrArrays st) (attrs h)) in
  let '(labels, line) := foldl (fun acc a => processAttr h gs a acc) acc (RAttrs r) in
  (match labels !! lit "service" with
   | Some _ => labels
   | None => <[lit "service" := defaultServiceLabel]> labels
   end, line).

Definition Handle (h : Handler) (st : heap) (now : Z) (r : Record_) (sent : list request)
  : option error * list request :=
  let '(labels, line) := render h st r in
  (None, Push (client h) now labels line sent).

Section Derived.
Context (grow : nat -> nat -> nat).

Definition WithAttrs (h : Handler) (st : heap) (xs : list attr) : Handler * heap :=
  let '(s, a) := append grow (MkAttr [] []) (attrArrays st) (attrs h) xs in
  (MkHandler (client h) (appName h) (labelKeys h) (hlevel h) s (groups h), MkHeap a (groupArrays st)).

Definition WithGroup (h : Handler) (st : heap) (name : bytes) : Handler * heap :=
  let '(s, g) := append grow [] (groupArrays st) (groups h) [name] in
  (MkHandler (client h) (appName h) (labelKeys h) (hlevel h) (attrs h) s, MkHeap (attrArrays st) g).
End Derived.
End Pushing.

(** ** What Handle sends *)

Section HandleProofs.
Context (validURL : bytes -> bool).
Implicit Types (h : Handler) (st : heap) (r : Record_) (m : smap).

Definition is_label h (gs : list bytes) (a : attr) : Prop := labelKeys h (qualify gs (Key a)) = true.
#[global] Instance is_label_dec h gs a : Decision (is_label h gs a).
Proof. unfold is_label. apply _. Defined.

(** " key=value" *)
Definition entry (gs : list bytes) (a : attr) : bytes :=
  lit " " ++ qualify gs (Key a) ++ lit "=" ++ Value a.

Definition add_label (gs : list bytes) m (a : attr) : smap := <[qualify gs (Key a) := Value a]> m.

Lemma process_fold h gs l : forall m line,
  foldl (fun acc a => processAttr h gs a acc) (m, line) l
  = (foldl (add_label gs) m (filter (is_label h gs) l),
     line ++ concat (entry gs <$> filter (fun a => ~ is_label h gs a) l)).
Proof.
  induction l as [|a l IH]; intros m line; [by rewrite app_nil_r|].
  rewrite !filter_cons. cbn [foldl]. unfold processAttr at 2. destruct (decide (is_label h gs a)) as [E|E].
  - rewrite (decide_False (P := ~ is_label h gs a)) by tauto. unfold is_label in E. rewrite E. by rewrite IH.
  - rewrite (decide_True (P := ~ is_label h gs a)) by done. apply not_true_is_false in E. rewrite E.
    rewrite IH. f_equal. rewrite fmap_cons. cbn [concat]. unfold entry.
    by rewrite <- !app_assoc.
Qed.

(** The labels every record starts from. *)
Definition base_labels h r : smap :=
  let labels : smap := <[lit "level" := ToLower (Level_String (Level r))]> (<[lit "app" := appName h]> ∅) in
  match frame r with
  | Some (file, func) =>
    set_unless_empty (lit "source_func") func (set_unless_empty (lit "source_file") file labels)
  | None => labels
  end.

Definition with_service m : smap :=
  match m !! lit "service" with Some _ => m | None => <[lit "service" := defaultServiceLabel]> m end.

Lemma loki_render h st r :
  let gs := elems (groupArrays st) (groups h) in
  let all := elems (attrArrays st) (attrs h) ++ RAttrs r in
  render h st r = (with_service (foldl (add_label gs) (base_labels h r) (filter (is_label h gs) all)),
                   Msg r ++ concat (entry gs <$> filter (fun a => ~ is_label h gs a) all)).
Proof.
  simpl. unfold render. fold (base_labels h r). rewrite <- foldl_app, process_fold. done.
Qed.

Lemma with_service_Some m : is_Some (with_service m !! lit "service").
Proof. unfold with_service. destruct (m !! lit "service") eqn:E; [eauto|]. rewrite lookup_insert_eq. eauto. Qed.

(** Every key and value of the labels is valid UTF-8. *)
Definition utf8_labels m : Prop := map_Forall (fun k v => valid k = true /\ valid v = true) m.

Lemma payload_utf8 ts m line :
  utf8_labels m -> valid line = true -> utf8_json (payload ts m line) = true.
Proof.
  intros Hm Hl. simpl. rewrite Hl.
  assert (valid (marshal_int ts) = true) as -> by apply (Marshal_valid (JInt ts)), eq_refl.
  assert (forallb (fun '(k, x) => valid k && utf8_json x) ((fun p => (p.1, JStr p.2)) <$> sorted_fields m) = true)
    as ->; [|done].
  apply forallb_forall. intros [k x] Hin. apply list_elem_of_In, list_elem_of_fmap in Hin as ([k' v] & Heq & Hin).
  simpl in Heq. simplify_eq. unfold sorted_fields in Hin. rewrite merge_sort_Permutation in Hin.
  apply elem_of_map_to_list in Hin. destruct (Hm _ _ Hin) as [Hk Hv]. simpl. by rewrite Hk, Hv.
Qed.

Lemma push_height ts m l : height (tree_of (payload ts m l)) <= maxNestingDepth.
Proof.
  assert (H : height (tree_of (labels_json m)) = 1).
  { unfold labels_json. cbn [tree_of height]. rewrite <- list_fmap_compose.
    generalize (sorted_fields m). intros fs. induction fs as [|f fs IH]; [done|]. cbn in *. lia. }
  unfold payload. cbn in *. unfold maxNestingDepth. lia.
Qed.

(** C35. One record, one request: Handle always returns nil.  When the push URL (the
    client's with /loki/api/v1/push) can be parsed it sends exactly one POST to it, with
    the JSON of one stream of one line as its body; when not, it sends nothing.  The line is
    the message followed by the attributes that are not labels, the handler's before the
    record's, in order; the labels are app, level and source, then the label attributes
    (the last of a key wins), and service is always present.  When labels and line are valid
    UTF-8, the body read as JSON is exactly that document (other bytes read back
    as U+FFFD). *)
Theorem loki_handle h st now r sent :
  let gs := elems (groupArrays st) (groups h) in
  let all := elems (attrArrays st) (attrs h) ++ RAttrs r in
  let labels := with_service (foldl (add_label gs) (base_labels h r) (filter (is_label h gs) all)) in
  let line := Msg r ++ concat (entry gs <$> filter (fun a => ~ is_label h gs a) all) in
  let pushURL := url (client h) ++ lit "/loki/api/v1/push" in
  let '(err, sent') := Handle validURL h st now r sent in
  err = None /\ is_Some (labels !! lit "service") /\
  if validURL pushURL then
    exists req, sent' = sent ++ [req] /\
      method req = lit "POST" /\ reqURL req = pushURL /\ contentType req = lit "application/json" /\
      body req = Marshal (payload now labels line) /\
      (utf8_labels labels -> valid line = true -> document (body req) = Ok (tree_of (payload now labels line)))
  else sent' = sent.
Proof.
  intros gs all labels line pushURL. unfold Handle, Push, pushRequest. rewrite loki_render. cbn zeta.
  fold gs all. fold labels line pushURL. split; [done|]. split; [apply with_service_Some|].
  destruct (validURL pushURL); [|done]. eexists. split; [done|]. split_and!; try done.
  intros Hu Hl. apply document_Marshal; [by apply payload_utf8|]. apply push_height.
Qed.
End HandleProofs.

(** ** Derived handlers *)

Section Aliasing.
Context (grow : nat -> nat -> nat).
Implicit Types (h : Handler) (st : heap).

Definition group_names st h : list bytes := elems (groupArrays st) (groups h).

(** There is room behind the handler's groups in their array. *)
Definition spare st h : Prop :=
  (len (groups h) < length (backing (groupArrays st) (groups h)))%nat.

Lemma append_in_place {A} (zero : A) (a : arrays A) s x :
  (len s < length (backing a s))%nat ->
  exists b, base s = Some b /\
    append grow zero a s [x] = (MkSlice (Some b) (len s + 1),
      <[b := take (len s) (backing a s) ++ [x] ++ drop (len s + 1) (backing a s)]> a).
Proof.
  intros Hs. unfold append, backing in *. destruct (base s) as [b|]; [|simpl in Hs; lia].
  exists b. split; [done|]. rewrite (proj2 (Nat.leb_le _ _)) by (simpl; lia). done.
Qed.

Lemma elems_in_place {A} (a : arrays A) b n l x t :
  length l = n -> elems (<[b := l ++ [x] ++ t]> a) (MkSlice (Some b) (n + 1)) = l ++ [x].
Proof.
  intros Hl. unfold elems, backing. simpl. rewrite lookup_insert_eq. simpl.
  assert (l ++ x :: t = (l ++ [x]) ++ t) as -> by (by rewrite <- app_assoc).
  rewrite take_app_length'; [done|]. rewrite length_app. simpl. lia.
Qed.

(** Deriving a second child rewrites the first one's group. *)
Lemma second_child_wins h st x y :
  spare st h ->
  let '(hx, st1) := WithGroup grow h st x in
  let '(hy, st2) := WithGroup grow h st1 y in
  group_names st1 hx = group_names st h ++ [x] /\ group_names st2 hx = group_names st h ++ [y].
Proof.
  intros Hs. unfold spare in Hs. unfold WithGroup, group_names.
  destruct (append_in_place [] (groupArrays st) (groups h) x Hs) as (b & Hb & E). rewrite E.
  cbn [groupArrays groups].
  set (l := take (len (groups h)) (backing (groupArrays st) (groups h))).
  set (t := drop (len (groups h) + 1) (backing (groupArrays st) (groups h))).
  assert (length l = len (groups h)) as Hl by (unfold l; rewrite length_take; lia).
  set (a1 := <[b := l ++ [x] ++ t]> (groupArrays st)).
  assert (backing a1 (groups h) = l ++ [x] ++ t) as Hb1.
  { unfold backing. rewrite Hb. unfold a1. by rewrite lookup_insert_eq. }
  assert (len (groups h) < length (backing a1 (groups h)))%nat as Hs1.
  { rewrite Hb1, !length_app, Hl. simpl. lia. }
  destruct (append_in_place [] a1 (groups h) y Hs1) as (b' & Hb' & E'). fold l t. fold a1. rewrite E'.
  cbn [groupArrays groups].
  rewrite Hb in Hb'. simplify_eq. split; [by apply elems_in_place|].
  rewrite Hb1. rewrite (take_app_length' l) by done.
  assert (elems (groupArrays st) (groups h) = l) as -> by done. by apply elems_in_place.
Qed.

(** Groups and derived handlers do not follow slog's contract. (1) The
    groups of a key come innermost first: under WithGroup(a).WithGroup(b) the
    key k is written b.a.k. (2) Attributes added before WithGroup are put
    under the group as well. (3) Two handlers derived from one parent share
    its backing array: when there is room in it, deriving the second replaces
    the group of the first, and with Go's doubling of capacities a chain of
    three groups has such room. *)
Theorem loki_derived_handlers_broken :
  (forall gs g key, qualify (gs ++ [g]) key = g ++ lit "." ++ qualify gs key) /\
  (forall c app keys lvl h0 k v g l msg,
     NewHandlerWithConfig c app keys lvl = Ok h0 -> keys (g ++ lit "." ++ k) = false ->
     let '(h1, st1) := WithAttrs grow h0 (MkHeap ∅ ∅) [MkAttr k v] in
     let '(h2, st2) := WithGroup grow h1 st1 g in
     (render h2 st2 (MkRecord l msg [] None)).2 = msg ++ lit " " ++ g ++ lit "." ++ k ++ lit "=" ++ v) /\
  (forall h st x y, spare st h ->
     let '(hx, st1) := WithGroup grow h st x in
     let '(hy, st2) := WithGroup grow h st1 y in
     group_names st1 hx = group_names st h ++ [x] /\ group_names st2 hx = group_names st h ++ [y]) /\
  (grow 0 1 = 1%nat -> grow 1 2 = 2%nat -> grow 2 3 = 4%nat ->
   forall c app keys lvl a b d h0, NewHandlerWithConfig c app keys lvl = Ok h0 ->
   let '(h1, st1) := WithGroup grow h0 (MkHeap ∅ ∅) a in
   let '(h2, st2) := WithGroup grow h1 st1 b in
   let '(h3, st3) := WithGroup grow h2 st2 d in
   spare st3 h3 /\ group_names st3 h3 = [a; b; d]).
Proof.
  split; [|split; [|split]].
  - intros gs g key. unfold qualify. by rewrite foldl_app.
  - intros c app keys lvl h0 k v g l msg H Hk. unfold NewHandlerWithConfig in H.
    destruct app; [done|]. simplify_eq. unfold WithAttrs, WithGroup, append. simpl.
    unfold render, elems, backing. simpl. rewrite !lookup_insert_eq. simpl. simpl in Hk.
    rewrite Hk. simpl. by rewrite <- !app_assoc.
  - intros. by apply second_child_wins.
  - intros G1 G2 G3 c app keys lvl a b d h0 H. unfold NewHandlerWithConfig in H.
    destruct app; [done|]. simplify_eq.
    unfold WithGroup, append, spare, group_names, elems, backing. simpl. rewrite G1. simpl.
    rewrite lookup_insert_eq. simpl. rewrite G2. simpl. rewrite lookup_insert_eq. simpl. rewrite G3. simpl.
    rewrite lookup_insert_eq. simpl. split; [lia|done].
Qed.
End Aliasing.

(** ** Witness *)

Definition demo_handler : Handler :=
  MkHandler (MkClient (lit "http://loki")) (lit "app") (fun k => bool_decide (k = lit "user")) 0 nil_slice nil_slice.
Definition demo_record : Record_ :=
  MkRecord 4 (lit "hi") [MkAttr (lit "user") (lit "bob"); MkAttr (lit "n") (lit "1")] None.
Definition demo_labels : smap :=
  <[lit "service" := lit "system"]> (<[lit "user" := lit "bob"]> (<[lit "level" := lit "warn"]>
    (<[lit "app" := lit "app"]> ∅))).

Lemma loki_handle_witness :
  exists req, Handle (fun _ => true) demo_handler (MkHeap ∅ ∅) 7 demo_record [] = (None, [req]) /\
    method req = lit "POST" /\ document (body req) = Ok (tree_of (payload 7 demo_labels (lit "hi n=1"))).
Proof.
  pose proof (loki_handle (fun _ => true) demo_handler (MkHeap ∅ ∅) 7 demo_record []) as H.
  destruct (Handle _ _ _ _ _ _) as [e sent]. destruct H as (-> & _ & req & -> & Hm & _ & _ & _ & Hd).
  exists req. split; [reflexivity|]. split; [exact Hm|]. apply Hd.
  - apply (bool_decide_unpack _). vm_compute. exact I.
  - vm_compute. reflexivity.
Defined.
