(* ===== verification/SqlPools.v ===== *)
(** * db/mysql and db/postgresql: connection pools

    How the two packages open, share and release connection pools: New,
    NewWithConfig, Close, database creation and the migration wrappers.

    database/sql, the drivers, GORM and golang-migrate's database drivers are
    outside: each call to them takes the next answer the outside gives
    ([answers], nil when it is exhausted), and the handles they hand out are
    kept in a ledger: a pool from sql.Open/OpenDB until its Close, a reserved
    connection from Conn until it is released.  Close releases whatever it
    returns.  The theorems hold for every sequence of answers. *)

From stdpp Require Import base option list gmap strings.
From Stdlib Require Import ZArith Lia.
From Stdlib.Strings Require Byte.
From S2P Require Import Prelude GoErrors Utf8 Json MigrateSource MigrateEngine SqliteDriver DbMigrate.

Open Scope Z_scope.

(** ** The outside *)

(** What a pool was opened with: the mysql driver's Config, or a DSN. *)
Record driverCfg : Type := MkDriverCfg {
  Net : bytes; Addr : bytes; User : bytes; Passwd : bytes; DBName : bytes;
  ParseTime : bool; Loc : bytes; Timeout : Z; MultiStatements : bool; TLSConfig : bytes
}.
Inductive poolCfg : Type := MySQLPool (c : driverCfg) | PGXPool (dsn : bytes).

(** An answer is an error, or success with the boolean a query scans. *)
Record world : Type := MkWorld {
  answers : list (gores bool);
  pools : gmap nat poolCfg;
  conns : gmap nat nat;
  statements : list (nat * bytes)
}.

Definition answer : io world (gores bool) := fun w =>
  match answers w with
  | [] => (Ok false, w)
  | a :: rest => (a, MkWorld rest (pools w) (conns w) (statements w))
  end.

Definition failure {A} (r : gores A) : option error :=
  match r with Ok _ => None | Err e => Some e end.

(** NewConnector, PingContext, gorm.Open, WithConnection: nothing but an answer. *)
Definition call : io world (option error) := a ← answer; mret (failure a).

(** sql.OpenDB: cannot fail. *)
Definition OpenDB (c : poolCfg) : io world nat := fun w =>
  let id := fresh (dom (pools w)) in
  (id, MkWorld (answers w) (<[id := c]> (pools w)) (conns w) (statements w)).

(** sql.Open with the registered driver "pgx": the DSN may not parse. *)
Definition Open (dsn : bytes) : io world (gores nat) :=
  e ← call;
  match e with
  | Some err => mret (Err err)
  | None => id ← OpenDB (PGXPool dsn); mret (Ok id)
  end.

Definition drop_pool (id : nat) (w : world) : world :=
  MkWorld (answers w) (delete id (pools w)) (conns w) (statements w).
Definition add_conn (id pool : nat) (w : world) : world :=
  MkWorld (answers w) (pools w) (<[id := pool]> (conns w)) (statements w).
Definition drop_conn (id : nat) (w : world) : world :=
  MkWorld (answers w) (pools w) (delete id (conns w)) (statements w).

Definition ClosePool (id : nat) : io world (option error) := fun w =>
  let '(e, w) := call w in (e, drop_pool id w).

Definition ExecContext (id : nat) (query : bytes) : io world (option error) := fun w =>
  let '(e, w) := call w in
  (e, MkWorld (answers w) (pools w) (conns w) (statements w ++ [(id, query)])).

(** sqlDB.Conn: reserves a connection of the pool. *)
Definition Conn (sqlDB : nat) : io world (gores nat) := fun w =>
  let '(e, w) := call w in
  match e with
  | Some err => (Err err, w)
  | None => let id := fresh (dom (conns w)) in (Ok id, add_conn id sqlDB w)
  end.

(** conn.Close, and Close of a migration driver that owns only that connection. *)
Definition CloseConn (id : nat) : io world (option error) := fun w =>
  let '(e, w) := call w in (e, drop_conn id w).

(** backoff.Retry without MaxTries and permanent errors: after a failed attempt
    the context may be done, or the time be up, or the next attempt follows.
    What happens after each attempt is an argument. *)
Inductive decision : Type := Again | CtxDone (cause : error).

Fixpoint Retry {A} (ds : list decision) (operation : io world (gores A)) : io world (gores A) :=
  r ← operation;
  match r with
  | Ok a => mret (Ok a)
  | Err err =>
    match ds with
    | Again :: ds' => Retry ds' operation
    | CtxDone cause :: _ => mret (Err cause)
    | [] => mret (Err err)
    end
  end.

(** ** Migrating over a reserved connection *)

(** A migration helper's result: [None] when golang-migrate's reader has none
    (see DbMigrate). *)
Definition task : Type := world -> option (option error * world).

(** The part of withMigrationDriver both packages share but for the texts:
    reserve a connection, make a driver that owns it, run, close the driver. *)
Definition withReservedConn (reserve create running : string) (sqlDB : nat) (run : nat -> task) : task := fun w =>
  let '(c, w) := Conn sqlDB w in
  match c with
  | Err err => Some (ctxerrors.Wrap (Some err) reserve, w)
  | Ok conn =>
    let '(e, w) := call w in
    match e with
    | Some err =>
      let '(ce, w) := CloseConn conn w in
      Some (ctxerrors.Wrap (errors_Join [Some err; ce]) create, w)
    | None =>
      '(runErr, w) ← run conn w;
      let '(ce, w) := CloseConn conn w in
      Some (ctxerrors.Wrap (errors_Join [runErr; ce]) running, w)
    end
  end.

(** ** Quoting identifiers *)

(** strings.ReplaceAll(s, q, qq) for a one-byte q. *)
Definition double (q : Byte.byte) (s : bytes) : bytes :=
  concat ((fun c => if bool_decide (c = q) then [c; c] else [c]) <$> s).

Definition quote_ident (q : Byte.byte) (s : bytes) : bytes := q :: double q s ++ [q].

Definition empty (s : bytes) : bool := match s with [] => true | _ => false end.

(** ** db/mysql *)

Module mysql.

Definition BACKTICK : Byte.byte := Byte.x60.
Definition maxPort : Z := 65535.
Definition maxDatabaseNameCharacters : nat := 64.
Definition connectionTimeout : Z := 5 * Second.

Record Config : Type := MkConfig {
  Hostname : bytes; Port : Z; Username : bytes; Password : bytes; Database : bytes; IsSSL : bool
}.

Definition required : error := Sentinel ErrRequiredFieldNotSet.
Definition invalid : error := Sentinel ErrInvalidArgument.

(** len([]rune(s)) *)
Fixpoint rune_count (fuel : nat) (s : bytes) : nat :=
  match fuel, s with
  | S fuel', _ :: _ => S (rune_count fuel' (drop (decode s).2 s))
  | _, _ => 0
  end.

Definition validate (c : Config) : option error :=
  if empty (TrimSpace (Hostname c)) || empty (Username c) || empty (Database c)
  then ctxerrors.Wrap (Some required) "MySQL hostname, username and database are required"
  else if (Port c <? 1) || (maxPort <? Port c)
  then ctxerrors.Wrap (Some invalid) "MySQL port must be between 1 and 65535"
  else if existsb (fun b => bool_decide (b = Byte.x00)) (Database c)
          || (maxDatabaseNameCharacters <? rune_count (length (Database c)) (Database c))%nat
  then ctxerrors.Wrap (Some invalid)
         "MySQL database name must contain at most 64 characters and no NUL"
  else None.

(** net.JoinHostPort *)
Definition JoinHostPort (host : bytes) (port : Z) : bytes :=
  if existsb (fun b => bool_decide (b = Byte.x3a)) host
  then lit "[" ++ host ++ lit "]:" ++ marshal_int port
  else host ++ lit ":" ++ marshal_int port.

Definition driverConfig (cfg : Config) (database : bytes) (multiStatements : bool) : driverCfg :=
  MkDriverCfg (lit "tcp") (JoinHostPort (Hostname cfg) (Port cfg)) (Username cfg) (Password cfg) database
    true (lit "UTC") connectionTimeout multiStatements (if IsSSL cfg then lit "true" else []).

Definition connect (ds : list decision) (cfg : Config) (database : bytes) : io world (gores nat) :=
  e ← call;
  match e with
  | Some err => mret (Err (ctxerrors.WrapE err "configure MySQL connector"))
  | None =>
    sqlDB ← OpenDB (MySQLPool (driverConfig cfg database false));
    r ← Retry ds (e ← call;
                  mret (match e with
                        | Some err => Err (ctxerrors.WrapE err "ping MySQL")
                        | None => Ok true
                        end));
    match r with
    | Err err =>
      ce ← ClosePool sqlDB;
      mret (Err (ctxerrors.WrapE (default err (errors_Join [Some err; ce])) "connect MySQL pool"))
    | Ok _ => mret (Ok sqlDB)
    end
  end.

Definition ensureDatabaseExists (ds : list decision) (cfg : Config) : io world (option error) :=
  r ← connect ds cfg [];
  match r with
  | Err err => mret (ctxerrors.Wrap (Some err) "connect MySQL server for database creation")
  | Ok sqlDB =>
    let query := lit "CREATE DATABASE IF NOT EXISTS " ++ quote_ident BACKTICK (Database cfg) in
    executionErr ← ExecContext sqlDB query;
    closeErr ← ClosePool sqlDB;
    mret (match errors_Join [executionErr; closeErr] with
          | Some err => ctxerrors.Wrap (Some err) "create MySQL database"
          | None => None
          end)
  end.

(** Mysql: the pool SQLDB and GormDB share; nil is [None]. *)
Record Mysql : Type := MkMysql { SQLDB : option nat; config : Config }.

Definition NewWithConfig (ds1 ds2 : list decision) (cfg : Config) (ensureDBExists : bool)
  : io world (gores Mysql) :=
  match validate cfg with
  | Some err => mret (Err (ctxerrors.WrapE err "validate MySQL config"))
  | None =>
    e ← (if ensureDBExists then ensureDatabaseExists ds1 cfg else mret None);
    match e with
    | Some err => mret (Err (ctxerrors.WrapE err "ensure MySQL database exists"))
    | None =>
      r ← connect ds2 cfg (Database cfg);
      match r with
      | Err err => mret (Err (ctxerrors.WrapE err "connect MySQL"))
      | Ok sqlDB =>
        e ← call;
        match e with
        | Some err =>
          ce ← ClosePool sqlDB;
          mret (Err (ctxerrors.WrapE (default err (errors_Join [Some err; ce])) "open MySQL GORM connection"))
        | None => mret (Ok (MkMysql (Some sqlDB) cfg))
        end
      end
    end
  end.

(** New with parseConfig; the result of gonfiguration.Parse is an argument, which Configs.v computes. *)
Definition New (ds1 ds2 : list decision) (parsed : gores Config) (ensureDBExists : bool)
  : io world (gores Mysql) :=
  match parsed with
  | Err err => mret (Err (ctxerrors.WrapE (ctxerrors.WrapE err "parse MySQL config") "load MySQL config"))
  | Ok cfg => NewWithConfig ds1 ds2 cfg ensureDBExists
  end.

(** Close; a nil *Mysql is [None]. *)
Definition Close (m : option Mysql) : io world (option error) :=
  match m ≫= SQLDB with
  | None => mret None
  | Some sqlDB =>
    e ← ClosePool sqlDB;
    mret (ctxerrors.Wrap e "close MySQL")
  end.

(** The migration drivers of reserved connections, the file system. *)
Section Migrate.
Context (drv : nat -> Driver world) (host : HostFS) (fuel : nat).

Definition withMigrationDriver (sqlDB : option nat) (run : nat -> task) : task := fun w =>
  match sqlDB with
  | None => Some (ctxerrors.Wrap (Some required) "MySQL database", w)
  | Some sqlDB =>
    withReservedConn "reserve MySQL migration connection" "create MySQL migration driver"
      "run MySQL migrations" sqlDB run w
  end.

Definition MigrateUp (sqlDB : option nat) (path : string) (fs : option EmbedFS) : task :=
  withMigrationDriver sqlDB (fun c => DbMigrate.MigrateUp host fuel (Some (drv c)) path fs).

Definition MigrateDown (sqlDB : option nat) (path : string) (steps : Z) (fs : option EmbedFS) : task := fun w =>
  if steps <=? 0
  then Some (ctxerrors.Wrap (Some invalid) "migration steps must be greater than zero", w)
  else withMigrationDriver sqlDB (fun c => DbMigrate.MigrateDown host fuel (Some (drv c)) path fs steps) w.

Definition MigrateForce (sqlDB : option nat) (path : string) (version : Z) (fs : option EmbedFS) : task :=
  withMigrationDriver sqlDB (fun c w => Some (DbMigrate.MigrateForce host (Some (drv c)) path fs version w)).

(** withMigrationPool; a nil *Mysql is [None]. *)
Definition withMigrationPool (m : option Mysql) (run : nat -> task) : task := fun w =>
  match m ≫= (fun m => pair (config m) <$> SQLDB m) with
  | None => Some (ctxerrors.Wrap (Some required) "MySQL connection", w)
  | Some (cfg, _) =>
    let '(e, w) := call w in
    match e with
    | Some err => Some (ctxerrors.Wrap (Some err) "check MySQL connection before migrating", w)
    | None =>
      let '(e, w) := call w in
      match e with
      | Some err => Some (ctxerrors.Wrap (Some err) "configure MySQL migration pool", w)
      | None =>
        let '(sqlDB, w) := OpenDB (MySQLPool (driverConfig cfg (Database cfg) true)) w in
        '(runErr, w) ← run sqlDB w;
        let '(ce, w) := ClosePool sqlDB w in
        Some (ctxerrors.Wrap (errors_Join [runErr; ce]) "close MySQL migration pool", w)
      end
    end
  end.

Definition Mysql_MigrateUp (m : option Mysql) (path : string) (fs : option EmbedFS) : task :=
  withMigrationPool m (fun sqlDB => MigrateUp (Some sqlDB) path fs).
Definition Mysql_MigrateDown (m : option Mysql) (path : string) (steps : Z) (fs : option EmbedFS) : task :=
  withMigrationPool m (fun sqlDB => MigrateDown (Some sqlDB) path steps fs).
Definition Mysql_MigrateForce (m : option Mysql) (path : string) (version : Z) (fs : option EmbedFS) : task :=
  withMigrationPool m (fun sqlDB => MigrateForce (Some sqlDB) path version fs).
End Migrate.

End mysql.

(** ** db/postgresql *)

Module postgresql.

Record Config : Type := MkConfig {
  Hostname : bytes; Port : Z; Username : bytes; Password : bytes; Database : bytes; IsSSL : bool
}.

Definition ErrHostnameRequired : error := Sentinel "hostname is required".
Definition ErrPortRequired : error := Sentinel "port is required".
Definition ErrUsernameRequired : error := Sentinel "username is required".
Definition ErrPasswordRequired : error := Sentinel "password is required".
Definition ErrDatabaseRequired : error := Sentinel "database is required".

Definition validate (c : Config) : option error :=
  if empty (Hostname c) then ctxerrors.Wrap (Some ErrHostnameRequired) "hostname"
  else if Port c =? 0 then ctxerrors.Wrap (Some ErrPortRequired) "port"
  else if empty (Username c) then ctxerrors.Wrap (Some ErrUsernameRequired) "username"
  else if empty (Password c) then ctxerrors.Wrap (Some ErrPasswordRequired) "password"
  else if empty (Database c) then ctxerrors.Wrap (Some ErrDatabaseRequired) "database"
  else None.

Definition getDSN (cfg : Config) (usePostgresDatabase : bool) : bytes :=
  let sslMode := if IsSSL cfg then lit "require" else lit "disable" in
  let dbName := if usePostgresDatabase then lit "postgres" else Database cfg in
  lit "host=" ++ Hostname cfg ++ lit " user=" ++ Username cfg ++ lit " password=" ++ Password cfg
  ++ lit " dbname=" ++ dbName ++ lit " port=" ++ marshal_int (Port cfg) ++ lit " sslmode=" ++ sslMode.

Definition connectToDB (ds : list decision) (dsn : bytes) : io world (gores nat) :=
  r ← Retry ds (o ← Open dsn;
                match o with
                | Err err => mret (Err (ctxerrors.WrapE err "could not open database"))
                | Ok sqlDB =>
                  e ← call;
                  mret (match e with
                        | Some err => Err (ctxerrors.WrapE err "could not ping database")
                        | None => Ok sqlDB
                        end)
                end);
  mret (match r with
        | Err err => Err (ctxerrors.WrapE err "could not connect to database")
        | Ok sqlDB => Ok sqlDB
        end).

Definition DQUOTE : Byte.byte := Byte.x22.

(** The text of an error from outside is an argument. *)
Section Ensure.
Context (Error : error -> bytes).

Definition databaseExists (dbName : bytes) : io world (gores bool) :=
  a ← answer;
  mret (match a with
        | Err err =>
          if bool_decide (Error err = lit "pq: database " ++ [DQUOTE] ++ dbName ++ [DQUOTE] ++ lit " does not exist")
          then Ok false
          else Err (ctxerrors.WrapE err "could not check if database exists")
        | Ok exists_ => Ok exists_
        end).

Definition createDatabase (sqlDB : nat) (dbName : bytes) : io world (option error) :=
  e ← ExecContext sqlDB (lit "CREATE DATABASE " ++ quote_ident DQUOTE dbName);
  mret (ctxerrors.Wrap e "could not create database").

(** The deferred Close only logs its error. *)
Definition ensureDatabaseExists (ds : list decision) (cfg : Config) : io world (option error) :=
  r ← connectToDB ds (getDSN cfg true);
  match r with
  | Err err => mret (ctxerrors.Wrap (Some err) "could not connect to database")
  | Ok sqlDB =>
    x ← databaseExists (Database cfg);
    res ← (match x with
           | Err err => mret (ctxerrors.Wrap (Some err) "could not check if database exists")
           | Ok true => mret None
           | Ok false =>
             e ← createDatabase sqlDB (Database cfg);
             mret (ctxerrors.Wrap e "could not create database")
           end);
    _ ← ClosePool sqlDB;
    mret res
  end.

Record Postgresql : Type := MkPostgresql { SQLDB : option nat; config : Config }.

Definition NewWithConfig (ds1 ds2 : list decision) (cfg : Config) (ensureDBExists : bool)
  : io world (gores Postgresql) :=
  match validate cfg with
  | Some err => mret (Err (ctxerrors.WrapE err "could not validate config"))
  | None =>
    e ← (if ensureDBExists then ensureDatabaseExists ds1 cfg else mret None);
    match e with
    | Some err => mret (Err (ctxerrors.WrapE err "failed to ensure database exists"))
    | None =>
      r ← connectToDB ds2 (getDSN cfg false);
      match r with
      | Err err => mret (Err (ctxerrors.WrapE err "could not connect to database"))
      | Ok sqlDB =>
        e ← call;
        mret (match e with
              | Some err => Err (ctxerrors.WrapE err "could not open gorm database")
              | None => Ok (MkPostgresql (Some sqlDB) cfg)
              end)
      end
    end
  end.

Definition New (ds1 ds2 : list decision) (parsed : gores Config) (ensureDBExists : bool)
  : io world (gores Postgresql) :=
  match parsed with
  | Err err => mret (Err (ctxerrors.WrapE (ctxerrors.WrapE err "could not parse config") "could not parse config"))
  | Ok cfg => NewWithConfig ds1 ds2 cfg ensureDBExists
  end.
End Ensure.

(** Close; with a nil SQLDB the call panics ([None]). *)
Definition Close (p : Postgresql) : task := fun w =>
  match SQLDB p with
  | None => None
  | Some sqlDB =>
    let '(e, w) := ClosePool sqlDB w in
    Some (ctxerrors.Wrap e "could not close sql database", w)
  end.

Section Migrate.
Context (drv : nat -> Driver world) (host : HostFS) (fuel : nat).

Definition withMigrationDriver (p : option Postgresql) (run : nat -> task) : task := fun w =>
  match p ≫= SQLDB with
  | None => Some (ctxerrors.Wrap (Some (Sentinel ErrRequiredFieldNotSet)) "PostgreSQL database", w)
  | Some sqlDB =>
    withReservedConn "reserve PostgreSQL migration connection" "create PostgreSQL migration driver"
      "run PostgreSQL migrations" sqlDB run w
  end.

Definition MigrateUp (p : option Postgresql) (path : string) (fs : option EmbedFS) : task :=
  withMigrationDriver p (fun c => DbMigrate.MigrateUp host fuel (Some (drv c)) path fs).

Definition MigrateDown (p : option Postgresql) (path : string) (steps : Z) (fs : option EmbedFS) : task := fun w =>
  if steps <=? 0
  then Some (ctxerrors.Wrap (Some (Sentinel ErrInvalidArgument)) "migration steps must be greater than zero", w)
  else withMigrationDriver p (fun c => DbMigrate.MigrateDown host fuel (Some (drv c)) path fs steps) w.

Definition MigrateForce (p : option Postgresql) (path : string) (version : Z) (fs : option EmbedFS) : task :=
  withMigrationDriver p (fun c w => Some (DbMigrate.MigrateForce host (Some (drv c)) path fs version w)).
End Migrate.

End postgresql.

(** ** Proofs *)

(** The handles held are the same. *)
Definition same (w w' : world) : Prop := pools w' = pools w /\ conns w' = conns w.

#[export] Instance same_preorder : PreOrder same.
Proof. unfold same. split; [done|]. intros ??? [? ?] [? ?]. split; congruence. Qed.

Lemma answer_same w : same w (answer w).2.
Proof. unfold answer. by destruct (answers w). Qed.

Lemma call_same w : same w (call w).2.
Proof. apply (bind_within same); [apply answer_same|done]. Qed.

Lemma Exec_same id q w : same w (ExecContext id q w).2.
Proof. unfold ExecContext. pose proof (call_same w). by destruct (call w). Qed.

Lemma Retry_same {A} ds (op : io world (gores A)) w :
  (forall w, same w (op w).2) -> same w (Retry ds op w).2.
Proof.
  intros Hop. revert w. induction ds as [|d ds IH]; intros w;
    (apply (bind_within same); [apply Hop|]); intros [a|e] w'; simpl; try done.
  by destruct d.
Qed.

(** What opening and closing a pool does to the handles. *)
Lemma ClosePool_pools id w :
  pools (ClosePool id w).2 = delete id (pools w) /\ conns (ClosePool id w).2 = conns w.
Proof.
  unfold ClosePool. destruct (call_same w) as [Hp Hc]. destruct (call w) as [e w']. simpl in *.
  by rewrite Hp, Hc.
Qed.

Lemma fresh_pool w : pools w !! fresh (dom (pools w)) = None.
Proof. apply not_elem_of_dom, is_fresh. Qed.

Lemma close_opened id c w w1 w2 :
  pools w !! id = None -> pools w1 = <[id := c]> (pools w) -> conns w1 = conns w ->
  same w1 w2 -> same w (ClosePool id w2).2.
Proof.
  intros Hid Hp Hc [Hp2 Hc2]. destruct (ClosePool_pools id w2) as [H1 H2].
  split; [|congruence]. rewrite H1, Hp2, Hp. by apply delete_insert_id.
Qed.

(** A pool [id] with configuration [c] is all that was added. *)
Definition opened (id : nat) (c : poolCfg) (w w' : world) : Prop :=
  pools w !! id = None /\ pools w' = <[id := c]> (pools w) /\ conns w' = conns w.

Lemma OpenDB_opened c w : opened (OpenDB c w).1 c w (OpenDB c w).2.
Proof. split; [apply fresh_pool|done]. Qed.

Lemma opened_same id c w w1 w2 : opened id c w w1 -> same w1 w2 -> opened id c w w2.
Proof. intros (H1 & H2 & H3) [H4 H5]. split_and!; congruence. Qed.

Lemma same_opened id c w w1 w2 : same w w1 -> opened id c w1 w2 -> opened id c w w2.
Proof. intros [H1 H2] (H3 & H4 & H5). split_and!; congruence. Qed.

Lemma opened_close id c w w1 : opened id c w w1 -> same w (ClosePool id w1).2.
Proof. intros (H1 & H2 & H3). by eapply close_opened. Qed.

(** One step of a computation, its intermediate world named. *)
Lemma bind_eq {A B} (m : io world A) (f : A -> io world B) w :
  (m ≫= f) w = f (m w).1 (m w).2.
Proof. unfold mbind, io_bind. by destruct (m w). Qed.

Lemma connect_opened ds cfg db w :
  match (mysql.connect ds cfg db w).1 with
  | Ok id => opened id (MySQLPool (mysql.driverConfig cfg db false)) w (mysql.connect ds cfg db w).2
  | Err _ => same w (mysql.connect ds cfg db w).2
  end.
Proof.
  unfold mysql.connect. rewrite bind_eq. pose proof (call_same w) as H1.
  destruct (call w) as [[err|] w1]; simpl in *; [done|].
  rewrite bind_eq.
  pose proof (OpenDB_opened (MySQLPool (mysql.driverConfig cfg db false)) w1) as H2.
  destruct (OpenDB _ w1) as [id w2]. simpl in *. rewrite bind_eq.
  set (ping := call ≫= _).
  pose proof (Retry_same ds ping w2 ltac:(intros; apply (bind_within same); [apply call_same|done])) as H3.
  pose proof (same_opened _ _ _ _ _ H1 (opened_same _ _ _ _ _ H2 H3)) as H4.
  destruct (Retry ds ping w2) as [[b|err] w3]; simpl in *; [done|].
  rewrite bind_eq. simpl. by eapply opened_close.
Qed.

Lemma mysql_ensure_same ds cfg w : same w (mysql.ensureDatabaseExists ds cfg w).2.
Proof.
  unfold mysql.ensureDatabaseExists. rewrite bind_eq. pose proof (connect_opened ds cfg [] w) as H.
  destruct (mysql.connect ds cfg [] w) as [[id|err] w1]; simpl in *; [|done].
  rewrite bind_eq.
  match goal with |- context [ExecContext id ?q w1] => pose proof (Exec_same id q w1) as H2 end.
  destruct (ExecContext id _ w1) as [e w2]. simpl in *. rewrite bind_eq. simpl.
  eapply opened_close, opened_same; done.
Qed.

Lemma mysql_close_same id cfg c w w1 :
  opened id c w w1 -> same w (mysql.Close (Some (mysql.MkMysql (Some id) cfg)) w1).2.
Proof.
  intros H. apply opened_close in H. unfold mysql.Close. simpl. unfold mbind, io_bind.
  by destruct (ClosePool id w1).
Qed.

(** C31. mysql.NewWithConfig holds exactly what it returns: on success one new
    pool on the configured database, without multi-statements, and Close of the
    result leaves the handles as they were before; on every failure (invalid
    configuration, connector, pings, database creation, GORM) nothing stays
    open, whatever the driver and the context answer.  An invalid configuration
    is refused before anything is opened or asked. *)
Theorem mysql_new_releases ds1 ds2 cfg ensureDBExists w :
  match (mysql.NewWithConfig ds1 ds2 cfg ensureDBExists w).1 with
  | Ok m =>
    mysql.validate cfg = None /\
    exists id, m = mysql.MkMysql (Some id) cfg /\
      opened id (MySQLPool (mysql.driverConfig cfg (mysql.Database cfg) false)) w
        (mysql.NewWithConfig ds1 ds2 cfg ensureDBExists w).2 /\
      same w (mysql.Close (Some m) (mysql.NewWithConfig ds1 ds2 cfg ensureDBExists w).2).2
  | Err _ =>
    same w (mysql.NewWithConfig ds1 ds2 cfg ensureDBExists w).2 /\
    (mysql.validate cfg <> None -> (mysql.NewWithConfig ds1 ds2 cfg ensureDBExists w).2 = w)
  end.
Proof.
  unfold mysql.NewWithConfig. destruct (mysql.validate cfg) as [err|] eqn:Hv; [done|].
  rewrite bind_eq.
  assert (H0 : same w ((if ensureDBExists then mysql.ensureDatabaseExists ds1 cfg else mret None) w).2)
    by (destruct ensureDBExists; [apply mysql_ensure_same|done]).
  destruct ((if ensureDBExists then mysql.ensureDatabaseExists ds1 cfg else mret None) w) as [[err|] w1];
    simpl in *; [done|].
  rewrite bind_eq. pose proof (connect_opened ds2 cfg (mysql.Database cfg) w1) as H1.
  destruct (mysql.connect ds2 cfg (mysql.Database cfg) w1) as [[id|err] w2]; simpl in *;
    [|split; [by etransitivity|done]].
  rewrite bind_eq. pose proof (call_same w2) as H2.
  pose proof (same_opened _ _ _ _ _ H0 (opened_same _ _ _ _ _ H1 H2)) as H3.
  destruct (call w2) as [[err|] w3]; simpl in *.
  - rewrite bind_eq. simpl. split; [by eapply opened_close|done].
  - split; [done|]. exists id. split_and!; [done..|]. by eapply mysql_close_same.
Qed.

(** *** Migrations *)

Lemma withReservedConn_same a b c sqlDB run w e w' :
  (forall id w e w', run id w = Some (e, w') -> same w w') ->
  withReservedConn a b c sqlDB run w = Some (e, w') -> same w w'.
Proof.
  intros Hrun. unfold withReservedConn, Conn. pose proof (call_same w) as H1.
  destruct (call w) as [[err|] w1]; simpl in *; [by intros [= <- <-]|].
  set (id := fresh (dom (conns w1))). assert (Hid : conns w1 !! id = None) by apply not_elem_of_dom, is_fresh.
  assert (Hback : forall w2, same (add_conn id sqlDB w1) w2 -> same w (CloseConn id w2).2).
  { intros w2 [Hp Hc]. unfold CloseConn. destruct (call_same w2) as [Hp2 Hc2].
    destruct (call w2) as [ce w3]. destruct H1 as [Hp1 Hc1]. simpl in *.
    split; simpl; [congruence|]. rewrite Hc2, Hc, <- Hc1. by apply delete_insert_id. }
  pose proof (call_same (add_conn id sqlDB w1)) as H2.
  destruct (call (add_conn id sqlDB w1)) as [[err|] w2]; simpl in *.
  - specialize (Hback _ H2). destruct (CloseConn id w2) as [ce w3]. by intros [= <- <-].
  - destruct (run id w2) as [[runErr w3]|] eqn:Hr; [|done]. simpl. apply Hrun in Hr.
    specialize (Hback w3 ltac:(by etransitivity)).
    destruct (CloseConn id w3) as [ce w4]. by intros [= <- <-].
Qed.

(** A connection of the pool is reserved, besides those there are. *)
Definition reserved (c sqlDB : nat) (w w1 : world) : Prop :=
  conns w !! c = None /\ pools w1 = pools w /\ conns w1 = <[c := sqlDB]> (conns w).

(** When it succeeds, the task has, on a connection of that pool. *)
Lemma withReservedConn_ran a b c sqlDB run w w' :
  withReservedConn a b c sqlDB run w = Some (None, w') ->
  exists id w1 w2, reserved id sqlDB w w1 /\ run id w1 = Some (None, w2).
Proof.
  unfold withReservedConn, Conn. destruct (call_same w) as [Hp1 Hc1].
  destruct (call w) as [[err|] w1]; simpl in *; [done|]. set (id := fresh (dom (conns w1))).
  destruct (call_same (add_conn id sqlDB w1)) as [Hp2 Hc2].
  destruct (call (add_conn id sqlDB w1)) as [[err|] w2]; simpl in *; [by destruct (CloseConn id w2)|].
  destruct (run id w2) as [[runErr w3]|] eqn:Hr; [|done]. simpl. destruct (CloseConn id w3) as [ce w4].
  destruct runErr; [done|]. intros _. exists id, w2, w3. split; [|done].
  split; [rewrite <- Hc1; apply not_elem_of_dom, is_fresh|]. split; congruence.
Qed.

Lemma withReservedConn_total a b c sqlDB run w :
  (forall id w, is_Some (run id w)) -> is_Some (withReservedConn a b c sqlDB run w).
Proof.
  intros Hrun. unfold withReservedConn. destruct (Conn sqlDB w) as [[id|err] w1]; [|by eexists].
  destruct (call w1) as [[err|] w2]; [destruct (CloseConn id w2); by eexists|].
  destruct (Hrun id w2) as [[e w3] ->]. simpl. destruct (CloseConn id w3); by eexists.
Qed.

(** withMigrationPool runs its task on a pool of its own, with
    multi-statements, and closes it. *)
Lemma withMigrationPool_spec m run w e w' :
  (forall id w e w', run id w = Some (e, w') -> same w w') ->
  mysql.withMigrationPool m run w = Some (e, w') ->
  same w w' /\
  (e = None -> exists cfg id w1 w2, mysql.config <$> m = Some cfg /\
     opened id (MySQLPool (mysql.driverConfig cfg (mysql.Database cfg) true)) w w1 /\
     run id w1 = Some (None, w2)).
Proof.
  intros Hrun. unfold mysql.withMigrationPool.
  destruct m as [[[sq|] cfg]|]; simpl; [|by intros [= <- <-]..].
  pose proof (call_same w) as H1. destruct (call w) as [[err|] w1]; simpl in *; [by intros [= <- <-]|].
  pose proof (call_same w1) as H2.
  destruct (call w1) as [[err|] w2]; simpl in *; [intros [= <- <-]; split; [by etransitivity|done]|].
  set (c := MySQLPool _). set (id := fresh (dom (pools w2))).
  pose proof (OpenDB_opened c w2) as H3. simpl in H3. fold id in H3. set (w3 := MkWorld _ _ _ _) in *.
  pose proof (same_opened _ _ _ _ _ (transitivity H1 H2) H3) as H4.
  destruct (run id w3) as [[runErr w4]|] eqn:Hr; [|done]. simpl.
  pose proof (opened_close _ _ _ _ (opened_same _ _ _ _ _ H4 (Hrun _ _ _ _ Hr))) as H5.
  destruct (ClosePool id w4) as [ce w5]. intros [= <- <-]. split; [done|].
  destruct runErr; [done|]. intros _. by exists cfg, id, w3, w4.
Qed.

(** A number of steps that is not positive is refused, on the new pool. *)
Lemma mysql_down_refused drv host fuel m path steps fs w w' :
  steps <= 0 -> mysql.Mysql_MigrateDown drv host fuel m path steps fs w <> Some (None, w').
Proof.
  intros Hs H. apply withMigrationPool_spec in H as [_ H].
  - destruct (H eq_refl) as (cfg & id & w1 & w2 & _ & _ & Hd). unfold mysql.MigrateDown in Hd.
    by rewrite (proj2 (Z.leb_le steps 0) Hs) in Hd.
  - intros id w0 e0 w0'. unfold mysql.MigrateDown. rewrite (proj2 (Z.leb_le steps 0) Hs). by intros [= <- <-].
Qed.

Lemma mysql_down_refused_total drv host fuel m path steps fs w :
  steps <= 0 -> is_Some (mysql.Mysql_MigrateDown drv host fuel m path steps fs w).
Proof.
  intros Hs. unfold mysql.Mysql_MigrateDown, mysql.withMigrationPool, mysql.MigrateDown.
  rewrite (proj2 (Z.leb_le steps 0) Hs). destruct m as [[[sq|] cfg]|]; simpl; [|by eexists..].
  destruct (call w) as [[err|] w1]; [by eexists|]. destruct (call w1) as [[err|] w2]; [by eexists|].
  simpl. destruct (ClosePool _ _). by eexists.
Qed.

Section Migrations.
Context (drv : nat -> Driver world) (host : HostFS) {WI : forall c, Within (drv c) same}.

Lemma mysql_up_same fuel sqlDB path fs w e w' :
  mysql.MigrateUp drv host fuel sqlDB path fs w = Some (e, w') -> same w w'.
Proof.
  unfold mysql.MigrateUp, mysql.withMigrationDriver. case_match; [|by intros [= <- <-]].
  apply withReservedConn_same. intros c ???. apply (MigrateUp_within host (drv c) same).
Qed.

Lemma mysql_down_same fuel sqlDB path steps fs w e w' :
  mysql.MigrateDown drv host fuel sqlDB path steps fs w = Some (e, w') -> same w w'.
Proof.
  unfold mysql.MigrateDown, mysql.withMigrationDriver. case_match; [by intros [= <- <-]|].
  case_match; [|by intros [= <- <-]].
  apply withReservedConn_same. intros c ???. apply (MigrateDown_within host (drv c) same).
Qed.

Lemma mysql_force_same sqlDB path version fs w e w' :
  mysql.MigrateForce drv host sqlDB path version fs w = Some (e, w') -> same w w'.
Proof.
  unfold mysql.MigrateForce, mysql.withMigrationDriver. case_match; [|by intros [= <- <-]].
  apply withReservedConn_same. intros c w0 e0 w0' [= Hf].
  pose proof (MigrateForce_within host (drv c) same path fs version w0) as Hs. by rewrite Hf in Hs.
Qed.

Lemma postgres_up_same fuel p path fs w e w' :
  postgresql.MigrateUp drv host fuel p path fs w = Some (e, w') -> same w w'.
Proof.
  unfold postgresql.MigrateUp, postgresql.withMigrationDriver. case_match; [|by intros [= <- <-]].
  apply withReservedConn_same. intros c ???. apply (MigrateUp_within host (drv c) same).
Qed.

Lemma postgres_down_same fuel p path steps fs w e w' :
  postgresql.MigrateDown drv host fuel p path steps fs w = Some (e, w') -> same w w'.
Proof.
  unfold postgresql.MigrateDown, postgresql.withMigrationDriver. case_match; [by intros [= <- <-]|].
  case_match; [|by intros [= <- <-]].
  apply withReservedConn_same. intros c ???. apply (MigrateDown_within host (drv c) same).
Qed.

Lemma postgres_force_same p path version fs w e w' :
  postgresql.MigrateForce drv host p path version fs w = Some (e, w') -> same w w'.
Proof.
  unfold postgresql.MigrateForce, postgresql.withMigrationDriver. case_match; [|by intros [= <- <-]].
  apply withReservedConn_same. intros c w0 e0 w0' [= Hf].
  pose proof (MigrateForce_within host (drv c) same path fs version w0) as Hs. by rewrite Hf in Hs.
Qed.

(** What a successful method of *Mysql has run its helper on: a connection of a
    new pool that allows multi-statements, with the handles there were untouched. *)
Definition on_own_pool (m : option mysql.Mysql) (c : nat) (w w1 : world) : Prop :=
  exists cfg id, mysql.config <$> m = Some cfg /\ pools w !! id = None /\ conns w !! c = None /\
    pools w1 = <[id := MySQLPool (mysql.driverConfig cfg (mysql.Database cfg) true)]> (pools w) /\
    conns w1 = <[c := id]> (conns w).

(** And a successful function of either package: a connection of the pool it is
    given. *)
Definition on_pool (sqlDB : option nat) (c : nat) (w w1 : world) : Prop :=
  exists id, sqlDB = Some id /\ reserved c id w w1.

Section Ran.
Context (run : nat -> task) (Hrun : forall c w e w', run c w = Some (e, w') -> same w w').

Lemma mysql_ran sqlDB w w' :
  mysql.withMigrationDriver sqlDB run w = Some (None, w') ->
  exists c w1 w2, on_pool sqlDB c w w1 /\ run c w1 = Some (None, w2).
Proof.
  unfold mysql.withMigrationDriver. destruct sqlDB as [id|]; [|done].
  intros (c & w1 & w2 & Hc & Hr)%withReservedConn_ran. exists c, w1, w2. split; [by exists id|done].
Qed.

Lemma postgres_ran p w w' :
  postgresql.withMigrationDriver p run w = Some (None, w') ->
  exists c w1 w2, on_pool (p ≫= postgresql.SQLDB) c w w1 /\ run c w1 = Some (None, w2).
Proof.
  unfold postgresql.withMigrationDriver. destruct (p ≫= postgresql.SQLDB) as [id|]; [|done].
  intros (c & w1 & w2 & Hc & Hr)%withReservedConn_ran. exists c, w1, w2. split; [by exists id|done].
Qed.

Lemma mysql_pool_ran m w w' :
  mysql.withMigrationPool m (fun id => mysql.withMigrationDriver (Some id) run) w = Some (None, w') ->
  exists c w1 w2, on_own_pool m c w w1 /\ run c w1 = Some (None, w2).
Proof.
  intros H. apply withMigrationPool_spec in H as [_ H].
  2: { intros id w0 e0 w0'. unfold mysql.withMigrationDriver. by apply withReservedConn_same. }
  destruct (H eq_refl) as (cfg & id & w1 & w2 & Hm & (Hn & Hp & Hc) & Hr).
  apply mysql_ran in Hr as (c & w3 & w4 & (id' & [= <-] & (Hn' & Hp' & Hc')) & Hr').
  exists c, w3, w4. split; [|done]. exists cfg, id. repeat split; congruence.
Qed.

Lemma mysql_pool_total m w :
  (forall c w, is_Some (run c w)) ->
  is_Some (mysql.withMigrationPool m (fun id => mysql.withMigrationDriver (Some id) run) w).
Proof.
  intros Ht. unfold mysql.withMigrationPool. destruct m as [[[sq|] cfg]|]; simpl; [|by eexists..].
  destruct (call w) as [[err|] w1]; [by eexists|]. destruct (call w1) as [[err|] w2]; [by eexists|].
  edestruct withReservedConn_total as [[e w3] ->]; [done|]. simpl. destruct (ClosePool _ w3). by eexists.
Qed.
End Ran.

(** C32. Migrations of both packages give back what they take: over any
    migration drivers that touch no handle themselves, MigrateUp, MigrateDown
    and MigrateForce end with the handles they began with, on every path. When they
    succeed, the helper of package db has succeeded on a connection reserved for
    it: for the three methods of *Mysql a connection of a pool opened for the migration that
    allows multi-statements, never one of the application's pool; for the functions that take a
    pool and the methods of *Postgresql a connection of that pool.  MigrateDown succeeds
    only for a positive number of steps.  The methods of *Mysql return whenever the
    helper does. *)
Theorem migrations_release fuel m p sqlDB path steps version fs :
  let up := mysql.Mysql_MigrateUp drv host fuel m path fs in
  let down := mysql.Mysql_MigrateDown drv host fuel m path steps fs in
  let force := mysql.Mysql_MigrateForce drv host m path version fs in
  let db_up c := DbMigrate.MigrateUp host fuel (Some (drv c)) path fs in
  let db_down c := DbMigrate.MigrateDown host fuel (Some (drv c)) path fs steps in
  let db_force c w := Some (DbMigrate.MigrateForce host (Some (drv c)) path fs version w) in
  let ran (on : nat -> world -> world -> Prop) (helper : nat -> task) w :=
    exists c w1 w2, on c w w1 /\ helper c w1 = Some (None, w2) in
  (forall t w e w',
     t ∈ [up; down; force;
          mysql.MigrateUp drv host fuel sqlDB path fs;
          mysql.MigrateDown drv host fuel sqlDB path steps fs;
          mysql.MigrateForce drv host sqlDB path version fs;
          postgresql.MigrateUp drv host fuel p path fs;
          postgresql.MigrateDown drv host fuel p path steps fs;
          postgresql.MigrateForce drv host p path version fs] ->
     t w = Some (e, w') -> same w w') /\
  (forall w w',
     (up w = Some (None, w') -> ran (on_own_pool m) db_up w) /\
     (down w = Some (None, w') -> 0 < steps /\ ran (on_own_pool m) db_down w) /\
     (force w = Some (None, w') -> ran (on_own_pool m) db_force w) /\
     (mysql.MigrateUp drv host fuel sqlDB path fs w = Some (None, w') -> ran (on_pool sqlDB) db_up w) /\
     (mysql.MigrateDown drv host fuel sqlDB path steps fs w = Some (None, w') ->
        0 < steps /\ ran (on_pool sqlDB) db_down w) /\
     (mysql.MigrateForce drv host sqlDB path version fs w = Some (None, w') -> ran (on_pool sqlDB) db_force w) /\
     (postgresql.MigrateUp drv host fuel p path fs w = Some (None, w') ->
        ran (on_pool (p ≫= postgresql.SQLDB)) db_up w) /\
     (postgresql.MigrateDown drv host fuel p path steps fs w = Some (None, w') ->
        0 < steps /\ ran (on_pool (p ≫= postgresql.SQLDB)) db_down w) /\
     (postgresql.MigrateForce drv host p path version fs w = Some (None, w') ->
        ran (on_pool (p ≫= postgresql.SQLDB)) db_force w)) /\
  ((forall c w, is_Some (db_up c w)) -> forall w, is_Some (up w)) /\
  ((forall c w, is_Some (db_down c w)) -> forall w, is_Some (down w)) /\
  (forall w, is_Some (force w)).
Proof.
  intros up down force db_up db_down db_force ran.
  assert (Hdown : forall w, 0 < steps -> down w = mysql.withMigrationPool m
    (fun id => mysql.withMigrationDriver (Some id) db_down) w).
  { intros w Hs. unfold down, mysql.Mysql_MigrateDown, mysql.withMigrationPool, mysql.MigrateDown.
    by rewrite (proj2 (Z.leb_gt steps 0) Hs). }
  split_and!.
  - intros t w e w' Ht. repeat setoid_rewrite elem_of_cons in Ht.
    destruct Ht as [->|[->|[->|[->|[->|[->|[->|[->|[->|Ht]]]]]]]]]; intros Hr.
    1-3: eapply withMigrationPool_spec; [simpl|exact Hr].
    all: try (intros ????; first [apply mysql_up_same | apply mysql_down_same | apply mysql_force_same]).
    all: revert Hr; first [apply mysql_up_same | apply mysql_down_same | apply mysql_force_same
      | apply postgres_up_same | apply postgres_down_same | apply postgres_force_same | idtac].
    by apply elem_of_nil in Ht.
  - intros w w'. split_and!.
    + apply mysql_pool_ran. intros c ???. apply (MigrateUp_within host (drv c) same).
    + destruct (Z.leb_spec steps 0) as [Hle|Hlt].
      * intros H. exfalso. revert H. by apply mysql_down_refused.
      * rewrite Hdown by done. intros H. split; [done|]. revert H. apply mysql_pool_ran.
        intros c ???. apply (MigrateDown_within host (drv c) same).
    + apply mysql_pool_ran. intros c w0 e0 w0' [= Hf].
      pose proof (MigrateForce_within host (drv c) same path fs version w0) as Hs. by rewrite Hf in Hs.
    + apply mysql_ran.
    + unfold mysql.MigrateDown. destruct (Z.leb_spec steps 0) as [|Hlt]; [done|]. intros H. split; [done|]. by apply mysql_ran in H.
    + apply mysql_ran.
    + apply postgres_ran.
    + unfold postgresql.MigrateDown. destruct (Z.leb_spec steps 0) as [|Hlt]; [done|]. intros H. split; [done|]. by apply postgres_ran in H.
    + apply postgres_ran.
  - intros Ht w. by apply mysql_pool_total.
  - intros Ht w. destruct (Z.leb_spec steps 0) as [Hle|Hlt]; [|rewrite Hdown by done; by apply mysql_pool_total].
    by apply mysql_down_refused_total.
  - intros w. apply mysql_pool_total. by eexists.
Qed.
End Migrations.

(** Drivers whose calls only take an answer. *)
Definition plainDriver (c : nat) : Driver world :=
  MkDriver _ call call (fun _ => call) (fun _ _ => call) (mret (Ok (-1, false))).

#[export] Instance plainDriver_within c : Within (plainDriver c) same.
Proof. split; intros; try apply call_same; done. Qed.

Definition someHost : HostFS :=
  MkHost (fun _ => None) (fun _ => iofs_New (MkFS (fun _ => Ok []) (fun _ _ => Err (ForeignError 0))) EmptyString).

Definition someConfig : mysql.Config :=
  mysql.MkConfig (lit "db") 3306 (lit "app") (lit "secret") (lit "shop") true.

Definition someWorld : world :=
  MkWorld [Ok false; Ok false; Ok false; Ok false; Ok false; Ok false; Err (ForeignError 7)]
    {[3%nat := MySQLPool (mysql.driverConfig someConfig (lit "shop") false)]} ∅ [].

Lemma migrations_release_witness :
  let force := mysql.Mysql_MigrateForce plainDriver someHost
                 (Some (mysql.MkMysql (Some 3%nat) someConfig)) "migrations" 4 None in
  exists e w', force someWorld = Some (e, w') /\ same someWorld w' /\
    answers w' = [] /\ is_Some e.
Proof.
  intros force.
  destruct (migrations_release plainDriver someHost 5
              (Some (mysql.MkMysql (Some 3%nat) someConfig)) None None "migrations" 1 4 None) as (H & _).
  do 2 eexists. split; [vm_compute; reflexivity|].
  split; [|by split; [reflexivity|eexists]].
  eapply (H force someWorld);
  [do 2 (apply elem_of_cons; right); apply elem_of_cons; left; reflexivity|vm_compute; reflexivity].
Defined.

(** ** PostgreSQL: what stays open *)

(** The answers to attempts whose sql.Open succeeds and whose ping fails. *)
Definition failing_pings (es : list error) : list (gores bool) :=
  concat ((fun e => [Ok false; Err e]) <$> es).

Lemma size_open w c : size (pools (OpenDB c w).2) = S (size (pools w)).
Proof. simpl. apply map_size_insert_None, fresh_pool. Qed.

Lemma call_answers a rest p c st :
  call (MkWorld (a :: rest) p c st) = (failure a, MkWorld rest p c st).
Proof. reflexivity. Qed.

(** Every attempt opens a pool; only the last one is returned. *)
Lemma connectToDB_leaks dsn es a b rest p c st :
  exists id p',
    postgresql.connectToDB (replicate (length es) Again) dsn
      (MkWorld (failing_pings es ++ Ok a :: Ok b :: rest) p c st)
    = (Ok id, MkWorld rest p' c st) /\
    p' !! id = Some (PGXPool dsn) /\ size p' = (size p + length es + 1)%nat.
Proof.
  unfold postgresql.connectToDB. set (op := Open dsn ≫= _).
  assert (Hr : exists id p', Retry (replicate (length es) Again) op
      (MkWorld (failing_pings es ++ Ok a :: Ok b :: rest) p c st) = (Ok id, MkWorld rest p' c st) /\
      p' !! id = Some (PGXPool dsn) /\ size p' = (size p + length es + 1)%nat).
  { revert p. induction es as [|e es IH]; intros p.
    - exists (fresh (dom p)), (<[fresh (dom p) := PGXPool dsn]> p). split; [reflexivity|].
      rewrite lookup_insert_eq, map_size_insert_None by apply not_elem_of_dom, is_fresh. simpl. split; [done|lia].
    - destruct (IH (<[fresh (dom p) := PGXPool dsn]> p)) as (id & p' & H1 & H2 & H3).
      exists id, p'. split_and!; [exact H1|done|].
      rewrite H3, map_size_insert_None by apply not_elem_of_dom, is_fresh. simpl. lia. }
  destruct Hr as (id & p' & Hr & Hp). exists id, p'. split; [|done].
  rewrite bind_eq, Hr. reflexivity.
Qed.

(** postgresql.NewWithConfig keeps pools nobody can close: every attempt
    of connectToDB opens a new pool and drops it when the ping fails.  After n
    failed pings a successful call holds n + 1 pools, of which Close releases
    one; and when gorm.Open fails the caller gets an error while all n + 1
    pools stay open. *)
Theorem postgres_leaks_pools Error cfg es a b gorm rest p c st :
  postgresql.validate cfg = None ->
  let n := length es in
  let w := MkWorld (failing_pings es ++ Ok a :: Ok b :: gorm :: rest) p c st in
  let '(r, w') := postgresql.NewWithConfig Error [] (replicate n Again) cfg false w in
  size (pools w') = (size p + n + 1)%nat /\
  match gorm with
  | Ok _ => exists pg, r = Ok pg /\
      exists e w'', postgresql.Close pg w' = Some (e, w'') /\ size (pools w'') = (size p + n)%nat
  | Err _ => is_ok r = false
  end.
Proof.
  intros Hv n w. unfold postgresql.NewWithConfig. rewrite Hv, !bind_eq. simpl. rewrite ?bind_eq.
  destruct (connectToDB_leaks (postgresql.getDSN cfg false) es a b (gorm :: rest) p c st)
    as (id & p' & Hc & Hid & Hsz). fold w n in Hc. rewrite Hc. simpl. rewrite ?bind_eq, ?call_answers.
  destruct gorm as [g|err]; simpl; split; try done.
  eexists. split; [done|]. unfold postgresql.Close, ClosePool. simpl.
  assert (Hdel : size (delete id p') = (size p + n)%nat).
  { rewrite map_size_delete_Some by (by eexists). unfold n. lia. }
  destruct (call (MkWorld rest p' c st)) as [e w1] eqn:Hcall.
  do 2 eexists. split; [done|].
  pose proof (call_same (MkWorld rest p' c st)) as Hs. rewrite Hcall in Hs. destruct Hs as [Hs _].
  simpl in *. by rewrite Hs.
Qed.

Definition somePg : postgresql.Config :=
  postgresql.MkConfig (lit "db") 5432 (lit "app") (lit "secret") (lit "shop") true.

Lemma postgres_leaks_pools_witness :
  let w := MkWorld [Ok false; Err (ForeignError 1); Ok false; Err (ForeignError 2);
                    Ok false; Ok false; Err (ForeignError 3)] ∅ ∅ [] in
  let '(r, w') := postgresql.NewWithConfig (fun _ => []) [] [Again; Again] somePg false w in
  size (pools w') = 3%nat /\ is_ok r = false.
Proof.
  pose proof (postgres_leaks_pools (fun _ => []) somePg [ForeignError 1; ForeignError 2] false false
           (Err (ForeignError 3)) [] ∅ ∅ [] eq_refl) as H.
  vm_compute in H. vm_compute. exact H.
Defined.

(** ** CREATE DATABASE *)

(** A reader for quoted SQL identifiers: a quote, then bytes and doubled
    quotes, up to a single quote. *)
Fixpoint read_quoted (q : Byte.byte) (s : bytes) : option (bytes * bytes) :=
  match s with
  | [] => None
  | c :: s' =>
    if bool_decide (c = q) then
      match s' with
      | c' :: s'' => if bool_decide (c' = q) then (fun r => (q :: r.1, r.2)) <$> read_quoted q s'' else Some ([], s')
      | [] => Some ([], [])
      end
    else (fun r => (c :: r.1, r.2)) <$> read_quoted q s'
  end.

Definition read_ident (q : Byte.byte) (s : bytes) : option (bytes * bytes) :=
  match s with
  | c :: s' => if bool_decide (c = q) then read_quoted q s' else None
  | [] => None
  end.

Lemma double_cons q c s : double q (c :: s) = (if bool_decide (c = q) then [c; c] else [c]) ++ double q s.
Proof. reflexivity. Qed.

Lemma read_quote_ident q s : read_ident q (quote_ident q s) = Some (s, []).
Proof.
  unfold read_ident, quote_ident. simpl. rewrite bool_decide_true by done.
  induction s as [|c s IH].
  - simpl. by rewrite bool_decide_true by done.
  - rewrite double_cons. case_bool_decide as Hc; simpl.
    + subst. rewrite !bool_decide_true by done. by rewrite IH.
    + rewrite bool_decide_false by done. by rewrite IH.
Qed.

(** The statements a computation adds, all of them such that [P]. *)
Definition sends {A} (m : io world A) (P : bytes -> Prop) : Prop := forall w, exists sent,
  statements (m w).2 = statements w ++ sent /\ Forall (fun x => P x.2) sent.

Section Sends.
Context (P : bytes -> Prop).

Lemma sends_none {A} (m : io world A) : (forall w, statements (m w).2 = statements w) -> sends m P.
Proof. intros H w. exists []. rewrite app_nil_r. split; [apply H|done]. Qed.

Lemma sends_ret {A} (a : A) : sends (mret a) P.
Proof. by apply sends_none. Qed.

Lemma sends_bind {A B} (m : io world A) (f : A -> io world B) :
  sends m P -> (forall a, sends (f a) P) -> sends (m ≫= f) P.
Proof.
  intros Hm Hf w. rewrite bind_eq. destruct (Hm w) as (s1 & H1 & F1).
  destruct (Hf (m w).1 (m w).2) as (s2 & H2 & F2). exists (s1 ++ s2).
  split; [by rewrite H2, H1, app_assoc|by apply Forall_app].
Qed.

Lemma sends_answer : sends answer P.
Proof. apply sends_none. intros w. unfold answer. by destruct (answers w). Qed.

Lemma sends_call : sends call P.
Proof. apply sends_bind; [apply sends_answer|intros; apply sends_ret]. Qed.

Lemma sends_close id : sends (ClosePool id) P.
Proof.
  intros w. destruct (sends_call w) as (s & H & F). exists s. unfold ClosePool.
  by destruct (call w).
Qed.

Lemma sends_exec id q : P q -> sends (ExecContext id q) P.
Proof.
  intros Hq w. destruct (sends_call w) as (s & H & F). exists (s ++ [(id, q)]). unfold ExecContext.
  destruct (call w) as [e w1]. simpl in *. split; [by rewrite H, app_assoc|].
  apply Forall_app. split; [done|]. by constructor.
Qed.

Lemma sends_open c : sends (OpenDB c) P.
Proof. by apply sends_none. Qed.

Lemma sends_retry {A} ds (op : io world (gores A)) : sends op P -> sends (Retry ds op) P.
Proof.
  intros Hop. induction ds as [|[|cause] ds IH]; (apply sends_bind; [done|]);
    intros [a|e]; try apply sends_ret; done.
Qed.
End Sends.

Create HintDb sends.
#[export] Hint Resolve sends_ret sends_answer sends_call sends_close sends_open : sends.

(** The statement is the creation of exactly this name. *)
Definition creates (prefix : bytes) (q : Byte.byte) (name stmt : bytes) : Prop :=
  exists ident, stmt = prefix ++ ident /\ read_ident q ident = Some (name, []).

Lemma creates_quote prefix q name : creates prefix q name (prefix ++ quote_ident q name).
Proof. eexists. split; [done|apply read_quote_ident]. Qed.

(** Follows the code call by call. *)
Ltac sends_steps :=
  repeat match goal with
  | |- sends (_ ≫= _) _ => apply sends_bind
  | |- sends (Retry _ _) _ => apply sends_retry
  | |- sends (ExecContext _ _) _ => apply sends_exec, creates_quote
  | |- sends (match ?x with _ => _ end) _ => destruct x
  | |- sends _ _ => solve [eauto with sends]
  | |- forall _, sends _ _ => intros ?
  end.

(** The only statements database creation ever sends create the configured
    database, whatever bytes its name has: read back by the quoting rules of the
    dialect, the identifier is the name and nothing follows it. *)
Theorem create_database_quoting ds :
  (forall cfg, sends (mysql.ensureDatabaseExists ds cfg)
     (creates (lit "CREATE DATABASE IF NOT EXISTS ") mysql.BACKTICK (mysql.Database cfg))) /\
  (forall Error cfg, sends (postgresql.ensureDatabaseExists Error ds cfg)
     (creates (lit "CREATE DATABASE ") postgresql.DQUOTE (postgresql.Database cfg))).
Proof.
  split.
  - intros cfg. set (P := creates _ _ _). unfold mysql.ensureDatabaseExists, mysql.connect.
    sends_steps.
  - intros Error cfg. set (P := creates _ _ _).
    unfold postgresql.ensureDatabaseExists, postgresql.connectToDB, Open, postgresql.databaseExists,
      postgresql.createDatabase.
    sends_steps.
Qed.

(** The DSN of postgresql does not determine the configuration: its values
    are not escaped, so a password may be read as part of the user name and the
    other way round, both configurations being valid. *)
Theorem getDSN_ambiguous host port user pw1 pw2 database ssl system :
  let c1 := postgresql.MkConfig host port user (pw1 ++ lit " password=" ++ pw2) database ssl in
  let c2 := postgresql.MkConfig host port (user ++ lit " password=" ++ pw1) pw2 database ssl in
  postgresql.getDSN c1 system = postgresql.getDSN c2 system /\ c1 <> c2 /\
  (host <> [] -> port <> 0 -> user <> [] -> pw2 <> [] -> database <> [] ->
   postgresql.validate c1 = None /\ postgresql.validate c2 = None).
Proof.
  intros c1 c2. split_and!.
  - unfold postgresql.getDSN. simpl. by rewrite <- !app_assoc.
  - intros [= H _]. apply (f_equal length) in H. rewrite !length_app in H. simpl in H. lia.
  - intros H1 H2 H3 H4 H5. unfold postgresql.validate. simpl.
    rewrite (proj2 (Z.eqb_neq port 0) H2).
    destruct host, user, pw2, database; simpl; try done. by destruct pw1.
Qed.
