(* ===== verification/NatsMq.v ===== *)
(** * mq/nats: the message queue over NATS JetStream

    New connects and makes sure that the configured streams exist; Subscribe
    reads messages, hands them to the handler and acknowledges those it
    accepts.

    nats.go and the server are outside.  For New they are the record of
    operations [JetStream] with the laws [JetStreamLaws] (nobody else changes
    the streams meanwhile).  For Subscribe they are the sequence of what
    NextMsgWithContext returns, any sequence; where it ends, the loop is still
    waiting. *)

From stdpp Require Import base option list gmap strings.
From Stdlib Require Import ZArith Lia.
From Stdlib.Strings Require Byte.
From S2P Require Import Prelude GoErrors Utf8 Json MqSse.

Open Scope Z_scope.

(** ** stream_config.go *)

(** StorageType and RetentionPolicy are int types with named constants. *)
Definition MemoryStorage : Z := 0.
Definition FileStorage : Z := 1.

Definition InterestRetention : Z := 0.
Definition WorkQueueRetention : Z := 1.
Definition LimitsRetention : Z := 2.

Record StreamConfig : Type := MkStreamConfig {
  Name : bytes; SubjectBase : bytes; MaxAge : Z; Storage : Z; Retention : Z
}.

Definition DOT : Byte.byte := Byte.x2e.

(** strings.Join(parts, ".") is [join DOT]. *)
Definition BuildSubject (c : StreamConfig) (parts : list bytes) : bytes :=
  SubjectBase c ++ [DOT] ++ join DOT parts.

(** ** nats.go, as far as it is used *)

Inductive natsStorage : Type := NatsFileStorage | NatsMemoryStorage.
Inductive natsRetention : Type := LimitsPolicy | InterestPolicy | WorkQueuePolicy.

Record natsStream : Type := MkNatsStream {
  NName : bytes; Subjects : list bytes; NStorage : natsStorage; NRetention : natsRetention; NMaxAge : Z
}.

Definition ErrStreamNotFound : string := "nats: stream not found".

Record JetStream (W : Type) : Type := MkJetStream {
  Connect : bytes -> io W (gores nat);
  conn_JetStream : nat -> io W (option error);
  conn_Close : nat -> io W unit;
  StreamInfo : bytes -> io W (option error);
  AddStream : natsStream -> io W (option error);
  js_Publish : bytes -> bytes -> io W (option error)
}.
Arguments Connect {W} _ _.
Arguments conn_JetStream {W} _ _.
Arguments conn_Close {W} _ _.
Arguments StreamInfo {W} _ _.
Arguments AddStream {W} _ _.
Arguments js_Publish {W} _ _ _.

(** ** natsmq.go: New, Close, Publish *)

Definition ErrEmptyURL : error := Sentinel "empty nats url".
Definition defaultMaxAge : Z := 24 * Hour.

Record Client : Type := MkClient { conn : nat; group : bytes }.

Definition retentionToNATS (r : Z) : natsRetention :=
  if r =? InterestRetention then InterestPolicy
  else if r =? WorkQueueRetention then WorkQueuePolicy
  else if r =? LimitsRetention then LimitsPolicy
  else InterestPolicy.

(** The configuration ensureStream creates the stream with. *)
Definition natsConfig (config : StreamConfig) : natsStream :=
  MkNatsStream (Name config) [SubjectBase config ++ lit ".>"]
    (if Storage config =? FileStorage then NatsFileStorage else NatsMemoryStorage)
    (retentionToNATS (Retention config))
    (if MaxAge config =? 0 then defaultMaxAge else MaxAge config).

Section Client.
Context {W : Type} (js : JetStream W).

Definition ensureStream (config : StreamConfig) : io W (option error) :=
  e ← StreamInfo js (Name config);
  match e with
  | None => mret None
  | Some err =>
    if negb (ctxerrors.Is err ErrStreamNotFound)
    then mret (ctxerrors.Wrap (Some err) "get stream info")
    else
      e ← AddStream js (natsConfig config);
      mret (ctxerrors.Wrap e "create stream")
  end.

(** The loop of New; it stops at the first failure. *)
Fixpoint ensureStreams (streams : list StreamConfig) : io W (option error) :=
  match streams with
  | [] => mret None
  | s :: rest =>
    e ← ensureStream s;
    match e with
    | Some err => mret (ctxerrors.Wrap (Some err) ("ensure stream " +:+ String.string_of_list_byte (Name s)))
    | None => ensureStreams rest
    end
  end.

Definition New (url grp : bytes) (streams : list StreamConfig) : io W (gores Client) :=
  match url with
  | [] => mret (Err ErrEmptyURL)
  | _ =>
    r ← Connect js url;
    match r with
    | Err err => mret (Err (ctxerrors.WrapE err "nats connect"))
    | Ok c =>
      e ← conn_JetStream js c;
      match e with
      | Some err =>
        _ ← conn_Close js c;
        mret (Err (ctxerrors.WrapE err "jetstream context"))
      | None =>
        e ← ensureStreams streams;
        match e with
        | Some err =>
          _ ← conn_Close js c;
          mret (Err err)
        | None => mret (Ok (MkClient c grp))
        end
      end
    end
  end.

Definition Close (c : Client) : io W (option error) :=
  _ ← conn_Close js (conn c);
  mret None.

(** Publish; [v] is what json.Marshal gives: the JSON form, or an error. *)
Definition Publish (topic : bytes) (v : gores json) : io W (option error) :=
  match v with
  | Err err => mret (ctxerrors.Wrap (Some err) "marshal publish data")
  | Ok v =>
    e ← js_Publish js topic (Marshal v);
    mret (ctxerrors.Wrap e "jetstream publish")
  end.
End Client.

(** ** natsmq.go: Subscribe *)

(** What NextMsgWithContext returns: a message with what its Ack will return,
    or an error with the state of the context at that time. *)
Inductive arrival : Type :=
| Msg (id : nat) (data : bytes) (ackErr : option error)
| NextErr (err : error) (ctxErr : option error).

(** What Unsubscribe does: the subscription is removed; or it returns an error, the
    subscription kept (the connection is closed or draining, say) or removed (the consumer
    could not be deleted). *)
Inductive unsubscribed : Type :=
| Removed
| Failed (err : error) (kept : bool).

(** The messages msg.Ack was called on, whatever it returned, the subscriptions (topic
    and queue group), the errors logged and the state [S] of the handler. *)
Record world (S : Type) : Type := MkWorld {
  acks : list nat;
  subs : gmap nat (bytes * option bytes);
  logged : list (string * error);
  user : S
}.
Arguments MkWorld {S} _ _ _ _.
Arguments logged {S} _.
Arguments acks {S} _.
Arguments subs {S} _.
Arguments user {S} _.

Definition Canceled : string := "context canceled".
Definition DeadlineExceeded : string := "context deadline exceeded".

Section Subscribe.
Context {S : Type}.
Implicit Types (w : world S).

Definition msg_Ack (id : nat) (ackErr : option error) : io (world S) (option error) := fun w =>
  (ackErr, MkWorld (acks w ++ [id]) (subs w) (logged w) (user w)).

(** slog.Error *)
Definition slog_Error (msg : string) (e : option error) w : world S :=
  MkWorld (acks w) (subs w) (logged w ++ option_list (pair msg <$> e)) (user w).

(** consumeLoop; [None] while it waits for the next message. *)
Fixpoint consumeLoop (next : list arrival) (h : Handler (world S)) w : option (option error) * world S :=
  match next with
  | [] => (None, w)
  | NextErr err ctxErr :: _ =>
    if ctxerrors.IsOpt ctxErr Canceled || ctxerrors.IsOpt ctxErr DeadlineExceeded
    then (Some None, w)
    else (Some (ctxerrors.Wrap (Some err) "next message"), w)
  | Msg id data ackErr :: rest =>
    let m := NewMessage data (msg_Ack id ackErr) in
    let '(e, w) := h m w in
    match e with
    | Some _ => consumeLoop rest h w
    | None => let '(e, w) := Ack m w in consumeLoop rest h (slog_Error "ack failed" e w)
    end
  end.

(** subscribe, always with DeliverAll and AckExplicit; [refused] is the error of (Queue)SubscribeSync, if any. *)
Definition subscribe (c : Client) (refused : option error) (topic : bytes) : io (world S) (gores nat) := fun w =>
  match refused with
  | Some err =>
    (Err (ctxerrors.WrapE err (match group c with [] => "subscribe sync" | _ => "queue subscribe" end)), w)
  | None =>
    let id := fresh (dom (subs w)) in
    (Ok id, MkWorld (acks w) (<[id := (topic, match group c with [] => None | g => Some g end)]> (subs w)) (logged w) (user w))
  end.

(** sub.Unsubscribe *)
Definition Unsubscribe (u : unsubscribed) (id : nat) : io (world S) (option error) := fun w =>
  let removed := MkWorld (acks w) (delete id (subs w)) (logged w) (user w) in
  match u with
  | Removed => (None, removed)
  | Failed err kept => (Some err, if kept then w else removed)
  end.

(** Subscribe; the deferred function runs when consumeLoop has returned. *)
Definition Subscribe (c : Client) (refused : option error) (topic : bytes) (next : list arrival) (u : unsubscribed)
    (h : Handler (world S)) w : option (option error) * world S :=
  let '(r, w) := subscribe c refused topic w in
  match r with
  | Err err => (Some (ctxerrors.Wrap (Some err) "jetstream subscribe"), w)
  | Ok sub =>
    let '(res, w) := consumeLoop next h w in
    match res with
    | None => (None, w)
    | Some e =>
      let '(err, w) := Unsubscribe u sub w in
      (Some e, slog_Error "unsubscribe failed" err w)
    end
  end.
End Subscribe.

(** ** New makes sure of the streams *)

Class JetStreamLaws {W : Type} (js : JetStream W) : Type := {
  conns : W -> gset nat;
  stream : W -> bytes -> option natsStream;
  Connect_law url w r w' : Connect js url w = (r, w') ->
    stream w' = stream w /\
    match r with
    | Ok c => c ∉ conns w /\ conns w' = {[c]} ∪ conns w
    | Err _ => conns w' = conns w
    end;
  JetStream_law c w e w' : conn_JetStream js c w = (e, w') -> stream w' = stream w /\ conns w' = conns w;
  Close_law c w u w' : conn_Close js c w = (u, w') -> stream w' = stream w /\ conns w' = conns w ∖ {[c]};
  StreamInfo_law n w e w' : StreamInfo js n w = (e, w') ->
    stream w' = stream w /\ conns w' = conns w /\
    match e with
    | None => is_Some (stream w n)
    | Some err => ctxerrors.Is err ErrStreamNotFound = true -> stream w n = None
    end;
  AddStream_law c w e w' : AddStream js c w = (e, w') ->
    conns w' = conns w /\ (forall n, n <> NName c -> stream w' n = stream w n) /\
    (e = None -> stream w' (NName c) = Some c)
}.

(** What a name stands for once the streams are ensured: what it stood for, or
    the first configuration of that name. *)
Fixpoint ensured (streams : list StreamConfig) (n : bytes) (before : option natsStream) : option natsStream :=
  match before, streams with
  | Some x, _ => Some x
  | None, [] => None
  | None, s :: rest => if decide (Name s = n) then Some (natsConfig s) else ensured rest n None
  end.

Lemma ensured_some streams n x : ensured streams n (Some x) = Some x.
Proof. by destruct streams. Qed.

Section NewProofs.
Context {W : Type} (js : JetStream W) {JL : JetStreamLaws js}.

Lemma ensureStream_spec s w e w' : ensureStream js s w = (e, w') ->
  conns w' = conns w /\ (forall n x, stream w n = Some x -> stream w' n = Some x) /\
  (e = None -> forall n, stream w' n = ensured [s] n (stream w n)).
Proof.
  unfold ensureStream, mbind, io_bind, mret, io_ret.
  destruct (StreamInfo js (Name s) w) as [e1 w1] eqn:E1.
  apply StreamInfo_law in E1 as (Hs1 & Hc1 & H1). destruct e1 as [err|].
  - destruct (ctxerrors.Is err ErrStreamNotFound); simpl; [|intros [= <- <-]; by rewrite Hs1].
    destruct (AddStream js (natsConfig s) w1) as [e2 w2] eqn:E2.
    apply AddStream_law in E2 as (Hc2 & Ho & Hn). specialize (H1 eq_refl). intros [= <- <-].
    rewrite Hs1 in Ho. split; [congruence|]. split.
    + intros n x Hx. rewrite Ho; [done|]. intros ->. simpl in Hx. congruence.
    + intros He. destruct e2; [done|]. intros n. simpl. destruct (decide (Name s = n)) as [<-|Hne].
      * rewrite H1. by apply Hn.
      * rewrite Ho by done. by destruct (stream w n).
  - intros [= <- <-]. rewrite Hs1. split; [done|]. split; [done|]. intros _ n. destruct H1 as [x Hx]. simpl.
    destruct (stream w n) eqn:En; [done|]. destruct (decide (Name s = n)) as [<-|]; congruence.
Qed.

Lemma ensured_cons s rest n b : ensured rest n (ensured [s] n b) = ensured (s :: rest) n b.
Proof. destruct b; simpl; [apply ensured_some|]. destruct (decide (Name s = n)); [apply ensured_some|done]. Qed.

Lemma ensureStreams_spec streams : forall w e w', ensureStreams js streams w = (e, w') ->
  conns w' = conns w /\ (forall n x, stream w n = Some x -> stream w' n = Some x) /\
  (e = None -> forall n, stream w' n = ensured streams n (stream w n)).
Proof.
  induction streams as [|s rest IH]; intros w e w'; simpl.
  - intros [= <- <-]. split_and!; [done..|]. intros _ n. by destruct (stream w n).
  - unfold mbind, io_bind. destruct (ensureStream js s w) as [e1 w1] eqn:E1.
    apply ensureStream_spec in E1 as (Hc1 & Hk1 & Hn1). destruct e1 as [err|].
    + intros [= <- <-]. by split_and!.
    + intros H. apply IH in H as (Hc & Hk & Hn). split_and!; [congruence|by auto|].
      intros -> n. rewrite (Hn eq_refl), (Hn1 eq_refl). apply ensured_cons.
Qed.
End NewProofs.

(** NATS subjects: tokens between dots; in a filter, a star stands for one
    token and a final greater-than sign for one or more. *)
Fixpoint tokens_of (s : bytes) : list bytes :=
  match s with
  | [] => [[]]
  | c :: s' =>
    if bool_decide (c = DOT) then [] :: tokens_of s'
    else match tokens_of s' with t :: ts => (c :: t) :: ts | [] => [[c]] end
  end.

Fixpoint filter_matches (f s : list bytes) : bool :=
  match f, s with
  | [], [] => true
  | p :: f', t :: s' =>
    bool_decide (p = lit ">") || ((bool_decide (p = lit "*") || bool_decide (p = t)) && filter_matches f' s')
  | _, _ => false
  end.

Lemma tokens_app a b : tokens_of (a ++ DOT :: b) = tokens_of a ++ tokens_of b.
Proof.
  induction a as [|c a IH]; [done|]. cbn [app tokens_of]. case_bool_decide; [by rewrite IH|].
  rewrite IH. destruct (tokens_of a) eqn:E; [|done]. destruct a; simpl in E; [done|].
  repeat case_match; done.
Qed.

Lemma tokens_nonempty a : exists t ts, tokens_of a = t :: ts.
Proof. destruct a as [|c a]; simpl; repeat case_match; eauto. Qed.

Lemma filter_matches_self ts s : s <> [] -> filter_matches (ts ++ [lit ">"]) (ts ++ s) = true.
Proof.
  intros Hs. induction ts as [|t ts IH]; simpl; [by destruct s|].
  rewrite (bool_decide_true (t = t)), IH by done. by rewrite !orb_true_r.
Qed.

Lemma BuildSubject_matches s parts :
  Forall (fun f => filter_matches (tokens_of f) (tokens_of (BuildSubject s parts)) = true)
    (Subjects (natsConfig s)).
Proof.
  simpl. constructor; [|done]. unfold BuildSubject. change (lit ".>") with (DOT :: lit ">").
  cbn [app]. rewrite !tokens_app. change (tokens_of (lit ">")) with [lit ">"]. apply filter_matches_self.
  by destruct (tokens_nonempty (join DOT parts)) as (t & ts & ->).
Qed.

(** C29. New either fails and holds no connection, or returns a client on one
    new connection with every configured stream in place: a stream that existed
    is left as it was (on every path), a missing one has been created from the
    first configuration of its name, with the default maximum age when none is
    set, and no other stream appears.  Subjects built by BuildSubject are covered
    by the created stream.  An empty URL is refused without a call. *)
Theorem nats_new_ensures_streams {W} (js : JetStream W) {JL : JetStreamLaws js} url grp streams w r w' :
  New js url grp streams w = (r, w') ->
  (forall n x, stream w n = Some x -> stream w' n = Some x) /\
  (url = [] -> r = Err ErrEmptyURL /\ w' = w) /\
  match r with
  | Ok c => group c = grp /\ conn c ∉ conns w /\ conns w' = {[conn c]} ∪ conns w /\
      (forall n, stream w' n = ensured streams n (stream w n)) /\
      (forall s parts, s ∈ streams ->
         Forall (fun f => filter_matches (tokens_of f) (tokens_of (BuildSubject s parts)) = true)
           (Subjects (natsConfig s)))
  | Err _ => conns w' = conns w
  end.
Proof.
  unfold New, mbind, io_bind, mret, io_ret. destruct url as [|u url]; [by intros [= <- <-]|].
  destruct (Connect js _ w) as [r1 w1] eqn:E1. apply Connect_law in E1 as [Hs1 Hc1].
  destruct r1 as [c|err]; [|intros [= <- <-]; rewrite Hs1; by split_and!].
  destruct Hc1 as [Hfresh Hc1].
  destruct (conn_JetStream js c w1) as [e2 w2] eqn:E2. apply JetStream_law in E2 as [Hs2 Hc2].
  assert (Hback : conns w2 ∖ {[c]} = conns w) by (rewrite Hc2, Hc1; set_solver).
  destruct e2 as [err|].
  { destruct (conn_Close js c w2) as [u3 w3] eqn:E3. apply Close_law in E3 as [Hs3 Hc3].
    intros [= <- <-]. split_and!; [intros n x; by rewrite Hs3, Hs2, Hs1|done|congruence]. }
  destruct (ensureStreams js streams w2) as [e3 w3] eqn:E3.
  apply (ensureStreams_spec js) in E3 as (Hc3 & Hk3 & Hn3). rewrite Hs2, Hs1 in Hk3, Hn3.
  destruct e3 as [err|].
  - destruct (conn_Close js c w3) as [u4 w4] eqn:E4. apply Close_law in E4 as [Hs4 Hc4].
    intros [= <- <-]. split_and!; [intros n x; rewrite Hs4; apply Hk3|done|congruence].
  - intros [= <- <-]. split_and!; [done..|simpl; congruence|by apply Hn3|].
    intros s parts _. apply BuildSubject_matches.
Qed.

(** ** Subscribe acknowledges exactly what was handled *)

(** A handler of the caller's that works on its own state and leaves the
    acknowledgement to the loop. *)
Definition plain {S} (f : bytes -> S -> option error * S) : Handler (world S) := fun m w =>
  let '(e, s) := f (MData m) (user w) in (e, MkWorld (acks w) (subs w) (logged w) s).

(** The messages before the first error of NextMsgWithContext, and that error. *)
Fixpoint messages (next : list arrival) : list (nat * bytes) :=
  match next with
  | Msg id data _ :: rest => (id, data) :: messages rest
  | _ => []
  end.

Fixpoint stopped_by (next : list arrival) : option (error * option error) :=
  match next with
  | [] => None
  | Msg _ _ _ :: rest => stopped_by rest
  | NextErr err ctxErr :: _ => Some (err, ctxErr)
  end.

(** The handler applied to the messages in order. *)
Fixpoint handle_all {S} (f : bytes -> S -> option error * S) (s : S) (datas : list bytes)
  : list (option error) * S :=
  match datas with
  | [] => ([], s)
  | d :: rest => let '(e, s) := f d s in let '(es, s) := handle_all f s rest in (e :: es, s)
  end.

Definition accepted (ms : list (nat * bytes)) (es : list (option error)) : list nat :=
  omap (fun p => match p.2 with None => Some p.1.1 | Some _ => None end) (zip ms es).

(** The acknowledgements of accepted messages that failed, as they are logged. *)
Fixpoint ack_errors (next : list arrival) (es : list (option error)) : list (string * error) :=
  match next, es with
  | Msg _ _ ackErr :: rest, e :: es' =>
    (match e with None => option_list (pair "ack failed"%string <$> ackErr) | Some _ => [] end) ++ ack_errors rest es'
  | _, _ => []
  end.

Definition loop_result (stop : option (error * option error)) : option (option error) :=
  (fun '(err, ctxErr) =>
     if ctxerrors.IsOpt ctxErr Canceled || ctxerrors.IsOpt ctxErr DeadlineExceeded then None
     else Some (ctxerrors.WrapE err "next message")) <$> stop.

Lemma consumeLoop_spec {S} (f : bytes -> S -> option error * S) next : forall w,
  consumeLoop next (plain f) w =
  let '(es, s) := handle_all f (user w) (messages next).*2 in
  (loop_result (stopped_by next),
   MkWorld (acks w ++ accepted (messages next) es) (subs w) (logged w ++ ack_errors next es) s).
Proof.
  induction next as [|[id data ackErr|err ctxErr] rest IH]; intros w; simpl.
  - rewrite !app_nil_r. by destruct w.
  - unfold plain at 1. simpl. destruct (f data (user w)) as [[e|] s1]; simpl; rewrite IH; simpl;
      destruct (handle_all f s1 _) as [es s]; simpl; [done|]. by rewrite <- !app_assoc.
  - unfold loop_result, accepted. simpl. rewrite !app_nil_r. destruct w. by case_match.
Qed.

(** C30. Subscribe with a handler that leaves the acknowledgements to it hands every
    message to the handler once, in order, and calls msg.Ack exactly on those it returns nil
    for, in order; a failing acknowledgement is logged, and neither it nor a failing handler
    stops the loop.  It returns nil exactly when it stopped because the context was
    cancelled or ran out, and an error when NextMsgWithContext failed otherwise.  While it
    waits it holds one subscription: in the client's queue group when it has one, a
    plain one otherwise.  When it returns it has called Unsubscribe: the subscription is
    gone if that succeeded; if not, the error is only logged, Subscribe returns what it
    would have, and the subscription may stay. *)
Theorem nats_subscribe_acks {S} (f : bytes -> S -> option error * S) c refused topic next u (w : world S) :
  let '(res, w') := Subscribe c refused topic next u (plain f) w in
  let '(es, s) := handle_all f (user w) (messages next).*2 in
  match refused with
  | Some _ => w' = w /\ exists e, res = Some (Some e)
  | None =>
    acks w' = acks w ++ accepted (messages next) es /\ user w' = s /\
    res = loop_result (stopped_by next) /\
    exists id, subs w !! id = None /\
    let held := <[id := (topic, if decide (group c = []) then None else Some (group c))]> (subs w) in
    match res, u with
    | None, _ => subs w' = held /\ logged w' = logged w ++ ack_errors next es
    | Some _, Removed => subs w' = subs w /\ logged w' = logged w ++ ack_errors next es
    | Some _, Failed err kept =>
      subs w' = (if kept then held else subs w) /\
      logged w' = logged w ++ ack_errors next es ++ [("unsubscribe failed"%string, err)]
    end
  end.
Proof.
  unfold Subscribe, subscribe. destruct refused as [err|].
  { destruct (handle_all _ _ _). split; [done|]. by eexists. }
  rewrite consumeLoop_spec. simpl. destruct (handle_all f (user w) _) as [es s].
  assert (Hfresh : subs w !! fresh (dom (subs w)) = None) by apply not_elem_of_dom, is_fresh.
  assert (Hg : (if decide (group c = []) then None else Some (group c)) = match group c with [] => None | g => Some g end)
    by (by destruct (group c)).
  destruct (loop_result (stopped_by next)) as [e|], u as [|err []]; simpl;
    rewrite ?app_nil_r, <- ?app_assoc; (split; [done|]); (split; [done|]); (split; [done|]);
    exists (fresh (dom (subs w))); rewrite ?Hg; (split; [done|]); split; try done; by apply delete_insert_id.
Qed.

(** ** A server *)

Module Server.
(** Streams and connections, and a schedule of calls that fail. *)
Record server : Type := MkServer {
  s_conns : gset nat; s_streams : gmap bytes natsStream; s_faults : list bool
}.

Definition fault : io server (option error) := fun w =>
  match s_faults w with
  | [] => (None, w)
  | x :: rest => (if x then Some (ForeignError 5) else None, MkServer (s_conns w) (s_streams w) rest)
  end.

Definition s_connect (url : bytes) : io server (gores nat) := fun w =>
  let '(e, w) := fault w in
  match e with
  | Some err => (Err err, w)
  | None => let c := fresh (s_conns w) in (Ok c, MkServer ({[c]} ∪ s_conns w) (s_streams w) (s_faults w))
  end.

Definition s_info (n : bytes) : io server (option error) := fun w =>
  match s_streams w !! n with
  | Some _ => fault w
  | None => (Some (Sentinel ErrStreamNotFound), w)
  end.

Definition s_add (c : natsStream) : io server (option error) := fun w =>
  let '(e, w) := fault w in
  match e with
  | Some err => (Some err, w)
  | None => (None, MkServer (s_conns w) (<[NName c := c]> (s_streams w)) (s_faults w))
  end.

Definition server_js : JetStream server :=
  MkJetStream _ s_connect (fun _ => fault)
    (fun c w => ((), MkServer (s_conns w ∖ {[c]}) (s_streams w) (s_faults w)))
    s_info s_add (fun _ _ => fault).

Lemma fault_keeps w e w' : fault w = (e, w') ->
  s_streams w' = s_streams w /\ s_conns w' = s_conns w /\ (e = None \/ e = Some (ForeignError 5)).
Proof. unfold fault. destruct (s_faults w) as [|[] ?]; intros [= <- <-]; auto. Qed.

#[export] Program Instance server_laws : JetStreamLaws server_js :=
  { conns w := s_conns w; stream w n := s_streams w !! n }.
Next Obligation.
  intros url w r w' H. simpl in H. unfold s_connect in H. destruct (fault w) as [e w1] eqn:E.
  apply fault_keeps in E as (Hs & Hc & _). destruct e; simplify_eq; simpl; rewrite Hs; [done|].
  split; [done|]. split; [rewrite <- Hc; apply is_fresh|by rewrite Hc].
Qed.
Next Obligation. intros c w e w' H. simpl in H. by apply fault_keeps in H as (-> & -> & _). Qed.
Next Obligation. intros c w u w' H. simpl in H. by simplify_eq. Qed.
Next Obligation.
  intros n w e w' H. simpl in H. unfold s_info in H. destruct (s_streams w !! n) as [x|] eqn:E.
  - apply fault_keeps in H as (-> & -> & [-> | ->]); rewrite ?E; by eauto.
  - by simplify_eq.
Qed.
Next Obligation.
  intros c w e w' H. simpl in H. unfold s_add in H. destruct (fault w) as [e1 w1] eqn:E.
  apply fault_keeps in E as (Hs & Hc & _). destruct e1; simplify_eq; simpl; rewrite Hs, ?Hc; [done|].
  split; [done|]. split; [intros n Hn; by rewrite lookup_insert_ne by done|]. intros _. by rewrite lookup_insert_eq.
Qed.
End Server.
#[export] Existing Instance Server.server_laws.

Definition demo_stream : StreamConfig := MkStreamConfig (lit "ORDERS") (lit "orders") 0 1 2.

Lemma nats_new_ensures_streams_witness :
  Server.s_streams (New Server.server_js (lit "nats://x") (lit "g") [demo_stream] (Server.MkServer ∅ ∅ [false])).2
    !! lit "ORDERS" = Some (natsConfig demo_stream).
Proof.
  destruct (New Server.server_js (lit "nats://x") (lit "g") [demo_stream] (Server.MkServer ∅ ∅ [false]))
    as [r w'] eqn:E.
  pose proof (nats_new_ensures_streams Server.server_js _ _ _ _ _ _ E) as (_ & _ & H).
  vm_compute in E. injection E as <- <-. destruct H as (_ & _ & _ & H & _). exact (H (lit "ORDERS")).
Defined.
