(* ===== verification/Delivery.v ===== *)
(** * From the text streamer to a subscriber

    The composition of three packages: llm/mqsse publishes a streamed answer on a
    mq.Publisher, mq/nats implements it over JetStream, and a subscriber of mq/nats
    decodes the messages with mq's Message.Decode.

    JetStream stores a message whose publish it acknowledges; a publish that
    reports an error may have been stored, too (the acknowledgement was lost), or
    not.  [nats_queue] is the client of mq/nats as a queue for mqsse; next to the
    server's world it keeps an account of what was acknowledged, which the code does
    not read. *)

From stdpp Require Import base option list gmap strings.
From Stdlib Require Import ZArith Lia.
From Stdlib.Strings Require Byte.
From S2P Require Import Prelude GoErrors Utf8 Json GoJson GoDecode MqSse NatsMq.

Open Scope Z_scope.

Class JetStreamLog {W} (js : JetStream W) : Type := {
  stored : W -> list (bytes * bytes);
  js_Publish_law topic data w e w' : js_Publish js topic data w = (e, w') ->
    stored w' = stored w ++ [(topic, data)] \/ (is_Some e /\ stored w' = stored w)
}.

Record account : Type := MkAccount { acked : list (bytes * json); failed : bool }.

Definition nats_publish {W} (js : JetStream W) (topic : bytes) (v : json) : io (W * account) (option error) :=
  fun '(w, a) =>
    let '(e, w') := NatsMq.Publish js topic (Ok v) w in
    (e, (w', match e with
             | None => MkAccount (acked a ++ [(topic, v)]) (failed a)
             | Some _ => MkAccount (acked a) true
             end)).

Definition nats_queue {W} (js : JetStream W) : MQ (W * account) := MkMQ _ (nats_publish js).

#[export] Program Instance nats_queue_laws {W} (js : JetStream W) : MQLaws (nats_queue js) :=
  { delivered wa := acked wa.2 }.
Next Obligation.
  intros W js topic v [w a] e [w' a'] H. cbn [mq_Publish nats_queue nats_publish] in H.
  destruct (NatsMq.Publish js topic (Ok v) w) as [e1 w1]. by destruct e1; simplify_eq.
Qed.

(** ** Invariants of a streamer's runs *)

Section RunInvariant.
Context {W : Type} (q : MQ W) (p : MqSse.Publisher).
(** [I] survives every publish of a good payload, [J] every one that succeeds. *)
Context (good : payload -> Prop) (I J : W -> Prop).
Context (HI : forall d w, good d -> I w -> I (publish_payload q p (payload_type d) d w).2).
Context (HJ : forall d w w', publish_payload q p (payload_type d) d w = (None, w') -> J w -> J w').
Context (Hstart : forall i, int64_range i -> good (text_start i)) (Hstop : forall i, int64_range i -> good (block_stop i)).
Context (Hdelta : forall i t, int64_range i -> valid t = true -> good (text_delta i t)).

Definition on_topic (s : TextStreamer) : Prop := publisher s = Some p /\ int64_range (BlockIndex s).

Definition step_keeps (s : TextStreamer) (w : W) (e : option error) (s' : TextStreamer) (w' : W) : Prop :=
  on_topic s' /\ I w' /\ (e = None -> J w -> J w').

Lemma publish_keeps d w e w' : good d -> I w -> publish_payload q p (payload_type d) d w = (e, w') ->
  I w' /\ (e = None -> J w -> J w').
Proof.
  intros Hd Hw E. pose proof (HI d w Hd Hw) as H. rewrite E in H. split; [done|]. intros ->. by apply (HJ d).
Qed.

Lemma WriteChunk_keeps t s w e s' w' :
  valid t = true -> on_topic s -> I w -> WriteChunk q t (s, w) = (e, (s', w')) -> step_keeps s w e s' w'.
Proof.
  intros Ht [Hp Hi] Hw H. unfold WriteChunk in H. destruct t as [|b t']; [by simplify_eq|]. set (t := b :: t') in *.
  cbn [publisher blockStarted] in H. rewrite Hp in H. cbn [publisher blockStarted BlockIndex messageBuilder] in H.
  unfold mbind, io_bind, mret, io_ret in H. destruct (blockStarted s); cbn [negb] in H.
  - rewrite lift_spec in H. destruct (SendContentBlockDeltaText q p (BlockIndex s) t w) as [e1 w1] eqn:E1.
    destruct (publish_keeps (text_delta (BlockIndex s) t) w e1 w1 (Hdelta _ _ Hi Ht) Hw E1) as [Hw1 HJ1].
    simplify_eq. split; [done|]. split; [done|]. intros He. apply HJ1. by destruct e1.
  - rewrite lift_spec in H. destruct (SendContentBlockStartText q p (BlockIndex s) w) as [e1 w1] eqn:E1.
    destruct (publish_keeps (text_start (BlockIndex s)) w e1 w1 (Hstart _ Hi) Hw E1) as [Hw1 HJ1].
    destruct e1 as [e1|]; [by simplify_eq|]. unfold set_started in H. rewrite lift_spec in H.
    destruct (SendContentBlockDeltaText q p (BlockIndex s) t w1) as [e2 w2] eqn:E2.
    destruct (publish_keeps (text_delta (BlockIndex s) t) w1 e2 w2 (Hdelta _ _ Hi Ht) Hw1 E2) as [Hw2 HJ2].
    simplify_eq. split; [done|]. split; [done|]. intros He HJw. apply HJ2; [by destruct e2|by apply HJ1].
Qed.

Lemma CloseBlock_keeps s w e s' w' :
  on_topic s -> I w -> CloseBlock q (s, w) = (e, (s', w')) -> step_keeps s w e s' w'.
Proof.
  intros [Hp Hi] Hw H. unfold CloseBlock in H. destruct (blockStarted s); cbn [negb] in H; [|by simplify_eq].
  rewrite Hp in H. destruct (SendContentBlockStop q p (BlockIndex s) w) as [e1 w1] eqn:E1.
  destruct (publish_keeps (block_stop (BlockIndex s)) w e1 w1 (Hstop _ Hi) Hw E1) as [Hw1 HJ1].
  destruct e1 as [e1|]; simplify_eq; (split; [|by split]); split; simpl; auto using wrap64_range.
Qed.

Lemma run_ops_keeps ops : forall s w es s' w',
  Forall (fun o => valid (chunk o) = true) ops -> on_topic s -> I w ->
  run_ops q ops (s, w) = (es, (s', w')) ->
  I w' /\ (Forall (fun e => e = None) es -> J w -> J w').
Proof.
  induction ops as [|o ops IH]; intros s w es s' w' Hv Hs Hw H; cbn [run_ops] in H; [by simplify_eq|].
  apply Forall_cons in Hv as [Ho Hv]. destruct (run_op q o (s, w)) as [e [s1 w1]] eqn:E1.
  destruct (run_ops q ops (s1, w1)) as [es' [s2 w2]] eqn:E2. simplify_eq.
  assert (step_keeps s w e s1 w1) as (Hs1 & Hw1 & HJ1).
  { destruct o as [t|]; [by eapply WriteChunk_keeps|by eapply CloseBlock_keeps]. }
  destruct (IH _ _ _ _ _ Hv Hs1 Hw1 E2) as [Hw2 HJ2]. split; [done|]. intros [-> Hes]%Forall_cons HJw. auto.
Qed.
End RunInvariant.

(** ** What the stream holds *)

(** A payload as an event on the wire. *)
Definition payload_event (d : payload) : bytes * bytes := (payload_type d, Marshal (payload_json d)).
Definition wire (p : MqSse.Publisher) (d : payload) : bytes * bytes := (topic p, Marshal (event_of p d).2).

(** Payloads a subscriber can decode. *)
Definition good (d : payload) : Prop := sendable d /\ utf8_json (payload_json d) = true.

Section Stored.
Context {W : Type} (js : JetStream W) {JL : JetStreamLog js} (p : MqSse.Publisher) (w0 : W).

(** The stream has grown by the events of payloads [ds]; those that were
    acknowledged are among them, in order, and all of them when no publish
    failed. *)
Record consistent (wa : W * account) (ds as_ : list payload) : Prop := {
  c_stored : stored wa.1 = stored w0 ++ (wire p <$> ds);
  c_good : Forall good ds;
  c_acked : acked wa.2 = events p as_;
  c_sub : as_ `sublist_of` ds;
  c_all : failed wa.2 = false -> as_ = ds
}.

Definition kept (wa : W * account) : Prop := exists ds as_, consistent wa ds as_.

Lemma publish_payload_unfold d wa :
  publish_payload (nats_queue js) p (payload_type d) d wa =
  let '(e, wa') := nats_publish js (topic p) (event_of p d).2 wa in
  (match e with Some err => ctxerrors.Wrap (Some err) "publish event" | None => None end, wa').
Proof. done. Qed.

Lemma kept_publish d wa : good d -> kept wa -> kept (publish_payload (nats_queue js) p (payload_type d) d wa).2.
Proof.
  intros Hd (ds & as_ & [Hst Hgo Hac Hsu Hal]). rewrite publish_payload_unfold. destruct wa as [w a].
  unfold nats_publish, NatsMq.Publish, mbind, io_bind, mret, io_ret. simpl in Hst, Hac, Hal.
  destruct (js_Publish js (topic p) (Marshal (event_of p d).2) w) as [e w'] eqn:E.
  apply js_Publish_law in E. destruct e as [e|]; cbn [ctxerrors.Wrap ctxerrors.wrap snd].
  - destruct E as [E|[_ E]].
    + exists (ds ++ [d]), as_. split; cbn [fst snd acked failed]; try done.
      * by rewrite E, Hst, fmap_app, <- app_assoc.
      * by apply Forall_app_2; [|apply Forall_singleton].
      * by apply sublist_inserts_r.
    + exists ds, as_. split; cbn [fst snd acked failed]; try done. by rewrite E.
  - destruct E as [E|[[x Hx] _]]; [|done].
    exists (ds ++ [d]), (as_ ++ [d]). split; cbn [fst snd acked failed].
    + by rewrite E, Hst, fmap_app, <- app_assoc.
    + by apply Forall_app_2; [|apply Forall_singleton].
    + by rewrite Hac, events_app.
    + by apply sublist_app.
    + intros Hf. by rewrite Hal.
Qed.

Lemma not_failed_publish d wa wa' :
  publish_payload (nats_queue js) p (payload_type d) d wa = (None, wa') -> failed wa.2 = false -> failed wa'.2 = false.
Proof.
  rewrite publish_payload_unfold. destruct wa as [w a]. unfold nats_publish.
  destruct (NatsMq.Publish js (topic p) (Ok (event_of p d).2) w) as [[e|] w']; intros [= <-]; done.
Qed.
End Stored.

Lemma good_start i : int64_range i -> good (text_start i).
Proof. intros Hi. split; [exact Hi|reflexivity]. Qed.
Lemma good_stop i : int64_range i -> good (block_stop i).
Proof. intros Hi. split; [exact Hi|reflexivity]. Qed.
Lemma good_delta i t : int64_range i -> valid t = true -> good (text_delta i t).
Proof. intros Hi Ht. split; [exact Hi|]. cbn [utf8_json payload_json text_delta forallb jfield TDType TDText]. by rewrite Ht. Qed.

Lemma run_ops_kept {W} (js : JetStream W) {JL : JetStreamLog js} p start ops w0 es s w' a' :
  int64_range start -> Forall (fun o => valid (chunk o) = true) ops ->
  run_ops (nats_queue js) ops (NewTextStreamer (Some p) start, (w0, MkAccount [] false)) = (es, (s, (w', a'))) ->
  kept js p w0 (w', a') /\ (Forall (fun e => e = None) es -> failed a' = false).
Proof.
  intros Hr Hv H.
  destruct (run_ops_keeps (nats_queue js) p good (kept js p w0) (fun wa => failed wa.2 = false)
    (kept_publish js p w0) (not_failed_publish js p) good_start good_stop good_delta ops
    (NewTextStreamer (Some p) start) (w0, MkAccount [] false) es s (w', a')) as [Hk Hf]; try done.
  - exists [], []. split; try done. simpl. by rewrite app_nil_r.
  - split; [done|]. intros He. by apply Hf.
Qed.

(** ** A subscriber that collects events *)

(** The handler decodes the message into an Event and keeps its two fields; a
    message it cannot decode is not acknowledged. *)
Definition collect (data : bytes) (evs : list (bytes * bytes)) : option error * list (bytes * bytes) :=
  match Message_Decode (NewMessage data (fun w : unit => (None, w))) (Pointer Event_type (zero Event_type)) with
  | (None, Pointer _ (VStruct [VString n; VString d])) => (None, evs ++ [(n, d)])
  | (e, _) => (e, evs)
  end.

Lemma collect_wire p d evs : good d -> collect (wire p d).2 evs = (None, evs ++ [payload_event d]).
Proof.
  intros [_ Hu]. unfold collect, Message_Decode. cbn [NewMessage MData wire snd event_of].
  by rewrite Unmarshal_event by (by apply payload_type_valid || by apply Marshal_valid).
Qed.

Lemma handle_all_wire p ds : forall evs, Forall good ds ->
  handle_all collect evs (wire p <$> ds).*2 = (replicate (length ds) None, evs ++ (payload_event <$> ds)).
Proof.
  induction ds as [|d ds IH]; intros evs Hd; [by rewrite app_nil_r|]. apply Forall_cons in Hd as [Hd Hds].
  cbn [fmap list_fmap handle_all]. rewrite collect_wire by done. fold (fmap (M := list) (wire p) ds).
  rewrite IH by done. cbn [length replicate]. by rewrite <- app_assoc.
Qed.

Lemma accepted_all ms : accepted ms (replicate (length ms) None) = ms.*1.
Proof. unfold accepted. induction ms as [|[i d] ms IH]; [done|]. cbn. by f_equal. Qed.

Lemma filter_topic p (ds : list payload) : filter (fun m => m.1 = topic p) (wire p <$> ds) = wire p <$> ds.
Proof. apply filter_all. intros x (d & -> & _)%list_elem_of_fmap. done. Qed.

Lemma events_payload_event p (ds ds' : list payload) : events p ds = events p ds' -> payload_event <$> ds = payload_event <$> ds'.
Proof.
  revert ds'. induction ds as [|d ds IH]; intros [|d' ds'] H; try done. cbn in H. unfold event_of, event_json in H.
  injection H as H1 H2 H3. cbn. unfold payload_event at 1 3. by rewrite H1, H2, (IH _ H3).
Qed.

(** The subscriber gets every event of the wire. *)
Lemma subscriber_collects (c : NatsMq.Client) p next u (cw : world (list (bytes * bytes))) ds :
  Forall good ds -> (messages next).*2 = (wire p <$> ds).*2 ->
  let '(res, cw') := Subscribe c None (topic p) next u (plain collect) cw in
  res = loop_result (stopped_by next) /\ acks cw' = acks cw ++ (messages next).*1 /\
  user cw' = user cw ++ (payload_event <$> ds).
Proof.
  intros Hgo Hnext. unfold Subscribe, subscribe. rewrite consumeLoop_spec. cbn [user acks subs].
  rewrite Hnext, handle_all_wire by done.
  assert (length ds = length (messages next)) as ->.
  { apply (f_equal length) in Hnext. by rewrite !length_fmap in Hnext. }
  rewrite accepted_all. by destruct (loop_result (stopped_by next)), u as [|err []].
Qed.

(** C25. From the streamer to the subscriber.  For any sequence of WriteChunk and
    CloseBlock calls with chunks of valid UTF-8 on a TextStreamer over mq/nats, with
    publishes failing anywhere (a failed one stored or not), on a topic on which the stream
    holds nothing yet, and a subscriber of mq/nats on that topic that is
    handed what the stream then holds on it, in order: the subscriber can decode and
    acknowledges every message; the events it gets contain, in order, the block
    protocol of the calls that were acknowledged, and each event's data decodes
    into the Go struct of its payload; and when no call failed the events are
    exactly the protocol, whose deltas concatenate to Text. *)
Theorem stream_delivered {W} (js : JetStream W) {JL : JetStreamLog js} p start ops w0 es s w' a'
    (c : NatsMq.Client) next u (cw : world (list (bytes * bytes))) :
  int64_range start -> start + Z.of_nat (length ops) < 2 ^ 63 ->
  Forall (fun o => valid (chunk o) = true) ops ->
  run_ops (nats_queue js) ops (NewTextStreamer (Some p) start, (w0, MkAccount [] false)) = (es, (s, (w', a'))) ->
  filter (fun m => m.1 = topic p) (stored w0) = [] ->
  (messages next).*2 = (filter (fun m => m.1 = topic p) (stored w')).*2 ->
  let '(res, cw') := Subscribe c None (topic p) next u (plain collect) cw in
  exists ds blocks open,
    res = loop_result (stopped_by next) /\
    acks cw' = acks cw ++ (messages next).*1 /\
    user cw' = user cw ++ (payload_event <$> ds) /\
    Forall (fun d => Unmarshal (payload_event d).2 (Pointer (payload_gotype d) (zero (payload_gotype d)))
                     = (None, Pointer (payload_gotype d) (payload_val d))) ds /\
    (payload_event <$> MqSse.stream start blocks open) `sublist_of` (payload_event <$> ds) /\
    (Forall (fun e => e = None) es ->
     payload_event <$> ds = payload_event <$> MqSse.stream start blocks open /\
     concat (concat blocks ++ default [] open) = Text s).
Proof.
  intros Hr Hb Hv H Hempty Hnext.
  destruct (run_ops_kept js p start ops w0 es s w' a' Hr Hv H) as [(ds & as_ & [Hst Hgo Hac Hsu Hal]) Hf].
  destruct (run_ops_streamed (nats_queue js) p start (w0, MkAccount [] false) ops [] None
    (NewTextStreamer (Some p) start) (w0, MkAccount [] false) es s (w', a') Hr) as (blocks & open & Hs & Hm & Hc);
    [simpl; lia|split; try done; simpl; lia|done|].
  cbn [fst snd] in *. destruct Hs as [_ _ _ Hlog]. cbn [delivered nats_queue_laws snd acked app] in Hlog.
  assert (Hev : payload_event <$> as_ = payload_event <$> MqSse.stream start blocks open).
  { apply (events_payload_event p). by rewrite <- Hac. }
  rewrite Hst, filter_app, Hempty, filter_topic in Hnext. cbn [app] in Hnext.
  pose proof (subscriber_collects c p next u cw ds Hgo Hnext) as Hsub.
  destruct (Subscribe c None (topic p) next u (plain collect) cw) as [res cw']. destruct Hsub as (Hres & Hacks & Huser).
  exists ds, blocks, open. split; [done|]. split; [done|]. split; [done|]. split.
  - eapply Forall_impl; [exact Hgo|]. intros d [Hd Hu]. by apply Unmarshal_payload.
  - split; [rewrite <- Hev; by apply fmap_sublist|]. intros He. split.
    + rewrite <- Hev. by rewrite (Hal (Hf He)).
    + rewrite (Hc He). unfold Text. by rewrite Hm.
Qed.

(** ** A server that loses acknowledgements *)

Module Lossy.
(** What a publish meets: nothing, a refusal, or a lost acknowledgement. *)
Inductive fault : Type := Fine | Refused | AckLost.

Record server : Type := MkServer { log : list (bytes * bytes); faults : list fault }.

Definition publish (topic data : bytes) : io server (option error) := fun w =>
  let stored_log := log w ++ [(topic, data)] in
  match faults w with
  | Refused :: rest => (Some (ForeignError 5), MkServer (log w) rest)
  | AckLost :: rest => (Some (ForeignError 6), MkServer stored_log rest)
  | Fine :: rest => (None, MkServer stored_log rest)
  | [] => (None, MkServer stored_log [])
  end.

Definition js : JetStream server :=
  MkJetStream _ (fun _ w => (Ok O, w)) (fun _ w => (None, w)) (fun _ w => ((), w)) (fun _ w => (None, w))
    (fun _ w => (None, w)) publish.

#[export] Program Instance js_log : JetStreamLog js := { stored w := log w }.
Next Obligation.
  intros topic data w e w' H. cbn in H. unfold publish in H.
  destruct (faults w) as [|[] rest]; simplify_eq; simpl; eauto.
Qed.
End Lossy.
#[export] Existing Instance Lossy.js_log.

Definition demo_topic : MqSse.Publisher := NewPublisher (lit "t").
Definition demo_run :=
  run_ops (nats_queue Lossy.js) demo_ops
    (NewTextStreamer (Some demo_topic) 3, (Lossy.MkServer [] [Lossy.Fine; Lossy.AckLost], MkAccount [] false)).

(** The subscriber's arrivals: what the demo left in the stream, then a cancelled
    context. *)
Definition demo_next : list arrival :=
  ((fun m => Msg (length m.2) m.2 None) <$> stored demo_run.2.2.1)
  ++ [NextErr (ForeignError 1) (Some (Sentinel Canceled))].

Definition demo_client : NatsMq.Client := MkClient 0 [].

Lemma stream_delivered_witness :
  exists ds blocks open,
    user (Subscribe demo_client None (lit "t") demo_next Removed (plain collect) (MkWorld [] ∅ [] [])).2
    = [] ++ (payload_event <$> ds) /\
    (payload_event <$> MqSse.stream 3 blocks open) `sublist_of` (payload_event <$> ds).
Proof.
  pose proof (stream_delivered Lossy.js demo_topic 3 demo_ops (Lossy.MkServer [] [Lossy.Fine; Lossy.AckLost])
    demo_run.1 demo_run.2.1 demo_run.2.2.1 demo_run.2.2.2 demo_client demo_next Removed (MkWorld [] ∅ [] [])) as H.
  destruct (Subscribe demo_client None (topic demo_topic) demo_next Removed (plain collect) (MkWorld [] ∅ [] [])) as [res cw'] eqn:E.
  assert (E' : cw' = (Subscribe demo_client None (lit "t") demo_next Removed (plain collect) (MkWorld [] ∅ [] [])).2)
    by (change (lit "t") with (topic demo_topic); by rewrite E).
  rewrite <- E'. destruct H as (ds & blocks & open & _ & _ & Hu & _ & Hs & _).
  - unfold int64_range. lia.
  - simpl. lia.
  - repeat constructor.
  - unfold demo_run. destruct (run_ops _ _ _) as [? [? [? ?]]]. reflexivity.
  - reflexivity.
  - vm_compute. reflexivity.
  - exists ds, blocks, open. split; [exact Hu|exact Hs].
Defined.
