(* ===== verification/ClaudeCode.v ===== *)
(** * ai/claudecode/client.go: the Claude Code HTTP client

    Every method builds one request, sends it and maps the response to a result
    or an error.  The server is an argument: any function from the requests it
    has seen and the next one to a response or a transport failure.  The world
    keeps what was sent and the response bodies that are still open.

    http.NewRequestWithContext's refusal of a URL is an argument, too.  Responses
    are decoded as encoding/json does it, into records that mirror the Go structs;
    [repr] relates the two.  Logging is left out. *)

From stdpp Require Import base option list gmap strings.
From Stdlib Require Import ZArith Lia SpecFloat.
From Stdlib.Strings Require Byte.
From S2P Require Import Prelude GoErrors Utf8 Json GoJson GoDecode.

Open Scope Z_scope.

Definition defaultTimeout : Z := 5 * Minute.
Definition defaultModel : bytes := lit "haiku".

Definition HeaderContentType : bytes := lit "Content-Type".
Definition ContentTypeJSON : bytes := lit "application/json".
Definition HeaderAuthorization : bytes := lit "Authorization".
Definition AuthSchemeBearer : bytes := lit "Bearer ".

(** Client, with the timeout of its HTTP client. *)
Record Client : Type := MkClient { baseURL : bytes; token : bytes; timeout : Z }.

Definition Option_ : Type := Client -> Client.
Definition WithToken (t : bytes) : Option_ := fun c => MkClient (baseURL c) t (timeout c).
Definition WithTimeout (d : Z) : Option_ := fun c => MkClient (baseURL c) (token c) d.

Definition New (base : bytes) (opts : list Option_) : Client :=
  foldl (fun c opt => opt c) (MkClient (TrimRightSlash base) [] defaultTimeout) opts.

Record RunRequest : Type := MkRunRequest {
  Prompt : bytes; Workspace : bytes; Model : bytes; SystemPrompt : bytes; AppendSystemPrompt : bytes;
  JSONSchema : bytes; Effort : bytes; OutputFormat : bytes; NoContinue : bool; Resume : bytes;
  FireAndForget : bool
}.

(** The fields of a Go struct from a Go field. *)
Local Abbreviation fld n R F := (fcons (lit n) false R F).
Local Abbreviation opt n R F := (fcons (lit n) true R F).

Definition repr_RunRequest : repr RunRequest :=
  repr_struct
    (fld "prompt" repr_string (opt "workspace" repr_string (opt "model" repr_string
    (opt "systemPrompt" repr_string (opt "appendSystemPrompt" repr_string (opt "jsonSchema" repr_string
    (opt "effort" repr_string (opt "outputFormat" repr_string (opt "noContinue" repr_bool
    (opt "resume" repr_string (opt "fireAndForget" repr_bool fnil)))))))))))
    (fun r => (Prompt r, (Workspace r, (Model r, (SystemPrompt r, (AppendSystemPrompt r, (JSONSchema r,
              (Effort r, (OutputFormat r, (NoContinue r, (Resume r, (FireAndForget r, tt))))))))))))
    (fun '(a, (b, (c, (d, (e, (f, (g, (h, (i, (j, (k, _))))))))))) => MkRunRequest a b c d e f g h i j k)
    ltac:(by intros []).

(** ** What the server answers *)

Record Usage : Type := MkUsage {
  InputTokens : Z; OutputTokens : Z; CacheCreationTokens : Z; CacheReadTokens : Z
}.

Definition repr_Usage : repr Usage :=
  repr_struct
    (fld "inputTokens" repr_int (fld "outputTokens" repr_int (opt "cacheCreationInputTokens" repr_int
    (opt "cacheReadInputTokens" repr_int fnil))))
    (fun u => (InputTokens u, (OutputTokens u, (CacheCreationTokens u, (CacheReadTokens u, tt)))))
    (fun '(a, (b, (c, (d, _)))) => MkUsage a b c d) ltac:(by intros []).

Record ModelUsage : Type := MkModelUsage {
  MInputTokens : Z; MOutputTokens : Z; MCacheReadTokens : Z; MCacheCreationTokens : Z;
  CostUSD : spec_float; ContextWindow : Z; MaxOutputTokens : Z
}.

Definition repr_ModelUsage : repr ModelUsage :=
  repr_struct
    (fld "inputTokens" repr_int (fld "outputTokens" repr_int (opt "cacheReadInputTokens" repr_int
    (opt "cacheCreationInputTokens" repr_int (opt "costUSD" repr_float (opt "contextWindow" repr_int
    (opt "maxOutputTokens" repr_int fnil)))))))
    (fun u => (MInputTokens u, (MOutputTokens u, (MCacheReadTokens u, (MCacheCreationTokens u,
              (CostUSD u, (ContextWindow u, (MaxOutputTokens u, tt))))))))
    (fun '(a, (b, (c, (d, (e, (f, (g, _))))))) => MkModelUsage a b c d e f g) ltac:(by intros []).

Record ToolUse : Type := MkToolUse { ToolID : bytes; ToolName : bytes; ToolInput : option bytes }.

Definition repr_ToolUse : repr ToolUse :=
  repr_struct (fld "id" repr_string (fld "name" repr_string (fld "input" repr_raw fnil)))
    (fun t => (ToolID t, (ToolName t, (ToolInput t, tt)))) (fun '(a, (b, (c, _))) => MkToolUse a b c)
    ltac:(by intros []).

Record Iteration : Type := MkIteration {
  TurnNumber : Z; IContent : option bytes; ToolUses : option (list ToolUse); IUsage : option Usage
}.

Definition repr_Iteration : repr Iteration :=
  repr_struct
    (fld "turnNumber" repr_int (fld "content" repr_raw (opt "toolUses" (repr_slice repr_ToolUse)
    (opt "usage" (repr_ptr repr_Usage) fnil))))
    (fun i => (TurnNumber i, (IContent i, (ToolUses i, (IUsage i, tt)))))
    (fun '(a, (b, (c, (d, _)))) => MkIteration a b c d) ltac:(by intros []).

Record VerboseTurn : Type := MkVerboseTurn { TurnRole : bytes; TurnContent : option (list (option bytes)) }.

Definition repr_VerboseTurn : repr VerboseTurn :=
  repr_struct (fld "role" repr_string (fld "content" (repr_slice repr_raw) fnil))
    (fun t => (TurnRole t, (TurnContent t, tt))) (fun '(a, (b, _)) => MkVerboseTurn a b) ltac:(by intros []).

Record VerboseSystem : Type := MkVerboseSystem {
  VSessionID : bytes; VModel : bytes; Cwd : bytes; Tools : option (list bytes)
}.

Definition repr_VerboseSystem : repr VerboseSystem :=
  repr_struct
    (fld "sessionId" repr_string (fld "model" repr_string (fld "cwd" repr_string
    (fld "tools" (repr_slice repr_string) fnil))))
    (fun s => (VSessionID s, (VModel s, (Cwd s, (Tools s, tt)))))
    (fun '(a, (b, (c, (d, _)))) => MkVerboseSystem a b c d) ltac:(by intros []).

Record RunResult : Type := MkRunResult {
  RType : bytes; Subtype : bytes; IsError : bool; Result : bytes; NumTurns : Z; DurationMS : Z;
  TotalCost : spec_float; SessionID : bytes; RUsage : option Usage;
  RModelUsage : option (list (bytes * ModelUsage)); PermissionDenials : option (list bytes);
  Iterations : option (list Iteration); Turns : option (list VerboseTurn); System : option VerboseSystem
}.

Definition repr_RunResult : repr RunResult :=
  repr_struct
    (fld "type" repr_string (opt "subtype" repr_string (fld "isError" repr_bool (fld "result" repr_string
    (fld "numTurns" repr_int (fld "durationMs" repr_int (fld "totalCostUsd" repr_float
    (fld "sessionId" repr_string (opt "usage" (repr_ptr repr_Usage)
    (opt "modelUsage" (repr_map repr_ModelUsage) (opt "permissionDenials" (repr_slice repr_string)
    (opt "iterations" (repr_slice repr_Iteration) (opt "turns" (repr_slice repr_VerboseTurn)
    (opt "system" (repr_ptr repr_VerboseSystem) fnil))))))))))))))
    (fun r => (RType r, (Subtype r, (IsError r, (Result r, (NumTurns r, (DurationMS r, (TotalCost r,
              (SessionID r, (RUsage r, (RModelUsage r, (PermissionDenials r, (Iterations r, (Turns r,
              (System r, tt)))))))))))))))
    (fun '(a, (b, (c, (d, (e, (f, (g, (h, (i, (j, (k, (l, (m, (n, _)))))))))))))) =>
       MkRunResult a b c d e f g h i j k l m n)
    ltac:(by intros []).

Record FileInfo : Type := MkFileInfo { FStatus : bytes; FPath : bytes; FSize : Z }.

Definition repr_FileInfo : repr FileInfo :=
  repr_struct (fld "status" repr_string (fld "path" repr_string (fld "size" repr_int fnil)))
    (fun f => (FStatus f, (FPath f, (FSize f, tt)))) (fun '(a, (b, (c, _))) => MkFileInfo a b c)
    ltac:(by intros []).

(** ** Runner, and any sequence of calls of it *)

(** The interface, over a world [W]. *)
Record Runner (W : Type) : Type := MkRunner {
  r_Run : RunRequest -> io W (gores RunResult);
  r_UploadFile : bytes -> bytes -> io W (gores FileInfo);
  r_DownloadFile : bytes -> io W (gores bytes);
  r_DeleteFile : bytes -> io W (gores unit);
  r_Health : io W (gores unit)
}.
Arguments r_Run {W} _ _.
Arguments r_UploadFile {W} _ _ _.
Arguments r_DownloadFile {W} _ _.
Arguments r_DeleteFile {W} _ _.
Arguments r_Health {W} _.

Inductive call : Type :=
| CallRun (req : RunRequest)
| CallUpload (filePath content : bytes)
| CallDownload (filePath : bytes)
| CallDelete (filePath : bytes)
| CallHealth.

Inductive outcome : Type :=
| Ran (r : RunResult) | Uploaded (i : FileInfo) | Downloaded (data : bytes) | Done.

Definition map_ok {A B} (f : A -> B) (r : gores A) : gores B :=
  match r with Ok a => Ok (f a) | Err e => Err e end.

Definition perform {W} (R : Runner W) (x : call) : io W (gores outcome) :=
  match x with
  | CallRun req => r ← r_Run R req; mret (map_ok Ran r)
  | CallUpload p d => r ← r_UploadFile R p d; mret (map_ok Uploaded r)
  | CallDownload p => r ← r_DownloadFile R p; mret (map_ok Downloaded r)
  | CallDelete p => r ← r_DeleteFile R p; mret (map_ok (fun _ => Done) r)
  | CallHealth => r ← r_Health R; mret (map_ok (fun _ => Done) r)
  end.

Fixpoint performs {W} (R : Runner W) (xs : list call) : io W (list (gores outcome)) :=
  match xs with
  | [] => mret []
  | x :: rest => r ← perform R x; rs ← performs R rest; mret (r :: rs)
  end.

(** ** The exchange *)

Record request : Type := MkRequest {
  method : bytes; reqURL : bytes; headers : list (bytes * bytes); body : bytes
}.

(** A response: the status and its body as a stream. *)
Record reply : Type := MkReply { StatusCode : Z; Body : reader }.

Record world : Type := MkWorld { sent : list request; unclosed : gset nat }.

Definition StatusOK : Z := 200.
Definition StatusNotFound : Z := 404.

(** [omitempty] drops empty strings and false. *)
Definition field_str (name : string) (s : bytes) : list (bytes * json) :=
  match s with [] => [] | _ => [(lit name, JStr s)] end.
Definition field_bool (name : string) (b : bool) : list (bytes * json) :=
  if b then [(lit name, JBool true)] else [].

Definition run_json (r : RunRequest) : json := JObj
  ((lit "prompt", JStr (Prompt r)) :: field_str "workspace" (Workspace r) ++ field_str "model" (Model r)
   ++ field_str "systemPrompt" (SystemPrompt r) ++ field_str "appendSystemPrompt" (AppendSystemPrompt r)
   ++ field_str "jsonSchema" (JSONSchema r) ++ field_str "effort" (Effort r)
   ++ field_str "outputFormat" (OutputFormat r) ++ field_bool "noContinue" (NoContinue r)
   ++ field_str "resume" (Resume r) ++ field_bool "fireAndForget" (FireAndForget r)).

Definition setHeaders (c : Client) : list (bytes * bytes) :=
  (HeaderContentType, ContentTypeJSON) ::
  match token c with [] => [] | t => [(HeaderAuthorization, AuthSchemeBearer ++ t)] end.

Definition filesURL (c : Client) (path : bytes) : bytes :=
  baseURL c ++ lit "/files/" ++ drop_slashes path.

Definition text (s : bytes) : string := String.string_of_list_byte s.

(** fmt.Sprintf("<what>: HTTP %d", status) *)
Definition http_error (what : string) (status : Z) : error :=
  ctxerrors.New (what +:+ ": HTTP " +:+ text (marshal_int status)).

(** json.NewDecoder(resp.Body).Decode into a new value; the value exists by
    [DecodeNew_total]. *)
Definition decode_body {A} (R : repr A) (b : reader) : gores A :=
  match DecodeNew R b with
  | Ok (Some a) => Ok a
  | Ok None => Err (UnmarshalTypeError "unreachable")
  | Err err => Err err
  end.

Section Client.
Context (serve : list request -> request -> gores reply).
Context (badURL : bytes -> option error).

(** httpClient.Do: a response leaves its body open. *)
Definition Do (r : request) : io world (gores (nat * reply)) := fun w =>
  let sent' := sent w ++ [r] in
  match serve (sent w) r with
  | Err err => (Err err, MkWorld sent' (unclosed w))
  | Ok rep =>
    let id := fresh (unclosed w) in
    (Ok (id, rep), MkWorld sent' ({[id]} ∪ unclosed w))
  end.

Definition CloseBody (id : nat) : io world unit := fun w =>
  ((), MkWorld (sent w) (unclosed w ∖ {[id]})).

(** What the methods share: the request is built and sent, the response is
    judged, its body closed. *)
Definition exchange {B} (createMsg doMsg : string) (r : request) (judge : reply -> gores B)
  : io world (gores B) :=
  match badURL (reqURL r) with
  | Some err => mret (Err (ctxerrors.WrapE err createMsg))
  | None =>
    x ← Do r;
    match x with
    | Err err => mret (Err (ctxerrors.WrapE err doMsg))
    | Ok (id, resp) =>
      let res := judge resp in
      _ ← CloseBody id;
      mret res
    end
  end.

Definition with_model (req : RunRequest) : RunRequest :=
  match Model req with
  | [] => MkRunRequest (Prompt req) (Workspace req) defaultModel (SystemPrompt req) (AppendSystemPrompt req)
            (JSONSchema req) (Effort req) (OutputFormat req) (NoContinue req) (Resume req) (FireAndForget req)
  | _ => req
  end.

Definition judgeRun (resp : reply) : gores RunResult :=
  if negb (StatusCode resp =? StatusOK)
  then Err (ctxerrors.New ("run failed: HTTP " +:+ text (marshal_int (StatusCode resp)) +:+ ": "
                           +:+ text (ReadAll (Body resp)).1))
  else match decode_body repr_RunResult (Body resp) with
       | Err err => Err (ctxerrors.WrapE err "decode run result")
       | Ok result => Ok result
       end.

(** Marshalling a RunRequest cannot fail: it is made of strings and booleans. *)
Definition Run (c : Client) (req : RunRequest) : io world (gores RunResult) :=
  exchange "create run request" "execute run request"
    (MkRequest (lit "POST") (baseURL c ++ lit "/run") (setHeaders c) (Marshal (run_json (with_model req))))
    judgeRun.

Definition judgeUpload (resp : reply) : gores FileInfo :=
  if negb (StatusCode resp =? StatusOK) then Err (http_error "upload failed" (StatusCode resp))
  else match decode_body repr_FileInfo (Body resp) with
       | Err err => Err (ctxerrors.WrapE err "decode upload response")
       | Ok info => Ok info
       end.

Definition UploadFile (c : Client) (filePath content : bytes) : io world (gores FileInfo) :=
  exchange "create upload request" "upload file"
    (MkRequest (lit "PUT") (filesURL c filePath) (setHeaders c) content) judgeUpload.

Definition judgeDownload (filePath : bytes) (resp : reply) : gores bytes :=
  if StatusCode resp =? StatusNotFound then Err (ctxerrors.New ("file not found: " +:+ text filePath))
  else if negb (StatusCode resp =? StatusOK) then Err (http_error "download failed" (StatusCode resp))
  else match ReadAll (Body resp) with
       | (_, Some err) => Err (ctxerrors.WrapE err "read file body")
       | (data, None) => Ok data
       end.

Definition DownloadFile (c : Client) (filePath : bytes) : io world (gores bytes) :=
  exchange "create download request" "download file"
    (MkRequest (lit "GET") (filesURL c filePath) (setHeaders c) []) (judgeDownload filePath).

Definition judgeStatus (what : string) (resp : reply) : gores unit :=
  if negb (StatusCode resp =? StatusOK) then Err (http_error what (StatusCode resp)) else Ok ().

Definition DeleteFile (c : Client) (filePath : bytes) : io world (gores unit) :=
  exchange "create delete request" "delete file"
    (MkRequest (lit "DELETE") (filesURL c filePath) (setHeaders c) []) (judgeStatus "delete failed").

(** Health sends no headers, the token neither. *)
Definition Health (c : Client) : io world (gores unit) :=
  exchange "create health request" "health check"
    (MkRequest (lit "GET") (baseURL c ++ lit "/health") [] []) (judgeStatus "health check failed").

(** Client implements Runner. *)
Definition Client_Runner (c : Client) : Runner world :=
  MkRunner _ (Run c) (UploadFile c) (DownloadFile c) (DeleteFile c) (Health c).

(** The request of a call. *)
Definition request_of (c : Client) (x : call) : request :=
  match x with
  | CallRun req => MkRequest (lit "POST") (baseURL c ++ lit "/run") (setHeaders c) (Marshal (run_json (with_model req)))
  | CallUpload p d => MkRequest (lit "PUT") (filesURL c p) (setHeaders c) d
  | CallDownload p => MkRequest (lit "GET") (filesURL c p) (setHeaders c) []
  | CallDelete p => MkRequest (lit "DELETE") (filesURL c p) (setHeaders c) []
  | CallHealth => MkRequest (lit "GET") (baseURL c ++ lit "/health") [] []
  end.

(** The response lets the call succeed with this outcome. *)
Definition succeeds (x : call) (resp : reply) (o : outcome) : Prop :=
  StatusCode resp = StatusOK /\
  match x, o with
  | CallRun _, Ran r => decode_body repr_RunResult (Body resp) = Ok r
  | CallUpload _ _, Uploaded i => decode_body repr_FileInfo (Body resp) = Ok i
  | CallDownload _, Downloaded d => Body resp = MkReader d None
  | (CallDelete _ | CallHealth), Done => True
  | _, _ => False
  end.

(** What a call does: the request goes out unless its URL is refused, no body
    stays open, and the call succeeds exactly when the response says so. *)
Definition performed (c : Client) (x : call) (seen : list request) (r : gores outcome) : Prop :=
  match badURL (reqURL (request_of c x)) with
  | Some _ => is_ok r = false
  | None =>
    match serve seen (request_of c x) with
    | Err _ => is_ok r = false
    | Ok resp => forall o, r = Ok o <-> succeeds x resp o
    end
  end.

Definition goes_out (c : Client) (x : call) : list request :=
  match badURL (reqURL (request_of c x)) with Some _ => [] | None => [request_of c x] end.

Lemma exchange_spec {B} m1 m2 r (judge : reply -> gores B) w :
  let '(res, w') := exchange m1 m2 r judge w in
  unclosed w' = unclosed w /\
  match badURL (reqURL r) with
  | Some err => res = Err (ctxerrors.WrapE err m1) /\ sent w' = sent w
  | None => sent w' = sent w ++ [r] /\
      res = match serve (sent w) r with
            | Err err => Err (ctxerrors.WrapE err m2)
            | Ok resp => judge resp
            end
  end.
Proof.
  unfold exchange. destruct (badURL (reqURL r)); [done|]. unfold mbind, io_bind, Do.
  destruct (serve (sent w) r) as [resp|err]; [|done]. simpl.
  split; [|done]. pose proof (is_fresh (unclosed w)) as Hf.
  set_solver.
Qed.

Lemma judged_iff x resp o :
  (match x with
   | CallRun _ => map_ok Ran (judgeRun resp)
   | CallUpload _ _ => map_ok Uploaded (judgeUpload resp)
   | CallDownload p => map_ok Downloaded (judgeDownload p resp)
   | CallDelete _ => map_ok (fun _ => Done) (judgeStatus "delete failed" resp)
   | CallHealth => map_ok (fun _ => Done) (judgeStatus "health check failed" resp)
   end) = Ok o <-> succeeds x resp o.
Proof.
  destruct resp as [code [data err]]. cbn [Body StatusCode].
  unfold succeeds, judgeRun, judgeUpload, judgeDownload, judgeStatus, StatusNotFound, StatusOK, ReadAll.
  cbn [Body StatusCode delivered_bytes read_error].
  destruct x; repeat case_match; simpl; destruct o; naive_solver lia.
Qed.

Lemma perform_spec c x w :
  let '(r, w') := perform (Client_Runner c) x w in
  unclosed w' = unclosed w /\ sent w' = sent w ++ goes_out c x /\ performed c x (sent w) r.
Proof.
  pose proof (judged_iff x) as Hj. unfold goes_out, performed.
  destruct x; simpl; unfold mbind at 1, io_bind at 1, Run, UploadFile, DownloadFile, DeleteFile, Health;
    match goal with |- context [exchange ?a ?b ?r ?j w] =>
      pose proof (exchange_spec a b r j w) as H; destruct (exchange a b r j w) as [res w'] end;
    simpl in *; destruct H as [Hu H];
    (destruct (badURL _); destruct H as [H1 H2]; [by rewrite H1, H2, app_nil_r|]);
    rewrite H1; split; [done| |done| |done| |done| |done|]; split; try done;
    rewrite H2; destruct (serve _ _); simpl; try done; apply Hj.
Qed.

Lemma performs_spec c xs : forall w,
  let '(rs, w') := performs (Client_Runner c) xs w in
  unclosed w' = unclosed w /\ sent w' = sent w ++ concat (goes_out c <$> xs) /\
  length rs = length xs /\
  forall i x r, xs !! i = Some x -> rs !! i = Some r ->
    performed c x (sent w ++ concat (goes_out c <$> take i xs)) r.
Proof.
  induction xs as [|x xs IH]; intros w; cbn [performs].
  - simpl. by rewrite app_nil_r.
  - unfold mbind, io_bind. pose proof (perform_spec c x w) as H. destruct (perform (Client_Runner c) x w) as [r w1].
    destruct H as (Hu1 & Hs1 & Hp1). specialize (IH w1). destruct (performs (Client_Runner c) xs w1) as [rs w2].
    destruct IH as (Hu2 & Hs2 & Hl & Hp2). simpl. split_and!; [congruence| |by rewrite Hl|].
    + by rewrite Hs2, Hs1, <- app_assoc.
    + intros [|i] y r' Hx Hr; simpl in *; simplify_eq; [by rewrite app_nil_r|].
      specialize (Hp2 _ _ _ Hx Hr). by rewrite Hs1, <- app_assoc in Hp2.
Qed.

(** ** The request and its JSON form *)

(** Every string of the request is UTF-8. *)
Definition utf8_request (r : RunRequest) : Prop :=
  Forall (fun s => valid s = true)
    [Prompt r; Workspace r; Model r; SystemPrompt r; AppendSystemPrompt r; JSONSchema r; Effort r;
     OutputFormat r; Resume r].

Lemma field_str_tree name s :
  (fun '(k, x) => (k, tree_of x)) <$> field_str name s = member_of no_floats (lit name, true, GString) (VString s).
Proof. by destruct s. Qed.

Lemma field_bool_tree name b :
  (fun '(k, x) => (k, tree_of x)) <$> field_bool name b = member_of no_floats (lit name, true, GBool) (VBool b).
Proof. by destruct b. Qed.

Lemma run_tree r :
  tree_of (run_json r) = encode_val no_floats (r_type repr_RunRequest) (r_val repr_RunRequest r).
Proof.
  cbn [repr_RunRequest repr_struct r_type r_val]. rewrite encode_struct.
  change (tree_of (run_json r)) with
    (obj ((fun '(k, x) => (k, tree_of x)) <$> (match run_json r with JObj fs => fs | _ => [] end))).
  f_equal. cbn [run_json]. rewrite fmap_cons, !fmap_app, !field_str_tree, !field_bool_tree.
  cbn [f_types f_vals fcons fnil zip_with concat r_type r_val repr_string repr_bool fst snd].
  by rewrite app_nil_r.
Qed.

Lemma empty_string s : true && isEmptyValue (VString s) = true -> VString s = VString [].
Proof. by destruct s. Qed.
Lemma empty_bool b : true && isEmptyValue (VBool b) = true -> VBool b = VBool false.
Proof. by destruct b. Qed.

Lemma run_canon r : utf8_request r -> canon no_floats (r_type repr_RunRequest) (r_val repr_RunRequest r).
Proof.
  intros H. repeat (apply Forall_cons in H as [? H]). cbn [repr_RunRequest repr_struct r_type r_val].
  apply canon_struct. repeat (apply Forall2_cons; split; [split; [done|auto using empty_string, empty_bool]; done|]).
  constructor.
Qed.

Lemma run_height r : height (tree_of (run_json r)) <= maxNestingDepth.
Proof.
  rewrite run_tree. cbn [repr_RunRequest repr_struct r_type r_val]. rewrite encode_struct.
  assert (H : forall fs vs, Forall (fun f : bytes * bool * gotype => forall v, height (encode_val no_floats f.2 v) = 0) fs ->
    foldr Z.max 0 ((fun f : bytes * jtree => height f.2) <$> concat (zip_with (member_of no_floats) fs vs)) = 0).
  { intros fs vs Hfs. revert vs. induction Hfs as [|f fs Hf _ IH]; intros [|v vs]; try done.
    cbn [zip_with concat]. unfold member_of at 1. destruct (_ && _); [apply IH|]. cbn [app fmap list_fmap foldr snd].
    rewrite Hf, IH. done. }
  unfold obj. cbn [height]. rewrite H; [by vm_compute|]. repeat constructor; intros v; by destruct v.
Qed.

(** The body of a run request decodes to the request, with a model. *)
Lemma run_body_decodes req :
  utf8_request req ->
  Unmarshal (Marshal (run_json (with_model req))) (Pointer (r_type repr_RunRequest) (zero (r_type repr_RunRequest)))
  = (None, Pointer (r_type repr_RunRequest) (r_val repr_RunRequest (with_model req))).
Proof.
  intros H. apply Unmarshal_tree; [apply run_tree|by vm_compute| |apply run_height].
  apply run_canon. unfold with_model. destruct (Model req); [|done]. unfold utf8_request in *. repeat (apply Forall_cons in H as [? H]). by repeat constructor.
Qed.

(** C33. For any server and any sequence of calls: the requests of the calls go
    out once each and in order (none for a URL that is refused), no response
    body stays open, and a call succeeds exactly when its response has status
    200 and a body that decodes, with what it decodes to; everything else is an
    error.  Slashes at the end of the base URL or the start of a path make no
    difference, and the body of a run request with strings of valid UTF-8 decodes into the Go struct of the request, with its
    model, the default one when none was given. *)
Theorem claude_client c xs w :
  (let '(rs, w') := performs (Client_Runner c) xs w in
   unclosed w' = unclosed w /\ sent w' = sent w ++ concat (goes_out c <$> xs) /\
   length rs = length xs /\
   forall i x r, xs !! i = Some x -> rs !! i = Some r ->
     performed c x (sent w ++ concat (goes_out c <$> take i xs)) r) /\
  (forall base opts a b path, Forall (fun x => x = SLASH) a -> Forall (fun x => x = SLASH) b ->
     filesURL (New (base ++ a) opts) (b ++ path) = filesURL (New base opts) path) /\
  (forall req, utf8_request req ->
     Unmarshal (body (request_of c (CallRun req))) (Pointer (r_type repr_RunRequest) (zero (r_type repr_RunRequest)))
     = (None, Pointer (r_type repr_RunRequest) (r_val repr_RunRequest (with_model req))) /\
     Model (with_model req) = if decide (Model req = []) then defaultModel else Model req).
Proof.
  split; [apply performs_spec|]. split.
  - intros base opts a b path Ha Hb. unfold filesURL, New. by rewrite TrimRightSlash_app, drop_slashes_app.
  - intros req Hu. split; [by apply run_body_decodes|]. unfold with_model.
    by destruct (Model req) eqn:E; simpl; rewrite ?E.
Qed.

(** A response with status 200 whose body starts with the JSON form of [a]; what
    follows, and an error of the connection after it, do not matter. *)
Definition answers {A} formatFloat (R : repr A) (a : A) (resp : reply) : Prop :=
  exists rest err, resp = MkReply StatusOK (MkReader (Encode formatFloat (r_type R) (r_val R a) ++ rest) err) /\
    stops rest /\ canon formatFloat (r_type R) (r_val R a) /\
    height (encode_val formatFloat (r_type R) (r_val R a)) <= maxNestingDepth.

Lemma answers_decode {A} formatFloat (R : repr A) a resp :
  wf_type (r_type R) = true -> open_ended (encode_val formatFloat (r_type R) (r_val R a)) = false ->
  answers formatFloat R a resp -> StatusCode resp = StatusOK /\ decode_body R (Body resp) = Ok a.
Proof.
  intros Hw Ho (rest & err & -> & Hr & Hc & Hh). split; [done|]. unfold decode_body. cbn [Body].
  rewrite DecodeNew_Encode; try done. by rewrite Ho.
Qed.

(** C34. What the server encodes is what the caller gets: when the answer to a
    run request is the JSON form of a RunResult (as json.Marshal writes the struct,
    with any text strconv accepts for its floats), Run returns that
    result, every nested usage, iteration and turn included; the same for UploadFile and
    FileInfo.  Data after the value and a connection that breaks after it go
    unnoticed. *)
Theorem claude_results formatFloat c w req r path content info resp resp' :
  badURL (baseURL c ++ lit "/run") = None -> badURL (filesURL c path) = None ->
  serve (sent w) (request_of c (CallRun req)) = Ok resp -> answers formatFloat repr_RunResult r resp ->
  serve (sent w) (request_of c (CallUpload path content)) = Ok resp' -> answers formatFloat repr_FileInfo info resp' ->
  (Run c req w).1 = Ok r /\ (UploadFile c path content w).1 = Ok info.
Proof.
  intros Hu1 Hu2 Hs1 Ha1 Hs2 Ha2.
  apply answers_decode in Ha1 as [H1 H1']; [|by vm_compute|done].
  apply answers_decode in Ha2 as [H2 H2']; [|by vm_compute|done]. split.
  - unfold Run. match goal with |- context [exchange ?a ?b ?q ?j w] => pose proof (exchange_spec a b q j w) as H end.
    destruct (exchange _ _ _ _ w) as [res w']. cbn [reqURL] in H. rewrite Hu1 in H. destruct H as (_ & _ & ->).
    cbn [request_of] in Hs1. rewrite Hs1. cbn [fst]. unfold judgeRun. by rewrite H1, H1'.
  - unfold UploadFile. match goal with |- context [exchange ?a ?b ?q ?j w] => pose proof (exchange_spec a b q j w) as H end.
    destruct (exchange _ _ _ _ w) as [res w']. cbn [reqURL] in H. rewrite Hu2 in H. destruct H as (_ & _ & ->).
    cbn [request_of] in Hs2. rewrite Hs2. cbn [fst]. unfold judgeUpload. by rewrite H2, H2'.
Qed.
End Client.

(** ** A server for the witness *)

Definition quarter : spec_float := S754_finite false (2 ^ 52) (-54).
Definition demo_float (f : spec_float) : bytes := lit "0.25".

Lemma demo_float_ok : float_ok demo_float quarter.
Proof. apply (float_ok_of _ _ (MkNum false (lit "0") (Some (lit "25")) None)); vm_compute; reflexivity. Qed.

Definition demo_usage : Usage := MkUsage 1 3 0 5.
Definition demo_result : RunResult :=
  MkRunResult (lit "result") [] false (lit "done") 2 15 quarter (lit "s-1") (Some demo_usage)
    (Some [(lit "haiku", MkModelUsage 1 3 0 0 quarter 9 0)]) None
    (Some [MkIteration 1 (Some (Marshal (JArr [JStr (lit "hi")]))) None (Some demo_usage)]) None
    (Some (MkVerboseSystem (lit "s-1") (lit "haiku") (lit "/w") (Some [lit "Bash"; lit "Read"]))).
Definition demo_info : FileInfo := MkFileInfo (lit "ok") (lit "a.txt") 3.

Definition demo_serve (seen : list request) (r : request) : gores reply :=
  if bool_decide (method r = lit "POST")
  then Ok (MkReply StatusOK (MkReader
         (Encode demo_float (r_type repr_RunResult) (r_val repr_RunResult demo_result) ++ [Byte.x0a]) None))
  else Ok (MkReply StatusOK (MkReader
         (Encode demo_float (r_type repr_FileInfo) (r_val repr_FileInfo demo_info) ++ []) (Some ErrUnexpectedEOF))).

Lemma demo_result_canon : canon demo_float (r_type repr_RunResult) (r_val repr_RunResult demo_result).
Proof.
  assert (raw_ok (Marshal (JArr [JStr (lit "hi")]))) by (by apply raw_ok_Marshal).
  pose proof demo_float_ok.
  cbn. repeat match goal with
  | |- _ /\ _ => split
  | |- Forall _ [] => apply Forall_nil_2
  | |- Forall _ (_ :: _) => apply Forall_cons; split
  | |- _ => progress cbn
  end; try done. apply Sorted.SSorted_cons; [apply Sorted.SSorted_nil|apply Forall_nil_2].
Qed.

Lemma claude_results_witness :
  (Run demo_serve (fun _ => None) (New (lit "http://h") []) (MkRunRequest (lit "p") [] [] [] [] [] [] [] false [] false)
     (MkWorld [] ∅)).1 = Ok demo_result /\
  (UploadFile demo_serve (fun _ => None) (New (lit "http://h") []) (lit "a.txt") (lit "abc") (MkWorld [] ∅)).1 = Ok demo_info.
Proof.
  eapply (claude_results demo_serve (fun _ => None) demo_float (New (lit "http://h") []) (MkWorld [] ∅)
            (MkRunRequest (lit "p") [] [] [] [] [] [] [] false [] false) demo_result (lit "a.txt") (lit "abc") demo_info).
  - reflexivity.
  - reflexivity.
  - reflexivity.
  - exists [Byte.x0a], None. split; [reflexivity|]. split; [vm_compute; repeat split; discriminate|].
    split; [exact demo_result_canon|]. vm_compute. discriminate.
  - reflexivity.
  - exists [], (Some ErrUnexpectedEOF). split; [reflexivity|]. split; [exact I|].
    split; [|vm_compute; discriminate]. cbn. repeat split; try (vm_compute; congruence).
Defined.
