(* ===== verification/HttpApi.v ===== *)
(** * http: error codes, request validation and authentication

    http/error_codes.go, http/responses.go, http/oapi-codegen/middleware and
    http/echo/middleware, with the parts of the vendored validator
    (oapi-codegen/echo-middleware, kin-openapi's openapi3filter) and of echo that
    decide which requests reach a handler: security requirements, the mapping of
    validation errors to status codes, the order of middlewares, Recover.

    The OpenAPI document is an argument: how a request is routed, which security
    requirements an operation has, and what the validation of parameters and body
    says.  A handler or a callback may panic; a panic is a value that travels up
    the stack.  Responses that are written are recorded; a write may fail.  Request
    bodies are taken to be readable. *)

From stdpp Require Import base option list strings.
From Stdlib Require Import ZArith Lia.
From Stdlib.Strings Require Byte.
From S2P Require Import Prelude GoErrors Utf8 Json GoStrings.

Open Scope Z_scope.

(** ** http/error_codes.go *)

Definition StatusBadRequest : Z := 400.
Definition StatusUnauthorized : Z := 401.
Definition StatusForbidden : Z := 403.
Definition StatusNotFound : Z := 404.
Definition StatusInternalServerError : Z := 500.

Definition ErrCodeBadRequest : bytes := lit "BAD_REQUEST".
Definition ErrCodeUnauthorized : bytes := lit "UNAUTHORIZED".
Definition ErrCodeForbidden : bytes := lit "FORBIDDEN".
Definition ErrCodeNotFound : bytes := lit "NOT_FOUND".
Definition ErrCodeMethodNotAllowed : bytes := lit "METHOD_NOT_ALLOWED".
Definition ErrCodeConflict : bytes := lit "CONFLICT".
Definition ErrCodeGone : bytes := lit "GONE".
Definition ErrCodeUnprocessableEntity : bytes := lit "UNPROCESSABLE_ENTITY".
Definition ErrCodeTooManyRequests : bytes := lit "TOO_MANY_REQUESTS".
Definition ErrCodeInternalServer : bytes := lit "INTERNAL_SERVER".
Definition ErrCodeNotImplemented : bytes := lit "NOT_IMPLEMENTED".
Definition ErrCodeBadGateway : bytes := lit "BAD_GATEWAY".
Definition ErrCodeServiceUnavailable : bytes := lit "SERVICE_UNAVAILABLE".
Definition ErrCodeGatewayTimeout : bytes := lit "GATEWAY_TIMEOUT".

(** The map of ErrCodeFromHTTPStatus; its keys are distinct. *)
Definition codes : list (Z * bytes) :=
  [(StatusBadRequest, ErrCodeBadRequest); (StatusUnauthorized, ErrCodeUnauthorized);
   (StatusForbidden, ErrCodeForbidden); (StatusNotFound, ErrCodeNotFound);
   (405, ErrCodeMethodNotAllowed); (409, ErrCodeConflict); (410, ErrCodeGone);
   (422, ErrCodeUnprocessableEntity); (429, ErrCodeTooManyRequests);
   (StatusInternalServerError, ErrCodeInternalServer); (501, ErrCodeNotImplemented);
   (502, ErrCodeBadGateway); (503, ErrCodeServiceUnavailable); (504, ErrCodeGatewayTimeout)].

Definition ErrCodeFromHTTPStatus (status : Z) : bytes :=
  match list_find (fun c => c.1 = status) codes with
  | Some (_, (_, code)) => code
  | None => ErrCodeInternalServer
  end.

(** ErrorResponse as JSON. *)
Record ErrorResponse : Type := MkErrorResponse { Error : bytes }.
Definition ErrorResponse_json (r : ErrorResponse) : json := JObj [(lit "error", JStr (Error r))].

(** ** Errors, panics, handlers *)

(** echo.HTTPError *)
Record HTTPError : Type := NewHTTPError { Code : Z; Message : bytes }.

(** The errors the validator tells apart; a RequestError may wrap a
    MultiError. *)
Inductive gerr : Type :=
| EHTTP (h : HTTPError)
| EMulti (msgs : list bytes)
| ERequest (msg : bytes) (inner : option (list bytes))
| ESecurity (errs : list gerr)
| EAuthenticationServiceMissing
| EOther (e : error).

Inductive panic : Type := ErrAbortHandler | PanicValue (e : gerr).

Abbreviation may_panic := (result panic).

(** The responses written, the errors given to the central error handler, and
    the failures of the next writes. *)
Record world : Type := MkWorld {
  written : list (Z * json); handled : list gerr; writeErrs : list (option error)
}.

(** c.JSON *)
Definition JSON (code : Z) (v : json) : io world (option error) := fun w =>
  (default None (head (writeErrs w)),
   MkWorld (written w ++ [(code, v)]) (handled w) (tail (writeErrs w))).

(** c.Error *)
Definition ctx_Error (e : gerr) : io world unit := fun w =>
  ((), MkWorld (written w) (handled w ++ [e]) (writeErrs w)).

Definition HandlerFunc : Type := io world (may_panic (option gerr)).
Definition MiddlewareFunc : Type := HandlerFunc -> HandlerFunc.

(** applyMiddleware: the first middleware is the outermost. *)
Definition applyMiddleware (h : HandlerFunc) (middleware : list MiddlewareFunc) : HandlerFunc :=
  foldr (fun m h => m h) h middleware.

(** middleware.Recover *)
Definition Recover : MiddlewareFunc := fun next w =>
  let '(r, w) := next w in
  match r with
  | Err (PanicValue e) => let '(_, w) := ctx_Error e w in (Ok None, w)
  | _ => (r, w)
  end.

(** ** http/oapi-codegen/middleware *)

Definition errorHandler (err : HTTPError) : HandlerFunc :=
  jsonErr ← JSON (Code err) (ErrorResponse_json (MkErrorResponse (ErrCodeFromHTTPStatus (Code err))));
  mret (Ok (match jsonErr with
            | Some e => Some (EOther (ctxerrors.WrapE e "failed to send error response"))
            | None => None
            end)).

(** strings.Join(errMsgs, "; ") *)
Fixpoint join_msgs (msgs : list bytes) : bytes :=
  match msgs with
  | [] => []
  | [m] => m
  | m :: rest => m ++ lit "; " ++ join_msgs rest
  end.

Definition multiErrorHandler (errs : list bytes) : HTTPError :=
  NewHTTPError StatusBadRequest (lit "Validation failed: " ++ join_msgs errs).

(** ** Requests *)

(** The values of the Authorization header; the rest is opaque. *)
Record request : Type := MkRequest { authorization : list bytes; rest : Z }.

(** r.Header.Get("Authorization") *)
Definition auth_header (r : request) : bytes := default [] (head (authorization r)).

(** AuthFunc *)
Definition AuthFunc : Type := request -> may_panic (option gerr).

(** TokenValidator: true when the token is valid. *)
Definition TokenValidator : Type := bytes -> may_panic bool.

Definition extractBearerToken (r : request) : bytes :=
  match auth_header r with
  | [] => []
  | h => default [] (trim_prefix (lit "Bearer ") h)
  end.

Definition BearerAuth (validate : TokenValidator) : AuthFunc := fun r =>
  match extractBearerToken r with
  | [] => Ok (Some (EHTTP (NewHTTPError StatusUnauthorized (lit "missing token"))))
  | token =>
    match validate token with
    | Err p => Err p
    | Ok false => Ok (Some (EHTTP (NewHTTPError StatusUnauthorized (lit "invalid token"))))
    | Ok true => Ok None
    end
  end.

(** ** The OpenAPI document and its validation *)

(** A security requirement: the names of its schemes in order. *)
Definition requirement : Type := list bytes.

Record operation : Type := MkOperation {
  Security : option (list requirement);
  checks : request -> option gerr
}.

Inductive found : Type := Found (op : operation) | RouteError (reason : bytes) | FindError (e : error).

Record document : Type := MkDocument {
  FindRoute : request -> found;
  GlobalSecurity : list requirement;
  declared : bytes -> bool
}.

(** OapiValidator's Options: what CreateDefaultAPIMiddleware sets. *)
Section Validator.
Context (oas : document) (AuthenticationFunc : option AuthFunc).

Fixpoint schemes (f : AuthFunc) (names : list bytes) (r : request) : may_panic (option gerr) :=
  match names with
  | [] => Ok None
  | name :: names' =>
    if declared oas name then
      match f r with
      | Err p => Err p
      | Ok (Some e) => Ok (Some e)
      | Ok None => schemes f names' r
      end
    else Ok (Some (ERequest (lit "security scheme is not declared") None))
  end.

Definition validateSecurityRequirement (sr : requirement) (r : request) : may_panic (option gerr) :=
  match AuthenticationFunc with
  | None => Ok (Some EAuthenticationServiceMissing)
  | Some f => schemes f sr r
  end.

(** The loop over the alternatives. *)
Fixpoint requirements (srs : list requirement) (r : request) (errs : list gerr)
  : may_panic (option gerr) :=
  match srs with
  | [] => Ok (Some (ESecurity errs))
  | sr :: srs' =>
    match validateSecurityRequirement sr r with
    | Err p => Err p
    | Ok (Some e) => requirements srs' r (errs ++ [e])
    | Ok None => Ok None
    end
  end.

Definition ValidateSecurityRequirements (srs : list requirement) (r : request) : may_panic (option gerr) :=
  match srs with
  | [] => Ok None
  | _ => requirements srs r []
  end.

Definition effective (op : operation) : list requirement := default (GlobalSecurity oas) (Security op).

(** ValidateRequest with MultiError off: the first error. *)
Definition ValidateRequest (op : operation) (r : request) : may_panic (option gerr) :=
  match ValidateSecurityRequirements (effective op) r with
  | Err p => Err p
  | Ok (Some e) => Ok (Some e)
  | Ok None => Ok (checks op r)
  end.

(** errors.As to a MultiError: the error itself or what it wraps, in order. *)
Fixpoint as_multi (e : gerr) : option (list bytes) :=
  match e with
  | EMulti msgs => Some msgs
  | ERequest _ inner => inner
  | ESecurity errs =>
    (fix first (es : list gerr) : option (list bytes) :=
       match es with
       | [] => None
       | e :: es' => match as_multi e with Some m => Some m | None => first es' end
       end) errs
  | _ => None
  end.

Definition first_http (errs : list gerr) : option HTTPError :=
  head (omap (fun e => match e with EHTTP h => Some h | _ => None end) errs).

Definition validation_error (e : gerr) : HTTPError :=
  match as_multi e with
  | Some msgs => multiErrorHandler msgs
  | None =>
    match e with
    | ERequest msg _ => NewHTTPError StatusBadRequest msg
    | ESecurity errs =>
      default (NewHTTPError StatusForbidden (lit "security requirements failed")) (first_http errs)
    | _ => NewHTTPError StatusInternalServerError (lit "error validating request")
    end
  end.

Definition ValidateRequestFromContext (r : request) : may_panic (option HTTPError) :=
  match FindRoute oas r with
  | RouteError reason => Ok (Some (NewHTTPError StatusNotFound reason))
  | FindError _ => Ok (Some (NewHTTPError StatusInternalServerError (lit "error validating route")))
  | Found op =>
    match ValidateRequest op r with
    | Err p => Err p
    | Ok (Some e) => Ok (Some (validation_error e))
    | Ok None => Ok None
    end
  end.

(** OapiRequestValidatorWithOptions with the error handlers of
    OapiValidatorMiddlewareWithOptions and the default skipper. *)
Definition OapiValidator (r : request) : MiddlewareFunc := fun next w =>
  match ValidateRequestFromContext r with
  | Err p => (Err p, w)
  | Ok (Some err) => errorHandler err w
  | Ok None => next w
  end.
End Validator.

(** http/echo/middleware: the middlewares for the request [r]. *)
Definition CreateDefaultAPIMiddleware (oas : document) (auth : option AuthFunc) (r : request)
  : list MiddlewareFunc :=
  [OapiValidator oas auth r; Recover].

(** ** Which requests reach the handler *)

(** The request presents a token the validator accepts. *)
Definition presents (validate : TokenValidator) (r : request) : Prop :=
  exists token, token <> [] /\ auth_header r = lit "Bearer " ++ token /\ validate token = Ok true.

Lemma extract_token r token : token <> [] ->
  extractBearerToken r = token <-> auth_header r = lit "Bearer " ++ token.
Proof.
  intros Ht. unfold extractBearerToken. split.
  - destruct (auth_header r) as [|c h] eqn:E; [by intros <-|]. intros H.
    destruct (trim_prefix (lit "Bearer ") (c :: h)) as [t|] eqn:Hs; simpl in H; [|congruence].
    subst t. by apply trim_prefix_Some in Hs.
  - intros E. rewrite E.
    assert (exists c t, lit "Bearer " ++ token = c :: t) as (c & t & Hc) by (simpl; eauto).
    rewrite Hc, <- Hc. by rewrite trim_prefix_app.
Qed.

(** BearerAuth accepts exactly the requests that present a token. *)
Lemma BearerAuth_spec validate r : (forall t, is_ok (validate t) = true) ->
  (presents validate r /\ BearerAuth validate r = Ok None) \/
  (~ presents validate r /\
   exists m, BearerAuth validate r = Ok (Some (EHTTP (NewHTTPError StatusUnauthorized m)))).
Proof.
  intros Htot. unfold BearerAuth. destruct (extractBearerToken r) as [|c t] eqn:E.
  - right. split; [|by eexists]. intros (token & Hne & Hh & _).
    apply extract_token in Hh; [|done]. congruence.
  - pose proof (Htot (c :: t)) as Hok. destruct (validate (c :: t)) as [[]|p] eqn:Hv; [..|done].
    + left. split; [|done]. exists (c :: t). split; [done|]. split; [by apply extract_token in E|done].
    + right. split; [|by eexists]. intros (token & Hne & Hh & Hv').
      apply extract_token in Hh; [|done]. congruence.
Qed.

Section Guard.
Context (oas : document).

(** An operation lets the request in: one of its requirements, if it has any, is
    met by the predicate, and the other checks pass. *)
Definition admitted (meets : requirement -> Prop) (r : request) : Prop := exists op,
  FindRoute oas r = Found op /\ checks op r = None /\
  (effective oas op = [] \/ exists sr, sr ∈ effective oas op /\ meets sr).

Section Auth.
Context (f : AuthFunc) (r : request) (ok : Prop) (err : gerr).
Context (Hf : (ok /\ f r = Ok None) \/ (~ ok /\ f r = Ok (Some err))).

Definition met (sr : requirement) : Prop := Forall (fun n => declared oas n = true /\ ok) sr.

(** An alternative asks for the authentication when its first scheme is declared. *)
Definition asks (sr : requirement) : bool :=
  match sr with n :: _ => declared oas n | [] => false end.

(** Why an alternative that is not met fails. *)
Definition undeclared : gerr := ERequest (lit "security scheme is not declared") None.

Definition fails (sr : requirement) (e : gerr) : Prop :=
  e = err /\ ~ ok /\ asks sr = true \/ e = undeclared /\ (ok \/ asks sr = false).

Lemma schemes_spec sr :
  (met sr /\ schemes oas f sr r = Ok None) \/
  (~ met sr /\ exists e, schemes oas f sr r = Ok (Some e) /\ fails sr e).
Proof.
  unfold met, fails. induction sr as [|n sr IH]; simpl; [by left|]. rewrite Forall_cons.
  destruct (declared oas n) eqn:Hd.
  - destruct Hf as [[Hok ->]|[Hno ->]].
    + destruct IH as [[HF ->]|(HF & e & -> & He)]; [by left|]. right. split; [tauto|]. exists e.
      split; [done|]. destruct He as [(_ & Hno & _)|[-> _]]; [done|]. auto.
    + right. split; [tauto|]. exists err. auto.
  - right. split; [intros [[? _] _]; done|]. exists undeclared. auto.
Qed.

Lemma requirements_spec srs : forall errs,
  (Exists met srs /\ requirements oas (Some f) srs r errs = Ok None) \/
  (~ Exists met srs /\ exists es, Forall2 fails srs es /\
     requirements oas (Some f) srs r errs = Ok (Some (ESecurity (errs ++ es)))).
Proof.
  induction srs as [|sr srs IH]; intros errs; simpl.
  - right. split; [by intros ?%Exists_nil|]. exists []. by rewrite app_nil_r.
  - destruct (schemes_spec sr) as [[HF ->]|(HF & e & -> & He)].
    + left. split; [by constructor|done].
    + destruct (IH (errs ++ [e])) as [[HE ->]|(HE & es & Hes & ->)].
      * left. split; [by constructor|done].
      * right. split; [by intros [?|?]%Exists_cons|]. exists (e :: es). rewrite <- app_assoc. simpl.
        split; [by constructor|done].
Qed.

(** The requirements hold, or they fail with the errors of the alternatives. *)
Lemma security_spec srs :
  ((srs = [] \/ Exists met srs) /\ ValidateSecurityRequirements oas (Some f) srs r = Ok None) \/
  (~ (srs = [] \/ Exists met srs) /\ exists es, Forall2 fails srs es /\
     ValidateSecurityRequirements oas (Some f) srs r = Ok (Some (ESecurity es))).
Proof.
  destruct srs as [|sr srs]; [by left; split; [left|]|]. unfold ValidateSecurityRequirements.
  destruct (requirements_spec (sr :: srs) []) as [[HE ->]|(HE & es & Hes & ->)]; [left; auto|].
  right. split; [by intros [?|?]|]. by exists es.
Qed.

(** The first authentication error among them decides the status. *)
Lemma fails_status srs es hd : err = EHTTP hd -> Forall2 fails srs es ->
  as_multi (ESecurity es) = None /\
  ((~ ok /\ Exists (fun sr => asks sr = true) srs /\ first_http es = Some hd) \/
   ((ok \/ ~ Exists (fun sr => asks sr = true) srs) /\ first_http es = None)).
Proof.
  intros Herr Hes. simpl. induction Hes as [|sr e srs es He _ [IHm IHs]].
  { split; [done|]. right. split; [|done]. right. by intros ?%Exists_nil. }
  destruct He as [(-> & Hno & Ha)|[-> Ha]]; rewrite ?Herr; simpl; split; try exact IHm.
  - left. split; [done|]. split; [by apply Exists_cons; left|done].
  - unfold first_http in *. simpl. destruct IHs as [(Hno & HE & Hh)|[Hor Hh]].
    + left. split; [done|]. split; [by apply Exists_cons; right|done].
    + right. split; [|done]. destruct Hor as [Hok|HE]; [by left|]. destruct Ha as [Hok|Ha]; [by left|].
      right. intros [H|H]%Exists_cons; [congruence|done].
Qed.

(** How a request that is not let in is refused. *)
Inductive refusal : Z -> bytes -> Prop :=
| refused_no_route reason :
    FindRoute oas r = RouteError reason -> refusal StatusNotFound ErrCodeNotFound
| refused_find_error e :
    FindRoute oas r = FindError e -> refusal StatusInternalServerError ErrCodeInternalServer
| refused_unauthorized op :
    FindRoute oas r = Found op -> effective oas op <> [] -> ~ Exists met (effective oas op) ->
    ~ ok -> Exists (fun sr => asks sr = true) (effective oas op) ->
    refusal StatusUnauthorized ErrCodeUnauthorized
| refused_forbidden op :
    FindRoute oas r = Found op -> effective oas op <> [] -> ~ Exists met (effective oas op) ->
    (ok \/ ~ Exists (fun sr => asks sr = true) (effective oas op)) ->
    refusal StatusForbidden ErrCodeForbidden
| refused_bad_request op e :
    FindRoute oas r = Found op -> effective oas op = [] \/ Exists met (effective oas op) ->
    checks op r = Some e -> (exists msg inner, e = ERequest msg inner) \/ (exists msgs, e = EMulti msgs) ->
    refusal StatusBadRequest ErrCodeBadRequest
| refused_other_check op e :
    FindRoute oas r = Found op -> effective oas op = [] \/ Exists met (effective oas op) ->
    checks op r = Some e ->
    (forall msg inner, e <> ERequest msg inner) -> (forall msgs, e <> EMulti msgs) -> (forall es, e <> ESecurity es) ->
    refusal StatusInternalServerError ErrCodeInternalServer.

(** When every alternative asks for a token, a request without one is
    unauthorized. *)
Lemma refused_all_ask op :
  FindRoute oas r = Found op -> effective oas op <> [] -> ~ ok ->
  Forall (fun sr => sr <> [] /\ Forall (fun n => declared oas n = true) sr) (effective oas op) ->
  refusal StatusUnauthorized ErrCodeUnauthorized.
Proof.
  intros Hop Hne Hno Hall. apply (refused_unauthorized op); try done.
  - intros HE. apply Exists_exists in HE as (sr & Hsr & Hm). rewrite Forall_forall in Hall.
    destruct (Hall sr Hsr) as [Hnil _]. destruct sr as [|n sr]; [done|].
    apply Forall_cons in Hm as [[_ Hok] _]. done.
  - destruct (effective oas op) as [|sr srs]; [done|]. apply Exists_cons. left.
    apply Forall_cons in Hall as [[Hnil Hd] _]. destruct sr as [|n sr]; [done|]. by apply Forall_cons in Hd as [Hd _].
Qed.

(** What the middlewares do with a request, for an authentication function that
    decides [ok]. *)
Lemma guarded h w :
  admitted met r -> applyMiddleware h (CreateDefaultAPIMiddleware oas (Some f) r) w = Recover h w.
Proof.
  intros (op & Hop & Hc & Hs).
  unfold applyMiddleware, CreateDefaultAPIMiddleware, OapiValidator. simpl.
  unfold ValidateRequestFromContext, ValidateRequest. rewrite Hop.
  destruct (security_spec (effective oas op)) as [[_ ->]|[Hn _]]; [by rewrite Hc|].
  exfalso. apply Hn. destruct Hs as [Hs|Hs]; [by left|right]. by apply Exists_exists.
Qed.

(** The answer to a refused request: one JSON response. *)
Definition answers (status : Z) (code : bytes) (w : world) : may_panic (option gerr) * world :=
  (Ok ((fun e => EOther (ctxerrors.WrapE e "failed to send error response")) <$> default None (head (writeErrs w))),
   MkWorld (written w ++ [(status, JObj [(lit "error", JStr code)])]) (handled w) (tail (writeErrs w))).

Lemma errorHandler_answers hd w :
  errorHandler hd w = answers (Code hd) (ErrCodeFromHTTPStatus (Code hd)) w.
Proof. unfold errorHandler, answers, JSON. destruct w as [wr ha [|[e|] es]]; done. Qed.

(** Every request that is not let in is refused for one of the reasons. *)
Lemma refusal_total :
  (forall op es, FindRoute oas r = Found op -> checks op r <> Some (ESecurity es)) ->
  ~ admitted met r -> exists status code, refusal status code.
Proof.
  intros Hch Hna. destruct (FindRoute oas r) as [op|reason|e] eqn:Hop.
  2, 3: by do 2 eexists; econstructor.
  destruct (security_spec (effective oas op)) as [[Hs _]|(Hs & es & Hes & _)].
  - destruct (checks op r) as [e|] eqn:Hc.
    + assert (forall es, e <> ESecurity es) as Hsec by (intros es' ->; by apply (Hch op es')).
      destruct e as [hd|msgs|msg inner|es| |e]; [..|by destruct (Hsec es)| |]; do 2 eexists.
      2, 3: by eapply (refused_bad_request op); eauto.
      all: by eapply (refused_other_check op).
    + exfalso. apply Hna. exists op. split; [done|]. split; [done|].
      destruct Hs as [Hs|Hs]; [by left|right]. by apply Exists_exists.
  - destruct (decide (Exists (fun sr => asks sr = true) (effective oas op))) as [Ha|Ha].
    2: { do 2 eexists. eapply refused_forbidden; eauto. }
    destruct Hf as [[Hok _]|[Hno _]]; do 2 eexists;
      [eapply refused_forbidden; eauto|eapply refused_unauthorized; eauto].
Qed.

(** And it is answered with the status of that reason, for an authentication that
    refuses with status 401. *)
Lemma refusal_answers h w m status code :
  err = EHTTP (NewHTTPError StatusUnauthorized m) -> refusal status code ->
  applyMiddleware h (CreateDefaultAPIMiddleware oas (Some f) r) w = answers status code w.
Proof.
  intros Herr Hr. unfold applyMiddleware, CreateDefaultAPIMiddleware, OapiValidator. simpl.
  unfold ValidateRequestFromContext, ValidateRequest.
  destruct Hr as [reason Hop|e Hop|op Hop Hne Hum Hno Ha|op Hop Hne Hum Hor|op e Hop Hs Hc He|op e Hop Hs Hc H1 H2 H3];
    rewrite Hop; try apply errorHandler_answers;
    (destruct (security_spec (effective oas op)) as [[Hm ->]|(Hm & es & Hes & ->)]; [|try tauto]); try tauto;
    rewrite ?Hc.
  - destruct (fails_status _ _ _ Herr Hes) as [HM [(_ & _ & Hh)|[[?|?] _]]]; [|done..].
    unfold validation_error. rewrite HM, Hh. apply errorHandler_answers.
  - destruct (fails_status _ _ _ Herr Hes) as [HM [(? & ? & _)|[_ Hh]]]; [tauto|].
    unfold validation_error. rewrite HM, Hh. apply errorHandler_answers.
  - rewrite errorHandler_answers. unfold validation_error.
    destruct He as [(msg & [inner|] & ->)|(msgs & ->)]; done.
  - rewrite errorHandler_answers. unfold validation_error. destruct e; try done; naive_solver.
Qed.
End Auth.
End Guard.

(** C16. The default middlewares with bearer authentication guard the handler,
    for every document, validator that does not panic, and request: the handler
    runs (under Recover) exactly when the request is routed, passes the other
    checks and its operation has no security requirement or one that is met: all
    its schemes declared, and (unless it names none) a non-empty token presented
    as "Bearer token" in the first Authorization header that the validator
    accepts.  Every other request is refused for one of six reasons, and is then
    answered with one JSON response and the status and code of that reason, the handler not
    run: no route 404 NOT_FOUND; an error of the router 500 INTERNAL_SERVER; security not
    met 401 UNAUTHORIZED when there is no accepted token and some alternative's first
    scheme is declared, else 403 FORBIDDEN; security met but the parameters or body refused
    400 BAD_REQUEST, or their validation failed in another way 500.  (The checks of
    parameters and body are taken not to report security errors.) *)
Theorem bearer_auth_guards oas validate r h w :
  (forall t, is_ok (validate t) = true) ->
  (forall op es, FindRoute oas r = Found op -> checks op r <> Some (ESecurity es)) ->
  let ok := presents validate r in
  let run := applyMiddleware h (CreateDefaultAPIMiddleware oas (Some (BearerAuth validate)) r) w in
  (admitted oas (met oas ok) r -> run = Recover h w) /\
  (~ admitted oas (met oas ok) r -> exists status code, refusal oas r ok status code) /\
  (forall status code, refusal oas r ok status code -> run = answers status code w) /\
  (forall op, FindRoute oas r = Found op -> effective oas op <> [] -> ~ ok ->
     Forall (fun sr => sr <> [] /\ Forall (fun n => declared oas n = true) sr) (effective oas op) ->
     written run.2 = written w ++ [(401, JObj [(lit "error", JStr (lit "UNAUTHORIZED"))])]).
Proof.
  intros Htot Hch ok run.
  assert (exists m, (ok /\ BearerAuth validate r = Ok None) \/
    (~ ok /\ BearerAuth validate r = Ok (Some (EHTTP (NewHTTPError StatusUnauthorized m))))) as [m Hf].
  { destruct (BearerAuth_spec validate r Htot) as [H|[H [m Hm]]]; [by exists []; left|by exists m; right]. }
  split; [by apply (guarded oas _ r ok _ Hf)|]. split; [by apply (refusal_total oas _ r ok _ Hf)|].
  split; [intros; by eapply (refusal_answers oas _ r ok _ Hf)|].
  intros op Hop Hne Hno Hall. unfold run.
  erewrite (refusal_answers oas _ r ok _ Hf) by (done || by apply (refused_all_ask oas r ok op)). done.
Qed.

(** C40. Without an authentication function an operation with security
    requirements is closed, not open: every request to it is answered with
    status 403 and the handler never runs.  And Recover does not cover the
    authentication: it is the inner middleware, so a panic of a handler ends in
    the central error handler while a panic of the authentication function
    leaves the stack. *)
Theorem middleware_limits oas r op h w :
  FindRoute oas r = Found op -> effective oas op <> [] ->
  (let '(res, w') := applyMiddleware h (CreateDefaultAPIMiddleware oas None r) w in
   is_ok res = true /\ written w' = written w ++ [(403, JObj [(lit "error", JStr (lit "FORBIDDEN"))])]) /\
  (forall f p n names srs, effective oas op = (n :: names) :: srs -> declared oas n = true -> f r = Err p ->
     applyMiddleware h (CreateDefaultAPIMiddleware oas (Some f) r) w = (Err p, w)) /\
  (forall f e w', admitted oas (met oas (f r = Ok None)) r -> f r = Ok None -> h w = (Err (PanicValue e), w') ->
     applyMiddleware h (CreateDefaultAPIMiddleware oas (Some f) r) w
     = (Ok None, MkWorld (written w') (handled w' ++ [e]) (writeErrs w'))).
Proof.
  intros Hop Hne. split; [|split].
  - unfold applyMiddleware, CreateDefaultAPIMiddleware, OapiValidator. simpl.
    unfold ValidateRequestFromContext, ValidateRequest, ValidateSecurityRequirements. rewrite Hop.
    destruct (effective oas op) as [|sr srs]; [done|].
    assert (forall srs errs, Forall (fun e => e = EAuthenticationServiceMissing) errs ->
      exists es, requirements oas None srs r errs = Ok (Some (ESecurity es)) /\
        Forall (fun e => e = EAuthenticationServiceMissing) es) as Hreq.
    { clear. intros srs. induction srs as [|s srs IH]; intros errs He; [by eexists|].
      apply IH, Forall_app. split; [done|by constructor]. }
    destruct (Hreq (sr :: srs) [] ltac:(constructor)) as (es & -> & Hes).
    assert (as_multi (ESecurity es) = None /\ first_http es = None) as [Hm Hh].
    { clear -Hes. unfold first_http. induction Hes as [|e es -> _ [IH1 IH2]]; simpl in *; done. }
    unfold validation_error. rewrite Hm, Hh. simpl. done.
  - intros f p n names srs He Hd Hp.
    unfold applyMiddleware, CreateDefaultAPIMiddleware, OapiValidator. simpl.
    unfold ValidateRequestFromContext, ValidateRequest, ValidateSecurityRequirements. rewrite Hop, He. simpl.
    by rewrite Hd, Hp.
  - intros f e w' Hadm Hok Hh.
    etransitivity; [exact (guarded oas f r (f r = Ok None) EAuthenticationServiceMissing ltac:(auto) h w Hadm)|].
    unfold Recover. by rewrite Hh.
Qed.

(** ** Witnesses *)

Definition demo_op : operation := MkOperation None (fun _ => None).
Definition demo_document : document :=
  MkDocument (fun _ => Found demo_op) [[lit "bearerAuth"]] (fun n => bool_decide (n = lit "bearerAuth")).
Definition demo_validate : TokenValidator := fun t => Ok (bool_decide (t = lit "s3cret")).

Lemma bearer_auth_guards_witness :
  let run := applyMiddleware (fun w => (Ok None, w))
               (CreateDefaultAPIMiddleware demo_document (Some (BearerAuth demo_validate))
                  (MkRequest [lit "Basic abc"] 0)) (MkWorld [] [] []) in
  run = answers 401 (lit "UNAUTHORIZED") (MkWorld [] [] []) /\
  written run.2 = [(401, JObj [(lit "error", JStr (lit "UNAUTHORIZED"))])].
Proof.
  assert (Hno : ~ presents demo_validate (MkRequest [lit "Basic abc"] 0)).
  { intros (t & _ & Ht & _). discriminate Ht. }
  assert (Hall : Forall (fun sr => sr <> [] /\ Forall (fun n => declared demo_document n = true) sr)
                   (effective demo_document demo_op)) by (repeat constructor; discriminate).
  destruct (bearer_auth_guards demo_document demo_validate (MkRequest [lit "Basic abc"] 0)
              (fun w => (Ok None, w)) (MkWorld [] [] [])) as (_ & _ & Ha & H); [reflexivity| |].
  - intros op es [= <-]. discriminate.
  - split.
    + apply Ha, (refused_all_ask _ _ _ demo_op); [reflexivity|discriminate|exact Hno|exact Hall].
    + apply (H demo_op); [reflexivity|discriminate|exact Hno|exact Hall].
Defined.

Lemma middleware_limits_witness :
  let '(res, w') := applyMiddleware (fun w => (Ok None, w))
      (CreateDefaultAPIMiddleware demo_document None (MkRequest [lit "Bearer s3cret"] 0)) (MkWorld [] [] []) in
  is_ok res = true /\ written w' = [(403, JObj [(lit "error", JStr (lit "FORBIDDEN"))])].
Proof.
  destruct (middleware_limits demo_document (MkRequest [lit "Bearer s3cret"] 0) demo_op
              (fun w => (Ok None, w)) (MkWorld [] [] [])) as [H _]; [reflexivity|discriminate|].
  exact H.
Defined.
