(* ===== verification/EchoServer.v ===== *)
(** * http/echo: the server

    config.go and echo.go: which routes and middlewares NewWithConfig sets up, and
    Start, its goroutine and its select as a step relation.  echo's Group is
    modelled by the routes it registers: a route takes the middlewares the group
    has at that moment, and of two routes with the same method and path the later
    one counts. *)

From stdpp Require Import base option list strings relations.
From Stdlib Require Import ZArith Lia.
From Stdlib.Strings Require Byte.
From S2P Require Import Prelude GoErrors Utf8 Json GoStrings.

(** ** config.go *)

Record Config : Type := MkConfig { ListenAddress : bytes; OASPath : bytes; SwaggerUIPath : bytes }.

Definition ErrListenAddressRequired : error := Sentinel "listen address is required".

Definition validate (c : Config) : option error :=
  match ListenAddress c with
  | [] => ctxerrors.Wrap (Some ErrListenAddressRequired) "listen address is required"
  | _ => None
  end.

(** parseConfig; the result of gonfiguration.Parse is an argument, which Configs.v computes. *)
Definition parseConfig (parsed : gores Config) : gores Config :=
  match parsed with
  | Err err => Err (ctxerrors.WrapE err "could not parse config")
  | Ok cfg => Ok cfg
  end.

(** ** Routes *)

Inductive handler : Type :=
| BlobHandler (yaml : bytes)
| SwaggerHandler (url : bytes)
| NotFoundHandler
| UserHandler (id : nat).

Section Routes.
Context {M : Type}.

Record route : Type := MkRoute { method : bytes; rpath : bytes; target : handler; chain : list M }.

Record Group : Type := MkGroup { prefix : bytes; middleware : list M; routes : list route }.

Definition GET : bytes := lit "GET".
Definition RouteNotFound : bytes := lit "echo_route_not_found".

(** Group.Add *)
Definition Add (m p : bytes) (h : handler) (g : Group) : Group :=
  MkGroup (prefix g) (middleware g) (routes g ++ [MkRoute m (prefix g ++ p) h (middleware g)]).

(** Group.Use with one middleware. *)
Definition Use (mw : M) (g : Group) : Group :=
  let g := MkGroup (prefix g) (middleware g ++ [mw]) (routes g) in
  Add RouteNotFound (lit "/*") NotFoundHandler (Add RouteNotFound [] NotFoundHandler g).

(** The route a method and path lead to: the last one registered. *)
Definition route_of (m p : bytes) (g : Group) : option route :=
  last (filter (fun r => method r = m /\ rpath r = p) (routes g)).

Record Echo : Type := MkEcho { config : Config; RouterGroup : Group }.

Definition nonempty (s : bytes) : bool := match s with [] => false | _ => true end.

Definition NewWithConfig (cfg : Config) (rootPath swaggerYAML : bytes) (middlewares : list M) : gores Echo :=
  match validate cfg with
  | Some err => Err (ctxerrors.WrapE err "could not validate config")
  | None =>
    let g := MkGroup rootPath [] [] in
    let g := if nonempty (OASPath cfg) && nonempty swaggerYAML
             then Add GET (OASPath cfg) (BlobHandler swaggerYAML) g else g in
    let g := if nonempty (SwaggerUIPath cfg) && nonempty (OASPath cfg)
             then Add GET (SwaggerUIPath cfg) (SwaggerHandler (Join2 rootPath (OASPath cfg))) g else g in
    Ok (MkEcho cfg (foldl (fun g mw => Use mw g) g middlewares))
  end.

Definition New (parsed : gores Config) (rootPath swaggerYAML : bytes) (middlewares : list M) : gores Echo :=
  match parseConfig parsed with
  | Err err => Err (ctxerrors.WrapE err "could not parse config")
  | Ok cfg => NewWithConfig cfg rootPath swaggerYAML middlewares
  end.

(** *** What is registered *)

Lemma route_of_Add m p h m' p' g :
  route_of m p (Add m' p' h g) =
  if decide (m' = m /\ prefix g ++ p' = p) then Some (MkRoute m' (prefix g ++ p') h (middleware g))
  else route_of m p g.
Proof.
  unfold route_of, Add. simpl. rewrite filter_app. case_decide as Hd.
  - rewrite filter_cons_True by done. by rewrite filter_nil, last_snoc.
  - rewrite filter_cons_False by done. by rewrite filter_nil, app_nil_r.
Qed.

Lemma Use_all g mws :
  let g' := foldl (fun g mw => Use mw g) g mws in
  prefix g' = prefix g /\ middleware g' = middleware g ++ mws /\
  (forall p, route_of GET p g' = route_of GET p g) /\
  (forall p, p = [] \/ p = lit "/*" -> mws <> [] ->
     route_of RouteNotFound (prefix g ++ p) g'
     = Some (MkRoute RouteNotFound (prefix g ++ p) NotFoundHandler (middleware g ++ mws))).
Proof.
  revert g. induction mws as [|mw mws IH] using rev_ind; intros g; simpl.
  - rewrite app_nil_r. by split_and!.
  - rewrite foldl_app. destruct (IH g) as (H1 & H2 & H3 & _).
    set (g' := foldl _ g mws) in *. unfold Use. simpl.
    rewrite H1, H2, app_assoc. split_and!; [done|done| |].
    + intros p. rewrite !route_of_Add. rewrite !decide_False by (intros [Hm _]; discriminate Hm).
      rewrite <- H3. done.
    + intros p Hp _. rewrite !route_of_Add. simpl. destruct Hp as [-> | ->].
      * rewrite decide_False by (intros [_ Hp]; rewrite app_nil_r in Hp;
          apply (f_equal length) in Hp; rewrite length_app in Hp; simpl in Hp; lia).
        rewrite decide_True by done. done.
      * by rewrite decide_True.
Qed.
End Routes.
Arguments route : clear implicits.
Arguments Group : clear implicits.
Arguments Echo : clear implicits.

(** What NewWithConfig sets up, for a configuration with a listen address: the
    document route answers with the given document and passes no middleware (so
    no authentication), unless the UI is configured on the same path; the UI
    points to the path of the document route when root and document path are
    plain absolute paths; routes the caller adds later pass all middlewares, in
    order, as does the catch-all of the group. Without a listen address nothing
    is made. *)
Theorem echo_routes {M} cfg rootPath yaml (mws : list M) :
  (ListenAddress cfg = [] ->
     exists e, NewWithConfig cfg rootPath yaml mws = Err e /\
       ctxerrors.Is e "listen address is required" = true) /\
  (ListenAddress cfg <> [] -> exists g, NewWithConfig cfg rootPath yaml mws = Ok (MkEcho cfg g) /\
     (OASPath cfg <> [] -> yaml <> [] -> SwaggerUIPath cfg <> OASPath cfg ->
        route_of GET (rootPath ++ OASPath cfg) g
        = Some (MkRoute GET (rootPath ++ OASPath cfg) (BlobHandler yaml) [])) /\
     (forall root oas, rootPath = abs root -> OASPath cfg = abs oas -> oas <> [] ->
        Forall segment root -> Forall segment oas -> SwaggerUIPath cfg <> [] ->
        route_of GET (rootPath ++ SwaggerUIPath cfg) g
        = Some (MkRoute GET (rootPath ++ SwaggerUIPath cfg) (SwaggerHandler (rootPath ++ OASPath cfg)) [])) /\
     (forall m p h, route_of m (rootPath ++ p) (Add m p h g) = Some (MkRoute m (rootPath ++ p) h mws)) /\
     (mws <> [] -> route_of RouteNotFound (rootPath ++ lit "/*") g
                   = Some (MkRoute RouteNotFound (rootPath ++ lit "/*") NotFoundHandler mws))).
Proof.
  unfold NewWithConfig, validate. split.
  { intros ->. eexists. split; [done|]. reflexivity. }
  intros Hl. destruct (ListenAddress cfg) as [|c l]; [done|]. clear Hl.
  set (g0 := MkGroup rootPath [] []).
  set (g1 := if nonempty (OASPath cfg) && nonempty yaml then _ else g0).
  set (g2 := if nonempty (SwaggerUIPath cfg) && nonempty (OASPath cfg) then _ else g1).
  assert (prefix g1 = rootPath /\ middleware g1 = []) as [P1 M1] by (unfold g1; by case_match).
  assert (prefix g2 = rootPath /\ middleware g2 = []) as [P2 M2] by (unfold g2; by case_match).
  destruct (Use_all g2 mws) as (HP & HM & HG & HN). rewrite P2 in HP, HN. rewrite M2 in HM, HN. simpl in *.
  eexists. split; [done|]. split_and!.
  - intros Ho Hy Hs. rewrite HG. unfold g2. destruct (nonempty (SwaggerUIPath cfg) && nonempty (OASPath cfg)).
    + rewrite route_of_Add, P1, decide_False by (intros [_ H]; by apply app_inv_head in H).
      unfold g1. destruct (OASPath cfg), yaml; try done. simpl. rewrite route_of_Add. simpl.
      by rewrite decide_True.
    + unfold g1. destruct (OASPath cfg), yaml; try done. simpl. rewrite route_of_Add. simpl.
      by rewrite decide_True.
  - intros root oas Hr Ho Hne Fr Fo Hs. rewrite HG. unfold g2.
    assert (nonempty (OASPath cfg) = true) as ->.
    { rewrite Ho. destruct oas; [done|]. by rewrite abs_join. }
    destruct (SwaggerUIPath cfg) as [|s ui]; [done|]. simpl.
    rewrite route_of_Add, P1, M1, decide_True by done.
    rewrite Hr, Ho, Join2_abs by done. done.
  - intros m p h. rewrite route_of_Add, HP, HM. by rewrite decide_True.
  - intros Hm. apply HN; [by right|done].
Qed.

(** ** Start *)

Definition ErrServerClosed : string := "http: Server closed".

(** The goroutine: in Echo.Start, about to send its error, ended. *)
Inductive serveState : Type := GServing | GSending (err : error) | GDone.

(** The caller: in the select, in Shutdown, returned. *)
Inductive mainState : Type := MSelect | MShutdown | MReturned (result : option error).

(** errCh has one slot; [served] and [stopped] remember what Echo.Start and
    Shutdown returned. *)
Record state : Type := MkState {
  mainG : mainState; serveG : serveState; errCh : list error; cancelled : bool;
  served : option (option error); stopped : option (option error)
}.

Definition init : state := MkState MSelect GServing [] false None None.

(** The result of the branch that receives from errCh. *)
Definition serve_result (err : error) : option error :=
  if ctxerrors.Is err ErrServerClosed then None else ctxerrors.Wrap (Some err) "echo server error".

Inductive step : state -> state -> Prop :=
| step_cancel s : cancelled s = false ->
    step s (MkState (mainG s) (serveG s) (errCh s) true (served s) (stopped s))
| step_serve_err s err : serveG s = GServing ->
    step s (MkState (mainG s) (GSending err) (errCh s) (cancelled s) (Some (Some err)) (stopped s))
| step_serve_nil s : serveG s = GServing ->
    step s (MkState (mainG s) GDone (errCh s) (cancelled s) (Some None) (stopped s))
| step_send s err : serveG s = GSending err -> errCh s = [] ->
    step s (MkState (mainG s) GDone [err] (cancelled s) (served s) (stopped s))
| step_select_ctx s : mainG s = MSelect -> cancelled s = true ->
    step s (MkState MShutdown (serveG s) (errCh s) (cancelled s) (served s) (stopped s))
| step_select_err s err rest : mainG s = MSelect -> errCh s = err :: rest ->
    step s (MkState (MReturned (serve_result err)) (serveG s) rest (cancelled s) (served s) (stopped s))
| step_shutdown s r : mainG s = MShutdown ->
    step s (MkState (MReturned (ctxerrors.Wrap r "echo server shutdown error")) (serveG s) (errCh s)
              (cancelled s) (served s) (Some r)).

Definition reachable (s : state) : Prop := rtc step init s.

(** What explains a result of Start. *)
Definition explained (s : state) (result : option error) : Prop :=
  (cancelled s = true /\ exists r, stopped s = Some r /\ result = ctxerrors.Wrap r "echo server shutdown error") \/
  (exists err, served s = Some (Some err) /\ result = serve_result err).

Record inv (s : state) : Prop := {
  inv_serve : match serveG s with
              | GServing => served s = None /\ errCh s = []
              | GSending err => served s = Some (Some err) /\ errCh s = []
              | GDone => is_Some (served s)
              end;
  inv_ch : forall err, err ∈ errCh s -> served s = Some (Some err);
  inv_main : match mainG s with
             | MSelect => stopped s = None
             | MShutdown => cancelled s = true /\ stopped s = None
             | MReturned r => explained s r
             end;
  inv_wait : forall err, mainG s = MSelect -> serveG s = GDone -> served s = Some (Some err) -> errCh s = [err]
}.

Lemma echo_explained s s' r :
  explained s r -> cancelled s' = cancelled s \/ cancelled s' = true -> stopped s' = stopped s ->
  (forall x, served s = Some x -> served s' = Some x) -> explained s' r.
Proof.
  unfold explained. intros [(Hc & x & Hx & ->)|(err & He & ->)] Hcan Hst Hse.
  - left. split; [destruct Hcan; congruence|]. exists x. split; [congruence|done].
  - right. exists err. auto.
Qed.

Lemma echo_inv_step s s' : inv s -> step s s' -> inv s'.
Proof.
  intros [Hs Hch Hm Hw] Hst. destruct Hst as [s Hc|s err Hg|s Hg|s err Hg He|s HM Hc|s err rest HM He|s r HM].
  - constructor; simpl; [done|done| |done]. destruct (mainG s) eqn:E; [done|tauto|].
    eapply echo_explained; [exact Hm|by right|done|done].
  - rewrite Hg in Hs. destruct Hs as [Hs1 Hs2]. constructor; simpl; [done| | |done].
    + rewrite Hs2. by intros ? ?%elem_of_nil.
    + destruct (mainG s) eqn:E; [done|done|]. eapply echo_explained; [exact Hm|by left|done|].
      intros x Hx. simpl. congruence.
  - rewrite Hg in Hs. destruct Hs as [Hs1 Hs2]. constructor; simpl; [by eexists| | |done].
    + rewrite Hs2. by intros ? ?%elem_of_nil.
    + destruct (mainG s) eqn:E; [done|done|]. eapply echo_explained; [exact Hm|by left|done|].
      intros x Hx. simpl. congruence.
  - rewrite Hg in Hs. destruct Hs as [Hs1 Hs2]. constructor; simpl; [by rewrite Hs1| | |].
    + by intros x ->%list_elem_of_singleton.
    + destruct (mainG s) eqn:E; [done|done|]. by eapply echo_explained; [exact Hm|left|..].
    + intros x _ _ Hx. congruence.
  - rewrite HM in Hm. by constructor.
  - constructor; simpl; [| | |done].
    + destruct (serveG s); [|destruct Hs; congruence|done]. destruct Hs; congruence.
    + intros x Hx. apply Hch. rewrite He. by right.
    + right. exists err. split; [|done]. apply Hch. rewrite He. by left.
  - rewrite HM in Hm. destruct Hm as [Hc _]. constructor; simpl; [done|done| |done].
    left. split; [done|]. by exists r.
Qed.

Lemma echo_inv_init : inv init.
Proof. constructor; simpl; [done|by intros ? ?%elem_of_nil|done|done]. Qed.

Lemma echo_reachable s : reachable s -> inv s.
Proof.
  unfold reachable. generalize echo_inv_init. generalize init. intros s0 Hi H. revert Hi.
  induction H as [|x y z Hxy _ IH]; intros Hi; [done|]. apply IH. by eapply echo_inv_step.
Qed.

(** Every step uses up some of this. *)
Definition budget (s : state) : nat := (
  match mainG s with MSelect => 2 | MShutdown => 1 | MReturned _ => 0 end +
  match serveG s with GServing => 2 | GSending _ => 1 | GDone => 0 end +
  (if cancelled s then 0 else 1))%nat.

Lemma step_budget s s' : step s s' -> (budget s' < budget s)%nat.
Proof.
  intros [s0 H|s0 err H|s0 H|s0 err H _|s0 H _|s0 err rest H _|s0 r H]; unfold budget; simpl; rewrite H;
    repeat case_match; lia.
Qed.

(** C28. Start, in every interleaving of its goroutine with the caller: (1) what it
    returns is explained: nil or the wrapped error of Shutdown after the context
    was cancelled, nil for a server that reported it was closed, otherwise the
    wrapped error of the server; (2) executions are finite, at most five steps;
    (3) once the context is cancelled it returns whatever the server does, and
    once the server has failed it returns whatever the context does; (4) the
    goroutine is never stuck on its channel, so it ends when the server ends and
    nothing leaks. *)
Theorem echo_start :
  (forall s r, reachable s -> mainG s = MReturned r -> explained s r) /\
  (forall n s, nsteps step n init s -> (n <= 5)%nat) /\
  (forall s, reachable s -> cancelled s = true ->
     exists s' r, rtc step s s' /\ mainG s' = MReturned r /\ serveG s' = serveG s) /\
  (forall s err, reachable s -> served s = Some (Some err) ->
     exists s' r, rtc step s s' /\ mainG s' = MReturned r /\ cancelled s' = cancelled s) /\
  (forall s err, reachable s -> serveG s = GSending err ->
     exists s', step s s' /\ serveG s' = GDone /\ mainG s' = mainG s).
Proof.
  split; [|split; [|split; [|split]]].
  - intros s r Hr HM. pose proof (inv_main _ (echo_reachable s Hr)) as H. by rewrite HM in H.
  - intros n s H. enough (n + budget s <= budget init)%nat by (unfold budget at 2 in H0; simpl in H0; lia).
    clear -H. induction H as [|n x y z Hxy _ IH]; [lia|]. apply step_budget in Hxy. lia.
  - intros s Hr Hc. destruct (mainG s) eqn:HM.
    + do 2 eexists. split; [eapply rtc_l; [by apply step_select_ctx|]|].
      { eapply rtc_once. by apply (step_shutdown _ None). }
      done.
    + do 2 eexists. split; [eapply rtc_once; by apply (step_shutdown _ None)|]. done.
    + by exists s, result.
  - intros s err Hr Hs. pose proof (echo_reachable s Hr) as [Is Ic _ Iw]. destruct (mainG s) eqn:HM.
    + destruct (serveG s) as [|err'|] eqn:HG.
      * destruct Is. congruence.
      * destruct Is as [He Hch]. do 2 eexists. split.
        { eapply rtc_l; [by eapply step_send|]. eapply rtc_once. by eapply step_select_err. }
        done.
      * pose proof (Iw err eq_refl eq_refl Hs) as Hch.
        do 2 eexists. split; [eapply rtc_once; by eapply step_select_err|]. done.
    + do 2 eexists. split; [eapply rtc_once; by apply (step_shutdown _ None)|]. done.
    + by exists s, result.
  - intros s err Hr HG. pose proof (echo_reachable s Hr) as [Is _ _ _]. rewrite HG in Is. destruct Is as [_ Hch].
    eexists. split; [by eapply step_send|]. done.
Qed.
