(* ===== verification/Temporal.v ===== *)
(** * temporal: workflow status, the wait for a workflow type, client and worker

    workflow.go, wait.go, client.go and worker.go.  The Temporal service is an
    argument: what DescribeWorkflowExecution, GetWorkflow and ListWorkflow answer, and
    how it runs an activity under a retry policy ([Service], with the documented
    behaviour of retry policies as the laws [ServiceLaws]).  The backoff coefficient, a
    float64, is the rational it stands for; the code only compares it with zero and passes
    it on.  Times are nanoseconds. *)

From stdpp Require Import base option list strings.
From Stdlib Require Import ZArith QArith Qround Lia.
From Stdlib.Strings Require Byte.
From S2P Require Import Prelude GoErrors Utf8 CommonErrors Json GoStrings.

Open Scope Z_scope.

(** The text of a byte string in an error message. *)
Definition text (s : bytes) : string := String.string_of_list_byte s.

(** ** workflow.go *)

(** enums.WorkflowExecutionStatus, an int32. *)
Abbreviation WorkflowExecutionStatus := Z.
Definition UNSPECIFIED : WorkflowExecutionStatus := 0.
Definition RUNNING : WorkflowExecutionStatus := 1.
Definition COMPLETED : WorkflowExecutionStatus := 2.
Definition FAILED : WorkflowExecutionStatus := 3.
Definition CANCELED : WorkflowExecutionStatus := 4.
Definition TERMINATED : WorkflowExecutionStatus := 5.
Definition CONTINUED_AS_NEW : WorkflowExecutionStatus := 6.
Definition TIMED_OUT : WorkflowExecutionStatus := 7.
Definition PAUSED : WorkflowExecutionStatus := 8.


(** A *serviceerror.NotFound, found by errors.As as a sentinel is by errors.Is. *)
Definition NotFound : string := "serviceerror.NotFound".

Definition isWorkflowErrorNotFound (err : error) : bool := ctxerrors.Is err NotFound.

Definition isWorkflowStatusTerminal (status : WorkflowExecutionStatus) : bool :=
  if bool_decide (status ∈ [COMPLETED; FAILED; CANCELED; TERMINATED; TIMED_OUT; UNSPECIFIED]) then true
  else if bool_decide (status ∈ [RUNNING; CONTINUED_AS_NEW; PAUSED]) then false
  else false.

(** Workflow.GetStatus; [described] is what DescribeWorkflowExecution answers
    for the workflow's ID. *)
Definition GetStatus (described : gores WorkflowExecutionStatus)
  : gores (WorkflowExecutionStatus * bool) :=
  match described with
  | Err err => if isWorkflowErrorNotFound err then Err ErrNotFound
               else Err (ctxerrors.WrapE err "failed to get workflow status")
  | Ok wfStatus => Ok (wfStatus, isWorkflowStatusTerminal wfStatus)
  end.

(** Workflow.GetResult; [got] is what WorkflowRun.Get answers, which fills the
    target when it succeeds. *)
Definition GetResult {T} (got : gores T) : gores T :=
  match got with
  | Err err => if isWorkflowErrorNotFound err then Err ErrNotFound
               else Err (ctxerrors.WrapE err "failed to get workflow result")
  | Ok target => Ok target
  end.

Definition IsRunning (described : gores WorkflowExecutionStatus) : gores bool :=
  match GetStatus described with
  | Err err => if ctxerrors.Is err "not found" then Ok false
               else Err (ctxerrors.WrapE err "failed to get workflow status")
  | Ok (status, _) => Ok (status =? RUNNING)
  end.

Definition IsCompletedSuccessfully (described : gores WorkflowExecutionStatus) : gores bool :=
  match GetStatus described with
  | Err err => Err (ctxerrors.WrapE err "failed to get workflow status")
  | Ok (wfStatus, isTerminal) => Ok (isTerminal && (wfStatus =? COMPLETED))
  end.

Section Visibility.
(** The Unicode table of strconv.IsPrint, and the visibility store: the
    executions ListWorkflow returns for a query and a page size, per time. *)
Context {X : Type} (printable : Z -> bool) (ListWorkflow : Z -> bytes -> Z -> gores (list X)).

Definition workflow_query (workflowType : bytes) : bytes :=
  lit "WorkflowType=" ++ Quote printable workflowType ++
  lit " AND ExecutionStatus=" ++ Quote printable (lit "Running").

Definition IsWorkflowTypeRunning (now : Z) (workflowType : bytes) : gores bool :=
  match ListWorkflow now (workflow_query workflowType) 1 with
  | Err err => Err (ctxerrors.WrapE err
      ("list workflows by type " +:+ text (Quote printable workflowType)))
  | Ok executions => Ok (0 <? Z.of_nat (length executions))
  end.

(** ** wait.go *)

Definition ErrWorkflowTypeRunning : error := Sentinel "workflow of given type is still running".

(** The body NewWaitForWorkflowTypeClearActivity returns. *)
Definition WaitForWorkflowTypeClearActivity (now : Z) (workflowType : bytes) : option error :=
  match IsWorkflowTypeRunning now workflowType with
  | Err err => Some (ctxerrors.WrapE err "check workflow type running")
  | Ok running => if running then Some ErrWorkflowTypeRunning else None
  end.
End Visibility.

Definition defaultStartToCloseTimeout : Z := 30 * Second.
Definition defaultInitialInterval : Z := 5 * Minute.
Definition defaultBackoffCoefficient : Q := 2.
Definition defaultMaximumInterval : Z := 15 * Minute.
Definition defaultMaximumAttempts : Z := 4.

Record WaitConfig : Type := MkWait {
  StartToCloseTimeout : Z;
  InitialInterval : Z;
  BackoffCoefficient : Q;
  MaximumInterval : Z;
  MaximumAttempts : Z
}.

Definition applyDefaults (c : WaitConfig) : WaitConfig :=
  MkWait
    (if StartToCloseTimeout c =? 0 then defaultStartToCloseTimeout else StartToCloseTimeout c)
    (if InitialInterval c =? 0 then defaultInitialInterval else InitialInterval c)
    (if Qeq_bool (BackoffCoefficient c) 0 then defaultBackoffCoefficient else BackoffCoefficient c)
    (if MaximumInterval c =? 0 then defaultMaximumInterval else MaximumInterval c)
    (if MaximumAttempts c =? 0 then defaultMaximumAttempts else MaximumAttempts c).

(** *** Activities *)

(** temporal.RetryPolicy, without non-retryable error types. *)
Record RetryPolicy : Type := MkPolicy {
  rInitial : Z;
  rBackoff : Q;
  rMaximum : Z;
  rAttempts : Z
}.

(** workflow.ActivityOptions, as far as they are set. *)
Record ActivityOptions : Type := MkOptions { oTimeout : Z; oPolicy : RetryPolicy }.

(** An attempt: when the service scheduled it, when a worker took it up, when it was over
    for the service, and how.  The activity runs at one time of it; what it returns
    counts when it is reported in time. *)
Inductive outcome : Type :=
| AReturned (at_ : Z) (err : option error)
| ATimedOut.

Record attempt : Type := MkAttempt { scheduled : Z; started : Z; ended : Z; how : outcome }.

(** What becomes of the activity for the workflow that waits for it: it completes, it
    fails, the workflow is cancelled, or there is no answer. *)
Inductive verdict : Type :=
| VCompleted
| VFailed (err : error)
| VCanceled (err : error)
| VPending.

(** workflow.ExecuteActivity from the time [now]: the attempts and the verdict. *)
Definition Service : Type := ActivityOptions -> (Z -> option error) -> Z -> list attempt * verdict.

(** Future.Get; [None] while there is no answer. *)
Definition Get (v : verdict) : option (option error) :=
  match v with
  | VCompleted => Some None
  | VFailed err | VCanceled err => Some (Some err)
  | VPending => None
  end.

Definition WaitForWorkflowTypeClear {X} (svc : Service) (printable : Z -> bool)
    (ListWorkflow : Z -> bytes -> Z -> gores (list X)) (workflowType : bytes) (cfg : WaitConfig) (now : Z)
  : option (option error) * list attempt :=
  let cfg := applyDefaults cfg in
  let actCtx := MkOptions (StartToCloseTimeout cfg)
    (MkPolicy (InitialInterval cfg) (BackoffCoefficient cfg) (MaximumInterval cfg) (MaximumAttempts cfg)) in
  let '(attempts, v) :=
    svc actCtx (fun t => WaitForWorkflowTypeClearActivity printable ListWorkflow t workflowType) now in
  (match Get v with
   | Some (Some err) =>
     Some (Some (ctxerrors.WrapE err
       ("wait for workflow type " +:+ text (Quote printable workflowType) +:+ " to clear")))
   | r => r
   end, attempts).

(** *** What Temporal documents of retry policies *)

(** A policy the service accepts. *)
Record policy_ok (p : RetryPolicy) : Prop := {
  ok_initial : 0 < rInitial p;
  ok_backoff : (1 <= rBackoff p)%Q;
  ok_maximum : rInitial p <= rMaximum p;
  ok_attempts : 0 < rAttempts p
}.

(** What a workflow gets of an activity's error is an ActivityError with its text; the
    value itself stays with the worker.  A cancelled workflow gets a CanceledError. *)
Definition ActivityError (msg : string) : error := fmt_Errorf_w "activity error" (ctxerrors.New msg).
Definition CanceledError : error := Sentinel "CanceledError".

Section Laws.
Context (retryable : error -> bool) (o : ActivityOptions) (activity : Z -> option error).

(** An attempt takes at most the start-to-close timeout, and its outcome is the
    activity's. *)
Definition attempt_ok (a : attempt) : Prop :=
  scheduled a <= started a <= ended a /\ ended a <= started a + oTimeout o /\
  match how a with
  | AReturned t err => started a <= t <= ended a /\ err = activity t
  | ATimedOut => True
  end.

(** A timeout and an error that is not excluded are retried. *)
Definition retried (a : attempt) : Prop :=
  match how a with
  | AReturned _ (Some err) => retryable err = true
  | AReturned _ None => False
  | ATimedOut => True
  end.

(** Only a failed attempt is followed by another.  The first retry is scheduled
    after the initial interval, each later one after the interval before times
    the coefficient, up to the maximum interval; [gap] is the interval before.  How a product
    that is not whole is rounded is left open. *)
Fixpoint chained (gap : option Z) (xs : list attempt) : Prop :=
  match xs with
  | a :: ((b :: _) as rest) =>
    let g := scheduled b - ended a in
    retried a /\ rInitial (oPolicy o) <= g <= rMaximum (oPolicy o) /\
    match gap with
    | None => g = rInitial (oPolicy o)
    | Some g0 => forall k, (rBackoff (oPolicy o) == inject_Z k)%Q -> g = Z.min (rMaximum (oPolicy o)) (k * g0)
    end /\ chained (Some g) rest
  | _ => True
  end.

Record lawful (now : Z) (attempts : list attempt) (v : verdict) : Prop := {
  law_count : Z.of_nat (length attempts) <= rAttempts (oPolicy o);
  law_first : forall a, head attempts = Some a -> scheduled a = now;
  law_attempt : Forall attempt_ok attempts;
  law_chained : chained None attempts;
  law_verdict :
    match v with
    | VCompleted => exists a t, last attempts = Some a /\ how a = AReturned t None
    | VFailed err =>
      (exists msg, err = ActivityError msg) /\
      exists a, last attempts = Some a /\
        match how a with
        | AReturned _ None => False
        | AReturned _ (Some e) => Z.of_nat (length attempts) = rAttempts (oPolicy o) \/ retryable e = false
        | ATimedOut => Z.of_nat (length attempts) = rAttempts (oPolicy o)
        end
    | VCanceled err => err = CanceledError
    | VPending => True
    end
}.
End Laws.

(** Which errors are not retried is left open; one made by errors.New is retried.  The
    activity is registered with the workers under its name. *)
Class ServiceLaws (svc : Service) : Type := {
  retryable : error -> bool;
  retry_running : retryable ErrWorkflowTypeRunning = true;
  run_lawful : forall o activity now, policy_ok (oPolicy o) -> 0 < oTimeout o ->
    lawful retryable o activity now (svc o activity now).1 (svc o activity now).2
}.

Section ChainSpec.
Context (rt : error -> bool) (o : ActivityOptions) (activity : Z -> option error).

Lemma chained_gap xs : forall gap i a b, chained rt o gap xs -> xs !! i = Some a -> xs !! S i = Some b ->
  ended a + rInitial (oPolicy o) <= scheduled b <= ended a + rMaximum (oPolicy o).
Proof.
  induction xs as [|x xs IH]; intros gap i a b Hc Ha Hb; [done|].
  destruct xs as [|y xs]; [by destruct i|]. destruct Hc as (_ & Hg & _ & Hc).
  destruct i as [|i]; simpl in *; [simplify_eq; lia|]. exact (IH (Some (scheduled y - ended x)) i a b Hc Ha Hb).
Qed.

(** Every attempt but the last failed. *)
Lemma chained_retried xs x : forall gap, chained rt o gap (xs ++ [x]) -> Forall (retried rt) xs.
Proof.
  induction xs as [|y xs IH]; intros gap Hc; [done|].
  destruct xs as [|z xs]; destruct Hc as (Hr & _ & _ & Hc); (constructor; [done|]); [done|].
  exact (IH _ Hc).
Qed.

(** Everything happens after the start. *)
Lemma chained_after xs : forall gap now, chained rt o gap xs -> Forall (attempt_ok o activity) xs ->
  0 <= rInitial (oPolicy o) -> (forall a, head xs = Some a -> now <= scheduled a) ->
  Forall (fun a => now <= scheduled a /\ scheduled a <= started a <= ended a /\ ended a <= started a + oTimeout o) xs.
Proof.
  induction xs as [|x xs IH]; intros gap now Hc Hok Hi Hh; [done|].
  apply Forall_cons in Hok as [(H1 & H2 & _) Hok]. pose proof (Hh x eq_refl) as Hx.
  constructor; [lia|]. destruct xs as [|y xs]; [done|]. destruct Hc as (_ & Hg & _ & Hc).
  eapply IH; [done..|]. intros a [= <-]. lia.
Qed.

(** How long it takes, given how long attempts wait for a worker. *)
Lemma chained_time delay xs : forall gap a b, chained rt o gap xs -> Forall (attempt_ok o activity) xs ->
  0 <= oTimeout o -> 0 <= rMaximum (oPolicy o) ->
  Forall (fun a => started a - scheduled a <= delay) xs -> head xs = Some a -> last xs = Some b ->
  ended b <= scheduled a + Z.of_nat (length xs) * (delay + oTimeout o)
                         + (Z.of_nat (length xs) - 1) * rMaximum (oPolicy o).
Proof.
  induction xs as [|x xs IH]; intros gap a b Hc Hok Ht Hm Hd Ha Hb; [done|]. injection Ha as <-.
  apply Forall_cons in Hok as [(H1 & H2 & _) Hok]. apply Forall_cons in Hd as [Hd1 Hd].
  destruct xs as [|y xs]; [injection Hb as <-; simpl; lia|].
  destruct Hc as (_ & Hg & _ & Hc). rewrite last_cons_cons in Hb.
  pose proof (IH _ y b Hc Hok Ht Hm Hd eq_refl Hb) as H. cbn [length] in *. lia.
Qed.
End ChainSpec.

(** ** client.go and slog_adapter.go *)

Record ClientConfig : Type := MkClientConfig { HostPort : bytes; Namespace : bytes; APIKey : bytes }.

Definition ErrHostPortRequired : error := Sentinel "temporal host port is required".

Definition validate (c : ClientConfig) : option error :=
  match HostPort c with [] => Some ErrHostPortRequired | _ => None end.

(** parseClientConfig; the result of gonfiguration.Parse is an argument, which Configs.v computes. *)
Definition parseClientConfig (parsed : gores ClientConfig) : gores ClientConfig :=
  match parsed with
  | Err err => Err (ctxerrors.WrapE err "could not parse config")
  | Ok cfg => Ok cfg
  end.

Inductive slogger : Type := DefaultLogger | GivenLogger (id : nat).

(** NewSlogAdapter: nil stands for the default logger. *)
Definition NewSlogAdapter (logger : option nat) : slogger :=
  match logger with None => DefaultLogger | Some l => GivenLogger l end.

(** A record of the logger: level, message and key-values. *)
Inductive slevel : Type := LevelDebug | LevelInfo | LevelWarn | LevelError.

Record srecord : Type := MkSRecord { srLogger : slogger; srLevel : slevel; srMsg : bytes; srKeyvals : list bytes }.

(** The methods of the adapter: the records written by its logger. *)
Definition Debug (l : slogger) (msg : bytes) (keyvals : list bytes) (out : list srecord) : list srecord :=
  out ++ [MkSRecord l LevelDebug msg keyvals].
Definition Info (l : slogger) (msg : bytes) (keyvals : list bytes) (out : list srecord) : list srecord :=
  out ++ [MkSRecord l LevelInfo msg keyvals].
Definition Warn (l : slogger) (msg : bytes) (keyvals : list bytes) (out : list srecord) : list srecord :=
  out ++ [MkSRecord l LevelWarn msg keyvals].
Definition ErrorLog (l : slogger) (msg : bytes) (keyvals : list bytes) (out : list srecord) : list srecord :=
  out ++ [MkSRecord l LevelError msg keyvals].

(** A call's outgoing metadata, and what a unary interceptor makes of a call. *)
Abbreviation metadata := (list (bytes * bytes)).

Record ClientOptions : Type := MkClientOptions {
  oHostPort : bytes;
  oNamespace : bytes;
  oLogger : slogger;
  oTLS : bool;
  oUnaryInterceptor : option (metadata -> metadata);
  oCredentials : option bytes
}.

Definition temporalNamespaceKey : bytes := lit "temporal-namespace".

Definition configureAPIKey (opts : ClientOptions) (cfg : ClientConfig) : ClientOptions :=
  MkClientOptions (oHostPort opts) (oNamespace opts) (oLogger opts) true
    (Some (fun md => md ++ [(temporalNamespaceKey, Namespace cfg)])) (Some (APIKey cfg)).

Definition createClientOptions (cfg : ClientConfig) (logger : option nat) : ClientOptions :=
  let opts := MkClientOptions (HostPort cfg) (Namespace cfg) (NewSlogAdapter logger) false None None in
  match APIKey cfg with
  | [] => opts
  | _ => configureAPIKey opts cfg
  end.

Section Client.
(** client.DialContext of the SDK, and Close of its client. *)
Context {C : Type} (DialContext : ClientOptions -> gores C) (sdkClose : C -> C).

Record Client : Type := MkTemporalClient { config : ClientConfig; C_ : C }.

Definition NewClientWithConfig (cfg : ClientConfig) (logger : option nat) : gores Client :=
  match validate cfg with
  | Some err => Err (ctxerrors.WrapE err "could not validate config")
  | None =>
    match DialContext (createClientOptions cfg logger) with
    | Err err => Err (ctxerrors.WrapE err "failed to create Temporal client")
    | Ok c => Ok (MkTemporalClient cfg c)
    end
  end.

Definition NewClient (parsed : gores ClientConfig) (logger : option nat) : gores Client :=
  match parseClientConfig parsed with
  | Err err => Err (ctxerrors.WrapE err "could not parse config")
  | Ok cfg => NewClientWithConfig cfg logger
  end.

Definition Close (c : Client) : Client := MkTemporalClient (config c) (sdkClose (C_ c)).

(** Client.NewWorkflow *)
Record Workflow : Type := MkWorkflow { wclient : Client; ID : bytes }.

Definition NewWorkflow (c : Client) (id : bytes) : Workflow := MkWorkflow c id.

(** Client.NewWorker; worker.New of the SDK. *)
Record Worker (W : Type) : Type := MkWorker { kclient : Client; kW : W }.

Definition NewWorker {W O} (sdkNew : C -> bytes -> O -> W) (c : Client) (taskQueue : bytes) (opts : O)
  : Worker W := MkWorker W c (sdkNew (C_ c) taskQueue opts).
End Client.

(** ** worker.go *)

Section Worker.
(** A worker of the SDK, with its registrations and its Run. *)
Context {W A : Type} (sdkRegisterWorkflow sdkRegisterActivity : A -> W -> W).
Context (sdkRun : W -> option error * W) (sdkStop : W -> W).

Definition RegisterWorkflow (workflow : A) (w : W) : W := sdkRegisterWorkflow workflow w.
Definition RegisterWorkflows (workflows : list A) (w : W) : W :=
  foldl (fun w workflow => RegisterWorkflow workflow w) w workflows.
Definition RegisterActivity (activity : A) (w : W) : W := sdkRegisterActivity activity w.
Definition RegisterActivities (activities : list A) (w : W) : W :=
  foldl (fun w activity => RegisterActivity activity w) w activities.

Definition Run (w : W) : option error * W :=
  let '(err, w') := sdkRun w in (ctxerrors.Wrap err "failed to run worker", w').

Definition Stop (w : W) : W := sdkStop w.
End Worker.

(** ** Properties *)

(** The settings a caller may leave to the defaults, or give sensibly. *)
Definition wait_config_ok (cfg : WaitConfig) : Prop :=
  0 <= StartToCloseTimeout cfg /\ 0 <= InitialInterval cfg < 2 ^ 63 /\
  (BackoffCoefficient cfg == 0 \/ 1 <= BackoffCoefficient cfg)%Q /\
  0 <= MaximumInterval cfg /\ 0 <= MaximumAttempts cfg /\
  InitialInterval (applyDefaults cfg) <= MaximumInterval (applyDefaults cfg).

Lemma applyDefaults_ok cfg :
  wait_config_ok cfg ->
  let c := applyDefaults cfg in
  policy_ok (MkPolicy (InitialInterval c) (BackoffCoefficient c) (MaximumInterval c) (MaximumAttempts c)) /\
  0 < StartToCloseTimeout c.
Proof.
  intros (Hs & Hi & Hb & Hm & Ha & Hle). simpl.
  unfold defaultInitialInterval, defaultMaximumInterval, defaultMaximumAttempts,
    defaultStartToCloseTimeout, Minute, Second, Millisecond, Nanosecond in *.
  split; [constructor; simpl in *|].
  - destruct (Z.eqb_spec (InitialInterval cfg) 0); lia.
  - destruct (Qeq_bool (BackoffCoefficient cfg) 0) eqn:E; [done|].
    apply Qeq_bool_neq in E. destruct Hb; [done|done].
  - done.
  - destruct (Z.eqb_spec (MaximumAttempts cfg) 0); unfold defaultMaximumAttempts; lia.
  - destruct (Z.eqb_spec (StartToCloseTimeout cfg) 0); lia.
Qed.

Section Wait.
Context {X : Type} (printable : Z -> bool) (ListWorkflow : Z -> bytes -> Z -> gores (list X)) (workflowType : bytes).

(** At [t] the visibility store lists no running workflow of the type. *)
Definition clear (t : Z) : Prop := ListWorkflow t (workflow_query printable workflowType) 1 = Ok [].

(** The attempt asked when it was clear, and said so in time. *)
Definition found_clear (a : attempt) : Prop := exists t err, how a = AReturned t err /\ clear t.

(** The attempt asked and the store answered with this error. *)
Definition found_error (a : attempt) (e : error) : Prop :=
  exists t err, how a = AReturned t err /\ ListWorkflow t (workflow_query printable workflowType) 1 = Err e.

Lemma activity_clear t :
  WaitForWorkflowTypeClearActivity printable ListWorkflow t workflowType = None <-> clear t.
Proof.
  unfold clear, WaitForWorkflowTypeClearActivity, IsWorkflowTypeRunning.
  destruct (ListWorkflow t _ 1) as [[|x l]|e]; simpl; naive_solver.
Qed.

Lemma retried_not_clear o rt a :
  attempt_ok o (fun t => WaitForWorkflowTypeClearActivity printable ListWorkflow t workflowType) a ->
  retried rt a -> ~ found_clear a.
Proof.
  intros (_ & _ & Ho) Hr (t & err & E & Hc). unfold retried in Hr. rewrite E in *. destruct Ho as [_ Ho].
  apply activity_clear in Hc. rewrite Hc in Ho. by subst err.
Qed.

Lemma returned_clear o a t :
  attempt_ok o (fun t => WaitForWorkflowTypeClearActivity printable ListWorkflow t workflowType) a ->
  how a = AReturned t None -> found_clear a.
Proof. intros (_ & _ & Ho) E. rewrite E in Ho. exists t, None. split; [done|]. apply activity_clear. symmetry. apply Ho. Qed.

(** Which attempts were in vain. *)
Lemma earlier_not_clear o rt now xs a v :
  lawful rt o (fun t => WaitForWorkflowTypeClearActivity printable ListWorkflow t workflowType) now (xs ++ [a]) v ->
  Forall (fun a => ~ found_clear a) xs.
Proof.
  intros [_ _ Hok Hch _]. apply chained_retried in Hch. apply Forall_app in Hok as [Hok _].
  rewrite Forall_forall in *. intros x Hx. eapply retried_not_clear; eauto.
Qed.
End Wait.


(** Nothing is set: there are at most three intervals, of 5, 10 and 15 minutes, so the
    attempts are spread over half an hour. *)
Lemma default_wait_is_30_minutes {X : Type} (svc : Service) `{L : !ServiceLaws svc} (printable : Z -> bool)
    (ListWorkflow : Z -> bytes -> Z -> gores (list X)) (workflowType : bytes) (now : Z) a b c d rest :
  (WaitForWorkflowTypeClear svc printable ListWorkflow workflowType (MkWait 0 0 0 0 0) now).2 = a :: b :: c :: d :: rest ->
  rest = [] /\ scheduled a = now /\ scheduled b - ended a = 5 * Minute /\ scheduled c - ended b = 10 * Minute /\
  scheduled d - ended c = 15 * Minute.
Proof.
  unfold WaitForWorkflowTypeClear. set (o := MkOptions _ _). set (act := fun t => _).
  pose proof (run_lawful o act now ltac:(by constructor) ltac:(done)) as [Hn Hf _ Hch _].
  destruct (svc o act now) as [xs v]. cbn [fst snd] in *. intros ->.
  destruct Hch as (_ & _ & G1 & _ & _ & G2 & _ & _ & G3 & _). change (rAttempts (oPolicy o)) with 4 in Hn.
  specialize (G2 2 ltac:(done)). specialize (G3 2 ltac:(done)). rewrite G1 in G2. rewrite G2 in G3.
  split; [destruct rest; [done|]; cbn [length] in Hn; lia|]. split; [by apply Hf|].
  split; [exact G1|]. split; [exact G2|exact G3].
Qed.

(** *** The visibility query *)

(** A reader of two comparisons joined by AND: the two literals. *)
Definition read_query (q : bytes) : option (bytes * bytes) :=
  match trim_prefix (lit "WorkflowType=" ++ [DQUOTE]) q with
  | None => None
  | Some q1 =>
    match scan_quoted q1 with
    | None => None
    | Some (workflowType, q2) =>
      match trim_prefix (lit " AND ExecutionStatus=" ++ [DQUOTE]) q2 with
      | None => None
      | Some q3 =>
        match scan_quoted q3 with
        | Some (status, []) => Some (workflowType, status)
        | _ => None
        end
      end
    end
  end.

(** C39. The query IsWorkflowTypeRunning sends has one meaning for every workflow type,
    also one with quotes, backslashes, control characters or bytes that are not
    UTF-8: a reader of double-quoted literals finds exactly the two comparisons,
    the second with Running and nothing after it; and a type of printable ASCII
    without quotes and backslashes is compared as it is. *)
Theorem query_well_formed (printable : Z -> bool) (workflowType : bytes) :
  (exists literal, read_query (workflow_query printable workflowType) = Some (literal, lit "Running")) /\
  (plain workflowType ->
   read_query (workflow_query printable workflowType) = Some (workflowType, lit "Running")).
Proof.
  assert (HR : Quote printable (lit "Running") = DQUOTE :: lit "Running" ++ [DQUOTE]) by reflexivity.
  assert (Hread : forall x, scan_quoted (x ++ DQUOTE :: lit " AND ExecutionStatus=" ++ DQUOTE :: lit "Running" ++ [DQUOTE])
      = Some (x, lit " AND ExecutionStatus=" ++ DQUOTE :: lit "Running" ++ [DQUOTE]) ->
    read_query (lit "WorkflowType=" ++ DQUOTE :: x ++ DQUOTE :: lit " AND ExecutionStatus=" ++
                DQUOTE :: lit "Running" ++ [DQUOTE]) = Some (x, lit "Running")).
  { intros x Hx. unfold read_query.
    assert (Ht : forall a t, trim_prefix (a ++ [DQUOTE]) (a ++ DQUOTE :: t) = Some t).
    { intros a t. rewrite (app_assoc a [DQUOTE] t : a ++ DQUOTE :: t = _). apply trim_prefix_app. }
    rewrite Ht, Hx, Ht. reflexivity. }
  unfold workflow_query. rewrite HR. split.
  - destruct (Quote_scan printable workflowType (lit " AND ExecutionStatus=" ++ DQUOTE :: lit "Running" ++ [DQUOTE]))
      as (x & -> & Hx). exists x. by apply Hread.
  - intros Hpl. rewrite (Quote_plain printable workflowType Hpl). simpl. rewrite <- app_assoc. apply Hread.
    rewrite (inside_plain workflowType); [simpl; by rewrite app_nil_r|].
    eapply Forall_impl; [exact Hpl|]. by intros b (_ & ? & ?).
Qed.

(** The status methods agree on every answer of the server.  A workflow that
    does not exist is not running, and for GetStatus and IsCompletedSuccessfully the
    error is ErrNotFound; any other error is passed on by all three; for a workflow that
    exists, at most one of IsRunning and IsCompletedSuccessfully is true, a
    completed one is terminal and a running one is not. *)
Theorem workflow_status (described : gores WorkflowExecutionStatus) :
  match described with
  | Err err =>
    (forall p, GetStatus described <> Ok p) /\
    (isWorkflowErrorNotFound err = true ->
       IsRunning described = Ok false /\ GetStatus described = Err ErrNotFound /\
       (exists e, IsCompletedSuccessfully described = Err e /\ ctxerrors.Is e "not found" = true)) /\
    (isWorkflowErrorNotFound err = false -> ctxerrors.Is err "not found" = false ->
       exists e1 e2 e3, GetStatus described = Err e1 /\ IsRunning described = Err e2 /\
         IsCompletedSuccessfully described = Err e3 /\
         forall t, ctxerrors.Is e1 t = ctxerrors.Is err t /\ ctxerrors.Is e2 t = ctxerrors.Is err t /\
                   ctxerrors.Is e3 t = ctxerrors.Is err t)
  | Ok status =>
    exists terminal running completed,
      GetStatus described = Ok (status, terminal) /\ IsRunning described = Ok running /\
      IsCompletedSuccessfully described = Ok completed /\
      (running = true <-> status = RUNNING) /\ (completed = true <-> status = COMPLETED) /\
      (running = true -> terminal = false) /\ (completed = true -> terminal = true) /\
      (terminal = true <-> status = UNSPECIFIED \/ 2 <= status <= 5 \/ status = TIMED_OUT)
  end.
Proof.
  destruct described as [status|err]; unfold IsRunning, IsCompletedSuccessfully, GetStatus.
  - eexists _, _, _. split; [done|]. split; [done|]. split; [done|].
    assert (Hterm : isWorkflowStatusTerminal status = true <->
      status = UNSPECIFIED \/ 2 <= status <= 5 \/ status = TIMED_OUT).
    { unfold isWorkflowStatusTerminal. case_bool_decide as H; [|destruct (bool_decide _)].
      all: rewrite !elem_of_cons, elem_of_nil in H;
        unfold COMPLETED, FAILED, CANCELED, TERMINATED, TIMED_OUT, UNSPECIFIED in *; split; [|lia]; done || lia. }
    unfold RUNNING, COMPLETED, UNSPECIFIED, TIMED_OUT in *.
    destruct (isWorkflowStatusTerminal status), (Z.eqb_spec status 1), (Z.eqb_spec status 2); simpl;
      intuition (try lia; try done).
  - destruct (isWorkflowErrorNotFound err); split; try done; split; try done.
    + intros _. split; [done|]. split; [done|]. by eexists.
    + intros _ Hnf. simpl. rewrite Hnf. eexists _, _, _. by repeat (split; [done|]).
Qed.

(** *** A service *)

(** A service that takes every attempt up at once, to which the activity takes no
    time, and that retries every error. *)
Module AtOnce.
Definition next_gap (p : RetryPolicy) (g : Z) : Z := Z.min (rMaximum p) (Qfloor (rBackoff p * inject_Z g)).

Fixpoint serve (left : nat) (p : RetryPolicy) (activity : Z -> option error) (gap now : Z) : list attempt * verdict :=
  let a := MkAttempt now now now (AReturned now (activity now)) in
  match activity now with
  | None => ([a], VCompleted)
  | Some _ =>
    match left with
    | O => ([a], VFailed (ActivityError "failed"))
    | S left' => let '(xs, v) := serve left' p activity (next_gap p gap) (now + gap) in (a :: xs, v)
    end
  end.

Definition service : Service := fun o activity now =>
  serve (Z.to_nat (rAttempts (oPolicy o)) - 1) (oPolicy o) activity (rInitial (oPolicy o)) now.

Lemma next_gap_spec p g : policy_ok p -> rInitial p <= g <= rMaximum p ->
  rInitial p <= next_gap p g <= rMaximum p /\
  forall k, (rBackoff p == inject_Z k)%Q -> next_gap p g = Z.min (rMaximum p) (k * g).
Proof.
  intros [Hi Hb Hm _] Hg. unfold next_gap. split.
  - assert (g <= Qfloor (rBackoff p * inject_Z g)) as H; [|lia].
    rewrite <- (Qfloor_Z g) at 1. apply Qfloor_resp_le. rewrite <- (Qmult_1_l (inject_Z g)) at 1.
    apply Qmult_le_compat_r; [done|]. change 0%Q with (inject_Z 0). rewrite <- Zle_Qle. lia.
  - intros k Hk. f_equal. rewrite <- (Qfloor_Z (k * g)). apply Qfloor_comp. by rewrite Hk, inject_Z_mult.
Qed.

(** [gap] may follow [g0]. *)
Definition legit (p : RetryPolicy) (g0 : option Z) (gap : Z) : Prop :=
  match g0 with
  | None => gap = rInitial p
  | Some g0 => forall k, (rBackoff p == inject_Z k)%Q -> gap = Z.min (rMaximum p) (k * g0)
  end.

Lemma serve_spec o activity : policy_ok (oPolicy o) -> 0 < oTimeout o ->
  forall left gap g0 now, rInitial (oPolicy o) <= gap <= rMaximum (oPolicy o) -> legit (oPolicy o) g0 gap ->
  let '(xs, v) := serve left (oPolicy o) activity gap now in
  (length xs <= S left)%nat /\ (exists a xs', xs = a :: xs' /\ scheduled a = now) /\
  Forall (attempt_ok o activity) xs /\ chained (fun _ => true) o g0 xs /\
  match v with
  | VCompleted => exists a t, last xs = Some a /\ how a = AReturned t None
  | VFailed err => err = ActivityError "failed" /\ length xs = S left /\
                   exists a t e, last xs = Some a /\ how a = AReturned t (Some e)
  | _ => False
  end.
Proof.
  intros Hp Ht. induction left as [|left IH]; intros gap g0 now Hg Hl; simpl;
    assert (Hok : attempt_ok o activity (MkAttempt now now now (AReturned now (activity now))))
      by (repeat split; simpl; lia).
  - destruct (activity now) as [e|] eqn:E; simpl; (split; [lia|]); (split; [by do 2 eexists|]);
      (split; [by constructor|]); (split; [done|]); [split; [done|]; split; [done|]|]; by repeat eexists.
  - destruct (activity now) as [e|] eqn:E.
    2: { simpl. split; [lia|]. split; [by do 2 eexists|]. split; [by constructor|]. split; [done|]. by repeat eexists. }
    destruct (next_gap_spec (oPolicy o) gap Hp Hg) as [Hn Hleg].
    specialize (IH (next_gap (oPolicy o) gap) (Some gap) (now + gap) Hn Hleg).
    destruct (serve left _ _ _ _) as [xs v]. destruct IH as (Hlen & (b & xs' & -> & Hb) & Hall & Hch & Hv).
    split; [simpl in *; lia|]. split; [by do 2 eexists|]. split; [by constructor|]. split.
    + cbn [chained scheduled ended]. rewrite Hb. replace (now + gap - now) with gap by lia.
      split; [done|]. split; [done|]. split; [done|exact Hch].
    + rewrite last_cons_cons. destruct v; try done. destruct Hv as (-> & Hv1 & Hv2).
      split; [done|]. split; [by rewrite <- Hv1|done].
Qed.

#[export] Instance laws : ServiceLaws service.
Proof.
  refine {| retryable := fun _ => true |}; [done|]. intros o activity now Hp Ht. unfold service.
  pose proof (ok_attempts _ Hp) as Ha. pose proof (ok_initial _ Hp) as Hi. pose proof (ok_maximum _ Hp) as Hm.
  pose proof (serve_spec o activity Hp Ht (Z.to_nat (rAttempts (oPolicy o)) - 1) (rInitial (oPolicy o)) None now
                ltac:(lia) eq_refl) as H.
  destruct (serve _ _ _ _ _) as [xs v]. destruct H as (Hl & (a & xs' & -> & Hs) & Hok & Hch & Hv). simpl fst. simpl snd.
  split; [lia| |done|done|].
  - intros x [= <-]. done.
  - destruct v; try done. destruct Hv as (-> & Hlen & x & t & e & Hx & Hh). split; [by eexists|].
    exists x. split; [done|]. rewrite Hh. left. lia.
Defined.
End AtOnce.
#[export] Existing Instance AtOnce.laws.


(** An API key turns on TLS, credentials and the namespace header on every unary call;
    without one none of them is set, and no client is made without an address. *)
Lemma client_options_spec {C : Type} (DialContext : ClientOptions -> gores C) (cfg : ClientConfig)
    (logger : option nat) (c : Client) :
  NewClientWithConfig DialContext cfg logger = Ok c ->
  HostPort cfg <> [] /\ config c = cfg /\
  exists opts, DialContext opts = Ok (C_ c) /\ oHostPort opts = HostPort cfg /\
    oNamespace opts = Namespace cfg /\
    (APIKey cfg = [] -> oTLS opts = false /\ oCredentials opts = None /\ oUnaryInterceptor opts = None) /\
    (APIKey cfg <> [] -> oTLS opts = true /\ oCredentials opts = Some (APIKey cfg) /\
       exists f, oUnaryInterceptor opts = Some f /\
         forall md, f md = md ++ [(lit "temporal-namespace", Namespace cfg)]).
Proof.
  unfold NewClientWithConfig, validate. destruct (HostPort cfg) eqn:Eh; [done|].
  destruct (DialContext (createClientOptions cfg logger)) as [c'|] eqn:E; [|done]. intros [= <-].
  simpl. split; [done|]. split; [done|]. eexists. split; [exact E|]. unfold createClientOptions.
  destruct (APIKey cfg) eqn:Ek; simpl; rewrite ?Ek, Eh; (split; [done|]; split; [done|]; split; intros H; [|]).
  - done.
  - by destruct (H eq_refl).
  - done.
  - split; [done|]. split; [done|]. by eexists.
Qed.
