(* ===== verification/Configs.v ===== *)
(** * The configurations of the packages

    Every package that is configured from the environment sets its defaults and calls
    gonfiguration.Parse on its struct: cache, http/echo, db/mysql, db/postgresql,
    slogging/loki (client and handler), temporal and app-runner.  The files of these
    packages take the result of Parse as an argument; here it is computed, over the
    process-wide state of gonfiguration that all of them share. *)

From stdpp Require Import base option list gmap strings.
From Stdlib Require Import ZArith Lia SpecFloat.
From Stdlib.Strings Require Byte.
From S2P Require Import Caches EchoServer LokiHandler Temporal SqlPools AppRunner.
From S2P Require Import Prelude GoErrors Utf8 Json Strconv Gonfig.

Open Scope Z_scope.

(** ** The structs *)

Definition tagged (key : string) (ty : ftype) : sfield := MkField (Some (lit key)) None ty.
Definition tagged_default (key dflt : string) (ty : ftype) : sfield := MkField (Some (lit key)) (Some (lit dflt)) ty.
Arguments tagged key%_string_scope ty.
Arguments tagged_default (key dflt)%_string_scope ty.

Definition cache_fields : list sfield :=
  [tagged_default "CACHE_MODE" "none" TString; tagged_default "CACHE_TTL" "5m" TDuration;
   tagged_default "CACHE_MAX_ENTRIES" "10000" TInt; tagged "CACHE_REDIS_KEY_PREFIX" TString].

Definition echo_fields : list sfield :=
  [tagged "HTTP_ECHO_LISTENADDRESS" TString; tagged "HTTP_ECHO_OASPATH" TString;
   tagged "HTTP_ECHO_SWAGGERUIPATH" TString].

Definition mysql_fields : list sfield :=
  [tagged "DB_MYSQL_HOSTNAME" TString; tagged_default "DB_MYSQL_PORT" "3306" TInt;
   tagged "DB_MYSQL_USERNAME" TString; tagged "DB_MYSQL_PASSWORD" TString; tagged "DB_MYSQL_DATABASE" TString;
   tagged_default "DB_MYSQL_ISSSL" "true" TBool].

Definition postgresql_fields : list sfield :=
  [tagged "DB_POSTGRESQL_HOSTNAME" TString; tagged "DB_POSTGRESQL_PORT" TInt;
   tagged "DB_POSTGRESQL_USERNAME" TString; tagged "DB_POSTGRESQL_PASSWORD" TString;
   tagged "DB_POSTGRESQL_DATABASE" TString; tagged "DB_POSTGRESQL_ISSSL" TBool].

Definition loki_client_fields : list sfield := [tagged "SLOGGING_LOKI_URL" TString].

(** LabelKeys has the tag env:"-". *)
Definition loki_handler_fields : list sfield :=
  [tagged "SLOGGING_LOKI_APPNAME" TString; tagged "-" (MkType KOther "map[string]bool")].

Definition temporal_fields : list sfield :=
  [tagged "TEMPORAL_CLIENT_HOSTPORT" TString; tagged "TEMPORAL_CLIENT_NAMESPACE" TString;
   tagged "TEMPORAL_CLIENT_APIKEY" TString].

Definition app_runner_fields : list sfield := [tagged "APPRUNNER_SHUTDOWNTIMEOUT" TDuration].

(** *** From the values of the fields to the records *)

Definition text (s : bytes) : string := String.string_of_list_byte s.
Definition str_at (i : nat) (vs : list fval) : bytes := match vs !! i with Some (FString s) => s | _ => [] end.
Definition num_at (i : nat) (vs : list fval) : Z := match vs !! i with Some (FNum z) => z | _ => 0 end.
Definition bool_at (i : nat) (vs : list fval) : bool := match vs !! i with Some (FBool b) => b | _ => false end.

Definition cache_of (vs : list fval) : Caches.Config :=
  Caches.MkConfig (text (str_at 0 vs)) (num_at 1 vs) (num_at 2 vs) (text (str_at 3 vs)).
Definition echo_of (vs : list fval) : EchoServer.Config :=
  EchoServer.MkConfig (str_at 0 vs) (str_at 1 vs) (str_at 2 vs).
Definition mysql_of (vs : list fval) : SqlPools.mysql.Config :=
  SqlPools.mysql.MkConfig (str_at 0 vs) (num_at 1 vs) (str_at 2 vs) (str_at 3 vs) (str_at 4 vs) (bool_at 5 vs).
Definition postgresql_of (vs : list fval) : SqlPools.postgresql.Config :=
  SqlPools.postgresql.MkConfig (str_at 0 vs) (num_at 1 vs) (str_at 2 vs) (str_at 3 vs) (str_at 4 vs) (bool_at 5 vs).
Definition loki_client_of (vs : list fval) : LokiHandler.ClientConfig := LokiHandler.MkClientConfig (str_at 0 vs).
Definition temporal_of (vs : list fval) : Temporal.ClientConfig :=
  Temporal.MkClientConfig (str_at 0 vs) (str_at 1 vs) (str_at 2 vs).

(** ** The packages' parse functions *)

(** http/constants.go, db/postgresql/config.go, app-runner/app_runner.go *)
Definition DefaultListenAddress : bytes := lit "0.0.0.0:8080".
Definition defaultPostgresqlPort : Z := 5432.
Definition defaultShutdownTimeout : Z := 10 * Second.

Section Configs.
Context (ParseFloat : Z -> bytes -> gores spec_float).

(** gonfiguration.Parse into a new struct. *)
Definition parsed {A} (fs : list sfield) (of_vals : list fval -> A) (environ : list bytes) : io gonfiguration (gores A) :=
  r ← Parse ParseFloat environ (PtrToStruct fs (zero_val ∘ field_type <$> fs));
  mret (match r with
        | (None, PtrToStruct _ vs) => Ok (of_vals vs)
        | (None, _) => Err ErrDestinationNotStruct
        | (Some err, _) => Err err
        end).

Definition set_default (key : bytes) (ty : ftype) (v : fval) : io gonfiguration unit :=
  fun g => ((), SetDefault key (Some (ty, v)) g).

Definition cache_ParseConfig (environ : list bytes) : io gonfiguration (gores Caches.Config) :=
  r ← parsed cache_fields cache_of environ;
  mret (Caches.ParseConfig r).

Definition echo_parseConfig (environ : list bytes) : io gonfiguration (gores EchoServer.Config) :=
  _ ← set_default (lit "HTTP_ECHO_LISTENADDRESS") TString (FString DefaultListenAddress);
  r ← parsed echo_fields echo_of environ;
  mret (EchoServer.parseConfig r).

(** db/mysql and db/postgresql wrap the error where New does. *)
Definition mysql_parseConfig (environ : list bytes) : io gonfiguration (gores SqlPools.mysql.Config) :=
  parsed mysql_fields mysql_of environ.

Definition postgresql_parseConfig (environ : list bytes) : io gonfiguration (gores SqlPools.postgresql.Config) :=
  _ ← set_default (lit "DB_POSTGRESQL_PORT") TInt (FNum defaultPostgresqlPort);
  parsed postgresql_fields postgresql_of environ.

Definition loki_parseClientConfig (environ : list bytes) : io gonfiguration (gores LokiHandler.ClientConfig) :=
  parsed loki_client_fields loki_client_of environ.

Definition loki_parseHandlerConfig (environ : list bytes) : io gonfiguration (gores bytes) :=
  parsed loki_handler_fields (str_at 0) environ.

Definition temporal_parseClientConfig (environ : list bytes) : io gonfiguration (gores Temporal.ClientConfig) :=
  r ← parsed temporal_fields temporal_of environ;
  mret (Temporal.parseClientConfig r).

Definition app_runner_getConfig (environ : list bytes) : io gonfiguration (gores Z) :=
  _ ← (fun g => ((), SetDefaults [(lit "APPRUNNER_SHUTDOWNTIMEOUT", Some (TDuration, FNum defaultShutdownTimeout))] g));
  r ← parsed app_runner_fields (num_at 0) environ;
  mret (AppRunner.getConfig r).

(** *** Constructors that read the environment *)

Definition loki_NewHandler (c : LokiHandler.Client) (lvl : Z) (keys : bytes -> bool) (environ : list bytes)
  : io gonfiguration (gores LokiHandler.Handler) :=
  r ← loki_parseHandlerConfig environ;
  mret (LokiHandler.NewHandler c lvl keys r).

Definition loki_NewClient (environ : list bytes) : io gonfiguration (gores LokiHandler.Client) :=
  r ← loki_parseClientConfig environ;
  mret (LokiHandler.NewClient r).

Definition echo_New {M} (rootPath swaggerYAML : bytes) (middlewares : list M) (environ : list bytes)
  : io gonfiguration (gores (EchoServer.Echo M)) :=
  _ ← set_default (lit "HTTP_ECHO_LISTENADDRESS") TString (FString DefaultListenAddress);
  r ← parsed echo_fields echo_of environ;
  mret (EchoServer.New r rootPath swaggerYAML middlewares).

(** ** What the environment means *)

Section Meaning.
Context (vars : gmap bytes bytes).

Definition text_or (key : string) (d : bytes) : bytes := default d (vars !! lit key).
Definition int_or (key : string) (d : Z) : gores Z := match vars !! lit key with Some s => ParseInt s | None => Ok d end.
Definition duration_or (key : string) (d : Z) : gores Z :=
  match vars !! lit key with Some s => ParseDuration s | None => Ok d end.
Definition bool_or (key : string) (d : bool) : gores bool :=
  match vars !! lit key with Some s => ParseBool s | None => Ok d end.

Definition cache_expected : gores Caches.Config :=
  match duration_or "CACHE_TTL" (5 * Minute), int_or "CACHE_MAX_ENTRIES" 10000 with
  | Ok ttl, Ok n => Ok (Caches.MkConfig (text (text_or "CACHE_MODE" (lit "none"))) ttl n
                          (text (text_or "CACHE_REDIS_KEY_PREFIX" [])))
  | Err err, _ | _, Err err => Err err
  end.

Definition echo_expected : gores EchoServer.Config :=
  Ok (EchoServer.MkConfig (text_or "HTTP_ECHO_LISTENADDRESS" DefaultListenAddress)
        (text_or "HTTP_ECHO_OASPATH" []) (text_or "HTTP_ECHO_SWAGGERUIPATH" [])).

Definition mysql_expected : gores SqlPools.mysql.Config :=
  match int_or "DB_MYSQL_PORT" 3306, bool_or "DB_MYSQL_ISSSL" true with
  | Ok port, Ok ssl =>
    Ok (SqlPools.mysql.MkConfig (text_or "DB_MYSQL_HOSTNAME" []) port (text_or "DB_MYSQL_USERNAME" [])
          (text_or "DB_MYSQL_PASSWORD" []) (text_or "DB_MYSQL_DATABASE" []) ssl)
  | Err err, _ | _, Err err => Err err
  end.

Definition postgresql_expected : gores SqlPools.postgresql.Config :=
  match int_or "DB_POSTGRESQL_PORT" defaultPostgresqlPort, bool_or "DB_POSTGRESQL_ISSSL" false with
  | Ok port, Ok ssl =>
    Ok (SqlPools.postgresql.MkConfig (text_or "DB_POSTGRESQL_HOSTNAME" []) port (text_or "DB_POSTGRESQL_USERNAME" [])
          (text_or "DB_POSTGRESQL_PASSWORD" []) (text_or "DB_POSTGRESQL_DATABASE" []) ssl)
  | Err err, _ | _, Err err => Err err
  end.

Definition loki_client_expected : gores LokiHandler.ClientConfig :=
  Ok (LokiHandler.MkClientConfig (text_or "SLOGGING_LOKI_URL" [])).

Definition temporal_expected : gores Temporal.ClientConfig :=
  Ok (Temporal.MkClientConfig (text_or "TEMPORAL_CLIENT_HOSTPORT" []) (text_or "TEMPORAL_CLIENT_NAMESPACE" [])
        (text_or "TEMPORAL_CLIENT_APIKEY" [])).

Definition app_runner_expected : gores Z := duration_or "APPRUNNER_SHUTDOWNTIMEOUT" defaultShutdownTimeout.
End Meaning.

(** The same value, or both an error. *)
Definition agrees {A} (r expected : gores A) : Prop :=
  match r, expected with
  | Ok a, Ok b => a = b
  | Err _, Err _ => True
  | _, _ => False
  end.

(** *** One struct *)

(** The value of a field: of its variable, else [base]. *)
Definition field_or (vars : gmap bytes bytes) (f : sfield) (base : fval) : gores fval :=
  match env_tag f ≫= (vars !!.) with
  | Some s => setEnvVarValue ParseFloat (field_type f) s
  | None => Ok base
  end.

Fixpoint fields_or (vars : gmap bytes bytes) (fs : list sfield) (bases : list fval) : gores (list fval) :=
  match fs, bases with
  | f :: fs', base :: bases' =>
    match field_or vars f base with
    | Err err => Err err
    | Ok v => match fields_or vars fs' bases' with Err err => Err err | Ok vs => Ok (v :: vs) end
    end
  | _, _ => Ok []
  end.

(** A field whose tag is a plain name, and what it is without its variable. *)
Definition based (g : gonfiguration) (f : sfield) (base : fval) : Prop :=
  exists key t d, env_tag f = Some key /\ parseTag key = (key, false) /\ isSupportedType (field_type f) = true /\
    read_text ParseFloat (field_type f) (default_tag f) = Ok t /\ setDefaultValue g (field_type f) key = Ok d /\
    base = default (default (zero_val (field_type f)) t) d.

Lemma fields_or_settle g vars fs bases : Forall2 (based g) fs bases ->
  match fields_or vars fs bases with
  | Ok vs => Forall3 (settles ParseFloat g vars) fs (zero_val ∘ field_type <$> fs) vs
  | Err _ => forall vs, ~ Forall3 (settles ParseFloat g vars) fs (zero_val ∘ field_type <$> fs) vs
  end.
Proof.
  induction 1 as [|f base fs bases (key & t & d & He & Hp & Hs & Ht & Hd & ->) _ IH]; cbn [fields_or fmap list_fmap]; [constructor|].
  unfold field_or at 1. rewrite He. cbn [mbind option_bind].
  assert (Hset : forall v', settles ParseFloat g vars f (zero_val (field_type f)) v' <->
    match vars !! key with
    | Some s => setEnvVarValue ParseFloat (field_type f) s = Ok v'
    | None => v' = default (default (zero_val (field_type f)) t) d
    end).
  { intros v'. unfold settles. rewrite He, Hp, Hs. split.
    - intros (_ & t' & d' & e & Ht' & Hd' & Hr & _ & ->). rewrite Ht in Ht'. rewrite Hd in Hd'. simplify_eq.
      unfold read_text in Hr.
      destruct (vars !! key) as [s|]; [|by simplify_eq]. destruct (setEnvVarValue _ _ s); by simplify_eq.
    - intros Hv. split; [done|]. exists t, d. unfold read_text at 2. destruct (vars !! key) as [s|].
      + rewrite Hv. by exists (Some v').
      + by exists None. }
  destruct (vars !! key) as [s|].
  - destruct (setEnvVarValue ParseFloat (field_type f) s) as [v|] eqn:E.
    + destruct (fields_or vars fs bases) as [vs|].
      * constructor; [by apply Hset|done].
      * intros vs' H. inversion H; subst. by eapply IH.
    + intros vs' H. inversion H as [|??? v' ?? Hv]; subst. by apply Hset in Hv.
  - destruct (fields_or vars fs bases) as [vs|].
    + constructor; [by apply Hset|done].
    + intros vs' H. inversion H; subst. by eapply IH.
Qed.

(** What [parsed] gives for such a struct. *)
Lemma parsed_based {A} g fs bases (of_vals : list fval -> A) environ : Forall2 (based g) fs bases ->
  agrees (parsed fs of_vals environ g).1
    (match getEnvVars environ with
     | Err err => Err err
     | Ok vars => match fields_or vars fs bases with Ok vs => Ok (of_vals vs) | Err err => Err err end
     end).
Proof.
  intros Hb. unfold parsed, mbind, io_bind, Parse. destruct (getEnvVars environ) as [vars|]; [|done].
  rewrite (parseDstFields_frame ParseFloat _ g) by done. pose proof (fields_or_settle g vars fs bases Hb) as Hs.
  set (zs := zero_val ∘ field_type <$> fs) in *. assert (length zs = length fs) as Hl by apply length_fmap.
  destruct (parseDstFields ParseFloat g vars fs zs) as [[err|] vs'] eqn:E; cbn.
  - destruct (fields_or vars fs bases) as [vs|]; [|done]. apply parse_settles in Hs; [|done]. congruence.
  - apply parse_settles in E; [|done]. destruct (fields_or vars fs bases) as [vs|]; cbn; [|by destruct (Hs vs')].
    f_equal. apply parse_settles in E, Hs; [|done..]. congruence.
Qed.

(** *** The values of a field *)

Lemma field_or_string vars key tag d :
  field_or vars (MkField (Some (lit key)) tag TString) (FString d) = Ok (FString (text_or vars key d)).
Proof. unfold field_or, text_or. cbn. by destruct (vars !! lit key). Qed.

Lemma field_or_int vars key tag d :
  field_or vars (MkField (Some (lit key)) tag TInt) (FNum d) = set_parsed "failed to parse int" (int_or vars key d) FNum.
Proof.
  unfold field_or, int_or. cbn. destruct (vars !! lit key) as [s|]; [|done].
  unfold setEnvVarValue, setInt. cbn. destruct (ParseInt s) as [z|] eqn:E; [|done]. cbn. apply ParseInt_int64 in E. do 2 f_equal.
  change (truncS 64 z) with (wrap64 z). by apply wrap64_id.
Qed.

Lemma field_or_duration vars key tag d :
  field_or vars (MkField (Some (lit key)) tag TDuration) (FNum d)
  = set_parsed "failed to parse duration" (duration_or vars key d) FNum.
Proof. unfold field_or, duration_or. cbn. by destruct (vars !! lit key). Qed.

Lemma field_or_bool vars key tag d :
  field_or vars (MkField (Some (lit key)) tag TBool) (FBool d) = set_parsed "failed to parse bool" (bool_or vars key d) FBool.
Proof. unfold field_or, bool_or. cbn. by destruct (vars !! lit key). Qed.

Hint Rewrite field_or_string field_or_int field_or_duration field_or_bool : fields.

(** *** The defaults the packages set *)

Definition library_defaults : list (bytes * any) :=
  [(lit "HTTP_ECHO_LISTENADDRESS", Some (TString, FString DefaultListenAddress));
   (lit "DB_POSTGRESQL_PORT", Some (TInt, FNum defaultPostgresqlPort));
   (lit "APPRUNNER_SHUTDOWNTIMEOUT", Some (TDuration, FNum defaultShutdownTimeout))].

(** All of them set. *)
Definition library : gonfiguration := SetDefaults library_defaults init.

Definition library_keys : list bytes :=
  omap key_of (cache_fields ++ echo_fields ++ mysql_fields ++ postgresql_fields ++ loki_client_fields
               ++ loki_handler_fields ++ temporal_fields ++ app_runner_fields).

(** Nobody else has set a default of theirs. *)
Definition undisturbed (g : gonfiguration) : Prop :=
  forall key, key ∈ library_keys -> getDefault key g = None \/ getDefault key g = getDefault key library.

(** What a field is without its variable, computed. *)
Definition base_of (g : gonfiguration) (f : sfield) : option fval :=
  key ← env_tag f;
  if bool_decide (parseTag key = (key, false)) && isSupportedType (field_type f) then
    match read_text ParseFloat (field_type f) (default_tag f), setDefaultValue g (field_type f) key with
    | Ok t, Ok d => Some (default (default (zero_val (field_type f)) t) d)
    | _, _ => None
    end
  else None.

Lemma base_of_based g f base : base_of g f = Some base -> based g f base.
Proof.
  unfold base_of, based. destruct (env_tag f) as [key|]; cbn; [|done]. case_bool_decide as Hp; cbn; [|done].
  destruct (isSupportedType (field_type f)); [|done]. destruct (read_text _ _ _) as [t|]; [|done].
  destruct (setDefaultValue _ _ _) as [d|] eqn:Ed; [|done]. intros [= <-]. by exists key, t, d.
Qed.

Lemma based_frame g g' f base : (forall key, key_of f = Some key -> getDefault key g = getDefault key g') ->
  based g f base -> based g' f base.
Proof.
  intros Hk (key & t & d & He & Hp & Hs & Ht & Hd & ->). exists key, t, d.
  rewrite <- (setDefaultValue_frame g g'); [done|]. apply Hk. unfold key_of. rewrite He. cbn. by rewrite Hp.
Qed.

(** A struct of the library in a state where its own defaults are set. *)
Lemma library_based g fs bases :
  mapM (base_of library) fs = Some bases ->
  (forall key, key ∈ omap key_of fs -> getDefault key g = getDefault key library) -> Forall2 (based g) fs bases.
Proof.
  rewrite mapM_Some. intros Hb Hk. induction Hb as [|f base fs bases Hf _ IH]; constructor.
  - apply base_of_based in Hf. eapply based_frame; [|exact Hf]. intros key Ek. symmetry. apply Hk. cbn. rewrite Ek.
    apply list_elem_of_here.
  - apply IH. intros key Hin. apply Hk. cbn. destruct (key_of f); [by apply list_elem_of_further|done].
Qed.

(** [undisturbed] is enough for the keys whose default is set, or who have none. *)
Definition own_only (own : list bytes) (fs : list sfield) : Prop :=
  Forall (fun key => key ∈ library_keys /\ (key ∈ own \/ getDefault key library = None)) (omap key_of fs).

Lemma undisturbed_own g fs (own : list bytes) :
  undisturbed g -> own_only own fs -> (forall key, key ∈ own -> getDefault key g = getDefault key library) ->
  forall key, key ∈ omap key_of fs -> getDefault key g = getDefault key library.
Proof.
  intros Hu Hall Hown key Hin. unfold own_only in Hall. rewrite Forall_forall in Hall.
  destruct (Hall key Hin) as [Hl [Ho|Hn]]; [by apply Hown|]. destruct (Hu key Hl) as [H|H]; congruence.
Qed.

Lemma getDefault_SetDefault key key' v g :
  getDefault key (SetDefault key' v g) = if decide (key' = key) then v else getDefault key g.
Proof. unfold getDefault, SetDefault. cbn. rewrite lookup_insert. by case_decide. Qed.

(** SetDefault of one of the library's own defaults. *)
Lemma undisturbed_set g key v :
  undisturbed g -> key ∉ library_keys \/ v = getDefault key library -> undisturbed (SetDefault key v g).
Proof.
  intros Hu Hv key' Hin. rewrite getDefault_SetDefault. case_decide as Hk; [subst|by apply Hu].
  destruct Hv as [?| ->]; [done|by right].
Qed.

Lemma undisturbed_Parse g environ dst : undisturbed g -> undisturbed (Parse ParseFloat environ dst g).2.
Proof. intros Hu key Hin. unfold getDefault. rewrite Parse_defaults. by apply Hu. Qed.

(** A package: the default it sets, its struct. *)
Lemma parsed_library {A} g fs bases (of_vals : list fval -> A) own environ :
  undisturbed g -> bool_decide (own_only own fs) = true -> mapM (base_of library) fs = Some bases ->
  (forall key, key ∈ own -> getDefault key g = getDefault key library) ->
  agrees (parsed fs of_vals environ g).1
    (match getEnvVars environ with
     | Err err => Err err
     | Ok vars => match fields_or vars fs bases with Ok vs => Ok (of_vals vs) | Err err => Err err end
     end).
Proof.
  intros Hu Hown%bool_decide_eq_true Hb Hset. apply parsed_based, library_based; [done|]. by eapply undisturbed_own.
Qed.

(** ** Any package, after anything *)

Inductive package : Type :=
| PCache | PEcho | PMysql | PPostgresql | PLokiClient | PLokiHandler | PTemporal | PAppRunner.

Inductive config : Type :=
| CCache (c : Caches.Config)
| CEcho (c : EchoServer.Config)
| CMysql (c : SqlPools.mysql.Config)
| CPostgresql (c : SqlPools.postgresql.Config)
| CLokiClient (c : LokiHandler.ClientConfig)
| CLokiHandler (appName : bytes)
| CTemporal (c : Temporal.ClientConfig)
| CAppRunner (shutdownTimeout : Z).

Definition as_config {A} (C : A -> config) (m : io gonfiguration (gores A)) : io gonfiguration (gores config) :=
  r ← m;
  mret (match r with Ok a => Ok (C a) | Err err => Err err end).

Definition configure (p : package) (environ : list bytes) : io gonfiguration (gores config) :=
  match p with
  | PCache => as_config CCache (cache_ParseConfig environ)
  | PEcho => as_config CEcho (echo_parseConfig environ)
  | PMysql => as_config CMysql (mysql_parseConfig environ)
  | PPostgresql => as_config CPostgresql (postgresql_parseConfig environ)
  | PLokiClient => as_config CLokiClient (loki_parseClientConfig environ)
  | PLokiHandler => as_config CLokiHandler (loki_parseHandlerConfig environ)
  | PTemporal => as_config CTemporal (temporal_parseClientConfig environ)
  | PAppRunner => as_config CAppRunner (app_runner_getConfig environ)
  end.

(** What else happens in the process before. *)
Inductive event : Type :=
| Configured (p : package) (environ : list bytes)
| AppDefault (key : bytes) (val : any)
| AppParse (environ : list bytes) (dst : dest).

(** The application sets defaults for names of its own. *)
Definition foreign (e : event) : Prop :=
  match e with AppDefault key _ => key ∉ library_keys | _ => True end.

Definition happen (g : gonfiguration) (e : event) : gonfiguration :=
  match e with
  | Configured p environ => (configure p environ g).2
  | AppDefault key val => SetDefault key val g
  | AppParse environ dst => (Parse ParseFloat environ dst g).2
  end.

Definition after (es : list event) : gonfiguration := foldl happen init es.

Definition lift {A} (C : A -> config) (r : gores A) : gores config :=
  match r with Ok a => Ok (C a) | Err err => Err err end.

(** The configuration the environment stands for.  The handler of slogging/loki has none. *)
Definition expected (p : package) (environ : list bytes) : gores config :=
  match getEnvVars environ with
  | Err err => Err err
  | Ok vars =>
    match p with
    | PCache => lift CCache (cache_expected vars)
    | PEcho => lift CEcho (echo_expected vars)
    | PMysql => lift CMysql (mysql_expected vars)
    | PPostgresql => lift CPostgresql (postgresql_expected vars)
    | PLokiClient => lift CLokiClient (loki_client_expected vars)
    | PLokiHandler => Err ErrUnsupportedFieldType
    | PTemporal => lift CTemporal (temporal_expected vars)
    | PAppRunner => lift CAppRunner (app_runner_expected vars)
    end
  end.

Lemma parsed_state {A} fs (of_vals : list fval -> A) environ g :
  (parsed fs of_vals environ g).2 = (Parse ParseFloat environ (PtrToStruct fs (zero_val ∘ field_type <$> fs)) g).2.
Proof. unfold parsed, mbind, io_bind. by destruct (Parse _ _ _ g). Qed.

(** The state a package leaves: its own default set, its Parse done. *)
Lemma configure_undisturbed p environ g : undisturbed g -> undisturbed (configure p environ g).2.
Proof.
  intros Hu.
  assert (Hp : forall {A} fs (of_vals : list fval -> A) h, undisturbed h -> undisturbed (parsed fs of_vals environ h).2).
  { intros A fs of_vals h Hh. rewrite parsed_state. by apply undisturbed_Parse. }
  assert (Hset : forall key v, v = getDefault key library -> undisturbed (SetDefault key v g)).
  { intros key v Hv. apply undisturbed_set; [done|by right]. }
  destruct p; cbn [configure]; unfold as_config, cache_ParseConfig, echo_parseConfig, mysql_parseConfig,
    postgresql_parseConfig, loki_parseClientConfig, loki_parseHandlerConfig, temporal_parseClientConfig,
    app_runner_getConfig, set_default, mbind, io_bind, SetDefaults; cbn [foldl];
    match goal with |- context [parsed ?fs ?f environ ?h] =>
      specialize (Hp _ fs f h); destruct (parsed fs f environ h) as [r g'] end;
    cbn in *; apply Hp; try done; apply Hset; vm_compute; reflexivity.
Qed.

Lemma happen_undisturbed g e : foreign e -> undisturbed g -> undisturbed (happen g e).
Proof.
  destruct e as [p environ|key val|environ dst]; cbn; intros Hf Hu.
  - by apply configure_undisturbed.
  - apply undisturbed_set; [done|by left].
  - by apply undisturbed_Parse.
Qed.

Lemma after_undisturbed es : Forall foreign es -> undisturbed (after es).
Proof.
  unfold after. assert (undisturbed init) as Hi by (intros key _; by left). revert Hi. generalize init.
  induction es as [|e es IH]; intros g Hg Hes; [done|]. apply Forall_cons in Hes as [He Hes]. cbn.
  apply IH; [by apply happen_undisturbed|done].
Qed.

(** A struct with a tagged field of an unsupported type is never parsed. *)
Lemma parsed_unsupported {A} fs f (of_vals : list fval -> A) environ g :
  f ∈ fs -> is_Some (env_tag f) -> isSupportedType (field_type f) = false ->
  is_ok (parsed fs of_vals environ g).1 = false.
Proof.
  intros Hf [tag Ht] Hs. unfold parsed, mbind, io_bind, Parse. destruct (getEnvVars environ) as [vars|]; [|done].
  destruct (parseDstFields _ _ _ _ _) as [[err|] vs'] eqn:E; [done|exfalso].
  apply parse_settles in E; [|apply length_fmap]. induction E as [|f' v v' fs vs vs' Hset _ IH]; [by apply elem_of_nil in Hf|].
  apply elem_of_cons in Hf as [<-|Hf]; [|by apply IH]. unfold settles in Hset. rewrite Ht in Hset.
  destruct (parseTag tag). destruct Hset as [Hset _]. congruence.
Qed.

Lemma loki_handler_unparsed environ g : is_ok (loki_parseHandlerConfig environ g).1 = false.
Proof.
  apply (parsed_unsupported _ (tagged "-" (MkType KOther "map[string]bool"))); [|by eexists|done].
  apply list_elem_of_further, list_elem_of_here.
Qed.

(** *** Each package *)

(** The struct is one of the library's: its parse is what its fields say. *)
Ltac parse_library bases own prove :=
  match goal with |- context [parsed ?fs ?f ?environ ?g] =>
    let H := fresh "Hparsed" in
    pose proof (parsed_library g fs bases f own environ) as H;
    specialize (H ltac:(prove) ltac:(vm_compute; reflexivity) ltac:(vm_compute; reflexivity));
    specialize (H ltac:(intros ? ?; repeat match goal with Hin : _ ∈ _ |- _ => first
      [apply elem_of_nil in Hin; done | apply elem_of_cons in Hin as [->|Hin]] end;
      rewrite getDefault_SetDefault, decide_True by done; vm_compute; reflexivity));
    destruct (parsed fs f environ g) as [r g']; cbn [fst] in *;
    destruct (getEnvVars environ) as [vars|]; [|by destruct r];
    unfold tagged, tagged_default, fields_or, cache_fields, echo_fields, mysql_fields, postgresql_fields,
      loki_client_fields, temporal_fields, app_runner_fields, tagged, tagged_default in H;
    autorewrite with fields in H
  end.

Ltac set_own Hu := apply undisturbed_set; [exact Hu|right; vm_compute; reflexivity].

Section Agree.
Context (environ : list bytes) (g : gonfiguration) (Hu : undisturbed g).

Local Abbreviation means e := (match getEnvVars environ with Err err => Err err | Ok vars => e vars end).

Lemma cache_agrees : agrees (cache_ParseConfig environ g).1 (means cache_expected).
Proof.
  unfold cache_ParseConfig, mbind, io_bind, Caches.ParseConfig.
  parse_library [FString (lit "none"); FNum (5 * Minute); FNum 10000; FString []] (@nil bytes) ltac:(exact Hu).
  unfold cache_expected. destruct (duration_or _ _ _), (int_or _ _ _), r; done.
Qed.

Lemma echo_agrees : agrees (echo_parseConfig environ g).1 (means echo_expected).
Proof.
  unfold echo_parseConfig, set_default, mbind, io_bind, EchoServer.parseConfig.
  parse_library [FString DefaultListenAddress; FString []; FString []] [lit "HTTP_ECHO_LISTENADDRESS"] ltac:(set_own Hu).
  by destruct r.
Qed.

Lemma mysql_agrees : agrees (mysql_parseConfig environ g).1 (means mysql_expected).
Proof.
  unfold mysql_parseConfig.
  parse_library [FString []; FNum 3306; FString []; FString []; FString []; FBool true] (@nil bytes) ltac:(exact Hu).
  unfold mysql_expected. destruct (int_or _ _ _), (bool_or _ _ _), r; done.
Qed.

Lemma postgresql_agrees : agrees (postgresql_parseConfig environ g).1 (means postgresql_expected).
Proof.
  unfold postgresql_parseConfig, set_default, mbind, io_bind.
  parse_library [FString []; FNum defaultPostgresqlPort; FString []; FString []; FString []; FBool false]
    [lit "DB_POSTGRESQL_PORT"] ltac:(set_own Hu).
  unfold postgresql_expected. destruct (int_or _ _ _), (bool_or _ _ _), r; done.
Qed.

Lemma loki_client_agrees : agrees (loki_parseClientConfig environ g).1 (means loki_client_expected).
Proof. unfold loki_parseClientConfig. parse_library [FString []] (@nil bytes) ltac:(exact Hu). by destruct r. Qed.

Lemma temporal_agrees : agrees (temporal_parseClientConfig environ g).1 (means temporal_expected).
Proof.
  unfold temporal_parseClientConfig, mbind, io_bind, Temporal.parseClientConfig.
  parse_library [FString []; FString []; FString []] (@nil bytes) ltac:(exact Hu). by destruct r.
Qed.

Lemma app_runner_agrees : agrees (app_runner_getConfig environ g).1 (means app_runner_expected).
Proof.
  unfold app_runner_getConfig, SetDefaults, mbind, io_bind, AppRunner.getConfig. cbn [foldl].
  parse_library [FNum defaultShutdownTimeout] [lit "APPRUNNER_SHUTDOWNTIMEOUT"] ltac:(set_own Hu).
  unfold app_runner_expected. destruct (duration_or _ _ _), r; done.
Qed.
End Agree.

Lemma as_config_agrees {A} (C : A -> config) (m : io gonfiguration (gores A)) g r :
  agrees (m g).1 r -> agrees (as_config C m g).1 (lift C r).
Proof. unfold as_config, mbind, io_bind. destruct (m g) as [[a|] g'], r; cbn; congruence. Qed.

(** C20. Every package gets the configuration its environment stands for, whatever
    packages have been configured in the process before, in any order and under other
    environments, whatever structs of its own the application has parsed and whatever
    defaults it has set for keys of its own; the application must not have called
    SetDefault on a key of one of these packages (see [app_default_changes]).  Variables that
    are set win over the defaults, those the packages set in the shared state included;
    texts that are not a number, a boolean or a duration are errors.  The handler of
    slogging/loki is an error in every environment. *)
Theorem configs_from_environment (es : list event) (p : package) (environ : list bytes) :
  Forall foreign es -> agrees (configure p environ (after es)).1 (expected p environ).
Proof.
  intros Hes. pose proof (after_undisturbed es Hes) as Hu. revert Hu. generalize (after es). intros g Hu. unfold expected.
  assert (Hlift : forall {A} (C : A -> config) (m : io gonfiguration (gores A)) e,
    agrees (m g).1 (match getEnvVars environ with Err err => Err err | Ok vars => e vars end) ->
    agrees (as_config C m g).1 (match getEnvVars environ with Err err => Err err | Ok vars => lift C (e vars) end)).
  { intros A C m e H. apply (as_config_agrees C) in H. by destruct (getEnvVars environ). }
  destruct p; cbn [configure]; try apply Hlift; auto using cache_agrees, echo_agrees, mysql_agrees,
    postgresql_agrees, loki_client_agrees, temporal_agrees, app_runner_agrees.
  pose proof (loki_handler_unparsed environ g) as H. unfold as_config, mbind, io_bind.
  destruct (loki_parseHandlerConfig environ g) as [[a|] g']; [done|]. by destruct (getEnvVars environ).
Qed.

(** ** Constructors in their environment *)

(** slogging/loki: NewHandler fails in every environment, since its configuration has a
    tagged field of a type Parse refuses. *)
Theorem loki_NewHandler_fails c lvl keys environ g : is_ok (loki_NewHandler c lvl keys environ g).1 = false.
Proof.
  unfold loki_NewHandler, mbind, io_bind. pose proof (loki_handler_unparsed environ g) as H.
  by destruct (loki_parseHandlerConfig environ g) as [[app|] g'].
Qed.

(** http/echo: New needs no variable; it fails only in a broken environment or when the
    listen address is set to nothing. *)
Theorem echo_New_environment {M} (es : list event) root yaml (mws : list M) environ :
  Forall foreign es ->
  is_ok (echo_New root yaml mws environ (after es)).1 = true <->
  exists vars, getEnvVars environ = Ok vars /\ vars !! lit "HTTP_ECHO_LISTENADDRESS" <> Some [].
Proof.
  intros Hes. pose proof (echo_agrees environ _ (after_undisturbed es Hes)) as H. revert H.
  unfold echo_New, echo_parseConfig, set_default, mbind, io_bind, EchoServer.New.
  destruct (parsed _ _ _ _) as [r g']. cbn [fst mret]. unfold EchoServer.parseConfig.
  destruct (getEnvVars environ) as [vars|]; [|destruct r; [done|]; split; [done|by intros (vars & [=] & _)]].
  destruct r as [cfg|]; [|done]. cbn. intros ->. unfold EchoServer.NewWithConfig, EchoServer.validate, text_or.
  cbn [EchoServer.ListenAddress].
  assert (Hex : (exists vars', (Ok vars : gores _) = Ok vars' /\ vars' !! lit "HTTP_ECHO_LISTENADDRESS" <> Some []) <->
                vars !! lit "HTTP_ECHO_LISTENADDRESS" <> Some []).
  { split; [by intros (vars' & [= <-] & Hne)|by exists vars]. }
  etrans; [|symmetry; exact Hex]. by destruct (vars !! lit "HTTP_ECHO_LISTENADDRESS") as [[|b s]|].
Qed.

(** slogging/loki: NewClient succeeds exactly when the URL is set to something. *)
Theorem loki_NewClient_environment (es : list event) environ :
  Forall foreign es ->
  is_ok (loki_NewClient environ (after es)).1 = true <->
  exists vars u, getEnvVars environ = Ok vars /\ vars !! lit "SLOGGING_LOKI_URL" = Some u /\ u <> [].
Proof.
  intros Hes. pose proof (loki_client_agrees environ _ (after_undisturbed es Hes)) as H. revert H.
  unfold loki_NewClient, mbind, io_bind, LokiHandler.NewClient.
  destruct (loki_parseClientConfig environ _) as [r g']. cbn [fst mret].
  destruct (getEnvVars environ) as [vars|]; [|destruct r; [done|]; split; [done|by intros (vars & u & [=] & _)]].
  destruct r as [cfg|]; [|done]. cbn. intros ->. unfold LokiHandler.NewClientWithConfig, LokiHandler.validate_client, text_or.
  cbn [LokiHandler.URL].
  assert (Hex : (exists vars' u, (Ok vars : gores _) = Ok vars' /\ vars' !! lit "SLOGGING_LOKI_URL" = Some u /\ u <> []) <->
                (exists u, vars !! lit "SLOGGING_LOKI_URL" = Some u /\ u <> [])).
  { split; [intros (vars' & u & [= <-] & Hu); eauto|]. intros (u & Hu). by exists vars, u. }
  etrans; [|symmetry; exact Hex]. destruct (vars !! lit "SLOGGING_LOKI_URL") as [[|b s]|]; cbn.
  - split; [done|]. by intros (u & [= <-] & ?).
  - split; [eauto|done].
  - split; [done|]. by intros (u & [=] & _).
Qed.
End Configs.

(** ** An environment for the witness *)

(** A default the application sets for a key of the library is used like the
    library's own, and is an error when it has another type. *)
Example app_default_changes :
  let mode v := AppDefault (lit "CACHE_MODE") (Some v) in
  expected PCache [] = Ok (CCache (Caches.MkConfig "none" (5 * Minute) 10000 "")) /\
  (configure no_float PCache [] (after no_float [mode (TString, FString (lit "memory"))])).1
  = Ok (CCache (Caches.MkConfig "memory" (5 * Minute) 10000 "")) /\
  is_ok (configure no_float PCache [] (after no_float [mode (TInt, FNum 1)])).1 = false.
Proof. vm_compute. repeat split; reflexivity. Qed.

Definition demo_process : list event :=
  [Configured PEcho [lit "HTTP_ECHO_LISTENADDRESS=:80"]; AppDefault (lit "APP_NAME") (Some (TString, FString (lit "a")));
   Configured PCache [lit "CACHE_TTL=1h"]; Configured PLokiHandler []].

Definition cache_environ : list bytes := [lit "HOME=/root"; lit "CACHE_MODE=memory"; lit "CACHE_TTL=1m30s"].

Example cache_environ_expected :
  expected PCache cache_environ = Ok (CCache (Caches.MkConfig "memory" (90 * Second) 10000 "")).
Proof. vm_compute. reflexivity. Qed.

Example postgresql_environ_expected :
  expected PPostgresql [] = Ok (CPostgresql (SqlPools.postgresql.MkConfig [] 5432 [] [] [] false)) /\
  is_ok (expected PPostgresql [lit "DB_POSTGRESQL_PORT=5432x"]) = false.
Proof. vm_compute. split; reflexivity. Qed.

Lemma configs_from_environment_witness :
  Forall foreign demo_process /\
  agrees (configure no_float PCache cache_environ (after no_float demo_process)).1 (expected PCache cache_environ).
Proof.
  assert (Forall foreign demo_process) as H.
  { repeat (apply List.Forall_cons; [first [exact I | apply (bool_decide_unpack _); vm_compute; exact I]|]). apply List.Forall_nil. }
  split; [exact H|]. exact (configs_from_environment no_float demo_process PCache cache_environ H).
Defined.
