(* ===== verification/Float64.v ===== *)
(** * float64: rounding to nearest

    Go's float64 is IEEE 754 binary64.  A finite value is the rational it stands
    for, and an operation is the exact one followed by [fl], which rounds to a multiple of a
    power of two with 53 significant bits, ties to even, and not below the smallest
    subnormal 2^-1074.  There is no largest exponent: where the program's own values could
    overflow to an infinity, it only compares the result with a bound, which a value beyond
    the range passes or fails in the same way. *)

From stdpp Require Import base numbers list.
From Stdlib Require Import ZArith QArith Qabs Qpower Qround Lqa Lia SpecFloat.
From S2P Require Import Prelude.

Open Scope Z_scope.

(** ** Rounding *)

Definition pow2 (x : Z) : Q := Qpower 2 x.

(** The nearest integer, the even one of two. *)
Definition rne (q : Q) : Z :=
  let f := Qnum q `div` Zpos (Qden q) in
  let r := Qnum q `mod` Zpos (Qden q) in
  match 2 * r ?= Zpos (Qden q) with
  | Lt => f
  | Gt => f + 1
  | Eq => if Z.even f then f else f + 1
  end.

(** The exponent of the leading bit of a number that is not zero. *)
Definition lead (q : Q) : Z :=
  let k := Z.log2 (Z.abs (Qnum q)) - Z.log2 (Zpos (Qden q)) in
  if Qle_bool (pow2 k) (Qabs q) then k else k - 1.

(** The exponent of the last bit that is kept. *)
Definition fexp (q : Q) : Z := Z.max (-1074) (lead q - 52).

Definition fl (q : Q) : Q :=
  if Qeq_bool q 0 then 0%Q
  else Qred (inject_Z (rne (q * pow2 (- fexp q))) * pow2 (fexp q)).

Definition Qltb (x y : Q) : bool := negb (Qle_bool y x).

(** Conversion to int64 truncates; what does not fit becomes the smallest int64, as on
    amd64. *)
Definition to_int64 (q : Q) : Z :=
  let z := Z.quot (Qnum q) (Zpos (Qden q)) in
  if (- 2 ^ 63 <=? z) && (z <? 2 ^ 63) then z else - 2 ^ 63.

(** ** Against the IEEE operations of the standard library *)

Definition to_Q (f : spec_float) : option Q :=
  match f with
  | S754_zero _ => Some 0%Q
  | S754_finite s m e => Some ((if s then -1 else 1) * inject_Z (Zpos m) * pow2 e)%Q
  | _ => None
  end.

Definition of_Z (z : Z) : spec_float := binary_normalize 53 1024 z 0 false.

Definition agrees (f : spec_float) (q : Q) : bool :=
  match to_Q f with Some x => Qeq_bool x (fl q) | None => false end.

(** Quotients, sums and products of floats, also subnormal ones and ties. *)
Example fl_ieee :
  forallb (fun '(a, b) => agrees (SFdiv 53 1024 (of_Z a) (of_Z b)) (inject_Z a / inject_Z b))
    [(1, 3); (2, 3); (1, 10); (999999999, 10 ^ 9); (-7, 11); (2 ^ 53, 3); (1, 2 ^ 1000); (-5, 7 * 2 ^ 990)] &&
  forallb (fun '(a, b) =>
      match to_Q a, to_Q b with
      | Some x, Some y => agrees (SFadd 53 1024 a b) (x + y) && agrees (SFmul 53 1024 a b) (x * y)
      | _, _ => false
      end)
    [(of_Z (2 ^ 53), of_Z 1); (of_Z (2 ^ 53 + 2), of_Z 1); (SFdiv 53 1024 (of_Z 1) (of_Z 10), of_Z 3);
     (SFdiv 53 1024 (of_Z 1) (of_Z 3), SFdiv 53 1024 (of_Z (-2)) (of_Z 7));
     (SFdiv 53 1024 (of_Z 1) (of_Z (2 ^ 600)), SFdiv 53 1024 (of_Z 1) (of_Z (3 * 2 ^ 460)));
     (SFdiv 53 1024 (of_Z 3) (of_Z (2 ^ 1000)), SFdiv 53 1024 (of_Z 1) (of_Z (5 * 2 ^ 72)))] &&
  agrees (of_Z (2 ^ 53 + 1)) (inject_Z (2 ^ 53 + 1)) && agrees (of_Z (2 ^ 63 - 1)) (inject_Z (2 ^ 63)) = true.
Proof. vm_compute. reflexivity. Qed.

(** ** Laws *)

Lemma Qltb_spec x y : reflect (x < y)%Q (Qltb x y).
Proof.
  unfold Qltb. destruct (Qle_bool y x) eqn:E; constructor.
  - apply Qle_bool_iff in E. lra.
  - destruct (Qlt_le_dec x y) as [H|H]; [done|]. apply Qle_bool_iff in H. congruence.
Qed.

Lemma pow2_pos x : (0 < pow2 x)%Q.
Proof. by apply Qpower_0_lt. Qed.

Lemma pow2_plus x y : (pow2 (x + y) == pow2 x * pow2 y)%Q.
Proof. by apply Qpower_plus. Qed.

Lemma pow2_Z x : 0 <= x -> (pow2 x == inject_Z (2 ^ x))%Q.
Proof. intros Hx. unfold pow2. change 2%Q with (inject_Z 2). symmetry. by apply Zpower_Qpower. Qed.

Lemma pow2_le x y : x <= y -> (pow2 x <= pow2 y)%Q.
Proof. intros H. by apply Qpower_le_compat_l. Qed.

Lemma pow2_lt_inv x y : (pow2 x < pow2 y)%Q -> x < y.
Proof. intros H. destruct (Z_lt_le_dec x y) as [?|Hle]; [done|]. apply pow2_le in Hle. lra. Qed.

Lemma pow2_opp x : (pow2 (- x) * pow2 x == 1)%Q.
Proof. rewrite <- pow2_plus. by replace (- x + x) with 0 by lia. Qed.

Lemma rne_spec q : (- (1 # 2) <= inject_Z (rne q) - q <= 1 # 2)%Q.
Proof.
  destruct q as [n d]. unfold rne. cbn [Qnum Qden].
  pose proof (Z.div_mod n (Zpos d) ltac:(lia)) as Hdm. pose proof (Z.mod_pos_bound n (Zpos d) ltac:(lia)) as Hm.
  set (f := n `div` Zpos d) in *. set (r := n `mod` Zpos d) in *. clearbody f r.
  assert (Hf : (- (1 # 2) <= inject_Z f - (n # d) <= 1 # 2)%Q \/ 2 * r > Zpos d)
    by (destruct (Z_gt_dec (2 * r) (Zpos d)); [by right|left; unfold Qle; simpl; lia]).
  assert (Hf' : (- (1 # 2) <= inject_Z (f + 1) - (n # d) <= 1 # 2)%Q \/ 2 * r < Zpos d)
    by (destruct (Z_lt_dec (2 * r) (Zpos d)); [by right|left; unfold Qle; simpl; lia]).
  destruct (Z.compare_spec (2 * r) (Zpos d)); [destruct (Z.even f)|..];
    (destruct Hf as [Hf|?]; destruct Hf' as [Hf'|?]; done || lia).
Qed.

Lemma rne_nonneg q : (0 <= q)%Q -> 0 <= rne q.
Proof.
  intros Hq. pose proof (rne_spec q) as [H _].
  assert (inject_Z (-1) < inject_Z (rne q))%Q as H1 by (change (inject_Z (-1)) with (-(1))%Q; lra).
  rewrite <- Zlt_Qlt in H1. lia.
Qed.

Lemma rne_Z q z : (q == inject_Z z)%Q -> rne q = z.
Proof.
  intros Hq. pose proof (rne_spec q) as [H1 H2].
  assert (inject_Z (z - 1) < inject_Z (rne q) < inject_Z (z + 1))%Q as [H3 H4].
  { unfold Z.sub. rewrite !inject_Z_plus. change (inject_Z 1) with 1%Q.
    change (inject_Z (-(1))) with (-(1))%Q. lra. }
  rewrite <- Zlt_Qlt in H3, H4. lia.
Qed.

Lemma lead_spec q : ~ (q == 0)%Q -> (pow2 (lead q) <= Qabs q)%Q.
Proof.
  intros Hq. unfold lead. set (k := Z.log2 _ - Z.log2 _). destruct (Qle_bool (pow2 k) (Qabs q)) eqn:E.
  - by apply Qle_bool_iff.
  - destruct q as [n d]. simpl Qabs. assert (Z.abs n <> 0) as Hn by (intros H; apply Hq; unfold Qeq; simpl; lia).
    pose proof (Z.log2_spec (Z.abs n) ltac:(lia)) as [Hl _].
    pose proof (Z.log2_spec (Zpos d) ltac:(lia)) as [_ Hd].
    simpl Qnum in *. simpl Qden in *. set (a := Z.log2 (Z.abs n)) in *. set (c := Z.log2 (Zpos d)) in *.
    assert (0 <= a) by apply Z.log2_nonneg. assert (0 <= c) by apply Z.log2_nonneg.
    assert (Ek : (pow2 (k - 1) * inject_Z (2 ^ Z.succ c) == inject_Z (2 ^ a))%Q).
    { rewrite <- !pow2_Z by lia. rewrite <- pow2_plus. f_equiv. unfold k. lia. }
    assert (Hpc : (0 < inject_Z (2 ^ Z.succ c))%Q) by (rewrite <- pow2_Z by lia; apply pow2_pos).
    assert (Hnd : (Z.abs n # d == inject_Z (Z.abs n) / inject_Z (Zpos d))%Q) by (rewrite Qmake_Qdiv; reflexivity).
    rewrite Hnd. apply Qle_shift_div_l; [done|].
    apply Qle_trans with (pow2 (k - 1) * inject_Z (2 ^ Z.succ c))%Q.
    + apply Qmult_le_l; [apply pow2_pos|]. rewrite <- Zle_Qle. lia.
    + rewrite Ek, <- Zle_Qle. done.
Qed.

(** [fl] keeps 53 bits: the relative error is at most 2^-53, but for the smallest
    numbers, where half the smallest one, 2^-1075, is added. *)
Definition u : Q := 1 # 9007199254740992.
Definition eta : Q := pow2 (-1075).

Lemma fl_error q : (Qabs (fl q - q) <= u * Qabs q + eta)%Q.
Proof.
  assert (Hu : (0 < u)%Q) by done. assert (He : (0 < eta)%Q) by apply pow2_pos.
  unfold fl. destruct (Qeq_bool q 0) eqn:E0.
  - apply Qeq_bool_eq in E0. rewrite E0. change (Qabs (0 - 0)) with 0%Q. change (Qabs 0) with 0%Q. lra.
  - apply Qeq_bool_neq in E0. rewrite Qred_correct. set (x := fexp q).
    pose proof (rne_spec (q * pow2 (- x))) as Hr. set (m := inject_Z (rne _)) in *.
    assert (Hq : (q == q * pow2 (- x) * pow2 x)%Q).
    { rewrite <- Qmult_assoc, pow2_opp.
      ring. }
    assert (Hd : (m * pow2 x - q == (m - q * pow2 (- x)) * pow2 x)%Q) by lra.
    pose proof (pow2_pos x) as Hx. rewrite Hd.
    assert (Habs : (Qabs ((m - q * pow2 (- x)) * pow2 x) <= (1 # 2) * pow2 x)%Q).
    { apply Qabs_Qle_condition. split; nra. }
    assert (Hhalf : (((1 # 2) * pow2 x == pow2 (x - 1)))%Q).
    { replace (x - 1) with (x + -1) by lia. rewrite pow2_plus. change (pow2 (-1)) with (1 # 2). ring. }
    rewrite Hhalf in Habs. eapply Qle_trans; [exact Habs|].
    unfold x, fexp. destruct (Z.max_spec (-1074) (lead q - 52)) as [[_ ->]|[_ ->]].
    + replace (lead q - 52 - 1) with (-53 + lead q) by lia. rewrite pow2_plus.
      change (pow2 (-53)) with u. pose proof (lead_spec q E0) as Hl. nra.
    + change (pow2 (-1074 - 1)) with eta. pose proof (Qabs_nonneg q). nra.
Qed.

Lemma fl_bounds q : (0 <= q)%Q -> (q - u * q - eta <= fl q <= q + u * q + eta)%Q.
Proof.
  intros Hq. pose proof (fl_error q) as H. rewrite (Qabs_pos q Hq) in H. apply Qabs_Qle_condition in H. lra.
Qed.

Lemma fl_within q B : (- B <= q <= B)%Q -> (q - u * B - eta <= fl q <= q + u * B + eta)%Q.
Proof.
  intros Hq. pose proof (fl_error q) as H. assert (Qabs q <= B)%Q as HB by (by apply Qabs_Qle_condition).
  assert (0 < u)%Q by done. apply Qabs_Qle_condition in H. nra.
Qed.

Lemma fl_nonneg q : (0 <= q)%Q -> (0 <= fl q)%Q.
Proof.
  intros Hq. unfold fl. destruct (Qeq_bool q 0); [done|]. rewrite Qred_correct.
  apply Qmult_le_0_compat; [|apply Qlt_le_weak, pow2_pos]. change 0%Q with (inject_Z 0). rewrite <- Zle_Qle.
  apply rne_nonneg, Qmult_le_0_compat; [done|apply Qlt_le_weak, pow2_pos].
Qed.

(** Integers of 53 bits are float64 values. *)
Lemma fl_int z : Z.abs z <= 2 ^ 53 -> (fl (inject_Z z) == inject_Z z)%Q.
Proof.
  intros Hz. unfold fl. destruct (Qeq_bool (inject_Z z) 0) eqn:E0; [by apply Qeq_bool_eq in E0; rewrite E0|].
  apply Qeq_bool_neq in E0. rewrite Qred_correct. set (x := fexp (inject_Z z)).
  assert (Hm : exists m, (inject_Z z * pow2 (- x) == inject_Z m)%Q).
  { pose proof (lead_spec _ E0) as Hl. change (Qabs (inject_Z z)) with (inject_Z (Z.abs z)) in Hl.
    assert (lead (inject_Z z) <= 53) as H53.
    { assert (pow2 (lead (inject_Z z)) < pow2 54)%Q as H; [|apply pow2_lt_inv in H; lia].
      eapply Qle_lt_trans; [exact Hl|]. rewrite pow2_Z by lia. rewrite <- Zlt_Qlt. lia. }
    destruct (Z_le_gt_dec x 0) as [Hx|Hx].
    - exists (z * 2 ^ (- x)). rewrite inject_Z_mult, <- pow2_Z by lia. reflexivity.
    - assert (lead (inject_Z z) = 53) as Hlead by (unfold x, fexp in Hx; lia).
      assert (x = 1) as -> by (unfold x, fexp; lia).
      rewrite Hlead, pow2_Z in Hl by lia. rewrite <- Zle_Qle in Hl.
      exists (Z.sgn z * 2 ^ 52). assert (z = Z.sgn z * 2 ^ 53) as Ez by lia. rewrite Ez at 1.
      change (pow2 (-(1))) with (1 # 2). unfold Qeq, inject_Z. simpl. lia. }
  destruct Hm as [m Hm]. rewrite (rne_Z _ m Hm), <- Hm, <- Qmult_assoc, pow2_opp. ring.
Qed.

(** Truncation of a value that fits. *)
Lemma to_int64_spec q : (0 <= q)%Q -> (q < inject_Z (2 ^ 63))%Q ->
  0 <= to_int64 q /\ (inject_Z (to_int64 q) <= q < inject_Z (to_int64 q + 1))%Q.
Proof.
  intros H0 H1. unfold to_int64. destruct q as [n d]. unfold Qle, Qlt, inject_Z in *. cbn [Qnum Qden] in *.
  rewrite Z.quot_div_nonneg by lia.
  pose proof (Z.div_mod n (Zpos d) ltac:(lia)) as Hdm. pose proof (Z.mod_pos_bound n (Zpos d) ltac:(lia)) as Hm.
  set (f := n `div` Zpos d) in *. assert (0 <= f) by (apply Z.div_pos; lia).
  assert (f < 2 ^ 63) by nia.
  rewrite (proj2 (Z.leb_le _ _)), (proj2 (Z.ltb_lt _ _)) by lia. cbn [andb]. nia.
Qed.
