(* ===== verification/RateLimit.v ===== *)
(** * ratelimit: named token buckets

    ratelimit.go's registry over the limiter of golang.org/x/time/rate (vendored):
    advance, reserveN, CancelAt and wait, with every float64 operation rounded as it is there
    (Float64.v).  Times are nanoseconds since 1970 and durations int64.
    The registry keeps pointers to limiters, so a name that is registered again gets a new
    bucket while callers in their wait still hold the old one. *)

From stdpp Require Import base option list gmap strings.
From Stdlib Require Import ZArith QArith Qminmax Lqa Lia.
From S2P Require Import Prelude GoErrors Float64.

Open Scope Z_scope.

(** ** golang.org/x/time/rate *)

(** math.MaxFloat64: the limit that allows everything. *)
Definition Inf : Q := inject_Z ((2 ^ 53 - 1) * 2 ^ 971).

Definition InfDuration : Z := 2 ^ 63 - 1.

(** The zero time.Time. *)
Definition ZeroTime : Z := - 62135596800 * Second.

(** Time.Sub saturates. *)
Definition Sub (t u : Z) : Z := Z.max (- 2 ^ 63) (Z.min (2 ^ 63 - 1) (t - u)).

Record Bucket : Type := MkBucket {
  limit : Q;
  burst : Z;
  tokens : Q;
  last : Z;
  lastEvent : Z
}.

Definition NewLimiter (r : Q) (b : Z) : Bucket := MkBucket r b (fl (inject_Z b)) ZeroTime ZeroTime.

Lemma Z_sub_inject x y : (inject_Z (x - y) == inject_Z x - inject_Z y)%Q.
Proof. unfold Z.sub. rewrite inject_Z_plus, inject_Z_opp. reflexivity. Qed.

(** time.Duration.Seconds: whole seconds and the rest, added. *)
Definition Seconds (d : Z) : Q :=
  let sec := Z.quot d Second in
  let nsec := Z.rem d Second in
  fl (fl (inject_Z sec) + fl (fl (inject_Z nsec) / inject_Z Second)).

Definition tokensFromDuration (limit : Q) (d : Z) : Q :=
  if Qle_bool limit 0 then 0%Q else fl (Seconds d * limit).

(** float64(math.MaxInt64) is 2^63. *)
Definition durationFromTokens (limit tokens : Q) : Z :=
  if Qle_bool limit 0 then InfDuration
  else
    let duration := fl (fl (tokens / limit) * inject_Z Second) in
    if Qltb (inject_Z (2 ^ 63)) duration then InfDuration
    else to_int64 duration.

Definition advance (lim : Bucket) (t : Z) : Q :=
  let last := if t <? last lim then t else last lim in
  let elapsed := Sub t last in
  let delta := tokensFromDuration (limit lim) elapsed in
  let tokens := fl (tokens lim + delta) in
  let burst := fl (inject_Z (burst lim)) in
  if Qltb burst tokens then burst else tokens.

Record Reservation : Type := MkReservation {
  ok : bool;
  rTokens : Z;
  timeToAct : Z;
  rLimit : Q
}.

Definition reserveN (lim : Bucket) (t n maxFutureReserve : Z) : Reservation * Bucket :=
  if Qeq_bool (limit lim) Inf then (MkReservation true n t 0, lim)
  else
    let tokens := fl (advance lim t - fl (inject_Z n)) in
    let waitDuration := if Qltb tokens 0 then durationFromTokens (limit lim) (- tokens)%Q else 0 in
    if (n <=? burst lim) && (waitDuration <=? maxFutureReserve) then
      (MkReservation true n (t + waitDuration) (limit lim),
       MkBucket (limit lim) (burst lim) tokens t (t + waitDuration))
    else (MkReservation false 0 ZeroTime (limit lim), lim).

Definition CancelAt (r : Reservation) (lim : Bucket) (t : Z) : Bucket :=
  if negb (ok r) then lim
  else if Qeq_bool (limit lim) Inf || (rTokens r =? 0) || (timeToAct r <? t) then lim
  else
    let restoreTokens :=
      fl (fl (inject_Z (rTokens r)) - tokensFromDuration (rLimit r) (Sub (lastEvent lim) (timeToAct r))) in
    if Qle_bool restoreTokens 0 then lim
    else
      let tokens := fl (advance lim t + restoreTokens) in
      let burst_ := fl (inject_Z (burst lim)) in
      let tokens := if Qltb burst_ tokens then burst_ else tokens in
      let lastEvent :=
        if timeToAct r =? lastEvent lim then
          let prevEvent := timeToAct r + durationFromTokens (rLimit r) (fl (inject_Z (- rTokens r))) in
          if negb (prevEvent <? t) then prevEvent else lastEvent lim
        else lastEvent lim in
      MkBucket (limit lim) (burst lim) tokens t lastEvent.

(** A context as wait looks at it first: the error when it is already done, and
    its deadline. *)
Record context : Type := MkCtx { doneErr : option error; deadline : option Z }.

Definition background : context := MkCtx None None.

(** wait up to its select: it has returned, or it has a reservation whose timer
    runs. *)
Inductive waiting : Type :=
| Returned (err : option error)
| Pending (r : Reservation).

Definition wait (ctx : context) (n t : Z) (lim : Bucket) : waiting * Bucket :=
  if (burst lim <? n) && negb (Qeq_bool (limit lim) Inf)
  then (Returned (Some (Sentinel "rate: Wait exceeds limiter's burst")), lim)
  else
    match doneErr ctx with
    | Some err => (Returned (Some err), lim)
    | None =>
      let waitLimit := match deadline ctx with Some d => Sub d t | None => InfDuration end in
      let '(r, lim') := reserveN lim t n waitLimit in
      if negb (ok r) then (Returned (Some (Sentinel "rate: Wait would exceed context deadline")), lim')
      else if Z.max 0 (Sub (timeToAct r) t) =? 0 then (Returned None, lim')
      else (Pending r, lim')
    end.

(** ** ratelimit.go *)

Record Limiter : Type := MkLimiter {
  limiters : gmap string nat;
  buckets : gmap nat Bucket;
  next : nat
}.

Definition New : Limiter := MkLimiter ∅ ∅ 0.

Definition Register (name : string) (rps : Q) (burst : Z) (l : Limiter) : Limiter :=
  MkLimiter (<[name := next l]> (limiters l)) (<[next l := NewLimiter rps burst]> (buckets l)) (S (next l)).

(** What a call of Wait is doing: it has returned, or it is in the select of the
    bucket's wait. *)
Inductive call : Type :=
| Done (err : option error)
| Waiting (p : nat) (r : Reservation).

(** Wait at time [t], up to the select. *)
Definition Wait (ctx : context) (name : string) (t : Z) (l : Limiter) : call * Limiter :=
  match limiters l !! name ≫= (fun p => pair p <$> buckets l !! p) with
  | None => (Done (Some (ctxerrors.New ("rate limiter not found: " +:+ name))), l)
  | Some (p, lim) =>
    let '(w, lim') := wait ctx 1 t lim in
    (match w with
     | Returned err => Done (ctxerrors.Wrap err ("rate limit wait: " +:+ name))
     | Pending r => Waiting p r
     end, MkLimiter (limiters l) (<[p := lim']> (buckets l)) (next l))
  end.

(** The select: the timer has fired, or the context was cancelled at [c]. *)
Definition WaitFired : option error := None.

Definition WaitCancelled (name : string) (p : nat) (r : Reservation) (c : Z) (err : error) (l : Limiter)
  : option error * Limiter :=
  (ctxerrors.Wrap (Some err) ("rate limit wait: " +:+ name),
   MkLimiter (limiters l) (alter (fun lim => CancelAt r lim c) p (buckets l)) (next l)).

(** *** Runs of the registry *)

Inductive event : Type :=
| ERegister (name : string) (rps : Q) (burst : Z)
| EWait (t : Z) (name : string) (ctx : context).

(** The time a call of Wait lets its caller act at, when it returns nil. *)
Definition granted (t : Z) (c : call) : option Z :=
  match c with
  | Done None => Some t
  | Done (Some _) => None
  | Waiting _ r => Some (timeToAct r)
  end.

(** Which names were let through and when, for calls whose contexts are not
    cancelled while they wait. *)
Fixpoint run (evs : list event) (l : Limiter) : list (string * Z) :=
  match evs with
  | [] => []
  | ERegister name rps b :: evs' => run evs' (Register name rps b l)
  | EWait t name ctx :: evs' =>
    let '(c, l') := Wait ctx name t l in
    option_list (pair name <$> granted t c) ++ run evs' l'
  end.

(** The calls come in the order of their times, none before [now], and the name is
    not registered again. *)
Fixpoint ordered (name : string) (now : Z) (evs : list event) : Prop :=
  match evs with
  | [] => True
  | ERegister name' _ _ :: evs' => name' <> name /\ ordered name now evs'
  | EWait t _ _ :: evs' => now <= t /\ ordered name t evs'
  end.

(** The bound is on what is let through in a window. *)
Definition events_in (name : string) (from to : Z) (acts : list (string * Z)) : Z :=
  Z.of_nat (length (filter (fun a => a.1 = name /\ from <= a.2 <= to) acts)).

(** ** The bound *)

Section Bound.
(** A bucket with a positive rate, and how often it is used. *)
Context (r : Q) (b N : Z) (Hr : (0 < r)%Q) (Hr' : (r <= pow2 900)%Q) (Hb : 1 <= b) (HN : 0 <= N).

(** Tokens per nanosecond, and the largest number of tokens there can be or be missing. *)
Definition rate : Q := (r / inject_Z Second)%Q.
Definition most : Q := inject_Z (b + 2 * N + 2).

(** What a reservation can be off by. *)
Definition err : Q := (16 * u * most)%Q.

Context (Hmost : (most <= inject_Z (2 ^ 49))%Q) (Hlong : (most <= rate * inject_Z (2 ^ 60))%Q).

Lemma rate_pos : (0 < rate)%Q.
Proof. unfold rate. apply Qlt_shift_div_l; [reflexivity|]. lra. Qed.

Lemma rate_second : (rate * inject_Z Second == r)%Q.
Proof. unfold rate. field. done. Qed.

Lemma Qtimes_le (x y : Z) : x <= y -> (rate * inject_Z x <= rate * inject_Z y)%Q.
Proof. intros H. apply Qmult_le_l; [apply rate_pos|]. by rewrite <- Zle_Qle. Qed.

(** The smallest numbers do not matter. *)
Lemma tiny : (0 < eta)%Q /\ (8 * (eta * r) <= u)%Q /\ (8 * eta <= u)%Q /\ (0 <= eta * rate <= eta * r)%Q.
Proof.
  assert (He : (0 < eta)%Q) by apply pow2_pos.
  assert (H1 : (8 * (eta * pow2 900) <= u)%Q) by (apply Qle_bool_iff; vm_compute; reflexivity).
  assert (H2 : (8 * eta <= u)%Q) by (apply Qle_bool_iff; vm_compute; reflexivity).
  assert (H3 : (eta * r <= eta * pow2 900)%Q) by (apply Qmult_le_l; done).
  pose proof rate_pos as Hrp. pose proof rate_second as Hs.
  assert (Hle : (rate <= r)%Q).
  { rewrite <- Hs. change (inject_Z Second) with (1000000000)%Q. nra. }
  assert (H4 : (eta * rate <= eta * r)%Q) by (apply Qmult_le_l; done).
  assert (H5 : (0 <= eta * rate)%Q) by (apply Qmult_le_0_compat; lra).
  repeat split; lra.
Qed.

Lemma most_ge : (1 <= most)%Q /\ (inject_Z b <= most)%Q /\ (16 * (u * most) <= 1)%Q /\ (0 <= u * most)%Q /\ (u <= u * most)%Q.
Proof.
  assert (1 <= most)%Q by (unfold most; change 1%Q with (inject_Z 1); rewrite <- Zle_Qle; lia).
  assert (inject_Z b <= most)%Q by (unfold most; rewrite <- Zle_Qle; lia).
  unfold u. change (inject_Z (2 ^ 49)) with (562949953421312)%Q in Hmost.
  repeat split; try done; lra.
Qed.

Lemma fl_burst : (fl (inject_Z b) == inject_Z b)%Q.
Proof.
  apply fl_int. assert (inject_Z b <= inject_Z (2 ^ 49))%Q as H by (pose proof most_ge; lra).
  rewrite <- Zle_Qle in H. lia.
Qed.

(** *** Durations to tokens and back *)

Lemma Seconds_bounds d : 0 <= d < 2 ^ 63 ->
  (0 <= Seconds d /\ Seconds d <= inject_Z d / inject_Z Second * (1 + 3 * u) + 3 * eta)%Q.
Proof.
  intros Hd. unfold Seconds. pose proof (Z.quot_rem d Second ltac:(done)) as Hqr.
  pose proof (Z.rem_bound_pos d Second ltac:(lia) ltac:(done)) as Hrem.
  pose proof (Z.quot_pos d Second ltac:(lia) ltac:(done)) as Hq0.
  assert (Hq1 : Z.quot d Second < 2 ^ 53).
  { rewrite Z.quot_div_nonneg by (lia || done). apply Z.div_lt_upper_bound; unfold Second, Millisecond, Nanosecond; lia. }
  set (q := Z.quot d Second) in *. set (n := Z.rem d Second) in *.
  pose proof (fl_int q ltac:(lia)) as E1.
  assert (Hn : Z.abs n <= 2 ^ 53) by (unfold Second, Millisecond, Nanosecond in Hrem; lia).
  pose proof (fl_int n Hn) as E2.
  assert (Hn0 : (0 <= inject_Z n)%Q) by (change 0%Q with (inject_Z 0); rewrite <- Zle_Qle; lia).
  assert (Hq0' : (0 <= inject_Z q)%Q) by (change 0%Q with (inject_Z 0); rewrite <- Zle_Qle; lia).
  assert (Ed : (inject_Z d == 1000000000 * inject_Z q + inject_Z n)%Q).
  { rewrite Hqr at 1. by rewrite inject_Z_plus, inject_Z_mult. }
  change (inject_Z Second) with (1000000000)%Q. set (x := (fl (inject_Z n) / 1000000000)%Q).
  assert (Ex : (1000000000 * x == inject_Z n)%Q) by (unfold x; rewrite E2; field).
  assert (Hx0 : (0 <= x)%Q) by lra. pose proof (fl_bounds x Hx0) as Bx. pose proof (fl_nonneg x Hx0) as Nx.
  set (y := (fl (inject_Z q) + fl x)%Q). assert (Hy0 : (0 <= y)%Q) by (unfold y; lra).
  pose proof (fl_bounds y Hy0) as By. pose proof (fl_nonneg y Hy0) as Ny. split; [done|].
  assert (Hz : (inject_Z d / 1000000000 == inject_Z q + x)%Q) by (unfold Qdiv; change (/ 1000000000)%Q with (1 # 1000000000); lra).
  rewrite Hz. assert (He : (0 < eta)%Q) by apply pow2_pos. unfold y, u in *. lra.
Qed.

Lemma tokensFromDuration_bounds d : 0 <= d < 2 ^ 63 ->
  (0 <= tokensFromDuration r d <= rate * inject_Z d * (1 + 5 * u) + u)%Q.
Proof.
  intros Hd. unfold tokensFromDuration. destruct (Qle_bool r 0) eqn:E; [apply Qle_bool_iff in E; lra|].
  destruct (Seconds_bounds d Hd) as [S0 S1]. set (s := Seconds d) in *.
  assert (H0 : (0 <= s * r)%Q) by (apply Qmult_le_0_compat; lra).
  pose proof (fl_bounds _ H0) as B. pose proof (fl_nonneg _ H0) as F0. split; [done|].
  assert (H1 : (s * r <= (inject_Z d / inject_Z Second * (1 + 3 * u) + 3 * eta) * r)%Q)
    by (apply Qmult_le_compat_r; lra).
  assert (H2 : ((inject_Z d / inject_Z Second * (1 + 3 * u) + 3 * eta) * r
                == rate * inject_Z d * (1 + 3 * u) + 3 * (eta * r))%Q) by (unfold rate; field; done).
  rewrite H2 in H1. destruct tiny as (He & T1 & T2 & _).
  assert (Hy : (0 <= rate * inject_Z d)%Q).
  { apply Qmult_le_0_compat; [apply Qlt_le_weak, rate_pos|]. change 0%Q with (inject_Z 0). rewrite <- Zle_Qle. lia. }
  set (y := (rate * inject_Z d)%Q) in *. unfold u in *. lra.
Qed.

(** The wait for [x] tokens, which is not above what they take, nor more than a
    nanosecond below, up to rounding. *)
Lemma durationFromTokens_bounds x : (0 <= x <= most)%Q ->
  0 <= durationFromTokens r x < InfDuration /\
  (rate * inject_Z (durationFromTokens r x) <= x + 4 * (u * most))%Q /\
  (x <= rate * inject_Z (durationFromTokens r x + 1) + 4 * (u * most))%Q.
Proof.
  intros [Hx0 Hx1]. unfold durationFromTokens. destruct (Qle_bool r 0) eqn:E; [apply Qle_bool_iff in E; lra|].
  pose proof rate_pos as Hrp. pose proof rate_second as Hrs. destruct tiny as (He & T1 & T2 & T3 & T4).
  destruct most_ge as (M1 & _ & M16 & M0 & Mu).
  assert (Ha0 : (0 <= x / r)%Q) by (apply Qle_shift_div_l; lra).
  assert (Ea : (r * (x / r) == x)%Q) by (field; lra). set (a := (x / r)%Q) in *.
  pose proof (fl_bounds a Ha0) as [A1 A2]. pose proof (fl_nonneg a Ha0) as A0. set (A := fl a) in *.
  change (inject_Z Second) with (1000000000)%Q in *.
  assert (HB0 : (0 <= A * 1000000000)%Q) by lra.
  pose proof (fl_bounds _ HB0) as [D1 D2]. pose proof (fl_nonneg _ HB0) as D0. set (D := fl (A * 1000000000)) in *.
  assert (RA : (x - u * x - eta * r <= r * A <= x + u * x + eta * r)%Q).
  { apply (Qmult_le_l _ _ r Hr) in A1, A2. unfold u in *. lra. }
  assert (RD : (r * A - u * (r * A) - eta * rate <= rate * D <= r * A + u * (r * A) + eta * rate)%Q).
  { apply (Qmult_le_l _ _ rate Hrp) in D1, D2.
    assert (Er : (rate * (A * 1000000000) == r * A)%Q) by (rewrite <- Hrs; ring). unfold u in *. lra. }
  assert (Hlo : (x - 4 * (u * most) <= rate * D)%Q) by (unfold u in *; lra).
  assert (Hhi : (rate * D <= x + 4 * (u * most))%Q) by (unfold u in *; lra).
  assert (HD : (D < inject_Z (2 ^ 62))%Q).
  { apply (Qmult_lt_l _ _ rate Hrp). eapply Qle_lt_trans; [exact Hhi|].
    change (inject_Z (2 ^ 62)) with (4 * inject_Z (2 ^ 60))%Q. assert (0 < rate * inject_Z (2 ^ 60))%Q by lra. lra. }
  destruct (Qltb_spec (inject_Z (2 ^ 63)) D) as [Hbad|_].
  { exfalso. change (inject_Z (2 ^ 63)) with (2 * inject_Z (2 ^ 62))%Q in Hbad. assert (0 < inject_Z (2 ^ 62))%Q by done. lra. }
  destruct (to_int64_spec D D0) as (W0 & W1 & W2).
  { change (inject_Z (2 ^ 63)) with (2 * inject_Z (2 ^ 62))%Q. assert (0 < inject_Z (2 ^ 62))%Q by done. lra. }
  set (w := to_int64 D) in *. split; [split; [done|]|split].
  - assert (inject_Z w < inject_Z (2 ^ 62))%Q as Hw by lra. rewrite <- Zlt_Qlt in Hw. unfold InfDuration. lia.
  - apply (Qmult_le_l _ _ rate Hrp) in W1. lra.
  - apply Qlt_le_weak, (Qmult_le_l _ _ rate Hrp) in W2. lra.
Qed.

(** *** The bucket *)

(** What a bucket has given out in excess of what the rate earned. *)
Definition level (lim : Bucket) : Q := (rate * inject_Z (last lim) - tokens lim)%Q.

(** A bucket of this rate and size that has been used [g] times up to [now]. *)
Definition used_to (lim : Bucket) (g now : Z) : Prop :=
  limit lim = r /\ burst lim = b /\ 0 <= g /\ (inject_Z (- (2 * g)) <= tokens lim <= inject_Z b)%Q /\ last lim <= now.

(** The tokens at [t] are at most the size, at most what the rate has earned, and not
    less than there were. *)
Lemma advance_spec lim g now t :
  used_to lim g now -> g <= N -> now <= t ->
  (inject_Z (- (2 * g)) - (1 # 2) <= advance lim t <= inject_Z b)%Q /\
  (advance lim t <= rate * inject_Z t - level lim + 10 * (u * most))%Q.
Proof.
  intros (Hl & Hbu & Hg & [Ht0 Ht1] & Hnow) HgN Ht. unfold advance, level. rewrite Hl, Hbu.
  rewrite (proj2 (Z.ltb_ge t (last lim))) by lia. pose proof fl_burst as Hfb. destruct tiny as (He & _ & T2 & _).
  destruct most_ge as (M1 & Mb & M16 & M0 & Mu).
  assert (Hd : 0 <= Sub t (last lim) < 2 ^ 63 /\ Sub t (last lim) <= t - last lim) by (unfold Sub; lia).
  destruct Hd as [Hd Hdle]. apply Qtimes_le in Hdle. rewrite Z_sub_inject in Hdle.
  destruct (tokensFromDuration_bounds _ Hd) as [P0 P1]. set (dl := tokensFromDuration r _) in *.
  set (y := (rate * inject_Z (Sub t (last lim)))%Q) in *.
  assert (Hm : (inject_Z (2 * g) + inject_Z b <= most)%Q).
  { unfold most. rewrite <- inject_Z_plus, <- Zle_Qle. lia. }
  rewrite inject_Z_opp in *. set (m := inject_Z (2 * g)) in *.
  assert (Hm0 : (0 <= m)%Q) by (unfold m; change 0%Q with (inject_Z 0); rewrite <- Zle_Qle; lia).
  assert (Hfb' : (0 < inject_Z b)%Q) by (change 0%Q with (inject_Z 0); rewrite <- Zlt_Qlt; lia).
  set (tk := tokens lim) in *. set (f := fl (tk + dl)).
  assert (Hf0 : (- m - (1 # 2) <= f)%Q).
  { destruct (Qlt_le_dec (tk + dl) 0) as [Hneg|Hpos].
    - pose proof (fl_within (tk + dl) most ltac:(lra)) as [F _]. fold f in F. unfold u in *. lra.
    - pose proof (fl_nonneg _ Hpos). fold f in H. lra. }
  assert (Hup : (f <= tk + y + 10 * (u * most))%Q \/ (inject_Z b <= tk + y)%Q).
  { destruct (Qlt_le_dec (tk + y) (inject_Z b)) as [Hlt|Hge]; [left|by right].
    assert (Hy : (y <= most)%Q) by lra.
    pose proof (fl_within (tk + dl) (3 * most) ltac:(unfold u in *; lra)) as [_ F]. fold f in F. unfold u in *. lra. }
  destruct (Qltb_spec (fl (inject_Z b)) f) as [Hc|Hc]; (split; [split; lra|]).
  - destruct Hup as [Hup|Hup]; lra.
  - destruct Hup as [Hup|Hup]; lra.
Qed.

(** What a reservation of one token does. *)
Lemma reserve_spec lim g now t m res lim' :
  used_to lim g now -> g < N -> now <= t -> reserveN lim t 1 m = (res, lim') ->
  if ok res then
    used_to lim' (g + 1) t /\ last lim' = t /\ t <= timeToAct res < t + InfDuration /\
    (level lim + 1 - err <= level lim')%Q /\
    (rate * inject_Z (timeToAct res) - inject_Z (b - 1) - err <= level lim')%Q /\
    (level lim' <= rate * inject_Z (timeToAct res + 1) + err)%Q
  else lim' = lim.
Proof.
  intros Hu HgN Ht. pose proof Hu as (Hl & Hbu & Hg & _). unfold reserveN. rewrite Hl, Hbu.
  destruct (Qeq_bool r Inf) eqn:Hinf.
  { exfalso. apply Qeq_bool_eq in Hinf. rewrite Hinf in Hr'. apply Qle_bool_iff in Hr'. revert Hr'. vm_compute. done. }
  destruct (advance_spec lim g now t Hu ltac:(lia) Ht) as [[A0 A1] A2].
  destruct tiny as (He & _ & T2 & _). destruct most_ge as (M1 & Mb & M16 & M0 & Mu).
  pose proof (fl_int 1 ltac:(lia)) as E1. change (inject_Z 1) with 1%Q in E1. change (inject_Z 1) with 1%Q.
  set (adv := advance lim t) in *.
  assert (Hm : (inject_Z (2 * g) + 2 <= most)%Q).
  { unfold most. change 2%Q with (inject_Z 2). rewrite <- inject_Z_plus, <- Zle_Qle. lia. }
  rewrite inject_Z_opp in A0.
  assert (Hm0 : (0 <= inject_Z (2 * g))%Q) by (change 0%Q with (inject_Z 0); rewrite <- Zle_Qle; lia).
  pose proof (fl_within (adv - fl 1) most ltac:(lra)) as [F1 F2]. set (tk := fl (adv - fl 1)) in *.
  set (wt := if Qltb tk 0 then durationFromTokens r (- tk)%Q else 0).
  assert (Htk : (- inject_Z (2 * g) - 2 <= tk <= inject_Z b - 1 + 2 * (u * most))%Q) by (unfold u in *; split; lra).
  assert (Hw : 0 <= wt < InfDuration /\ (rate * inject_Z wt <= Qmax 0 (- tk) + 4 * (u * most))%Q /\
    (- tk <= rate * inject_Z (wt + 1) + 4 * (u * most))%Q).
  { unfold wt. destruct (Qltb_spec tk 0) as [Hneg|Hpos].
    - destruct (durationFromTokens_bounds (- tk)) as (W0 & W1 & W2); [lra|]. split; [done|].
      pose proof (Q.le_max_r 0 (- tk)). split; lra.
    - split; [unfold InfDuration; lia|]. pose proof (Q.le_max_l 0 (- tk)) as Hmx. pose proof rate_pos as Hrp.
      change (inject_Z 0) with 0%Q. change (inject_Z (0 + 1)) with 1%Q. split; lra. }
  destruct Hw as (W0 & W1 & W2).
  destruct (_ && _); intros [= <- <-]; [|done]. simpl.
  assert (Hb1 : (1 <= inject_Z b)%Q) by (change 1%Q with (inject_Z 1); rewrite <- Zle_Qle; done).
  split; [|split; [done|split; [lia|]]].
  - repeat split; simpl; try done; try lia; rewrite ?inject_Z_opp; [|unfold u in *; lra].
    replace (2 * (g + 1)) with (2 * g + 2) by lia. rewrite inject_Z_plus. change (inject_Z 2) with 2%Q. lra.
  - unfold level, err in *. simpl last in *. simpl tokens in *. rewrite Z_sub_inject, !inject_Z_plus in *.
    change (inject_Z 1) with 1%Q in *. pose proof rate_pos as Hrp.
    destruct (Q.max_spec 0 (- tk)) as [[_ Emx]|[_ Emx]]; rewrite Emx in W1; unfold u in *; (split; [|split]); lra.
Qed.

(** *** Windows *)

Context (from to : Z) (Hfrom : from <= to).

(** The events granted so far in the window, against the bucket. *)
Definition within_bound (K : Z) : Prop :=
  (inject_Z K * (1 - err) <= inject_Z b + rate * inject_Z (to + 1 - from) + err)%Q.

Definition accounted (lim : Bucket) (K : Z) : Prop :=
  K = 0 \/ 0 < K /\ (rate * inject_Z from - inject_Z b + inject_Z K * (1 - err) <= level lim)%Q /\ within_bound K.

Definition in_window (act : Z) : bool := (from <=? act) && (act <=? to).

Lemma err_bounds : (0 <= err <= 1)%Q.
Proof. destruct most_ge as (_ & _ & M16 & M0 & _). unfold err, u in *. lra. Qed.

Lemma within_bound_0 : within_bound 0.
Proof.
  unfold within_bound. change (inject_Z 0) with 0%Q. pose proof rate_pos as Hrp. pose proof err_bounds as He.
  assert (0 <= rate * inject_Z (to + 1 - from))%Q.
  { apply Qmult_le_0_compat; [lra|]. change 0%Q with (inject_Z 0). rewrite <- Zle_Qle. lia. }
  assert (0 <= inject_Z b)%Q by (change 0%Q with (inject_Z 0); rewrite <- Zle_Qle; lia). lra.
Qed.

Lemma accounted_bound lim K : accounted lim K -> within_bound K.
Proof. intros [->|(_ & _ & H)]; [apply within_bound_0|done]. Qed.

Lemma reserve_accounted lim g now t m res lim' K :
  used_to lim g now -> g < N -> now <= t -> reserveN lim t 1 m = (res, lim') -> accounted lim K ->
  accounted lim' (if ok res && in_window (timeToAct res) then K + 1 else K).
Proof.
  intros Hu HgN Ht E HK. pose proof (reserve_spec lim g now t m res lim' Hu HgN Ht E) as Hs.
  destruct (ok res); [|by subst lim']. destruct Hs as (_ & Hlast & Hact & Hmono & Hlo & Hhi). cbn [andb].
  pose proof err_bounds as He.
  assert (Hkeep : accounted lim' K).
  { destruct HK as [->|(HK & Hlv & Hwb)]; [by left|right]. repeat split; [done|lra|done]. }
  destruct (in_window (timeToAct res)) eqn:Ew; [|done]. unfold in_window in Ew.
  apply andb_true_iff in Ew as [W1%Z.leb_le W2%Z.leb_le]. right.
  assert (Hnew : (rate * inject_Z from - inject_Z b + inject_Z (K + 1) * (1 - err) <= level lim')%Q).
  { rewrite inject_Z_plus. change (inject_Z 1) with 1%Q. destruct HK as [->|(HK & Hlv & _)]; [|lra].
    pose proof (Qtimes_le from (timeToAct res) W1) as Hq. rewrite Z_sub_inject in Hlo.
    change (inject_Z 1) with 1%Q in Hlo. change (inject_Z 0) with 0%Q. lra. }
  split; [destruct HK; lia|]. split; [done|].
  unfold within_bound. pose proof (Qtimes_le (timeToAct res + 1) (to + 1) ltac:(lia)) as Hq.
  rewrite Z_sub_inject. lra.
Qed.

(** The name's bucket is its own. *)
Record owns (l : Limiter) (name : string) (p : nat) (lim : Bucket) : Prop := {
  owns_name : limiters l !! name = Some p;
  owns_bucket : buckets l !! p = Some lim;
  owns_only : forall name', limiters l !! name' = Some p -> name' = name;
  owns_next : (p < next l)%nat
}.

Lemma used_later lim g now t : used_to lim g now -> now <= t -> used_to lim g t.
Proof. intros (H1 & H2 & H3 & [H4 H5] & H6) Ht. repeat split; done || lia. Qed.

Lemma used_more lim g t : used_to lim g t -> used_to lim (g + 1) t.
Proof.
  intros (H1 & H2 & H3 & [H4 H5] & H6). repeat split; try done; [lia|].
  eapply Qle_trans; [|exact H4]. rewrite <- Zle_Qle. lia.
Qed.

Lemma wait_accounted ctx lim g now t K :
  used_to lim g now -> g < N -> now <= t -> accounted lim K ->
  used_to (wait ctx 1 t lim).2 (g + 1) t /\
  accounted (wait ctx 1 t lim).2
    (match (wait ctx 1 t lim).1 with
     | Returned None => if in_window t then K + 1 else K
     | Returned (Some _) => K
     | Pending r => if in_window (timeToAct r) then K + 1 else K
     end).
Proof.
  intros Hu HgN Ht HK. unfold wait. pose proof (used_more _ _ _ (used_later _ _ _ _ Hu Ht)) as Hu'.
  destruct (_ && negb _); [done|]. destruct (doneErr ctx); [done|].
  set (m := match deadline ctx with Some d => Sub d t | None => InfDuration end).
  destruct (reserveN lim t 1 m) as [res lim'] eqn:E.
  pose proof (reserve_spec lim g now t m res lim' Hu HgN Ht E) as Hs.
  pose proof (reserve_accounted lim g now t m res lim' K Hu HgN Ht E HK) as Ha.
  destruct (ok res) eqn:Eok; cbn [negb andb] in *; [|by subst lim'].
  destruct Hs as (Hused & _ & Hact & _).
  destruct (Z.eqb_spec (Z.max 0 (Sub (timeToAct res) t)) 0) as [Ez|Ez]; cbn [fst snd]; [|done].
  assert (timeToAct res = t) as Et by (unfold Sub, InfDuration in *; lia). by rewrite Et in Ha.
Qed.

Lemma events_in_cons name act acts :
  events_in name from to (option_list (pair name <$> Some act) ++ acts) =
  (if in_window act then 1 else 0) + events_in name from to acts.
Proof.
  change (option_list (pair name <$> Some act) ++ acts) with ((name, act) :: acts).
  unfold events_in, in_window. rewrite filter_cons.
  destruct (Z.leb_spec from act), (Z.leb_spec act to); cbn [andb].
  1: rewrite decide_True by done; cbn [length]; lia.
  all: rewrite decide_False by (simpl; lia); lia.
Qed.

Lemma events_in_other name name' acts rest :
  name' <> name -> events_in name from to (option_list (pair name' <$> acts) ++ rest) = events_in name from to rest.
Proof.
  intros Hne. destruct acts as [act|]; [|done].
  change (option_list (pair name' <$> Some act) ++ rest) with ((name', act) :: rest).
  unfold events_in. rewrite filter_cons_False; [done|]. simpl. intros [H _]. by apply Hne.
Qed.

Lemma run_bound evs : forall l name p lim g now K,
  owns l name p lim -> used_to lim g now -> g + Z.of_nat (length evs) <= N -> ordered name now evs ->
  accounted lim K -> within_bound (K + events_in name from to (run evs l)).
Proof.
  induction evs as [|[name' rps b'|t name' ctx] evs IH]; intros l name p lim g now K HO Hu Hg Hord HK.
  - unfold events_in. simpl. rewrite Z.add_0_r. by eapply accounted_bound.
  - destruct Hord as [Hne Hord]. destruct HO as [Hn Hb' Honly Hnext]. simpl in Hg |- *.
    eapply (IH _ name p lim g now); try done; [|lia].
    constructor; simpl.
    + by rewrite lookup_insert_ne.
    + rewrite lookup_insert_ne by lia. done.
    + intros n. rewrite lookup_insert. case_decide; [intros [= E]; lia|apply Honly].
    + lia.
  - destruct Hord as [Hle Hord]. cbn [run length] in *. unfold Wait.
    pose proof (used_later _ _ _ _ Hu Hle) as Hu'.
    destruct (limiters l !! name' ≫= (fun p => pair p <$> buckets l !! p)) as [[p' lim1]|] eqn:E.
    2: { cbn [granted]. eapply (IH _ name p lim g t); try done; lia. }
    apply bind_Some in E as (q & Hq & Hf). destruct (buckets l !! q) as [lim2|] eqn:Eb; simpl in Hf; [|done].
    injection Hf as <- <-. destruct HO as [Hn Hb' Honly Hnext].
    destruct (decide (name' = name)) as [->|Hne].
    + assert (q = p) as -> by congruence. assert (lim2 = lim) as -> by congruence.
      destruct (wait_accounted ctx lim g now t K Hu ltac:(lia) Hle HK) as [Hu2 HK2].
      destruct (wait ctx 1 t lim) as [w lim'] eqn:Ew. cbn [fst snd] in Hu2, HK2.
      set (l' := MkLimiter _ _ _).
      assert (HO' : owns l' name p lim').
      { constructor; simpl; [done|by rewrite lookup_insert_eq|done|done]. }
      destruct w as [[err0|]|res]; cbn [granted ctxerrors.Wrap ctxerrors.wrap].
      * eapply (IH _ name p lim' (g + 1) t); try done; lia.
      * rewrite events_in_cons, Z.add_assoc. eapply (IH _ name p lim' (g + 1) t); try done; [lia|].
        destruct (in_window t); [done|by rewrite Z.add_0_r].
      * rewrite events_in_cons, Z.add_assoc. eapply (IH _ name p lim' (g + 1) t); try done; [lia|].
        destruct (in_window (timeToAct res)); [done|by rewrite Z.add_0_r].
    + assert (q <> p) by (intros ->; by apply Hne, Honly).
      destruct (wait ctx 1 t lim2) as [w lim'].
      rewrite events_in_other by done. eapply (IH _ name p lim g t); try done; [|lia].
      constructor; simpl; [done|by rewrite lookup_insert_ne|done|done].
Qed.
End Bound.

(** C11. A registered limiter holds its rate.  After Register(name, rps, burst) with a
    rate above 0 and up to 2^900 a second and a burst of at least one, for any sequence of
    n Wait calls and registrations, on this and other names (this one not registered
    again), in the order of their times and without calls cancelled in their wait: in
    every window of time the number K of calls on the name that are let through satisfies
      K * (1 - e) <= burst + rps * (length of the window + 1ns) + e
    where e = (burst + 2 n + 2) * 2^-49 is what the float64 arithmetic can lose.  This is for
    burst + 2 n + 2 up to 2^49 and to what the rate earns in 2^60 ns (36 years). *)
Theorem rate_limit_bound (rps : Q) (burst : Z) (name : string) (l : Limiter) (evs : list event)
    (now from to : Z) :
  let n := Z.of_nat (length evs) in
  let e := (inject_Z (burst + 2 * n + 2) / inject_Z (2 ^ 49))%Q in
  (0 < rps)%Q -> (rps <= pow2 900)%Q -> 1 <= burst ->
  burst + 2 * n + 2 <= 2 ^ 49 ->
  (inject_Z (burst + 2 * n + 2) <= rps * (inject_Z (2 ^ 60) / inject_Z Second))%Q ->
  0 <= now -> ordered name now evs -> from <= to ->
  (forall name' p, limiters l !! name' = Some p -> (p < next l)%nat) ->
  (inject_Z (events_in name from to (run evs (Register name rps burst l))) * (1 - e)
   <= inject_Z burst + rps * (inject_Z (to + 1 - from) / inject_Z Second) + e)%Q.
Proof.
  intros n e Hr Hr' Hb Hm Hlong Hnow Hord Hfrom Hptr.
  assert (Hmost : (most burst n <= inject_Z (2 ^ 49))%Q) by (unfold most; by rewrite <- Zle_Qle).
  assert (Hn : 0 <= n) by lia.
  assert (Hrt : forall x, (rate rps * x == rps * (x / inject_Z Second))%Q) by (intros x; unfold rate; field; done).
  rewrite <- (Hrt (inject_Z (2 ^ 60))) in Hlong.
  assert (Hfb := fl_burst burst n Hb Hn Hmost).
  assert (H : within_bound rps burst n from to (0 + events_in name from to (run evs (Register name rps burst l)))).
  { apply (run_bound rps burst n Hr Hr' Hb Hn Hmost Hlong from to Hfrom evs _ name (next l) (NewLimiter rps burst) 0 now 0);
      [|..|by left]; try done.
    - constructor; simpl; [by rewrite lookup_insert_eq|by rewrite lookup_insert_eq| |lia].
      intros k. rewrite lookup_insert. case_decide; [done|]. intros Hk. apply Hptr in Hk. lia.
    - split; [done|]. split; [done|]. split; [lia|]. cbn [tokens last NewLimiter].
      split; [split|unfold ZeroTime, Second, Millisecond, Nanosecond; lia]; rewrite Hfb, <- Zle_Qle; lia. }
  rewrite Z.add_0_l in H. unfold within_bound in H. rewrite Hrt in H.
  assert (Ee : (err burst n == e)%Q) by (unfold err, e, u, most; change (inject_Z (2 ^ 49)) with (562949953421312)%Q; field).
  rewrite Ee in H. exact H.
Qed.

(** Ten a second in bursts of two: of six calls at once two are let through
    immediately and the others a tenth of a second apart. *)
Definition demo_calls : list event :=
  repeat (EWait Second "api" background) 6 ++ [EWait Second "other" background].

Example demo_run :
  run demo_calls (Register "api" 10 2 New) =
  pair "api"%string <$> [Second; Second; 1100 * Millisecond; 1200 * Millisecond; 1300 * Millisecond; 1400 * Millisecond].
Proof. vm_compute. reflexivity. Qed.

(** The nanosecond is real: durations are truncated, so at ten a second and a burst of one,
    three calls get through within 199999999ns, when the rate has earned less than two
    tokens. *)
Example truncated_waits :
  run [EWait Second "api" background; EWait (Second + 1) "api" background; EWait (Second + 3) "api" background]
    (Register "api" 10 1 New)
  = pair "api"%string <$> [Second; Second + 99999999; Second + 199999999].
Proof. vm_compute. reflexivity. Qed.

Lemma rate_limit_bound_witness :
  let e := (inject_Z (2 + 2 * 7 + 2) / inject_Z (2 ^ 49))%Q in
  (inject_Z (events_in "api" Second (1200 * Millisecond) (run demo_calls (Register "api" 10 2 New))) * (1 - e)
   <= inject_Z 2 + 10 * (inject_Z (1200 * Millisecond + 1 - Second) / inject_Z Second) + e)%Q.
Proof.
  apply (rate_limit_bound 10 2 "api" New demo_calls 0 Second (1200 * Millisecond)).
  - reflexivity.
  - vm_compute. discriminate.
  - lia.
  - vm_compute. discriminate.
  - vm_compute. discriminate.
  - lia.
  - vm_compute. repeat split; discriminate.
  - vm_compute. discriminate.
  - intros name' p H. discriminate H.
Defined.

(** An unknown name is an error and leaves the registry alone. *)
Lemma Wait_unknown ctx name t l :
  limiters l !! name = None ->
  exists e, Wait ctx name t l = (Done (Some e), l).
Proof. intros H. unfold Wait. rewrite H. simpl. by eexists. Qed.
