(* ===== verification/Downloads.v ===== *)
(** * utils/httputil: downloads

    DownloadFile against a file system of named byte strings, and DownloadFiles
    with its goroutines, its semaphore, its buffered error channel and its
    WaitGroup as a step relation.  What creating the request, the HTTP exchange,
    opening the file and writing to it give is an argument. *)

From stdpp Require Import base option list gmap strings relations.
From Stdlib Require Import ZArith Lia.
From Stdlib.Strings Require Byte.
From S2P Require Import Prelude GoErrors Utf8 CommonErrors Json.

Open Scope Z_scope.

(** Files by path. *)
Abbreviation fsys := (gmap bytes bytes).

(** A response: the body delivers its bytes, and then ends or fails. *)
Record response : Type := MkResponse {
  StatusCode : Z;
  Body : bytes;
  BodyErr : option error
}.

Definition StatusOK : Z := 200.
Definition ErrUnexpectedHTTPStatusCode : error := Sentinel "unexpected http status code".

(** What writing [data] from the start of a file opened with O_WRONLY|O_CREATE
    leaves in it: the old bytes are overwritten, the file is not truncated. *)
Definition overwrite (old : option bytes) (data : bytes) : bytes :=
  data ++ drop (length data) (default [] old).

Section Download.
Context (NewRequest : bytes -> option error) (Do : bytes -> gores response).
Context (openErr : bytes -> option error) (diskFull : bytes -> option (nat * error)).

(** io.Copy into the open file: what it wrote of the body and the error.  A write
    that fails has written some of the bytes. *)
Definition Copy (targetPath : bytes) (resp : response) : bytes * option error :=
  match diskFull targetPath with
  | Some (n, err) => if (n <? length (Body resp))%nat then (take n (Body resp), Some err)
                     else (Body resp, BodyErr resp)
  | None => (Body resp, BodyErr resp)
  end.

Definition DownloadFile (url targetPath : bytes) (fs : fsys) : option error * fsys :=
  match NewRequest url with
  | Some err => (ctxerrors.Wrap (Some err) "failed to create HTTP request", fs)
  | None =>
    match Do url with
    | Err err => (ctxerrors.Wrap (Some err) "failed to download file", fs)
    | Ok resp =>
      if negb (StatusCode resp =? StatusOK)
      then (ctxerrors.Wrap (Some ErrUnexpectedHTTPStatusCode)
              ("status code: " +:+ String.string_of_list_byte (marshal_int (StatusCode resp))), fs)
      else
        match openErr targetPath with
        | Some err => (ctxerrors.Wrap (Some err) "failed to create local file", fs)
        | None =>
          let '(written, err) := Copy targetPath resp in
          (ctxerrors.Wrap err "failed to write file",
           <[targetPath := overwrite (fs !! targetPath) written]> fs)
        end
    end
  end.

(** What DownloadFile returns does not depend on the files. *)
Definition outcome (url targetPath : bytes) : option error := (DownloadFile url targetPath ∅).1.

Lemma DownloadFile_outcome url p fs : (DownloadFile url p fs).1 = outcome url p.
Proof. unfold outcome, DownloadFile. by repeat case_match. Qed.

(** Only the target changes, by a function of its own content. *)
Definition result_file (url p : bytes) (old : option bytes) : option bytes :=
  (DownloadFile url p (match old with Some c => {[p := c]} | None => ∅ end)).2 !! p.

Lemma DownloadFile_files url p fs q :
  (DownloadFile url p fs).2 !! q = if decide (q = p) then result_file url p (fs !! p) else fs !! q.
Proof.
  unfold result_file, DownloadFile. case_decide as Hq.
  - subst q. destruct (fs !! p) as [c|] eqn:E; repeat (case_match; simpl);
      rewrite ?lookup_insert_eq, ?lookup_singleton_eq, ?lookup_empty, ?E; done.
  - repeat (case_match; simpl); rewrite ?lookup_insert_ne by done; done.
Qed.

(** A download that succeeds has written the whole body of a 200 answer. *)
Lemma outcome_None url p old :
  outcome url p = None ->
  exists resp, Do url = Ok resp /\ StatusCode resp = StatusOK /\ BodyErr resp = None /\
    result_file url p old = Some (overwrite old (Body resp)).
Proof.
  unfold outcome, result_file, DownloadFile. destruct (NewRequest url); [done|].
  destruct (Do url) as [resp|]; [|done]. destruct (Z.eqb_spec (StatusCode resp) StatusOK); simpl; [|done].
  destruct (openErr p); [done|]. unfold Copy. intros H. exists resp.
  assert (Hold : (match old with Some c => {[p := c]} | None => (∅ : fsys) end) !! p = old).
  { destruct old; [by rewrite lookup_singleton_eq|by rewrite lookup_empty]. }
  destruct (diskFull p) as [[n err]|]; [destruct (n <? length (Body resp))%nat; [done|]|];
    simpl in *; rewrite lookup_insert_eq, Hold; by destruct (BodyErr resp).
Qed.

(** ** DownloadFiles *)

Definition downloadFilesWorkerLimit : nat := 5.

Abbreviation job := (bytes * bytes)%type.

(** A goroutine: before the semaphore, inside DownloadFile, sending its error,
    before the release, ended. *)
Inductive phase : Type := PStart | PDownload | PSend (err : error) | PRelease | PDone.

(** The caller: starting goroutines, in wg.Wait, returned. *)
Inductive dmain : Type := DSpawn (rest : list job) | DWait | DReturned (result : option error).

Record dstate : Type := MkD {
  dmainG : dmain;
  workers : list (job * phase);
  sem : nat;
  errChan : list error;
  files : fsys
}.

Context (Error : error -> string).

(** The error of one job as it is sent. *)
Definition job_error (j : job) (err : error) : error :=
  ctxerrors.WrapE err ("failed to download " +:+ String.string_of_list_byte j.1 +:+ " to " +:+
                       String.string_of_list_byte j.2).

Fixpoint joined (msgs : list string) : string :=
  match msgs with
  | [] => EmptyString
  | [m] => m
  | m :: rest => m +:+ "; " +:+ joined rest
  end.

(** What the caller makes of the collected errors. *)
Definition download_result (errs : list error) : option error :=
  match errs with
  | [] => None
  | _ => ctxerrors.Wrap (Some ErrCouldNotDownloadFiles)
           ("errors downloading files: " +:+ joined (Error <$> errs))
  end.

(** [n] is the number of entries of the map: the capacity of errChan, and with
    the limit that of the semaphore. *)
Inductive dstep (n : nat) : dstate -> dstate -> Prop :=
| d_spawn j rest ws k errs fs :
    dstep n (MkD (DSpawn (j :: rest)) ws k errs fs) (MkD (DSpawn rest) (ws ++ [(j, PStart)]) k errs fs)
| d_spawned ws k errs fs :
    dstep n (MkD (DSpawn []) ws k errs fs) (MkD DWait ws k errs fs)
| d_acquire m l1 j l2 k errs fs :
    (k < min downloadFilesWorkerLimit n)%nat ->
    dstep n (MkD m (l1 ++ (j, PStart) :: l2) k errs fs) (MkD m (l1 ++ (j, PDownload) :: l2) (S k) errs fs)
| d_download m l1 j l2 k errs fs :
    dstep n (MkD m (l1 ++ (j, PDownload) :: l2) k errs fs)
      (MkD m (l1 ++ (j, match (DownloadFile j.1 j.2 fs).1 with
                        | Some err => PSend (job_error j err)
                        | None => PRelease
                        end) :: l2) k errs (DownloadFile j.1 j.2 fs).2)
| d_send m l1 j err l2 k errs fs :
    (length errs < n)%nat ->
    dstep n (MkD m (l1 ++ (j, PSend err) :: l2) k errs fs) (MkD m (l1 ++ (j, PRelease) :: l2) k (errs ++ [err]) fs)
| d_release m l1 j l2 k errs fs :
    dstep n (MkD m (l1 ++ (j, PRelease) :: l2) (S k) errs fs) (MkD m (l1 ++ (j, PDone) :: l2) k errs fs)
| d_wait ws k errs fs :
    Forall (fun w => w.2 = PDone) ws ->
    dstep n (MkD DWait ws k errs fs) (MkD (DReturned (download_result errs)) ws k errs fs).

(** DownloadFiles on a map with these entries (in the order the range gives
    them); the empty map is answered at once. *)
Definition dinit (jobs : list job) (fs : fsys) : dstate :=
  match jobs with
  | [] => MkD (DReturned None) [] 0 [] fs
  | _ => MkD (DSpawn jobs) [] 0 [] fs
  end.

(** *** The invariant *)

(** Goroutines that hold a slot of the semaphore. *)
Definition inside_sem (w : job * phase) : nat :=
  match w.2 with PDownload | PSend _ | PRelease => 1 | _ => 0 end.

Definition holders (ws : list (job * phase)) : nat := sum_list_with inside_sem ws.

(** The download of [w] has run. *)
Definition ran (w : job * phase) : bool :=
  match w.2 with PStart | PDownload => false | _ => true end.

(** The error [w] has sent. *)
Definition sent (w : job * phase) : option error :=
  match w.2 with PRelease | PDone => job_error w.1 <$> outcome w.1.1 w.1.2 | _ => None end.

Definition pending (m : dmain) : list job := match m with DSpawn rest => rest | _ => [] end.

(** The files: of a download that has run, its result; all others as before. *)
Definition files_ok (fs0 : fsys) (ws : list (job * phase)) (fs : fsys) : Prop :=
  (forall j ph, (j, ph) ∈ ws ->
     fs !! j.2 = if ran (j, ph) then result_file j.1 j.2 (fs0 !! j.2) else fs0 !! j.2) /\
  (forall q, q ∉ (ws.*1).*2 -> fs !! q = fs0 !! q).

Record dinv (jobs : list job) (fs0 : fsys) (s : dstate) : Prop := {
  dinv_jobs : (workers s).*1 ++ pending (dmainG s) = jobs;
  dinv_sem : sem s = holders (workers s);
  dinv_limit : (sem s <= min downloadFilesWorkerLimit (length jobs))%nat;
  dinv_errs : errChan s ≡ₚ omap sent (workers s);
  dinv_send : forall j err, (j, PSend err) ∈ workers s -> job_error j <$> outcome j.1 j.2 = Some err;
  dinv_files : NoDup jobs.*2 -> files_ok fs0 (workers s) (files s);
  dinv_result : match dmainG s with
                | DReturned r => Forall (fun w => w.2 = PDone) (workers s) /\ r = download_result (errChan s)
                | _ => True
                end
}.

Lemma holders_mid l1 w l2 : holders (l1 ++ w :: l2) = (inside_sem w + holders (l1 ++ l2))%nat.
Proof. unfold holders. rewrite !sum_list_with_app. simpl. lia. Qed.

Lemma not_done_mid l1 (w : job * phase) l2 :
  w.2 <> PDone -> ~ Forall (fun w => w.2 = PDone) (l1 ++ w :: l2).
Proof. intros H F. apply Forall_app in F as [_ F]. by apply Forall_cons in F as [? _]. Qed.

(** A goroutine moves on without downloading. *)
Lemma files_ok_phase fs0 fs l1 j ph ph' l2 :
  ran (j, ph) = ran (j, ph') -> files_ok fs0 (l1 ++ (j, ph) :: l2) fs -> files_ok fs0 (l1 ++ (j, ph') :: l2) fs.
Proof.
  intros Hran [H1 H2]. split.
  - intros j' ph0 Hin. apply elem_of_app in Hin as [Hin|Hin]; [by apply H1; set_solver|].
    apply elem_of_cons in Hin as [Hin|Hin]; [|by apply H1; set_solver].
    simplify_eq. rewrite <- Hran. apply H1. set_solver.
  - intros q Hq. apply H2. by rewrite !fmap_app in *.
Qed.

Lemma files_ok_download fs0 fs l1 j ph l2 :
  NoDup ((l1 ++ (j, PDownload) :: l2).*1).*2 -> ran (j, ph) = true ->
  files_ok fs0 (l1 ++ (j, PDownload) :: l2) fs ->
  files_ok fs0 (l1 ++ (j, ph) :: l2) (DownloadFile j.1 j.2 fs).2.
Proof.
  intros Hnd Hran [H1 H2]. rewrite !fmap_app, !fmap_cons in Hnd. simpl in Hnd.
  apply NoDup_app in Hnd as (_ & Hd1 & Hd2). apply NoDup_cons in Hd2 as [Hd2 _].
  assert (Hne : forall j' ph', (j', ph') ∈ l1 ++ l2 -> j'.2 <> j.2).
  { intros j' ph' Hin E. apply elem_of_app in Hin as [Hin|Hin].
    - apply (Hd1 j.2); [|by left]. rewrite <- E.
      apply (list_elem_of_fmap_2 snd _ j'), (list_elem_of_fmap_2 fst _ (j', ph')), Hin.
    - apply Hd2. rewrite <- E.
      apply (list_elem_of_fmap_2 snd _ j'), (list_elem_of_fmap_2 fst _ (j', ph')), Hin. }
  split.
  - intros j' ph0 Hin. rewrite DownloadFile_files. rewrite elem_of_app, elem_of_cons in Hin.
    destruct Hin as [Hin|[Hin|Hin]].
    + rewrite decide_False by (apply (Hne j' ph0); set_solver). apply H1. set_solver.
    + simplify_eq. rewrite decide_True, Hran by done. f_equal.
      exact (H1 j PDownload ltac:(set_solver)).
    + rewrite decide_False by (apply (Hne j' ph0); set_solver). apply H1. set_solver.
  - intros q Hq. rewrite DownloadFile_files. rewrite !fmap_app in Hq. simpl in Hq.
    rewrite decide_False by set_solver. apply H2. rewrite !fmap_app. simpl. done.
Qed.

Lemma files_ok_spawn fs0 fs ws j :
  j.2 ∉ (ws.*1).*2 -> files_ok fs0 ws fs -> files_ok fs0 (ws ++ [(j, PStart)]) fs.
Proof.
  intros Hj [H1 H2]. split.
  - intros j' ph Hin. apply elem_of_app in Hin as [Hin|Hin]; [by apply H1|].
    apply list_elem_of_singleton in Hin. simplify_eq. simpl. by apply H2.
  - intros q Hq. apply H2. rewrite !fmap_app in Hq. set_solver.
Qed.

(** The steps of one goroutine leave the caller and the jobs as they are. *)
Lemma dinv_worker jobs fs0 m l1 j ph ph' l2 k k' errs errs' fs fs' :
  dinv jobs fs0 (MkD m (l1 ++ (j, ph) :: l2) k errs fs) -> ph <> PDone ->
  (k' + inside_sem (j, ph) = k + inside_sem (j, ph'))%nat ->
  (k' <= min downloadFilesWorkerLimit (length jobs))%nat ->
  errs' ++ option_list (sent (j, ph)) ≡ₚ errs ++ option_list (sent (j, ph')) ->
  (forall err, ph' = PSend err -> job_error j <$> outcome j.1 j.2 = Some err) ->
  (NoDup ((l1 ++ (j, ph) :: l2).*1).*2 -> files_ok fs0 (l1 ++ (j, ph) :: l2) fs ->
   files_ok fs0 (l1 ++ (j, ph') :: l2) fs') ->
  dinv jobs fs0 (MkD m (l1 ++ (j, ph') :: l2) k' errs' fs').
Proof.
  intros [Hj Hs Hl He Hsend Hf Hr] Hph Hk Hlim Hp Herr Hfiles. simpl in *. constructor; simpl.
  - rewrite <- Hj. by rewrite !fmap_app.
  - rewrite holders_mid in *. lia.
  - done.
  - rewrite omap_app in *. simpl in *.
    destruct (sent (j, ph)) as [x|], (sent (j, ph')) as [y|]; simpl in *; rewrite ?app_nil_r in Hp.
    + rewrite He, <- !app_assoc in Hp. apply (Permutation_app_inv_r [x]). rewrite Hp. simpl. solve_Permutation.
    + apply (Permutation_app_inv_r [x]). rewrite Hp, He. solve_Permutation.
    + rewrite Hp, He. solve_Permutation.
    + by rewrite Hp, He.
  - intros j' err Hin. rewrite elem_of_app, elem_of_cons in Hin.
    destruct Hin as [Hin|[Hin|Hin]]; [apply Hsend; set_solver|by simplify_eq; apply Herr|apply Hsend; set_solver].
  - intros Hnd. apply Hfiles; [|by apply Hf]. rewrite <- Hj, fmap_app in Hnd. by apply NoDup_app in Hnd as [? _].
  - destruct m; try done. destruct Hr as [Hr _]. by apply not_done_mid in Hr.
Qed.
Lemma dinv_step jobs fs0 s s' : dinv jobs fs0 s -> dstep (length jobs) s s' -> dinv jobs fs0 s'.
Proof.
  intros HI Hst.
  destruct Hst as [j rest ws k errs fs|ws k errs fs|m l1 j l2 k errs fs Hk|m l1 j l2 k errs fs
    |m l1 j err l2 k errs fs Hlen|m l1 j l2 k errs fs|ws k errs fs Hall].
  - destruct HI as [Hj Hs Hl He Hsend Hf Hr]. simpl in *. constructor; simpl.
    + rewrite <- Hj, fmap_app, <- app_assoc. done.
    + rewrite Hs. unfold holders. rewrite sum_list_with_app. simpl. lia.
    + done.
    + rewrite He, omap_app. simpl. by rewrite app_nil_r.
    + intros j' err Hin. apply elem_of_app in Hin as [Hin|Hin]; [by apply Hsend|].
      by apply list_elem_of_singleton in Hin.
    + intros Hnd. apply files_ok_spawn; [|by apply Hf]. rewrite <- Hj, fmap_app, fmap_cons in Hnd.
      apply NoDup_app in Hnd as (_ & Hd & _). intros Hin. by apply (Hd _ Hin); left.
    + done.
  - by destruct HI.
  - eapply dinv_worker; [done|done|unfold inside_sem; simpl; lia|lia|done|done|]. intros _. by apply files_ok_phase.
  - pose proof (dinv_limit _ _ _ HI) as Hl. cbn [sem] in Hl. rewrite DownloadFile_outcome.
    eapply dinv_worker; [done|done| |done| | |].
    + by destruct (outcome j.1 j.2).
    + unfold sent. simpl. destruct (outcome j.1 j.2) eqn:E; simpl; rewrite ?E; done.
    + intros err. destruct (outcome j.1 j.2); naive_solver.
    + intros Hnd. apply files_ok_download; [done|]. by destruct (outcome j.1 j.2).
  - pose proof (dinv_limit _ _ _ HI) as Hl. cbn [sem] in Hl.
    pose proof (dinv_send _ _ _ HI j err ltac:(simpl; set_solver)) as Herr.
    eapply dinv_worker; [done|done|done|done| |done|].
    + unfold sent. simpl. rewrite Herr. simpl. by rewrite app_nil_r.
    + intros _. by apply files_ok_phase.
  - pose proof (dinv_limit _ _ _ HI) as Hl. cbn [sem] in Hl.
    eapply dinv_worker; [done|done|unfold inside_sem; simpl; lia|lia|done|done|]. intros _. by apply files_ok_phase.
  - destruct HI. by constructor.
Qed.

Lemma dinv_init jobs fs0 : dinv jobs fs0 (dinit jobs fs0).
Proof.
  assert (files_ok fs0 [] fs0) by (split; [by intros ? ? ?%not_elem_of_nil|done]).
  destruct jobs as [|j jobs]; constructor; simpl; try done; try lia; by intros ? ? ?%not_elem_of_nil.
Qed.

Lemma dinv_reachable jobs fs0 s : rtc (dstep (length jobs)) (dinit jobs fs0) s -> dinv jobs fs0 s.
Proof.
  generalize (dinv_init jobs fs0). generalize (dinit jobs fs0). intros s0 Hi H. revert Hi.
  induction H as [|x y z Hxy _ IH]; intros Hi; [done|]. apply IH. by eapply dinv_step.
Qed.

(** *** Termination *)

Definition phase_cost (ph : phase) : nat :=
  match ph with PStart => 4 | PDownload => 3 | PSend _ => 2 | PRelease => 1 | PDone => 0 end.

Definition workers_cost (ws : list (job * phase)) : nat := sum_list_with (fun w => phase_cost w.2) ws.

Definition main_cost (m : dmain) : nat :=
  match m with DSpawn rest => 5 * length rest + 2 | DWait => 1 | DReturned _ => 0 end.

Definition dcost (s : dstate) : nat := workers_cost (workers s) + main_cost (dmainG s).

Lemma workers_cost_mid l1 j ph l2 :
  workers_cost (l1 ++ (j, ph) :: l2) = (phase_cost ph + workers_cost (l1 ++ l2))%nat.
Proof. unfold workers_cost. rewrite !sum_list_with_app. simpl. lia. Qed.

Lemma dstep_cost n s s' : dstep n s s' -> (dcost s' < dcost s)%nat.
Proof.
  intros []; unfold dcost; cbn [workers dmainG]; rewrite ?workers_cost_mid; cbn [phase_cost main_cost length];
    rewrite ?app_nil_r; try lia.
  destruct (DownloadFile _ _ _).1; cbn [phase_cost]; lia.
Qed.

(** *** Progress *)

Lemma idle_holders ws :
  Forall (fun w => w.2 = PStart \/ w.2 = PDone) ws -> holders ws = 0%nat.
Proof.
  unfold holders. induction 1 as [|[j ph] ws [H|H] _ IH]; simpl in *; subst; [done|..]; by rewrite IH.
Qed.

Lemma omap_length_le {A B} (f : A -> option B) l : (length (omap f l) <= length l)%nat.
Proof. induction l as [|x l IH]; csimpl; [done|]. destruct (f x); csimpl; lia. Qed.

Lemma dprogress jobs fs0 s :
  dinv jobs fs0 s -> (exists r, dmainG s = DReturned r) \/ exists s', dstep (length jobs) s s'.
Proof.
  intros [Hj Hs Hl He Hsend _ _]. destruct s as [m ws k errs fs]. cbn [workers dmainG sem errChan pending] in *.
  destruct m as [[|j rest]| |r]; [right; eexists; constructor..| |left; by eexists]. right.
  rewrite app_nil_r in Hj.
  assert (Hlen : length ws = length jobs) by (rewrite <- Hj; by rewrite length_fmap).
  assert (Decision (Exists (fun w => w.2 <> PStart /\ w.2 <> PDone) ws)) as [Hex|Hno].
  { apply Exists_dec. intros [j ph]. simpl. destruct ph; [right|left|left|left|right]; naive_solver. }
  - apply Exists_exists in Hex as ([j ph] & Hin & H1 & H2). simpl in *.
    apply list_elem_of_split in Hin as (l1 & l2 & ->). destruct ph; [done|..|done].
    + eexists. apply d_download.
    + eexists. apply d_send. rewrite He, omap_app, length_app. csimpl.
      rewrite length_app in Hlen. simpl in Hlen. clear Hl.
      pose proof (omap_length_le sent l1). pose proof (omap_length_le sent l2). lia.
    + rewrite holders_mid in Hs. unfold inside_sem in Hs. simpl in Hs. destruct k as [|k]; [lia|]. eexists. apply d_release.
  - apply not_Exists_Forall in Hno.
    2: { intros [j ph]. simpl. destruct ph; [right|left|left|left|right]; naive_solver. }
    assert (Hidle : Forall (fun w => w.2 = PStart \/ w.2 = PDone) ws).
    { eapply Forall_impl; [exact Hno|]. intros [j []]; simpl; naive_solver. }
    rewrite (idle_holders _ Hidle) in Hs. subst k.
    assert (Decision (Exists (fun w => w.2 = PStart) ws)) as [Hst|Hst].
    { apply Exists_dec. intros [j ph]. simpl. destruct ph; [left|right..]; naive_solver. }
    + apply Exists_exists in Hst as ([j ph] & Hin & H1). simpl in *. subst ph.
      apply list_elem_of_split in Hin as (l1 & l2 & ->). eexists. apply d_acquire.
      rewrite length_app in Hlen. cbn [length] in Hlen. unfold downloadFilesWorkerLimit. lia.
    + eexists. apply d_wait. apply Forall_forall. intros w Hw. rewrite Forall_forall in Hidle.
      destruct (Hidle w Hw); [|done]. exfalso. apply Hst, Exists_exists. by exists w.
Qed.

Lemma download_result_None errs : download_result errs = None <-> errs = [].
Proof. by destruct errs. Qed.

Lemma sent_all ws :
  Forall (fun w => w.2 = PDone) ws ->
  omap sent ws = omap (fun j => job_error j <$> outcome j.1 j.2) ws.*1.
Proof. induction 1 as [|[j ph] ws H _ IH]; csimpl; [done|]. simpl in H. subst ph. rewrite IH. by unfold sent. Qed.

Lemma omap_nil_iff {A B} (f : A -> option B) l : omap f l = [] <-> forall x, x ∈ l -> f x = None.
Proof.
  induction l as [|x l IH]; csimpl; [set_solver|]. destruct (f x) eqn:E; split.
  - done.
  - intros H. specialize (H x ltac:(by left)). congruence.
  - intros H y Hy. apply elem_of_cons in Hy as [->|Hy]; [done|]. by apply IH.
  - intros H. apply IH. intros y Hy. apply H. by right.
Qed.

(** What DownloadFiles has done when it returns. *)
Lemma downloads_returned jobs fs0 s r :
  dinv jobs fs0 s -> dmainG s = DReturned r ->
  (r = None <-> forall u p, (u, p) ∈ jobs -> outcome u p = None) /\
  (forall e, r = Some e -> ctxerrors.Is e "could not download files" = true) /\
  (NoDup jobs.*2 -> forall u p, (u, p) ∈ jobs -> files s !! p = result_file u p (fs0 !! p)).
Proof.
  intros [Hj Hs Hl He Hsend Hf Hr] Hm. rewrite Hm in *. simpl in *. rewrite app_nil_r in Hj.
  destruct Hr as [Hall ->]. split; [|split].
  - rewrite download_result_None. rewrite (sent_all _ Hall), Hj in He. split.
    + intros E u p Hin. rewrite E in He. symmetry in He. apply Permutation_nil_r in He.
      rewrite omap_nil_iff in He. specialize (He _ Hin). simpl in He. by destruct (outcome u p).
    + intros H. apply Permutation_nil_r. rewrite He. apply Permutation_nil_r, omap_nil_iff.
      intros [u p] Hin. simpl. by rewrite (H u p Hin).
  - intros e. by destruct (errChan s); [done|intros [= <-]].
  - intros Hnd u p Hin. destruct (Hf Hnd) as [H1 _]. rewrite <- Hj in Hin.
    apply list_elem_of_fmap in Hin as ([j ph] & Hje & Hin). simpl in Hje. subst j.
    rewrite Forall_forall in Hall. pose proof (Hall _ Hin) as Hd. simpl in Hd. subst ph.
    exact (H1 _ _ Hin).
Qed.

(** [w] is inside DownloadFile. *)
Definition downloading (w : job * phase) : bool :=
  match w.2 with PDownload => true | _ => false end.

(** C19. DownloadFiles, in every interleaving of its goroutines: (1) no more than five
    downloads run at a time; (2) nothing blocks for good: until it has returned some
    step is possible, also for a goroutine that sends its error; (3) executions
    are finite, at most five steps per file and two more; so it always returns, and
    (4) it returns nil exactly when every download succeeded, and otherwise an
    error that is ErrCouldNotDownloadFiles; (5) when the target paths are
    different, every file then is what its own DownloadFile leaves there, which
    on success is the body of a 200 answer written over the old content. *)
Theorem downloads_correct (jobs : list job) (fs0 : fsys) :
  let reach := rtc (dstep (length jobs)) (dinit jobs fs0) in
  (forall s, reach s -> (length (filter (fun w => downloading w = true) (workers s)) <= 5)%nat) /\
  (forall s, reach s -> (exists r, dmainG s = DReturned r) \/ exists s', dstep (length jobs) s s') /\
  (forall n s, nsteps (dstep (length jobs)) n (dinit jobs fs0) s -> (n <= 5 * length jobs + 2)%nat) /\
  (forall s r, reach s -> dmainG s = DReturned r ->
     (r = None <-> forall u p, (u, p) ∈ jobs -> outcome u p = None) /\
     (forall e, r = Some e -> ctxerrors.Is e "could not download files" = true) /\
     (NoDup jobs.*2 -> forall u p, (u, p) ∈ jobs -> files s !! p = result_file u p (fs0 !! p)) /\
     (NoDup jobs.*2 -> r = None -> forall u p, (u, p) ∈ jobs ->
        exists resp, Do u = Ok resp /\ StatusCode resp = StatusOK /\
          files s !! p = Some (overwrite (fs0 !! p) (Body resp)))).
Proof.
  intros reach. split; [|split; [|split]].
  - intros s Hr. pose proof (dinv_reachable _ _ _ Hr) as [_ Hs Hl _ _ _ _].
    assert (length (filter (fun w => downloading w = true) (workers s)) <= holders (workers s))%nat; [|unfold downloadFilesWorkerLimit in Hl; lia].
    unfold holders. clear. induction (workers s) as [|[j ph] ws IH]; [done|].
    rewrite filter_cons. simpl. case_decide as H; [|lia]. destruct ph; try done. cbn [length inside_sem snd]. lia.
  - intros s Hr. by eapply dprogress, dinv_reachable.
  - intros n s H. assert (n + dcost s <= dcost (dinit jobs fs0))%nat as Hc.
    { clear -H. induction H as [|n x y z Hxy _ IH]; [lia|]. apply dstep_cost in Hxy. lia. }
    destruct jobs; simpl in *; unfold dcost in Hc; simpl in *; lia.
  - intros s r Hr Hm. pose proof (dinv_reachable _ _ _ Hr) as HI.
    destruct (downloads_returned _ _ _ _ HI Hm) as (H1 & H2 & H3). split; [done|]. split; [done|]. split; [done|].
    intros Hnd HrN u p Hin. destruct (outcome_None u p (fs0 !! p)) as (resp & Hdo & Hok & _ & Hres); [by apply H1|].
    exists resp. split; [done|]. split; [done|]. rewrite <- Hres. by apply H3.
Qed.
End Download.

(** A target that already holds more bytes than the body keeps its tail. *)
Lemma DownloadFile_keeps_tail NewRequest Do openErr diskFull url p fs old resp :
  outcome NewRequest Do openErr diskFull url p = None -> Do url = Ok resp ->
  fs !! p = Some old -> (length (Body resp) < length old)%nat ->
  (DownloadFile NewRequest Do openErr diskFull url p fs).2 !! p
    = Some (Body resp ++ drop (length (Body resp)) old) /\
  Body resp ++ drop (length (Body resp)) old <> Body resp.
Proof.
  intros Ho Hd Hf Hlen. rewrite DownloadFile_files, decide_True, Hf by done.
  destruct (outcome_None _ _ _ _ _ _ (Some old) Ho) as (resp' & Hd' & _ & _ & ->).
  rewrite Hd in Hd'. injection Hd' as <-. split; [done|]. intros E. apply (f_equal length) in E. rewrite length_app, length_drop in E. lia.
Qed.

(** ** CreateBase64ImageURI, AnyToReader, IsPointer *)

Definition CreateBase64ImageURI (base64Data contentType : bytes) : bytes :=
  lit "data:" ++ contentType ++ lit ";base64," ++ base64Data.

(** The dynamic type of the argument: a reader is what it will deliver, any
    other type what json.Marshal makes of it. *)
Inductive anyval : Type :=
| AString (s : bytes)
| ABytes (s : bytes)
| AReader (r : bytes)
| ANil
| AOther (marshalled : gores bytes).

(** The bytes the returned reader delivers. *)
Definition AnyToReader (v : anyval) : gores bytes :=
  match v with
  | AString val => Ok val
  | ABytes val => Ok val
  | AReader val => Ok val
  | ANil => Ok []
  | AOther (Ok data) => Ok data
  | AOther (Err err) => Err (ctxerrors.WrapE err "failed to marshal to JSON")
  end.

(** [None] is the nil interface, otherwise the name %T prints. *)
Definition IsPointer (typeName : option bytes) : bool :=
  match typeName with
  | Some (c :: _) => bool_decide (c = Byte.x2a)
  | _ => false
  end.
