(* ===== verification/Base64.v ===== *)
(** * encoding/base64, the standard encoding with padding

    What utils/fileutil and utils/cryptoutil use of Go's package: EncodeToString
    and DecodeString of StdEncoding.  The decoder skips line breaks wherever they
    are, as Go's does; the offset in its error is left out. *)

From stdpp Require Import base option list.
From Stdlib Require Import ZArith Lia Wf_nat.
From Stdlib.Strings Require Byte.
From S2P Require Import Prelude GoErrors Utf8.

Open Scope Z_scope.

Definition PAD : Byte.byte := Byte.x3d.

(** The alphabet A-Z a-z 0-9 + /. *)
Definition alphabet (v : Z) : Byte.byte :=
  zb (if v <? 26 then 65 + v else if v <? 52 then 71 + v else if v <? 62 then v - 4
      else if v =? 62 then 43 else 47).

Definition decodeMap (c : Byte.byte) : option Z :=
  let b := bz c in
  if within 65 90 b then Some (b - 65)
  else if within 97 122 b then Some (b - 71)
  else if within 48 57 b then Some (b + 4)
  else if b =? 43 then Some 62
  else if b =? 47 then Some 63
  else None.

Definition newline (c : Byte.byte) : bool := (bz c =? 10) || (bz c =? 13).

(** Encoding.Encode: three bytes, then the remainder. *)
Fixpoint Encode (s : bytes) : bytes :=
  match s with
  | x :: y :: z :: rest =>
    let val := Z.lor (Z.lor (Z.shiftl (bz x) 16) (Z.shiftl (bz y) 8)) (bz z) in
    alphabet (Z.land (Z.shiftr val 18) 0x3F) :: alphabet (Z.land (Z.shiftr val 12) 0x3F) ::
    alphabet (Z.land (Z.shiftr val 6) 0x3F) :: alphabet (Z.land val 0x3F) :: Encode rest
  | [x; y] =>
    let val := Z.lor (Z.shiftl (bz x) 16) (Z.shiftl (bz y) 8) in
    [alphabet (Z.land (Z.shiftr val 18) 0x3F); alphabet (Z.land (Z.shiftr val 12) 0x3F);
     alphabet (Z.land (Z.shiftr val 6) 0x3F); PAD]
  | [x] =>
    let val := Z.shiftl (bz x) 16 in
    [alphabet (Z.land (Z.shiftr val 18) 0x3F); alphabet (Z.land (Z.shiftr val 12) 0x3F); PAD; PAD]
  | [] => []
  end.

Definition CorruptInputError : error := Sentinel "illegal base64 data".

Fixpoint skip_newlines (s : bytes) : bytes :=
  match s with
  | c :: t => if newline c then skip_newlines t else s
  | [] => []
  end.

(** The bytes of a quantum of [dlen] sextets. *)
Definition quantum (dbuf : list Z) : bytes :=
  match dbuf with
  | [a; b; c; d] =>
    let val := Z.lor (Z.lor (Z.lor (Z.shiftl a 18) (Z.shiftl b 12)) (Z.shiftl c 6)) d in
    [zb (Z.shiftr val 16); zb (Z.shiftr val 8); zb val]
  | [a; b; c] =>
    let val := Z.lor (Z.lor (Z.shiftl a 18) (Z.shiftl b 12)) (Z.shiftl c 6) in
    [zb (Z.shiftr val 16); zb (Z.shiftr val 8)]
  | [a; b] =>
    let val := Z.lor (Z.shiftl a 18) (Z.shiftl b 12) in [zb (Z.shiftr val 16)]
  | _ => []
  end.

(** Encoding.Decode with decodeQuantum; [dbuf] holds the sextets of the quantum
    so far. *)
Fixpoint decode_from (dbuf : list Z) (s : bytes) : gores bytes :=
  match s with
  | [] => match dbuf with [] => Ok [] | _ => Err CorruptInputError end
  | c :: t =>
    match decodeMap c with
    | Some out =>
      if (length dbuf =? 3)%nat
      then match decode_from [] t with
           | Ok rest => Ok (quantum (dbuf ++ [out]) ++ rest)
           | Err e => Err e
           end
      else decode_from (dbuf ++ [out]) t
    | None =>
      if newline c then decode_from dbuf t
      else if negb (bool_decide (c = PAD)) then Err CorruptInputError
      else
        let finish t := match skip_newlines t with [] => Ok (quantum dbuf) | _ => Err CorruptInputError end in
        match length dbuf with
        | 2%nat => match skip_newlines t with
                   | c' :: t' => if bool_decide (c' = PAD) then finish t' else Err CorruptInputError
                   | [] => Err CorruptInputError
                   end
        | 3%nat => finish t
        | _ => Err CorruptInputError
        end
    end
  end.

Definition EncodeToString (s : bytes) : bytes := Encode s.
Definition DecodeString (s : bytes) : gores bytes := decode_from [] s.

(** ** Round trip *)

Definition sextet (v : Z) : Prop := 0 <= v < 64.

Lemma decodeMap_alphabet v : sextet v -> decodeMap (alphabet v) = Some v.
Proof.
  intros Hv. unfold decodeMap, alphabet, within, sextet in *.
  assert (Hb : 0 <= (if v <? 26 then 65 + v else if v <? 52 then 71 + v else if v <? 62 then v - 4
      else if v =? 62 then 43 else 47) < 256) by (repeat case_match; lia).
  rewrite bz_zb by done. clear Hb.
  destruct (Z.ltb_spec v 26); [|destruct (Z.ltb_spec v 52); [|destruct (Z.ltb_spec v 62);
    [|destruct (Z.eqb_spec v 62)]]]; repeat (case_match; try (f_equal; lia)); lia.
Qed.

Lemma land_sextet x : sextet (Z.land x 0x3F).
Proof. rewrite land_63. unfold sextet. dlia. Qed.

(** An or of a multiple of a power of two with less than it is a sum. *)
Lemma lor_multiple a b n : 0 <= n -> a `mod` 2 ^ n = 0 -> 0 <= b < 2 ^ n -> Z.lor a b = a + b.
Proof.
  intros Hn Ha Hb. assert (a = Z.shiftl (a `div` 2 ^ n) n) as E.
  { rewrite Z.shiftl_mul_pow2 by done. pose proof (Z.div_mod a (2 ^ n) ltac:(lia)). lia. }
  rewrite E at 1. rewrite lor_shiftl_add by done.
  rewrite <- Z.shiftl_mul_pow2 by done. by rewrite <- E.
Qed.

Lemma val_3 x y z :
  0 <= x < 256 -> 0 <= y < 256 -> 0 <= z < 256 ->
  Z.lor (Z.lor (Z.shiftl x 16) (Z.shiftl y 8)) z = x * 65536 + y * 256 + z.
Proof.
  intros Hx Hy Hz. rewrite !Z.shiftl_mul_pow2 by lia.
  rewrite (lor_multiple (x * 2 ^ 16) _ 16) by (try apply Z.mod_mul; lia).
  rewrite (lor_multiple _ z 8); [lia|lia| |lia].
  replace (x * 2 ^ 16 + y * 2 ^ 8) with ((x * 256 + y) * 2 ^ 8) by lia. apply Z.mod_mul. lia.
Qed.

Lemma val_4 a b c d :
  sextet a -> sextet b -> sextet c -> sextet d ->
  Z.lor (Z.lor (Z.lor (Z.shiftl a 18) (Z.shiftl b 12)) (Z.shiftl c 6)) d
  = a * 262144 + b * 4096 + c * 64 + d.
Proof.
  unfold sextet. intros Ha Hb Hc Hd. rewrite !Z.shiftl_mul_pow2 by lia.
  rewrite (lor_multiple (a * 2 ^ 18) _ 18) by (try apply Z.mod_mul; lia).
  rewrite (lor_multiple _ (c * 2 ^ 6) 12); [|lia| |lia].
  2: { replace (a * 2 ^ 18 + b * 2 ^ 12) with ((a * 64 + b) * 2 ^ 12) by lia. apply Z.mod_mul. lia. }
  rewrite (lor_multiple _ d 6); [lia|lia| |lia].
  replace (a * 2 ^ 18 + b * 2 ^ 12 + c * 2 ^ 6) with ((a * 4096 + b * 64 + c) * 2 ^ 6) by lia.
  apply Z.mod_mul. lia.
Qed.

Lemma shiftr_18 x : Z.shiftr x 18 = x `div` 262144.
Proof. by rewrite Z.shiftr_div_pow2. Qed.
Lemma shiftr_16 x : Z.shiftr x 16 = x `div` 65536.
Proof. by rewrite Z.shiftr_div_pow2. Qed.
Lemma shiftr_8 x : Z.shiftr x 8 = x `div` 256.
Proof. by rewrite Z.shiftr_div_pow2. Qed.

Lemma zb_eq z b : z `mod` 256 = bz b -> zb z = b.
Proof.
  intros H. rewrite <- (zb_bz b), <- H. unfold zb. by rewrite Z.mod_mod.
Qed.

(** A quantum gives back the bytes it was made of. *)
Lemma quantum_3 x y z :
  let val := Z.lor (Z.lor (Z.shiftl (bz x) 16) (Z.shiftl (bz y) 8)) (bz z) in
  quantum [Z.land (Z.shiftr val 18) 0x3F; Z.land (Z.shiftr val 12) 0x3F;
           Z.land (Z.shiftr val 6) 0x3F; Z.land val 0x3F] = [x; y; z].
Proof.
  intros val. pose proof (bz_range x). pose proof (bz_range y). pose proof (bz_range z).
  unfold quantum. rewrite val_4 by apply land_sextet. unfold val.
  rewrite val_3 by done. rewrite !land_63, shiftr_18, shiftr_4096, shiftr_64, shiftr_16, shiftr_8.
  set (v := bz x * 65536 + bz y * 256 + bz z).
  assert (v `div` 262144 `mod` 64 = bz x `div` 4) as -> by (unfold v; dlia).
  assert (v `div` 4096 `mod` 64 = (bz x `mod` 4) * 16 + bz y `div` 16) as -> by (unfold v; dlia).
  assert (v `div` 64 `mod` 64 = (bz y `mod` 16) * 4 + bz z `div` 64) as -> by (unfold v; dlia).
  assert (v `mod` 64 = bz z `mod` 64) as -> by (unfold v; dlia).
  f_equal; [|f_equal; [|f_equal]]; apply zb_eq; dlia.
Qed.

Lemma quantum_2 x y :
  let val := Z.lor (Z.shiftl (bz x) 16) (Z.shiftl (bz y) 8) in
  quantum [Z.land (Z.shiftr val 18) 0x3F; Z.land (Z.shiftr val 12) 0x3F;
           Z.land (Z.shiftr val 6) 0x3F] = [x; y].
Proof.
  intros val. pose proof (quantum_3 x y Byte.x00) as H. change (bz Byte.x00) with 0 in H.
  rewrite Z.lor_0_r in H. cbv zeta in H. fold val in H. unfold quantum in *.
  injection H as H1 H2 _. rewrite val_4 in H1, H2 by apply land_sextet.
  pose proof (val_4 _ _ _ 0 (land_sextet (Z.shiftr val 18)) (land_sextet (Z.shiftr val 12))
    (land_sextet (Z.shiftr val 6)) ltac:(done)) as H4. rewrite Z.lor_0_r in H4. rewrite H4.
  assert (Z.land val 0x3F = 0) as H0.
  { unfold val. rewrite land_63. pose proof (val_3 (bz x) (bz y) 0 (bz_range x) (bz_range y) ltac:(lia)) as E.
    rewrite Z.lor_0_r in E. rewrite E. dlia. }
  rewrite H0 in H1, H2. by rewrite H1, H2.
Qed.

Lemma quantum_1 x :
  let val := Z.shiftl (bz x) 16 in
  quantum [Z.land (Z.shiftr val 18) 0x3F; Z.land (Z.shiftr val 12) 0x3F] = [x].
Proof.
  intros val. pose proof (quantum_2 x Byte.x00) as H. change (bz Byte.x00) with 0 in H.
  change (Z.shiftl 0 8) with 0 in H. rewrite Z.lor_0_r in H. cbv zeta in H. fold val in H.
  assert (Z.land (Z.shiftr val 6) 0x3F = 0) as H0.
  { unfold val. rewrite land_63, shiftr_64, Z.shiftl_mul_pow2 by lia. pose proof (bz_range x). dlia. }
  rewrite H0 in H. unfold quantum in *. change (Z.shiftl 0 6) with 0 in H. rewrite Z.lor_0_r in H.
  by injection H as ->.
Qed.

(** *** Decoding what was encoded *)

Lemma decode_sextets vs s :
  Forall sextet vs -> (length vs <= 3)%nat -> forall dbuf, (length dbuf + length vs <= 3)%nat ->
  decode_from dbuf ((alphabet <$> vs) ++ s) = decode_from (dbuf ++ vs) s.
Proof.
  induction 1 as [|v vs Hv _ IH]; intros Hlen dbuf Hd; simpl in *; [by rewrite app_nil_r|].
  rewrite decodeMap_alphabet by done.
  rewrite (proj2 (Nat.eqb_neq (length dbuf) 3)) by lia.
  rewrite IH by (rewrite ?length_app; simpl; lia). by rewrite <- app_assoc.
Qed.

Lemma decode_quad a b c d s :
  sextet a -> sextet b -> sextet c -> sextet d ->
  decode_from [] (alphabet a :: alphabet b :: alphabet c :: alphabet d :: s) =
  match decode_from [] s with Ok rest => Ok (quantum [a; b; c; d] ++ rest) | Err e => Err e end.
Proof.
  intros Ha Hb Hc Hd. rewrite (decode_sextets [a; b; c] (alphabet d :: s)); [|rewrite !Forall_cons, Forall_nil; auto|simpl; lia..].
  cbn [decode_from app]. by rewrite decodeMap_alphabet.
Qed.

Lemma decode_triple a b c :
  sextet a -> sextet b -> sextet c ->
  decode_from [] [alphabet a; alphabet b; alphabet c; PAD] = Ok (quantum [a; b; c]).
Proof.
  intros Ha Hb Hc. rewrite (decode_sextets [a; b; c] [PAD]);
    [done|rewrite !Forall_cons, Forall_nil; auto|simpl; lia..].
Qed.

Lemma decode_pair a b :
  sextet a -> sextet b -> decode_from [] [alphabet a; alphabet b; PAD; PAD] = Ok (quantum [a; b]).
Proof.
  intros Ha Hb. rewrite (decode_sextets [a; b] [PAD; PAD]);
    [done|rewrite !Forall_cons, Forall_nil; auto|simpl; lia..].
Qed.

Lemma DecodeString_Encode s : DecodeString (EncodeToString s) = Ok s.
Proof.
  unfold DecodeString, EncodeToString. induction s as [s IH] using (induction_ltof1 _ length).
  unfold ltof in IH. pose proof land_sextet. destruct s as [|x [|y [|z s]]]; [done|..]; cbn [Encode].
  - rewrite decode_pair by auto. by rewrite quantum_1.
  - rewrite decode_triple by auto. by rewrite quantum_2.
  - rewrite decode_quad, IH by (auto || (simpl; lia)). by rewrite quantum_3.
Qed.

(** *** Line breaks *)

(** The text without its line breaks. *)
Definition unwrapped (s : bytes) : bytes := filter (fun c => newline c = false) s.

Lemma unwrapped_cons c s : unwrapped (c :: s) = if newline c then unwrapped s else c :: unwrapped s.
Proof. unfold unwrapped. rewrite filter_cons. by destruct (newline c). Qed.

Lemma decodeMap_newline c : newline c = true -> decodeMap c = None.
Proof.
  unfold newline, decodeMap, within. intros H. apply orb_true_iff in H as [H|H]; apply Z.eqb_eq in H; by rewrite H.
Qed.

Lemma skip_newlines_spec s :
  match skip_newlines s with
  | [] => unwrapped s = []
  | c :: t => unwrapped s = c :: unwrapped t
  end.
Proof.
  induction s as [|c s IH]; [done|]. simpl. rewrite unwrapped_cons. destruct (newline c) eqn:E; [done|].
  done.
Qed.

Lemma skip_unwrapped s : skip_newlines (unwrapped s) = unwrapped s.
Proof.
  induction s as [|c s IH]; [done|]. rewrite unwrapped_cons. destruct (newline c) eqn:E; [done|].
  simpl. by rewrite E.
Qed.

Lemma decode_unwrapped s : forall dbuf, decode_from dbuf (unwrapped s) = decode_from dbuf s.
Proof.
  assert (Hnil : forall t, match skip_newlines (unwrapped t) with [] => true | _ => false end
                         = match skip_newlines t with [] => true | _ => false end).
  { intros t. rewrite skip_unwrapped. pose proof (skip_newlines_spec t). destruct (skip_newlines t); by rewrite H. }
  assert (Hfin : forall dbuf t,
    match skip_newlines (unwrapped t) with [] => Ok (quantum dbuf) | _ => Err CorruptInputError end =
    match skip_newlines t with [] => Ok (quantum dbuf) | _ => Err CorruptInputError end).
  { intros dbuf t. specialize (Hnil t). by destruct (skip_newlines (unwrapped t)), (skip_newlines t). }
  induction s as [|c s IH]; intros dbuf; [done|]. rewrite unwrapped_cons. destruct (newline c) eqn:E.
  - cbn [decode_from]. rewrite decodeMap_newline, E by done. apply IH.
  - cbn [decode_from]. rewrite E. destruct (decodeMap c); [by rewrite !IH|].
    destruct (negb _); [done|]. cbv zeta. rewrite Hfin.
    destruct (length dbuf) as [|[|[|[|n]]]]; try done.
    pose proof (skip_newlines_spec s) as Hs. rewrite skip_unwrapped.
    destruct (skip_newlines s) as [|c' t']; rewrite Hs; [done|]. by rewrite Hfin.
Qed.

(** What was encoded is decoded again, also when it has been broken into
    lines. *)
Lemma DecodeString_wrapped s w : unwrapped w = EncodeToString s -> DecodeString w = Ok s.
Proof. intros H. unfold DecodeString. rewrite <- decode_unwrapped, H. apply DecodeString_Encode. Qed.
