(* ===== verification/Certs.v ===== *)
(** * utils/fileutil and utils/cryptoutil

    Files as base64 text, path checks, temporary directories, and the two ways to
    build a TLS client certificate with its CA pool.  What opening, reading, Stat
    and MkdirTemp answer, and the X.509 functions of the standard library, are
    arguments. *)

From stdpp Require Import base option list strings.
From Stdlib Require Import ZArith Lia.
From Stdlib.Strings Require Byte.
From S2P Require Import Prelude GoErrors Utf8 CommonErrors Base64.

(** ** fileutil.go *)

(** What a path answers to open and read. *)
Inductive fileAt : Type :=
| OpenFails (err : error)
| ReadFails (err : error)
| Contents (data : bytes).

Definition FileToBase64 (fs : bytes -> fileAt) (inputPath : bytes) : gores bytes :=
  match fs inputPath with
  | OpenFails err => Err (ctxerrors.WrapE err "failed to open file")
  | ReadFails err => Err (ctxerrors.WrapE err "failed to read file contents")
  | Contents fileBytes => Ok (EncodeToString fileBytes)
  end.

(** GetRandomFilename; uuid.NewString gives [id]. *)
Definition GetRandomFilename (id extension : bytes) : bytes := id ++ extension.

(** os.IsNotExist on what Stat returned. *)
Definition ErrNotExist : string := "file does not exist".

(** PathExists; [stat] is the error of os.Stat. *)
Definition PathExists (stat : bytes -> option error) (path : bytes) : gores bool :=
  match stat path with
  | Some err => if ctxerrors.Is err ErrNotExist then Ok false
                else Err (ctxerrors.WrapE err "error checking if path exists")
  | None => Ok true
  end.

Definition ValidatePathExists (stat : bytes -> option error) (path : bytes) : option error :=
  match PathExists stat path with
  | Err err => ctxerrors.Wrap (Some err) ("error checking if path exists: " +:+ String.string_of_list_byte path)
  | Ok exists_ =>
    if negb exists_ then ctxerrors.Wrap (Some ErrFileNotFound) ("path: " +:+ String.string_of_list_byte path)
    else None
  end.

(** CreateTempDir: the directory with its cleanup, or the error; [MkdirTemp]
    and [RemoveAll] work on the directories [D]. *)
Definition CreateTempDir {D} (MkdirTemp : bytes -> D -> gores bytes * D)
    (RemoveAll : bytes -> D -> option error * D) (pattern : bytes) (d : D)
  : gores (bytes * (D -> option error * D)) * D :=
  match MkdirTemp pattern d with
  | (Err err, d') => (Err (ctxerrors.WrapE err "failed to create temp dir"), d')
  | (Ok tempDir, d') =>
    (Ok (tempDir, fun d => let '(err, d') := RemoveAll tempDir d in
                           (ctxerrors.Wrap err "failed to remove temp dir", d')), d')
  end.

(** ** certs.go *)

Definition ErrAppendCACertFailed : error := Sentinel "failed to append CA cert".

Section Certs.
Context {Certificate CertPool : Type}.
Context (X509KeyPair : bytes -> bytes -> gores Certificate).
Context (NewCertPool : CertPool) (AppendCertsFromPEM : bytes -> CertPool -> CertPool * bool).

(** os.ReadFile. *)
Definition ReadFile (fs : bytes -> fileAt) (path : bytes) : gores bytes :=
  match fs path with
  | OpenFails err | ReadFails err => Err err
  | Contents data => Ok data
  end.

(** tls.LoadX509KeyPair: both files are read, then parsed. *)
Definition LoadX509KeyPair (fs : bytes -> fileAt) (certFile keyFile : bytes) : gores Certificate :=
  match ReadFile fs certFile with
  | Err err => Err err
  | Ok certPEMBlock =>
    match ReadFile fs keyFile with
    | Err err => Err err
    | Ok keyPEMBlock => X509KeyPair certPEMBlock keyPEMBlock
    end
  end.

Definition CreateClientCertAndCertPoolFromFiles (fs : bytes -> fileAt)
    (clientCertPath clientKeyPath caCertPath : bytes) : gores (Certificate * CertPool) :=
  match LoadX509KeyPair fs clientCertPath clientKeyPath with
  | Err err => Err (ctxerrors.WrapE err "failed to load client certificate")
  | Ok clientCert =>
    match ReadFile fs caCertPath with
    | Err err => Err (ctxerrors.WrapE err "failed to read CA certificate")
    | Ok caCert =>
      match AppendCertsFromPEM caCert NewCertPool with
      | (_, false) => Err (ctxerrors.WrapE ErrAppendCACertFailed "failed to append CA certificate to pool")
      | (caCertPool, true) => Ok (clientCert, caCertPool)
      end
    end
  end.

Definition CreateClientCertAndCertPoolFromBase64
    (clientCertBase64 clientKeyBase64 caCertBase64 : bytes) : gores (Certificate * CertPool) :=
  match DecodeString clientCertBase64 with
  | Err err => Err (ctxerrors.WrapE err "failed to decode base64 client certificate")
  | Ok clientCertBytes =>
    match DecodeString clientKeyBase64 with
    | Err err => Err (ctxerrors.WrapE err "failed to decode base64 client key")
    | Ok clientKeyBytes =>
      match X509KeyPair clientCertBytes clientKeyBytes with
      | Err err => Err (ctxerrors.WrapE err "failed to load client certificate from bytes")
      | Ok clientCert =>
        match DecodeString caCertBase64 with
        | Err err => Err (ctxerrors.WrapE err "failed to decode base64 CA certificate")
        | Ok caCertBytes =>
          match AppendCertsFromPEM caCertBytes NewCertPool with
          | (_, false) => Err (ctxerrors.WrapE ErrAppendCACertFailed "failed to append CA certificate to pool")
          | (caCertPool, true) => Ok (clientCert, caCertPool)
          end
        end
      end
    end
  end.

(** The same value, or errors of the same identity. *)
Definition same_outcome {A} (x y : gores A) : Prop :=
  match x, y with
  | Ok a, Ok b => a = b
  | Err e, Err e' => forall t, ctxerrors.Is e t = ctxerrors.Is e' t
  | _, _ => False
  end.

(** [w] is the base64 text of a file, possibly broken into lines. *)
Definition base64_of (fs : bytes -> fileAt) (path w : bytes) : Prop :=
  FileToBase64 fs path = Ok (unwrapped w).

Lemma base64_of_read fs path w :
  base64_of fs path w -> exists data, ReadFile fs path = Ok data /\ DecodeString w = Ok data.
Proof.
  unfold base64_of, FileToBase64, ReadFile. destruct (fs path) as [| |data]; try done.
  intros [= H]. exists data. split; [done|]. by apply DecodeString_wrapped.
Qed.

(** C37. The two constructors are one: given the base64 text of the three files, as FileToBase64
    writes it or broken into lines, CreateClientCertAndCertPoolFromBase64 gives the
    certificate and the pool CreateClientCertAndCertPoolFromFiles gives for the
    files, or an error of the same identity. *)
Theorem certs_equivalent (fs : bytes -> fileAt) (certPath keyPath caPath cert64 key64 ca64 : bytes) :
  base64_of fs certPath cert64 -> base64_of fs keyPath key64 -> base64_of fs caPath ca64 ->
  same_outcome (CreateClientCertAndCertPoolFromBase64 cert64 key64 ca64)
               (CreateClientCertAndCertPoolFromFiles fs certPath keyPath caPath).
Proof.
  intros (c & Hc & Dc)%base64_of_read (k & Hk & Dk)%base64_of_read (a & Ha & Da)%base64_of_read.
  unfold CreateClientCertAndCertPoolFromBase64, CreateClientCertAndCertPoolFromFiles, LoadX509KeyPair.
  rewrite Dc, Dk, Da, Hc, Hk, Ha. destruct (X509KeyPair c k) as [cert|err]; [|done].
  by destruct (AppendCertsFromPEM a NewCertPool) as [pool []].
Qed.
End Certs.

Lemma certs_equivalent_witness :
  same_outcome
    (CreateClientCertAndCertPoolFromBase64 (fun c k => Ok (c ++ k)) [] (fun a p => (a ++ p, true))
       (lit "Q0VS" ++ [Byte.x0d; Byte.x0a] ++ lit "VA==") (lit "S0VZ") (lit "Q0E="))
    (Ok (lit "CERTKEY", lit "CA")).
Proof.
  exact (certs_equivalent (fun c k => Ok (c ++ k)) [] (fun a p => (a ++ p, true))
    (fun path => if bool_decide (path = lit "cert.pem") then Contents (lit "CERT")
                 else if bool_decide (path = lit "key.pem") then Contents (lit "KEY")
                 else Contents (lit "CA"))
    (lit "cert.pem") (lit "key.pem") (lit "ca.pem")
    (lit "Q0VS" ++ [Byte.x0d; Byte.x0a] ++ lit "VA==") (lit "S0VZ") (lit "Q0E=")
    eq_refl eq_refl eq_refl).
Defined.

(** A path that exists is valid; one that does not is ErrFileNotFound; and an
    error of Stat keeps its identity. *)
Lemma ValidatePathExists_spec stat path :
  match stat path with
  | None => ValidatePathExists stat path = None
  | Some err => forall t, ctxerrors.IsOpt (ValidatePathExists stat path) t =
      if ctxerrors.Is err ErrNotExist then bool_decide ("file not found"%string = t) else ctxerrors.Is err t
  end.
Proof.
  unfold ValidatePathExists, PathExists. destruct (stat path) as [err|]; [|done].
  by destruct (ctxerrors.Is err ErrNotExist).
Qed.
