(* ===== verification/UrlUtil.v ===== *)
(** * utils/urlutil

    BuildURI, JoinURLPaths and GetURLWithParams, with the parts of net/url they
    use: the escaping of user information and query components, ParseQuery and
    Values.Encode.  url.Parse and URL.String are arguments, of which only the raw
    query is looked at.  Strings are byte sequences. *)

From stdpp Require Import base option list gmap sorting strings.
From Stdlib Require Import ZArith Lia.
From Stdlib.Strings Require Byte.
From S2P Require Import Prelude GoErrors Utf8 Json GoStrings.

Open Scope Z_scope.

(** ** net/url: escaping *)

Definition AMP : Byte.byte := Byte.x26.
Definition EQUALS : Byte.byte := Byte.x3d.
Definition SEMI : Byte.byte := Byte.x3b.
Definition PERCENT : Byte.byte := Byte.x25.
Definition PLUS : Byte.byte := Byte.x2b.
Definition SPACE : Byte.byte := Byte.x20.
Definition AT : Byte.byte := Byte.x40.

Definition unreserved (c : Byte.byte) : bool :=
  within 97 122 (bz c) || within 65 90 (bz c) || within 48 57 (bz c) ||
  bool_decide (c ∈ lit "-_.~").

(** shouldEscape for a query component, and for user information. *)
Definition escapeInQuery (c : Byte.byte) : bool := negb (unreserved c).
Definition escapeInUser (c : Byte.byte) : bool :=
  negb (unreserved c || bool_decide (c ∈ lit "$&+,;=")).

Definition upperhex (z : Z) : Byte.byte := zb (if z <? 10 then 48 + z else 55 + z).

Definition percent (c : Byte.byte) : bytes := [PERCENT; upperhex (bz c `div` 16); upperhex (bz c `mod` 16)].

Definition query_escape (c : Byte.byte) : bytes :=
  if negb (escapeInQuery c) then [c] else if bool_decide (c = SPACE) then [PLUS] else percent c.

Definition QueryEscape (s : bytes) : bytes := concat (query_escape <$> s).

Definition user_escape (c : Byte.byte) : bytes := if negb (escapeInUser c) then [c] else percent c.

Definition unhex (c : Byte.byte) : option Z :=
  if within 48 57 (bz c) then Some (bz c - 48)
  else if within 97 102 (bz c) then Some (bz c - 87)
  else if within 65 70 (bz c) then Some (bz c - 55)
  else None.

(** QueryUnescape; [None]: an EscapeError. *)
Fixpoint QueryUnescape (s : bytes) : option bytes :=
  match s with
  | [] => Some []
  | c :: t =>
    if decide (c = PERCENT) then
      match t with
      | h1 :: h2 :: t' =>
        match unhex h1, unhex h2 with
        | Some a, Some b => cons (zb (Z.lor (Z.shiftl a 4) b)) <$> QueryUnescape t'
        | _, _ => None
        end
      | _ => None
      end
    else if decide (c = PLUS) then cons SPACE <$> QueryUnescape t
    else cons c <$> QueryUnescape t
  end.

(** ** net/url: Values *)

Abbreviation Values := (gmap bytes (list bytes)).

Definition addValue (m : Values) (kv : bytes * bytes) : Values :=
  <[kv.1 := default [] (m !! kv.1) ++ [kv.2]]> m.

(** One setting of a query: ones with a semicolon, empty ones and ones that do not
    unescape are left out. *)
Definition parse_setting (m : Values) (setting : bytes) : Values :=
  if bool_decide (SEMI ∈ setting) then m
  else match setting with
       | [] => m
       | _ =>
         let '(key, value, _) := cut EQUALS setting in
         match QueryUnescape key, QueryUnescape value with
         | Some key, Some value => addValue m (key, value)
         | _, _ => m
         end
       end.

(** URL.Query: parseQuery without its error; a query of more than 10000 settings is
    not looked at. *)
Definition maxQueryParams : nat := 10000.

Definition ParseQuery (query : bytes) : Values :=
  if (maxQueryParams <? length (split AMP query))%nat then ∅
  else foldl parse_setting ∅ (split AMP query).

Fixpoint bytes_le (a b : bytes) : bool :=
  match a, b with
  | [], _ => true
  | _ :: _, [] => false
  | x :: a', y :: b' => (bz x <? bz y) || ((bz x =? bz y) && bytes_le a' b')
  end.

Definition key_order (a b : bytes) : Prop := bytes_le a b = true.

#[export] Instance key_order_dec a b : Decision (key_order a b) := decide (bytes_le a b = true).

Definition sorted_keys (m : Values) : list bytes := merge_sort key_order (map_to_list m).*1.

(** Values.Encode *)
Definition settings (m : Values) : list (bytes * bytes) :=
  concat ((fun k => pair k <$> default [] (m !! k)) <$> sorted_keys m).

Definition encode_setting (kv : bytes * bytes) : bytes := QueryEscape kv.1 ++ EQUALS :: QueryEscape kv.2.

Definition Encode (m : Values) : bytes := join AMP (encode_setting <$> settings m).

(** ** urlutil.go *)

(** url.UserPassword(user, pass).String() *)
Definition UserPassword (user pass : bytes) : bytes :=
  concat (user_escape <$> user) ++ COLON :: concat (user_escape <$> pass).

Definition BuildURI (scheme user pass host port path : bytes) : bytes :=
  let uri := scheme ++ lit "://" in
  let uri := match user with
             | [] => uri
             | _ => uri ++ (match pass with [] => user | _ => UserPassword user pass end) ++ [AT]
             end in
  let uri := uri ++ host in
  let uri := match port with [] => uri | _ => uri ++ COLON :: port end in
  match path with [] => uri | _ => uri ++ path end.

(** strings.Trim(s, "/") *)
Definition TrimSlash (s : bytes) : bytes := TrimRightSlash (drop_slashes s).

(** The loop over the paths. *)
Definition clean_paths (paths : list bytes) : list bytes :=
  filter (fun p => p <> []) (TrimSlash <$> paths).

Definition JoinURLPaths (baseURL : bytes) (paths : list bytes) : bytes :=
  let cleanPaths := clean_paths paths in
  let baseURL := TrimRightSlash baseURL in
  match cleanPaths with
  | [] => baseURL
  | _ => baseURL ++ SLASH :: join SLASH cleanPaths
  end.

(** A parsed URL: the raw query and everything else. *)
Record URL (U : Type) : Type := MkURL { RawQuery : bytes; others : U }.
Arguments MkURL {U} _ _.
Arguments RawQuery {U} _.
Arguments others {U} _.

(** Values.Set *)
Definition SetValue (m : Values) (kv : bytes * bytes) : Values := <[kv.1 := [kv.2]]> m.

(** GetURLWithParams; [params] are the entries of the map in the order of the
    range, with the text %v gives the values. *)
Definition GetURLWithParams {U} (Parse : bytes -> gores (URL U)) (String_ : URL U -> bytes)
    (baseURL : bytes) (params : list (bytes * bytes)) : gores bytes :=
  match params with
  | [] => Ok baseURL
  | _ =>
    match Parse baseURL with
    | Err err => Err (ctxerrors.WrapE err "failed to parse base URL")
    | Ok parsedURL =>
      let query := foldl SetValue (ParseQuery (RawQuery parsedURL)) params in
      Ok (String_ (MkURL (Encode query) (others parsedURL)))
    end
  end.

(** ** Query components survive escaping *)

(** A byte that is none of a list of others. *)
Ltac not_in :=
  let H := fresh in
  intros H; repeat (apply elem_of_cons in H as [H|H]; [discriminate H|]); by apply not_elem_of_nil in H.

Lemma unhex_upperhex d : 0 <= d < 16 -> unhex (upperhex d) = Some d.
Proof.
  intros Hd. unfold unhex, upperhex, within.
  rewrite bz_zb by (destruct (d <? 10) eqn:?; lia).
  destruct (Z.ltb_spec d 10); repeat (case_match; try (f_equal; lia)); lia.
Qed.

Lemma unescape_percent c t : QueryUnescape (percent c ++ t) = cons c <$> QueryUnescape t.
Proof.
  pose proof (bz_range c). unfold percent. cbn [app QueryUnescape]. rewrite decide_True by done.
  rewrite !unhex_upperhex by dlia.
  rewrite (lor_shiftl_add (bz c `div` 16) (bz c `mod` 16) 4) by dlia.
  replace (bz c `div` 16 * 2 ^ 4 + bz c `mod` 16) with (bz c) by dlia. by rewrite zb_bz.
Qed.

Lemma unreserved_plain c : unreserved c = true -> c ∉ [PERCENT; PLUS; SPACE; AMP; EQUALS; SEMI].
Proof.
  intros Hc Hin. repeat (apply elem_of_cons in Hin as [->|Hin]; [by vm_compute in Hc|]).
  by apply not_elem_of_nil in Hin.
Qed.

Lemma QueryUnescape_QueryEscape s : QueryUnescape (QueryEscape s) = Some s.
Proof.
  induction s as [|c s IH]; [done|]. unfold QueryEscape in *. rewrite fmap_cons. cbn [concat].
  unfold query_escape at 1, escapeInQuery. destruct (unreserved c) eqn:E; cbn [negb].
  - apply unreserved_plain in E. cbn [app QueryUnescape]. rewrite !decide_False by set_solver. by rewrite IH.
  - case_bool_decide as Hsp.
    + subst c. cbn [app QueryUnescape]. rewrite decide_False, decide_True by done. by rewrite IH.
    + by rewrite unescape_percent, IH.
Qed.

Lemma upperhex_plain d : 0 <= d < 16 -> upperhex d ∉ [AMP; EQUALS; SEMI].
Proof.
  intros Hd Hin. assert (H : unhex (upperhex d) = Some d) by by apply unhex_upperhex.
  repeat (apply elem_of_cons in Hin as [Hin|Hin]; [by rewrite Hin in H|]). by apply not_elem_of_nil in Hin.
Qed.

Lemma QueryEscape_plain s : Forall (fun c => c ∉ [AMP; EQUALS; SEMI]) (QueryEscape s).
Proof.
  unfold QueryEscape. apply Forall_concat, Forall_fmap, Forall_forall. intros c _. simpl.
  unfold query_escape, escapeInQuery. destruct (unreserved c) eqn:E; simpl.
  - apply Forall_singleton. apply unreserved_plain in E. set_solver.
  - pose proof (bz_range c). case_bool_decide; [apply Forall_singleton; not_in|].
    unfold percent. rewrite !Forall_cons, Forall_nil. split; [not_in|].
    split; [apply upperhex_plain; dlia|]. split; [apply upperhex_plain; dlia|done].
Qed.

(** ** What is encoded is parsed back *)

(** The values given for a key, in order. *)
Definition values_of (q : bytes) (kvs : list (bytes * bytes)) : list bytes :=
  (filter (fun kv => kv.1 = q) kvs).*2.

Lemma values_of_cons q k v kvs :
  values_of q ((k, v) :: kvs) = if decide (k = q) then v :: values_of q kvs else values_of q kvs.
Proof. unfold values_of. rewrite filter_cons. simpl. by case_decide. Qed.

Lemma values_of_app q a b : values_of q (a ++ b) = values_of q a ++ values_of q b.
Proof. unfold values_of. by rewrite filter_app, fmap_app. Qed.

Lemma foldl_addValue kvs : forall (m : Values) q,
  foldl addValue m kvs !! q =
  match values_of q kvs with [] => m !! q | vs => Some (default [] (m !! q) ++ vs) end.
Proof.
  induction kvs as [|[k v] kvs IH]; intros m q; [done|]. cbn [foldl]. rewrite IH, values_of_cons.
  unfold addValue. simpl. rewrite lookup_insert. case_decide as Hk.
  - subst k. cbn [default from_option]. destruct (values_of q kvs) as [|x l]; [done|]. f_equal.
    unfold id. by rewrite <- app_assoc.
  - by destruct (values_of q kvs).
Qed.

Lemma parse_encoded m kv : parse_setting m (encode_setting kv) = addValue m kv.
Proof.
  destruct kv as [k v]. unfold parse_setting, encode_setting. simpl.
  pose proof (QueryEscape_plain k) as Hk. pose proof (QueryEscape_plain v) as Hv. rewrite Forall_forall in Hk, Hv.
  assert (HE : EQUALS ∉ QueryEscape k) by (intros H; apply Hk in H; set_solver).
  rewrite bool_decide_false.
  2: { rewrite elem_of_app, elem_of_cons. intros [H|[H|H]]; [apply Hk in H; set_solver|done|apply Hv in H; set_solver]. }
  rewrite cut_app by done.
  destruct (QueryEscape k ++ EQUALS :: QueryEscape v) eqn:E; [by destruct (QueryEscape k)|].
  by rewrite !QueryUnescape_QueryEscape.
Qed.

Lemma encode_setting_plain kv : AMP ∉ encode_setting kv.
Proof.
  unfold encode_setting. rewrite elem_of_app, elem_of_cons.
  pose proof (QueryEscape_plain kv.1) as Hk. pose proof (QueryEscape_plain kv.2) as Hv. rewrite Forall_forall in Hk, Hv.
  intros [H|[H|H]]; [apply Hk in H; set_solver|done|apply Hv in H; set_solver].
Qed.

Lemma parse_settings kvs :
  (length kvs <= maxQueryParams)%nat ->
  ParseQuery (join AMP (encode_setting <$> kvs)) = foldl addValue ∅ kvs.
Proof.
  intros Hlen. destruct kvs as [|kv kvs]; [done|]. unfold ParseQuery.
  rewrite split_join; [|done|apply Forall_fmap, Forall_forall; intros; apply encode_setting_plain].
  rewrite length_fmap. rewrite (proj2 (Nat.ltb_ge maxQueryParams (length (kv :: kvs)))) by done.
  clear Hlen. generalize (∅ : Values). generalize (kv :: kvs). intros l. induction l as [|x l IH]; intros m; [done|].
  cbn [fmap list_fmap foldl]. by rewrite parse_encoded, <- IH.
Qed.

Lemma settings_values m q : values_of q (settings m) = default [] (m !! q).
Proof.
  unfold settings.
  assert (Hp : sorted_keys m ≡ₚ (map_to_list m).*1) by apply merge_sort_Permutation.
  assert (Hnd : NoDup (sorted_keys m)) by (rewrite Hp; apply NoDup_fst_map_to_list).
  assert (Hin : q ∈ sorted_keys m <-> is_Some (m !! q)).
  { rewrite Hp, list_elem_of_fmap. split.
    - intros ([k v] & -> & H). apply elem_of_map_to_list in H. by eexists.
    - intros [v Hv]. exists (q, v). split; [done|]. by apply elem_of_map_to_list. }
  assert (H : forall ks, NoDup ks ->
    values_of q (concat ((fun k => pair k <$> default [] (m !! k)) <$> ks))
    = if decide (q ∈ ks) then default [] (m !! q) else []).
  { clear. induction 1 as [|k ks Hk Hnd IH]; [done|]. rewrite fmap_cons. cbn [concat]. rewrite values_of_app, IH.
    assert (Hone : forall vs, values_of q (pair k <$> vs) = if decide (k = q) then vs else []).
    { intros vs. induction vs as [|v vs IHv]; [by destruct (decide (k = q))|].
      rewrite fmap_cons, values_of_cons, IHv. by destruct (decide (k = q)). }
    rewrite Hone. destruct (decide (k = q)) as [->|Hne].
    - rewrite (decide_False (P := q ∈ ks)), decide_True by set_solver. apply app_nil_r.
    - simpl. destruct (decide (q ∈ ks)); [by rewrite decide_True by set_solver|by rewrite decide_False by set_solver]. }
  rewrite H by done. case_decide as Hq; [done|]. rewrite Hin in Hq. destruct (m !! q); [by destruct Hq|done].
Qed.

(** The number of settings a map is encoded in. *)
Lemma ParseQuery_Encode (m : Values) :
  (forall k, m !! k <> Some []) -> (length (settings m) <= maxQueryParams)%nat -> ParseQuery (Encode m) = m.
Proof.
  intros Hne Hlen. unfold Encode. rewrite parse_settings by done. apply map_eq. intros q.
  rewrite foldl_addValue, settings_values, lookup_empty. specialize (Hne q).
  destruct (m !! q) as [[|v vs]|]; done.
Qed.

(** ** Joining paths *)

Lemma rev_head_last (s : bytes) : head (rev s) = last s.
Proof.
  induction s as [|c s IH] using rev_ind; [done|]. by rewrite rev_unit, last_snoc.
Qed.

Abbreviation slashes := (Forall (fun c => c = SLASH)).

Lemma drop_slashes_head s : head (drop_slashes s) <> Some SLASH.
Proof. induction s as [|c s IH]; simpl; [done|]. case_bool_decide; [done|]. simpl. congruence. Qed.

Lemma drop_slashes_id s : head s <> Some SLASH -> drop_slashes s = s.
Proof. destruct s as [|c s]; simpl; [done|]. intros H. by rewrite bool_decide_false by congruence. Qed.

Lemma drop_slashes_all s : slashes s -> drop_slashes s = [].
Proof. intros H. rewrite <- (app_nil_r s), drop_slashes_app; done. Qed.

Lemma drop_slashes_cases s t :
  slashes s \/ drop_slashes (s ++ t) = drop_slashes s ++ t.
Proof.
  induction s as [|c s IH]; [by left|]. simpl. case_bool_decide as Hc; [|by right].
  destruct IH as [IH|IH]; [left|right; done]. by constructor.
Qed.

Lemma TrimRightSlash_last s : last (TrimRightSlash s) <> Some SLASH.
Proof. unfold TrimRightSlash. rewrite <- rev_head_last, rev_involutive. apply drop_slashes_head. Qed.

Lemma TrimRightSlash_id s : last s <> Some SLASH -> TrimRightSlash s = s.
Proof.
  intros H. unfold TrimRightSlash. rewrite drop_slashes_id by by rewrite rev_head_last. apply rev_involutive.
Qed.

Lemma TrimSlash_slashes a p b : slashes a -> slashes b -> TrimSlash (a ++ p ++ b) = TrimSlash p.
Proof.
  intros Ha Hb. unfold TrimSlash. rewrite drop_slashes_app by done.
  destruct (drop_slashes_cases p b) as [Hp|E]; [|rewrite E; by apply TrimRightSlash_app].
  rewrite drop_slashes_app, !drop_slashes_all by done. done.
Qed.

Lemma clean_paths_in p ps : p ∈ clean_paths ps -> p <> [] /\ last p <> Some SLASH.
Proof.
  unfold clean_paths. rewrite list_elem_of_filter, list_elem_of_fmap. intros [Hne (q & -> & _)].
  split; [done|]. apply TrimRightSlash_last.
Qed.

(** The joined URL: the base and then each part after a slash. *)
Lemma JoinURLPaths_abs base ps : JoinURLPaths base ps = TrimRightSlash base ++ abs (clean_paths ps).
Proof.
  unfold JoinURLPaths. destruct (clean_paths ps) as [|p l]; [by rewrite app_nil_r|].
  by rewrite abs_join.
Qed.

Lemma abs_last ps : clean_paths ps <> [] -> last (abs (clean_paths ps)) <> Some SLASH.
Proof.
  intros Hne. destruct (clean_paths ps) as [|p l _] eqn:E using rev_ind; [done|].
  rewrite abs_app. unfold abs at 2. simpl. rewrite app_nil_r, last_app, last_cons.
  destruct (clean_paths_in p ps) as [Hp Hl]; [rewrite E; set_solver|].
  destruct (last p) eqn:El; [done|]. by apply last_None in El.
Qed.

(** JoinURLPaths treats slashes at the seams as one: (1) the result is the base
    without its trailing slashes followed by a slash and the part, for each part
    that is more than slashes; (2) slashes added at the end of the base or at
    either end of a part change nothing; (3) joining in two steps is joining at once; and
    (4) when there is a part, the result does not end in a slash. *)
Theorem join_url_paths (base : bytes) (ps qs : list bytes) :
  JoinURLPaths base ps = TrimRightSlash base ++ concat ((fun p => SLASH :: p) <$> clean_paths ps) /\
  (forall a b c, slashes a -> slashes b -> slashes c ->
     JoinURLPaths (base ++ a) ((fun p => b ++ p ++ c) <$> ps) = JoinURLPaths base ps) /\
  JoinURLPaths (JoinURLPaths base ps) qs = JoinURLPaths base (ps ++ qs) /\
  (clean_paths ps <> [] -> last (JoinURLPaths base ps) <> Some SLASH).
Proof.
  assert (Hlast : clean_paths ps <> [] -> last (JoinURLPaths base ps) <> Some SLASH).
  { intros Hne. rewrite JoinURLPaths_abs, last_app. pose proof (abs_last ps Hne) as Hl.
    destruct (last (abs (clean_paths ps))) eqn:E; [done|]. apply last_None in E.
    destruct (clean_paths ps); [done|]. by rewrite abs_join in E. }
  split; [apply JoinURLPaths_abs|]. split; [|split; [|done]].
  - intros a b c Ha Hb Hc. rewrite !JoinURLPaths_abs, TrimRightSlash_app by done. do 2 f_equal.
    unfold clean_paths. f_equal. rewrite <- list_fmap_compose. apply list_fmap_ext. intros i p _. simpl.
    by apply TrimSlash_slashes.
  - assert (Hc : clean_paths (ps ++ qs) = clean_paths ps ++ clean_paths qs).
    { unfold clean_paths. by rewrite fmap_app, filter_app. }
    rewrite (JoinURLPaths_abs base (ps ++ qs)), Hc, abs_app, app_assoc, <- JoinURLPaths_abs.
    rewrite JoinURLPaths_abs. f_equal. destruct (decide (clean_paths ps = [])) as [E|E].
    + rewrite JoinURLPaths_abs, E. unfold abs. simpl. rewrite app_nil_r. apply TrimRightSlash_id, TrimRightSlash_last.
    + by apply TrimRightSlash_id, Hlast.
Qed.

(** ** Query parameters *)

Lemma foldl_SetValue kvs : forall (m : Values) q, NoDup kvs.*1 ->
  foldl SetValue m kvs !! q = match list_find (fun kv => kv.1 = q) kvs with
                              | Some (_, (_, v)) => Some [v]
                              | None => m !! q
                              end.
Proof.
  induction kvs as [|[k v] kvs IH]; intros m q Hnd; [done|]. cbn [foldl]. simpl in Hnd.
  apply NoDup_cons in Hnd as [Hk Hnd]. rewrite IH by done. simpl. unfold SetValue. simpl.
  rewrite lookup_insert. case_decide as Hq.
  - subst q. simpl. assert (list_find (fun kv => kv.1 = k) kvs = None) as ->; [|done].
    apply list_find_None, Forall_forall. intros [k' v'] Hin Hk'. simpl in Hk'. subst k'.
    apply Hk. by apply (list_elem_of_fmap_2 fst _ (k, v')).
  - by destruct (list_find (fun kv => kv.1 = q) kvs) as [[i [k' v']]|].
Qed.

(** A parsed query has no key without a value. *)
Lemma ParseQuery_values query k : ParseQuery query !! k <> Some [].
Proof.
  unfold ParseQuery. destruct (_ <? _)%nat; [by rewrite lookup_empty|].
  assert (H : forall l (m : Values), (forall k, m !! k <> Some []) -> foldl parse_setting m l !! k <> Some []).
  { induction l as [|x l IH]; intros m Hm; [apply Hm|]. cbn [foldl]. apply IH. intros q.
    unfold parse_setting. case_bool_decide; [apply Hm|]. destruct x as [|c x]; [apply Hm|].
    destruct (cut EQUALS (c :: x)) as [[key value] found].
    destruct (QueryUnescape key); [|apply Hm]. destruct (QueryUnescape value); [|apply Hm].
    unfold addValue. rewrite lookup_insert. case_decide; [|apply Hm].
    intros [= E]. by apply app_nil in E as [_ E]. }
  apply H. intros q. by rewrite lookup_empty.
Qed.

(** C38. GetURLWithParams: without parameters the URL is returned as it is; otherwise it is the
    parsed URL with a query that, when it is parsed again, gives every parameter
    its one value, whatever bytes it and its key contain, and every other key the values the
    query of the base URL had (up to the 10000 settings net/url parses).  An error
    of the parser is passed on. *)
Theorem url_params_roundtrip {U : Type} (Parse : bytes -> gores (URL U)) (String_ : URL U -> bytes)
    (baseURL : bytes) (params : list (bytes * bytes)) :
  NoDup params.*1 ->
  match params, Parse baseURL with
  | [], _ => GetURLWithParams Parse String_ baseURL params = Ok baseURL
  | _, Err err => exists e, GetURLWithParams Parse String_ baseURL params = Err e /\
      forall t, ctxerrors.Is e t = ctxerrors.Is err t
  | _, Ok u =>
    exists query, GetURLWithParams Parse String_ baseURL params = Ok (String_ (MkURL query (others u))) /\
      ((length (split AMP query) <= 10000)%nat ->
       (forall k v, (k, v) ∈ params -> ParseQuery query !! k = Some [v]) /\
       (forall k, k ∉ params.*1 -> ParseQuery query !! k = ParseQuery (RawQuery u) !! k))
  end.
Proof.
  intros Hnd. unfold GetURLWithParams. destruct params as [|kv kvs]; [done|].
  destruct (Parse baseURL) as [u|err]; [|eexists; split; [reflexivity|done]].
  set (params := kv :: kvs) in *. set (m := foldl SetValue (ParseQuery (RawQuery u)) params).
  exists (Encode m). split; [reflexivity|]. intros Hlen.
  assert (Hm : forall q, m !! q = match list_find (fun kv => kv.1 = q) params with
      | Some (_, (_, v)) => Some [v] | None => ParseQuery (RawQuery u) !! q end).
  { intros q. by apply foldl_SetValue. }
  assert (Hparse : ParseQuery (Encode m) = m).
  { apply ParseQuery_Encode.
    - intros k. rewrite Hm. destruct (list_find _ params) as [[i [k' v']]|]; [done|]. apply ParseQuery_values.
    - unfold Encode in Hlen. destruct (settings m) as [|s l] eqn:E; [simpl; unfold maxQueryParams; lia|].
      rewrite split_join, length_fmap in Hlen; [done|done|].
      apply Forall_fmap, Forall_forall. intros; apply encode_setting_plain. }
  rewrite Hparse. split.
  - intros k v Hin. rewrite Hm. destruct (list_find (fun kv => kv.1 = k) params) as [[i [k' v']]|] eqn:E.
    + apply list_find_Some in E as (Hi & Hk & _). simpl in Hk. subst k'. do 2 f_equal.
      apply list_elem_of_lookup in Hin as [j Hj].
      assert (i = j) as ->; [|congruence].
      eapply (NoDup_lookup params.*1); [done| |]; rewrite list_lookup_fmap; [by rewrite Hi|by rewrite Hj].
    + apply list_find_None in E. rewrite Forall_forall in E. by destruct (E (k, v) Hin).
  - intros k Hk. rewrite Hm. destruct (list_find (fun kv => kv.1 = k) params) as [[i [k' v']]|] eqn:E; [|done].
    apply list_find_Some in E as (Hi & Hk' & _). simpl in Hk'. subst k'. exfalso. apply Hk.
    apply (list_elem_of_fmap_2 fst _ (k, v')). by eapply list_elem_of_lookup_2.
Qed.

(** A parser that only looks for the question mark. *)
Definition demo_Parse (s : bytes) : gores (URL bytes) :=
  let '(rest, query, _) := cut Byte.x3f s in Ok (MkURL query rest).

Lemma url_params_roundtrip_witness :
  GetURLWithParams demo_Parse (fun u => others u ++ Byte.x3f :: RawQuery u) (lit "http://h/p?b=1&a=x%20y")
    [(lit "b", lit "2&3"); (lit "c", [])] = Ok (lit "http://h/p?a=x+y&b=2%263&c=") /\
  ParseQuery (lit "a=x+y&b=2%263&c=") !! lit "b" = Some [lit "2&3"].
Proof.
  destruct (url_params_roundtrip demo_Parse (fun u => others u ++ Byte.x3f :: RawQuery u)
    (lit "http://h/p?b=1&a=x%20y") [(lit "b", lit "2&3"); (lit "c", [])]) as (query & H & _).
  { by apply (bool_decide_eq_true_1 _). }
  split; [|vm_compute; reflexivity]. rewrite H. vm_compute in H. injection H as <-. vm_compute. reflexivity.
Defined.

(** Without a password the user is not escaped: what BuildURI returns then names
    another host. *)
Lemma BuildURI_raw_user :
  BuildURI (lit "amqp") (lit "a/b") [] (lit "host") [] [] = lit "amqp://a/b@host" /\
  BuildURI (lit "amqp") (lit "a/b") (lit "p") (lit "host") [] [] = lit "amqp://a%2Fb:p@host".
Proof. by vm_compute. Qed.
