(* ===== verification/RandUtil.v ===== *)
(** * utils/randutil: random strings

    Random numbers come from a generator with a state; a call of rand.IntN with an
    argument that is not positive panics ([None]). *)

From stdpp Require Import base option list strings.
From Stdlib Require Import ZArith Lia.
From Stdlib.Strings Require Byte.
From S2P Require Import Prelude GoErrors Utf8 Json.

Open Scope Z_scope.

(** ** randutil.go *)

Section Rand.
(** rand.IntN for a positive argument. *)
Context {R : Type} (IntN : Z -> R -> Z * R).

(** The numbers are below the argument. *)
Definition IntN_ok : Prop := forall n s, 0 < n -> 0 <= (IntN n s).1 < n.

Definition InsecureIntN (n : Z) (s : R) : option (Z * R) :=
  if n <=? 0 then None else Some (IntN n s).

(** strconv.FormatInt(n, 16) of a number that is not negative. *)
Fixpoint hex_digits (fuel : nat) (n : Z) (acc : bytes) : bytes :=
  match fuel with
  | O => acc
  | S fuel' =>
    let acc' := hex_digit (n `mod` 16) :: acc in
    if n <? 16 then acc' else hex_digits fuel' (n `div` 16) acc'
  end.

(** Sixteen digits are enough for an int64. *)
Definition FormatHex (n : Z) : bytes := hex_digits 16 n [].

Definition CHAR0 : Byte.byte := Byte.x30.

(** The loop that multiplies, on a 64-bit int. *)
Definition hex_maxVal (length : Z) : Z := Nat.iter (Z.to_nat length) (fun v => wrap64 (v * 16)) 1.

(** The loop that pads; each round adds a character. *)
Definition pad_zeros (n : Z) (s : bytes) : bytes :=
  repeat CHAR0 (Z.to_nat (n - Z.of_nat (length s))) ++ s.

Definition GetRandomHex (n : Z) (s : R) : option (bytes * R) :=
  match InsecureIntN (hex_maxVal n) s with
  | None => None
  | Some (v, s') => Some (pad_zeros n (FormatHex v), s')
  end.

(** The loop of GetRandomAlphanumeric and GetRandomString over the made slice. *)
Fixpoint fill (chars : bytes) (n : nat) (s : R) : option (bytes * R) :=
  match n with
  | O => Some ([], s)
  | S n' =>
    match InsecureIntN (Z.of_nat (length chars)) s with
    | None => None
    | Some (i, s') =>
      match chars !! Z.to_nat i, fill chars n' s' with
      | Some c, Some (rest, s'') => Some (c :: rest, s'')
      | _, _ => None
      end
    end
  end.

(** make panics for a negative length. *)
Definition random_from (chars : bytes) (n : Z) (s : R) : option (bytes * R) :=
  if n <? 0 then None else fill chars (Z.to_nat n) s.

Definition alphanumeric : bytes := lit "ABCDEFGHIJKLMNOPQRSTUVWXYZ0123456789".
Definition string_chars : bytes :=
  lit "ABCDEFGHIJKLMNOPQRSTUVWXYZabcdefghijklmnopqrstuvwxyz0123456789 ".

Definition GetRandomAlphanumeric (n : Z) (s : R) : option (bytes * R) := random_from alphanumeric n s.
Definition GetRandomString (n : Z) (s : R) : option (bytes * R) := random_from string_chars n s.

Definition GetRandomStringInRange (minLength maxLength : Z) (s : R) : option (bytes * R) :=
  match InsecureIntN (wrap64 (maxLength - minLength + 1)) s with
  | None => None
  | Some (i, s') => GetRandomString (wrap64 (i + minLength)) s'
  end.

(** *** Hexadecimal strings *)

(** The number a string of digits stands for. *)
Definition hex_number (s : bytes) : option Z :=
  foldl (fun acc c => match acc, hex_value c with Some a, Some d => Some (a * 16 + d) | _, _ => None end) (Some 0) s.

Lemma hex_number_app s c :
  hex_number (s ++ [c]) = match hex_number s, hex_value c with Some a, Some d => Some (a * 16 + d) | _, _ => None end.
Proof. unfold hex_number. by rewrite foldl_app. Qed.

Lemma hex_number_zeros k s : hex_number (repeat CHAR0 k ++ s) = hex_number s.
Proof. unfold hex_number. induction k as [|k IH]; [done|]. exact IH. Qed.

Lemma hex_digits_spec fuel : forall n acc,
  0 <= n < 16 ^ Z.of_nat fuel -> (1 <= fuel)%nat ->
  exists ds, hex_digits fuel n acc = ds ++ acc /\ hex_number ds = Some n /\
    forall k, (1 <= k)%nat -> n < 16 ^ Z.of_nat k -> (length ds <= k)%nat.
Proof.
  induction fuel as [|fuel IH]; intros n acc Hn Hf; [lia|]. cbn [hex_digits].
  assert (Hd : hex_value (hex_digit (n `mod` 16)) = Some (n `mod` 16)) by (apply hex_value_digit; dlia).
  destruct (Z.ltb_spec n 16) as [Hlt|Hge].
  - exists [hex_digit (n `mod` 16)]. split; [done|]. split; [|intros k Hk _; simpl; lia].
    unfold hex_number. cbn [foldl]. rewrite Hd, Z.mod_small by lia. done.
  - assert (Hpow : 16 ^ Z.of_nat (S fuel) = 16 * 16 ^ Z.of_nat fuel) by (rewrite Nat2Z.inj_succ, Z.pow_succ_r; lia).
    assert (Hf' : (1 <= fuel)%nat) by (destruct fuel; [simpl in Hpow; lia|lia]).
    destruct (IH (n `div` 16) (hex_digit (n `mod` 16) :: acc)) as (ds & -> & Hnum & Hlen); [dlia|done|].
    exists (ds ++ [hex_digit (n `mod` 16)]). split; [by rewrite <- app_assoc|]. split.
    + rewrite hex_number_app, Hnum, Hd. f_equal. dlia.
    + intros [|[|k]] Hk Hnk; [lia|simpl in Hnk; lia|]. rewrite length_app. simpl.
      assert (Hpk : 16 ^ Z.of_nat (S (S k)) = 16 * 16 ^ Z.of_nat (S k)) by (rewrite Nat2Z.inj_succ, Z.pow_succ_r; lia).
      specialize (Hlen (S k) ltac:(lia) ltac:(dlia)). lia.
Qed.

Lemma hex_maxVal_small n : 0 <= n <= 15 -> hex_maxVal n = 16 ^ n.
Proof.
  intros Hn. assert (n ∈ [0;1;2;3;4;5;6;7;8;9;10;11;12;13;14;15]) as Hin.
  { rewrite !elem_of_cons. lia. }
  repeat (apply elem_of_cons in Hin as [->|Hin]; [reflexivity|]). by apply not_elem_of_nil in Hin.
Qed.

Lemma hex_maxVal_big n : 16 <= n -> hex_maxVal n = 0.
Proof.
  intros Hn. unfold hex_maxVal. replace (Z.to_nat n) with ((Z.to_nat n - 16) + 16)%nat by lia.
  rewrite Nat.iter_add. change (Nat.iter 16 (fun v => wrap64 (v * 16)) 1) with 0.
  induction (Z.to_nat n - 16)%nat as [|k IH]; [done|].
  change (wrap64 (Nat.iter k (fun v => wrap64 (v * 16)) 0 * 16) = 0). by rewrite IH.
Qed.

(** *** Characters of an alphabet *)

Lemma fill_spec chars n : forall s, chars <> [] -> IntN_ok ->
  exists r s', fill chars n s = Some (r, s') /\ length r = n /\ Forall (fun c => c ∈ chars) r.
Proof.
  intros s Hc HN. revert s. induction n as [|n IH]; intros s; cbn [fill]; [by eexists _, _|].
  assert (0 < Z.of_nat (length chars)) as Hpos by (destruct chars; simpl; [done|lia]).
  unfold InsecureIntN. rewrite (proj2 (Z.leb_gt _ _)) by done.
  pose proof (HN _ s Hpos) as Hi. destruct (IntN (Z.of_nat (length chars)) s) as [i s']. simpl in Hi.
  destruct (lookup_lt_is_Some_2 chars (Z.to_nat i)) as [c Hlk]; [lia|]. rewrite Hlk.
  destruct (IH s') as (r & s'' & -> & Hlen & Hall). eexists _, _. split; [done|]. simpl. split; [lia|].
  constructor; [|done]. by eapply list_elem_of_lookup_2.
Qed.

Lemma random_from_spec chars n s : chars <> [] -> IntN_ok -> 0 <= n ->
  exists r s', random_from chars n s = Some (r, s') /\ Z.of_nat (length r) = n /\ Forall (fun c => c ∈ chars) r.
Proof.
  intros Hc HN Hn. unfold random_from. rewrite (proj2 (Z.ltb_ge _ _)) by done.
  destruct (fill_spec chars (Z.to_nat n) s Hc HN) as (r & s' & -> & Hlen & Hall). eexists _, _. split; [done|].
  split; [lia|done].
Qed.

(** The random strings, for a generator whose numbers are in range: (1) for one to
    fifteen digits GetRandomHex has exactly that many, and they spell the number
    drawn from [0, 16^n), so every string of that length can come; (2) for sixteen and more the
    maximum wraps around to zero and the call panics; (3) for zero and less it
    returns one digit; (4) the other functions return the
    length asked for, with characters of their alphabet only, GetRandomStringInRange
    a length within the bounds, and panic for a negative length or an empty range. *)
Theorem random_strings (s : R) :
  IntN_ok ->
  (forall n, 1 <= n <= 15 -> exists r, GetRandomHex n s = Some (r, (IntN (16 ^ n) s).2) /\
     Z.of_nat (length r) = n /\ hex_number r = Some (IntN (16 ^ n) s).1) /\
  (forall n, 16 <= n -> GetRandomHex n s = None) /\
  (forall n, n <= 0 -> exists s', GetRandomHex n s = Some (lit "0", s')) /\
  (forall n, 0 <= n -> exists r s', GetRandomAlphanumeric n s = Some (r, s') /\
     Z.of_nat (length r) = n /\ Forall (fun c => c ∈ alphanumeric) r) /\
  (forall n, 0 <= n -> exists r s', GetRandomString n s = Some (r, s') /\
     Z.of_nat (length r) = n /\ Forall (fun c => c ∈ string_chars) r) /\
  (forall lo hi, 0 <= lo <= hi -> hi < 2 ^ 63 - 1 ->
     exists r s', GetRandomStringInRange lo hi s = Some (r, s') /\
       lo <= Z.of_nat (length r) <= hi /\ Forall (fun c => c ∈ string_chars) r) /\
  (forall n, n < 0 -> GetRandomAlphanumeric n s = None /\ GetRandomString n s = None) /\
  (forall lo hi, hi < lo -> int64_range (hi - lo + 1) -> GetRandomStringInRange lo hi s = None).
Proof.
  intros HN. split_and!.
  - intros n Hn. unfold GetRandomHex, InsecureIntN. rewrite hex_maxVal_small by lia.
    assert (Hpos : 0 < 16 ^ n) by (apply Z.pow_pos_nonneg; lia).
    rewrite (proj2 (Z.leb_gt _ _)) by done. pose proof (HN _ s Hpos) as Hv.
    destruct (IntN (16 ^ n) s) as [v s']. simpl in *. eexists. split; [done|].
    assert (Hbig : 16 ^ n <= 16 ^ 15) by (apply Z.pow_le_mono_r; lia).
    destruct (hex_digits_spec 16 v []) as (ds & Hds & Hnum & Hlen); [change (16 ^ Z.of_nat 16) with (16 * 16 ^ 15); lia|lia|].
    unfold FormatHex. rewrite Hds, app_nil_r. unfold pad_zeros.
    specialize (Hlen (Z.to_nat n) ltac:(lia) ltac:(rewrite Z2Nat.id by lia; lia)).
    rewrite hex_number_zeros, length_app, repeat_length. split; [lia|done].
  - intros n Hn. unfold GetRandomHex, InsecureIntN. by rewrite hex_maxVal_big.
  - intros n Hn. unfold GetRandomHex, hex_maxVal. rewrite (Z2Nat.nonpos n) by done. cbn [Nat.iter].
    unfold InsecureIntN. simpl. pose proof (HN 1 s ltac:(lia)) as Hv. destruct (IntN 1 s) as [v s']. simpl in Hv.
    assert (v = 0) as -> by lia. exists s'. do 2 f_equal. unfold pad_zeros.
    change (FormatHex 0) with (lit "0"). by rewrite Z2Nat.nonpos by (simpl; lia).
  - intros n Hn. by apply random_from_spec.
  - intros n Hn. by apply random_from_spec.
  - intros lo hi Hlo Hhi. unfold GetRandomStringInRange, InsecureIntN.
    rewrite wrap64_id by (unfold int64_range; lia). rewrite (proj2 (Z.leb_gt _ _)) by lia.
    pose proof (HN (hi - lo + 1) s ltac:(lia)) as Hv. destruct (IntN (hi - lo + 1) s) as [i s']. simpl in Hv.
    rewrite wrap64_id by (unfold int64_range; lia).
    destruct (random_from_spec string_chars (i + lo) s' ltac:(done) HN ltac:(lia)) as (r & s'' & Hr & Hlen & Hall).
    exists r, s''. split; [done|]. split; [lia|done].
  - intros n Hn. unfold GetRandomAlphanumeric, GetRandomString, random_from.
    by rewrite (proj2 (Z.ltb_lt n 0)).
  - intros lo hi Hlt Hr. unfold GetRandomStringInRange, InsecureIntN. rewrite wrap64_id by done.
    by rewrite (proj2 (Z.leb_le _ _)) by lia.
Qed.
End Rand.

Lemma random_strings_witness :
  (forall n, 16 <= n -> GetRandomHex (fun n s => (s `mod` n, s + 1)) n 7 = None) /\
  GetRandomHex (fun n s => (s `mod` n, s + 1)) 4 0xBEEF = Some (lit "beef", 0xBEF0).
Proof.
  split; [|vm_compute; reflexivity].
  assert (HN : IntN_ok (fun n s => (s `mod` n, s + 1))).
  { intros n s Hn. simpl. by apply Z.mod_pos_bound. }
  exact (proj1 (proj2 (random_strings (fun n s => (s `mod` n, s + 1)) 7 HN))).
Defined.
