(* ===== verification/SmallPkgs.v ===== *)
(** * The small packages: heartbeat, db/models, db/sqlite/gorm, utils/ptrutil and
    utils/jsonutil

    The loop of heartbeat.Start is a step relation with a clock: ticks are due
    every minute, a tick waits in the ticker's one-slot channel, and the loop is
    taken to react to a tick within [delay]. *)

From stdpp Require Import base option list strings relations.
From Stdlib Require Import ZArith Lia.
From Stdlib.Strings Require Byte.
From S2P Require Import Prelude GoErrors Utf8 GoStrings.

Open Scope Z_scope.

(** ** heartbeat.go *)

Definition dir : bytes := lit "/tmp/heartbeat".
Definition interval : Z := 1 * Minute.

(** filepath.Join(dir, name) *)
Definition heartbeat_path (name : bytes) : bytes := Join2 dir name.

Inductive loopState : Type := LSelect | LReturned.

(** [mtime] is the modification time of the heartbeat file, when it exists. *)
Record hb : Type := MkHb {
  clock : Z;
  due : Z;
  tickC : bool;
  done : bool;
  loop : loopState;
  mtime : option Z
}.

(** touch at a time; os.Create may fail. *)
Definition touch (createErr : option error) (now : Z) (m : option Z) : option Z :=
  match createErr with
  | Some _ => m
  | None => Some now
  end.

(** Start up to its loop: nothing happens when the directory cannot be made. *)
Definition Start (mkdirErr createErr : option error) (now : Z) (m : option Z) : hb :=
  match mkdirErr with
  | Some _ => MkHb now now false false LReturned m
  | None => MkHb now (now + interval) false false LSelect (touch createErr now m)
  end.

Inductive hstep (delay : Z) : hb -> hb -> Prop :=
| h_time s d :
    0 <= d -> clock s + d <= due s ->
    (tickC s = true -> loop s = LSelect -> clock s + d <= due s - interval + delay) ->
    hstep delay s (MkHb (clock s + d) (due s) (tickC s) (done s) (loop s) (mtime s))
| h_tick s :
    clock s = due s ->
    hstep delay s (MkHb (clock s) (due s + interval) true (done s) (loop s) (mtime s))
| h_cancel s :
    hstep delay s (MkHb (clock s) (due s) (tickC s) true (loop s) (mtime s))
| h_touch s createErr :
    loop s = LSelect -> tickC s = true ->
    hstep delay s (MkHb (clock s) (due s) false (done s) LSelect (touch createErr (clock s) (mtime s)))
| h_return s :
    loop s = LSelect -> done s = true ->
    hstep delay s (MkHb (clock s) (due s) (tickC s) (done s) LReturned (mtime s)).

(** SeenWithin at the state's time; an error of Stat is a missing file. *)
Definition SeenWithin (d : Z) (s : hb) : bool :=
  match mtime s with
  | None => false
  | Some m => clock s - m <=? d
  end.

(** Steps in which files can be created. *)
Definition hstep_ok (delay : Z) (s s' : hb) : Prop :=
  hstep delay s s' /\ (loop s = LSelect -> tickC s = true -> tickC s' = false -> mtime s' = Some (clock s)).

Definition fresh (delay : Z) (s : hb) : Prop :=
  loop s = LSelect ->
  exists m, mtime s = Some m /\ m <= clock s <= due s /\
    if tickC s then due s - 2 * interval <= m /\ due s - interval <= clock s <= due s - interval + delay
    else due s - interval <= m.

Lemma interval_pos : 0 < interval.
Proof. done. Qed.

Lemma fresh_step delay s s' : 0 <= delay < interval -> fresh delay s -> hstep_ok delay s s' -> fresh delay s'.
Proof.
  intros Hd Hf [Hst Hok]. pose proof interval_pos as Hi. unfold fresh in *.
  destruct Hst as [s d H0 H1 H2|s Hc|s|s ce Hl Ht|s Hl Hdn];
    cbn [loop mtime clock due tickC done] in *; intros Hloop; try discriminate Hloop.
  - destruct (Hf Hloop) as (m & Hm & Hle & Hx). exists m. split; [done|]. split; [lia|].
    destruct (tickC s); [|done]. specialize (H2 eq_refl Hloop). lia.
  - destruct (Hf Hloop) as (m & Hm & Hle & Hx). exists m. split; [done|]. split; [lia|].
    destruct (tickC s); lia.
  - by apply Hf.
  - specialize (Hok Hl Ht eq_refl). destruct (Hf Hl) as (m & Hm & Hle & Hx). rewrite Ht in Hx.
    exists (clock s). split; [done|]. lia.
Qed.

(** While Start runs and files can be created, the heartbeat is seen within an
    interval and the delay of its loop; when the directory cannot be made it never runs. *)
Lemma heartbeat_seen delay now m s :
  0 <= delay < interval ->
  rtc (hstep_ok delay) (Start None None now m) s -> loop s = LSelect ->
  SeenWithin (interval + delay) s = true.
Proof.
  intros Hd Hr. assert (Hf : fresh delay (Start None None now m)).
  { intros _. exists now. pose proof interval_pos. cbn [Start touch mtime clock due tickC]. split; [done|]. lia. }
  generalize dependent (Start None None now m). intros s0 Hr Hf.
  assert (fresh delay s) as Hs by (induction Hr; eauto using fresh_step).
  intros Hl. destruct (Hs Hl) as (x & Hx & Hle & Hb). unfold SeenWithin. rewrite Hx.
  apply Z.leb_le. pose proof interval_pos. destruct (tickC s); lia.
Qed.

(** ** db/models/base.go *)

(** A UUID, 128 bits. *)
Definition NilUUID : Z := 0.

(** Base.BeforeCreate; uuid.New gives [fresh_id]. *)
Definition BeforeCreate (fresh_id id : Z) : Z := if id =? NilUUID then fresh_id else id.

(** ** db/sqlite/gorm/sqlite.go *)

Definition SQLITE_CONSTRAINT_PRIMARYKEY : Z := 1555.
Definition SQLITE_CONSTRAINT_UNIQUE : Z := 2067.
Definition SQLITE_CONSTRAINT_FOREIGNKEY : Z := 787.

Definition ErrDuplicatedKey : error := Sentinel "duplicated key not allowed".
Definition ErrForeignKeyViolated : error := Sentinel "violates foreign key constraint".

Record Dialector : Type := MkDialector { DriverName : bytes; DSN : bytes }.

Definition Open_ (dsn : bytes) : Dialector := MkDialector (lit "sqlite") dsn.

Section Translate.
(** The result code of an error, when it is a *modernsqlite.Error. *)
Context (code : Z -> option Z).

(** errors.As: the first native error of the chain. *)
Fixpoint As_native (e : error) : option Z :=
  match e with
  | ForeignError id => code id
  | CTXError (Some e') _ => As_native e'
  | JoinError es => foldr (fun e' r => match As_native e' with Some c => Some c | None => r end) None es
  | _ => None
  end.

Definition Translate (err : option error) : option error :=
  match err ≫= As_native with
  | None => err
  | Some c =>
    if (c =? SQLITE_CONSTRAINT_PRIMARYKEY) || (c =? SQLITE_CONSTRAINT_UNIQUE) then Some ErrDuplicatedKey
    else if c =? SQLITE_CONSTRAINT_FOREIGNKEY then Some ErrForeignKeyViolated
    else err
  end.

(** The sentinels stand for exactly the constraint codes, also under wrappers;
    any other error is returned itself. *)
Lemma Translate_spec err msg :
  Translate (Some (ctxerrors.WrapE err msg)) =
  match As_native err with
  | Some 1555 | Some 2067 => Some ErrDuplicatedKey
  | Some 787 => Some ErrForeignKeyViolated
  | _ => Some (ctxerrors.WrapE err msg)
  end.
Proof.
  unfold Translate. simpl. destruct (As_native err) as [c|]; [|done].
  unfold SQLITE_CONSTRAINT_PRIMARYKEY, SQLITE_CONSTRAINT_UNIQUE, SQLITE_CONSTRAINT_FOREIGNKEY.
  destruct (Z.eqb_spec c 1555) as [->|H1]; [done|]. destruct (Z.eqb_spec c 2067) as [->|H2]; [done|].
  destruct (Z.eqb_spec c 787) as [->|H3]; [done|]. simpl.
  repeat (case_match; subst; try done).
Qed.
End Translate.

(** ** utils/ptrutil and utils/jsonutil *)

(** A pointer is an option; nobody else holds the one Of allocates. *)
Definition Of {T} (v : T) : option T := Some v.
Definition ZeroOrVal {T} (zero : T) (ptr : option T) : T := match ptr with Some v => v | None => zero end.
Definition DefaultOrVal {T} (ptr : option T) (defaultVal : T) : T :=
  match ptr with Some v => v | None => defaultVal end.

(** GetAsJSONBytes and GetAsJSONString; [marshalled] is what json.MarshalIndent
    gives, a nil slice is empty. *)
Definition GetAsJSONBytes (marshalled : gores bytes) : bytes :=
  match marshalled with Ok jsonBytes => jsonBytes | Err _ => [] end.
Definition GetAsJSONString (marshalled : gores bytes) : bytes := GetAsJSONBytes marshalled.
